(* ===== verification/_CoqProject ===== *)
-Q . S2P
Prelude.v
StdMap.v
Types.v
Heap.v
Pool.v
PoolLock.v
PriceLevel.v
OrderBook.v
Latency.v
Recorders.v
Matcher.v
MatchSpec.v
SubmitSpec.v
CancelSpec.v
Turns.v
Priority.v
MatcherProps.v
Codec.v
Framer.v
Session.v
Contract.v
Chain.v
Registry.v
Sweeper.v
Engine.v
EndOfDay.v
Dispatcher.v
Spsc.v
Sharded.v
Workers.v
Progress.v
Drain.v
WaitIdle.v
Fair.v
Tcp.v
Typed.v
Pumping.v
Exchange.v
Server.v
Client.v
Lifecycle.v
