(* ===== verification/Prelude.v ===== *)
(** * ordbk-match: a verification development of the matching engine

    The program is a C++20 exchange core.  A client's bytes come in through a
    session, are framed and decoded, dispatched to an engine that keeps one
    limit order book per instrument, and the answers are encoded back.  A TCP
    server runs a session per connection, a client talks to it, and a sharded
    engine runs several engines on worker threads.  This
    library models that program function by function and proves what its parts
    promise.  Paths are relative to the repository's root.

    ** The parts and their files

    - [Prelude], [StdMap], [Heap]: undefined behaviour as [None], machine
      integers, tactics and hints; [std::map], [std::multimap] and
      [std::unordered_map]; pointers into a slab.
    - [Types]: include/ordbk/core/types.hpp, orderbook/order.hpp and trade.hpp.
    - [Pool]: include/ordbk/utils/pool.hpp, the slab allocator all orders live
      in.  An [Order*] is an index into the slab.  [PoolLock]: its operations
      statement by statement, by any number of threads under the mutex.
    - [PriceLevel]: the intrusive doubly linked list of orderbook.hpp, on the
      real [level_prev] and [level_next] links.
    - [OrderBook]: include/ordbk/orderbook/orderbook.hpp, src/orderbook: two
      ordered maps of levels and the index from ids to orders.
    - [Latency]: include/ordbk/utils/latency.hpp; [Recorders]: any number of
      threads recording on one tracker.
    - [Matcher]: src/matching/matcher.cpp: [submit], [cancel], [cancel_all].
      [MatchSpec], [SubmitSpec], [CancelSpec] hold its specification on plain
      lists of orders ([a_submit], [a_cancel]) and the refinement proofs,
      [Turns] the matching loop stopped after any turn, [Priority] what the
      specification implies, [MatcherProps] the theorems.
    - [Codec], [Framer], [Session]: src/protocol: the wire format, reassembly of
      messages from a byte stream, and a client's connection state.
    - [Contract], [Chain], [Registry]: src/instruments: option contracts and
      their OCC symbols, option chains, the registry of instruments.
    - [Sweeper], [Engine]: src/matching/sweeper.cpp and engine.cpp: expiry, and
      the books of all instruments over one pool; [EndOfDay]: the engine as the
      sweeper's callback.
    - [Dispatcher]: src/gateway/dispatcher.cpp: messages to engine calls and
      results to messages.  [Exchange]: any number of sessions over one
      dispatcher and engine, and the exchange they implement: a specification of
      books, sessions and free slots with one function per message.
    - [Spsc]: include/ordbk/utils/spsc_ring_buffer.hpp: the lock-free ring.
    - [Sharded]: src/matching/sharded_engine.cpp: worker threads, each with an
      engine of its own behind a ring, a command in one step; [Workers]: the
      commands of all workers at the same time, stopping at every turn of the
      matching loop and every pool operation; [Progress]: the same with the
      pool's mutex, and that commands end; [WaitIdle]: the thread that waits
      for them; [Drain] that they can always finish, [Fair] that they do under a
      fair schedule.
    - [Tcp]: src/gateway/tcp.cpp: the socket calls the gateway makes.
    - [Typed], [Pumping]: the ranges of the C++ types and that all operations
      keep within them; a pump as draining the framer and then handling the
      messages.
    - [Server]: the loop of [Server::session_loop] over a socket, a session, the
      dispatcher and the engine; [Lifecycle]: [start], [stop], [accept_loop] and
      the session threads of src/gateway/server.cpp as interleaved threads over
      the open descriptors.
    - [Client]: src/gateway/client.cpp, and the client and the server's session
      at the two ends of a connection.

    Records keep the source's members and each function of the source is one
    definition with the source's guards, early returns and order of effects.
    Calls are state passing: a matcher works on its book and on [Sys], the
    process state all matchers share (the pool and the clock); the dispatcher
    on [World] (session, engine and [Sys]).  A call with undefined behaviour (a
    null or dangling pointer, a bad subscript, an endless list walk, a signed
    overflow) is [None], so every theorem of the form "the call is [Some]" is
    also a safety theorem.  C++ exceptions are the right side of a sum.

    ** What the theorems show

    - Matching (C1 to C8): [submit] is total and refines [a_submit]; price-time
      priority; conservation of quantity; orders are filled as far as the
      liquidity within the limit allows; fill-or-kill semantics; an uncrossed
      book stays so; slots go back to the pool exactly when their order is
      filled; the fill-or-kill look-ahead agrees with the matching loop.
    - Cancelling (C9 to C11): [cancel] refines [a_cancel] on books with
      distinct ids; what happens with duplicate ids; what [cancel_all] really
      does.
    - Building blocks (C12 to C16): the pool never hands out a slot twice and
      fails only when it has none, and its mutex makes its operations atomic;
      the latency recorder counts every sample of every thread once; price
      levels as FIFO queues; market data.
    - Wire (C17 and C18): codec round trip, safe decoding of any bytes.
    - Instruments (C19 to C22): OCC symbols, chains as tables, registry, the end
      of a day.
    - Engine and dispatcher (C23 to C27): routing and isolation, expiry; [pump]
      survives any bytes and follows the session life cycle; any number of
      sessions implement one exchange, and every slot of the pool is accounted
      for.
    - Gateway (C28 to C32): the server's loop is one pump of the byte stream,
      however it is cut; a session's memory is bounded; end to end, requests
      are handled and replies received in order and each once; shutting down
      closes everything, and [stop] returns when the calls its threads are in do,
      and not before.
    - Threads (C33 to C40): the ring is a FIFO queue without data races under
      stale acquire loads; the sharded engine refines one engine; commands that
      run at the same time have the outcome of running them one after the
      other, and each ends after a bounded number of its worker's steps;
      [wait_idle] may be trusted; under a fair schedule every command is run,
      and workers come to rest or exit.

    Unnumbered theorems of the same weight: [framer_chunk_independent],
    [chain_expiring_exact], [send_all_exact], [new_order_answered],
    [reject_reason_accurate], [snapshot_of_samples], [sweep_exact],
    [ring_wait_free], [pool_call_completes] (the mutex cannot deadlock),
    [worker_alone] (the stopping worker of [Workers] and the command in one
    step of [Sharded] agree) and [sharded_can_drain].

    C10 and C11 state behaviour that is not what the code means to do, as do
    the unnumbered theorems [sweeper_duplicate_registration],
    [latency_snapshot_mean_zero] and [immediate_partial_fill_leaks] and the
    examples [ex_bad_frame_waits], [ex_double_close], [ex_stop_waits],
    [ex_start_failed], [ex_startup_failed_once], [ex_maker_not_told] and
    [ex_cancel_of_another]; the others are what makes the code correct.

    ** Invariants and interfaces

    [minv] ties a book to the ghost lists of slots of its levels: well-formed
    links, sorted levels, a sound id index, quantities in range, slots
    allocated.  [engine_ok] has one [minv] per instrument with disjoint slots.
    [ring_inv] and [shard_ok] are the invariants of the thread models, proved
    by rule induction over every interleaving, and so is [server_ok] for the
    server's threads, [locked_ok] for the threads in the pool, and [pit_ok] and
    [floor_ok] for the workers in the middle of their commands; [recorders_ok]
    is that of the threads that record, [x_impl] ties the engine and the pool
    to the exchange; [loop_inv] and [client_inv] are those of the two loops
    over a socket.  [TcpSocket] and [SocketApi] are what the operating system
    offers to the gateway, [TcpLaws] and [SocketLaws] what is assumed of it;
    each has an instance, so that the assumptions can hold.  [HasHeap] is the
    interface between list walks and the state they run on; [StrictTotal] that
    between the map lemmas and the orders of prices and dates.

    ** Loops, fuel and bounds

    [match_loop] has fuel for one turn more than the pool has slots, since every
    turn but the last takes an order off the book; list walks have fuel for one
    turn more than the slab has slots; [drain] and [pump] for the bytes in the
    buffer, since each message takes at least a header; [send_all] for the bytes
    to send, and [recv] for one turn more than the longest message has bytes,
    since every other turn receives a byte.  [session_loop] is unbounded in the
    source: it runs for a given number of turns, and its theorems hold for every
    number.  The totality theorems
    prove these sufficient, so no result is conditional on fuel.  64-bit
    quantities and counters wrap as in C++; the pool's capacity is at most
    0xFFFFFFFE, as the constructor asserts.

    ** Assumptions and what is not modelled

    The steady clock is a parameter, [clock n] being the n-th reading; nothing
    is assumed of it.  Pool operations are one step each everywhere but in
    [PoolLock], which shows that they may be (C13), and [Progress], where a
    thread has to take the mutex first; no fairness of the mutex is assumed.  A
    matcher's tracker is recorded to by one thread in [Matcher] and by any
    number in [Recorders].  In [Sharded] running one command is one step;
    [Workers] takes it apart, and C36 says that the outcome is the same.  There
    a worker's steps between two stops are taken together: they touch nothing
    that another thread touches.  Clients write only to orders they have
    acquired and not yet submitted.

    Of the operating system it is assumed that [send] accepts a prefix of the
    data or fails, that [recv] delivers bytes or fails, and that a new
    descriptor is one that is not open.  Nothing is assumed of what [close]
    does to calls of other threads: they may go on, fail or succeed.  The reads
    of [listener_] in the acceptor and of [stack_top_] in [available_approx]
    race with writes of other threads; they are modelled as reads of the
    current value.  C28 to C30 are about a server with one session at a time:
    the source runs the sessions of several connections on one engine without a
    lock, which has no defined behaviour to model.  C26 and C27 have any number
    of sessions, pumped by one thread.  [Lifecycle] has any number of sessions,
    without what they do to the engine.  C39 and C40 assume that workers keep
    running and that a store becomes visible in a finite time, which C++
    recommends to implementations; C26 assumes that no order id is used twice
    for an instrument, and so does the last part of C27; the last part of C22
    assumes that no instrument is registered twice, that of C14 that counts and
    sums fit in 64 bits; C36 assumes that no id is used while an order of the
    same book has it, C38 that fewer than 2^64 commands are pushed to a shard
    and that no client is sending.

    Not modelled: the operating system; the Windows branches of
    tcp.cpp but for [init_once];
    main.cpp and version.hpp (a banner); the headers that only rename a class;
    tests and benchmarks. *)

From Stdlib Require Export ZArith Lia Sorted.
From stdpp Require Export gmap numbers option sorting.
From stdpp Require Export base list relations.

(** ** Undefined behaviour

    A C++ operation that may have undefined behaviour (a null or dangling
    dereference, an out-of-range subscript, an end iterator dereferenced, a
    list walk that never ends) returns [option]: [None] is the undefined
    outcome, so "[f x = Some r]" says that the call is defined and returns [r]. *)

Declare Scope ordbk_scope.
Delimit Scope ordbk_scope with ordbk.

Abbreviation res := option (only parsing).

Notation "'let*' x ':=' e 'in' k" :=
  (match e with Some x => k | None => None end)
  (at level 10, x pattern, e at level 200, k at level 200,
   format "'[v' 'let*'  x  ':='  e  'in' '/' k ']'") : ordbk_scope.

(** [guard* b in k]: undefined unless [b] holds. *)
Notation "'guard*' b 'in' k" :=
  (if b then k else None)
  (at level 10, b at level 200, k at level 200,
   format "'[v' 'guard*'  b  'in' '/' k ']'") : ordbk_scope.

Open Scope ordbk_scope.

(** ** Machine integers

    An integer of width [w] is a [Z]; arithmetic that may leave the range is
    written with its wrap-around. *)

Definition wrap (w z : Z) : Z := z `mod` 2 ^ w.
Definition in_u (w z : Z) : Prop := (0 ≤ z < 2 ^ w)%Z.
Definition in_i (w z : Z) : Prop := (- 2 ^ (w - 1) ≤ z < 2 ^ (w - 1))%Z.

#[global] Arguments wrap : simpl never.

Abbreviation u8 := (wrap 8).
Abbreviation u16 := (wrap 16).
Abbreviation u32 := (wrap 32).
Abbreviation u64 := (wrap 64).

(** [static_cast<std::int64_t>] of an unsigned 64-bit value (two's complement,
    C++20). *)
Definition i64 (z : Z) : Z :=
  let u := u64 z in if (u <? 2 ^ 63)%Z then u else (u - 2 ^ 64)%Z.

#[export] Instance in_u_dec w z : Decision (in_u w z).
Proof. unfold in_u. apply _. Defined.
#[export] Instance in_i_dec w z : Decision (in_i w z).
Proof. unfold in_i. apply _. Defined.

(** ** Tactics and hint databases *)

Create HintDb ordbk.
Create Rewrite HintDb ordbk.

(** Case analysis on every [match] or [if] that blocks a computation which a
    hypothesis says has ended. *)
Ltac run H :=
  repeat (let E := fresh "E" in
          match type of H with
          | context [match ?e with _ => _ end] =>
              lazymatch e with
              | context [match _ with _ => _ end] => fail
              | _ => destruct e eqn:E; try discriminate H
              end
          end; simpl in H).

(** Decide boolean tests of the code in the context and the goal. *)
Ltac zbool :=
  repeat match goal with
  | H : (_ =? _)%Z = true |- _ => apply Z.eqb_eq in H
  | H : (_ =? _)%Z = false |- _ => apply Z.eqb_neq in H
  | H : (_ <? _)%Z = true |- _ => apply Z.ltb_lt in H
  | H : (_ <? _)%Z = false |- _ => apply Z.ltb_ge in H
  | H : (_ <=? _)%Z = true |- _ => apply Z.leb_le in H
  | H : (_ <=? _)%Z = false |- _ => apply Z.leb_gt in H
  | H : _ && _ = true |- _ => apply andb_true_iff in H as [? ?]
  | H : _ || _ = false |- _ => apply orb_false_iff in H as [? ?]
  | H : negb _ = true |- _ => apply negb_true_iff in H
  | H : negb _ = false |- _ => apply negb_false_iff in H
  end.

(** ** Lemmas on machine integers *)

Lemma wrap_in_u w z : (0 ≤ w)%Z → in_u w (wrap w z).
Proof. intros. unfold in_u, wrap. apply Z.mod_pos_bound. lia. Qed.

Lemma wrap_small w z : in_u w z → wrap w z = z.
Proof. intros. unfold wrap. by apply Z.mod_small. Qed.

Lemma wrap_wrap w z : wrap w (wrap w z) = wrap w z.
Proof. unfold wrap. apply Zmod_mod. Qed.

Lemma wrap_add_l w a b : wrap w (wrap w a + b) = wrap w (a + b).
Proof. unfold wrap. apply Zplus_mod_idemp_l. Qed.

Lemma wrap_add_r w a b : wrap w (a + wrap w b) = wrap w (a + b).
Proof. unfold wrap. apply Zplus_mod_idemp_r. Qed.

Lemma wrap_0 w : (0 ≤ w)%Z → wrap w 0 = 0%Z.
Proof. intros. unfold wrap. apply Zmod_0_l. Qed.

#[export] Hint Resolve wrap_in_u : ordbk.
#[export] Hint Rewrite wrap_wrap wrap_add_l wrap_add_r : ordbk.

Lemma i64_of_u64 z : in_i 64 z → i64 (u64 z) = z.
Proof.
  unfold in_i, i64, wrap. intros Hz. rewrite Zmod_mod.
  destruct (Z.ltb_spec (z `mod` 2 ^ 64) (2 ^ 63));
    destruct (Z_lt_le_dec z 0);
    try (rewrite (Z.mod_small z) in * by lia; lia).
  - rewrite <- (Z_mod_plus_full z 1), Z.mod_small in H by lia. lia.
  - rewrite <- (Z_mod_plus_full z 1), Z.mod_small by lia. lia.
Qed.

(** ** Lemmas on lists *)

Lemma NoDup_snoc {A} (x : A) l : NoDup (l ++ [x]) ↔ NoDup l ∧ x ∉ l.
Proof.
  rewrite NoDup_app. split.
  - intros (? & Hd & _). split; [done|]. intros Hx. apply (Hd x Hx). set_solver.
  - intros [? ?]. split_and!; [done| |apply NoDup_singleton].
    intros y Hy Hyx. apply list_elem_of_singleton in Hyx as ->. done.
Qed.

Lemma NoDup_bound (n : nat) (l : list nat) :
  NoDup l → (∀ x, x ∈ l → x < n) → length l ≤ n.
Proof.
  intros Hnd Hlt. replace n with (length (seq 0 n)) by apply length_seq.
  apply submseteq_length, NoDup_submseteq; [done|].
  intros x Hx. apply elem_of_seq. specialize (Hlt x Hx). lia.
Qed.

Lemma filter_all {A} (P : A → Prop) `{!∀ x, Decision (P x)} (l : list A) :
  (∀ x, x ∈ l → P x) → filter P l = l.
Proof.
  induction l as [|x l IH]; intros Hl; [done|].
  rewrite filter_cons_True by (apply Hl; left). rewrite IH; [done|]. intros y Hy. apply Hl. by right.
Qed.

Lemma filter_none {A} (P : A → Prop) `{!∀ x, Decision (P x)} (l : list A) :
  (∀ x, x ∈ l → ¬ P x) → filter P l = [].
Proof.
  induction l as [|x l IH]; intros Hl; [done|].
  rewrite filter_cons_False by (apply Hl; left). apply IH. intros y Hy. apply Hl. by right.
Qed.

(** ** Reachability *)

(** An invariant of every step holds of every reachable state. *)
Lemma rtc_invariant {A} (R : relation A) (I : A → Prop) x y :
  (∀ a b, I a → R a b → I b) → I x → rtc R x y → I y.
Proof. intros Hstep Hx Hr. induction Hr; eauto. Qed.

(** Replacing one element of a list of lists. *)
Lemma bind_insert_perm {A B} (f : A → list B) (l : list A) i x y :
  l !! i = Some x → <[i := y]> l ≫= f ≡ₚ f y ++ (delete i l ≫= f).
Proof.
  intros Hi. pose proof (lookup_lt_Some _ _ _ Hi) as Hlt.
  rewrite insert_take_drop, delete_take_drop, !bind_app by done. simpl.
  by rewrite (Permutation_app_swap_app (take i l ≫= f)).
Qed.

(** ** Sums *)

Definition sumZ (l : list Z) : Z := foldr Z.add 0%Z l.

Lemma sumZ_app l1 l2 : sumZ (l1 ++ l2) = (sumZ l1 + sumZ l2)%Z.
Proof. unfold sumZ. induction l1; simpl in *; lia. Qed.

Lemma sumZ_nonneg l : Forall (λ z, 0 ≤ z)%Z l → (0 ≤ sumZ l)%Z.
Proof. unfold sumZ. induction 1; simpl; lia. Qed.
