(* ===== verification/StdMap.v ===== *)
(** * [std::map] and [std::multimap]

    A [std::map<K, V, Cmp>] is the list of its entries in iteration order,
    strictly sorted by the comparator; [begin()] is the head of the list.
    A [std::multimap] is sorted weakly and keeps equal keys in insertion
    order.  The comparator is a parameter with its strict total order laws as
    a class: the book uses [std::greater] for bids and [std::less] for asks. *)

From S2P Require Import Prelude.

Class StrictTotal {K} (ltb : K → K → bool) := {
  ltb_irrefl : ∀ a, ltb a a = false;
  ltb_trans : ∀ a b c, ltb a b = true → ltb b c = true → ltb a c = true;
  ltb_total : ∀ a b, ltb a b = false → ltb b a = false → a = b }.

Section operations.
Context {K V : Type} (ltb : K → K → bool).

(** [find(k)] *)
Fixpoint map_find (k : K) (m : list (K * V)) : option V :=
  match m with
  | [] => None
  | (k', v) :: m' =>
      if ltb k' k then map_find k m' else if ltb k k' then None else Some v
  end.

(** [m[k] = v]: insert, or overwrite the mapped value. *)
Fixpoint map_set (k : K) (v : V) (m : list (K * V)) : list (K * V) :=
  match m with
  | [] => [(k, v)]
  | (k', v') :: m' =>
      if ltb k' k then (k', v') :: map_set k v m'
      else if ltb k k' then (k, v) :: m else (k, v) :: m'
  end.

(** [erase(k)] *)
Fixpoint map_erase (k : K) (m : list (K * V)) : list (K * V) :=
  match m with
  | [] => []
  | (k', v') :: m' =>
      if ltb k' k then (k', v') :: map_erase k m'
      else if ltb k k' then m else m'
  end.

(** [multimap::emplace(k, v)]: at the upper bound of [k]'s range. *)
Fixpoint mmap_emplace (k : K) (v : V) (m : list (K * V)) : list (K * V) :=
  match m with
  | [] => [(k, v)]
  | (k', v') :: m' =>
      if ltb k k' then (k, v) :: m else (k', v') :: mmap_emplace k v m'
  end.

Definition map_sorted (m : list (K * V)) : Prop :=
  StronglySorted (λ a b, ltb a b = true) m.*1.
Definition mmap_sorted (m : list (K * V)) : Prop :=
  StronglySorted (λ a b, ltb b a = false) m.*1.
End operations.

(** [unordered_map::emplace]: an existing entry is kept. *)
Definition umap_emplace {K V} `{Countable K} (k : K) (v : V) (m : gmap K V) : gmap K V :=
  match m !! k with Some _ => m | None => <[k := v]> m end.

(** Key-wise relation of two ordered maps. *)
Definition map_rel {K V W} (R : K → V → W → Prop) : list (K * V) → list (K * W) → Prop :=
  Forall2 (λ a b, a.1 = b.1 ∧ R a.1 a.2 b.2).

(** ** Comparators of the program *)

#[export] Instance Z_ltb_total : StrictTotal Z.ltb.
Proof.
  split; intros *; rewrite ?Z.ltb_irrefl, ?Z.ltb_lt, ?Z.ltb_ge; [done|lia|lia].
Qed.

#[export] Instance Z_gtb_total : StrictTotal Z.gtb.
Proof.
  split; intros *; rewrite ?Z.gtb_ltb, ?Z.ltb_irrefl, ?Z.ltb_lt, ?Z.ltb_ge; [done|lia|lia].
Qed.

(** ** The ordered map behaves as a finite map *)

Section laws.
Context {K V : Type} (ltb : K → K → bool) `{!StrictTotal ltb}.
Implicit Types (k : K) (v : V) (m : list (K * V)).

Lemma ltb_asym a b : ltb a b = true → ltb b a = false.
Proof.
  intros H. destruct (ltb b a) eqn:E; [|done].
  pose proof (ltb_trans _ _ _ H E) as X. by rewrite ltb_irrefl in X.
Qed.

Lemma map_sorted_cons k v m :
  map_sorted ltb ((k, v) :: m) ↔ (∀ a, a ∈ m.*1 → ltb k a = true) ∧ map_sorted ltb m.
Proof.
  unfold map_sorted. simpl. split.
  - intros [? Hf]%StronglySorted_inv. split; [|done]. intros a Ha.
    by eapply Forall_forall in Hf.
  - intros [Hf ?]. constructor; [done|]. by apply Forall_forall.
Qed.

Lemma map_find_elem k v m : map_sorted ltb m → map_find ltb k m = Some v ↔ (k, v) ∈ m.
Proof.
  induction m as [|[k' v'] m IH]; simpl; [intros _; split; [done|set_solver]|].
  intros [Hk Hs]%map_sorted_cons. rewrite elem_of_cons, <- (IH Hs).
  destruct (ltb k' k) eqn:E1; [|destruct (ltb k k') eqn:E2].
  - split; [by right|]. intros [?|?]; [|done]. simplify_eq. by rewrite ltb_irrefl in E1.
  - split; [done|]. intros [?|Hf%IH]; [simplify_eq; by rewrite ltb_irrefl in E2| |done].
    apply (list_elem_of_fmap_2 fst) in Hf as Hf'; simpl in Hf'.
    rewrite (Hk k) in E1; [done|set_solver].
  - pose proof (ltb_total _ _ E1 E2). subst. split; [intros; simplify_eq; by left|].
    intros [?|Hf%IH]; [by simplify_eq| |done].
    assert (k ∈ m.*1) as Hf' by (apply list_elem_of_fmap; by exists (k, v)).
    apply Hk in Hf'. by rewrite ltb_irrefl in Hf'.
Qed.

Lemma map_find_set k v k' m :
  map_sorted ltb m →
  map_find ltb k' (map_set ltb k v m) =
  if ltb k k' || ltb k' k then map_find ltb k' m else Some v.
Proof.
  induction m as [|[k0 v0] m IH]; simpl.
  { intros _. destruct (ltb k k'), (ltb k' k); done. }
  intros [Hk Hs]%map_sorted_cons.
  destruct (ltb k0 k) eqn:E1; simpl.
  - rewrite (IH Hs). destruct (ltb k0 k') eqn:E2; [done|].
    destruct (ltb k' k0) eqn:E3.
    + rewrite (ltb_trans _ _ _ E3 E1), orb_true_r. done.
    + pose proof (ltb_total _ _ E2 E3) as ->. by rewrite E1, orb_true_r.
  - destruct (ltb k k0) eqn:E2; simpl.
    + destruct (ltb k k') eqn:E3; simpl; [done|].
      destruct (ltb k' k) eqn:E4; [|done].
      rewrite (ltb_trans _ _ _ E4 E2), (ltb_asym _ _ (ltb_trans _ _ _ E4 E2)). done.
    + pose proof (ltb_total _ _ E1 E2). subst.
      destruct (ltb k k') eqn:E3; simpl; [done|]. by destruct (ltb k' k).
Qed.

Lemma map_set_keys k v m a : a ∈ (map_set ltb k v m).*1 → a = k ∨ a ∈ m.*1.
Proof.
  induction m as [|[k0 v0] m IH]; simpl; [set_solver|].
  destruct (ltb k0 k); [|destruct (ltb k k0)]; simpl; rewrite !elem_of_cons; tauto.
Qed.

Lemma map_set_sorted k v m : map_sorted ltb m → map_sorted ltb (map_set ltb k v m).
Proof.
  induction m as [|[k0 v0] m IH]; simpl.
  { intros _. apply map_sorted_cons. split; [simpl; set_solver|constructor]. }
  intros [Hk Hs]%map_sorted_cons.
  destruct (ltb k0 k) eqn:E1; [|destruct (ltb k k0) eqn:E2]; apply map_sorted_cons.
  - split; [|auto]. intros a [->|Ha]%map_set_keys; auto.
  - split; [|by apply map_sorted_cons]. simpl. intros a [->|Ha]%elem_of_cons; [done|].
    eapply ltb_trans; eauto.
  - pose proof (ltb_total _ _ E1 E2). by subst.
Qed.

Lemma map_erase_sub k m a : a ∈ map_erase ltb k m → a ∈ m.
Proof.
  induction m as [|[k0 v0] m IH]; simpl; [done|].
  destruct (ltb k0 k); [|destruct (ltb k k0)]; rewrite ?elem_of_cons; tauto.
Qed.

Lemma map_erase_sorted k m : map_sorted ltb m → map_sorted ltb (map_erase ltb k m).
Proof.
  induction m as [|[k0 v0] m IH]; simpl; [done|].
  intros [Hk Hs]%map_sorted_cons.
  destruct (ltb k0 k); [|destruct (ltb k k0)]; [|by apply map_sorted_cons|done].
  apply map_sorted_cons. split; [|auto]. intros a Ha. apply Hk.
  apply list_elem_of_fmap in Ha as (b & -> & Hb%map_erase_sub). by apply list_elem_of_fmap_2.
Qed.

Lemma map_find_erase k k' m :
  map_sorted ltb m →
  map_find ltb k' (map_erase ltb k m) =
  if ltb k k' || ltb k' k then map_find ltb k' m else None.
Proof.
  induction m as [|[k0 v0] m IH]; simpl; [by intros; case_match|].
  intros [Hk Hs]%map_sorted_cons.
  destruct (ltb k0 k) eqn:E1; simpl.
  - rewrite (IH Hs). destruct (ltb k0 k') eqn:E2; [done|].
    destruct (ltb k' k0) eqn:E3.
    + by rewrite (ltb_trans _ _ _ E3 E1), orb_true_r.
    + pose proof (ltb_total _ _ E2 E3) as ->. by rewrite E1, orb_true_r.
  - destruct (ltb k k0) eqn:E2; simpl.
    + destruct (ltb k k') eqn:E3; simpl; [done|]. destruct (ltb k' k) eqn:E4.
      * by rewrite (ltb_trans _ _ _ E4 E2), (ltb_asym _ _ (ltb_trans _ _ _ E4 E2)).
      * pose proof (ltb_total _ _ E3 E4). subst. by rewrite E1, E2.
    + pose proof (ltb_total _ _ E1 E2). subst.
      destruct (map_find ltb k' m) as [v|] eqn:Ef.
      * apply (map_find_elem _ _ _ Hs) in Ef.
        rewrite (Hk k'); [done|]. by apply (list_elem_of_fmap_2 fst _ (k', v)).
      * destruct (ltb k k'); simpl; [done|]. by destruct (ltb k' k).
Qed.

Lemma elem_of_map_set k v q w m :
  map_sorted ltb m →
  (q, w) ∈ map_set ltb k v m ↔ (q = k ∧ w = v) ∨ (q ≠ k ∧ (q, w) ∈ m).
Proof.
  intros Hs. rewrite <- (map_find_elem _ _ _ (map_set_sorted k v m Hs)).
  rewrite <- (map_find_elem _ _ _ Hs), map_find_set by done.
  destruct (ltb k q) eqn:E1; [|destruct (ltb q k) eqn:E2]; simpl.
  - split; [intros; right; split; [intros ->; by rewrite ltb_irrefl in E1|done]|].
    intros [[-> _]|[_ ?]]; [by rewrite ltb_irrefl in E1|done].
  - split; [intros; right; split; [intros ->; by rewrite ltb_irrefl in E2|done]|].
    intros [[-> _]|[_ ?]]; [by rewrite ltb_irrefl in E2|done].
  - pose proof (ltb_total _ _ E1 E2). subst. naive_solver.
Qed.

Lemma elem_of_map_erase k q w m :
  map_sorted ltb m → (q, w) ∈ map_erase ltb k m ↔ q ≠ k ∧ (q, w) ∈ m.
Proof.
  intros Hs. rewrite <- (map_find_elem _ _ _ (map_erase_sorted k m Hs)).
  rewrite <- (map_find_elem _ _ _ Hs), map_find_erase by done.
  destruct (ltb k q) eqn:E1; [|destruct (ltb q k) eqn:E2]; simpl.
  - split; [|by intros [_ ?]]. intros. split; [intros ->; by rewrite ltb_irrefl in E1|done].
  - split; [|by intros [_ ?]]. intros. split; [intros ->; by rewrite ltb_irrefl in E2|done].
  - pose proof (ltb_total _ _ E1 E2). subst. naive_solver.
Qed.

Lemma map_erase_set k v m :
  map_sorted ltb m → map_erase ltb k (map_set ltb k v m) = map_erase ltb k m.
Proof.
  induction m as [|[k' v'] m IH]; simpl; [by rewrite ltb_irrefl|].
  intros [Hlt Hs]%map_sorted_cons.
  destruct (ltb k' k) eqn:E1; simpl; [by rewrite E1, IH|].
  destruct (ltb k k') eqn:E2; simpl; rewrite ltb_irrefl; done.
Qed.

Lemma map_set_id k v m : map_find ltb k m = Some v → map_set ltb k v m = m.
Proof.
  induction m as [|[k' v'] m IH]; simpl; [done|].
  destruct (ltb k' k) eqn:E1; [intros; by rewrite IH|]. destruct (ltb k k') eqn:E2; [done|].
  intros [= ->]. by rewrite (ltb_total _ _ E1 E2).
Qed.

Lemma map_set_set k v v' m : map_set ltb k v' (map_set ltb k v m) = map_set ltb k v' m.
Proof.
  induction m as [|[k' w] m IH]; simpl; [by rewrite !(ltb_irrefl k)|].
  destruct (ltb k' k) eqn:E1; simpl; [by rewrite E1, IH|].
  destruct (ltb k k') eqn:E2; simpl; by rewrite !(ltb_irrefl k).
Qed.

Lemma ltb_neq `{!EqDecision K} (k k' : K) :
  ltb k k' || ltb k' k = negb (bool_decide (k = k')).
Proof.
  case_bool_decide as E; [subst; by rewrite !(ltb_irrefl k')|].
  destruct (ltb k k') eqn:E1; [done|]. destruct (ltb k' k) eqn:E2; [done|].
  by destruct E; apply ltb_total.
Qed.

(** The same laws with a decided key. *)
Lemma map_find_set_dec `{!EqDecision K} k v k' m :
  map_sorted ltb m →
  map_find ltb k' (map_set ltb k v m) = if decide (k = k') then Some v else map_find ltb k' m.
Proof. intros. rewrite map_find_set, ltb_neq by done. repeat case_bool_decide; by repeat case_decide. Qed.

Lemma map_find_erase_dec `{!EqDecision K} k k' m :
  map_sorted ltb m →
  map_find ltb k' (map_erase ltb k m) = if decide (k = k') then None else map_find ltb k' m.
Proof. intros. rewrite map_find_erase, ltb_neq by done. repeat case_bool_decide; by repeat case_decide. Qed.
End laws.

(** ** Related maps stay related under every operation *)

Section relation.
Context {K V W : Type} (ltb : K → K → bool) `{!StrictTotal ltb}.
Implicit Types (R : K → V → W → Prop) (m : list (K * V)) (g : list (K * W)).

Lemma map_rel_keys R m g : map_rel R m g → m.*1 = g.*1.
Proof. induction 1 as [|a b m g [Hk _] _ IH]; [done|]. by rewrite !fmap_cons, Hk, IH. Qed.

Lemma map_rel_sorted R m g : map_rel R m g → map_sorted ltb m ↔ map_sorted ltb g.
Proof. intros H. unfold map_sorted. by rewrite (map_rel_keys _ _ _ H). Qed.

Lemma map_rel_find R k m g :
  map_rel R m g → option_Forall2 (R k) (map_find ltb k m) (map_find ltb k g).
Proof.
  induction 1 as [|[a v] [b w] m g [Hk Hr] _ IH]; simpl in *; [constructor|]. subst.
  destruct (ltb b k) eqn:E1; [done|]. destruct (ltb k b) eqn:E2; [constructor|].
  pose proof (ltb_total _ _ E1 E2). subst. by constructor.
Qed.

Lemma map_rel_weaken R R' m g :
  (∀ k v w, (k, w) ∈ g → R k v w → R' k v w) → map_rel R m g → map_rel R' m g.
Proof using Type.
  clear ltb StrictTotal0.
  intros HR H. induction H as [|[a v] [b w] m g [Hk Hr] Hm IH]; [constructor|].
  simpl in *. subst. constructor; [split; [done|]; simpl; apply HR; [set_solver|done]|].
  apply IH. intros. apply HR; [set_solver|done].
Qed.

(** Replacing the entry of [k] needs the relation for the other keys only. *)
Lemma map_rel_set R k v w m g :
  map_sorted ltb g → R k v w → map_rel (λ q v w, q ≠ k → R q v w) m g →
  map_rel R (map_set ltb k v m) (map_set ltb k w g).
Proof.
  intros Hs Hvw H. induction H as [|[a v'] [b w'] m g [Hk Hr] Hm IH]; simpl in *.
  { by repeat constructor. }
  apply map_sorted_cons in Hs as [Hlt Hs]. subst. unfold map_rel in *.
  destruct (ltb b k) eqn:E1; [|destruct (ltb k b) eqn:E2].
  - constructor; [|auto]. split; [done|]. apply Hr. intros ->. by rewrite ltb_irrefl in E1.
  - constructor; [by split|]. constructor; [split; [done|]; simpl; apply Hr; intros ->;
      by rewrite ltb_irrefl in E2|].
    apply (map_rel_weaken (λ q v w, q ≠ k → R q v w)); [|exact Hm]. simpl.
    intros q v0 w0 Hq%(list_elem_of_fmap_2 fst) HR. simpl in Hq. apply HR. intros ->.
    pose proof (ltb_trans _ _ _ E2 (Hlt _ Hq)) as E. by rewrite ltb_irrefl in E.
  - pose proof (ltb_total _ _ E1 E2). subst. constructor; [by split|].
    apply (map_rel_weaken (λ q v w, q ≠ k → R q v w)); [|exact Hm]. simpl.
    intros q v0 w0 Hq%(list_elem_of_fmap_2 fst) HR. simpl in Hq. apply HR. intros ->.
    pose proof (Hlt _ Hq) as E. by rewrite ltb_irrefl in E.
Qed.

Lemma map_rel_erase R k m g :
  map_sorted ltb g → map_rel (λ q v w, q ≠ k → R q v w) m g →
  map_rel R (map_erase ltb k m) (map_erase ltb k g).
Proof.
  intros Hs H. induction H as [|[a v'] [b w'] m g [Hk Hr] Hm IH]; simpl in *; [constructor|].
  apply map_sorted_cons in Hs as [Hlt Hs]. subst. unfold map_rel in *.
  destruct (ltb b k) eqn:E1; [|destruct (ltb k b) eqn:E2].
  - constructor; [|auto]. split; [done|]. apply Hr. intros ->. by rewrite ltb_irrefl in E1.
  - constructor; [split; [done|]; simpl; apply Hr; intros ->; by rewrite ltb_irrefl in E2|].
    apply (map_rel_weaken (λ q v w, q ≠ k → R q v w)); [|exact Hm]. simpl.
    intros q v0 w0 Hq%(list_elem_of_fmap_2 fst) HR. simpl in Hq. apply HR. intros ->.
    pose proof (ltb_trans _ _ _ E2 (Hlt _ Hq)) as E. by rewrite ltb_irrefl in E.
  - pose proof (ltb_total _ _ E1 E2). subst.
    apply (map_rel_weaken (λ q v w, q ≠ k → R q v w)); [|exact Hm]. simpl.
    intros q v0 w0 Hq%(list_elem_of_fmap_2 fst) HR. simpl in Hq. apply HR. intros ->.
    pose proof (Hlt _ Hq) as E. by rewrite ltb_irrefl in E.
Qed.
End relation.

(** ** Ordered maps of lists, flattened in key order *)

Definition flat {K A} (g : list (K * list A)) : list A := concat g.*2.

(** Store the list of a key; a key with an empty list has no entry. *)
Definition map_put {K A} (ltb : K → K → bool) (k : K) (xs : list A) (g : list (K * list A))
    : list (K * list A) :=
  match xs with [] => map_erase ltb k g | _ => map_set ltb k xs g end.

Section flat.
Context {K A : Type} (ltb : K → K → bool) `{!StrictTotal ltb}.
Implicit Types (g : list (K * list A)) (xs : list A).

Lemma flat_cons k xs g : flat ((k, xs) :: g) = xs ++ flat g.
Proof. done. Qed.

Lemma flat_app g1 g2 : flat (g1 ++ g2) = flat g1 ++ flat g2.
Proof. unfold flat. by rewrite fmap_app, concat_app. Qed.

Lemma elem_of_flat x g : x ∈ flat g ↔ ∃ k xs, (k, xs) ∈ g ∧ x ∈ xs.
Proof.
  unfold flat. rewrite list_elem_of_In, in_concat. split.
  - intros (xs & Hxs & Hx). apply list_elem_of_In, list_elem_of_fmap in Hxs as ([k ys] & -> & ?).
    exists k, ys. split; [done|]. by apply list_elem_of_In.
  - intros (k & xs & Hg & Hx). exists xs. split; [|by apply list_elem_of_In].
    apply list_elem_of_In, list_elem_of_fmap. by exists (k, xs).
Qed.

(** The entry of a key splits the sorted map around it. *)
Lemma map_find_split k xs g :
  map_sorted ltb g → map_find ltb k g = Some xs →
  ∃ g1 g2, g = g1 ++ (k, xs) :: g2 ∧
    (∀ ys, map_set ltb k ys g = g1 ++ (k, ys) :: g2) ∧ map_erase ltb k g = g1 ++ g2 ∧
    (∀ q, q ∈ g1.*1 → ltb q k = true) ∧ (∀ q, q ∈ g2.*1 → ltb k q = true).
Proof.
  induction g as [|[k' ys] g IH]; simpl; [done|].
  intros [Hlt Hs]%map_sorted_cons.
  destruct (ltb k' k) eqn:E1; [|destruct (ltb k k') eqn:E2; [done|]].
  - intros Hf. destruct (IH Hs Hf) as (g1 & g2 & -> & Hset & -> & H1 & H2).
    exists ((k', ys) :: g1), g2. split_and!; try done.
    + intros zs. by rewrite Hset.
    + intros q. rewrite fmap_cons, elem_of_cons. intros [->|?]; auto.
  - pose proof (ltb_total _ _ E1 E2). subst. intros [= <-].
    exists [], g. split_and!; try done. set_solver.
Qed.

Lemma map_find_none_split k g :
  map_sorted ltb g → map_find ltb k g = None →
  ∃ g1 g2, g = g1 ++ g2 ∧ (∀ ys, map_set ltb k ys g = g1 ++ (k, ys) :: g2) ∧
    (∀ q, q ∈ g1.*1 → ltb q k = true) ∧ (∀ q, q ∈ g2.*1 → ltb k q = true).
Proof.
  induction g as [|[k' ys] g IH]; simpl.
  { exists [], []. split_and!; try done; set_solver. }
  intros [Hlt Hs]%map_sorted_cons.
  destruct (ltb k' k) eqn:E1; [|destruct (ltb k k') eqn:E2; [|done]].
  - intros Hf. destruct (IH Hs Hf) as (g1 & g2 & -> & Hset & H1 & H2).
    exists ((k', ys) :: g1), g2. split_and!; try done.
    + intros zs. by rewrite Hset.
    + intros q. rewrite fmap_cons, elem_of_cons. intros [->|?]; auto.
  - intros _. exists [], ((k', ys) :: g). split_and!; try done; [set_solver|].
    intros q. rewrite fmap_cons, elem_of_cons. intros [->|?]; [done|].
    eapply ltb_trans; eauto.
Qed.

Lemma map_put_sorted k xs g : map_sorted ltb g → map_sorted ltb (map_put ltb k xs g).
Proof. intros. destruct xs; [by apply map_erase_sorted|by apply map_set_sorted]. Qed.

Lemma elem_of_map_put k xs q ys g :
  map_sorted ltb g →
  (q, ys) ∈ map_put ltb k xs g ↔ (q = k ∧ ys = xs ∧ xs ≠ []) ∨ (q ≠ k ∧ (q, ys) ∈ g).
Proof.
  intros Hs. destruct xs as [|x xs]; simpl.
  - rewrite elem_of_map_erase by done. naive_solver.
  - rewrite elem_of_map_set by done. naive_solver.
Qed.

(** Storing a list under a key replaces that key's segment of the flattening
    and leaves what comes before and after it in place. *)
Lemma flat_map_put k g :
  map_sorted ltb g →
  ∃ g1 g2, flat g = flat g1 ++ default [] (map_find ltb k g) ++ flat g2 ∧
    (∀ ys, flat (map_put ltb k ys g) = flat g1 ++ ys ++ flat g2) ∧
    (∀ q xs, (q, xs) ∈ g1 → (q, xs) ∈ g ∧ ltb q k = true) ∧
    (∀ q xs, (q, xs) ∈ g2 → (q, xs) ∈ g ∧ ltb k q = true).
Proof.
  intros Hs. destruct (map_find ltb k g) as [xs|] eqn:E; simpl.
  - destruct (map_find_split _ _ _ Hs E) as (g1 & g2 & -> & Hset & Her & H1 & H2).
    exists g1, g2. split_and!.
    + by rewrite flat_app, flat_cons.
    + intros [|y ys]; simpl; [by rewrite Her, flat_app|by rewrite Hset, flat_app, flat_cons].
    + intros q ys Hq. split; [set_solver|]. apply H1. by apply (list_elem_of_fmap_2 fst _ (q, ys)).
    + intros q ys Hq. split; [set_solver|]. apply H2. by apply (list_elem_of_fmap_2 fst _ (q, ys)).
  - destruct (map_find_none_split _ _ Hs E) as (g1 & g2 & -> & Hset & H1 & H2).
    exists g1, g2. split_and!.
    + by rewrite flat_app.
    + intros [|y ys]; simpl; [|by rewrite Hset, flat_app, flat_cons].
      rewrite <- flat_app. f_equal. rewrite <- (map_erase_set ltb k [] _ Hs), Hset.
      clear -H1 StrictTotal0. induction g1 as [|[q ys] g1 IH]; simpl; [by rewrite ltb_irrefl|].
      rewrite (H1 q) by set_solver. rewrite IH; [done|set_solver].
    + intros q ys Hq. split; [set_solver|]. apply H1. by apply (list_elem_of_fmap_2 fst _ (q, ys)).
    + intros q ys Hq. split; [set_solver|]. apply H2. by apply (list_elem_of_fmap_2 fst _ (q, ys)).
Qed.
End flat.
