(* ===== verification/Types.v ===== *)
(** * Core types (include/ordbk/core/types.hpp, orderbook/order.hpp,
    orderbook/trade.hpp)

    Strong integer types, the enumerations, the [Order] record with its
    intrusive list links, and the [Trade] record.

    An enumeration with a fixed underlying type can hold every value of that
    type: the gateway casts unchecked wire bytes into [Side], [OrderType] and
    [TimeInForce].  Each of these types therefore has, besides the source's
    enumerators, a constructor for a byte that names none of them. *)

From S2P Require Import Prelude.

(** [enum class Price : std::int64_t] and the other strong integer types are
    the integers of their underlying type. *)
Abbreviation Price := Z (only parsing).
Abbreviation Quantity := Z (only parsing).
Abbreviation OrderId := Z (only parsing).
Abbreviation InstrumentId := Z (only parsing).
Abbreviation ClientId := Z (only parsing).
Abbreviation Timestamp := Z (only parsing).

Definition kZeroQty : Quantity := 0%Z.

(** [operator+] and [operator-] on [Quantity] (std::uint64_t). *)
Definition qty_add (a b : Quantity) : Quantity := u64 (a + b).
Definition qty_sub (a b : Quantity) : Quantity := u64 (a - b).
Definition qty_min (a b : Quantity) : Quantity := if (a <? b)%Z then a else b.

Inductive Side := Buy | Sell | Side_other (v : Z).
Inductive OrderType := Limit | Market | OrderType_other (v : Z).
Inductive TimeInForce := GTC | IOC | FOK | Day | TimeInForce_other (v : Z).
Inductive OrderStatus := New | PartiallyFilled | Filled | Cancelled | Rejected.

#[export] Instance Side_eq_dec : EqDecision Side.
Proof. solve_decision. Defined.
#[export] Instance OrderType_eq_dec : EqDecision OrderType.
Proof. solve_decision. Defined.
#[export] Instance TimeInForce_eq_dec : EqDecision TimeInForce.
Proof. solve_decision. Defined.
#[export] Instance OrderStatus_eq_dec : EqDecision OrderStatus.
Proof. solve_decision. Defined.

(** [s == Side::Buy], the only test the code makes on a side. *)
Definition is_buy (s : Side) : bool := bool_decide (s = Buy).

Definition opposite (s : Side) : Side := if is_buy s then Sell else Buy.

(** [static_cast] of a byte into an enumeration. *)
Definition Side_of (b : Z) : Side :=
  if (b =? 0)%Z then Buy else if (b =? 1)%Z then Sell else Side_other b.
Definition OrderType_of (b : Z) : OrderType :=
  if (b =? 0)%Z then Limit else if (b =? 1)%Z then Market else OrderType_other b.
Definition TimeInForce_of (b : Z) : TimeInForce :=
  if (b =? 0)%Z then GTC else if (b =? 1)%Z then IOC
  else if (b =? 2)%Z then FOK else if (b =? 3)%Z then Day else TimeInForce_other b.

(** [to_underlying] of an [OrderStatus]. *)
Definition OrderStatus_code (s : OrderStatus) : Z :=
  match s with
  | New => 0 | PartiallyFilled => 1 | Filled => 2 | Cancelled => 3 | Rejected => 4
  end%Z.

(** An [Order*] that is not null: an index into the pool's [storage_]. *)
Abbreviation ptr := nat (only parsing).

Record Order := mkOrder {
  oid : OrderId;
  limit_price : Price;
  initial_qty : Quantity;
  filled_qty : Quantity;
  oinstrument : InstrumentId;
  client : ClientId;
  status : OrderStatus;
  side : Side;
  type : OrderType;
  tif : TimeInForce;
  ts : Timestamp;
  enqueue_ns : Timestamp;
  match_complete_ns : Timestamp;
  level_prev : option ptr;
  level_next : option ptr }.

(** [Order{}]: every member value-initialised. *)
Definition Order_init : Order :=
  mkOrder 0%Z 0%Z 0%Z kZeroQty 0%Z 0%Z New Buy Limit GTC 0%Z 0%Z 0%Z None None.

Definition remaining (o : Order) : Quantity := qty_sub (initial_qty o) (filled_qty o).
Definition is_fully_filled (o : Order) : bool := (filled_qty o =? initial_qty o)%Z.
Definition is_terminal (o : Order) : bool :=
  match status o with Filled | Cancelled | Rejected => true | _ => false end.

Record Trade := mkTrade {
  maker_id : OrderId;
  taker_id : OrderId;
  tinstrument : InstrumentId;
  tprice : Price;
  quantity : Quantity;
  tts : Timestamp }.

(** Assignments to one member of an order. *)
Definition set_filled_qty (q : Quantity) (o : Order) : Order :=
  mkOrder (oid o) (limit_price o) (initial_qty o) q (oinstrument o) (client o)
    (status o) (side o) (type o) (tif o) (ts o) (enqueue_ns o)
    (match_complete_ns o) (level_prev o) (level_next o).
Definition set_status (s : OrderStatus) (o : Order) : Order :=
  mkOrder (oid o) (limit_price o) (initial_qty o) (filled_qty o) (oinstrument o)
    (client o) s (side o) (type o) (tif o) (ts o) (enqueue_ns o)
    (match_complete_ns o) (level_prev o) (level_next o).
Definition set_match_complete (t : Timestamp) (o : Order) : Order :=
  mkOrder (oid o) (limit_price o) (initial_qty o) (filled_qty o) (oinstrument o)
    (client o) (status o) (side o) (type o) (tif o) (ts o) (enqueue_ns o) t
    (level_prev o) (level_next o).
Definition set_prev (p : option ptr) (o : Order) : Order :=
  mkOrder (oid o) (limit_price o) (initial_qty o) (filled_qty o) (oinstrument o)
    (client o) (status o) (side o) (type o) (tif o) (ts o) (enqueue_ns o)
    (match_complete_ns o) p (level_next o).
Definition set_next (n : option ptr) (o : Order) : Order :=
  mkOrder (oid o) (limit_price o) (initial_qty o) (filled_qty o) (oinstrument o)
    (client o) (status o) (side o) (type o) (tif o) (ts o) (enqueue_ns o)
    (match_complete_ns o) (level_prev o) n.

(** An order without its links: what every client of a price level sees. *)
Definition data (o : Order) : Order := set_prev None (set_next None o).

(** The quantities of an order that has not been overfilled. *)
Definition qty_ok (o : Order) : Prop :=
  in_u 64 (initial_qty o) ∧ (0 ≤ filled_qty o ≤ initial_qty o)%Z.

#[export] Instance Order_eq_dec : EqDecision Order.
Proof. solve_decision. Defined.
#[export] Instance Trade_eq_dec : EqDecision Trade.
Proof. solve_decision. Defined.

(** ** Lemmas *)

Lemma is_buy_true s : is_buy s = true ↔ s = Buy.
Proof. unfold is_buy. apply bool_decide_eq_true. Qed.

Lemma is_buy_opposite s : is_buy (opposite s) = negb (is_buy s).
Proof. unfold opposite. by destruct s. Qed.

Lemma remaining_ok o : qty_ok o → remaining o = (initial_qty o - filled_qty o)%Z.
Proof. intros [[? ?] ?]. unfold remaining, qty_sub. apply wrap_small. unfold in_u. lia. Qed.

Lemma remaining_bounds o : qty_ok o → (0 ≤ remaining o < 2 ^ 64)%Z.
Proof. intros H. rewrite remaining_ok by done. destruct H as [[? ?] ?]. lia. Qed.

Lemma fully_filled_ok o :
  qty_ok o → is_fully_filled o = (remaining o =? 0)%Z.
Proof.
  intros H. unfold is_fully_filled. rewrite remaining_ok by done.
  destruct H. apply eq_bool_prop_intro. rewrite !Is_true_true, !Z.eqb_eq. lia.
Qed.

Lemma qty_min_Z a b : qty_min a b = Z.min a b.
Proof. unfold qty_min. destruct (Z.ltb_spec a b); lia. Qed.

#[global] Arguments data : simpl never.

Lemma data_data o : data (data o) = data o.
Proof. by destruct o. Qed.

Lemma data_remaining o : remaining (data o) = remaining o.
Proof. by destruct o. Qed.
