(* ===== verification/Heap.v ===== *)
(** * The order store

    Every [Order*] of the program points into the slab of one [Pool]
    (utils/pool.hpp, [storage_]): the store is the vector of orders and a
    pointer is an index into it, [None] being [nullptr].  Components that only
    follow and update pointers (price levels, the book) are written over this
    store; [HasHeap] is the interface through which a component that owns a
    larger state (the pool) lends its store to them. *)

From S2P Require Import Prelude Types.

Abbreviation heap := (list Order).

(** [p->...] on a possibly null pointer. *)
Definition deref (h : heap) (p : option ptr) : res Order :=
  let* x := p in h !! x.

(** [x->field = ...]: an update through a pointer. *)
Definition hupd (f : Order → Order) (x : ptr) (h : heap) : res heap :=
  let* o := h !! x in Some (<[x := f o]> h).

(** Two stores are the same up to the intrusive links. *)
Definition hdata (h : heap) : list Order := data <$> h.

(** The orders a list of pointers denotes, links erased. *)
Definition hview (h : heap) (xs : list ptr) : list Order :=
  omap (λ x, data <$> h !! x) xs.

#[global] Arguments hview : simpl never.

Class HasHeap (S : Type) := {
  get_heap : S → heap;
  set_heap : heap → S → S;
  get_set_heap : ∀ h s, get_heap (set_heap h s) = h;
  set_get_heap : ∀ s, set_heap (get_heap s) s = s;
  set_set_heap : ∀ h h' s, set_heap h (set_heap h' s) = set_heap h s }.

#[export] Instance heap_HasHeap : HasHeap heap.
Proof. by refine {| get_heap := λ h, h; set_heap := λ h _, h |}. Defined.

(** ** Lemmas on store updates *)

Lemma hupd_some f x h o : h !! x = Some o → hupd f x h = Some (<[x := f o]> h).
Proof. intros H. unfold hupd. by rewrite H. Qed.

Lemma lookup_upd_eq x o (h : heap) : is_Some (h !! x) → <[x := o]> h !! x = Some o.
Proof. intros [o' H]. by apply list_lookup_insert_eq, lookup_lt_Some with o'. Qed.

Lemma lookup_upd x y o (h : heap) :
  is_Some (h !! x) → <[x := o]> h !! y = if decide (x = y) then Some o else h !! y.
Proof.
  intros H. case_decide as E; [subst; by apply lookup_upd_eq|].
  by apply list_lookup_insert_ne.
Qed.

Lemma hdata_upd x o o' (h : heap) :
  h !! x = Some o → data o' = data o → hdata (<[x := o']> h) = hdata h.
Proof.
  intros H E. unfold hdata. rewrite list_fmap_insert, E.
  apply list_insert_id. by rewrite list_lookup_fmap, H.
Qed.

Lemma hdata_lookup h h' x :
  hdata h = hdata h' → data <$> h !! x = data <$> h' !! x.
Proof. intros H. unfold hdata in H. by rewrite <- !list_lookup_fmap, H. Qed.

Lemma hdata_lookup_some h h' x o :
  hdata h = hdata h' → h !! x = Some o → ∃ o', h' !! x = Some o' ∧ data o' = data o.
Proof.
  intros H Hx. pose proof (hdata_lookup h h' x H) as E. rewrite Hx in E.
  destruct (h' !! x) as [o'|]; [|discriminate E]. exists o'. split; [done|]. apply (inj Some) in E. done.
Qed.

Lemma hdata_upd_some h h0 x y o oy :
  hdata h = hdata h0 → y ≠ x → <[x := o]> h !! y = Some oy → ∃ o0, h0 !! y = Some o0 ∧ data oy = data o0.
Proof.
  intros H Hy Hoy. rewrite list_lookup_insert_ne in Hoy by done.
  destruct (hdata_lookup_some h h0 y oy H Hoy) as (o0 & ? & ?). by exists o0.
Qed.

Lemma hdata_length h h' : hdata h = hdata h' → length h = length h'.
Proof. intros H. apply (f_equal length) in H. unfold hdata in H. by rewrite !length_fmap in H. Qed.

Lemma hview_unfold h x xs :
  hview h (x :: xs) =
  match data <$> h !! x with Some o => o :: hview h xs | None => hview h xs end.
Proof. done. Qed.

Lemma hview_hdata h h' xs : hdata h = hdata h' → hview h xs = hview h' xs.
Proof.
  intros H. induction xs as [|x xs IH]; [done|].
  by rewrite !hview_unfold, (hdata_lookup h h' x H), IH.
Qed.

Lemma hview_app h xs ys : hview h (xs ++ ys) = hview h xs ++ hview h ys.
Proof. unfold hview. apply omap_app. Qed.

Lemma hview_cons h x xs o : h !! x = Some o → hview h (x :: xs) = data o :: hview h xs.
Proof. intros H. by rewrite hview_unfold, H. Qed.

Lemma hview_ext h h' l :
  (∀ y, y ∈ l → data <$> h' !! y = data <$> h !! y) → hview h' l = hview h l.
Proof.
  induction l as [|y l IH]; intros Hl; [done|].
  rewrite !hview_unfold, Hl by left. rewrite IH; [done|]. intros z Hz. apply Hl. by right.
Qed.

Lemma hview_frame h h' xs :
  (∀ x, x ∈ xs → h' !! x = h !! x) → hview h' xs = hview h xs.
Proof.
  induction xs as [|x xs IH]; intros H; [done|].
  rewrite !hview_unfold, (H x), IH by set_solver. done.
Qed.

Lemma hview_upd_notin h x o xs : x ∉ xs → hview (<[x := o]> h) xs = hview h xs.
Proof.
  intros Hx. apply hview_frame. intros y Hy. apply list_lookup_insert_ne. set_solver.
Qed.

Lemma hview_length h xs :
  (∀ x, x ∈ xs → is_Some (h !! x)) → length (hview h xs) = length xs.
Proof.
  induction xs as [|x xs IH]; intros H; [done|].
  destruct (H x) as [o Ho]; [set_solver|]. rewrite (hview_cons _ _ _ _ Ho).
  simpl. rewrite IH; [done|set_solver].
Qed.

#[export] Hint Resolve hupd_some : ordbk.
