(* ===== verification/Pool.v ===== *)
(** * The order pool (include/ordbk/utils/pool.hpp)

    A fixed slab of orders with a stack of free indices.  [acquire] and
    [release] hold the pool's mutex for their whole body; each is one step
    here, which [PoolLock] justifies. *)

From S2P Require Import Prelude Types Heap.

Record Pool := mkPool {
  storage_ : list Order;
  free_slots_ : list nat;
  stack_top_ : nat }.

(** [static_cast<std::uint32_t>] of an index. *)
Definition to_u32 (n : nat) : nat := Z.to_nat (u32 (Z.of_nat n)).

(** [Pool(capacity)]: [std::iota] fills the free stack with 0, 1, 2, ... *)
Definition Pool_new (capacity : nat) : Pool :=
  mkPool (replicate capacity Order_init) (seq 0 capacity) (to_u32 capacity).

Definition acquire (p : Pool) : res (option ptr * Pool) :=
  if decide (stack_top_ p = 0) then Some (None, p)
  else
    let top := pred (stack_top_ p) in
    let* x := free_slots_ p !! top in
    let* h := hupd (λ _, Order_init) x (storage_ p) in
    Some (Some x, mkPool h (free_slots_ p) top).

Definition release (x : ptr) (p : Pool) : res Pool :=
  let idx := to_u32 x in
  guard* bool_decide (stack_top_ p < length (free_slots_ p)) in
  Some (mkPool (storage_ p) (<[stack_top_ p := idx]> (free_slots_ p))
          (to_u32 (S (stack_top_ p)))).

(** [acquire_or_abort]: [inr tt] is [std::abort]. *)
Definition acquire_or_abort (p : Pool) : res ((ptr * Pool) + unit) :=
  let* (x, p') := acquire p in
  match x with Some x => Some (inl (x, p')) | None => Some (inr tt) end.

Definition capacity (p : Pool) : nat := length (storage_ p).
Definition available_approx (p : Pool) : nat := stack_top_ p.

(** A write through an [Order*]. *)
Definition with_storage (h : heap) (p : Pool) : Pool :=
  mkPool h (free_slots_ p) (stack_top_ p).

#[export] Instance Pool_HasHeap : HasHeap Pool.
Proof. by refine {| get_heap := storage_; set_heap := with_storage |}; intros; destruct s. Defined.

(** The slots on the free stack, and the slots in use. *)
Definition free (p : Pool) : list nat := take (stack_top_ p) (free_slots_ p).
Definition allocated (p : Pool) (x : ptr) : Prop := x < capacity p ∧ x ∉ free p.

Definition pool_ok (p : Pool) : Prop :=
  length (free_slots_ p) = capacity p ∧
  stack_top_ p ≤ capacity p ∧
  (Z.of_nat (capacity p) ≤ 4294967294)%Z ∧
  NoDup (free p) ∧
  ∀ x, x ∈ free p → x < capacity p.

(** The pool as a state machine: [live] is the multiset of slots handed out
    and not yet given back. *)
Inductive pool_step : Pool * list ptr → Pool * list ptr → Prop :=
| step_acquire p p' live x :
    acquire p = Some (Some x, p') → pool_step (p, live) (p', x :: live)
| step_exhausted p p' live :
    acquire p = Some (None, p') → pool_step (p, live) (p', live)
| step_release p p' live1 live2 x :
    release x p = Some p' → pool_step (p, live1 ++ x :: live2) (p', live1 ++ live2)
| step_write p live h :
    length h = capacity p → pool_step (p, live) (with_storage h p, live).

(** ** Lemmas *)

Lemma to_u32_small n : (Z.of_nat n ≤ 4294967295)%Z → to_u32 n = n.
Proof.
  intros H. unfold to_u32. rewrite wrap_small, Nat2Z.id; [done|]. unfold in_u. lia.
Qed.

Lemma length_free p : pool_ok p → length (free p) = stack_top_ p.
Proof. intros (Hl & Ht & _). unfold free. rewrite length_take. lia. Qed.

Lemma free_with_storage h p : free (with_storage h p) = free p.
Proof. done. Qed.

Lemma pool_ok_with_storage h p :
  length h = capacity p → pool_ok p → pool_ok (with_storage h p).
Proof. unfold pool_ok, capacity. simpl. by intros ->. Qed.

Lemma allocated_with_storage h p x :
  length h = capacity p → allocated (with_storage h p) x ↔ allocated p x.
Proof. unfold allocated, capacity. simpl. by intros ->. Qed.

Lemma allocated_lookup p x : allocated p x → is_Some (storage_ p !! x).
Proof. intros [H _]. by apply lookup_lt_is_Some. Qed.

Lemma Pool_new_ok n : (Z.of_nat n ≤ 4294967294)%Z → pool_ok (Pool_new n).
Proof.
  intros H. unfold pool_ok, capacity, free. simpl.
  rewrite length_seq, length_replicate, to_u32_small by lia.
  rewrite take_ge by (rewrite length_seq; lia).
  split_and!; try lia; [apply NoDup_seq|]. intros x Hx%elem_of_seq. lia.
Qed.

Lemma acquire_empty p : stack_top_ p = 0 → acquire p = Some (None, p).
Proof. intros H. unfold acquire. by rewrite decide_True. Qed.

Lemma acquire_spec p :
  pool_ok p → stack_top_ p ≠ 0 →
  ∃ x p', acquire p = Some (Some x, p') ∧ pool_ok p' ∧
    free p = free p' ++ [x] ∧ storage_ p' = <[x := Order_init]> (storage_ p) ∧
    x < capacity p.
Proof.
  intros (Hl & Ht & Hc & Hnd & Hin) Hne.
  assert (pred (stack_top_ p) < length (free_slots_ p)) as Hlt by lia.
  apply lookup_lt_is_Some in Hlt as [x Hx].
  assert (free p = take (pred (stack_top_ p)) (free_slots_ p) ++ [x]) as Hfree.
  { unfold free. rewrite <- (take_S_r _ _ x Hx). f_equal. lia. }
  assert (x < capacity p) as Hcap by (apply Hin; rewrite Hfree; set_solver).
  destruct (proj2 (lookup_lt_is_Some (storage_ p) x) Hcap) as [o Ho].
  exists x, (mkPool (<[x := Order_init]> (storage_ p)) (free_slots_ p) (pred (stack_top_ p))).
  split_and!; try done.
  - unfold acquire. rewrite decide_False by done. by rewrite Hx, (hupd_some _ _ _ _ Ho).
  - rewrite Hfree in Hnd, Hin. apply NoDup_snoc in Hnd as [? ?].
    unfold pool_ok, capacity, free; simpl. rewrite length_insert.
    split_and!; try done; try (unfold capacity in *; lia).
    intros y Hy. apply Hin. set_solver.
Qed.

Lemma release_spec p x :
  pool_ok p → allocated p x →
  ∃ p', release x p = Some p' ∧ pool_ok p' ∧
    free p' = free p ++ [x] ∧ storage_ p' = storage_ p.
Proof.
  intros Hok [Hx Hnin]. pose proof (length_free _ Hok) as Hlf.
  destruct Hok as (Hl & Ht & Hc & Hnd & Hin).
  assert (length (free p ++ [x]) ≤ capacity p) as Hlt.
  { apply NoDup_bound; [by apply NoDup_snoc|]. intros y [Hy| ->%list_elem_of_singleton]%elem_of_app; auto. }
  rewrite length_app, Hlf in Hlt. simpl in Hlt.
  exists (mkPool (storage_ p) (<[stack_top_ p := x]> (free_slots_ p)) (S (stack_top_ p))).
  assert (take (S (stack_top_ p)) (<[stack_top_ p:=x]> (free_slots_ p)) = free p ++ [x]) as E.
  { rewrite (take_S_r _ _ x); [|apply list_lookup_insert_eq; lia].
    by rewrite take_insert_ge. }
  split_and!; try done.
  - unfold release. rewrite !to_u32_small by lia.
    rewrite bool_decide_eq_true_2 by lia. done.
  - unfold pool_ok, capacity, free; simpl. rewrite E, length_insert.
    split_and!; try (unfold capacity in *; lia); [by apply NoDup_snoc|].
    intros y [Hy| ->%list_elem_of_singleton]%elem_of_app; auto.
Qed.

Lemma pool_step_inv p live p' live' :
  pool_ok p → free p ++ live ≡ₚ seq 0 (capacity p) → pool_step (p, live) (p', live') →
  pool_ok p' ∧ capacity p' = capacity p ∧ free p' ++ live' ≡ₚ seq 0 (capacity p').
Proof.
  intros Hok Hperm Hs.
  assert (NoDup (free p ++ live)) as Hnd by (rewrite Hperm; apply NoDup_seq).
  inversion Hs as [? ? ? x E|? ? ? E|? ? l1 l2 x E|? ? h Hl]; subst; clear Hs.
  - destruct (decide (stack_top_ p = 0)) as [Hz|Hz]; [rewrite acquire_empty in E by done; done|].
    destruct (acquire_spec p Hok Hz) as (x' & p1 & E' & Hok' & Hf & Hst & Hx).
    rewrite E' in E. injection E as -> ->.
    assert (capacity p' = capacity p) as Hc by (unfold capacity; by rewrite Hst, length_insert).
    split_and!; [done|done|]. rewrite Hc, <- Hperm, Hf, <- app_assoc. done.
  - destruct (decide (stack_top_ p = 0)) as [Hz|Hz].
    { rewrite acquire_empty in E by done. by injection E as ->. }
    destruct (acquire_spec p Hok Hz) as (? & ? & E' & _). rewrite E' in E. done.
  - assert (allocated p x) as Ha.
    { split.
      - assert (x ∈ seq 0 (capacity p)) as Hx by (rewrite <- Hperm; set_solver).
        apply elem_of_seq in Hx. lia.
      - intros Hx. apply NoDup_app in Hnd as (_ & Hd & _). apply (Hd x Hx). set_solver. }
    destruct (release_spec p x Hok Ha) as (p1 & E' & Hok' & Hf & Hst).
    rewrite E' in E. injection E as ->.
    assert (capacity p' = capacity p) as Hc by (unfold capacity; by rewrite Hst).
    split_and!; [done|done|]. rewrite Hc, <- Hperm, Hf, <- app_assoc. simpl.
    f_equiv. apply Permutation_middle.
  - split_and!; [by apply pool_ok_with_storage|done|]. rewrite free_with_storage.
    unfold capacity. simpl. rewrite Hl. done.
Qed.

Lemma pool_reachable n p live :
  (Z.of_nat n ≤ 4294967294)%Z → rtc pool_step (Pool_new n, []) (p, live) →
  pool_ok p ∧ capacity p = n ∧ free p ++ live ≡ₚ seq 0 n.
Proof.
  intros Hn Hr.
  apply (rtc_invariant _ (λ st, pool_ok st.1 ∧ capacity st.1 = n ∧
           free st.1 ++ st.2 ≡ₚ seq 0 (capacity st.1))) in Hr as (Hok & Hc & Hp); simpl in *.
  - by rewrite Hc in Hp.
  - intros [p1 l1] [p2 l2] (H1 & H2 & H3) Hs.
    destruct (pool_step_inv _ _ _ _ H1 H3 Hs) as (? & H4 & ?). simpl in *. split_and!; [done|congruence|done].
  - split_and!; [by apply Pool_new_ok|apply length_replicate|].
    unfold free, capacity. simpl. rewrite length_replicate, to_u32_small, app_nil_r by lia.
    rewrite take_ge by (rewrite length_seq; lia). done.
Qed.

(** C12: no slot is ever handed out twice.  From a new pool, after any sequence
    of acquisitions (successful or not), writes through pointers and releases of
    slots in use, the free slots and the slots in use together are each slot of
    the slab exactly once.  [acquire] is then defined; it fails exactly when all
    [capacity] slots are in use, and otherwise hands out a slot that is not,
    cleared, and touches no other slot.  Every slot in use can be released, and
    [available_approx] is the number of those that are not in use. *)
Theorem pool_partition n p live :
  (Z.of_nat n ≤ 4294967294)%Z → rtc pool_step (Pool_new n, []) (p, live) →
  pool_ok p ∧ free p ++ live ≡ₚ seq 0 n ∧ available_approx p + length live = n ∧
  (∃ r p', acquire p = Some (r, p') ∧ (r = None ↔ length live = n) ∧
     ∀ x, r = Some x → x < n ∧ x ∉ live ∧ storage_ p' = <[x := Order_init]> (storage_ p)) ∧
  ∀ x, x ∈ live → is_Some (release x p).
Proof.
  intros Hn Hr. destruct (pool_reachable n p live Hn Hr) as (Hok & Hc & Hp).
  pose proof (length_free p Hok) as Hlf. pose proof (Permutation_length Hp) as Hlen.
  rewrite length_app, length_seq, Hlf in Hlen.
  assert (NoDup (free p ++ live)) as (_ & Hd & _)%NoDup_app by (rewrite Hp; apply NoDup_seq).
  split_and!; [done|done|exact Hlen| |].
  - destruct (decide (stack_top_ p = 0)) as [Hz|Hz].
    { exists None, p. split_and!; [by apply acquire_empty|split; [lia|done]|done]. }
    destruct (acquire_spec p Hok Hz) as (x & p' & E & _ & Hf & Hst & Hx). exists (Some x), p'.
    split_and!; [done|split; [done|lia]|]. intros y [= <-]. split_and!; [lia| |done].
    apply Hd. rewrite Hf. set_solver.
  - intros x Hx. destruct (release_spec p x Hok) as (p' & E & _); [|by exists p']. split; [|by intros ?%Hd].
    assert (x ∈ seq 0 n) as Hs by (rewrite <- Hp; set_solver). apply elem_of_seq in Hs. lia.
Qed.

(** Acquire both slots, give one back. *)
Lemma pool_partition_witness :
  ∃ p, rtc pool_step (Pool_new 2, []) (p, [0]) ∧
    pool_ok p ∧ free p ++ [0] ≡ₚ seq 0 2 ∧ available_approx p + 1 = 2 ∧
    (∃ r p', acquire p = Some (r, p') ∧ (r = None ↔ 1 = 2) ∧
       ∀ x, r = Some x → x < 2 ∧ x ∉ [0] ∧ storage_ p' = <[x := Order_init]> (storage_ p)) ∧
    ∀ x, x ∈ [0] → is_Some (release x p).
Proof.
  assert (rtc pool_step (Pool_new 2, [])
            (mkPool [Order_init; Order_init] [1; 1] 1, [0])) as Hr.
  { apply (rtc_l _ _ (mkPool [Order_init; Order_init] [0; 1] 1, [1])); [by apply step_acquire|].
    apply (rtc_l _ _ (mkPool [Order_init; Order_init] [0; 1] 0, [0; 1])); [by apply step_acquire|].
    apply (rtc_l _ _ (mkPool [Order_init; Order_init] [1; 1] 1, [0])); [|constructor].
    by apply (step_release _ _ [0] [] 1). }
  exists (mkPool [Order_init; Order_init] [1; 1] 1). split; [exact Hr|].
  apply (pool_partition 2 (mkPool [Order_init; Order_init] [1; 1] 1) [0]); [done|exact Hr].
Defined.
