(* ===== verification/PoolLock.v ===== *)
(** * The pool's mutex (include/ordbk/utils/pool.hpp)

    [Pool] runs [acquire] and [release] in one step each.  Here any number of
    threads run them statement by statement: the [std::lock_guard] locks and
    unlocks [mu_], and every read and write of [stack_top_], [free_slots_] and
    [storage_] is a step of its own that nothing but the mutex keeps apart from
    the steps of other threads.  Threads also write, without the lock, to the
    orders they were handed.  The theorem is that the outcome is always that of
    the one-step operations, in the order in which they unlock. *)

From S2P Require Import Prelude Types Heap Pool.

(** ** Statements *)

(** Where a thread is in a call of the pool; the argument holds the local
    values it has read. *)
Inductive pool_pc :=
| P_out                                (* not in a call *)
| A_lock                               (* acquire: [std::lock_guard lk{mu_}] *)
| A_test                               (* [if (stack_top_ == 0)] *)
| A_read                               (* [--stack_top_], the read *)
| A_dec (t : nat)                      (* [--stack_top_], the write *)
| A_slot (t : nat)                     (* [free_slots_[t]] *)
| A_clear (x : ptr)                    (* [*o = Order{}] *)
| A_unlock (r : option ptr)            (* [return], and [lk] is destroyed *)
| R_lock (x : ptr)                     (* release: [std::lock_guard lk{mu_}] *)
| R_read (x : ptr) (idx : nat)         (* [stack_top_++], the read *)
| R_inc (x : ptr) (idx t : nat)        (* [stack_top_++], the write *)
| R_store (x : ptr) (idx t : nat)      (* [free_slots_[t] = idx] *)
| R_unlock (x : ptr).                  (* [lk] is destroyed *)

(** A statement of a critical section: the next program counter and the memory
    after it; undefined when a subscript is out of range. *)
Definition stmt (pc : pool_pc) : option (Pool → res (pool_pc * Pool)) :=
  match pc with
  | A_test => Some (λ m,
      Some (if decide (stack_top_ m = 0) then A_unlock None else A_read, m))
  | A_read => Some (λ m, Some (A_dec (pred (stack_top_ m)), m))
  | A_dec t => Some (λ m, Some (A_slot t, mkPool (storage_ m) (free_slots_ m) t))
  | A_slot t => Some (λ m, let* x := free_slots_ m !! t in Some (A_clear x, m))
  | A_clear x => Some (λ m,
      let* h := hupd (λ _, Order_init) x (storage_ m) in
      Some (A_unlock (Some x), with_storage h m))
  | R_read x idx => Some (λ m, Some (R_inc x idx (stack_top_ m), m))
  | R_inc x idx t => Some (λ m,
      Some (R_store x idx t, mkPool (storage_ m) (free_slots_ m) (to_u32 (S t))))
  | R_store x idx t => Some (λ m,
      guard* bool_decide (t < length (free_slots_ m)) in
      Some (R_unlock x, mkPool (storage_ m) (<[t := idx]> (free_slots_ m)) (stack_top_ m)))
  | P_out | A_lock | A_unlock _ | R_lock _ | R_unlock _ => None
  end.

(** The body that starts when the mutex is taken; [idx] is a local of
    [release], computed before the lock. *)
Definition locked (pc : pool_pc) : option pool_pc :=
  match pc with
  | A_lock => Some A_test
  | R_lock x => Some (R_read x (to_u32 x))
  | _ => None
  end.

(** Is the thread between the constructor and the destructor of [lk]? *)
Definition in_section (pc : pool_pc) : bool :=
  match pc with P_out | A_lock | R_lock _ => false | _ => true end.

(** The slot a thread is giving back. *)
Definition giving (pc : pool_pc) : option ptr :=
  match pc with
  | R_lock x | R_read x _ | R_inc x _ _ | R_store x _ _ | R_unlock x => Some x
  | _ => None
  end.

(** ** Histories *)

(** What the pool and its users did: calls, in the order in which they
    unlock, with their results, and writes through pointers. *)
Inductive pool_event :=
| Ev_acquire (r : option ptr)
| Ev_release (x : ptr)
| Ev_write (x : ptr) (o : Order).

(** A call that unlocks is complete. *)
Definition completes (pc : pool_pc) : option pool_event :=
  match pc with
  | A_unlock r => Some (Ev_acquire r)
  | R_unlock x => Some (Ev_release x)
  | _ => None
  end.

(** [l] without the first occurrence of [x]. *)
Fixpoint take_out (x : ptr) (l : list ptr) : option (list ptr) :=
  match l with
  | [] => None
  | y :: l => if decide (x = y) then Some l else let* k := take_out x l in Some (y :: k)
  end.

(** The slots in use after an event. *)
Definition live_after (ev : pool_event) (live : list ptr) : option (list ptr) :=
  match ev with
  | Ev_acquire (Some x) => Some (x :: live)
  | Ev_acquire None => Some live
  | Ev_release x => take_out x live
  | Ev_write x _ => guard* bool_decide (x ∈ live) in Some live
  end.

(** One event of the one-step operations: defined only if the operation returns
    what the event says. *)
Definition replay1 (ev : pool_event) (p : Pool) : res Pool :=
  match ev with
  | Ev_acquire r =>
      let* (r', p') := acquire p in guard* bool_decide (r' = r) in Some p'
  | Ev_release x => release x p
  | Ev_write x o =>
      let* h := hupd (λ _, o) x (storage_ p) in Some (with_storage h p)
  end.

Fixpoint replay (evs : list pool_event) (st : Pool * list ptr) : res (Pool * list ptr) :=
  match evs with
  | [] => Some st
  | ev :: evs =>
      let* live := live_after ev st.2 in
      let* p := replay1 ev st.1 in
      replay evs (p, live)
  end.

(** ** Threads *)

Record LockedPool := mkLocked {
  memory : Pool;
  mu_ : option nat;             (* the thread that has locked the mutex *)
  threads : list pool_pc;
  live : list ptr;              (* handed out, not given back *)
  history : list pool_event }.

Definition Locked_new (n k : nat) : LockedPool :=
  mkLocked (Pool_new n) None (replicate k P_out) [] [].

(** No thread is giving [x] back. *)
Definition not_giving (x : ptr) (ts : list pool_pc) : Prop :=
  ∀ i pc, ts !! i = Some pc → giving pc ≠ Some x.

(** A client may give back, or write to, an order it holds and that nobody is
    giving back; everything else is up to the scheduler. *)
Inductive locked_step : LockedPool → LockedPool → Prop :=
| ls_acquire i m mu ts l hist :
    ts !! i = Some P_out →
    locked_step (mkLocked m mu ts l hist) (mkLocked m mu (<[i := A_lock]> ts) l hist)
| ls_release i x m mu ts l hist :
    ts !! i = Some P_out → x ∈ l → not_giving x ts →
    locked_step (mkLocked m mu ts l hist) (mkLocked m mu (<[i := R_lock x]> ts) l hist)
| ls_lock i pc pc' m ts l hist :
    ts !! i = Some pc → locked pc = Some pc' →
    locked_step (mkLocked m None ts l hist) (mkLocked m (Some i) (<[i := pc']> ts) l hist)
| ls_stmt i pc f pc' m m' mu ts l hist :
    ts !! i = Some pc → stmt pc = Some f → f m = Some (pc', m') →
    locked_step (mkLocked m mu ts l hist) (mkLocked m' mu (<[i := pc']> ts) l hist)
| ls_unlock i pc ev m mu ts l l' hist :
    ts !! i = Some pc → completes pc = Some ev → live_after ev l = Some l' →
    locked_step (mkLocked m mu ts l hist)
                (mkLocked m None (<[i := P_out]> ts) l' (hist ++ [ev]))
| ls_write x o m h mu ts l hist :
    x ∈ l → not_giving x ts → hupd (λ _, o) x (storage_ m) = Some h →
    locked_step (mkLocked m mu ts l hist)
                (mkLocked (with_storage h m) mu ts l (hist ++ [Ev_write x o])).

(** ** The memory during a critical section

    [section_mem p pc m]: a thread took the mutex when the memory was [p] (up to
    writes to orders in use since) and is now at [pc] with memory [m]. *)
Inductive section_mem (p : Pool) : pool_pc → Pool → Prop :=
| sm_test : section_mem p A_test p
| sm_read : stack_top_ p ≠ 0 → section_mem p A_read p
| sm_dec : stack_top_ p ≠ 0 → section_mem p (A_dec (pred (stack_top_ p))) p
| sm_slot :
    stack_top_ p ≠ 0 →
    section_mem p (A_slot (pred (stack_top_ p)))
      (mkPool (storage_ p) (free_slots_ p) (pred (stack_top_ p)))
| sm_clear x :
    stack_top_ p ≠ 0 → free_slots_ p !! pred (stack_top_ p) = Some x →
    section_mem p (A_clear x) (mkPool (storage_ p) (free_slots_ p) (pred (stack_top_ p)))
| sm_acquired r m : acquire p = Some (r, m) → section_mem p (A_unlock r) m
| sm_top x : section_mem p (R_read x (to_u32 x)) p
| sm_inc x : section_mem p (R_inc x (to_u32 x) (stack_top_ p)) p
| sm_store x :
    section_mem p (R_store x (to_u32 x) (stack_top_ p))
      (mkPool (storage_ p) (free_slots_ p) (to_u32 (S (stack_top_ p))))
| sm_released x m : release x p = Some m → section_mem p (R_unlock x) m.

#[local] Hint Constructors section_mem : core.

(** ** Lemmas *)

Lemma take_out_split x l k :
  take_out x l = Some k → ∃ l1 l2, l = l1 ++ x :: l2 ∧ k = l1 ++ l2.
Proof.
  revert k. induction l as [|y l IH]; intros k; simpl; [done|]. case_decide as E.
  - intros [= ->]. subst. by exists [], k.
  - destruct (take_out x l) as [k'|]; [|done]. intros [= <-].
    destruct (IH k' eq_refl) as (l1 & l2 & -> & ->). by exists (y :: l1), l2.
Qed.

Lemma take_out_elem x l : x ∈ l → is_Some (take_out x l).
Proof.
  induction l as [|y l IH]; simpl; [set_solver|]. case_decide; [by eexists|].
  intros [?|Hx]%elem_of_cons; [congruence|]. destruct (IH Hx) as [k ->]. by eexists.
Qed.

(** The one-step operations on a history are a run of the pool. *)
Lemma replay1_step ev p p' l l' :
  live_after ev l = Some l' → replay1 ev p = Some p' → pool_step (p, l) (p', l').
Proof.
  destruct ev as [r|x|x o]; simpl.
  - destruct (acquire p) as [[r' p1]|] eqn:E; [|done]. case_bool_decide; [|done].
    subst. destruct r; intros [= <-] [= <-]; by constructor.
  - intros (l1 & l2 & -> & ->)%take_out_split E. by constructor.
  - case_bool_decide; [|done]. intros [= <-]. unfold hupd.
    destruct (storage_ p !! x); [|done]. intros [= <-]. apply step_write. by rewrite length_insert.
Qed.

Lemma replay_app evs evs' st :
  replay (evs ++ evs') st = let* st' := replay evs st in replay evs' st'.
Proof.
  revert st. induction evs as [|ev evs IH]; intros st; simpl; [done|].
  destruct (live_after ev st.2); [|done]. destruct (replay1 ev st.1); [|done]. apply IH.
Qed.

Lemma replay_snoc evs ev st p l p' l' :
  replay evs st = Some (p, l) → live_after ev l = Some l' → replay1 ev p = Some p' →
  replay (evs ++ [ev]) st = Some (p', l').
Proof. intros H H1 H2. rewrite replay_app, H. simpl. by rewrite H1, H2. Qed.

Lemma replay_steps evs st st' : replay evs st = Some st' → rtc pool_step st st'.
Proof.
  revert st. induction evs as [|ev evs IH]; intros [p l]; simpl.
  - by intros [= ->].
  - destruct (live_after ev l) as [l1|] eqn:E1; [|done].
    destruct (replay1 ev p) as [p1|] eqn:E2; [|done]. intros H.
    eapply rtc_l; [exact (replay1_step _ _ _ _ _ E1 E2)|by apply IH].
Qed.

Lemma section_start p pc pc' : locked pc = Some pc' → section_mem p pc' p.
Proof. destruct pc; intros [= <-]; constructor. Qed.

Lemma section_end p pc ev m :
  section_mem p pc m → completes pc = Some ev → replay1 ev p = Some m.
Proof.
  destruct 1 as [| | | | |r m E| | | |x m E]; intros [= <-]; simpl; [|done].
  rewrite E. by rewrite bool_decide_eq_true_2.
Qed.

(** A statement keeps the relation. *)
Lemma section_stmt p pc f m pc' m' :
  section_mem p pc m → stmt pc = Some f → f m = Some (pc', m') → section_mem p pc' m'.
Proof.
  destruct 1; intros [= <-]; simpl; try (intros [= <- <-]; auto; done).
  - case_decide; intros [= <- <-]; [|by auto]. constructor. by apply acquire_empty.
  - destruct (free_slots_ p !! _) eqn:E; [|done]. intros [= <- <-]. by auto.
  - destruct (hupd _ x _) as [h|] eqn:E; [|done]. intros [= <- <-]. constructor.
    unfold acquire. rewrite decide_False by done. rewrite H0. by rewrite E.
  - case_bool_decide as Hlt; [|done]. intros [= <- <-]. constructor.
    unfold release. by rewrite bool_decide_eq_true_2.
Qed.

(** No statement has a subscript out of range. *)
Lemma section_safe p pc f m :
  pool_ok p → (∀ x, giving pc = Some x → allocated p x) → section_mem p pc m →
  stmt pc = Some f → is_Some (f m).
Proof.
  intros Hok Hg Hs Hf.
  destruct Hs as [| | |Ht|x Ht Hx| | | |x|]; simplify_eq/=; try by eexists.
  - destruct (proj2 (lookup_lt_is_Some (free_slots_ p) (pred (stack_top_ p)))) as [x ->]; [|by eexists].
    destruct Hok as (Hl & Hc & _). lia.
  - destruct (acquire_spec p Hok Ht) as (y & p' & E & _).
    unfold acquire in E. rewrite decide_False, Hx in E by done.
    destruct (hupd _ x _); [by eexists|done].
  - destruct (release_spec p x Hok (Hg x eq_refl)) as (p' & E & _).
    unfold release in E. case_bool_decide; [by eexists|done].
Qed.

(** A write to an order in use commutes with the section. *)
Lemma section_write p pc m x o h :
  pool_ok p → allocated p x → section_mem p pc m →
  hupd (λ _, o) x (storage_ m) = Some h →
  ∃ h0, hupd (λ _, o) x (storage_ p) = Some h0 ∧
    section_mem (with_storage h0 p) pc (with_storage h m).
Proof.
  intros Hok Ha Hs Hh. destruct (allocated_lookup p x Ha) as [o0 Ho0].
  exists (<[x := o]> (storage_ p)). split; [exact (hupd_some _ _ _ _ Ho0)|].
  pose (q := with_storage (<[x := o]> (storage_ p)) p).
  destruct Hs as [|Ht|Ht|Ht|y Ht Hy|r m E|y|y|y|y m E];
    try (simpl in Hh; rewrite (hupd_some _ _ _ _ Ho0) in Hh; injection Hh as <-;
         first [exact (sm_test q)|exact (sm_read q Ht)|exact (sm_dec q Ht)|exact (sm_slot q Ht)
               |exact (sm_clear q y Ht Hy)|exact (sm_top q y)|exact (sm_inc q y)|exact (sm_store q y)]).
  - constructor. destruct (decide (stack_top_ p = 0)) as [Hz|Hz].
    { rewrite acquire_empty in E by done. injection E as <- <-.
      rewrite (hupd_some _ _ _ _ Ho0) in Hh. injection Hh as <-. by apply acquire_empty. }
    unfold acquire in E |- *. simpl. rewrite decide_False in E |- * by done.
    destruct (free_slots_ p !! _) as [y|] eqn:Hy; [|done]. simpl.
    destruct (acquire_spec p Hok Hz) as (y' & p' & E' & _ & Hf & _ & Hlt).
    unfold acquire in E'. rewrite decide_False, Hy in E' by done.
    destruct (storage_ p !! y) as [oy|] eqn:Hoy; [|by unfold hupd in E; rewrite Hoy in E].
    rewrite (hupd_some _ _ _ _ Hoy) in E, E'. injection E' as -> _. injection E as <- <-.
    assert (y' ≠ x) as Hne by (intros ->; apply (proj2 Ha); rewrite Hf; set_solver).
    simpl in Hh. unfold hupd in Hh. rewrite list_lookup_insert_ne, Ho0 in Hh by done.
    injection Hh as <-.
    rewrite (hupd_some _ _ _ oy) by (by rewrite list_lookup_insert_ne).
    by rewrite list_insert_insert_ne by done.
  - constructor. unfold release in E |- *. simpl. case_bool_decide; [|done].
    injection E as <-. simpl in Hh. rewrite (hupd_some _ _ _ _ Ho0) in Hh. by injection Hh as <-.
Qed.

(** What [available_approx] may read. *)
Lemma section_top p pc m :
  pool_ok p → (∀ x, giving pc = Some x → allocated p x) → section_mem p pc m →
  stack_top_ m ≤ capacity p.
Proof.
  intros Hok Hg Hs. pose proof Hok as (_ & Ht & Hc & _).
  destruct Hs as [| | | | |r m E| | |x|x m E]; simpl; try lia.
  - destruct (decide (stack_top_ p = 0)) as [Hz|Hz].
    + rewrite acquire_empty in E by done. by injection E as <- <-.
    + destruct (acquire_spec p Hok Hz) as (y & p' & E' & Hok' & _ & Hst & _).
      rewrite E' in E. injection E as <- <-. destruct Hok' as (_ & Ht' & _).
      unfold capacity in *. by rewrite Hst, length_insert in Ht'.
  - destruct (release_spec p x Hok (Hg x eq_refl)) as (p' & E & Hok' & _ & Hst).
    destruct Hok' as (_ & Ht' & _). unfold capacity in *. rewrite Hst in Ht'.
    unfold release in E. case_bool_decide; [|done]. by injection E as <-.
  - destruct (release_spec p x Hok (Hg x eq_refl)) as (p' & E' & Hok' & _ & Hst).
    rewrite E' in E. injection E as <-. destruct Hok' as (_ & Ht' & _).
    unfold capacity in *. by rewrite Hst in Ht'.
Qed.

(** Orders being given back are in use, and each by one thread. *)
Definition givers_ok (ts : list pool_pc) (l : list ptr) : Prop :=
  (∀ i pc x, ts !! i = Some pc → giving pc = Some x → x ∈ l) ∧
  (∀ i j pi pj x, ts !! i = Some pi → ts !! j = Some pj →
    giving pi = Some x → giving pj = Some x → i = j).

(** ** The invariant

    [p] is the pool of the one-step operations after the history so far. *)
Record locked_ok (n : nat) (p : Pool) (st : LockedPool) : Prop := {
  lo_replay : replay (history st) (Pool_new n, []) = Some (p, live st);
  lo_mutex : ∀ i pc, threads st !! i = Some pc → in_section pc = true → mu_ st = Some i;
  lo_givers : givers_ok (threads st) (live st);
  lo_memory : match mu_ st with
    | None => memory st = p
    | Some i => ∃ pc, threads st !! i = Some pc ∧ in_section pc = true ∧
        section_mem p pc (memory st)
    end }.

Section locked.
Context (n : nat) (Hn : (Z.of_nat n ≤ 4294967294)%Z).

Lemma locked_pool p st :
  locked_ok n p st → pool_ok p ∧ capacity p = n ∧ free p ++ live st ≡ₚ seq 0 n.
Proof. intros H. apply pool_reachable, replay_steps with (history st); [done|apply H]. Qed.

Lemma live_allocated p st x : locked_ok n p st → x ∈ live st → allocated p x.
Proof.
  intros H Hx. destruct (locked_pool p st H) as (_ & Hc & Hp). split.
  - assert (x ∈ seq 0 n) as Hs%elem_of_seq by (rewrite <- Hp; set_solver). lia.
  - intros Hf. assert (NoDup (free p ++ live st)) as Hnd by (rewrite Hp; apply NoDup_seq).
    apply NoDup_app in Hnd as (_ & Hd & _). by apply (Hd x).
Qed.

Lemma giving_allocated p st i pc :
  locked_ok n p st → threads st !! i = Some pc →
  ∀ x, giving pc = Some x → allocated p x.
Proof. intros H Hi x Hx. eapply live_allocated; [done|]. by apply (proj1 (lo_givers _ _ _ H) i pc). Qed.

(** The thread in the critical section, and its memory. *)
Lemma section_of p st i pc :
  locked_ok n p st → threads st !! i = Some pc → in_section pc = true →
  mu_ st = Some i ∧ section_mem p pc (memory st).
Proof.
  intros H Hi Hs. pose proof (lo_mutex _ _ _ H i pc Hi Hs) as Hmu. split; [done|].
  pose proof (lo_memory _ _ _ H) as Hm. rewrite Hmu in Hm.
  destruct Hm as (pc' & Hi' & _ & Hm). rewrite Hi in Hi'. by injection Hi' as ->.
Qed.

Lemma Locked_new_ok k : locked_ok n (Pool_new n) (Locked_new n k).
Proof.
  split; simpl; try done; [by intros i pc [-> _]%lookup_replicate|].
  split; [by intros i pc x [-> _]%lookup_replicate|].
  by intros i j pi pj x [-> _]%lookup_replicate.
Qed.

(** A thread moves from [pc] to [pc']. *)
Lemma givers_move ts i pc pc' l :
  ts !! i = Some pc →
  (∀ x, giving pc' = Some x → giving pc = Some x ∨ x ∈ l ∧ not_giving x ts) →
  givers_ok ts l → givers_ok (<[i := pc']> ts) l.
Proof.
  intros Hi Hg [Hl Ho]. split.
  - intros j pj x [(-> & -> & _)|[_ Hj]]%list_lookup_insert_Some Hx; [|by eapply Hl].
    destruct (Hg x Hx) as [Hx'|[? _]]; [by eapply Hl|done].
  - intros j k pj pk x [(<- & -> & _)|[Hij Hj]]%list_lookup_insert_Some
      [(<- & -> & _)|[Hik Hk]]%list_lookup_insert_Some Hx Hy; [done| | |by eapply Ho].
    + destruct (Hg x Hx) as [?|[_ Hn']]; [by eapply Ho|by destruct (Hn' k pk Hk)].
    + destruct (Hg x Hy) as [?|[_ Hn']]; [by eapply Ho|by destruct (Hn' j pj Hj)].
Qed.

(** A call that completes: [l'] has lost only what the thread gave back. *)
Lemma givers_complete ts i pc ev l l' :
  ts !! i = Some pc → completes pc = Some ev → live_after ev l = Some l' →
  givers_ok ts l → givers_ok (<[i := P_out]> ts) l'.
Proof.
  intros Hi Hc Hl' H. destruct (givers_move ts i pc P_out l Hi) as [Hl Ho]; [done|done|].
  split; [|done]. intros j pj x Hj Hx. pose proof (Hl j pj x Hj Hx) as Hin.
  destruct ev as [[y|]|y|]; simpl in Hl'.
  - injection Hl' as <-. by right.
  - by injection Hl' as <-.
  - apply take_out_split in Hl' as (l1 & l2 & -> & ->).
    apply elem_of_app in Hin as [Hin|[->|Hin]%elem_of_cons]; [set_solver| |set_solver].
    apply list_lookup_insert_Some in Hj as [(<- & <- & _)|[Hij Hj]]; [done|].
    destruct Hij. apply (proj2 H i j pc pj y); [done|done| |done].
    destruct pc; try done. by injection Hc as <-.
  - case_bool_decide; [|done]. by injection Hl' as <-.
Qed.

Lemma stmt_section pc f m pc' m' :
  stmt pc = Some f → f m = Some (pc', m') →
  in_section pc = true ∧ in_section pc' = true ∧ giving pc' = giving pc.
Proof.
  destruct pc; intros [= <-] E; simpl in E; repeat case_match; simplify_eq; done.
Qed.

(** A call: the thread is outside the section before and after. *)
Lemma locked_call p m mu ts l hist i pc' :
  ts !! i = Some P_out → in_section pc' = false →
  (∀ x, giving pc' = Some x → x ∈ l ∧ not_giving x ts) →
  locked_ok n p (mkLocked m mu ts l hist) →
  locked_ok n p (mkLocked m mu (<[i := pc']> ts) l hist).
Proof.
  intros Hi Hs' Hgv [Hr Hm Hg Hmem]; simpl in *. split; simpl; [done| | |].
  - intros j pj [(-> & -> & _)|[_ Hj]]%list_lookup_insert_Some Hj'; [congruence|by eapply Hm].
  - apply (givers_move ts i P_out pc'); [done| |done]. intros x Hx. right. by apply Hgv.
  - destruct mu as [j|]; [|done]. destruct Hmem as (pj & Hj & Hin & Hp). exists pj.
    split; [|done]. rewrite list_lookup_insert_ne; [done|]. intros ->. rewrite Hi in Hj.
    by injection Hj as <-.
Qed.

Lemma locked_lock p m ts l hist i pc pc' :
  ts !! i = Some pc → locked pc = Some pc' →
  locked_ok n p (mkLocked m None ts l hist) →
  locked_ok n p (mkLocked m (Some i) (<[i := pc']> ts) l hist).
Proof.
  intros Hi Hk [Hr Hm Hg Hmem]; simpl in *. subst m.
  assert (giving pc' = giving pc ∧ in_section pc' = true) as [Hgv Hin].
  { destruct pc; try done; by injection Hk as <-. }
  split; simpl; [done| | |].
  - intros j pj [(-> & -> & _)|[_ Hj]]%list_lookup_insert_Some Hj'; [done|].
    by pose proof (Hm j pj Hj Hj').
  - apply (givers_move ts i pc pc'); [done| |done]. intros x Hx. left. congruence.
  - exists pc'. rewrite list_lookup_insert_eq by (by eapply lookup_lt_Some).
    split_and!; [done|done|]. by apply section_start with pc.
Qed.

Lemma locked_stmt p m m' mu ts l hist i pc f pc' :
  ts !! i = Some pc → stmt pc = Some f → f m = Some (pc', m') →
  locked_ok n p (mkLocked m mu ts l hist) →
  locked_ok n p (mkLocked m' mu (<[i := pc']> ts) l hist).
Proof.
  intros Hi Hf E H. destruct (stmt_section pc f m pc' m' Hf E) as (Hin & Hin' & Hgv).
  destruct (section_of p _ i pc H Hi Hin) as [Hmu Hsec].
  destruct H as [Hr Hm Hg Hmem]; simpl in *. subst mu. split; simpl; [done| | |].
  - intros j pj [(-> & -> & _)|[_ Hj]]%list_lookup_insert_Some Hj'; [done|by eapply Hm].
  - apply (givers_move ts i pc pc'); [done| |done]. intros x Hx. left. congruence.
  - exists pc'. rewrite list_lookup_insert_eq by (by eapply lookup_lt_Some).
    split_and!; [done|done|]. exact (section_stmt p pc f m pc' m' Hsec Hf E).
Qed.

(** The linearisation point: the unlock. *)
Lemma locked_unlock p m mu ts l l' hist i pc ev :
  ts !! i = Some pc → completes pc = Some ev → live_after ev l = Some l' →
  locked_ok n p (mkLocked m mu ts l hist) →
  locked_ok n m (mkLocked m None (<[i := P_out]> ts) l' (hist ++ [ev])).
Proof.
  intros Hi Hc Hl H. assert (in_section pc = true) as Hin by (by destruct pc).
  destruct (section_of p _ i pc H Hi Hin) as [Hmu Hsec].
  destruct H as [Hr Hm Hg Hmem]; simpl in *. split; simpl; [| | |done].
  - apply (replay_snoc _ _ _ p l); [done|done|]. by apply section_end with pc.
  - intros j pj [(_ & <- & _)|[Hij Hj]]%list_lookup_insert_Some Hj'; [done|].
    pose proof (Hm j pj Hj Hj'). congruence.
  - by apply (givers_complete ts i pc ev l).
Qed.

Lemma locked_write p x o m h mu ts l hist :
  x ∈ l → hupd (λ _, o) x (storage_ m) = Some h →
  locked_ok n p (mkLocked m mu ts l hist) →
  ∃ p', locked_ok n p' (mkLocked (with_storage h m) mu ts l (hist ++ [Ev_write x o])).
Proof.
  intros Hx Hh H. pose proof (live_allocated p _ x H Hx) as Ha.
  destruct (locked_pool p _ H) as (Hok & _).
  destruct H as [Hr Hm Hg Hmem]; simpl in *.
  assert (∀ h0 k, hupd (λ _, o) x (storage_ p) = Some h0 →
    match mu with
    | None => k = with_storage h0 p
    | Some i => ∃ pc, ts !! i = Some pc ∧ in_section pc = true ∧ section_mem (with_storage h0 p) pc k
    end → locked_ok n (with_storage h0 p) (mkLocked k mu ts l (hist ++ [Ev_write x o]))) as Hok'.
  { intros h0 k Hh0 Hk. split; simpl; [|done|done|done].
    apply (replay_snoc _ _ _ p l); [done| |]; simpl; [by rewrite bool_decide_eq_true_2|].
    by rewrite Hh0. }
  destruct mu as [i|].
  - destruct Hmem as (pc & Hi & Hin & Hsec).
    destruct (section_write p pc m x o h Hok Ha Hsec Hh) as (h0 & Hh0 & Hsec').
    exists (with_storage h0 p). apply Hok'; [done|]. by exists pc.
  - subst m. exists (with_storage h p). by apply Hok'.
Qed.

Lemma locked_step_ok p st st' :
  locked_ok n p st → locked_step st st' → ∃ p', locked_ok n p' st'.
Proof.
  intros H Hs. destruct Hs.
  - exists p. by apply locked_call.
  - exists p. apply locked_call; [done|done| |done]. by intros y [= <-].
  - exists p. by eapply locked_lock.
  - exists p. by eapply locked_stmt.
  - exists m. by eapply locked_unlock.
  - by eapply locked_write.
Qed.

Lemma locked_reachable k st :
  rtc locked_step (Locked_new n k) st → ∃ p, locked_ok n p st.
Proof.
  apply (rtc_invariant _ (λ st, ∃ p, locked_ok n p st)).
  - intros a b [p Ha] Hs. exact (locked_step_ok p a b Ha Hs).
  - exists (Pool_new n). apply Locked_new_ok.
Qed.
End locked.

Lemma section_capacity p pc m : section_mem p pc m → capacity m = capacity p.
Proof.
  destruct 1 as [| | | | |r m E| | | |x m E]; try done.
  - unfold acquire, hupd in E. repeat case_match; simplify_eq; try done.
    unfold capacity. simpl. by rewrite length_insert.
  - unfold release in E. case_match; [|done]. by simplify_eq.
Qed.

Lemma memory_capacity n p st : locked_ok n p st → capacity (memory st) = capacity p.
Proof.
  intros H. pose proof (lo_memory _ _ _ H) as Hm. destruct (mu_ st); [|congruence].
  destruct Hm as (pc & _ & _ & Hs). by apply section_capacity with pc.
Qed.

Lemma clear_free p m x : pool_ok p → section_mem p (A_clear x) m → x ∈ free p.
Proof.
  intros Hok Hs. inversion Hs as [| | | |? Ht Hx E| | | | |]; subst. unfold free.
  apply list_elem_of_lookup. exists (pred (stack_top_ p)).
  rewrite lookup_take_lt by lia. done.
Qed.

(** Each statement brings the unlock nearer. *)
Definition statements_left (pc : pool_pc) : nat :=
  match pc with
  | A_test => 5 | A_read => 4 | A_dec _ => 3 | A_slot _ => 2 | A_clear _ => 1
  | R_read _ _ => 3 | R_inc _ _ _ => 2 | R_store _ _ _ => 1
  | _ => 0
  end.

Lemma stmt_left pc f m pc' m' :
  stmt pc = Some f → f m = Some (pc', m') → statements_left pc' < statements_left pc.
Proof.
  destruct pc; intros [= <-] E; simpl in E; repeat case_match; simplify_eq; simpl; lia.
Qed.

Lemma section_next pc :
  in_section pc = true → is_Some (stmt pc) ∨ is_Some (completes pc).
Proof. destruct pc; simpl; eauto; done. Qed.

(** The thread that holds the mutex gets to its unlock by itself. *)
Lemma section_ends n p st i :
  (Z.of_nat n ≤ 4294967294)%Z → locked_ok n p st → mu_ st = Some i →
  ∃ p' st', rtc locked_step st st' ∧ locked_ok n p' st' ∧ mu_ st' = None ∧
    threads st' = <[i := P_out]> (threads st).
Proof.
  intros Hn H Hmu. pose proof (lo_memory _ _ _ H) as Hm. rewrite Hmu in Hm.
  destruct Hm as (pc & Hi & Hin & Hsec). clear Hsec.
  remember (statements_left pc) as k eqn:Hk. revert p st pc H Hmu Hi Hin Hk.
  induction (lt_wf k) as [k _ IH]. intros p st pc H Hmu Hi Hin ->.
  destruct (section_of n p st i pc H Hi Hin) as [_ Hsec].
  pose proof (giving_allocated n Hn p st i pc H Hi) as Hgv.
  destruct st as [m mu ts l hist]; simpl in *.
  destruct (section_next pc Hin) as [[f Hf]|[ev Hev]].
  - destruct (section_safe p pc f m (proj1 (locked_pool n Hn p _ H)) Hgv Hsec Hf) as [[pc' m'] E].
    destruct (stmt_section pc f m pc' m' Hf E) as (_ & Hin' & _).
    destruct (IH _ (stmt_left pc f m pc' m' Hf E) p (mkLocked m' mu (<[i := pc']> ts) l hist) pc')
      as (p' & st' & Hr & Hok & Hmu' & Hts); simpl; try done.
    + by eapply locked_stmt.
    + apply list_lookup_insert_eq. by eapply lookup_lt_Some.
    + exists p', st'. split_and!; [|done|done|].
      * eapply rtc_l; [|exact Hr]. by eapply ls_stmt.
      * rewrite Hts. simpl. apply list_insert_insert_eq.
  - assert (is_Some (live_after ev l)) as [l' Hl'].
    { destruct pc as [| | | | | | |r| | | | |x]; try done; injection Hev as <-; simpl; [by destruct r|].
      apply take_out_elem. by apply (proj1 (lo_givers _ _ _ H) i (R_unlock x)). }
    exists m, (mkLocked m None (<[i := P_out]> ts) l' (hist ++ [ev])).
    split_and!; [|by eapply locked_unlock|done|done].
    apply rtc_once. by eapply ls_unlock.
Qed.

(** ** Schedules

    A scheduler's choices, executed. *)

Inductive choice :=
| Call_acquire (i : nat)
| Call_release (i : nat) (x : ptr)
| Go (i : nat)                         (* the next step of thread [i] *)
| Store (x : ptr) (o : Order).

Definition go (i : nat) (st : LockedPool) : option LockedPool :=
  let '(mkLocked m mu ts l hist) := st in
  let* pc := ts !! i in
  match locked pc, stmt pc, completes pc with
  | Some pc', _, _ =>
      match mu with
      | None => Some (mkLocked m (Some i) (<[i := pc']> ts) l hist)
      | Some _ => None
      end
  | _, Some f, _ =>
      let* (pc', m') := f m in Some (mkLocked m' mu (<[i := pc']> ts) l hist)
  | _, _, Some ev =>
      let* l' := live_after ev l in
      Some (mkLocked m None (<[i := P_out]> ts) l' (hist ++ [ev]))
  | _, _, _ => None
  end.

Definition choose (c : choice) (st : LockedPool) : option LockedPool :=
  let '(mkLocked m mu ts l hist) := st in
  let held x := bool_decide (x ∈ l) && forallb (λ pc, bool_decide (giving pc ≠ Some x)) ts in
  match c with
  | Go i => go i st
  | Call_acquire i =>
      match ts !! i with
      | Some P_out => Some (mkLocked m mu (<[i := A_lock]> ts) l hist)
      | _ => None
      end
  | Call_release i x =>
      match ts !! i with
      | Some P_out => guard* held x in Some (mkLocked m mu (<[i := R_lock x]> ts) l hist)
      | _ => None
      end
  | Store x o =>
      guard* held x in
      let* h := hupd (λ _, o) x (storage_ m) in
      Some (mkLocked (with_storage h m) mu ts l (hist ++ [Ev_write x o]))
  end.

Fixpoint schedule (cs : list choice) (st : LockedPool) : option LockedPool :=
  match cs with
  | [] => Some st
  | c :: cs => let* st' := choose c st in schedule cs st'
  end.

Lemma go_step i st st' : go i st = Some st' → locked_step st st'.
Proof.
  destruct st as [m mu ts l hist]. unfold go. destruct (ts !! i) as [pc|] eqn:Hi; [|done].
  destruct (locked pc) as [pc'|] eqn:Hk.
  { destruct mu; [done|]. intros [= <-]. by eapply ls_lock. }
  destruct (stmt pc) as [f|] eqn:Hf.
  { destruct (f m) as [[pc' m']|] eqn:E; [|done]. intros [= <-]. by eapply ls_stmt. }
  destruct (completes pc) as [ev|] eqn:Hc; [|done].
  destruct (live_after ev l) as [l'|] eqn:Hl; [|done]. intros [= <-]. by eapply ls_unlock.
Qed.

Lemma held_spec x (l : list ptr) ts :
  bool_decide (x ∈ l) && forallb (λ pc, bool_decide (giving pc ≠ Some x)) ts = true →
  x ∈ l ∧ not_giving x ts.
Proof.
  intros [Hx%bool_decide_eq_true_1 Hf]%andb_true_iff. split; [done|].
  intros i pc Hi. rewrite forallb_forall in Hf.
  apply (bool_decide_eq_true_1 (giving pc ≠ Some x)), Hf, list_elem_of_In.
  by apply list_elem_of_lookup_2 with i.
Qed.

Lemma choose_step c st st' : choose c st = Some st' → locked_step st st'.
Proof.
  destruct c as [i|i x|i|x o]; destruct st as [m mu ts l hist]; cbn [choose].
  - destruct (ts !! i) as [[]|] eqn:Hi; try done. intros [= <-]. by constructor.
  - destruct (ts !! i) as [[]|] eqn:Hi; try done. case_match eqn:Hh; [|done].
    intros [= <-]. apply held_spec in Hh as [? ?]. by constructor.
  - apply go_step.
  - case_match eqn:Hh; [|done]. destruct (hupd _ x _) as [h|] eqn:E; [|done].
    intros [= <-]. apply held_spec in Hh as [? ?]. by constructor.
Qed.

Lemma schedule_steps cs st st' : schedule cs st = Some st' → rtc locked_step st st'.
Proof.
  revert st. induction cs as [|c cs IH]; intros st; simpl; [by intros [= ->]|].
  destruct (choose c st) as [st1|] eqn:E; [|done]. intros H.
  eapply rtc_l; [exact (choose_step _ _ _ E)|by apply IH].
Qed.

(** Three threads on a pool of two: thread 0 is handed slot 1 and writes to it
    while thread 1 is half way through being handed slot 0; then thread 0 gives
    slot 1 back and thread 2 is handed it again. *)
Definition ex_order : Order := set_filled_qty 7%Z Order_init.

Definition ex_choices : list choice :=
  [Call_acquire 0; Call_acquire 1; Go 0; Go 0; Go 0; Call_acquire 2; Go 0; Go 0; Go 0; Go 0;
   Go 1; Go 1; Store 1 ex_order; Go 1; Go 1; Go 1; Call_release 0 1; Go 1; Go 1;
   Go 0; Go 0; Go 0; Go 0; Go 0; Go 2; Go 2; Go 2; Go 2; Go 2; Go 2; Go 2].

(** C13: the mutex makes the pool's operations atomic.  However the threads'
    statements interleave, what the calls have returned, in the order in which
    they unlocked the mutex and together with the clients' writes, is a history
    of the one-step operations; while nobody holds the mutex the memory is the
    pool those leave.  At most one thread is in a critical section; no
    statement has a subscript out of range; no order is in use twice, orders in
    use can be written to, and the order that [acquire] clears is not one of
    them; and what [available_approx] reads without the lock (as a plain read,
    which the mutex does not order) is at most the capacity. *)
Theorem pool_linearizable n k st :
  (Z.of_nat n ≤ 4294967294)%Z → rtc locked_step (Locked_new n k) st →
  ∃ p, replay (history st) (Pool_new n, []) = Some (p, live st) ∧
    (mu_ st = None → memory st = p) ∧
    (∀ i j pi pj, threads st !! i = Some pi → threads st !! j = Some pj →
       in_section pi = true → in_section pj = true → i = j) ∧
    (∀ i pc f, threads st !! i = Some pc → stmt pc = Some f → is_Some (f (memory st))) ∧
    NoDup (live st) ∧
    (∀ x, x ∈ live st → is_Some (storage_ (memory st) !! x)) ∧
    (∀ i x, threads st !! i = Some (A_clear x) → x ∉ live st) ∧
    available_approx (memory st) ≤ n.
Proof.
  intros Hn Hr. destruct (locked_reachable n Hn k st Hr) as [p H].
  destruct (locked_pool n Hn p st H) as (Hok & Hc & Hperm). exists p.
  assert (NoDup (free p ++ live st)) as Hnd by (rewrite Hperm; apply NoDup_seq).
  apply NoDup_app in Hnd as (_ & Hd & Hnd).
  split_and!; [apply H| | | |done| | |].
  - intros Hmu. pose proof (lo_memory _ _ _ H) as Hm. by rewrite Hmu in Hm.
  - intros i j pi pj Hi Hj Hsi Hsj.
    pose proof (lo_mutex _ _ _ H i pi Hi Hsi). pose proof (lo_mutex _ _ _ H j pj Hj Hsj). congruence.
  - intros i pc f Hi Hf. assert (in_section pc = true) as Hin by (by destruct pc).
    apply (section_safe p pc f); [done| |apply (section_of n p st i pc H Hi Hin)|done].
    exact (giving_allocated n Hn p st i pc H Hi).
  - intros x Hx. apply lookup_lt_is_Some. change (x < capacity (memory st)).
    rewrite (memory_capacity n p st H). apply (live_allocated n Hn p st x H Hx).
  - intros i x Hi Hx. apply (Hd x); [|done].
    apply (clear_free p (memory st)); [done|]. by apply (section_of n p st i _ H Hi).
  - unfold available_approx. rewrite <- Hc. pose proof (lo_memory _ _ _ H) as Hm.
    destruct (mu_ st) as [i|]; [|rewrite Hm; apply Hok].
    destruct Hm as (pc & Hi & _ & Hs). apply (section_top p pc); [done| |done].
    exact (giving_allocated n Hn p st i pc H Hi).
Qed.

Lemma pool_linearizable_witness :
  ∃ st, schedule ex_choices (Locked_new 2 3) = Some st ∧
    history st = [Ev_acquire (Some 1); Ev_write 1 ex_order; Ev_acquire (Some 0);
                  Ev_release 1; Ev_acquire (Some 1)] ∧
    ∃ p, replay (history st) (Pool_new 2, []) = Some (p, live st) ∧ memory st = p.
Proof.
  destruct (schedule ex_choices (Locked_new 2 3)) as [st|] eqn:E; [|vm_compute in E; discriminate E].
  assert (mu_ st = None ∧
    history st = [Ev_acquire (Some 1); Ev_write 1 ex_order; Ev_acquire (Some 0);
                  Ev_release 1; Ev_acquire (Some 1)]) as [Hmu Hh].
  { vm_compute in E. injection E as <-. split; reflexivity. }
  exists st. split; [done|]. split; [exact Hh|].
  assert (Z.of_nat 2 ≤ 4294967294)%Z as H2 by lia.
  destruct (pool_linearizable 2 3 st H2 (schedule_steps _ _ _ E)) as (p & Hp & Hm & _).
  exists p. split; [exact Hp|]. apply Hm, Hmu.
Defined.

(** No deadlock: in every reachable state, every thread that has called the
    pool can be brought to the end of its call. *)
Theorem pool_call_completes n k st i pc :
  (Z.of_nat n ≤ 4294967294)%Z → rtc locked_step (Locked_new n k) st →
  threads st !! i = Some pc →
  ∃ st', rtc locked_step st st' ∧ threads st' !! i = Some P_out.
Proof.
  intros Hn Hr Hi. destruct (locked_reachable n Hn k st Hr) as [p H].
  assert (∃ p1 st1 pc1, rtc locked_step st st1 ∧ locked_ok n p1 st1 ∧ mu_ st1 = None ∧
    threads st1 !! i = Some pc1) as (p1 & st1 & pc1 & Hr1 & H1 & Hmu1 & Hi1).
  { destruct (mu_ st) as [j|] eqn:Hmu; [|by exists p, st, pc].
    destruct (section_ends n p st j Hn H Hmu) as (p1 & st1 & Hr1 & H1 & Hmu1 & Hts).
    destruct (decide (j = i)) as [->|Hne].
    - exists p1, st1, P_out. split_and!; try done. rewrite Hts.
      apply list_lookup_insert_eq. by eapply lookup_lt_Some.
    - exists p1, st1, pc. split_and!; try done. by rewrite Hts, list_lookup_insert_ne. }
  destruct (in_section pc1) eqn:Hin1.
  { pose proof (lo_mutex _ _ _ H1 i pc1 Hi1 Hin1). congruence. }
  destruct (locked pc1) as [pc2|] eqn:Hk; [|destruct pc1; try done; by exists st1].
  destruct st1 as [m mu ts l hist]; simpl in *. subst mu.
  pose proof (locked_lock n p1 m ts l hist i pc1 pc2 Hi1 Hk H1) as H2.
  destruct (section_ends n p1 _ i Hn H2 eq_refl) as (p3 & st3 & Hr3 & _ & _ & Hts).
  exists st3. split.
  - etrans; [exact Hr1|]. eapply rtc_l; [by eapply ls_lock|exact Hr3].
  - rewrite Hts. simpl. rewrite list_insert_insert_eq.
    apply list_lookup_insert_eq. by eapply lookup_lt_Some.
Qed.
