(* ===== verification/PriceLevel.v ===== *)
(** * Intrusive price levels (include/ordbk/orderbook/orderbook.hpp, [PriceLevel])

    A doubly-linked FIFO whose links are members of the orders themselves.
    The operations are written over the order store exactly as the source
    writes them; [level_rep h lv xs] says that in store [h] the level [lv] is
    a well-formed list of the pointers [xs], oldest first, and each operation
    is shown to implement the corresponding operation on [xs]. *)

From S2P Require Import Prelude Types Heap.

Record PriceLevel := mkLevel {
  lhead : option ptr;
  ltail : option ptr }.

Definition Level_new : PriceLevel := mkLevel None None.

Definition empty (lv : PriceLevel) : bool := bool_decide (lhead lv = None).
Definition front (lv : PriceLevel) : option ptr := lhead lv.

Definition push_back (x : ptr) (lv : PriceLevel) (h : heap) : res (PriceLevel * heap) :=
  let* h1 := hupd (set_prev (ltail lv)) x h in
  let* h2 := hupd (set_next None) x h1 in
  match ltail lv with
  | Some t =>
      let* h3 := hupd (set_next (Some x)) t h2 in
      Some (mkLevel (lhead lv) (Some x), h3)
  | None => Some (mkLevel (Some x) (Some x), h2)
  end.

(** [o->level_prev = o->level_next = nullptr;] *)
Definition unlink (x : ptr) (h : heap) : res heap :=
  hupd (λ o, set_prev None (set_next None o)) x h.

Definition pop_front (lv : PriceLevel) (h : heap) : res (PriceLevel * heap) :=
  let* x := lhead lv in
  let* o := h !! x in
  let hd := level_next o in
  let* (lv', h1) :=
    match hd with
    | Some y => let* h1 := hupd (set_prev None) y h in Some (mkLevel hd (ltail lv), h1)
    | None => Some (mkLevel hd None, h)
    end in
  let* h2 := unlink x h1 in
  Some (lv', h2).

Definition erase (x : ptr) (lv : PriceLevel) (h : heap) : res (PriceLevel * heap) :=
  let* o := h !! x in
  let* (hd, h1) :=
    match level_prev o with
    | Some y => let* h1 := hupd (set_next (level_next o)) y h in Some (lhead lv, h1)
    | None => Some (level_next o, h)
    end in
  let* o1 := h1 !! x in
  let* (tl, h2) :=
    match level_next o1 with
    | Some y => let* h2 := hupd (set_prev (level_prev o1)) y h1 in Some (ltail lv, h2)
    | None => Some (level_prev o1, h1)
    end in
  let* h3 := unlink x h2 in
  Some (mkLevel hd tl, h3).

(** [for (Order* o : list) body]: [iterator::operator++] reads the current
    order's [level_next] after the body has run.  The body says whether the
    loop goes on ([false]: it left the loop by [return] or [break]).  A level
    holds fewer orders than the store, so one more step than the store's size
    is enough fuel for every well-formed level. *)
Fixpoint iter_level {S} `{HasHeap S} (body : ptr → S → res (S * bool))
    (fuel : nat) (cur : option ptr) (s : S) : res (S * bool) :=
  match cur, fuel with
  | None, _ => Some (s, true)
  | Some _, 0 => None
  | Some x, Datatypes.S fuel' =>
      let* (s', go) := body x s in
      if go : bool then
        let* o := get_heap s' !! x in
        iter_level body fuel' (level_next o) s'
      else Some (s', false)
  end.

Definition for_level {S} `{HasHeap S} (body : ptr → S → res (S * bool))
    (lv : PriceLevel) (s : S) : res (S * bool) :=
  iter_level body (Datatypes.S (length (get_heap s))) (lhead lv) s.

(** ** Representation *)

Definition links (o : Order) : option ptr * option ptr := (level_prev o, level_next o).

Definition first (xs : list ptr) (d : option ptr) : option ptr :=
  match xs with [] => d | x :: _ => Some x end.
Definition final (xs : list ptr) (d : option ptr) : option ptr :=
  match last xs with Some x => Some x | None => d end.

(** A doubly-linked segment [xs] between [prev] and [next]. *)
Fixpoint dll (h : heap) (prev : option ptr) (xs : list ptr) (next : option ptr) : Prop :=
  match xs with
  | [] => True
  | x :: xs' =>
      (∃ o, h !! x = Some o ∧ level_prev o = prev ∧ level_next o = first xs' next) ∧
      dll h (Some x) xs' next
  end.

Definition level_rep (h : heap) (lv : PriceLevel) (xs : list ptr) : Prop :=
  lhead lv = first xs None ∧ ltail lv = final xs None ∧ NoDup xs ∧ dll h None xs None.

(** The reference loop over the pointers of a level. *)
Fixpoint loop_list {S} (body : ptr → S → res (S * bool)) (xs : list ptr) (s : S)
    : res (S * bool) :=
  match xs with
  | [] => Some (s, true)
  | x :: xs' =>
      let* (s', go) := body x s in
      if go : bool then loop_list body xs' s' else Some (s', false)
  end.

(** ** Segments *)

Lemma final_snoc xs x d : final (xs ++ [x]) d = Some x.
Proof. unfold final. by rewrite last_snoc. Qed.

Lemma final_app_cons xs x ys d : final (xs ++ x :: ys) d = final (x :: ys) d.
Proof. unfold final. rewrite last_app_cons. by destruct (last (x :: ys)). Qed.

Lemma first_app xs ys d : first (xs ++ ys) d = first xs (first ys d).
Proof. by destruct xs. Qed.

Lemma final_nonempty xs d d' : xs ≠ [] → final xs d = final xs d'.
Proof. unfold final. destruct (last xs) eqn:E; [done|]. by apply last_None in E. Qed.

Lemma dll_app h p xs ys n :
  dll h p (xs ++ ys) n ↔ dll h p xs (first ys n) ∧ dll h (final xs p) ys n.
Proof.
  revert p. induction xs as [|x xs IH]; intros p; simpl; [tauto|].
  rewrite IH, first_app.
  replace (final (x :: xs) p) with (final xs (Some x)); [tauto|].
  unfold final. simpl. by destruct xs; simpl; [|rewrite last_cons; destruct (last xs)].
Qed.

Lemma dll_lookup h p xs n x : dll h p xs n → x ∈ xs → is_Some (h !! x).
Proof.
  revert p. induction xs as [|y xs IH]; intros p; simpl; [set_solver|].
  intros [(o & Ho & _) Hd] [->|Hx]%elem_of_cons; eauto.
Qed.

(** A segment depends on the links of its orders only. *)
Lemma dll_links_frame h h' p xs n :
  (∀ x, x ∈ xs → links <$> h' !! x = links <$> h !! x) → dll h p xs n → dll h' p xs n.
Proof.
  revert p. induction xs as [|y xs IH]; intros p Hf; simpl; [done|].
  intros [(o & Ho & Hp & Hn) Hd]. split; [|apply IH; [set_solver|done]].
  specialize (Hf y ltac:(set_solver)). rewrite Ho in Hf.
  destruct (h' !! y) as [o'|]; [|done]. exists o'. unfold links in Hf. simpl in Hf.
  injection Hf as -> ->. done.
Qed.

Lemma dll_frame h h' p xs n :
  (∀ x, x ∈ xs → h' !! x = h !! x) → dll h p xs n → dll h' p xs n.
Proof. intros Hf. apply dll_links_frame. intros x Hx. by rewrite Hf. Qed.

Lemma dll_upd_notin h p xs n x o : x ∉ xs → dll h p xs n → dll (<[x := o]> h) p xs n.
Proof.
  intros Hx. apply dll_frame. intros y Hy. apply list_lookup_insert_ne. set_solver.
Qed.

(** An update that keeps the links keeps every segment. *)
Lemma dll_upd_links h p xs n x o o' :
  h !! x = Some o → level_prev o' = level_prev o → level_next o' = level_next o →
  dll h p xs n → dll (<[x := o']> h) p xs n.
Proof.
  intros Hx Hp Hn. revert p. induction xs as [|y xs IH]; intros p; simpl; [done|].
  intros [(oy & Hy & ? & ?) Hd]. split; [|auto].
  rewrite lookup_upd by eauto. case_decide; [|eauto].
  simplify_eq. eexists. split; [done|]. split; congruence.
Qed.

(** Redirecting the two ends of a segment. *)
Lemma dll_set_next_last h p xs y n n' :
  y ∉ xs → dll h p (xs ++ [y]) n →
  ∃ h', hupd (set_next n') y h = Some h' ∧ dll h' p (xs ++ [y]) n'.
Proof.
  intros Hy [H1 [(o & Ho & Hp & _) _]]%dll_app.
  rewrite (hupd_some _ _ _ _ Ho). eexists. split; [done|].
  apply dll_app. split; [by apply dll_upd_notin|]. split; [|done].
  eexists. split; [by apply lookup_upd_eq; eauto|]. done.
Qed.

Lemma dll_set_prev_first h p p' y xs n :
  y ∉ xs → dll h p (y :: xs) n →
  ∃ h', hupd (set_prev p') y h = Some h' ∧ dll h' p' (y :: xs) n.
Proof.
  intros Hy [(o & Ho & _ & Hn) H1].
  rewrite (hupd_some _ _ _ _ Ho). eexists. split; [done|].
  split; [|by apply dll_upd_notin].
  eexists. split; [by apply lookup_upd_eq; eauto|]. done.
Qed.

(** ** Link-only updates

    [links_only xs h h']: the two stores differ at most in the links of the
    orders [xs]. *)

Definition links_only (xs : list ptr) (h h' : heap) : Prop :=
  hdata h' = hdata h ∧ ∀ y, y ∉ xs → h' !! y = h !! y.

Lemma links_only_refl xs h : links_only xs h h.
Proof. done. Qed.

Lemma links_only_trans xs h1 h2 h3 :
  links_only xs h1 h2 → links_only xs h2 h3 → links_only xs h1 h3.
Proof.
  intros [D1 F1] [D2 F2]. split; [congruence|]. intros y Hy. by rewrite F2, F1.
Qed.

Lemma links_only_hupd f x xs h h' :
  x ∈ xs → (∀ o, data (f o) = data o) → hupd f x h = Some h' → links_only xs h h'.
Proof.
  unfold hupd. intros Hx Hf E. destruct (h !! x) as [o|] eqn:Ho; simplify_eq.
  split; [by apply (hdata_upd _ o)|].
  intros y Hy. apply list_lookup_insert_ne. set_solver.
Qed.

Lemma links_only_valid xs h h' x : links_only xs h h' → is_Some (h !! x) → is_Some (h' !! x).
Proof.
  intros [D _] [o Ho]. destruct (hdata_lookup_some h h' x o) as (o' & ? & _); eauto.
Qed.

Lemma links_only_level xs h h' lv ys :
  links_only xs h h' → (∀ y, y ∈ ys → y ∉ xs) → level_rep h lv ys → level_rep h' lv ys.
Proof.
  intros [_ F] Hd (? & ? & ? & ?). split_and!; try done.
  eapply dll_frame; [|done]. intros y Hy. apply F, Hd, Hy.
Qed.

#[export] Hint Resolve links_only_refl : ordbk.

(** Closes a [links_only] goal with one update [E] of links. *)
Ltac links_by E :=
  eapply links_only_hupd; [| |exact E]; [set_solver|by intros []].

(** ** The operations implement a FIFO with removal *)

Lemma push_back_spec x lv h xs :
  level_rep h lv xs → x ∉ xs → is_Some (h !! x) →
  ∃ lv' h', push_back x lv h = Some (lv', h') ∧
    level_rep h' lv' (xs ++ [x]) ∧ links_only (xs ++ [x]) h h'.
Proof.
  intros (Hh & Ht & Hnd & Hd) Hx [o Ho]. unfold push_back.
  rewrite (hupd_some _ _ _ _ Ho), Ht.
  set (o1 := set_prev (final xs None) o).
  rewrite (hupd_some _ _ _ o1) by (apply lookup_upd_eq; eauto). rewrite list_insert_insert_eq.
  assert (links_only (xs ++ [x]) h (<[x := set_next None o1]> h)) as L1.
  { eapply (links_only_hupd (λ o, set_next None (set_prev (final xs None) o)) x);
      [set_solver|by intros []|by rewrite (hupd_some _ _ _ _ Ho)]. }
  assert (<[x:=set_next None o1]> h !! x = Some (set_next None o1)) as Hx1
    by (apply lookup_upd_eq; eauto).
  destruct xs as [|t xs' _] using rev_ind; simpl.
  - eexists _, _. split; [done|]. split; [|done].
    split_and!; try done; [apply NoDup_singleton|]. simpl. split; [|done]. eauto.
  - rewrite final_snoc in *. apply not_elem_of_app in Hx as [Hx' Hxt].
    apply NoDup_snoc in Hnd as Hnd'. destruct Hnd' as [Hnd1 Htn].
    destruct (dll_set_next_last (<[x:=set_next None o1]> h) None xs' t None (Some x))
      as (h' & E & Hd'); [done|by apply dll_upd_notin; [set_solver|]|].
    rewrite E. eexists _, _. split; [done|]. split.
    + split_and!; simpl.
      * rewrite Hh, !first_app. by destruct xs'.
      * by rewrite final_snoc.
      * apply NoDup_snoc. split; [done|set_solver].
      * apply dll_app. split; [done|]. rewrite final_snoc. split; [|done].
        exists (set_next None o1).
        split_and!; [|by unfold o1; simpl; rewrite final_snoc|done].
        unfold hupd in E. destruct (_ !! t) as [ot|] eqn:Et; simplify_eq.
        rewrite list_lookup_insert_ne; [done|set_solver].
    + eapply links_only_trans; [exact L1|].
      links_by E.
Qed.

Lemma unlink_links x xs h :
  x ∈ xs → is_Some (h !! x) →
  ∃ h', unlink x h = Some h' ∧ links_only xs h h' ∧ (∀ y, y ≠ x → h' !! y = h !! y) ∧
    ∃ o, h' !! x = Some o ∧ level_prev o = None ∧ level_next o = None.
Proof.
  intros Hx [o Ho]. pose proof (hupd_some (λ o, set_prev None (set_next None o)) _ _ _ Ho) as E.
  unfold unlink. rewrite E. eexists. split; [done|]. split; [links_by E|split].
  - intros y Hy. by apply list_lookup_insert_ne.
  - eexists. split; [apply lookup_upd_eq; eauto|done].
Qed.

Lemma dll_same_except h h' x p xs n :
  (∀ y, y ≠ x → h' !! y = h !! y) → x ∉ xs → dll h p xs n → dll h' p xs n.
Proof. intros F Hx. apply dll_frame. intros y Hy. apply F. set_solver. Qed.

Lemma hupd_ne f y h h1 : hupd f y h = Some h1 → ∀ z, z ≠ y → h1 !! z = h !! z.
Proof.
  unfold hupd. intros E z Hz. destruct (h !! y); [|done]. injection E as <-.
  by apply list_lookup_insert_ne.
Qed.

(** [erase]: the predecessor's link, or the head. *)
Lemma erase_prev h hd o l1 x l2 :
  hd = first (l1 ++ x :: l2) None → NoDup (l1 ++ x :: l2) → h !! x = Some o →
  dll h None l1 (Some x) → dll h (Some x) l2 None →
  ∃ h1, (match final l1 None with
     | Some y => let* h1 := hupd (set_next (first l2 None)) y h in Some (hd, h1)
     | None => Some (first l2 None, h) end) = Some (first (l1 ++ l2) None, h1) ∧
    dll h1 None l1 (first l2 None) ∧ dll h1 (Some x) l2 None ∧ h1 !! x = Some o ∧
    links_only (l1 ++ x :: l2) h h1.
Proof.
  intros -> (Hnd1 & Hdis & [Hx2 Hnd2]%NoDup_cons)%NoDup_app Ho Hd1 Hd2.
  destruct l1 as [|y l1' _] using rev_ind; simpl; [by eauto 10 with ordbk|].
  assert (x ∉ l1' ++ [y]) as Hx1 by (intros ?; eapply Hdis; set_solver).
  rewrite final_snoc. apply NoDup_snoc in Hnd1 as [? ?].
  destruct (dll_set_next_last h None l1' y (Some x) (first l2 None)) as (h1 & E & Hd'); [done..|].
  rewrite E. pose proof (hupd_ne _ _ _ _ E) as F.
  exists h1. rewrite !first_app. split_and!; [by destruct l1'|done| | |].
  - eapply dll_same_except; [exact F| |done]. intros ?. eapply (Hdis y); set_solver.
  - rewrite F; [done|set_solver].
  - links_by E.
Qed.

(** [erase]: the successor's link, or the tail. *)
Lemma erase_next h tl o l1 x l2 :
  tl = final (l1 ++ x :: l2) None → NoDup (l1 ++ x :: l2) → h !! x = Some o →
  dll h None l1 (first l2 None) → dll h (Some x) l2 None →
  ∃ h2, (match first l2 None with
     | Some y => let* h2 := hupd (set_prev (final l1 None)) y h in Some (tl, h2)
     | None => Some (final l1 None, h) end) = Some (final (l1 ++ l2) None, h2) ∧
    dll h2 None (l1 ++ l2) None ∧ is_Some (h2 !! x) ∧ links_only (l1 ++ x :: l2) h h2.
Proof.
  intros -> (Hnd1 & Hdis & [Hx2 Hnd2]%NoDup_cons)%NoDup_app Ho Hd1 Hd2.
  destruct l2 as [|y l2']; simpl.
  - rewrite app_nil_r. exists h. eauto 10 with ordbk.
  - apply NoDup_cons in Hnd2 as [? ?].
    destruct (dll_set_prev_first h (Some x) (final l1 None) y l2' None) as (h2 & E & Hd'); [done..|].
    rewrite E. pose proof (hupd_ne _ _ _ _ E) as F. exists h2. split_and!.
    + rewrite !final_app_cons. done.
    + apply dll_app. split; [|done].
      eapply dll_same_except; [exact F| |done]. intros ?. eapply (Hdis y); set_solver.
    + rewrite F; [eauto|set_solver].
    + links_by E.
Qed.

Lemma erase_spec x lv h l1 l2 :
  level_rep h lv (l1 ++ x :: l2) →
  ∃ lv' h', erase x lv h = Some (lv', h') ∧
    level_rep h' lv' (l1 ++ l2) ∧ links_only (l1 ++ x :: l2) h h'.
Proof.
  intros (Hh & Ht & Hnd & Hd).
  apply dll_app in Hd as [Hd1 [(o & Ho & Hp & Hn) Hd2]]. simpl in Hd1.
  destruct (erase_prev h (lhead lv) o l1 x l2 Hh Hnd Ho Hd1 Hd2) as (h1 & E1 & Hd1' & Hd2' & Ho1 & L1).
  destruct (erase_next h1 (ltail lv) o l1 x l2 Ht Hnd Ho1 Hd1' Hd2') as (h2 & E2 & Hd3 & Ho2 & L2).
  destruct (unlink_links x (l1 ++ x :: l2) h2) as (h3 & E3 & L3 & F3 & _); [set_solver|done|].
  unfold erase. rewrite Ho, Hp, Hn, E1, Ho1, Hp, Hn, E2, E3. eexists _, _. split; [done|].
  apply NoDup_app in Hnd as (Hnd1 & Hdis & [Hx2 Hnd2]%NoDup_cons). split.
  - split_and!; try done.
    + apply NoDup_app. split_and!; [done| |done]. set_solver.
    + eapply dll_same_except; [exact F3| |done]. set_solver.
  - eapply links_only_trans; [exact L1|]. eapply links_only_trans; [exact L2|exact L3].
Qed.

Lemma pop_front_spec x xs lv h :
  level_rep h lv (x :: xs) →
  ∃ lv' h', pop_front lv h = Some (lv', h') ∧
    level_rep h' lv' xs ∧ links_only (x :: xs) h h'.
Proof.
  intros (Hh & Ht & [Hx Hnd]%NoDup_cons & [(o & Ho & Hp & Hn) Hd]).
  unfold pop_front. simpl in Hh. rewrite Hh, Ho, Hn.
  assert (∃ h1, (match first xs None with
     | Some y => let* h1 := hupd (set_prev None) y h in Some (mkLevel (first xs None) (ltail lv), h1)
     | None => Some (mkLevel (first xs None) None, h) end)
       = Some (mkLevel (first xs None) (final xs None), h1) ∧
     dll h1 None xs None ∧ is_Some (h1 !! x) ∧ links_only (x :: xs) h h1)
    as (h1 & E1 & Hd1 & Ho1 & L1).
  { destruct xs as [|y xs']; simpl; [by eauto 10 with ordbk|].
    apply NoDup_cons in Hnd as [? ?].
    destruct (dll_set_prev_first h (Some x) None y xs' None) as (h1 & E & Hd'); [done..|].
    rewrite E. exists h1. split_and!; try apply Hd'.
    - rewrite Ht. done.
    - unfold hupd in E. destruct (h !! y); simplify_eq.
      rewrite list_lookup_insert_ne; [eauto|set_solver].
    - links_by E. }
  rewrite E1. destruct (unlink_links x (x :: xs) h1) as (h2 & E2 & L2 & F2 & _); [set_solver|done|].
  rewrite E2. eexists _, _. split; [done|]. split; [|by eapply links_only_trans].
  split_and!; try done. by eapply dll_same_except.
Qed.

Lemma empty_spec h lv xs : level_rep h lv xs → empty lv = bool_decide (xs = []).
Proof.
  intros (Hh & _). unfold empty. rewrite Hh. apply bool_decide_ext. by destruct xs.
Qed.

Lemma front_spec h lv xs : level_rep h lv xs → front lv = first xs None.
Proof. by intros (Hh & _). Qed.

Lemma level_new_rep h : level_rep h Level_new [].
Proof. split_and!; try done. apply NoDup_nil_2. Qed.

Lemma level_rep_lookup h lv xs x : level_rep h lv xs → x ∈ xs → is_Some (h !! x).
Proof. intros (_ & _ & _ & Hd). by eapply dll_lookup. Qed.

Lemma level_rep_length h lv xs : level_rep h lv xs → length xs ≤ length h.
Proof.
  intros Hr. apply NoDup_bound; [apply Hr|].
  intros x Hx. eapply lookup_lt_is_Some, level_rep_lookup; eauto.
Qed.

(** An update of an order that keeps its links keeps every level. *)
Lemma level_rep_upd h lv xs x o o' :
  h !! x = Some o → level_prev o' = level_prev o → level_next o' = level_next o →
  level_rep h lv xs → level_rep (<[x := o']> h) lv xs.
Proof. intros ? ? ? (? & ? & ? & ?). split_and!; try done. by eapply dll_upd_links. Qed.

(** ** Walking a level *)

Section iteration.
Context {S : Type} `{HasHeap S} (body : ptr → S → res (S * bool)).

(** A loop whose body leaves the store alone visits the orders of the level,
    oldest first, and ends. *)
Lemma iter_level_list xs p s fuel :
  dll (get_heap s) p xs None → length xs ≤ fuel →
  (∀ x s s' go, body x s = Some (s', go) → get_heap s' = get_heap s) →
  iter_level body fuel (first xs None) s = loop_list body xs s.
Proof.
  intros Hd Hf Hb. revert p s fuel Hd Hf.
  induction xs as [|x xs IH]; intros p s fuel Hd Hf; simpl; [by destruct fuel|].
  destruct fuel as [|fuel]; simpl in Hf; [lia|]. simpl.
  destruct (body x s) as [[s' []]|] eqn:E; [|done..].
  destruct Hd as [(o & Ho & _ & Hn) Hd].
  pose proof (Hb _ _ _ _ E) as Hh. rewrite Hh, Ho, Hn.
  apply (IH (Some x)); [by rewrite Hh|lia].
Qed.

Lemma for_level_list lv xs s :
  level_rep (get_heap s) lv xs →
  (∀ x s s' go, body x s = Some (s', go) → get_heap s' = get_heap s) →
  for_level body lv s = loop_list body xs s.
Proof.
  intros Hr Hb. pose proof (level_rep_length _ _ _ Hr). destruct Hr as (Hh & _ & _ & Hd).
  unfold for_level. rewrite Hh. eapply iter_level_list; [done|lia|done].
Qed.

(** A loop whose body unlinks the current order stops after the first one. *)
Lemma for_level_unlinked lv x xs s s' :
  level_rep (get_heap s) lv (x :: xs) → body x s = Some (s', true) →
  (∃ o, get_heap s' !! x = Some o ∧ level_next o = None) →
  for_level body lv s = Some (s', true).
Proof.
  intros (Hh & _ & _ & _) E (o & Ho & Hn). unfold for_level. simpl in *. rewrite Hh.
  simpl. rewrite E, Ho, Hn. by destruct (length _).
Qed.
End iteration.

(** ** A level is a FIFO queue *)

Inductive level_op := op_push (x : ptr) | op_pop | op_erase (x : ptr).

Definition level_exec (op : level_op) (s : PriceLevel * heap) : res (PriceLevel * heap) :=
  match op with
  | op_push x => push_back x s.1 s.2
  | op_pop => pop_front s.1 s.2
  | op_erase x => erase x s.1 s.2
  end.

(** When the code may call each operation, and what it does to the queue. *)
Definition level_pre (h : heap) (op : level_op) (xs : list ptr) : Prop :=
  match op with
  | op_push x => (x ∉ xs) ∧ x < length h
  | op_pop => xs ≠ []
  | op_erase x => x ∈ xs
  end.
Definition level_post (op : level_op) (xs : list ptr) : list ptr :=
  match op with
  | op_push x => xs ++ [x]
  | op_pop => tail xs
  | op_erase x => filter (λ y, y ≠ x) xs
  end.

Fixpoint level_execs (ops : list level_op) (s : PriceLevel * heap) : res (PriceLevel * heap) :=
  match ops with
  | [] => Some s
  | op :: ops' => let* s' := level_exec op s in level_execs ops' s'
  end.
Fixpoint level_pres (h : heap) (ops : list level_op) (xs : list ptr) : Prop :=
  match ops with
  | [] => True
  | op :: ops' => level_pre h op xs ∧ level_pres h ops' (level_post op xs)
  end.

Lemma links_only_hdata xs h h' : links_only xs h h' → hdata h' = hdata h.
Proof. intros L. apply L. Qed.

Lemma level_exec_spec op lv h xs :
  level_rep h lv xs → level_pre h op xs →
  ∃ lv' h', level_exec op (lv, h) = Some (lv', h') ∧
    level_rep h' lv' (level_post op xs) ∧ hdata h' = hdata h.
Proof.
  intros Hr Hp. destruct op as [x| |x]; simpl in *.
  - destruct Hp as [Hx Hl]. apply lookup_lt_is_Some in Hl.
    destruct (push_back_spec x lv h xs Hr Hx Hl) as (lv' & h' & ? & ? & L).
    exists lv', h'. eauto using links_only_hdata.
  - destruct xs as [|x xs]; [done|].
    destruct (pop_front_spec x xs lv h Hr) as (lv' & h' & ? & ? & L).
    exists lv', h'. eauto using links_only_hdata.
  - apply list_elem_of_split in Hp as (l1 & l2 & ->).
    destruct (erase_spec x lv h l1 l2 Hr) as (lv' & h' & ? & ? & L).
    exists lv', h'. split_and!; [done| |by eapply links_only_hdata].
    destruct Hr as (_ & _ & (_ & Hd & [Hx2 _]%NoDup_cons)%NoDup_app & _).
    assert (x ∉ l1) as Hx1 by (intros ?; eapply Hd; [done|left]).
    rewrite filter_app, filter_cons_False by tauto.
    rewrite !filter_all; [done|..]; set_solver.
Qed.

Lemma level_pres_length h h' ops xs :
  level_pres h ops xs → length h = length h' → level_pres h' ops xs.
Proof.
  intros Hp Hl. revert xs Hp.
  induction ops as [|[x| |x] ops IH]; intros xs; simpl; rewrite ?Hl; naive_solver.
Qed.

(** C15: a price level is a FIFO queue with removal: from a well-formed level,
    any sequence of [push_back] of orders not in it, [pop_front] when it is not
    empty and [erase] of orders in it is defined, ends in a well-formed level
    that holds exactly what the queue holds, oldest first ([front] is the
    oldest), and changes nothing of any order but its links. *)
Theorem level_fifo ops lv h xs :
  level_rep h lv xs → level_pres h ops xs →
  ∃ lv' h', level_execs ops (lv, h) = Some (lv', h') ∧
    level_rep h' lv' (foldl (flip level_post) xs ops) ∧
    front lv' = head (foldl (flip level_post) xs ops) ∧ hdata h' = hdata h.
Proof.
  revert lv h xs. induction ops as [|op ops IH]; intros lv h xs Hr Hp; simpl in *.
  { exists lv, h. split_and!; try done. rewrite (front_spec _ _ _ Hr). by destruct xs. }
  destruct Hp as [Hp Hps]. destruct (level_exec_spec op lv h xs Hr Hp) as (lv1 & h1 & -> & Hr1 & E1).
  destruct (IH lv1 h1 (level_post op xs) Hr1) as (lv' & h' & E & Hr' & Hf & Hd).
  { by apply (level_pres_length h), eq_sym, hdata_length. }
  exists lv', h'. split_and!; try done. congruence.
Qed.

(** Push 0, 1, 2, remove 1, pop. *)
Lemma level_fifo_witness :
  ∃ lv' h', level_execs [op_push 0; op_push 1; op_push 2; op_erase 1; op_pop]
              (Level_new, replicate 3 Order_init) = Some (lv', h') ∧
    level_rep h' lv' [2] ∧ front lv' = Some 2 ∧ hdata h' = hdata (replicate 3 Order_init).
Proof.
  apply (level_fifo [op_push 0; op_push 1; op_push 2; op_erase 1; op_pop]
           Level_new (replicate 3 Order_init) []); [apply level_new_rep|].
  simpl. split_and!; try done; try lia; set_solver.
Defined.
