(* ===== verification/OrderBook.v ===== *)
(** * The order book (include/ordbk/orderbook/orderbook.hpp,
    src/orderbook/orderbook.cpp)

    A book keeps one ordered map of price levels per side (bids by
    [std::greater], asks by [std::less]) and an index from order id to the
    order's place.  Where the source repeats the same statements for [bids_]
    and [asks_], the operation is written once over the side. *)

From S2P Require Import Prelude StdMap Types Heap PriceLevel.

Record Locator := mkLocator {
  loc_side : Side;
  loc_price : Price;
  loc_order : ptr }.

Record OrderBook := mkBook {
  instrument_ : InstrumentId;
  bids_ : list (Price * PriceLevel);
  asks_ : list (Price * PriceLevel);
  order_map_ : gmap Z Locator }.

Definition Book_new (id : InstrumentId) : OrderBook := mkBook id [] [] ∅.

(** The comparator and the levels of a side. *)
Definition cmp (buy : bool) : Price → Price → bool := if buy then Z.gtb else Z.ltb.
Definition levels (buy : bool) (b : OrderBook) : list (Price * PriceLevel) :=
  if buy then bids_ b else asks_ b.
Definition set_levels (buy : bool) (ls : list (Price * PriceLevel)) (b : OrderBook) : OrderBook :=
  if buy then mkBook (instrument_ b) ls (asks_ b) (order_map_ b)
  else mkBook (instrument_ b) (bids_ b) ls (order_map_ b).
Definition set_order_map (om : gmap Z Locator) (b : OrderBook) : OrderBook :=
  mkBook (instrument_ b) (bids_ b) (asks_ b) om.

Definition add_resting (x : ptr) (b : OrderBook) (h : heap) : res (OrderBook * heap) :=
  let* o := h !! x in
  let buy := is_buy (side o) in
  let p := limit_price o in
  let lv := default Level_new (map_find (cmp buy) p (levels buy b)) in
  let* (lv', h') := push_back x lv h in
  let b1 := set_levels buy (map_set (cmp buy) p lv' (levels buy b)) b in
  Some (set_order_map
          (umap_emplace (oid o) (mkLocator (if buy then Buy else Sell) p x) (order_map_ b1)) b1,
        h').

Definition cancel_and_get (id : OrderId) (b : OrderBook) (h : heap)
    : res (option ptr * OrderBook * heap) :=
  match order_map_ b !! id with
  | None => Some (None, b, h)
  | Some loc =>
      let b1 := set_order_map (delete id (order_map_ b)) b in
      let buy := is_buy (loc_side loc) in
      let* lv := map_find (cmp buy) (loc_price loc) (levels buy b1) in
      let* (lv', h') := erase (loc_order loc) lv h in
      let ls := map_set (cmp buy) (loc_price loc) lv' (levels buy b1) in
      let ls' := if empty lv' then map_erase (cmp buy) (loc_price loc) ls else ls in
      Some (Some (loc_order loc), set_levels buy ls' b1, h')
  end.

Definition cancel (id : OrderId) (b : OrderBook) (h : heap) : res (bool * OrderBook * heap) :=
  let* (x, b', h') := cancel_and_get id b h in
  Some (bool_decide (x ≠ None), b', h').

Definition find (id : OrderId) (b : OrderBook) : option ptr :=
  loc_order <$> order_map_ b !! id.

Definition best_bid (b : OrderBook) : option Price := fst <$> head (bids_ b).
Definition best_ask (b : OrderBook) : option Price := fst <$> head (asks_ b).

#[export] Instance pair_HasHeap {S A} `{HasHeap S} : HasHeap (S * A).
Proof.
  refine {| get_heap := λ s, get_heap s.1; set_heap := λ h s, (set_heap h s.1, s.2) |}.
  - intros h s. apply get_set_heap.
  - intros [s a]. simpl. by rewrite set_get_heap.
  - intros h h' s. simpl. by rewrite set_set_heap.
Defined.

(** [total += o->remaining()] *)
Definition qty_body (x : ptr) (s : heap * Quantity) : res (heap * Quantity * bool) :=
  let* o := s.1 !! x in
  Some ((s.1, qty_add s.2 (remaining o)), true).

Definition qty_at (buy : bool) (p : Price) (b : OrderBook) (h : heap) : res Quantity :=
  match map_find (cmp buy) p (levels buy b) with
  | None => Some kZeroQty
  | Some lv =>
      let* (s, _) := for_level qty_body lv (h, kZeroQty) in
      Some s.2
  end.
Definition bid_qty_at := qty_at true.
Definition ask_qty_at := qty_at false.

Definition order_count (b : OrderBook) : nat := size (order_map_ b).
Definition book_empty (b : OrderBook) : bool := bool_decide (order_map_ b = ∅).

Definition peek_top (s : Side) (b : OrderBook) : option ptr :=
  match levels (is_buy s) b with
  | [] => None
  | (_, lv) :: _ => front lv
  end.

Definition pop_top (s : Side) (b : OrderBook) (h : heap) : res (OrderBook * heap) :=
  let buy := is_buy s in
  match levels buy b with
  | [] => None
  | (p, lv) :: rest =>
      let* x := front lv in
      let* o := h !! x in
      let b1 := set_order_map (delete (oid o) (order_map_ b)) b in
      let* (lv', h') := pop_front lv h in
      Some (set_levels buy (if empty lv' then rest else (p, lv') :: rest) b1, h')
  end.

Section drain.
Context {S : Type} `{HasHeap S} (callback : ptr → S → res S).

(** The loop body of [clear_and_drain]: null the links, then the callback. *)
Definition drain_body (x : ptr) (s : S) : res (S * bool) :=
  let* h' := unlink x (get_heap s) in
  let* s' := callback x (set_heap h' s) in
  Some (s', true).

Fixpoint drain_levels (ls : list (Price * PriceLevel)) (s : S) : res S :=
  match ls with
  | [] => Some s
  | (_, lv) :: ls' =>
      let* (s', _) := for_level drain_body lv s in
      drain_levels ls' s'
  end.

Definition clear_and_drain (b : OrderBook) (s : S) : res (OrderBook * S) :=
  let* s1 := drain_levels (bids_ b) s in
  let* s2 := drain_levels (asks_ b) s1 in
  Some (mkBook (instrument_ b) [] [] ∅, s2).
End drain.

(** ** Representation

    [GBook] is the ghost state of a book: the pointers resting on each level. *)

Record GBook := mkGBook {
  gbids : list (Price * list ptr);
  gasks : list (Price * list ptr) }.

Definition glevels (buy : bool) (g : GBook) : list (Price * list ptr) :=
  if buy then gbids g else gasks g.
Definition set_glevels (buy : bool) (l : list (Price * list ptr)) (g : GBook) : GBook :=
  if buy then mkGBook l (gasks g) else mkGBook (gbids g) l.
Definition resting (g : GBook) : list ptr := flat (gbids g) ++ flat (gasks g).

(** What a resting order looks like: it belongs to the book's instrument, it
    has an open quantity, and its status agrees with what has been filled. *)
Definition resting_ok (inst : InstrumentId) (o : Order) : Prop :=
  oinstrument o = inst ∧ qty_ok o ∧ (filled_qty o < initial_qty o)%Z ∧
  status o = (if (0 <? filled_qty o)%Z then PartiallyFilled else New).

Definition rests_at (h : heap) (buy : bool) (p : Price) (x : ptr) : Prop :=
  ∃ o, h !! x = Some o ∧ limit_price o = p ∧ is_buy (side o) = buy.

Definition side_rep (h : heap) (buy : bool)
    (ls : list (Price * PriceLevel)) (g : list (Price * list ptr)) : Prop :=
  map_rel (λ _, level_rep h) ls g ∧
  map_sorted (cmp buy) g ∧
  NoDup (flat g) ∧
  (∀ p xs, (p, xs) ∈ g → xs ≠ [] ∧ ∀ x, x ∈ xs → rests_at h buy p x).

Definition locator_of (x : ptr) (o : Order) : Locator :=
  mkLocator (if is_buy (side o) then Buy else Sell) (limit_price o) x.

(** Every index entry leads to a resting order of that id. *)
Definition map_ok (h : heap) (b : OrderBook) (g : GBook) : Prop :=
  ∀ id loc, order_map_ b !! id = Some loc →
    ∃ o, loc_order loc ∈ resting g ∧ h !! loc_order loc = Some o ∧ oid o = id ∧
         loc = locator_of (loc_order loc) o.

Definition book_rep (h : heap) (b : OrderBook) (g : GBook) : Prop :=
  (∀ buy, side_rep h buy (levels buy b) (glevels buy g)) ∧ map_ok h b g.

(** Every resting order is well formed. *)
Definition book_data_ok (h : heap) (b : OrderBook) (g : GBook) : Prop :=
  ∀ x o, x ∈ resting g → h !! x = Some o → resting_ok (instrument_ b) o.

(** Every resting order is in the index: the order ids in the book are
    distinct. *)
Definition book_indexed (h : heap) (b : OrderBook) (g : GBook) : Prop :=
  ∀ x o, x ∈ resting g → h !! x = Some o → order_map_ b !! oid o = Some (locator_of x o).

(** No bid is priced at or above an ask. *)
Definition uncrossed (b : OrderBook) : Prop :=
  ∀ pb pa, best_bid b = Some pb → best_ask b = Some pa → (pb < pa)%Z.

(** ** Projections *)

#[export] Instance cmp_total buy : StrictTotal (cmp buy).
Proof. destruct buy; apply _. Qed.

Lemma cmp_spec buy p q : cmp buy p q = true ↔ (if buy then q < p else p < q)%Z.
Proof. destruct buy; simpl; rewrite ?Z.gtb_ltb; apply Z.ltb_lt. Qed.

Lemma levels_set buy buy' ls b :
  levels buy (set_levels buy' ls b) = if Bool.eqb buy buy' then ls else levels buy b.
Proof. by destruct buy, buy'. Qed.

Lemma levels_set_map buy om b : levels buy (set_order_map om b) = levels buy b.
Proof. by destruct buy. Qed.

Lemma glevels_set buy buy' l g :
  glevels buy (set_glevels buy' l g) = if Bool.eqb buy buy' then l else glevels buy g.
Proof. by destruct buy, buy'. Qed.

Lemma instrument_set_levels buy ls b : instrument_ (set_levels buy ls b) = instrument_ b.
Proof. by destruct buy. Qed.

Lemma order_map_set_levels buy ls b : order_map_ (set_levels buy ls b) = order_map_ b.
Proof. by destruct buy. Qed.

Lemma set_levels_map buy ls om b :
  set_levels buy ls (set_order_map om b) = set_order_map om (set_levels buy ls b).
Proof. by destruct buy. Qed.

Lemma elem_of_resting x g : x ∈ resting g ↔ ∃ buy, x ∈ flat (glevels buy g).
Proof.
  unfold resting. rewrite elem_of_app. split.
  - intros [?|?]; [by exists true|by exists false].
  - intros [[] ?]; auto.
Qed.

Lemma elem_of_resting_set buy l x g :
  x ∈ resting (set_glevels buy l g) ↔ x ∈ flat l ∨ x ∈ flat (glevels (negb buy) g).
Proof. destruct buy; unfold resting; simpl; rewrite elem_of_app; tauto. Qed.

Lemma elem_of_resting_split buy x g :
  x ∈ resting g ↔ x ∈ flat (glevels buy g) ∨ x ∈ flat (glevels (negb buy) g).
Proof. destruct buy; unfold resting; simpl; rewrite elem_of_app; tauto. Qed.

#[export] Hint Rewrite levels_set levels_set_map glevels_set instrument_set_levels
  order_map_set_levels : ordbk.

(** ** Properties that do not depend on the links *)

Lemma data_inv o o' :
  data o = data o' →
  oid o = oid o' ∧ limit_price o = limit_price o' ∧ side o = side o' ∧
  oinstrument o = oinstrument o' ∧ initial_qty o = initial_qty o' ∧
  filled_qty o = filled_qty o' ∧ status o = status o' ∧ type o = type o'.
Proof. destruct o, o'. unfold data. simpl. intros [=]. by subst. Qed.

Lemma resting_ok_data inst o o' : data o = data o' → resting_ok inst o → resting_ok inst o'.
Proof.
  intros (_ & _ & _ & Hi & Hq & Hf & Hs & _)%data_inv. unfold resting_ok, qty_ok.
  by rewrite Hi, Hq, Hf, Hs.
Qed.

Lemma locator_of_data x o o' : data o = data o' → locator_of x o = locator_of x o'.
Proof. intros (_ & Hp & Hs & _)%data_inv. unfold locator_of. by rewrite Hp, Hs. Qed.

Lemma rests_at_hdata h h' buy p x :
  hdata h' = hdata h → rests_at h buy p x → rests_at h' buy p x.
Proof.
  intros Hd (o & Ho & Hp & Hs).
  destruct (hdata_lookup_some h h' x o) as (o' & Ho' & E); [done..|].
  exists o'. destruct (data_inv _ _ E) as (_ & ? & Hs' & _). rewrite Hs'.
  split_and!; [done|congruence|done].
Qed.

Lemma map_ok_hdata h h' b g : hdata h' = hdata h → map_ok h b g → map_ok h' b g.
Proof.
  intros Hd H id loc Hloc. destruct (H id loc Hloc) as (o & Hr & Ho & <- & Hl).
  destruct (hdata_lookup_some h h' (loc_order loc) o) as (o' & Ho' & E); [done..|].
  exists o'. split_and!; [done|done|by apply data_inv in E as (? & _)|].
  by rewrite Hl at 1; apply locator_of_data.
Qed.

Lemma book_indexed_hdata h h' b g :
  hdata h' = hdata h → book_indexed h b g → book_indexed h' b g.
Proof.
  intros Hd H x o Hx Ho. destruct (hdata_lookup_some h' h x o) as (o' & Ho' & E); [done..|].
  rewrite <- (locator_of_data x o' o) by done.
  destruct (data_inv _ _ E) as (<- & _). by apply H.
Qed.

(** ** Frames *)

Lemma side_rep_lookup h buy ls g x :
  side_rep h buy ls g → x ∈ flat g → ∃ p, rests_at h buy p x.
Proof.
  intros (_ & _ & _ & Hr) (p & xs & Hp & Hx)%elem_of_flat. exists p. by eapply Hr.
Qed.

Lemma side_rep_frame h h' buy ls g :
  (∀ x, x ∈ flat g → h' !! x = h !! x) → side_rep h buy ls g → side_rep h' buy ls g.
Proof.
  intros F (Hm & Hs & Hnd & Hr). split_and!; try done.
  - apply (map_rel_weaken (λ _, level_rep h)); [|exact Hm]. simpl. intros q lv xs Hq (? & ? & ? & ?).
    split_and!; try done. eapply dll_frame; [|done]. intros x Hx. apply F, elem_of_flat. eauto.
  - intros p xs Hp. split; [by eapply Hr|]. intros x Hx.
    destruct (Hr p xs Hp) as [_ H']. destruct (H' x Hx) as (o & Ho & ?).
    exists o. rewrite F; [done|]. apply elem_of_flat. eauto.
Qed.

Lemma book_rep_lookup h b g x :
  book_rep h b g → x ∈ resting g → is_Some (h !! x).
Proof.
  intros [Hs _] [buy Hx]%elem_of_resting.
  destruct (side_rep_lookup _ _ _ _ _ (Hs buy) Hx) as (p & o & ? & _). eauto.
Qed.

(** A pointer rests on one side only. *)
Lemma side_disjoint h b g buy x :
  book_rep h b g → x ∈ flat (glevels buy g) → x ∉ flat (glevels (negb buy) g).
Proof.
  intros [Hs _] H1 H2.
  destruct (side_rep_lookup _ _ _ _ _ (Hs buy) H1) as (p1 & o1 & Ho1 & _ & Hb1).
  destruct (side_rep_lookup _ _ _ _ _ (Hs (negb buy)) H2) as (p2 & o2 & Ho2 & _ & Hb2).
  assert (o1 = o2) as -> by congruence. rewrite Hb1 in Hb2. by destruct buy.
Qed.

Lemma book_rep_NoDup h b g : book_rep h b g → NoDup (resting g).
Proof.
  intros H. destruct (H) as [Hs _]. apply NoDup_app. split_and!.
  - apply (Hs true).
  - intros x Hx. by apply (side_disjoint h b g true).
  - apply (Hs false).
Qed.

(** ** Replacing one level of a side *)

Lemma side_rep_put h h' buy ls g p lv' xs' ys :
  side_rep h buy ls g → links_only ys h h' →
  (∀ q zs z, (q, zs) ∈ g → q ≠ p → z ∈ zs → z ∉ ys) →
  level_rep h' lv' xs' → (∀ x, x ∈ xs' → rests_at h' buy p x) →
  NoDup (flat (map_put (cmp buy) p xs' g)) →
  side_rep h' buy
    (if empty lv' then map_erase (cmp buy) p ls else map_set (cmp buy) p lv' ls)
    (map_put (cmp buy) p xs' g).
Proof.
  intros (Hm & Hs & Hnd & Hr) L Hout Hlv Hx' Hnd'.
  assert (map_rel (λ q lv xs, q ≠ p → level_rep h' lv xs) ls g) as Hm'.
  { apply (map_rel_weaken (λ _, level_rep h)); [|exact Hm]. simpl. intros q lv xs Hq Hlx Hne.
    eapply links_only_level; [done| |done]. intros y Hy. by eapply Hout. }
  split_and!.
  - rewrite (empty_spec _ _ _ Hlv). unfold map_put.
    destruct xs' as [|x xs'];
      [by apply (map_rel_erase _ (λ _, level_rep h'))|by apply (map_rel_set _ (λ _, level_rep h'))].
  - by apply (map_put_sorted (cmp buy)).
  - done.
  - intros q zs. rewrite (elem_of_map_put (cmp buy)) by done. intros [(-> & -> & ?)|[Hq Hz]]; [done|].
    destruct (Hr q zs Hz) as [? H']. split; [done|]. intros z Hz'.
    eapply rests_at_hdata; [apply L|]. by apply H'.
Qed.

(** The pointers of the other levels are not those of level [p]. *)
Lemma side_rep_other h buy ls g p q zs z :
  side_rep h buy ls g → (q, zs) ∈ g → q ≠ p → z ∈ zs →
  z ∉ default [] (map_find (cmp buy) p g).
Proof.
  intros (Hm & Hs & Hnd & Hr) Hq Hne Hz Hin.
  destruct (map_find (cmp buy) p g) as [xs|] eqn:E; simpl in Hin; [|set_solver].
  apply (map_find_elem (cmp buy)) in E; [|done].
  destruct (Hr q zs Hq) as [_ H1]. destruct (Hr p xs E) as [_ H2].
  destruct (H1 z Hz) as (o1 & ? & ? & _). destruct (H2 z Hin) as (o2 & ? & ? & _).
  simplify_eq.
Qed.

Lemma level_find h buy ls g p :
  side_rep h buy ls g →
  level_rep h (default Level_new (map_find (cmp buy) p ls)) (default [] (map_find (cmp buy) p g)).
Proof.
  intros (Hm & _). pose proof (map_rel_find (cmp buy) _ p _ _ Hm) as Hf. simpl in Hf.
  inversion Hf; simpl; [done|]. apply level_new_rep.
Qed.

Lemma elem_of_find_flat buy p (g : list (Price * list ptr)) x :
  map_sorted (cmp buy) g → x ∈ default [] (map_find (cmp buy) p g) → x ∈ flat g.
Proof.
  intros Hs Hx. destruct (map_find (cmp buy) p g) as [xs|] eqn:E; simpl in Hx; [|set_solver].
  apply (map_find_elem (cmp buy)) in E; [|done]. apply elem_of_flat. eauto.
Qed.

(** The same for a whole book: the other side is out of the way. *)
Lemma book_rep_put h h' b g buy p lv' xs' ys om :
  book_rep h b g → links_only ys h h' →
  (∀ y, y ∈ ys → y ∈ default [] (map_find (cmp buy) p (glevels buy g)) ∨ y ∉ resting g) →
  level_rep h' lv' xs' → (∀ x, x ∈ xs' → rests_at h' buy p x) →
  NoDup (flat (map_put (cmp buy) p xs' (glevels buy g))) →
  let b' := set_order_map om (set_levels buy
      (if empty lv' then map_erase (cmp buy) p (levels buy b)
       else map_set (cmp buy) p lv' (levels buy b)) b) in
  let g' := set_glevels buy (map_put (cmp buy) p xs' (glevels buy g)) g in
  map_ok h' b' g' → book_rep h' b' g'.
Proof.
  intros Hb L Hys Hlv Hx' Hnd b' g' Hm. split; [|done]. intros buy'.
  destruct (Hb) as [Hs _]. subst b' g'. rewrite levels_set_map, levels_set, glevels_set.
  destruct (Bool.eqb_spec buy' buy) as [->|Hne].
  - eapply side_rep_put; try done. intros q zs z Hq Hqp Hz Hzy.
    destruct (Hys z Hzy) as [Hin|Hout].
    + by eapply side_rep_other.
    + apply Hout, elem_of_resting. exists buy. apply elem_of_flat. eauto.
  - apply (side_rep_frame h); [|done]. intros x Hx. apply (proj2 L). intros Hy.
    assert (buy' = negb buy) as -> by (by destruct buy, buy').
    destruct (Hys x Hy) as [Hin|Hout].
    + apply (elem_of_find_flat _ _ _ _ (proj1 (proj2 (Hs buy)))) in Hin.
      by eapply (side_disjoint h b g buy).
    + apply Hout, elem_of_resting. eauto.
Qed.

(** ** [add_resting] *)

(** The ghost book after appending a pointer to its price level. *)
Definition gadd (buy : bool) (p : Price) (x : ptr) (g : GBook) : GBook :=
  set_glevels buy
    (map_put (cmp buy) p (default [] (map_find (cmp buy) p (glevels buy g)) ++ [x])
       (glevels buy g)) g.

Lemma gadd_flat h b g buy p x :
  book_rep h b g →
  ∃ l1 l2, flat (glevels buy g) = l1 ++ l2 ∧ flat (glevels buy (gadd buy p x g)) = l1 ++ x :: l2 ∧
    (∀ y, y ∈ l1 → ∃ q, rests_at h buy q y ∧ cmp buy p q = false) ∧
    (∀ y, y ∈ l2 → ∃ q, rests_at h buy q y ∧ cmp buy p q = true).
Proof.
  intros [Hs _]. destruct (Hs buy) as (_ & Hsort & _ & Hr).
  destruct (flat_map_put (cmp buy) p _ Hsort) as (g1 & g2 & Hf & Hput & H1 & H2).
  exists (flat g1 ++ default [] (map_find (cmp buy) p (glevels buy g))), (flat g2).
  unfold gadd. rewrite glevels_set, eqb_reflx, Hput, Hf, <- !app_assoc.
  split_and!; [done|by simplify_list_eq| |].
  - intros y [(q & zs & Hq & Hy)%elem_of_flat|Hy]%elem_of_app.
    + destruct (H1 _ _ Hq) as [Hg Hlt]. exists q. split; [by eapply Hr|].
      by apply (ltb_asym (cmp buy)).
    + exists p. split; [|apply (ltb_irrefl (ltb:=cmp buy))].
      destruct (map_find (cmp buy) p (glevels buy g)) as [zs|] eqn:E; simpl in Hy; [|set_solver].
      apply (map_find_elem (cmp buy)) in E; [|done]. by eapply Hr.
  - intros y (q & zs & Hq & Hy)%elem_of_flat. destruct (H2 _ _ Hq) as [Hg Hlt].
    exists q. split; [by eapply Hr|done].
Qed.

Lemma gadd_other buy p x g : glevels (negb buy) (gadd buy p x g) = glevels (negb buy) g.
Proof. unfold gadd. by destruct buy. Qed.

Lemma elem_of_gadd h b g buy p x y :
  book_rep h b g → y ∈ resting (gadd buy p x g) ↔ y = x ∨ y ∈ resting g.
Proof.
  intros Hb. rewrite !(elem_of_resting_split buy), gadd_other.
  destruct (gadd_flat h b g buy p x Hb) as (l1 & l2 & -> & -> & _). set_solver.
Qed.

Lemma add_resting_spec x o b h g :
  book_rep h b g → h !! x = Some o → x ∉ resting g →
  let buy := is_buy (side o) in
  ∃ b' h', add_resting x b h = Some (b', h') ∧
    book_rep h' b' (gadd buy (limit_price o) x g) ∧
    hdata h' = hdata h ∧ (∀ y, y ≠ x → y ∉ resting g → h' !! y = h !! y) ∧
    instrument_ b' = instrument_ b ∧
    order_map_ b' = umap_emplace (oid o) (locator_of x o) (order_map_ b).
Proof.
  intros Hb Ho Hx buy. destruct (Hb) as [Hs Hm]. set (p := limit_price o).
  set (xs := default [] (map_find (cmp buy) p (glevels buy g))).
  pose proof (level_find _ _ _ _ p (Hs buy)) as Hlv. fold xs in Hlv.
  assert (x ∉ xs) as Hxs.
  { intros Hin%elem_of_find_flat; [|apply (Hs buy)]. apply Hx, elem_of_resting. eauto. }
  destruct (push_back_spec x _ h xs Hlv Hxs) as (lv' & h' & E & Hlv' & L); [eauto|].
  unfold add_resting. rewrite Ho. fold buy p. rewrite E.
  assert (empty lv' = false) as Hem.
  { rewrite (empty_spec _ _ _ Hlv'). apply bool_decide_eq_false. by destruct xs. }
  assert (rests_at h buy p x) as Hrx by (exists o; by split_and!).
  eexists _, _. split; [done|]. rewrite order_map_set_levels. split.
  - unfold gadd. fold xs. pose proof (book_rep_put h h' b g buy p lv' (xs ++ [x]) (xs ++ [x])
      (umap_emplace (oid o) (locator_of x o) (order_map_ b)) Hb L) as Hput.
    rewrite Hem in Hput. apply Hput; clear Hput; [|done| | |].
    + intros y [?|Hy]%elem_of_app; [by left|right]. set_solver.
    + intros y [Hy|Hy]%elem_of_app; (eapply rests_at_hdata; [apply L|]).
      * unfold xs in Hy. destruct (map_find _ _ _) as [zs|] eqn:Ef; simpl in Hy; [|set_solver].
        apply (map_find_elem (cmp buy)) in Ef; [|apply (Hs buy)]. by eapply (Hs buy).
      * by apply list_elem_of_singleton in Hy as ->.
    + destruct (gadd_flat h b g buy p x Hb) as (l1 & l2 & E1 & E2 & _).
      unfold gadd in E2. rewrite glevels_set, eqb_reflx in E2. fold xs in E2. rewrite E2.
      rewrite <- Permutation_middle. apply NoDup_cons. rewrite <- E1.
      split; [|apply (Hs buy)]. intros Hin. apply Hx, elem_of_resting. eauto.
    + apply (map_ok_hdata h); [apply L|]. intros id loc. simpl. unfold umap_emplace.
      assert (∀ y, y ∈ resting (gadd buy p x g) ↔ y = x ∨ y ∈ resting g) as Hel
        by (intros; by eapply elem_of_gadd).
      unfold gadd in Hel. fold xs in Hel. setoid_rewrite Hel.
      assert (∀ id loc, order_map_ b !! id = Some loc → ∃ o0, (loc_order loc = x ∨ loc_order loc ∈ resting g)
         ∧ h !! loc_order loc = Some o0 ∧ oid o0 = id ∧ loc = locator_of (loc_order loc) o0) as Hold.
      { intros id' loc' Hl. destruct (Hm _ _ Hl) as (o' & ? & ? & ? & ?). eauto 10. }
      destruct (order_map_ b !! oid o) eqn:Eo; [by apply Hold|].
      rewrite lookup_insert. case_decide; [|by apply Hold]. intros [= <-]. subst id.
      exists o. simpl. by split_and!; [left|..].
  - split_and!; [apply L| |by destruct buy|done].
    intros y Hy Hr. apply (proj2 L). intros [Hin|Hin]%elem_of_app; [|set_solver].
    apply Hr, elem_of_resting. exists buy. eapply elem_of_find_flat; [apply (Hs buy)|done].
Qed.

(** ** Removing one order *)

Definition gdel (buy : bool) (p : Price) (x : ptr) (g : GBook) : GBook :=
  set_glevels buy
    (map_put (cmp buy) p
       (filter (λ y, y ≠ x) (default [] (map_find (cmp buy) p (glevels buy g))))
       (glevels buy g)) g.

Lemma filter_ne_notin (x : ptr) (l : list ptr) : x ∉ l → filter (λ y, y ≠ x) l = l.
Proof. intros Hx. apply filter_all. intros y Hy ->. done. Qed.

Lemma filter_ne_middle (x : ptr) (l1 l2 : list ptr) :
  NoDup (l1 ++ x :: l2) → filter (λ y, y ≠ x) (l1 ++ x :: l2) = l1 ++ l2.
Proof.
  intros (_ & Hd & [Hx _]%NoDup_cons)%NoDup_app.
  rewrite filter_app, filter_cons_False by (intros H; by apply H).
  rewrite !filter_ne_notin; [done|done|]. intros ?. eapply Hd; set_solver.
Qed.

Lemma gdel_flat buy p x g :
  map_sorted (cmp buy) (glevels buy g) → NoDup (flat (glevels buy g)) →
  x ∈ default [] (map_find (cmp buy) p (glevels buy g)) →
  flat (glevels buy (gdel buy p x g)) = filter (λ y, y ≠ x) (flat (glevels buy g)).
Proof.
  intros Hs Hnd Hx. unfold gdel. rewrite glevels_set, eqb_reflx.
  destruct (flat_map_put (cmp buy) p _ Hs) as (g1 & g2 & Hf & -> & _).
  rewrite Hf in *. apply NoDup_app in Hnd as (_ & Hd1 & (_ & Hd2 & _)%NoDup_app).
  rewrite !filter_app, (filter_ne_notin x (flat g1)), (filter_ne_notin x (flat g2)); [done| |].
  - by apply Hd2.
  - intros ?. eapply Hd1; [done|]. set_solver.
Qed.

Lemma gdel_other buy p x g : glevels (negb buy) (gdel buy p x g) = glevels (negb buy) g.
Proof. unfold gdel. by destruct buy. Qed.

(** Where the ghost level of a resting order is. *)
Lemma rests_in_level h buy ls g x o :
  side_rep h buy ls g → x ∈ flat g → h !! x = Some o →
  x ∈ default [] (map_find (cmp buy) (limit_price o) g) ∧ is_buy (side o) = buy.
Proof.
  intros (_ & Hs & _ & Hr) (p & xs & Hp & Hx)%elem_of_flat Ho.
  destruct (Hr p xs Hp) as [_ H']. destruct (H' x Hx) as (o' & ? & ? & ?). simplify_eq.
  by apply (map_find_elem (cmp _) _ _ _ Hs) in Hp as ->.
Qed.

(** Deleting a resting order filters it out of both sides. *)
Lemma gdel_filter h b g x o buy :
  book_rep h b g → x ∈ resting g → h !! x = Some o →
  flat (glevels buy (gdel (is_buy (side o)) (limit_price o) x g)) = filter (λ y, y ≠ x) (flat (glevels buy g)).
Proof.
  intros Hb [buy0 Hx]%elem_of_resting Ho. destruct (Hb) as [Hs _].
  destruct (rests_in_level _ _ _ _ _ _ (Hs buy0) Hx Ho) as [Hin ->].
  destruct (Bool.eqb_spec buy buy0) as [->|Hne].
  - apply gdel_flat; [apply (Hs buy0)|apply (Hs buy0)|done].
  - assert (buy = negb buy0) as -> by (by destruct buy, buy0). rewrite gdel_other.
    symmetry. apply filter_ne_notin. by eapply side_disjoint.
Qed.

Lemma elem_of_gdel h b g x o y :
  book_rep h b g → x ∈ resting g → h !! x = Some o →
  y ∈ resting (gdel (is_buy (side o)) (limit_price o) x g) ↔ y ≠ x ∧ y ∈ resting g.
Proof.
  intros Hb [buy Hx]%elem_of_resting Ho. destruct (Hb) as [Hs _].
  destruct (rests_in_level _ _ _ _ _ _ (Hs buy) Hx Ho) as [Hin ->].
  rewrite !(elem_of_resting_split buy), gdel_other, gdel_flat, list_elem_of_filter;
    [|apply (Hs buy)|apply (Hs buy)|done].
  pose proof (side_disjoint _ _ _ _ _ Hb Hx). split; [|tauto].
  intros [?|Hy]; [tauto|]. split; [set_solver|tauto].
Qed.

Lemma book_rep_del h h' b g x o lv lv' :
  book_rep h b g → x ∈ resting g → h !! x = Some o →
  let buy := is_buy (side o) in
  let p := limit_price o in
  let xs := default [] (map_find (cmp buy) p (glevels buy g)) in
  level_rep h lv xs → level_rep h' lv' (filter (λ y, y ≠ x) xs) → links_only xs h h' →
  book_rep h'
    (set_order_map (delete (oid o) (order_map_ b)) (set_levels buy
      (if empty lv' then map_erase (cmp buy) p (levels buy b)
       else map_set (cmp buy) p lv' (levels buy b)) b))
    (gdel buy p x g).
Proof.
  intros Hb Hx Ho buy p xs Hlv Hlv' L. destruct (Hb) as [Hs Hm].
  eapply book_rep_put; [done|exact L|by left|done| | |].
  - intros y [_ Hy]%list_elem_of_filter. eapply rests_at_hdata; [apply L|].
    unfold xs in Hy. destruct (map_find _ _ _) as [zs|] eqn:Ef; simpl in Hy; [|set_solver].
    apply (map_find_elem (cmp buy)) in Ef; [|apply (Hs buy)]. by eapply (Hs buy).
  - destruct (flat_map_put (cmp buy) p _ (proj1 (proj2 (Hs buy)))) as (g1 & g2 & Hf & -> & _).
    assert (NoDup (flat (glevels buy g))) as Hnd by apply (Hs buy).
    rewrite Hf in Hnd. eapply sublist_NoDup; [exact Hnd|].
    apply sublist_app; [done|]. apply sublist_app; [apply sublist_filter|done].
  - apply (map_ok_hdata h); [apply L|]. intros id loc Hl. simpl in Hl.
    apply lookup_delete_Some in Hl as [Hne Hl].
    destruct (Hm _ _ Hl) as (o' & Hr & Ho' & Hid & Hloc). exists o'. split_and!; try done.
    apply (elem_of_gdel h b g x o); [done..|]. split; [|done]. intros Heq. rewrite Heq in Ho'.
    simplify_eq.
Qed.

Lemma cancel_and_get_spec id loc b h g :
  book_rep h b g → order_map_ b !! id = Some loc →
  ∃ o b' h', h !! loc_order loc = Some o ∧ oid o = id ∧ loc_order loc ∈ resting g ∧
    cancel_and_get id b h = Some (Some (loc_order loc), b', h') ∧
    book_rep h' b' (gdel (is_buy (side o)) (limit_price o) (loc_order loc) g) ∧
    hdata h' = hdata h ∧ (∀ y, y ∉ resting g → h' !! y = h !! y) ∧
    instrument_ b' = instrument_ b ∧ order_map_ b' = delete id (order_map_ b).
Proof.
  intros Hb Hl. destruct (Hb) as [Hs Hm].
  destruct (Hm _ _ Hl) as (o & Hr & Ho & Hid & Hloc). set (x := loc_order loc) in *.
  assert (is_buy (loc_side loc) = is_buy (side o) ∧ loc_price loc = limit_price o) as [Hls Hlp].
  { rewrite Hloc. unfold locator_of. simpl. split; [|done]. unfold is_buy. by destruct (side o). }
  set (buy := is_buy (side o)) in *. set (p := limit_price o) in *.
  set (xs := default [] (map_find (cmp buy) p (glevels buy g))).
  assert (x ∈ xs) as Hxs.
  { apply elem_of_resting in Hr as [buy' Hr].
    destruct (rests_in_level _ _ _ _ _ _ (Hs buy') Hr Ho) as [? <-]. done. }
  pose proof (level_find _ _ _ _ p (Hs buy)) as Hlv. fold xs in Hlv.
  destruct (map_find (cmp buy) p (levels buy b)) as [lv|] eqn:Ef; simpl in Hlv;
    [|destruct Hlv as (Hlv & _); destruct xs; [set_solver|done]].
  apply list_elem_of_split in Hxs as (l1 & l2 & Hxs). rewrite Hxs in Hlv.
  destruct (erase_spec x lv h l1 l2 Hlv) as (lv' & h' & E & Hlv' & L).
  rewrite <- Hxs in *. assert (l1 ++ l2 = filter (λ y, y ≠ x) xs) as Hfil.
  { rewrite Hxs. symmetry. apply filter_ne_middle. rewrite <- Hxs. apply Hlv. }
  rewrite Hfil in Hlv'.
  eexists o, _, h'. split_and!; [done..| | |apply L| | |].
  - unfold cancel_and_get. rewrite Hl, Hls, Hlp, levels_set_map, Ef. fold x. rewrite E. done.
  - rewrite (map_erase_set (cmp buy)) by (apply (map_rel_sorted (cmp buy) _ _ _ (proj1 (Hs buy))), (Hs buy)).
    pose proof (book_rep_del h h' b g x o lv lv' Hb Hr Ho) as H. simpl in H. fold buy p xs in H.
    specialize (H Hlv Hlv' L). rewrite Hid in H.
    by rewrite set_levels_map.
  - intros y Hy. apply (proj2 L). intros Hin. apply Hy, elem_of_resting. exists buy.
    eapply elem_of_find_flat; [apply (Hs buy)|done].
  - by rewrite instrument_set_levels.
  - by rewrite order_map_set_levels.
Qed.

(** The top of a side is the first pointer of its flattening. *)
Lemma glevels_cases h b g buy :
  book_rep h b g →
  match glevels buy g with
  | [] => levels buy b = []
  | (p, xs) :: gr => ∃ x xs' lv lr o, xs = x :: xs' ∧ levels buy b = (p, lv) :: lr ∧
      level_rep h lv xs ∧ h !! x = Some o ∧ limit_price o = p ∧ is_buy (side o) = buy
  end.
Proof.
  intros [Hs _]. destruct (Hs buy) as (Hm & _ & _ & Hr).
  destruct (glevels buy g) as [|[p xs] gr].
  - by inversion Hm.
  - inversion Hm as [|[p' lv] ? lr ? [Hp Hl] _ E]; simplify_eq/=.
    destruct (Hr p xs) as [Hne Hx]; [set_solver|]. destruct xs as [|x xs]; [done|].
    destruct (Hx x) as (o & ? & ? & ?); [set_solver|]. eauto 15.
Qed.

Lemma peek_top_spec h b g s :
  book_rep h b g → peek_top s b = head (flat (glevels (is_buy s) g)).
Proof.
  intros Hb. pose proof (glevels_cases _ _ _ (is_buy s) Hb) as H. unfold peek_top.
  destruct (glevels (is_buy s) g) as [|[p xs] gr]; [by rewrite H|].
  destruct H as (x & xs' & lv & lr & o & -> & -> & Hl & _). by rewrite (front_spec _ _ _ Hl).
Qed.

Lemma pop_top_spec h b g s x l :
  book_rep h b g → flat (glevels (is_buy s) g) = x :: l →
  ∃ o b' h', h !! x = Some o ∧ pop_top s b h = Some (b', h') ∧
    book_rep h' b' (gdel (is_buy s) (limit_price o) x g) ∧
    hdata h' = hdata h ∧ (∀ y, y ∉ resting g → h' !! y = h !! y) ∧
    instrument_ b' = instrument_ b ∧ order_map_ b' = delete (oid o) (order_map_ b).
Proof.
  intros Hb Hf. set (buy := is_buy s) in *. pose proof (glevels_cases _ _ _ buy Hb) as H.
  destruct (Hb) as [Hs _]. destruct (glevels buy g) as [|[p xs] gr] eqn:Eg; [done|].
  destruct H as (x' & xs' & lv & lr & o & -> & El & Hl & Ho & Hp & Hbuy).
  rewrite flat_cons in Hf. simpl in Hf. injection Hf as -> _. subst p.
  destruct (pop_front_spec _ _ _ _ Hl) as (lv' & h' & E & Hlv' & L).
  assert (default [] (map_find (cmp buy) (limit_price o) (glevels buy g)) = x :: xs') as Hxs.
  { rewrite Eg. simpl. by rewrite (ltb_irrefl (ltb:=cmp buy)). }
  assert (filter (λ y, y ≠ x) (x :: xs') = xs') as Hfil.
  { apply (filter_ne_middle x [] xs'). apply Hl. }
  assert (x ∈ resting g) as Hr.
  { apply elem_of_resting. exists buy. rewrite Eg, flat_cons. set_solver. }
  eexists o, _, h'. split_and!; [done| | |apply L| | |].
  - unfold pop_top. fold buy. rewrite El, (front_spec _ _ _ Hl). simpl. by rewrite Ho, E.
  - pose proof (book_rep_del h h' b g x o lv lv' Hb Hr Ho) as H. simpl in H. rewrite Hbuy in H.
    rewrite Hxs, Hfil in H. specialize (H Hl Hlv' L). rewrite El in H. simpl in H.
    rewrite (ltb_irrefl (ltb:=cmp buy)) in H. by rewrite set_levels_map.
  - intros y Hy. apply (proj2 L). intros Hin. apply Hy, elem_of_resting. exists buy.
    rewrite Eg, flat_cons. set_solver.
  - by rewrite instrument_set_levels.
  - by rewrite order_map_set_levels.
Qed.

(** ** Updates of an order's data *)

Lemma book_rep_upd_out h b g x o :
  x ∉ resting g → book_rep h b g → book_rep (<[x := o]> h) b g.
Proof.
  intros Hx [Hs Hm]. split.
  - intros buy. apply (side_rep_frame h); [|done]. intros y Hy.
    apply list_lookup_insert_ne. intros ->. apply Hx, elem_of_resting. eauto.
  - intros id loc Hl. destruct (Hm id loc Hl) as (o' & ? & ? & ? & ?). exists o'.
    rewrite list_lookup_insert_ne; [done|set_solver].
Qed.

(** A resting order may change everything but its links, id, price and side. *)
Lemma book_rep_upd_in h b g x o o' :
  h !! x = Some o → links o' = links o → oid o' = oid o → limit_price o' = limit_price o →
  side o' = side o → book_rep h b g → book_rep (<[x := o']> h) b g.
Proof.
  intros Ho Hlk Hid Hp Hsd [Hs Hm]. injection Hlk as Hlp Hln. split.
  - intros buy. destruct (Hs buy) as (Hr & Hsort & Hnd & Hat). split_and!; try done.
    + apply (map_rel_weaken (λ _, level_rep h)); [|exact Hr]. simpl.
      intros q lv xs _. by eapply level_rep_upd.
    + intros p xs Hpx. destruct (Hat p xs Hpx) as [? H]. split; [done|]. intros y Hy.
      destruct (H y Hy) as (oy & Hoy & ? & ?). destruct (decide (x = y)) as [->|].
      * simplify_eq. exists o'. rewrite lookup_upd_eq, Hp, Hsd by eauto. done.
      * exists oy. by rewrite list_lookup_insert_ne.
  - intros id loc Hl. destruct (Hm id loc Hl) as (oy & Hy & Hoy & <- & Hloc).
    destruct (decide (x = loc_order loc)) as [->|].
    + simplify_eq. exists o'. rewrite lookup_upd_eq by eauto.
      split_and!; [done|done|done|]. rewrite Hloc at 1. unfold locator_of. by rewrite Hsd, Hp.
    + exists oy. by rewrite list_lookup_insert_ne.
Qed.

(** ** Aggregate quantity of a level *)

Definition qty_total (l : list Order) : Z := sumZ (remaining <$> l).

Lemma qty_loop h xs q :
  (∀ x, x ∈ xs → is_Some (h !! x)) →
  loop_list qty_body xs (h, u64 q) = Some ((h, u64 (q + qty_total (hview h xs))), true).
Proof.
  revert q. induction xs as [|x xs IH]; intros q Hx.
  { simpl. unfold qty_total. simpl. by rewrite Z.add_0_r. }
  destruct (Hx x) as [o Ho]; [set_solver|]. simpl. unfold qty_body at 1. simpl.
  rewrite Ho. unfold qty_add. autorewrite with ordbk. rewrite IH by set_solver.
  rewrite (hview_cons _ _ _ _ Ho). unfold qty_total. simpl. rewrite data_remaining.
  by rewrite Z.add_assoc.
Qed.

Lemma qty_at_spec buy p b h g :
  book_rep h b g →
  qty_at buy p b h =
  Some (u64 (qty_total (hview h (default [] (map_find (cmp buy) p (glevels buy g)))))).
Proof.
  intros [Hs _]. pose proof (level_find _ _ _ _ p (Hs buy)) as Hl. unfold qty_at.
  pose proof (map_rel_find (cmp buy) _ p _ _ (proj1 (Hs buy))) as Hf.
  destruct (map_find (cmp buy) p (levels buy b)) as [lv|]; simpl in Hl.
  - rewrite (for_level_list qty_body lv (default [] (map_find (cmp buy) p (glevels buy g)))).
    + change kZeroQty with (u64 0). rewrite qty_loop; [done|].
      intros x Hx. by eapply level_rep_lookup.
    + done.
    + intros x [h0 q] s' go. unfold qty_body. simpl. destruct (h0 !! x); [|done]. by intros [= <- <-].
  - inversion Hf. done.
Qed.

(** ** What [clear_and_drain] visits *)

Definition heads (g : list (Price * list ptr)) : list ptr := omap head g.*2.

Section drain_visits.
Context {S : Type} `{HasHeap S} (callback : ptr → S → res S).

(** The loop body run on a list of orders. *)
Fixpoint visit (xs : list ptr) (s : S) : res S :=
  match xs with
  | [] => Some s
  | x :: xs' => let* (s', _) := drain_body callback x s in visit xs' s'
  end.

(** The callback may change orders but not their links. *)
Hypothesis callback_links : ∀ x s s', callback x s = Some s' →
  ∀ y, links <$> get_heap s' !! y = links <$> get_heap s !! y.

Lemma drain_body_links x s s' go :
  drain_body callback x s = Some (s', go) →
  go = true ∧ (∀ y, y ≠ x → links <$> get_heap s' !! y = links <$> get_heap s !! y) ∧
  ∃ o, get_heap s' !! x = Some o ∧ level_next o = None.
Proof.
  unfold drain_body, unlink, hupd. intros E.
  destruct (get_heap s !! x) as [o|] eqn:Ho; [|done].
  destruct (callback x _) as [s1|] eqn:Ec; [|done]. injection E as -> <-.
  pose proof (callback_links _ _ _ Ec) as Hl. rewrite get_set_heap in Hl.
  split_and!; [done| |].
  - intros y Hy. by rewrite Hl, list_lookup_insert_ne.
  - specialize (Hl x). rewrite lookup_upd_eq in Hl by eauto.
    destruct (get_heap s' !! x) as [o'|]; [|done]. exists o'. split; [done|].
    unfold links in Hl. simpl in Hl. by injection Hl.
Qed.

Lemma drain_levels_heads buy ls g s :
  side_rep (get_heap s) buy ls g →
  drain_levels callback ls s = visit (heads g) s ∧
  ∀ s', drain_levels callback ls s = Some s' →
    ∀ y, y ∉ heads g → links <$> get_heap s' !! y = links <$> get_heap s !! y.
Proof.
  intros (Hm & Hsort & Hnd & Hr).
  assert (∀ p xs, (p, xs) ∈ g → xs ≠ []) as Hne by (intros p xs Hp; by apply (Hr p xs)).
  clear Hr Hsort. revert s ls Hm. induction g as [|[p xs] g IH]; intros s ls Hm.
  { inversion Hm. split; [done|]. by intros s' [= <-]. }
  inversion Hm as [|[p' lv] ? ls' ? [Hp Hl] Hm' E]; simplify_eq/=.
  destruct xs as [|x xs]; [by destruct (Hne p []); [set_solver|]|].
  rewrite flat_cons in Hnd. apply NoDup_app in Hnd as (_ & Hdis & Hnd').
  change (heads ((p, x :: xs) :: g)) with (x :: heads g). simpl.
  destruct (drain_body callback x s) as [[s1 go]|] eqn:Eb.
  - destruct (drain_body_links _ _ _ _ Eb) as (-> & F & Hx).
    rewrite (for_level_unlinked _ _ _ _ _ _ Hl Eb Hx).
    destruct (IH Hnd') with (s := s1) (ls := ls') as [H1 H2];
      [intros q ys Hq; apply (Hne q); set_solver| |].
    + apply (map_rel_weaken (λ _, level_rep (get_heap s))); [|exact Hm']. simpl.
      intros q lv' ys Hq (? & ? & ? & ?). split_and!; try done.
      eapply dll_links_frame; [|done]. intros y Hy. apply F. intros ->.
      eapply (Hdis x); [set_solver|]. apply elem_of_flat. eauto.
    + split; [done|]. intros s' Es y Hy. rewrite (H2 _ Es) by set_solver. apply F. set_solver.
  - assert (for_level (drain_body callback) lv s = None) as ->.
    { unfold for_level. destruct Hl as (-> & _). simpl. by rewrite Eb. }
    by split.
Qed.
End drain_visits.
