(* ===== verification/Latency.v ===== *)
(** * Latency recorder (include/ordbk/utils/latency.hpp)

    Counters are [std::atomic<std::uint64_t>]: every increment wraps.  A
    tracker belongs to one matcher and is written by the thread that runs it;
    [record] is one sequential step here, in which the compare-exchange loop
    ends with the larger of the two values.  The file Recorders has the same
    function run by any number of threads. *)

From S2P Require Import Prelude.

Definition kBuckets : nat := 5.
Definition kThresholds : list Z := [1000; 10000; 100000; 1000000]%Z.

Record LatencyTracker := mkTracker {
  count_ : Z;
  sum_ns_ : Z;
  max_ns_ : Z;
  hist_ : list Z }.

Definition Tracker_new : LatencyTracker := mkTracker 0 0 0 (replicate kBuckets 0%Z).

(** The first threshold above [ns], the last bucket when there is none. *)
Fixpoint bucket_from (i : nat) (thresholds : list Z) (ns : Z) : nat :=
  match thresholds with
  | [] => kBuckets - 1
  | t :: ts => if (ns <? t)%Z then i else bucket_from (S i) ts ns
  end.
Definition bucket (ns : Z) : nat := bucket_from 0 kThresholds ns.

Definition record (ns : Z) (t : LatencyTracker) : LatencyTracker :=
  mkTracker (u64 (count_ t + 1)) (u64 (sum_ns_ t + ns))
    (if (max_ns_ t <? ns)%Z then ns else max_ns_ t)
    (alter (λ c, u64 (c + 1)) (bucket ns) (hist_ t)).

Record Snapshot := mkSnapshot {
  s_count : Z;
  s_mean_ns : Z;
  s_max_ns : Z;
  s_hist : list Z }.

Definition Snapshot_new : Snapshot := mkSnapshot 0 0 0 (replicate kBuckets 0%Z).

Definition snapshot (t : LatencyTracker) : Snapshot :=
  mkSnapshot (count_ t) (if (count_ t =? 0)%Z then 0%Z else (sum_ns_ t / count_ t)%Z)
    (max_ns_ t) (hist_ t).

Definition reset (t : LatencyTracker) : LatencyTracker :=
  mkTracker 0 0 0 ((λ _, 0%Z) <$> hist_ t).

(** What a tracker holds after a list of samples. *)
Definition in_bucket (i : nat) (l : list Z) : list Z := filter (λ ns, bucket ns = i) l.
Definition tracker_of (l : list Z) : LatencyTracker :=
  mkTracker (u64 (Z.of_nat (length l))) (u64 (sumZ l)) (foldr Z.max 0%Z l)
    ((λ i, u64 (Z.of_nat (length (in_bucket i l)))) <$> seq 0 kBuckets).

(** ** Lemmas *)

Lemma bucket_lt ns : bucket ns < kBuckets.
Proof. unfold bucket, kThresholds, kBuckets; simpl; repeat case_match; lia. Qed.

Lemma record_tracker_of ns l :
  record ns (tracker_of l) = tracker_of (ns :: l).
Proof.
  unfold record, tracker_of. cbn [count_ sum_ns_ max_ns_ hist_]. f_equal.
  - rewrite wrap_add_l. f_equal. simpl. lia.
  - rewrite wrap_add_l. f_equal. unfold sumZ. simpl. lia.
  - simpl. destruct (Z.ltb_spec (foldr Z.max 0 l)%Z ns); lia.
  - apply list_eq. intros i. destruct (decide (i = bucket ns)) as [->|Hne].
    + rewrite list_lookup_alter_eq, !list_lookup_fmap, lookup_seq_lt by apply bucket_lt. cbn [fmap option_fmap option_map].
      rewrite wrap_add_l. unfold in_bucket. rewrite filter_cons_True by done. simpl.
      do 2 f_equal. lia.
    + rewrite list_lookup_alter_ne, !list_lookup_fmap by done.
      destruct (decide (i < kBuckets)) as [Hi|Hi].
      * rewrite lookup_seq_lt by done. simpl. unfold in_bucket.
        by rewrite filter_cons_False.
      * by rewrite lookup_seq_ge by lia.
Qed.

Lemma hist_total l :
  sumZ ((λ i, Z.of_nat (length (in_bucket i l))) <$> seq 0 kBuckets) = Z.of_nat (length l).
Proof.
  induction l as [|ns l IH]; [done|].
  assert (∀ i, length (in_bucket i (ns :: l)) =
               (if decide (bucket ns = i) then 1 else 0) + length (in_bucket i l)) as E.
  { intros i. unfold in_bucket. rewrite filter_cons. by case_decide. }
  simpl length. rewrite Nat2Z.inj_succ, <- IH. unfold sumZ, kBuckets. simpl. rewrite !E.
  pose proof (bucket_lt ns) as Hb. unfold kBuckets in Hb.
  destruct (bucket ns) as [|[|[|[|[|]]]]]; simpl; lia.
Qed.

Lemma record_all samples : foldr record Tracker_new samples = tracker_of samples.
Proof. induction samples as [|ns l IH]; [done|]. simpl. by rewrite IH, record_tracker_of. Qed.

(** The recorder reports what was recorded: after any list of samples
    (latest first) whose number and sum fit in 64 bits, the snapshot has their
    number, the floor of their mean, their maximum, and a histogram that counts
    each sample in the one bucket of its decade, so that it adds up to the
    number of samples. *)
Theorem snapshot_of_samples samples :
  in_u 64 (Z.of_nat (length samples)) → in_u 64 (sumZ samples) →
  let s := snapshot (foldr record Tracker_new samples) in
  s_count s = Z.of_nat (length samples) ∧
  s_mean_ns s = (sumZ samples / Z.of_nat (length samples))%Z ∧
  s_max_ns s = foldr Z.max 0%Z samples ∧
  s_hist s = (λ i, Z.of_nat (length (in_bucket i samples))) <$> seq 0 kBuckets ∧
  sumZ (s_hist s) = s_count s.
Proof.
  intros Hn Hs s. unfold s. rewrite record_all.
  assert ((λ i, u64 (Z.of_nat (length (in_bucket i samples)))) <$> seq 0 kBuckets =
          (λ i, Z.of_nat (length (in_bucket i samples))) <$> seq 0 kBuckets) as Eh.
  { apply list_fmap_ext. intros i j _. apply wrap_small. unfold in_u, in_bucket in *.
    pose proof (length_filter (λ ns, bucket ns = j) samples). lia. }
  cbn [snapshot tracker_of s_count s_mean_ns s_max_ns s_hist count_ sum_ns_ max_ns_ hist_].
  rewrite Eh, !(wrap_small 64) by done. split_and!; try done; [|apply hist_total].
  destruct samples; [done|]. by rewrite (proj2 (Z.eqb_neq _ _)) by (simpl; lia).
Qed.

Lemma snapshot_of_samples_witness :
  let s := snapshot (foldr record Tracker_new [500; 1500; 2000000]%Z) in
  s_hist s = [1; 1; 0; 0; 1]%Z ∧
  s_count s = 3%Z ∧ s_mean_ns s = (2002000 / 3)%Z ∧ s_max_ns s = 2000000%Z ∧
  s_hist s = (λ i, Z.of_nat (length (in_bucket i [500; 1500; 2000000]%Z))) <$> seq 0 kBuckets ∧
  sumZ (s_hist s) = s_count s.
Proof.
  split; [by vm_compute|].
  apply (snapshot_of_samples [500; 1500; 2000000]%Z); by vm_compute.
Defined.
