(* ===== verification/Recorders.v ===== *)
(** * Concurrent latency recording (include/ordbk/utils/latency.hpp)

    [LatencyTracker] is meant to be shared: any number of threads call [record]
    on one tracker.  Here each atomic access of [record] is a step, and the
    steps of the threads interleave.  All accesses are relaxed: a
    read-modify-write acts on the newest value, while a load, and a
    compare-exchange that fails, may return any value the variable has held.
    [compare_exchange_weak] may fail for no reason.  The sequential [record] of
    the file Latency is what the threads together implement. *)

From S2P Require Import Prelude Latency.

(** Where a thread is inside [record]: before each of its atomic accesses. *)
Inductive RecordPc :=
| R_idle
| R_count (ns : Z)
| R_sum (ns : Z)
| R_load (ns : Z)
| R_cas (ns cur : Z)
| R_hist (ns : Z).

(** The members, [max_ns_] with all the values it has held, newest last; the
    threads; and the samples whose recording has begun, newest first. *)
Record Recorders := mkRecorders {
  rcount : Z;
  rsum : Z;
  rmax : list Z;
  rhist : list Z;
  rthreads : list RecordPc;
  samples : list Z }.

Definition Recorders_new (n : nat) : Recorders :=
  mkRecorders 0 0 [0%Z] (replicate kBuckets 0%Z) (replicate n R_idle) [].

(** [while (ns > cur)] *)
Definition max_test (ns cur : Z) : RecordPc := if (cur <? ns)%Z then R_cas ns cur else R_hist ns.

Inductive record_step : Recorders → Recorders → Prop :=
| record_call c s m h l1 l2 sam ns :
    in_u 64 ns →
    record_step (mkRecorders c s m h (l1 ++ R_idle :: l2) sam)
      (mkRecorders c s m h (l1 ++ R_count ns :: l2) (ns :: sam))
| record_count c s m h l1 l2 sam ns :
    record_step (mkRecorders c s m h (l1 ++ R_count ns :: l2) sam)
      (mkRecorders (u64 (c + 1)) s m h (l1 ++ R_sum ns :: l2) sam)
| record_sum c s m h l1 l2 sam ns :
    record_step (mkRecorders c s m h (l1 ++ R_sum ns :: l2) sam)
      (mkRecorders c (u64 (s + ns)) m h (l1 ++ R_load ns :: l2) sam)
| record_load c s m h l1 l2 sam ns cur :
    cur ∈ m →
    record_step (mkRecorders c s m h (l1 ++ R_load ns :: l2) sam)
      (mkRecorders c s m h (l1 ++ max_test ns cur :: l2) sam)
| record_cas c s m h l1 l2 sam ns cur :
    last m = Some cur →
    record_step (mkRecorders c s m h (l1 ++ R_cas ns cur :: l2) sam)
      (mkRecorders c s (m ++ [ns]) h (l1 ++ R_hist ns :: l2) sam)
| record_cas_fails c s m h l1 l2 sam ns cur cur' :
    cur' ∈ m →
    record_step (mkRecorders c s m h (l1 ++ R_cas ns cur :: l2) sam)
      (mkRecorders c s m h (l1 ++ max_test ns cur' :: l2) sam)
| record_hist c s m h l1 l2 sam ns :
    record_step (mkRecorders c s m h (l1 ++ R_hist ns :: l2) sam)
      (mkRecorders c s m (alter (λ x, u64 (x + 1)) (bucket ns) h) (l1 ++ R_idle :: l2) sam).

(** The tracker as a thread that sees every write finds it. *)
Definition tracker_at (st : Recorders) : LatencyTracker :=
  mkTracker (rcount st) (rsum st) (default 0%Z (last (rmax st))) (rhist st).

(** ** Invariant *)

(** The samples a thread has still to add to a member. *)
Definition no_count (pc : RecordPc) : option Z := match pc with R_count ns => Some ns | _ => None end.
Definition no_sum (pc : RecordPc) : option Z :=
  match pc with R_count ns | R_sum ns => Some ns | _ => None end.
Definition no_max (pc : RecordPc) : option Z :=
  match pc with R_count ns | R_sum ns | R_load ns | R_cas ns _ => Some ns | _ => None end.
Definition no_hist (pc : RecordPc) : option Z :=
  match pc with R_idle => None | R_count ns | R_sum ns | R_load ns | R_cas ns _ | R_hist ns => Some ns end.

Definition lenZ (l : list Z) : Z := Z.of_nat (length l).
Definition hist_of (l k : list Z) : list Z :=
  (λ i, u64 (lenZ (in_bucket i l) - lenZ (in_bucket i k))) <$> seq 0 kBuckets.

(** The newest value of [max_ns_]. *)
Definition top (m : list Z) : Z := default 0%Z (last m).

Record recorders_ok (st : Recorders) : Prop := {
  ro_count : rcount st = u64 (lenZ (samples st) - lenZ (omap no_count (rthreads st)));
  ro_sum : rsum st = u64 (sumZ (samples st) - sumZ (omap no_sum (rthreads st)));
  ro_hist : rhist st = hist_of (samples st) (omap no_hist (rthreads st));
  ro_top : ∀ x, x ∈ rmax st → (0 ≤ x ≤ top (rmax st))%Z;
  ro_some : rmax st ≠ [];
  ro_from : top (rmax st) = 0%Z ∨ top (rmax st) ∈ samples st;
  ro_max : ∀ x, x ∈ samples st → (x ≤ top (rmax st))%Z ∨ x ∈ omap no_max (rthreads st);
  ro_cas : ∀ ns cur, R_cas ns cur ∈ rthreads st → (cur < ns)%Z;
  ro_pend : ∀ x, x ∈ omap no_hist (rthreads st) → x ∈ samples st }.

Lemma omap_middle (f : RecordPc → option Z) l1 pc l2 :
  omap f (l1 ++ pc :: l2) ≡ₚ option_list (f pc) ++ omap f (l1 ++ l2).
Proof.
  rewrite !omap_app. simpl. destruct (f pc) as [x|]; simpl; [|done]. by rewrite <- Permutation_middle.
Qed.

Lemma sumZ_perm l k : l ≡ₚ k → sumZ l = sumZ k.
Proof. unfold sumZ. induction 1; simpl; lia. Qed.
Lemma lenZ_perm l k : l ≡ₚ k → lenZ l = lenZ k.
Proof. unfold lenZ. by intros ->. Qed.
Lemma in_bucket_perm i l k : l ≡ₚ k → in_bucket i l ≡ₚ in_bucket i k.
Proof. unfold in_bucket. by intros ->. Qed.
Lemma hist_of_perm l k l' k' : l ≡ₚ l' → k ≡ₚ k' → hist_of l k = hist_of l' k'.
Proof.
  intros Hl Hk. apply list_fmap_ext. intros i j _. f_equal.
  by rewrite (lenZ_perm _ _ (in_bucket_perm j _ _ Hl)), (lenZ_perm _ _ (in_bucket_perm j _ _ Hk)).
Qed.

Lemma lenZ_app l k : lenZ (l ++ k) = (lenZ l + lenZ k)%Z.
Proof. unfold lenZ. rewrite length_app. lia. Qed.

(** Adding a sample to a histogram that was waiting for it. *)
Lemma hist_of_add l k ns :
  alter (λ x, u64 (x + 1)) (bucket ns) (hist_of l (ns :: k)) = hist_of l k.
Proof.
  apply list_eq. intros i. unfold hist_of. destruct (decide (i = bucket ns)) as [->|Hne].
  - rewrite list_lookup_alter_eq, !list_lookup_fmap, lookup_seq_lt by apply bucket_lt. simpl.
    rewrite wrap_add_l. unfold in_bucket, lenZ. rewrite (filter_cons_True _ ns) by done. simpl. do 2 f_equal. lia.
  - rewrite list_lookup_alter_ne, !list_lookup_fmap by done. destruct (decide (i < kBuckets)) as [Hi|Hi].
    + rewrite lookup_seq_lt by done. simpl. unfold in_bucket. by rewrite (filter_cons_False _ ns).
    + by rewrite lookup_seq_ge by lia.
Qed.

Lemma hist_of_both l k ns : hist_of (ns :: l) (ns :: k) = hist_of l k.
Proof.
  apply list_fmap_ext. intros i j _. unfold in_bucket. rewrite !filter_cons. case_decide; [|done].
  f_equal. unfold lenZ. simpl. lia.
Qed.

Lemma top_snoc m x : top (m ++ [x]) = x.
Proof. unfold top. by rewrite last_snoc. Qed.
Lemma top_in m : m ≠ [] → top m ∈ m.
Proof. unfold top. intros H. destruct (last m) as [x|] eqn:E; [by apply last_Some_elem_of|]. by apply last_None in E. Qed.

(** What is pending at a thread is pending. *)
Lemma elem_of_pending (f : RecordPc → option Z) l1 pc l2 x :
  x ∈ omap f (l1 ++ pc :: l2) ↔ f pc = Some x ∨ x ∈ omap f (l1 ++ l2).
Proof.
  rewrite omap_middle, elem_of_app. destruct (f pc); simpl; rewrite ?list_elem_of_singleton; [|set_solver].
  split; (intros [H|H]; [left; congruence|by right]).
Qed.
Lemma elem_of_middle {A} (x y : A) l1 l2 : x ∈ l1 ++ y :: l2 ↔ x = y ∨ x ∈ l1 ++ l2.
Proof. rewrite !elem_of_app, elem_of_cons. tauto. Qed.

Lemma omap_same (f : RecordPc → option Z) pc pc' l1 l2 :
  f pc = f pc' → omap f (l1 ++ pc :: l2) = omap f (l1 ++ pc' :: l2).
Proof. intros E. rewrite !omap_app. simpl. by rewrite E. Qed.

(** A thread goes from [pc] to [pc'] without adding its sample to a member
    other than [max_ns_]. *)
Lemma thread_step_ok c s m h l1 l2 sam pc pc' m' :
  recorders_ok (mkRecorders c s m h (l1 ++ pc :: l2) sam) →
  no_count pc = no_count pc' → no_sum pc = no_sum pc' → no_hist pc = no_hist pc' →
  (∀ x, x ∈ m' → (0 ≤ x ≤ top m')%Z) → m' ≠ [] → (top m' = top m ∨ no_hist pc = Some (top m')) →
  (top m ≤ top m')%Z →
  (∀ x, no_max pc = Some x → (x ≤ top m')%Z ∨ no_max pc' = Some x) →
  (∀ ns cur, pc' = R_cas ns cur → (cur < ns)%Z) →
  recorders_ok (mkRecorders c s m' h (l1 ++ pc' :: l2) sam).
Proof.
  intros [Hc Hs Hh Ht Hn Hf Hm Hcas Hp] E1 E2 E3 Ht' Hn' Hf' Hle Hmax Hc'. simpl in *.
  constructor; simpl; rewrite <- ?(omap_same _ _ _ l1 l2 E1), <- ?(omap_same _ _ _ l1 l2 E2),
    <- ?(omap_same _ _ _ l1 l2 E3); try done.
  - destruct Hf' as [->|Hx]; [done|]. right. apply Hp, elem_of_pending. by left.
  - intros x Hx. rewrite elem_of_pending. destruct (Hm x Hx) as [?|H]; [left; lia|].
    apply elem_of_pending in H as [H|H]; [destruct (Hmax x H); auto|auto].
  - intros ns cur [E|H]%elem_of_middle; [by eapply Hc'|]. apply Hcas, elem_of_middle. by right.
Qed.

Lemma max_test_no ns cur : no_hist (max_test ns cur) = Some ns ∧ no_count (max_test ns cur) = None ∧
  no_sum (max_test ns cur) = None.
Proof. unfold max_test. by destruct (cur <? ns)%Z. Qed.

(** A load of [max_ns_] and the test that follows. *)
Lemma max_test_ok c s m h l1 l2 sam pc ns cur :
  recorders_ok (mkRecorders c s m h (l1 ++ pc :: l2) sam) →
  no_count pc = None → no_sum pc = None → no_hist pc = Some ns → no_max pc = Some ns → cur ∈ m →
  recorders_ok (mkRecorders c s m h (l1 ++ max_test ns cur :: l2) sam).
Proof.
  intros Hok E1 E2 E3 E4 Hcur. destruct (max_test_no ns cur) as (F3 & F1 & F2).
  pose proof (ro_top _ Hok) as Ht. simpl in Ht. pose proof (Ht cur Hcur).
  apply (thread_step_ok _ _ _ _ _ _ _ _ _ _ Hok); try congruence; try done.
  - exact (ro_some _ Hok).
  - by left.
  - intros x Hx. rewrite E4 in Hx. injection Hx as <-. unfold max_test. destruct (Z.ltb_spec cur ns); [by right|left; lia].
  - intros n cur'. unfold max_test. destruct (Z.ltb_spec cur ns); [|done]. by intros [= <- <-].
Qed.

Lemma record_call_ok c s m h l1 l2 sam ns :
  recorders_ok (mkRecorders c s m h (l1 ++ R_idle :: l2) sam) →
  recorders_ok (mkRecorders c s m h (l1 ++ R_count ns :: l2) (ns :: sam)).
Proof.
  intros [Hc Hs Hh Ht Hn Hf Hm Hcas Hp]. simpl in *. constructor; simpl; try done.
  - rewrite Hc, !(lenZ_perm _ _ (omap_middle _ _ _ _)), !lenZ_app. f_equal. unfold lenZ. simpl. lia.
  - rewrite Hs, !(sumZ_perm _ _ (omap_middle _ _ _ _)), !sumZ_app. f_equal. unfold sumZ. simpl. lia.
  - rewrite Hh, !(hist_of_perm _ _ _ _ (reflexivity _) (omap_middle no_hist _ _ _)). simpl. by rewrite hist_of_both.
  - destruct Hf; [by left|right; by right].
  - intros x. rewrite elem_of_cons, elem_of_pending. intros [->|Hx]; [by right; left|].
    destruct (Hm x Hx) as [?|[?|?]%elem_of_pending]; [by left|done|by right; right].
  - intros n cur [?|?]%elem_of_middle; [done|]. apply Hcas, elem_of_middle. by right.
  - intros x [[= <-]|H]%elem_of_pending; [by left|right]. apply Hp, elem_of_pending. by right.
Qed.

Lemma record_step_ok st st' : recorders_ok st → record_step st st' → recorders_ok st'.
Proof.
  intros Hok St. destruct St as [c s m h l1 l2 sam ns Hns|c s m h l1 l2 sam ns|c s m h l1 l2 sam ns|
    c s m h l1 l2 sam ns cur Hcur|c s m h l1 l2 sam ns cur Hlast|c s m h l1 l2 sam ns cur cur' Hcur|c s m h l1 l2 sam ns].
  - by apply record_call_ok.
  - destruct Hok as [Hc Hs Hh Ht Hn Hf Hm Hcas Hp]. simpl in *. constructor; simpl; try done.
    + rewrite Hc, !(lenZ_perm _ _ (omap_middle _ _ _ _)), !lenZ_app, wrap_add_l. f_equal. unfold lenZ. simpl. lia.
    + by rewrite Hs, (omap_same no_sum (R_count ns) (R_sum ns)).
    + by rewrite Hh, (omap_same no_hist (R_count ns) (R_sum ns)).
    + intros x Hx. destruct (Hm x Hx) as [|H]; [by left|right]. by rewrite <- (omap_same no_max (R_count ns) (R_sum ns)).
    + intros n cur [?|?]%elem_of_middle; [done|]. apply Hcas, elem_of_middle. by right.
    + rewrite <- (omap_same no_hist (R_count ns) (R_sum ns)) by done. done.
  - destruct Hok as [Hc Hs Hh Ht Hn Hf Hm Hcas Hp]. simpl in *. constructor; simpl; try done.
    + by rewrite Hc, (omap_same no_count (R_sum ns) (R_load ns)).
    + rewrite Hs, !(sumZ_perm _ _ (omap_middle _ _ _ _)), !sumZ_app, wrap_add_l. f_equal. unfold sumZ. simpl. lia.
    + by rewrite Hh, (omap_same no_hist (R_sum ns) (R_load ns)).
    + intros x Hx. destruct (Hm x Hx) as [|H]; [by left|right]. by rewrite <- (omap_same no_max (R_sum ns) (R_load ns)).
    + intros n cur [?|?]%elem_of_middle; [done|]. apply Hcas, elem_of_middle. by right.
    + rewrite <- (omap_same no_hist (R_sum ns) (R_load ns)) by done. done.
  - by eapply max_test_ok.
  - pose proof (ro_cas _ Hok ns cur) as Hlt. simpl in Hlt. rewrite elem_of_middle in Hlt. specialize (Hlt (or_introl eq_refl)).
    pose proof (ro_top _ Hok) as Ht. simpl in Ht. assert (top m = cur) as Etop by (unfold top; by rewrite Hlast).
    assert (0 ≤ cur)%Z as H0 by (rewrite <- Etop; apply (Ht (top m)), top_in, (ro_some _ Hok)).
    apply (thread_step_ok _ _ _ _ _ _ _ _ _ _ Hok); rewrite ?top_snoc; try done; [|by destruct m|by right|lia|].
    + intros x [Hx| ->%list_elem_of_singleton]%elem_of_app; [|lia]. specialize (Ht x Hx). lia.
    + intros x [= <-]. by left.
  - by eapply max_test_ok.
  - destruct Hok as [Hc Hs Hh Ht Hn Hf Hm Hcas Hp]. simpl in *. constructor; simpl; try done.
    + by rewrite Hc, (omap_same no_count (R_hist ns) R_idle).
    + by rewrite Hs, (omap_same no_sum (R_hist ns) R_idle).
    + rewrite Hh, !(hist_of_perm _ _ _ _ (reflexivity _) (omap_middle no_hist _ _ _)). apply hist_of_add.
    + intros x Hx. destruct (Hm x Hx) as [|H]; [by left|right]. by rewrite <- (omap_same no_max (R_hist ns) R_idle).
    + intros n cur [?|?]%elem_of_middle; [done|]. apply Hcas, elem_of_middle. by right.
    + intros x [?|H]%elem_of_pending; [done|]. apply Hp, elem_of_pending. by right.
Qed.

Lemma recorders_ok_new n : recorders_ok (Recorders_new n).
Proof.
  assert (∀ f : RecordPc → option Z, f R_idle = None → omap f (replicate n R_idle) = []) as H.
  { intros f E. induction n as [|n IH]; [done|]. simpl. by rewrite E. }
  constructor; simpl; rewrite ?H by done; try done.
  - intros x ->%list_elem_of_singleton. unfold top. simpl. lia.
  - by left.
  - by intros x ?%elem_of_nil.
  - intros ns cur [? _]%elem_of_replicate. done.
Qed.

Lemma recorders_reachable n st : rtc record_step (Recorders_new n) st → recorders_ok st.
Proof. apply (rtc_invariant record_step recorders_ok); [apply record_step_ok|apply recorders_ok_new]. Qed.

Lemma max_foldr l m :
  m = 0%Z ∨ m ∈ l → (∀ x, x ∈ l → (x ≤ m)%Z) → (0 ≤ m)%Z → foldr Z.max 0%Z l = m.
Proof.
  intros Hin Hle H0. apply Z.le_antisymm.
  - clear Hin. induction l as [|x l IH]; simpl; [done|]. apply Z.max_lub; [apply Hle; by left|].
    apply IH. intros y Hy. apply Hle. by right.
  - clear Hle. induction l as [|x l IH]; simpl; [destruct Hin as [->|[]%elem_of_nil]; done|].
    destruct Hin as [->|[->|Hin]%elem_of_cons]; [|lia|]; [|specialize (IH (or_intror Hin)); lia].
    specialize (IH (or_introl eq_refl)). lia.
Qed.

(** All calls have returned: the tracker is that of the samples. *)
Lemma recorders_done st :
  recorders_ok st → Forall (λ pc, pc = R_idle) (rthreads st) → tracker_at st = tracker_of (samples st).
Proof.
  intros [Hc Hs Hh Ht Hn Hf Hm Hcas Hp] Hidle.
  assert (∀ f : RecordPc → option Z, f R_idle = None → omap f (rthreads st) = []) as H.
  { intros f E. clear -Hidle E. induction Hidle as [|pc l -> _ IH]; [done|]. simpl. by rewrite E. }
  rewrite !H in * by done. unfold tracker_at, tracker_of. fold (top (rmax st)). f_equal.
  - rewrite Hc. f_equal. unfold lenZ. simpl. lia.
  - rewrite Hs. f_equal. unfold sumZ. simpl. lia.
  - symmetry. apply max_foldr; [done| |by apply (Ht (top (rmax st))), top_in].
    intros x Hx. destruct (Hm x Hx) as [?|?%elem_of_nil]; done.
  - rewrite Hh. apply list_fmap_ext. intros i j _. f_equal. unfold lenZ. simpl. lia.
Qed.

Lemma foldr_max_perm l k : l ≡ₚ k → foldr Z.max 0%Z l = foldr Z.max 0%Z k.
Proof. induction 1; simpl; lia. Qed.

Lemma tracker_of_perm l k : l ≡ₚ k → tracker_of l = tracker_of k.
Proof.
  intros H. unfold tracker_of. f_equal.
  - by rewrite H.
  - by rewrite (sumZ_perm _ _ H).
  - by apply foldr_max_perm.
  - apply list_fmap_ext. intros i j _. by rewrite (in_bucket_perm j _ _ H).
Qed.

(** *** Property *)

(** C14: no sample is lost however many threads record at once.  Whatever the
    interleaving, the stale loads and the failures of the compare-exchange:
    when no call is under way, the tracker is what [record] called for the same
    samples one after the other, in any order, leaves.  Its snapshot has their
    maximum, and, modulo 2^64, their number and for each decade the number of
    samples in it; the mean is the sum modulo 2^64 divided by that count, 0
    without one.  As long as the number and the sum of the samples fit in 64
    bits, these are the number of samples, the floor of their mean and a
    histogram that counts each sample once. *)
Theorem recorders_exact n st order :
  rtc record_step (Recorders_new n) st → Forall (λ pc, pc = R_idle) (rthreads st) →
  order ≡ₚ samples st →
  tracker_at st = foldr record Tracker_new order ∧
  let s := snapshot (tracker_at st) in
  let count := u64 (Z.of_nat (length order)) in
  s_max_ns s = foldr Z.max 0%Z order ∧
  s_count s = count ∧
  s_hist s = (λ i, u64 (Z.of_nat (length (in_bucket i order)))) <$> seq 0 kBuckets ∧
  s_mean_ns s = (if (count =? 0)%Z then 0%Z else (u64 (sumZ order) / count)%Z) ∧
  (in_u 64 (Z.of_nat (length order)) → in_u 64 (sumZ order) →
   s_count s = Z.of_nat (length order) ∧
   s_mean_ns s = (sumZ order / Z.of_nat (length order))%Z ∧
   s_hist s = (λ i, Z.of_nat (length (in_bucket i order))) <$> seq 0 kBuckets ∧
   sumZ (s_hist s) = s_count s).
Proof.
  intros Hr Hidle Hp. assert (tracker_at st = foldr record Tracker_new order) as E.
  { rewrite record_all, (tracker_of_perm _ _ Hp). apply recorders_done; [|done]. by eapply recorders_reachable. }
  split; [done|]. rewrite E. cbv zeta. split_and!; try (by rewrite record_all). intros Hn Hs.
  destruct (snapshot_of_samples order Hn Hs) as (? & ? & _ & ? & ?). by split_and!.
Qed.

(** *** Witness *)

(** Two threads record 500 and 2000000; the one with the smaller sample loads
    the maximum first, its exchange fails, and it finds the larger one. *)
Definition ex_recorded : Recorders :=
  mkRecorders 2 2000500 [0; 2000000]%Z [1; 0; 0; 0; 1]%Z [R_idle; R_idle] [2000000; 500]%Z.

Lemma ex_recorded_run : rtc record_step (Recorders_new 2) ex_recorded.
Proof.
  eapply rtc_l; [apply (record_call _ _ _ _ [] [R_idle] _ 500); by compute|].
  eapply rtc_l; [apply (record_call _ _ _ _ [R_count 500] [] _ 2000000); by compute|].
  eapply rtc_l; [apply (record_count _ _ _ _ [] [R_count 2000000])|].
  eapply rtc_l; [apply (record_sum _ _ _ _ [] [R_count 2000000])|].
  eapply rtc_l; [apply (record_load _ _ _ _ [] [R_count 2000000] _ _ 0); left|].
  eapply rtc_l; [apply (record_count _ _ _ _ [R_cas 500 0] [])|].
  eapply rtc_l; [apply (record_sum _ _ _ _ [R_cas 500 0] [])|].
  eapply rtc_l; [apply (record_load _ _ _ _ [R_cas 500 0] [] _ _ 0); left|].
  eapply rtc_l; [apply (record_cas _ _ _ _ [R_cas 500 0] []); done|].
  eapply rtc_l; [apply (record_cas_fails _ _ _ _ [] [R_hist 2000000] _ _ _ 2000000); right; left|].
  eapply rtc_l; [apply (record_hist _ _ _ _ [R_hist 500] [])|].
  eapply rtc_l; [apply (record_hist _ _ _ _ [] [R_idle])|].
  apply rtc_refl.
Qed.

Lemma recorders_exact_witness :
  tracker_at ex_recorded = foldr record Tracker_new [500; 2000000]%Z ∧
  let s := snapshot (tracker_at ex_recorded) in
  s_count s = 2%Z ∧ s_mean_ns s = (2000500 / 2)%Z ∧ s_max_ns s = 2000000%Z ∧
  s_hist s = (λ i, Z.of_nat (length (in_bucket i [500; 2000000]%Z))) <$> seq 0 kBuckets.
Proof.
  destruct (recorders_exact 2 ex_recorded [500; 2000000]%Z) as (E & Hmax & _ & _ & _ & H);
    [apply ex_recorded_run|repeat constructor|apply Permutation_swap|].
  destruct H as (Hc & Hm & Hh & _); [by compute|by compute|].
  split; [exact E|]. split; [exact Hc|]. split; [exact Hm|]. split; [exact Hmax|exact Hh].
Defined.
