(* ===== verification/Matcher.v ===== *)
(** * The matcher (include/ordbk/matching/matcher.hpp, src/matching/matcher.cpp)

    [Matcher] holds references to one book and to the shared pool, and owns a
    latency tracker.  The state shared by all matchers of a process is [Sys]:
    the pool and the number of clock readings so far.  The steady clock is a
    parameter, [clock n] being the [n]-th reading. *)

From S2P Require Import Prelude StdMap Types Heap Pool PriceLevel OrderBook Latency.

Record MatchResult := mkResult {
  r_order : ptr;
  r_trades : list Trade }.

Record Matcher := mkMatcher {
  book_ : OrderBook;
  stats_ : LatencyTracker }.

Definition Matcher_new (id : InstrumentId) : Matcher := mkMatcher (Book_new id) Tracker_new.

Record Sys := mkSys {
  pool_ : Pool;
  ticks_ : nat }.

Definition prices_cross (taker_side : Side) (taker_limit maker_price : Price) : bool :=
  if is_buy taker_side then (maker_price <=? taker_limit)%Z
  else (taker_limit <=? maker_price)%Z.

(** The price test of [can_fully_fill] and [match]: a limit taker stops at the
    first price that does not cross; any other order type never does. *)
Definition stops (taker : Order) (price : Price) : bool :=
  bool_decide (type taker = Limit) &&
  negb (prices_cross (side taker) (limit_price taker) price).

(** The inner loop of [can_fully_fill]; leaving it is [return true]. *)
Definition need_body (x : ptr) (s : heap * Quantity) : res (heap * Quantity * bool) :=
  let* o := s.1 !! x in
  if (s.2 <=? remaining o)%Z then Some (s, false)
  else Some ((s.1, qty_sub s.2 (remaining o)), true).

Fixpoint walk (taker : Order) (ls : list (Price * PriceLevel)) (h : heap) (need : Quantity)
    : res bool :=
  match ls with
  | [] => Some (need =? 0)%Z
  | (price, lv) :: ls' =>
      if stops taker price then Some (need =? 0)%Z
      else
        let* (s, go) := for_level need_body lv (h, need) in
        if go : bool then walk taker ls' h s.2 else Some true
  end.

Definition can_fully_fill (taker : Order) (b : OrderBook) (h : heap) : res bool :=
  walk taker (levels (is_buy (opposite (side taker))) b) h (remaining taker).

(** [filled_qty += fill] through a pointer. *)
Definition add_fill (fill : Quantity) (o : Order) : Order :=
  set_filled_qty (qty_add (filled_qty o) fill) o.

(** [match]: one turn of the [while] loop per unit of fuel.  Each turn but the
    last takes one order off the book, and a book holds at most as many orders
    as the pool has slots. *)
Fixpoint match_loop (fuel : nat) (opp : Side) (taker : ptr) (b : OrderBook) (p : Pool)
    (trades : list Trade) : res (OrderBook * Pool * list Trade) :=
  match fuel with
  | 0 => None
  | S fuel' =>
      let* t := storage_ p !! taker in
      if (0 <? remaining t)%Z then
        match peek_top opp b with
        | None => Some (b, p, trades)
        | Some maker =>
            let* m := storage_ p !! maker in
            if stops t (limit_price m) then Some (b, p, trades)
            else
              let fill := qty_min (remaining t) (remaining m) in
              let trade_price := limit_price m in
              let* h1 := hupd (add_fill fill) taker (storage_ p) in
              let* h2 := hupd (add_fill fill) maker h1 in
              let* t2 := h2 !! taker in
              let* m2 := h2 !! maker in
              let trades' :=
                trades ++ [mkTrade (oid m2) (oid t2) (oinstrument t2) trade_price fill (ts t2)] in
              if is_fully_filled m2 then
                let* h3 := hupd (set_status Filled) maker h2 in
                let* (b', h4) := pop_top opp b h3 in
                let* p' := release maker (with_storage h4 p) in
                match_loop fuel' opp taker b' p' trades'
              else
                let* h3 := hupd (set_status PartiallyFilled) maker h2 in
                match_loop fuel' opp taker b (with_storage h3 p) trades'
        end
      else Some (b, p, trades)
  end.

Definition match_ (taker : ptr) (b : OrderBook) (p : Pool) : res (OrderBook * Pool * list Trade) :=
  let* t := storage_ p !! taker in
  match_loop (S (S (capacity p))) (opposite (side t)) taker b p [].

Section matcher.
Variable clock : nat → Z.

Definition now_ns (s : Sys) : Z * Sys := (u64 (clock (ticks_ s)), mkSys (pool_ s) (S (ticks_ s))).

Definition set_pool (p : Pool) (s : Sys) : Sys := mkSys p (ticks_ s).

(** [o->...] and an assignment to a member of [*x], through the pool. *)
Definition order_at (x : ptr) (s : Sys) : res Order := storage_ (pool_ s) !! x.
Definition order_upd (f : Order → Order) (x : ptr) (s : Sys) : res Sys :=
  let* h := hupd f x (storage_ (pool_ s)) in
  Some (set_pool (with_storage h (pool_ s)) s).

(** [reject()] *)
Definition reject (x : ptr) (m : Matcher) (s : Sys) : res (MatchResult * Matcher * Sys) :=
  let* s' := order_upd (set_status Rejected) x s in
  Some (mkResult x [], m, s').

(** The guards of [submit] that look at the order alone. *)
Definition invalid (inst : InstrumentId) (o : Order) : bool :=
  (initial_qty o =? 0)%Z ||
  negb (oinstrument o =? inst)%Z ||
  (bool_decide (type o = Limit) && (limit_price o <=? 0)%Z) ||
  (bool_decide (type o = Market) &&
     (bool_decide (tif o = GTC) || bool_decide (tif o = Day))).

(** The status and the book after [match]. *)
Definition settle (x : ptr) (b : OrderBook) (p : Pool) : res (OrderBook * Pool) :=
  let* o := storage_ p !! x in
  if is_fully_filled o then
    let* h := hupd (set_status Filled) x (storage_ p) in
    Some (b, with_storage h p)
  else if bool_decide (type o = Market) || bool_decide (tif o = IOC) then
    let st := if (0 <? filled_qty o)%Z then PartiallyFilled else Cancelled in
    let* h := hupd (set_status st) x (storage_ p) in
    Some (b, with_storage h p)
  else
    let st := if (0 <? filled_qty o)%Z then PartiallyFilled else New in
    let* h := hupd (set_status st) x (storage_ p) in
    let* (b', h') := add_resting x b h in
    Some (b', with_storage h' p).

Definition submit (x : ptr) (m : Matcher) (s : Sys) : res (MatchResult * Matcher * Sys) :=
  let (t0, s0) := now_ns s in
  let* o := order_at x s0 in
  if invalid (instrument_ (book_ m)) o then reject x m s0
  else
    let* fillable :=
      if bool_decide (tif o = FOK) then can_fully_fill o (book_ m) (storage_ (pool_ s0))
      else Some true in
    if negb fillable then reject x m s0
    else
      let* (b1, p1, trades) := match_ x (book_ m) (pool_ s0) in
      let* (b2, p2) := settle x b1 p1 in
      let (t1, s1) := now_ns (set_pool p2 s0) in
      let* s2 := order_upd (set_match_complete (i64 t1)) x s1 in
      let (t2, s3) := now_ns s2 in
      Some (mkResult x trades, mkMatcher b2 (record (u64 (t2 - t0)) (stats_ m)), s3).

Definition cancel (id : OrderId) (m : Matcher) (s : Sys) : res (bool * Matcher * Sys) :=
  let p := pool_ s in
  let* (x, b', h) := cancel_and_get id (book_ m) (storage_ p) in
  match x with
  | None => Some (false, mkMatcher b' (stats_ m), set_pool (with_storage h p) s)
  | Some x =>
      let* h1 := hupd (set_status Cancelled) x h in
      let* p' := release x (with_storage h1 p) in
      Some (true, mkMatcher b' (stats_ m), set_pool p' s)
  end.

(** The callback [cancel_all] passes to [clear_and_drain]. *)
Definition drain_callback (x : ptr) (p : Pool) : res Pool :=
  let* h := hupd (set_status Cancelled) x (storage_ p) in
  release x (with_storage h p).

Definition cancel_all (m : Matcher) (s : Sys) : res (Matcher * Sys) :=
  let* (b', p') := clear_and_drain drain_callback (book_ m) (pool_ s) in
  Some (mkMatcher b' (stats_ m), set_pool p' s).
End matcher.
