(* ===== verification/MatchSpec.v ===== *)
(** * Price-time priority: the specification of the matcher

    An abstract book is, per side, the list of its resting orders in priority
    order (best price first, oldest first within a price), links erased.
    [fills] says what a taker does to the opposite list; [a_submit],
    [a_cancel] and the insertion [a_insert] are the whole-order specification
    that [Matcher.v]'s pointer code is shown to implement. *)

From S2P Require Import Prelude StdMap Types Heap Pool PriceLevel OrderBook Latency Matcher.

Record ABook := mkABook {
  a_bids : list Order;
  a_asks : list Order }.

Definition a_side (buy : bool) (a : ABook) : list Order := if buy then a_bids a else a_asks a.
Definition set_a_side (buy : bool) (l : list Order) (a : ABook) : ABook :=
  if buy then mkABook l (a_asks a) else mkABook (a_bids a) l.

(** The fills of taker [t] against makers [ms]: trades, taker afterwards,
    makers left. *)
Fixpoint fills (t : Order) (ms : list Order) : list Trade * Order * list Order :=
  match ms with
  | [] => ([], t, [])
  | m :: ms' =>
      if (remaining t =? 0)%Z || stops t (limit_price m) then ([], t, ms)
      else
        let q := Z.min (remaining t) (remaining m) in
        let tr := mkTrade (oid m) (oid t) (oinstrument t) (limit_price m) q (ts t) in
        let t' := add_fill q t in
        if (q =? remaining m)%Z then
          let '(trs, t2, rest) := fills t' ms' in (tr :: trs, t2, rest)
        else ([tr], t', set_status PartiallyFilled (add_fill q m) :: ms')
  end.

(** Insertion behind every order that is not worse. *)
Fixpoint a_insert (buy : bool) (o : Order) (l : list Order) : list Order :=
  match l with
  | [] => [o]
  | m :: l' => if cmp buy (limit_price o) (limit_price m) then o :: l else m :: a_insert buy o l'
  end.

(** The makers a taker may trade with. *)
Fixpoint crossing (t : Order) (ms : list Order) : list Order :=
  match ms with
  | [] => []
  | m :: ms' => if stops t (limit_price m) then [] else m :: crossing t ms'
  end.

(** The abstract content of a concrete book. *)
Definition absr (h : heap) (g : GBook) : ABook :=
  mkABook (hview h (flat (gbids g))) (hview h (flat (gasks g))).

(** ** The invariant of a matcher's book within the pool *)

Record minv (p : Pool) (b : OrderBook) (g : GBook) : Prop := mkMinv {
  mi_pool : pool_ok p;
  mi_rep : book_rep (storage_ p) b g;
  mi_data : book_data_ok (storage_ p) b g;
  mi_alloc : ∀ y, y ∈ resting g → allocated p y }.

(** An order on its way in: allocated, not resting, not overfilled. *)
Record taker_ok (p : Pool) (g : GBook) (x : ptr) (t : Order) : Prop := mkTakerOk {
  to_at : storage_ p !! x = Some t;
  to_out : x ∉ resting g;
  to_alloc : allocated p x;
  to_qty : qty_ok t }.

(** ** Lemmas on single orders *)

Lemma data_add_fill q o : data (add_fill q o) = add_fill q (data o).
Proof. by destruct o. Qed.

Lemma data_set_status s o : data (set_status s o) = set_status s (data o).
Proof. by destruct o. Qed.

Lemma stops_data o p : stops (data o) p = stops o p.
Proof. by destruct o. Qed.

Lemma add_fill_qty q o :
  qty_ok o → (0 ≤ q ≤ remaining o)%Z →
  qty_ok (add_fill q o) ∧ filled_qty (add_fill q o) = (filled_qty o + q)%Z ∧
  remaining (add_fill q o) = (remaining o - q)%Z.
Proof.
  intros Hok Hq. rewrite remaining_ok in Hq by done. pose proof Hok as [[? ?] ?].
  assert (filled_qty (add_fill q o) = (filled_qty o + q)%Z) as Hf.
  { unfold add_fill, qty_add. simpl. apply wrap_small. unfold in_u. lia. }
  assert (initial_qty (add_fill q o) = initial_qty o) as Hi by done.
  assert (qty_ok (add_fill q o)) as Hok' by (unfold qty_ok, in_u; lia).
  split_and!; [done|done|]. rewrite !remaining_ok by done. lia.
Qed.

Lemma resting_ok_remaining inst o :
  resting_ok inst o → qty_ok o ∧ (0 < remaining o)%Z.
Proof. intros (_ & Hq & Hlt & _). split; [done|]. rewrite remaining_ok by done. lia. Qed.

Lemma fills_done t ms : remaining t = 0%Z → fills t ms = ([], t, ms).
Proof. intros H. destruct ms; simpl; [done|]. by rewrite H. Qed.

(** ** One turn of the matching loop: the maker is filled completely *)

Lemma minv_upd_taker p b g x t t' :
  minv p b g → taker_ok p g x t → qty_ok t' →
  minv (with_storage (<[x := t']> (storage_ p)) p) b g ∧
  taker_ok (with_storage (<[x := t']> (storage_ p)) p) g x t'.
Proof.
  intros [Hp Hr Hd Ha] [Ht Hx Hal Hq] Hq'.
  assert (length (<[x:=t']> (storage_ p)) = capacity p) as Hlen by apply length_insert.
  split; constructor; simpl; try done.
  - by apply pool_ok_with_storage.
  - by apply book_rep_upd_out.
  - intros y o Hy. rewrite list_lookup_insert_ne by set_solver. by apply Hd.
  - intros y Hy. apply allocated_with_storage; auto.
  - by apply lookup_upd_eq.
  - by apply allocated_with_storage.
Qed.

(** Writing the taker and the first maker changes the view of no other order. *)
Lemma turn_views p b g x t buy mk l ox om :
  minv p b g → taker_ok p g x t → flat (glevels buy g) = mk :: l →
  let h := <[mk := om]> (<[x := ox]> (storage_ p)) in
  hview h l = hview (storage_ p) l ∧
  hview h (flat (glevels (negb buy) g)) = hview (storage_ p) (flat (glevels (negb buy) g)).
Proof.
  intros Hi Ht Hfl h. destruct (mi_rep _ _ _ Hi) as [Hs _].
  assert (∀ buy' y, y ∈ flat (glevels buy' g) → y ≠ x) as Hx.
  { intros buy' y Hy ->. apply (to_out _ _ _ _ Ht), elem_of_resting. eauto. }
  assert (NoDup (mk :: l)) as [Hmkl _]%NoDup_cons by (rewrite <- Hfl; apply (Hs buy)).
  split; unfold h; rewrite !hview_upd_notin; try done.
  - intros Hin. apply (Hx buy x); [|done]. rewrite Hfl. by right.
  - intros Hin. by apply (Hx (negb buy) x).
  - eapply side_disjoint; [apply Hi|]. rewrite Hfl. left.
Qed.

(** Removing the indexed order [mk] keeps the index exact. *)
Lemma book_indexed_gone h h' b b' g g' mk m :
  book_indexed h b g → mk ∈ resting g → h !! mk = Some m →
  order_map_ b' = delete (oid m) (order_map_ b) →
  (∀ y o', y ∈ resting g' → h' !! y = Some o' →
     y ≠ mk ∧ y ∈ resting g ∧ ∃ o0, h !! y = Some o0 ∧ data o' = data o0) →
  book_indexed h' b' g'.
Proof.
  intros Hix Hmk Hm Hmap Hsame y o' Hy Ho'. destruct (Hsame y o' Hy Ho') as (Hne & Hr & o0 & Ho0 & E0).
  rewrite (locator_of_data _ _ _ E0), Hmap. destruct (data_inv _ _ E0) as (-> & _).
  pose proof (Hix y o0 Hr Ho0) as H1. pose proof (Hix mk m Hmk Hm) as H2.
  rewrite lookup_delete_ne; [done|]. intros Heq. rewrite Heq, H1 in H2. unfold locator_of in H2. congruence.
Qed.

(** A resting order was taken off the book and its slot released. *)
Lemma minv_released p b g p' b' g' x :
  minv p b g → pool_ok p' → length (storage_ p') = capacity p → free p' = free p ++ [x] →
  book_rep (storage_ p') b' g' → instrument_ b' = instrument_ b →
  (∀ y, y ∈ resting g' ↔ y ≠ x ∧ y ∈ resting g) →
  (∀ y o', y ∈ resting g' → storage_ p' !! y = Some o' → ∃ o0, storage_ p !! y = Some o0 ∧ data o' = data o0) →
  minv p' b' g'.
Proof.
  intros Hinv Hp' Hlen Hfree Hrep Hinst Hel Hsame. constructor; [done|done| |].
  - intros y o' Hy. rewrite Hinst. intros Ho'. destruct (Hsame _ _ Hy Ho') as (o0 & Ho0 & E0).
    eapply resting_ok_data; [symmetry; exact E0|]. eapply (mi_data _ _ _ Hinv); [|done]. by apply Hel.
  - intros y [Hy1 Hy2]%Hel. destruct (mi_alloc _ _ _ Hinv y Hy2). split; [unfold capacity; by rewrite Hlen|].
    rewrite Hfree. set_solver.
Qed.

Lemma taker_ok_released p g p' g' x t y :
  taker_ok p g x t → storage_ p' !! x = Some t → length (storage_ p') = capacity p → free p' = free p ++ [y] →
  y ≠ x → x ∉ resting g' → taker_ok p' g' x t.
Proof.
  intros [_ Hx [Hc Hxf] Hq] Hat Hlen Hfree Hne Hout. constructor; [done|done| |done].
  split; [unfold capacity; by rewrite Hlen|]. rewrite Hfree. set_solver.
Qed.

(** The filled maker leaves the book. *)
Lemma fill_maker_pop p b g x t opp mk l m q :
  minv p b g → taker_ok p g x t → flat (glevels (is_buy opp) g) = mk :: l →
  storage_ p !! mk = Some m → qty_ok (add_fill q t) →
  let h := <[mk := set_status Filled (add_fill q m)]> (<[x := add_fill q t]> (storage_ p)) in
  let g' := gdel (is_buy opp) (limit_price m) mk g in
  ∃ b' h', pop_top opp b h = Some (b', h') ∧ book_rep h' b' g' ∧
    length h' = capacity p ∧ hdata h' = hdata h ∧
    (∀ y, y ∉ resting g → h' !! y = h !! y) ∧
    instrument_ b' = instrument_ b ∧ order_map_ b' = delete (oid m) (order_map_ b) ∧
    is_buy (side m) = is_buy opp ∧
    (∀ y, y ∈ resting g' ↔ y ≠ mk ∧ y ∈ resting g) ∧
    (∀ y o', y ∈ resting g' → h' !! y = Some o' →
       ∃ o0, storage_ p !! y = Some o0 ∧ data o' = data o0).
Proof.
  intros Hinv Hto Hfl Hm Hq' h g'. set (buy := is_buy opp) in *.
  assert (mk ∈ resting g) as Hmk by (apply elem_of_resting; exists buy; rewrite Hfl; set_solver).
  assert (mk ≠ x) as Hne by (intros ->; by destruct (to_out _ _ _ _ Hto)).
  destruct (minv_upd_taker _ _ _ _ _ (add_fill q t) Hinv Hto Hq') as [Hi1 _].
  set (p1 := with_storage _ p) in *.
  assert (storage_ p1 !! mk = Some m) as Hm1 by (simpl; by rewrite list_lookup_insert_ne).
  assert (book_rep h b g) as Hrep by (eapply book_rep_upd_in; [exact Hm1|done..|apply Hi1]).
  destruct (pop_top_spec h b g opp mk l Hrep Hfl)
    as (o & b' & h' & Ho & Epop & Hrep' & Hdata & Hout & Hinst & Hmap).
  unfold h in Ho. rewrite lookup_upd_eq in Ho by eauto. simplify_eq.
  assert (is_buy (side m) = buy) as Hbuy.
  { destruct (mi_rep _ _ _ Hinv) as [Hs _].
    by destruct (rests_in_level _ _ _ _ mk m (Hs buy)) as [_ Hb]; [rewrite Hfl; set_solver|..]. }
  assert (∀ y, y ∈ resting g' ↔ y ≠ mk ∧ y ∈ resting g) as Hel.
  { intros y. unfold g'. rewrite <- Hbuy. by eapply elem_of_gdel; [apply Hinv|..]. }
  exists b', h'. split_and!; try done.
  - rewrite (hdata_length _ _ Hdata). unfold h. by rewrite !length_insert.
  - intros y o' [Hy1 Hy2]%Hel Hy. destruct (hdata_lookup_some h' h y o') as (o0 & Ho0 & E0); [done..|].
    exists o0. split; [|done]. unfold h in Ho0.
    rewrite !list_lookup_insert_ne in Ho0; [done| |done]. intros ->. by destruct (to_out _ _ _ _ Hto).
Qed.

Lemma fill_maker_step p b g x t opp mk l m q :
  minv p b g → taker_ok p g x t → flat (glevels (is_buy opp) g) = mk :: l →
  storage_ p !! mk = Some m → q = remaining m → (q ≤ remaining t)%Z →
  let h := <[mk := set_status Filled (add_fill q m)]> (<[x := add_fill q t]> (storage_ p)) in
  let g' := gdel (is_buy opp) (limit_price m) mk g in
  ∃ b' h' p', pop_top opp b h = Some (b', h') ∧ release mk (with_storage h' p) = Some p' ∧
    minv p' b' g' ∧ taker_ok p' g' x (add_fill q t) ∧
    flat (glevels (is_buy opp) g') = l ∧
    glevels (negb (is_buy opp)) g' = glevels (negb (is_buy opp)) g ∧
    hview (storage_ p') l = hview (storage_ p) l ∧
    hview (storage_ p') (flat (glevels (negb (is_buy opp)) g)) =
      hview (storage_ p) (flat (glevels (negb (is_buy opp)) g)) ∧
    free p' = free p ++ [mk] ∧ capacity p' = capacity p ∧
    (∀ y, y ∉ resting g → y ≠ x → storage_ p' !! y = storage_ p !! y) ∧
    instrument_ b' = instrument_ b ∧ order_map_ b' = delete (oid m) (order_map_ b) ∧
    (book_indexed (storage_ p) b g → book_indexed (storage_ p') b' g').
Proof.
  intros Hinv Hto Hfl Hm -> Hq h g'. set (buy := is_buy opp) in *.
  assert (mk ∈ resting g) as Hmk by (apply elem_of_resting; exists buy; rewrite Hfl; set_solver).
  assert (mk ≠ x) as Hne by (intros ->; by destruct (to_out _ _ _ _ Hto)).
  destruct (resting_ok_remaining _ _ (mi_data _ _ _ Hinv _ _ Hmk Hm)) as [Hmq Hmr].
  destruct (add_fill_qty (remaining m) t (to_qty _ _ _ _ Hto)) as (Hq' & _ & _); [lia|].
  destruct (minv_upd_taker _ _ _ _ _ (add_fill (remaining m) t) Hinv Hto Hq') as [_ Ht1].
  set (p1 := with_storage _ p) in *.
  destruct (fill_maker_pop p b g x t opp mk l m (remaining m) Hinv Hto Hfl Hm Hq')
    as (b' & h' & Epop & Hrep' & Hlen & Hdata & Hout & Hinst & Hmap & Hbuy & Hel & Hsame).
  fold buy g' in Hbuy, Hel, Hsame, Hrep'.
  destruct (release_spec (with_storage h' p) mk) as (p' & Erel & Hp' & Hfree & Hst).
  { by apply pool_ok_with_storage, Hinv. }
  { apply allocated_with_storage; [done|]. by apply Hinv. }
  simpl in Hst. rewrite free_with_storage in Hfree.
  exists b', h', p'. split_and!; try done.
  - eapply (minv_released p b g); rewrite ?Hst; done.
  - eapply (taker_ok_released p1); rewrite ?Hst; try done.
    + rewrite Hout by apply Hto. unfold h. rewrite list_lookup_insert_ne by done. apply Ht1.
    + rewrite Hlen. unfold capacity. simpl. by rewrite length_insert.
    + by intros [_ Hy]%Hel; apply Hto.
  - pose proof (gdel_filter _ _ _ _ _ buy (mi_rep _ _ _ Hinv) Hmk Hm) as E. rewrite Hbuy in E.
    unfold g'. rewrite E, Hfl. apply (filter_ne_middle mk [] l). rewrite <- Hfl. apply (mi_rep _ _ _ Hinv).
  - apply gdel_other.
  - rewrite Hst, (hview_hdata h' h) by done. by eapply turn_views.
  - rewrite Hst, (hview_hdata h' h) by done. by eapply turn_views.
  - unfold capacity. by rewrite Hst, Hlen.
  - intros y Hy Hyx. rewrite Hst, Hout by done. unfold h.
    rewrite !list_lookup_insert_ne by (done || set_solver). done.
  - intros Hix. rewrite Hst. eapply book_indexed_gone; [done|done|done|done|]. intros y o' Hy Ho'.
    destruct (proj1 (Hel y) Hy). split_and!; [done|done|]. by apply Hsame.
Qed.

(** ** One turn of the matching loop: the maker is filled in part *)

Lemma partial_maker_step p b g x t opp mk l m q :
  minv p b g → taker_ok p g x t → flat (glevels (is_buy opp) g) = mk :: l →
  storage_ p !! mk = Some m → q = remaining t → (0 < q < remaining m)%Z →
  let m' := set_status PartiallyFilled (add_fill q m) in
  let p' := with_storage (<[mk := m']> (<[x := add_fill q t]> (storage_ p))) p in
  minv p' b g ∧ taker_ok p' g x (add_fill q t) ∧
  hview (storage_ p') (mk :: l) = data m' :: hview (storage_ p) l ∧
  hview (storage_ p') (flat (glevels (negb (is_buy opp)) g)) =
    hview (storage_ p) (flat (glevels (negb (is_buy opp)) g)) ∧
  (∀ y, y ∉ resting g → y ≠ x → storage_ p' !! y = storage_ p !! y) ∧
  (book_indexed (storage_ p) b g → book_indexed (storage_ p') b g).
Proof.
  intros Hinv Hto Hfl Hm -> Hq m' p'. set (buy := is_buy opp) in *.
  assert (mk ∈ resting g) as Hmk by (apply elem_of_resting; exists buy; rewrite Hfl; set_solver).
  assert (mk ≠ x) as Hne by (intros ->; by destruct (to_out _ _ _ _ Hto)).
  pose proof (mi_data _ _ _ Hinv _ _ Hmk Hm) as Hmok.
  destruct (resting_ok_remaining _ _ Hmok) as [Hmq Hmr].
  destruct (add_fill_qty (remaining t) t (to_qty _ _ _ _ Hto)) as (Hq' & _ & _); [lia|].
  destruct (add_fill_qty (remaining t) m Hmq) as (Hmq' & Hmf & Hmr'); [lia|].
  destruct (minv_upd_taker _ _ _ _ _ (add_fill (remaining t) t) Hinv Hto Hq') as [Hi1 Ht1].
  set (p1 := with_storage (<[x := add_fill (remaining t) t]> (storage_ p)) p) in *.
  assert (storage_ p1 !! mk = Some m) as Hm1 by (simpl; by rewrite list_lookup_insert_ne).
  assert (length (storage_ p') = capacity p) as Hlen by (simpl; by rewrite !length_insert).
  split_and!.
  - constructor.
    + apply pool_ok_with_storage; [done|apply Hinv].
    + eapply book_rep_upd_in; [exact Hm1|done..|apply Hi1].
    + intros y o Hy. simpl. change (<[x:=_]> (storage_ p)) with (storage_ p1).
      rewrite lookup_upd by eauto. case_decide; [|by apply (mi_data _ _ _ Hi1)].
      intros [= <-]. subst y. destruct Hmok as (Hmi & _ & _ & _).
      split_and!; [done|done| |].
      * change (filled_qty m') with (filled_qty (add_fill (remaining t) m)).
        change (initial_qty m') with (initial_qty m).
        rewrite (remaining_ok m) in Hq by done. lia.
      * change (status m') with PartiallyFilled.
        change (filled_qty m') with (filled_qty (add_fill (remaining t) m)).
        destruct Hmq as [_ ?]. destruct (Z.ltb_spec 0 (filled_qty (add_fill (remaining t) m))); [done|lia].
    + intros y Hy. apply allocated_with_storage; [done|]. by apply Hinv.
  - destruct Hto as [Ht Hx Hal _]. constructor; [|done| |done].
    + simpl. rewrite list_lookup_insert_ne by done. by apply lookup_upd_eq.
    + by apply allocated_with_storage.
  - simpl. rewrite (hview_cons _ _ _ m') by (apply lookup_upd_eq; eauto). f_equal. by eapply turn_views.
  - simpl. by eapply turn_views.
  - intros y Hy Hyx. simpl. rewrite !list_lookup_insert_ne by (done || set_solver). done.
  - intros Hix y o Hy. simpl. change (<[x:=_]> (storage_ p)) with (storage_ p1).
    rewrite lookup_upd by eauto. case_decide as Hd.
    + intros [= <-]. subst y. by apply (Hix mk m).
    + simpl. rewrite list_lookup_insert_ne; [by apply Hix|].
      intros ->. by destruct (to_out _ _ _ _ Hto).
Qed.

(** ** The matching loop implements [fills] *)

(** [loop_post]: what the loop leaves behind when [k] makers are consumed. *)
Record loop_post (buy : bool) (p : Pool) (b : OrderBook) (g : GBook) (x : ptr) (rest : list Order)
    (t' : Order) (k : nat) (p' : Pool) (b' : OrderBook) (g' : GBook) (t1 : Order) : Prop := {
  lp_inv : minv p' b' g';
  lp_taker : taker_ok p' g' x t1;
  lp_data : data t1 = t';
  lp_flat : flat (glevels buy g') = drop k (flat (glevels buy g));
  lp_other : glevels (negb buy) g' = glevels (negb buy) g;
  lp_view : hview (storage_ p') (flat (glevels buy g')) = rest;
  lp_free : free p' = free p ++ take k (flat (glevels buy g));
  lp_cap : capacity p' = capacity p;
  lp_frame : ∀ y, y ∉ resting g → y ≠ x → storage_ p' !! y = storage_ p !! y;
  lp_other_view : hview (storage_ p') (flat (glevels (negb buy) g)) =
    hview (storage_ p) (flat (glevels (negb buy) g));
  lp_inst : instrument_ b' = instrument_ b;
  lp_map : order_map_ b' ⊆ order_map_ b;
  lp_index : book_indexed (storage_ p) b g → book_indexed (storage_ p') b' g' }.

Lemma loop_post_refl buy p b g x t :
  minv p b g → taker_ok p g x t →
  loop_post buy p b g x (hview (storage_ p) (flat (glevels buy g))) (data t) 0 p b g t.
Proof. intros Hi Ht. constructor; try done. by rewrite take_0, app_nil_r. Qed.

Lemma loop_post_step buy p b g x rest t' k p1 b1 g1 mk l p' b' g' t1 :
  flat (glevels buy g) = mk :: l → flat (glevels buy g1) = l →
  glevels (negb buy) g1 = glevels (negb buy) g →
  hview (storage_ p1) (flat (glevels (negb buy) g)) =
    hview (storage_ p) (flat (glevels (negb buy) g)) →
  free p1 = free p ++ [mk] → capacity p1 = capacity p →
  (∀ y, y ∉ resting g → y ≠ x → storage_ p1 !! y = storage_ p !! y) →
  instrument_ b1 = instrument_ b → order_map_ b1 ⊆ order_map_ b →
  (book_indexed (storage_ p) b g → book_indexed (storage_ p1) b1 g1) →
  loop_post buy p1 b1 g1 x rest t' k p' b' g' t1 →
  loop_post buy p b g x rest t' (S k) p' b' g' t1.
Proof.
  intros Hfl Hfl1 Hoth Hov Hfree Hcap Hfr Hinst Hmap Hix
    [Li Lt Ld Lf Lo Lv Lfr Lc Lframe Lov Lin Lm Lix].
  assert (∀ y, y ∉ resting g → y ∉ resting g1) as Hsub.
  { intros y Hy Hy1. apply Hy. rewrite (elem_of_resting_split buy) in Hy1 |- *.
    rewrite Hfl1, Hoth in Hy1. rewrite Hfl. set_solver. }
  constructor; try done.
  - by rewrite Lf, Hfl1, Hfl.
  - by rewrite Lo.
  - rewrite Lfr, Hfree, Hfl1, Hfl. simpl. by rewrite <- app_assoc.
  - by rewrite Lc.
  - intros y Hy Hyx. rewrite Lframe by auto. auto.
  - rewrite <- Hoth. rewrite Lov. by rewrite Hoth.
  - by rewrite Lin.
  - by etrans.
  - auto.
Qed.

(** ** One turn of the loop *)

(** The loop ends, or it has traded; [Some maker] is to be released. *)
Inductive turned :=
| T_stop
| T_trade (b : OrderBook) (h : heap) (tr : Trade) (filled : option ptr).

Definition turn (opp : Side) (taker : ptr) (b : OrderBook) (h : heap) : res turned :=
  let* t := h !! taker in
  if (0 <? remaining t)%Z then
    match peek_top opp b with
    | None => Some T_stop
    | Some maker =>
        let* m := h !! maker in
        if stops t (limit_price m) then Some T_stop
        else
          let fill := qty_min (remaining t) (remaining m) in
          let trade_price := limit_price m in
          let* h1 := hupd (add_fill fill) taker h in
          let* h2 := hupd (add_fill fill) maker h1 in
          let* t2 := h2 !! taker in
          let* m2 := h2 !! maker in
          let tr := mkTrade (oid m2) (oid t2) (oinstrument t2) trade_price fill (ts t2) in
          if is_fully_filled m2 then
            let* h3 := hupd (set_status Filled) maker h2 in
            let* (b', h4) := pop_top opp b h3 in
            Some (T_trade b' h4 tr (Some maker))
          else
            let* h3 := hupd (set_status PartiallyFilled) maker h2 in
            Some (T_trade b h3 tr None)
    end
  else Some T_stop.

(** [pool_.release(maker)] at the end of a turn. *)
Definition release_filled (filled : option ptr) (p : Pool) : res Pool :=
  match filled with Some maker => release maker p | None => Some p end.

(** [match] is its turns, one after the other. *)
Lemma match_loop_turn fuel opp x b p trades :
  match_loop (S fuel) opp x b p trades =
    let* r := turn opp x b (storage_ p) in
    match r with
    | T_stop => Some (b, p, trades)
    | T_trade b' h tr filled =>
        let* p' := release_filled filled (with_storage h p) in
        match_loop fuel opp x b' p' (trades ++ [tr])
    end.
Proof.
  unfold turn, release_filled. simpl. repeat case_match; simplify_eq/=; done.
Qed.

(** One turn of the loop: it ends, ... *)
Lemma turn_stop opp x b h t :
  h !! x = Some t →
  remaining t = 0%Z ∨ peek_top opp b = None ∨
    (∃ mk m, peek_top opp b = Some mk ∧ h !! mk = Some m ∧ stops t (limit_price m) = true) →
  turn opp x b h = Some T_stop.
Proof.
  intros Ht H. unfold turn. rewrite Ht. destruct H as [->|[->|(mk & m & -> & -> & ->)]]; [done|by case_match..].
Qed.

Lemma match_stop fuel opp x b p t trades :
  storage_ p !! x = Some t →
  remaining t = 0%Z ∨ peek_top opp b = None ∨
    (∃ mk m, peek_top opp b = Some mk ∧ storage_ p !! mk = Some m ∧ stops t (limit_price m) = true) →
  match_loop (S fuel) opp x b p trades = Some (b, p, trades).
Proof. intros Ht H. by rewrite match_loop_turn, (turn_stop opp x b (storage_ p) t Ht H). Qed.

(** ... or it trades with the first maker, which is filled or not. *)
Lemma turn_trades opp x b p g t mk m :
  minv p b g → taker_ok p g x t → peek_top opp b = Some mk → mk ∈ resting g →
  storage_ p !! mk = Some m → (0 < remaining t)%Z → stops t (limit_price m) = false →
  let q := Z.min (remaining t) (remaining m) in
  let h := <[x := add_fill q t]> (storage_ p) in
  let tr := mkTrade (oid m) (oid t) (oinstrument t) (limit_price m) q (ts t) in
  turn opp x b (storage_ p) =
    if (q =? remaining m)%Z then
      let* (b', h') := pop_top opp b (<[mk := set_status Filled (add_fill q m)]> h) in
      Some (T_trade b' h' tr (Some mk))
    else Some (T_trade b (<[mk := set_status PartiallyFilled (add_fill q m)]> h) tr None).
Proof.
  intros Hi Ht Hpk Hmk Hm Hpos Hst q h tr.
  assert (mk ≠ x) as Hne by (intros ->; by destruct (to_out _ _ _ _ Ht)).
  destruct (resting_ok_remaining _ _ (mi_data _ _ _ Hi _ _ Hmk Hm)) as [Hmq Hmr].
  destruct (add_fill_qty q m Hmq) as (Hmq' & _ & Hmr'); [lia|].
  unfold turn. rewrite (to_at _ _ _ _ Ht), (proj2 (Z.ltb_lt _ _) Hpos), Hpk, Hm, Hst, qty_min_Z. fold q.
  rewrite (hupd_some _ _ _ _ (to_at _ _ _ _ Ht)). fold h.
  assert (h !! mk = Some m) as Hm1 by (unfold h; by rewrite list_lookup_insert_ne).
  assert (h !! x = Some (add_fill q t)) as Hx1 by (apply lookup_upd_eq; eexists; apply Ht).
  rewrite (hupd_some _ _ _ _ Hm1), list_lookup_insert_ne by done.
  rewrite Hx1, (lookup_upd_eq mk) by eauto.
  rewrite (fully_filled_ok _ Hmq'), Hmr'.
  rewrite (hupd_some (set_status Filled) mk _ (add_fill q m)),
    (hupd_some (set_status PartiallyFilled) mk _ (add_fill q m)), !list_insert_insert_eq
    by (apply lookup_upd_eq; eauto).
  replace (remaining m - q =? 0)%Z with (q =? remaining m)%Z; [done|].
  destruct (Z.eqb_spec q (remaining m)), (Z.eqb_spec (remaining m - q) 0); lia.
Qed.

Lemma match_turn fuel opp x b p g t mk m trades :
  minv p b g → taker_ok p g x t → peek_top opp b = Some mk → mk ∈ resting g →
  storage_ p !! mk = Some m → (0 < remaining t)%Z → stops t (limit_price m) = false →
  let q := Z.min (remaining t) (remaining m) in
  let h := <[x := add_fill q t]> (storage_ p) in
  let trades' := trades ++ [mkTrade (oid m) (oid t) (oinstrument t) (limit_price m) q (ts t)] in
  match_loop (S fuel) opp x b p trades =
    if (q =? remaining m)%Z then
      let* (b', h') := pop_top opp b (<[mk := set_status Filled (add_fill q m)]> h) in
      let* p' := release mk (with_storage h' p) in
      match_loop fuel opp x b' p' trades'
    else
      match_loop fuel opp x b
        (with_storage (<[mk := set_status PartiallyFilled (add_fill q m)]> h) p) trades'.
Proof.
  intros Hi Ht Hpk Hmk Hm Hpos Hst q h trades'. rewrite match_loop_turn.
  rewrite (turn_trades opp x b p g t mk m Hi Ht Hpk Hmk Hm Hpos Hst). cbn zeta. fold q h.
  destruct (q =? remaining m)%Z; [|done]. by destruct (pop_top _ _ _) as [[b' h']|].
Qed.

(** The taker is filled by part of the first maker: the loop ends. *)
Lemma match_loop_partial fuel opp x b p g t mk l m q trades :
  let m' := set_status PartiallyFilled (add_fill q m) in
  let p1 := with_storage (<[mk := m']> (<[x := add_fill q t]> (storage_ p))) p in
  minv p b g → taker_ok p g x t → flat (glevels (is_buy opp) g) = mk :: l →
  storage_ p !! mk = Some m → q = remaining t → (0 < q < remaining m)%Z →
  ∃ k b' p' g' t1, match_loop (S fuel) opp x b p1 trades = Some (b', p', trades) ∧
    loop_post (is_buy opp) p b g x (data m' :: hview (storage_ p) l) (data (add_fill q t)) k p' b' g' t1.
Proof.
  intros m' p1 Hi Ht Hxs Hm Hq Hlt.
  destruct (partial_maker_step p b g x t opp mk l m q Hi Ht Hxs Hm Hq Hlt)
    as (Hi1 & Ht1 & Hv1 & Hov1 & Hfr1 & Hix1). fold m' p1 in Hi1, Ht1, Hv1, Hov1, Hfr1, Hix1.
  pose proof (remaining_bounds _ (to_qty _ _ _ _ Ht)) as Htb.
  rewrite (match_stop _ _ _ _ _ (add_fill q t));
    [|apply Ht1|left; destruct (add_fill_qty q t (to_qty _ _ _ _ Ht)) as (_ & _ & ->); lia].
  exists 0, b, p1, g, (add_fill q t). split; [done|].
  pose proof (loop_post_refl (is_buy opp) p1 b g x _ Hi1 Ht1) as []. constructor; try done.
  - by rewrite Hxs, Hv1.
  - unfold capacity. simpl. by rewrite !length_insert.
Qed.

Lemma match_loop_spec fuel opp x b p g t trades :
  minv p b g → taker_ok p g x t → is_buy opp = negb (is_buy (side t)) →
  length (flat (glevels (is_buy opp) g)) < fuel →
  let '(trs, t', rest) := fills (data t) (hview (storage_ p) (flat (glevels (is_buy opp) g))) in
  ∃ k b' p' g' t1, match_loop fuel opp x b p trades = Some (b', p', trades ++ trs) ∧
    loop_post (is_buy opp) p b g x rest t' k p' b' g' t1.
Proof.
  set (buy := is_buy opp). intros Hi Ht Hop. remember (flat (glevels buy g)) as xs eqn:Hxs.
  revert fuel b p g t trades Hi Ht Hop Hxs.
  induction xs as [|mk l IH]; intros fuel b p g t trades Hi Ht Hop Hxs Hfuel;
    (destruct fuel as [|fuel]; simpl in Hfuel; [lia|]);
    pose proof (peek_top_spec _ _ _ opp (mi_rep _ _ _ Hi)) as Hpk; fold buy in Hpk;
    rewrite <- Hxs in Hpk; pose proof (to_at _ _ _ _ Ht) as Hat;
    pose proof (loop_post_refl buy p b g x t Hi Ht) as L0; rewrite <- Hxs in L0.
  - exists 0, b, p, g, t. rewrite app_nil_r. split; [|done]. apply (match_stop _ _ _ _ _ t); auto.
  - assert (mk ∈ resting g) as Hmk by (apply elem_of_resting; exists buy; rewrite <- Hxs; set_solver).
    destruct (book_rep_lookup _ _ _ _ (mi_rep _ _ _ Hi) Hmk) as [m Hm].
    destruct (resting_ok_remaining _ _ (mi_data _ _ _ Hi _ _ Hmk Hm)) as [Hmq Hmr].
    pose proof (remaining_bounds _ (to_qty _ _ _ _ Ht)) as Htb.
    rewrite (hview_cons _ _ _ _ Hm) in L0 |- *. simpl fills. rewrite data_remaining, stops_data.
    change (limit_price (data m)) with (limit_price m). rewrite data_remaining.
    destruct (Z.eqb_spec (remaining t) 0) as [Hz|Hz]; cbn [orb].
    { exists 0, b, p, g, t. rewrite app_nil_r. split; [|done]. apply (match_stop _ _ _ _ _ t); auto. }
    destruct (stops t (limit_price m)) eqn:Estop.
    { exists 0, b, p, g, t. rewrite app_nil_r. split; [|done]. apply (match_stop _ _ _ _ _ t); eauto 10. }
    rewrite (match_turn fuel opp x b p g t mk m trades) by (done || lia).
    set (q := Z.min (remaining t) (remaining m)).
    destruct (Z.eqb_spec q (remaining m)) as [Hq|Hq].
    + destruct (fill_maker_step p b g x t opp mk l m q Hi Ht (eq_sym Hxs) Hm Hq)
        as (b1 & h1 & p1 & -> & -> & Hi1 & Ht1 & Hfl1 & Hoth1 & Hv1 & Hov1 & Hfree1 & Hcap1 & Hfr1 & Hin1 & Hmap1 & Hix1);
        [lia|].
      specialize (IH fuel b1 p1 _ _ (trades ++ [mkTrade (oid m) (oid t) (oinstrument t) (limit_price m) q (ts t)])
                    Hi1 Ht1 Hop (eq_sym Hfl1) ltac:(lia)).
      rewrite Hv1, data_add_fill in IH.
      destruct (fills (add_fill q (data t)) (hview (storage_ p) l)) as [[trs t'] rest].
      destruct IH as (k & b' & p' & g' & t1 & E & L). exists (S k), b', p', g', t1.
      split; [rewrite <- app_assoc in E; exact E|].
      eapply loop_post_step; [..|exact L]; try done. rewrite Hmap1. apply delete_subseteq.
    + destruct fuel as [|fuel]; [lia|].
      rewrite <- (data_add_fill q t), <- (data_add_fill q m), <- data_set_status.
      apply match_loop_partial; [done|done|by symmetry|done|lia..].
Qed.

Lemma resting_length p b g buy : minv p b g → length (flat (glevels buy g)) ≤ capacity p.
Proof.
  intros [_ [Hs Hm] _ Ha]. apply NoDup_bound; [apply (Hs buy)|].
  intros x Hx. apply Ha, elem_of_resting. eauto.
Qed.

Lemma match_spec x b p g t :
  minv p b g → taker_ok p g x t →
  let buy := negb (is_buy (side t)) in
  let '(trs, t', rest) := fills (data t) (hview (storage_ p) (flat (glevels buy g))) in
  ∃ k b' p' g' t1, match_ x b p = Some (b', p', trs) ∧
    loop_post buy p b g x rest t' k p' b' g' t1.
Proof.
  intros Hi Ht buy. unfold match_. rewrite (to_at _ _ _ _ Ht).
  pose proof (resting_length p b g buy Hi) as Hlen.
  pose proof (match_loop_spec (S (S (capacity p))) (opposite (side t)) x b p g t [] Hi Ht) as H.
  rewrite is_buy_opposite in H. subst buy. apply H; [done|lia].
Qed.

(** ** [can_fully_fill] compares the open quantity with the crossing makers *)

Lemma qty_total_cons o l : qty_total (o :: l) = (remaining o + qty_total l)%Z.
Proof. done. Qed.

Lemma qty_total_app l1 l2 : qty_total (l1 ++ l2) = (qty_total l1 + qty_total l2)%Z.
Proof. unfold qty_total. by rewrite fmap_app, sumZ_app. Qed.

Lemma qty_total_nonneg h xs :
  (∀ x o, x ∈ xs → h !! x = Some o → qty_ok o) → (0 ≤ qty_total (hview h xs))%Z.
Proof.
  intros Hx. apply sumZ_nonneg, Forall_forall. intros z Hz.
  apply list_elem_of_fmap in Hz as (o & -> & Ho).
  apply list_elem_of_omap in Ho as (x & Hx1 & Hx2).
  destruct (h !! x) as [o'|] eqn:E; [|done]. injection Hx2 as <-.
  rewrite data_remaining. by apply remaining_bounds, (Hx x).
Qed.

Lemma need_loop h xs need :
  (∀ x, x ∈ xs → ∃ o, h !! x = Some o ∧ qty_ok o) → in_u 64 need →
  ∃ need' go, loop_list need_body xs (h, need) = Some ((h, need'), go) ∧
    if go : bool then in_u 64 need' ∧ need' = (need - qty_total (hview h xs))%Z
    else xs ≠ [] ∧ (need ≤ qty_total (hview h xs))%Z.
Proof.
  revert need. induction xs as [|x xs IH]; intros need Hx Hn; simpl.
  { exists need, true. split; [done|]. split; [done|]. unfold qty_total. simpl. lia. }
  destruct (Hx x) as (o & Ho & Hq); [set_solver|]. unfold need_body at 1. simpl.
  rewrite Ho, (hview_cons _ _ _ _ Ho), qty_total_cons, data_remaining.
  pose proof (remaining_bounds _ Hq).
  destruct (Z.leb_spec need (remaining o)).
  - exists need, false. split; [done|]. split; [done|].
    assert (0 ≤ qty_total (hview h xs))%Z; [|lia]. apply qty_total_nonneg.
    intros y oy Hy Hoy. destruct (Hx y) as (? & ? & ?); [set_solver|]. by simplify_eq.
  - unfold in_u in Hn. unfold qty_sub. rewrite wrap_small by (unfold in_u; lia).
    destruct (IH (need - remaining o)%Z) as (need' & go & E & Hgo); [set_solver|unfold in_u; lia|].
    exists need', go. rewrite E. split; [done|]. destruct go; [|split; [done|lia]].
    destruct Hgo. split; [done|lia].
Qed.

Lemma crossing_elem t o l : o ∈ crossing t l → o ∈ l.
Proof.
  induction l as [|m l IH]; simpl; [done|]. destruct (stops t (limit_price m)); set_solver.
Qed.

Lemma crossing_level t p xs h l :
  (∀ x, x ∈ xs → ∃ o, h !! x = Some o ∧ limit_price o = p) → xs ≠ [] →
  crossing t (hview h xs ++ l) = if stops t p then [] else hview h xs ++ crossing t l.
Proof.
  intros Hx Hne. induction xs as [|x xs IH]; [done|].
  destruct (Hx x) as (o & Ho & Hp); [set_solver|]. rewrite (hview_cons _ _ _ _ Ho). simpl.
  change (limit_price (data o)) with (limit_price o). rewrite Hp.
  destruct (stops t p) eqn:E; [done|]. f_equal. destruct xs as [|y xs]; [done|].
  apply IH; [set_solver|done].
Qed.

Lemma walk_spec t h ls g need :
  map_rel (λ _, level_rep h) ls g →
  (∀ p xs, (p, xs) ∈ g → xs ≠ [] ∧
     ∀ x, x ∈ xs → ∃ o, h !! x = Some o ∧ limit_price o = p ∧ qty_ok o) →
  in_u 64 need →
  walk t ls h need = Some (need <=? qty_total (crossing t (hview h (flat g))))%Z.
Proof.
  intros Hm. revert need. induction Hm as [|[p lv] [p' xs] ls g [Hp Hl] Hm IH]; intros need Hg Hn.
  { simpl. f_equal. unfold in_u in Hn. unfold qty_total. simpl.
    destruct (Z.eqb_spec need 0), (Z.leb_spec need 0); lia || done. }
  simpl in Hp, Hl. subst p'. destruct (Hg p xs) as [Hne Hx]; [set_solver|].
  rewrite flat_cons, hview_app, (crossing_level t p xs)
    by (try done; intros x Hin; destruct (Hx x Hin) as (o & ? & ? & _); eauto).
  simpl. destruct (stops t p).
  { f_equal. unfold in_u in Hn. unfold qty_total. simpl.
    destruct (Z.eqb_spec need 0), (Z.leb_spec need 0); lia || done. }
  rewrite (for_level_list need_body lv xs); [|done|].
  2:{ intros x [h0 q] s' go. unfold need_body. simpl. destruct (h0 !! x); [|done].
      case_match; by intros [= <- <-]. }
  destruct (need_loop h xs need) as (need' & go & -> & Hgo); [|done|].
  { intros x Hin. destruct (Hx x Hin) as (o & ? & _ & ?). eauto. }
  rewrite qty_total_app. destruct go.
  - destruct Hgo as [Hn' ->]. simpl. rewrite IH; [|intros; apply Hg; set_solver|done]. f_equal.
    destruct (Z.leb_spec (need - qty_total (hview h xs)) (qty_total (crossing t (hview h (flat g)))));
      destruct (Z.leb_spec need (qty_total (hview h xs) + qty_total (crossing t (hview h (flat g)))));
      lia || done.
  - assert (0 ≤ qty_total (crossing t (hview h (flat g))))%Z.
    { apply sumZ_nonneg, Forall_forall. intros z Hz.
      apply list_elem_of_fmap in Hz as (o & -> & Ho).
      apply crossing_elem, list_elem_of_omap in Ho as (x & Hx1 & Hx2).
      apply elem_of_flat in Hx1 as (q & ys & Hq & Hy).
      destruct (Hg q ys) as [_ Hy']; [set_solver|]. destruct (Hy' x Hy) as (o' & Ho' & _ & Hok).
      rewrite Ho' in Hx2. injection Hx2 as <-. rewrite data_remaining. by apply remaining_bounds. }
    f_equal. symmetry. apply Z.leb_le. lia.
Qed.

Lemma can_fully_fill_spec p b g t :
  minv p b g → qty_ok t →
  can_fully_fill t b (storage_ p) =
  Some (remaining t <=? qty_total (crossing t
          (hview (storage_ p) (flat (glevels (negb (is_buy (side t))) g)))))%Z.
Proof.
  intros [_ Hr Hd _] Hq. destruct (Hr) as [Hs _]. unfold can_fully_fill.
  rewrite is_buy_opposite. destruct (Hs (negb (is_buy (side t)))) as (Hm & _ & _ & Hat).
  apply walk_spec; [done| |by apply remaining_bounds].
  intros pr xs Hp. destruct (Hat pr xs Hp) as [Hne Hx]. split; [done|].
  intros x Hin. destruct (Hx x Hin) as (o & Ho & ? & _). exists o. split_and!; try done.
  eapply resting_ok_remaining, (Hd x o); [|done].
  apply elem_of_resting. eexists. apply elem_of_flat. eauto.
Qed.
