(* ===== verification/SubmitSpec.v ===== *)
(** * The whole-order specification and its refinement

    [a_submit] and [a_cancel] say what a matcher does to an abstract book;
    the lemmas show that the pointer code of [Matcher.v] does exactly that,
    keeps the invariant [minv], touches no order outside the book but the
    taker, and gives back to the pool exactly the makers it filled. *)

From S2P Require Import Prelude StdMap Types Heap Pool PriceLevel OrderBook Latency Matcher.
From S2P Require Import MatchSpec.

(** Status, timestamp and resting of the taker after matching. *)
Definition a_settle (tm : Timestamp) (o : Order) (a : ABook) : ABook * Order :=
  if is_fully_filled o then (a, set_match_complete tm (set_status Filled o))
  else if bool_decide (type o = Market) || bool_decide (tif o = IOC) then
    (a, set_match_complete tm
          (set_status (if (0 <? filled_qty o)%Z then PartiallyFilled else Cancelled) o))
  else
    let o' := set_match_complete tm
                (set_status (if (0 <? filled_qty o)%Z then PartiallyFilled else New) o) in
    let buy := is_buy (side o) in
    (set_a_side buy (a_insert buy o' (a_side buy a)) a, o').

Definition a_submit (inst : InstrumentId) (tm : Timestamp) (o : Order) (a : ABook)
    : ABook * Order * list Trade :=
  let opp := negb (is_buy (side o)) in
  if invalid inst o then (a, set_status Rejected o, [])
  else if bool_decide (tif o = FOK) &&
          negb (remaining o <=? qty_total (crossing o (a_side opp a)))%Z
  then (a, set_status Rejected o, [])
  else
    let '(trs, o1, rest) := fills o (a_side opp a) in
    let (a2, o2) := a_settle tm o1 (set_a_side opp rest a) in
    (a2, o2, trs).

Definition a_cancel (id : OrderId) (a : ABook) : ABook :=
  mkABook (filter (λ o, oid o ≠ id) (a_bids a)) (filter (λ o, oid o ≠ id) (a_asks a)).

(** ** Abstract views *)

Lemma absr_side h g buy : a_side buy (absr h g) = hview h (flat (glevels buy g)).
Proof. by destruct buy. Qed.

Lemma absr_ext h g a : (∀ buy, hview h (flat (glevels buy g)) = a_side buy a) → absr h g = a.
Proof.
  intros H. destruct a as [ab aa]. unfold absr. f_equal; [apply (H true)|apply (H false)].
Qed.

Lemma a_side_set buy buy' l a :
  a_side buy (set_a_side buy' l a) = if Bool.eqb buy buy' then l else a_side buy a.
Proof. by destruct buy, buy'. Qed.

Lemma a_insert_app buy o l1 l2 :
  (∀ m, m ∈ l1 → cmp buy (limit_price o) (limit_price m) = false) →
  (∀ m, m ∈ l2 → cmp buy (limit_price o) (limit_price m) = true) →
  a_insert buy o (l1 ++ l2) = l1 ++ o :: l2.
Proof.
  intros H1 H2. induction l1 as [|m l1 IH]; simpl.
  - destruct l2 as [|m l2]; [done|]. simpl. by rewrite H2 by set_solver.
  - rewrite H1 by set_solver. rewrite IH; [done|set_solver].
Qed.

Lemma elem_of_hview h xs o : o ∈ hview h xs → ∃ x o', x ∈ xs ∧ h !! x = Some o' ∧ o = data o'.
Proof.
  intros (x & Hx & Hd)%list_elem_of_omap. exists x.
  destruct (h !! x) as [o'|]; [|done]. injection Hd as <-. eauto.
Qed.

(** The view of a side after [gadd]. *)
Lemma gadd_view h h' b g buy x o :
  book_rep h b g → x ∉ resting g →
  (∀ y, y ∈ flat (glevels buy g) → data <$> h' !! y = data <$> h !! y) →
  h' !! x = Some o →
  hview h' (flat (glevels buy (gadd buy (limit_price o) x g))) =
  a_insert buy (data o) (hview h (flat (glevels buy g))).
Proof.
  intros Hb Hx Hd Ho. destruct (gadd_flat h b g buy (limit_price o) x Hb) as (l1 & l2 & E & -> & H1 & H2).
  assert (∀ l, (∀ y, y ∈ l → y ∈ flat (glevels buy g)) → hview h' l = hview h l) as Hv
    by (intros; apply hview_ext; auto).
  rewrite hview_app, (hview_cons _ _ _ _ Ho).
  rewrite (Hv l1), (Hv l2) by (intros y Hy; rewrite E; apply elem_of_app; auto).
  rewrite E, hview_app.
  rewrite a_insert_app; [done| |].
  - intros m (y & oy & Hy & Hoy & ->)%elem_of_hview. destruct (H1 y Hy) as (q & (o' & ? & Hq & _) & Hc).
    simplify_eq. done.
  - intros m (y & oy & Hy & Hoy & ->)%elem_of_hview. destruct (H2 y Hy) as (q & (o' & ? & Hq & _) & Hc).
    simplify_eq. done.
Qed.

Lemma fills_taker t ms : ∃ q, (fills t ms).1.2 = set_filled_qty q t.
Proof.
  revert t. induction ms as [|m ms IH]; intros t; simpl.
  - exists (filled_qty t). by destruct t.
  - destruct (_ || _); [exists (filled_qty t); by destruct t|].
    destruct (_ =? _)%Z; [|by eexists].
    destruct (IH (add_fill (Z.min (remaining t) (remaining m)) t)) as [q Hq].
    destruct (fills _ ms) as [[trs t2] rest]. simpl in *. exists q. by rewrite Hq.
Qed.

(** ** Settlement *)

(** What settlement and the completion stamp leave behind. *)
Record settle_post (p : Pool) (b : OrderBook) (g : GBook) (x : ptr) (t : Order)
    (p' : Pool) (b' : OrderBook) (g' : GBook) (o' : Order) : Prop := {
  se_inv : minv p' b' g';
  se_at : storage_ p' !! x = Some o';
  se_qty : qty_ok o';
  se_frame : ∀ y, y ∉ resting g → y ≠ x → storage_ p' !! y = storage_ p !! y;
  se_free : free p' = free p;
  se_cap : capacity p' = capacity p;
  se_rest : ∀ y, y ∈ resting g' ↔ y ∈ resting g ∨ (y = x ∧ x ∈ resting g');
  se_live : x ∈ resting g' → is_terminal o' = false;
  se_inst : instrument_ b' = instrument_ b;
  se_map : order_map_ b' = order_map_ b ∨
           order_map_ b' = umap_emplace (oid t) (locator_of x t) (order_map_ b);
  se_index : book_indexed (storage_ p) b g → order_map_ b !! oid t = None →
             book_indexed (storage_ p') b' g';
  se_opp : glevels (negb (is_buy (side t))) g' = glevels (negb (is_buy (side t))) g }.

(** The taker leaves: only its own record changes. *)
Lemma settle_post_out p b g x t o' :
  minv p b g → taker_ok p g x t → qty_ok o' →
  settle_post p b g x t (with_storage (<[x := o']> (storage_ p)) p) b g o'.
Proof.
  intros Hi Ht Hq. destruct (minv_upd_taker _ _ _ _ _ o' Hi Ht Hq) as [Hi' Ht'].
  pose proof (to_out _ _ _ _ Ht) as Hx. constructor; try done.
  - apply Ht'.
  - intros y Hy Hyx. simpl. by rewrite list_lookup_insert_ne.
  - unfold capacity. simpl. apply length_insert.
  - intros y. tauto.
  - by left.
  - intros Hix _ y o Hy. simpl. rewrite list_lookup_insert_ne by set_solver. by apply Hix.
Qed.

Lemma absr_upd_out h g x o : x ∉ resting g → absr (<[x := o]> h) g = absr h g.
Proof.
  intros Hx. apply absr_ext. intros buy. rewrite absr_side. apply hview_upd_notin.
  intros Hin. apply Hx, elem_of_resting. eauto.
Qed.

(** The taker rests: it joins its level, then gets its completion stamp. *)
(** The lists of orders after an insertion. *)
Lemma absr_gadd h h' b g buy x o :
  book_rep h b g → x ∉ resting g → h' !! x = Some o →
  (∀ y, y ≠ x → data <$> h' !! y = data <$> h !! y) →
  absr h' (gadd buy (limit_price o) x g) =
    set_a_side buy (a_insert buy (data o) (a_side buy (absr h g))) (absr h g).
Proof.
  intros Hrep Hx Ho Hsame. apply absr_ext. intros buy'. rewrite a_side_set, !absr_side.
  assert (∀ buy' y, y ∈ flat (glevels buy' g) → y ≠ x) as Hne
    by (intros bb y Hy ->; apply Hx, elem_of_resting; eauto).
  destruct (Bool.eqb_spec buy' buy) as [->|Hb].
  - eapply gadd_view; [done|done| |done]. intros y Hy. by eapply Hsame, Hne.
  - assert (buy' = negb buy) as -> by (by destruct buy, buy'). rewrite gadd_other.
    apply hview_ext. intros y Hy. by eapply Hsame, Hne.
Qed.

(** The index after an insertion under a new id. *)
Lemma book_indexed_gadd h h' b b' g g' x o :
  book_indexed h b g → order_map_ b !! oid o = None → h' !! x = Some o →
  order_map_ b' = umap_emplace (oid o) (locator_of x o) (order_map_ b) →
  (∀ y, y ∈ resting g' → y = x ∨ y ∈ resting g) →
  (∀ y o', y ≠ x → h' !! y = Some o' → ∃ o0, h !! y = Some o0 ∧ data o' = data o0) →
  book_indexed h' b' g'.
Proof.
  intros Hix Hnone Hx Hmap Hel Hsome y o' Hy Ho'. rewrite Hmap. unfold umap_emplace. rewrite Hnone.
  destruct (decide (y = x)) as [->|Hyx].
  - assert (o' = o) as -> by congruence. apply lookup_insert_eq.
  - destruct (Hel y Hy) as [|Hr]; [done|]. destruct (Hsome y o' Hyx Ho') as (o0 & Ho0 & Eo).
    rewrite (locator_of_data _ _ _ Eo). destruct (data_inv _ _ Eo) as (-> & _).
    pose proof (Hix y o0 Hr Ho0). rewrite lookup_insert_ne; [done|]. congruence.
Qed.

(** An order was put to rest. *)
Lemma minv_added p b g x o h b' g' :
  minv p b g → allocated p x → length h = capacity p → book_rep h b' g' → instrument_ b' = instrument_ b →
  (∀ y, y ∈ resting g' ↔ y = x ∨ y ∈ resting g) → h !! x = Some o → resting_ok (instrument_ b) o →
  (∀ y oy, y ≠ x → h !! y = Some oy → ∃ o0, storage_ p !! y = Some o0 ∧ data oy = data o0) →
  minv (with_storage h p) b' g'.
Proof.
  intros Hi Hal Hlen Hrep Hins Hel Hx Hr Hsome.
  constructor; simpl; [apply pool_ok_with_storage; [done|apply Hi]|done| |].
  - intros y oy Hy Hoy. rewrite Hins. apply Hel in Hy. destruct (decide (y = x)) as [->|Hyx]; [congruence|].
    destruct (Hsome y oy Hyx Hoy) as (o0 & Ho0 & Eo). destruct Hy as [|Hy]; [done|].
    eapply resting_ok_data; [symmetry; exact Eo|]. by eapply (mi_data _ _ _ Hi).
  - intros y [->|Hy]%Hel; apply allocated_with_storage; try done. by apply Hi.
Qed.

(** The taker is put on the book and then stamped. *)
Lemma rest_taker p b g x t st tm :
  minv p b g → taker_ok p g x t →
  let g' := gadd (is_buy (side t)) (limit_price t) x g in
  ∃ b' h' h'' o', add_resting x b (<[x := set_status st t]> (storage_ p)) = Some (b', h') ∧
    hupd (set_match_complete tm) x h' = Some h'' ∧ h'' !! x = Some o' ∧
    data o' = data (set_match_complete tm (set_status st t)) ∧
    length h'' = capacity p ∧ book_rep h'' b' g' ∧
    (∀ y, y ≠ x → y ∉ resting g → h'' !! y = storage_ p !! y) ∧
    (∀ y, y ≠ x → data <$> h'' !! y = data <$> storage_ p !! y) ∧
    instrument_ b' = instrument_ b ∧
    order_map_ b' = umap_emplace (oid t) (locator_of x t) (order_map_ b).
Proof.
  intros Hi Ht g'. set (p1 := with_storage (<[x := set_status st t]> (storage_ p)) p).
  destruct (minv_upd_taker _ _ _ _ _ (set_status st t) Hi Ht (to_qty _ _ _ _ Ht)) as [Hi1 Ht1].
  fold p1 in Hi1, Ht1.
  destruct (add_resting_spec x (set_status st t) b (storage_ p1) g (mi_rep _ _ _ Hi1)
              (to_at _ _ _ _ Ht1) (to_out _ _ _ _ Ht)) as (b' & h' & E & Hrep & Hdat & Hout & Hins & Hmap).
  destruct (hdata_lookup_some (storage_ p1) h' x _ (eq_sym Hdat) (to_at _ _ _ _ Ht1)) as (o1 & Ho1 & Ed1).
  exists b', h', (<[x := set_match_complete tm o1]> h'), (set_match_complete tm o1).
  split_and!; [done|by apply hupd_some|apply lookup_upd_eq; eauto| | | | | |done|done].
  - clear -Ed1. apply (f_equal (set_match_complete tm)) in Ed1. by destruct o1, t.
  - rewrite length_insert, (hdata_length _ _ Hdat). simpl. by rewrite length_insert.
  - by eapply book_rep_upd_in.
  - intros y Hyx Hy. rewrite list_lookup_insert_ne, Hout by done. simpl. by rewrite list_lookup_insert_ne.
  - intros y Hy. rewrite list_lookup_insert_ne by done.
    rewrite (hdata_lookup h' (storage_ p1)) by done. simpl. by rewrite list_lookup_insert_ne.
Qed.

Lemma settle_post_rest p b g x t st tm :
  minv p b g → taker_ok p g x t → oinstrument t = instrument_ b →
  (filled_qty t < initial_qty t)%Z →
  st = (if (0 <? filled_qty t)%Z then PartiallyFilled else New) →
  let buy := is_buy (side t) in
  let o2 := set_match_complete tm (set_status st t) in
  ∃ b' h', add_resting x b (<[x := set_status st t]> (storage_ p)) = Some (b', h') ∧
  ∃ h'' o', hupd (set_match_complete tm) x h' = Some h'' ∧ data o' = data o2 ∧
    settle_post p b g x t (with_storage h'' p) b' (gadd buy (limit_price t) x g) o' ∧
    absr h'' (gadd buy (limit_price t) x g) =
      set_a_side buy (a_insert buy (data o2) (a_side buy (absr (storage_ p) g)))
        (absr (storage_ p) g).
Proof.
  intros Hi Ht Hinst Hlt Hst buy o2. set (g' := gadd buy (limit_price t) x g).
  destruct (rest_taker p b g x t st tm Hi Ht)
    as (b' & h' & h'' & o' & E & E2 & Hx2 & Ed2 & Hlen & Hrep & Hout & Hdat & Hins & Hmap).
  fold buy g' in Hrep. fold o2 in Ed2.
  destruct (data_inv _ _ Ed2) as (Hid & Hpx & _ & _ & Hqi & Hqf & Hs & _).
  assert (∀ y, y ∈ resting g' ↔ y = x ∨ y ∈ resting g) as Hel
    by (intros; eapply elem_of_gadd, (mi_rep _ _ _ Hi)).
  assert (∀ y o, y ≠ x → h'' !! y = Some o → ∃ o0, storage_ p !! y = Some o0 ∧ data o = data o0) as Hsome.
  { intros y o Hy Ho. specialize (Hdat y Hy). rewrite Ho in Hdat. symmetry in Hdat.
    apply fmap_Some in Hdat as (o0 & ? & ?). by exists o0. }
  exists b', h'. split; [done|]. exists h'', o'. split_and!; [done|done| |].
  - constructor; [|done| |by intros y Hy Hyx; apply Hout|done|done| | |done|right; exact Hmap| |apply gadd_other].
    + eapply (minv_added p b g x); try done; [apply Ht|]. apply (resting_ok_data _ o2); [by symmetry|].
      destruct (to_qty _ _ _ _ Ht) as [? ?]. by split_and!.
    + unfold qty_ok. rewrite Hqi, Hqf. apply (to_qty _ _ _ _ Ht).
    + intros y. rewrite !Hel. naive_solver.
    + intros _. unfold is_terminal. rewrite Hs. unfold o2. simpl. rewrite Hst. by destruct (0 <? _)%Z.
    + intros Hix Hnone.
      eapply (book_indexed_gadd (storage_ p) h''); [done| |done| |by intros y ?%Hel|done].
      * by rewrite Hid.
      * by rewrite Hmap, Hid, (locator_of_data _ _ _ Ed2).
  - rewrite <- Ed2. unfold g'. change (limit_price t) with (limit_price o2). rewrite <- Hpx.
    eapply absr_gadd; [apply Hi|apply Ht|done|done].
Qed.

Lemma data_stamp tm st o :
  data (set_match_complete tm (set_status st o)) = set_match_complete tm (set_status st (data o)).
Proof. by destruct o. Qed.

Lemma settle_spec x b p g t tm :
  minv p b g → taker_ok p g x t → oinstrument t = instrument_ b →
  ∃ b2 p2, settle x b p = Some (b2, p2) ∧
  ∃ h3 g' o', hupd (set_match_complete tm) x (storage_ p2) = Some h3 ∧
    settle_post p b g x t (with_storage h3 p2) b2 g' o' ∧
    a_settle tm (data t) (absr (storage_ p) g) = (absr h3 g', data o').
Proof.
  intros Hi Ht Hinst. pose proof (to_at _ _ _ _ Ht) as Hat. pose proof (to_qty _ _ _ _ Ht) as Hq.
  pose proof (to_out _ _ _ _ Ht) as Hx. unfold settle. rewrite Hat.
  assert (∀ st, ∃ h3 o', hupd (set_match_complete tm) x (<[x := set_status st t]> (storage_ p)) = Some h3 ∧
     settle_post p b g x t (with_storage h3 p) b g o' ∧ absr h3 g = absr (storage_ p) g ∧
     data o' = set_match_complete tm (set_status st (data t))) as Hout.
  { intros st. eexists _, (set_match_complete tm (set_status st t)). split.
    - apply hupd_some, lookup_upd_eq. eauto.
    - rewrite list_insert_insert_eq. split_and!; [by apply settle_post_out| |by rewrite data_stamp].
      by apply absr_upd_out. }
  unfold a_settle. change (is_fully_filled (data t)) with (is_fully_filled t).
  change (type (data t)) with (type t). change (tif (data t)) with (tif t).
  change (filled_qty (data t)) with (filled_qty t). change (side (data t)) with (side t).
  rewrite !(hupd_some _ _ _ _ Hat).
  destruct (is_fully_filled t) eqn:Eff; [|destruct (bool_decide (type t = Market) || bool_decide (tif t = IOC))].
  - eexists _, _. split; [done|]. destruct (Hout Filled) as (h3 & o' & ? & ? & ? & E).
    exists h3, g, o'. split_and!; try done. congruence.
  - eexists _, _. split; [done|].
    destruct (Hout (if (0 <? filled_qty t)%Z then PartiallyFilled else Cancelled)) as (h3 & o' & ? & ? & ? & E).
    exists h3, g, o'. split_and!; try done. congruence.
  - set (st := if (0 <? filled_qty t)%Z then PartiallyFilled else New).
    assert (filled_qty t < initial_qty t)%Z as Hlt.
    { rewrite fully_filled_ok, remaining_ok in Eff by done. destruct Hq as [? ?]. zbool. lia. }
    destruct (settle_post_rest p b g x t st tm Hi Ht Hinst Hlt eq_refl)
      as (b' & h' & E & h'' & o' & E2 & Ed & Hpost & Habs).
    rewrite E. eexists _, _. split; [done|].
    exists h'', (gadd (is_buy (side t)) (limit_price t) x g), o'. split_and!; try done.
    by rewrite Habs, Ed, data_stamp.
Qed.

(** ** [submit] *)

Record submit_post (p : Pool) (b : OrderBook) (g : GBook) (x : ptr) (o : Order)
    (p' : Pool) (b' : OrderBook) (g' : GBook) (o' : Order) : Prop := {
  su_inv : minv p' b' g';
  su_at : storage_ p' !! x = Some o';
  su_qty : qty_ok o';
  su_alloc : allocated p' x;
  su_frame : ∀ y, y ∉ resting g → y ≠ x → storage_ p' !! y = storage_ p !! y;
  su_free : ∃ k, free p' = free p ++ take k (flat (glevels (negb (is_buy (side o))) g)) ∧
    flat (glevels (negb (is_buy (side o))) g') = drop k (flat (glevels (negb (is_buy (side o))) g));
  su_cap : capacity p' = capacity p;
  su_rest : ∀ y, y ∈ resting g' → y ∈ resting g ∨ y = x;
  su_gone : ∀ y, y ∈ resting g → y ∈ resting g' ∨ y ∈ free p';
  su_live : x ∈ resting g' → is_terminal o' = false;
  su_inst : instrument_ b' = instrument_ b;
  su_index : book_indexed (storage_ p) b g → order_map_ b !! oid o = None →
             book_indexed (storage_ p') b' g';
  su_keys : ∀ id, is_Some (order_map_ b' !! id) → is_Some (order_map_ b !! id) ∨ id = oid o }.

Lemma submit_post_reject p b g x o o' :
  minv p b g → taker_ok p g x o → qty_ok o' →
  submit_post p b g x o (with_storage (<[x := o']> (storage_ p)) p) b g o'.
Proof.
  intros Hi Ht Hq. destruct (settle_post_out p b g x o o' Hi Ht Hq) as [].
  constructor; try done.
  - apply allocated_with_storage; [apply length_insert|apply Ht].
  - exists 0. rewrite take_0, app_nil_r. by split.
  - intros y Hy. by left.
  - intros y Hy. by left.
  - by left.
Qed.

(** Matching followed by settlement. *)
Lemma submit_post_accept p b g x t rest t' k p1 b1 g1 t1 p2 b2 g2 o' :
  loop_post (negb (is_buy (side t))) p b g x rest t' k p1 b1 g1 t1 →
  allocated p x → x ∉ resting g → oid t1 = oid t → side t1 = side t →
  settle_post p1 b1 g1 x t1 p2 b2 g2 o' →
  submit_post p b g x t p2 b2 g2 o'.
Proof.
  set (buy := negb (is_buy (side t))).
  intros [Li Lt Ld Lf Lo Lv Lfr Lc Lframe Lov Lin Lm Lix] Hal Hx Hid Hsd
    [Si Sat Sq Sfr Sf Sc Sr Sl Sin Sm Six Sop].
  assert (∀ y, y ∈ resting g1 ↔ y ∈ drop k (flat (glevels buy g)) ∨ y ∈ flat (glevels (negb buy) g)) as Hr1.
  { intros y. by rewrite (elem_of_resting_split buy), Lf, Lo. }
  assert (∀ y, y ∈ resting g1 → y ∈ resting g) as Hsub.
  { intros y. rewrite Hr1, (elem_of_resting_split buy). intros [Hy|]; [left|by right].
    rewrite <- (take_drop k (flat (glevels buy g))). apply elem_of_app. by right. }
  constructor; try done.
  - destruct (to_alloc _ _ _ _ Lt) as [Hc Hf]. split; [by rewrite Sc|by rewrite Sf].
  - intros y Hy Hyx. rewrite Sfr, Lframe by auto. done.
  - exists k. rewrite Hsd in Sop. fold buy in Sop |- *. by rewrite Sf, Lfr, Sop, Lf.
  - by rewrite Sc, Lc.
  - intros y [Hy|[-> _]]%Sr; auto.
  - intros y Hy. rewrite Sr, Hr1, Sf, Lfr.
    apply (elem_of_resting_split buy) in Hy as [Hy|Hy]; [|tauto].
    rewrite <- (take_drop k (flat (glevels buy g))) in Hy. rewrite elem_of_app.
    apply elem_of_app in Hy. tauto.
  - by rewrite Sin, Lin.
  - intros Hix Hnone. apply Six; [auto|]. rewrite Hid.
    destruct (order_map_ b1 !! oid t) eqn:E; [|done].
    pose proof (lookup_weaken _ _ _ _ E Lm). congruence.
  - intros id Hs. assert (is_Some (order_map_ b1 !! id) ∨ id = oid t) as [[l Hl]|]; [|left|by right].
    + destruct Sm as [Sm|Sm]; rewrite Sm in Hs; [by left|]. unfold umap_emplace in Hs.
      rewrite Hid in Hs. destruct (order_map_ b1 !! oid t); [by left|].
      destruct (decide (oid t = id)) as [->|Hne]; [by right|]. rewrite lookup_insert_ne in Hs by done. by left.
    + exists l. by eapply lookup_weaken.
Qed.

Section submit.
Variable clock : nat → Z.

(** A rejected order: its status only. *)
Lemma reject_spec x m s g o :
  minv (pool_ s) (book_ m) g → taker_ok (pool_ s) g x o →
  ∃ r m' s' g' o', reject x m (mkSys (pool_ s) (S (ticks_ s))) = Some (r, m', s') ∧
    r_order r = x ∧ submit_post (pool_ s) (book_ m) g x o (pool_ s') (book_ m') g' o' ∧
    (absr (storage_ (pool_ s)) g, set_status Rejected (data o), []) =
      (absr (storage_ (pool_ s')) g', data o', r_trades r).
Proof.
  intros Hi Ht. pose proof (to_qty _ _ _ _ Ht) as Hq. unfold reject, order_upd. simpl. rewrite (hupd_some _ _ _ _ (to_at _ _ _ _ Ht)).
  eexists _, _, _, g, (set_status Rejected o). split_and!; [done|done|by apply submit_post_reject|].
  simpl. rewrite absr_upd_out by apply Ht. by rewrite data_set_status.
Qed.

(** The book after the matching loop, as the specification has it. *)
Lemma loop_post_absr buy p b g x rest t' k p' b' g' t1 :
  loop_post buy p b g x rest t' k p' b' g' t1 →
  absr (storage_ p') g' = set_a_side buy rest (absr (storage_ p) g).
Proof.
  intros L. apply absr_ext. intros c. rewrite a_side_set, absr_side.
  destruct (Bool.eqb_spec c buy) as [->|Hne].
  - apply (lp_view _ _ _ _ _ _ _ _ _ _ _ _ L).
  - assert (c = negb buy) as -> by (by destruct c, buy).
    rewrite (lp_other _ _ _ _ _ _ _ _ _ _ _ _ L). apply (lp_other_view _ _ _ _ _ _ _ _ _ _ _ _ L).
Qed.

Lemma submit_spec x m s g o :
  minv (pool_ s) (book_ m) g → taker_ok (pool_ s) g x o →
  let tm := i64 (u64 (clock (S (ticks_ s)))) in
  ∃ r m' s' g' o', submit clock x m s = Some (r, m', s') ∧ r_order r = x ∧
    submit_post (pool_ s) (book_ m) g x o (pool_ s') (book_ m') g' o' ∧
    a_submit (instrument_ (book_ m)) tm (data o) (absr (storage_ (pool_ s)) g) =
      (absr (storage_ (pool_ s')) g', data o', r_trades r).
Proof.
  intros Hi Ht tm. pose proof (to_at _ _ _ _ Ht) as Hat. pose proof (to_qty _ _ _ _ Ht) as Hq.
  unfold submit, now_ns, order_at. simpl. rewrite Hat.
  pose proof (reject_spec x m s g o Hi Ht) as Hrej.
  unfold a_submit. change (invalid _ (data o)) with (invalid (instrument_ (book_ m)) o).
  change (tif (data o)) with (tif o). change (side (data o)) with (side o).
  rewrite data_remaining, absr_side.
  destruct (invalid (instrument_ (book_ m)) o) eqn:Einv; [done|].
  rewrite (can_fully_fill_spec _ _ _ _ Hi Hq).
  assert (∀ l, crossing (data o) l = crossing o l) as ->.
  { intros l. induction l; simpl; [done|]. by rewrite stops_data, IHl. }
  set (can := (remaining o <=? _)%Z).
  replace (if bool_decide (tif o = FOK) then Some can else Some true)
    with (Some (negb (bool_decide (tif o = FOK) && negb can)))
    by (destruct (bool_decide (tif o = FOK)), can; done).
  rewrite negb_involutive. destruct (_ && negb can); [done|].
  pose proof (match_spec x (book_ m) (pool_ s) g o Hi Ht) as Hm. simpl in Hm.
  destruct (fills_taker (data o) (hview (storage_ (pool_ s)) (flat (glevels (negb (is_buy (side o))) g)))) as [q Hft].
  destruct (fills (data o) _) as [[trs t'] rest]. simpl in Hft.
  destruct Hm as (k & b1 & p1 & g1 & t1 & -> & L).
  assert (oid t1 = oid o ∧ oinstrument t1 = oinstrument o ∧ side t1 = side o) as (Hid & Hin & Hsd).
  { pose proof (lp_data _ _ _ _ _ _ _ _ _ _ _ _ L) as Hd. rewrite Hft in Hd.
    destruct (data_inv t1 (set_filled_qty q o)) as (? & ? & ? & ? & _); [by rewrite Hd; destruct o|done]. }
  assert (oinstrument t1 = instrument_ b1) as Hins.
  { rewrite (lp_inst _ _ _ _ _ _ _ _ _ _ _ _ L), Hin. unfold invalid in Einv. zbool. done. }
  destruct (settle_spec x b1 p1 g1 t1 tm (lp_inv _ _ _ _ _ _ _ _ _ _ _ _ L)
              (lp_taker _ _ _ _ _ _ _ _ _ _ _ _ L) Hins) as (b2 & p2 & -> & h3 & g2 & o' & E3 & Hpost & Habs).
  unfold order_upd. simpl. fold tm. rewrite E3.
  eexists _, _, _, g2, o'. split_and!; [done|done| |].
  - simpl. eapply submit_post_accept; [exact L|apply Ht|apply Ht|done|done|done].
  - simpl. rewrite (lp_data _ _ _ _ _ _ _ _ _ _ _ _ L) in Habs.
    by rewrite <- (loop_post_absr _ _ _ _ _ _ _ _ _ _ _ _ L), Habs.
Qed.
End submit.
