(* ===== verification/CancelSpec.v ===== *)
(** * Cancellation and expiry against the specification

    [Matcher::cancel] removes exactly the order its id leads to and gives its
    slot back; [Matcher::cancel_all] is characterised exactly, by the orders
    the drain loop really visits. *)

From S2P Require Import Prelude StdMap Types Heap Pool PriceLevel OrderBook Latency Matcher.
From S2P Require Import MatchSpec SubmitSpec.

(** ** [cancel] *)

Record cancel_post (p : Pool) (b : OrderBook) (g : GBook) (id : OrderId) (x : ptr)
    (p' : Pool) (b' : OrderBook) (g' : GBook) : Prop := {
  ca_inv : minv p' b' g';
  ca_frame : ∀ y, y ∉ resting g → storage_ p' !! y = storage_ p !! y;
  ca_free : free p' = free p ++ [x];
  ca_cap : capacity p' = capacity p;
  ca_rest : ∀ y, y ∈ resting g' ↔ y ≠ x ∧ y ∈ resting g;
  ca_view : ∀ buy, hview (storage_ p') (flat (glevels buy g')) =
                   hview (storage_ p) (filter (λ y, y ≠ x) (flat (glevels buy g)));
  ca_inst : instrument_ b' = instrument_ b;
  ca_map : order_map_ b' = delete id (order_map_ b);
  ca_index : book_indexed (storage_ p) b g → book_indexed (storage_ p') b' g' }.

Lemma cancel_absent id m s :
  order_map_ (book_ m) !! id = None → cancel id m s = Some (false, m, s).
Proof.
  intros H. unfold cancel, cancel_and_get. rewrite H. unfold set_pool, with_storage.
  by destruct m, s as [[] ?].
Qed.

(** The order is off the book and marked, its slot not yet released. *)
Record taken (p : Pool) (b : OrderBook) (g : GBook) (id : OrderId) (x : ptr)
    (h : heap) (b' : OrderBook) (g' : GBook) : Prop := {
  tk_len : length h = capacity p;
  tk_rep : book_rep h b' g';
  tk_same : ∀ y o, y ≠ x → h !! y = Some o → ∃ o0, storage_ p !! y = Some o0 ∧ data o = data o0;
  tk_frame : ∀ y, y ∉ resting g → h !! y = storage_ p !! y;
  tk_rest : ∀ y, y ∈ resting g' ↔ y ≠ x ∧ y ∈ resting g;
  tk_view : ∀ buy, hview h (flat (glevels buy g')) =
                   hview (storage_ p) (filter (λ y, y ≠ x) (flat (glevels buy g)));
  tk_inst : instrument_ b' = instrument_ b;
  tk_map : order_map_ b' = delete id (order_map_ b);
  tk_index : book_indexed (storage_ p) b g → book_indexed h b' g' }.

Lemma cancel_take id b p g loc :
  minv p b g → order_map_ b !! id = Some loc →
  ∃ b' h h1 g' o, cancel_and_get id b (storage_ p) = Some (Some (loc_order loc), b', h) ∧
    hupd (set_status Cancelled) (loc_order loc) h = Some h1 ∧
    storage_ p !! loc_order loc = Some o ∧ oid o = id ∧ loc_order loc ∈ resting g ∧
    (∃ o1, h1 !! loc_order loc = Some o1 ∧ qty_ok o1) ∧
    taken p b g id (loc_order loc) h1 b' g'.
Proof.
  intros Hi Hl. destruct (cancel_and_get_spec id loc b (storage_ p) g (mi_rep _ _ _ Hi) Hl)
    as (o & b' & h & Ho & Hid & Hr & E & Hrep & Hdat & Hout & Hins & Hmap).
  set (x := loc_order loc) in *. set (g' := gdel (is_buy (side o)) (limit_price o) x g) in *.
  destruct (hdata_lookup_some (storage_ p) h x o (eq_sym Hdat) Ho) as (o1 & Ho1 & Ed1).
  set (h1 := <[x := set_status Cancelled o1]> h).
  assert (∀ y, y ∈ resting g' ↔ y ≠ x ∧ y ∈ resting g) as Hel
    by (intros; eapply elem_of_gdel; [apply Hi|done..]).
  assert (∀ y oy, y ≠ x → h1 !! y = Some oy → ∃ o0, storage_ p !! y = Some o0 ∧ data oy = data o0) as Hsome.
  { intros y oy Hy. by apply hdata_upd_some. }
  exists b', h, h1, g', o. split_and!; [done|by apply hupd_some|done|done|done| |].
  { exists (set_status Cancelled o1). split; [apply lookup_upd_eq; eauto|].
    destruct (resting_ok_remaining _ _ (mi_data _ _ _ Hi _ _ Hr Ho)) as [Hq _].
    destruct (data_inv _ _ Ed1) as (_ & _ & _ & _ & Hqi & Hqf & _). unfold qty_ok. simpl. by rewrite Hqi, Hqf. }
  constructor; [| |done| |done| |done|done|].
  - unfold h1. by rewrite length_insert, (hdata_length _ _ Hdat).
  - apply book_rep_upd_out; [|done]. intros [? _]%Hel. done.
  - intros y Hy. unfold h1. rewrite list_lookup_insert_ne by set_solver. by apply Hout.
  - intros buy. unfold h1, g'.
    rewrite (gdel_filter _ _ _ _ _ buy (mi_rep _ _ _ Hi) Hr Ho), hview_upd_notin; [by apply hview_hdata|].
    rewrite list_elem_of_filter. tauto.
  - intros Hix y oy Hy Hoy. apply Hel in Hy as [Hyx Hy].
    destruct (Hsome y oy Hyx Hoy) as (o0 & Ho0 & Eo). rewrite (locator_of_data _ _ _ Eo), Hmap.
    destruct (data_inv _ _ Eo) as (-> & _). pose proof (Hix y o0 Hy Ho0) as H1.
    rewrite lookup_delete_ne; [done|]. intros Heq. rewrite <- Heq, Hl in H1.
    injection H1 as H1. unfold x in Hyx. rewrite H1 in Hyx. done.
Qed.

Lemma cancel_present id m s g loc :
  minv (pool_ s) (book_ m) g → order_map_ (book_ m) !! id = Some loc →
  ∃ m' s' g' o, cancel id m s = Some (true, m', s') ∧
    storage_ (pool_ s) !! loc_order loc = Some o ∧ oid o = id ∧ loc_order loc ∈ resting g ∧
    cancel_post (pool_ s) (book_ m) g id (loc_order loc) (pool_ s') (book_ m') g'.
Proof.
  intros Hi Hl. destruct (cancel_take id (book_ m) (pool_ s) g loc Hi Hl)
    as (b' & h & h1 & g' & o & E & E1 & Ho & Hid & Hr & _ & [Tl Tr Ts Tf Te Tv Ti Tm Tx]).
  unfold cancel. rewrite E, E1.
  destruct (release_spec (with_storage h1 (pool_ s)) (loc_order loc)) as (p' & Er & Hp' & Hfree & Hst).
  { apply pool_ok_with_storage; [done|apply Hi]. }
  { apply allocated_with_storage; [done|]. by apply Hi. }
  rewrite Er. simpl in Hst. rewrite free_with_storage in Hfree.
  eexists _, _, g', o. split_and!; [done|done|done|done|].
  simpl. constructor; rewrite ?Hst; try done.
  - eapply (minv_released (pool_ s) (book_ m) g); rewrite ?Hst; try done.
    intros y oy [Hyx _]%Te. by apply Ts.
  - unfold capacity. by rewrite Hst.
Qed.

Lemma hview_filter_id h xs x id :
  (∀ y o, y ∈ xs → h !! y = Some o → oid o = id ↔ y = x) →
  hview h (filter (λ y, y ≠ x) xs) = filter (λ o, oid o ≠ id) (hview h xs).
Proof.
  induction xs as [|y xs IH]; intros H; [done|].
  assert (∀ y0 o, y0 ∈ xs → h !! y0 = Some o → oid o = id ↔ y0 = x) as H'
    by (intros; apply H; [by right|done]).
  rewrite (hview_unfold h y xs).
  destruct (h !! y) as [o|] eqn:Ho; simpl.
  - specialize (H y o ltac:(left) Ho). rewrite !filter_cons.
    destruct (decide (y ≠ x)) as [Hy|Hy]; destruct (decide (oid (data o) ≠ id)) as [Hd|Hd];
      change (oid (data o)) with (oid o) in Hd; try tauto.
    rewrite (hview_cons _ _ _ _ Ho). by rewrite IH.
  - rewrite filter_cons. destruct (decide (y ≠ x)); [|by rewrite IH].
    rewrite hview_unfold, Ho. by rewrite IH.
Qed.

(** An order of the book has this id. *)
Definition has_id (id : OrderId) (a : ABook) : Prop := ∃ o, oid o = id ∧ (o ∈ a_bids a ∨ o ∈ a_asks a).

Lemma has_id_absr id h g : has_id id (absr h g) ↔ ∃ y oy, y ∈ resting g ∧ h !! y = Some oy ∧ oid oy = id.
Proof.
  split.
  - intros (o & Hoid & Ho). destruct Ho as [Ho|Ho]; apply elem_of_hview in Ho as (y & oy & Hy & Hoy & ->);
      exists y, oy; (split_and!; [apply elem_of_app; auto|done|done]).
  - intros (y & oy & Hy & Hoy & Hid). exists (data oy). split; [done|].
    apply elem_of_app in Hy as [Hy|Hy]; [left|right]; (apply list_elem_of_omap; exists y; split; [done|]; by rewrite Hoy).
Qed.

(** With distinct ids the index answers whether an id is in the book. *)
Lemma indexed_has_id p b g id :
  minv p b g → book_indexed (storage_ p) b g → has_id id (absr (storage_ p) g) ↔ is_Some (order_map_ b !! id).
Proof.
  intros Hi Hix. rewrite has_id_absr. split.
  - intros (y & oy & Hy & Hoy & <-). eexists. by apply (Hix y oy).
  - intros [loc Hl]. destruct (mi_rep _ _ _ Hi) as [_ Hm]. destruct (Hm id loc Hl) as (o & Hr & Ho & Hid & _).
    by exists (loc_order loc), o.
Qed.

Lemma a_cancel_absent id a : ¬ has_id id a → a_cancel id a = a.
Proof.
  intros H. destruct a as [bs ks]. unfold a_cancel, has_id in *. simpl in *.
  rewrite !filter_all; [done|..]; intros o Ho Hid; apply H; eauto.
Qed.

(** Taking the indexed order off the lists is [a_cancel]. *)
Lemma cancel_absr h b g id loc o h' g' :
  book_indexed h b g → order_map_ b !! id = Some loc → h !! loc_order loc = Some o → oid o = id →
  (∀ buy, hview h' (flat (glevels buy g')) = hview h (filter (λ y, y ≠ loc_order loc) (flat (glevels buy g)))) →
  absr h' g' = a_cancel id (absr h g).
Proof.
  intros Hix El Ho Hid Hv. apply absr_ext. intros buy. rewrite Hv.
  replace (a_side buy (a_cancel id (absr h g)))
    with (filter (λ o, oid o ≠ id) (hview h (flat (glevels buy g)))) by by destruct buy.
  apply hview_filter_id. intros y oy Hy Hoy. split; [|intros ->; congruence].
  intros Hoid. pose proof (Hix y oy) as H1. rewrite Hoid, El in H1.
  rewrite elem_of_resting in H1. specialize (H1 (ex_intro _ buy Hy) Hoy). by injection H1 as ->.
Qed.

Lemma cancel_view p b g id loc o p' b' g' :
  book_indexed (storage_ p) b g → order_map_ b !! id = Some loc → storage_ p !! loc_order loc = Some o → oid o = id →
  cancel_post p b g id (loc_order loc) p' b' g' →
  absr (storage_ p') g' = a_cancel id (absr (storage_ p) g).
Proof. intros Hix El Ho Hid P. eapply cancel_absr; try done. apply P. Qed.

(** One order leaves the book, whatever the ids of the others. *)
Definition a_removes (o : Order) (a a' : ABook) : Prop :=
  ∃ buy l1 l2, a_side buy a = l1 ++ o :: l2 ∧ a' = set_a_side buy (l1 ++ l2) a.

Lemma cancel_removes p b g id x o p' b' g' :
  minv p b g → x ∈ resting g → storage_ p !! x = Some o → cancel_post p b g id x p' b' g' →
  a_removes (data o) (absr (storage_ p) g) (absr (storage_ p') g').
Proof.
  intros Hi [buy Hx]%elem_of_resting Ho P. pose proof (mi_rep _ _ _ Hi) as Hrep.
  apply list_elem_of_split in Hx as (xs1 & xs2 & E).
  assert (NoDup (flat (glevels buy g))) as Hnd.
  { pose proof (book_rep_NoDup _ _ _ Hrep) as (? & _ & ?)%NoDup_app. by destruct buy. }
  assert (x ∉ flat (glevels (negb buy) g)) as Hne.
  { apply (side_disjoint (storage_ p) b g buy); [done|]. rewrite E. set_solver. }
  exists buy, (hview (storage_ p) xs1), (hview (storage_ p) xs2). split.
  - by rewrite absr_side, E, hview_app, (hview_cons _ _ _ _ Ho).
  - apply absr_ext. intros bu. rewrite (ca_view _ _ _ _ _ _ _ _ P), a_side_set, absr_side.
    destruct (Bool.eqb_spec bu buy) as [->|Hb].
    + by rewrite E, filter_ne_middle, hview_app by (by rewrite <- E).
    + replace bu with (negb buy) by (by destruct bu, buy). by rewrite filter_ne_notin.
Qed.

(** ** [cancel_all] *)

Lemma callback_links x p p' :
  drain_callback x p = Some p' → ∀ y, links <$> get_heap p' !! y = links <$> get_heap p !! y.
Proof.
  unfold drain_callback, hupd. intros E y. destruct (storage_ p !! x) as [o|] eqn:Ho; [|done].
  unfold release in E. case_match; [|done]. injection E as <-.
  change (links <$> <[x := set_status Cancelled o]> (storage_ p) !! y = links <$> storage_ p !! y).
  rewrite lookup_upd by eauto. destruct (decide (x = y)) as [<-|]; [|done]. by rewrite Ho.
Qed.

(** One visit: the order is unlinked, cancelled and released. *)
Definition drained (o : Order) : Order := set_status Cancelled (set_prev None (set_next None o)).

Lemma drain_body_spec x p o :
  pool_ok p → allocated p x → storage_ p !! x = Some o →
  ∃ p', drain_body drain_callback x p = Some (p', true) ∧ pool_ok p' ∧
    free p' = free p ++ [x] ∧ storage_ p' = <[x := drained o]> (storage_ p).
Proof.
  intros Hp Ha Ho. unfold drain_body, unlink, drain_callback. simpl.
  rewrite (hupd_some _ _ _ _ Ho). simpl.
  rewrite (hupd_some _ x _ (set_prev None (set_next None o))) by (apply lookup_upd_eq; eauto).
  rewrite list_insert_insert_eq. fold (drained o).
  assert (length (<[x := drained o]> (storage_ p)) = capacity p) as Hlen by apply length_insert.
  destruct (release_spec (with_storage (<[x := drained o]> (storage_ p)) p) x) as (p' & E & ? & Hf & Hs).
  { by apply pool_ok_with_storage. }
  { by apply allocated_with_storage. }
  exists p'. unfold with_storage in *. simpl in *. rewrite E. by split_and!.
Qed.

Lemma visit_spec xs p :
  pool_ok p → NoDup xs → (∀ x, x ∈ xs → allocated p x) →
  ∃ p', visit drain_callback xs p = Some p' ∧ pool_ok p' ∧ free p' = free p ++ xs ∧
    capacity p' = capacity p ∧
    (∀ y, y ∉ xs → storage_ p' !! y = storage_ p !! y) ∧
    (∀ x, x ∈ xs → storage_ p' !! x = drained <$> storage_ p !! x).
Proof.
  revert p. induction xs as [|x xs IH]; intros p Hp Hnd Ha.
  { exists p. rewrite app_nil_r. split_and!; try done; set_solver. }
  apply NoDup_cons in Hnd as [Hx Hnd].
  pose proof (Ha x ltac:(left)) as Hax. destruct (allocated_lookup _ _ Hax) as [o Ho].
  destruct (drain_body_spec x p o Hp Hax Ho) as (p1 & E & Hp1 & Hf1 & Hs1).
  assert (capacity p1 = capacity p) as Hc1 by (unfold capacity; by rewrite Hs1, length_insert).
  destruct (IH p1 Hp1 Hnd) as (p' & E' & Hp' & Hf' & Hc' & Hout & Hin).
  { intros y Hy. destruct (Ha y ltac:(by right)) as [? ?]. split; [by rewrite Hc1|].
    rewrite Hf1, elem_of_app. set_solver. }
  exists p'. simpl. rewrite E. split_and!; try done.
  - by rewrite Hf', Hf1, <- app_assoc.
  - by rewrite Hc'.
  - intros y Hy. apply not_elem_of_cons in Hy as [? ?].
    by rewrite Hout, Hs1, list_lookup_insert_ne by done.
  - intros y [->|Hy]%elem_of_cons.
    + rewrite Hout, Hs1, Ho by done. apply lookup_upd_eq. eauto.
    + rewrite Hin, Hs1, list_lookup_insert_ne by set_solver. done.
Qed.

Lemma heads_flat g x : x ∈ heads g → x ∈ flat g.
Proof.
  unfold heads. intros (xs & Hxs & Hx)%list_elem_of_omap.
  apply list_elem_of_fmap in Hxs as ([p ys] & -> & Hp). apply elem_of_flat.
  exists p, ys. split; [done|]. destruct ys; simplify_eq/=. left.
Qed.

Lemma heads_NoDup g : NoDup (flat g) → NoDup (heads g).
Proof.
  induction g as [|[p xs] g IH]; [intros; apply NoDup_nil_2|].
  rewrite flat_cons. intros (H1 & H2 & H3)%NoDup_app.
  destruct xs as [|x xs]; [by apply IH|].
  change (heads ((p, x :: xs) :: g)) with (x :: heads g). apply NoDup_cons. split; [|by apply IH].
  intros Hx%heads_flat. apply (H2 x); [left|done].
Qed.

(** [cancel_all] empties the book and frees the first order of each level;
    every other resting order keeps its slot, its status and its links. *)
Lemma cancel_all_spec m s g :
  minv (pool_ s) (book_ m) g →
  let hs := heads (gbids g) ++ heads (gasks g) in
  ∃ p', cancel_all m s =
      Some (mkMatcher (Book_new (instrument_ (book_ m))) (stats_ m), set_pool p' s) ∧
    pool_ok p' ∧ free p' = free (pool_ s) ++ hs ∧ capacity p' = capacity (pool_ s) ∧
    (∀ y, y ∉ hs → storage_ p' !! y = storage_ (pool_ s) !! y) ∧
    (∀ x, x ∈ hs → storage_ p' !! x = drained <$> storage_ (pool_ s) !! x).
Proof.
  intros Hi hs. destruct (mi_rep _ _ _ Hi) as [Hs _].
  assert (∀ buy x, x ∈ heads (glevels buy g) → allocated (pool_ s) x) as Hal.
  { intros buy x Hx%heads_flat. apply Hi, elem_of_resting. eauto. }
  destruct (visit_spec (heads (gbids g)) (pool_ s) (mi_pool _ _ _ Hi)) as (p1 & E1 & Hp1 & Hf1 & Hc1 & Ho1 & Hi1).
  { apply heads_NoDup, (Hs true). }
  { apply (Hal true). }
  destruct (visit_spec (heads (gasks g)) p1 Hp1) as (p2 & E2 & Hp2 & Hf2 & Hc2 & Ho2 & Hi2).
  { apply heads_NoDup, (Hs false). }
  { intros x Hx. destruct (Hal false x Hx) as [? ?]. split; [by rewrite Hc1|].
    rewrite Hf1, elem_of_app. intros [?|Hx']; [done|].
    apply (side_disjoint _ _ _ false x (mi_rep _ _ _ Hi)); by apply heads_flat. }
  exists p2. split_and!; try done.
  - unfold cancel_all, clear_and_drain.
    destruct (drain_levels_heads drain_callback callback_links true (bids_ (book_ m)) (gbids g) (pool_ s))
      as [-> _]; [apply (Hs true)|]. rewrite E1.
    destruct (drain_levels_heads drain_callback callback_links false (asks_ (book_ m)) (gasks g) p1)
      as [-> _]; [|by rewrite E2].
    apply (side_rep_frame (storage_ (pool_ s))); [|apply (Hs false)].
    intros x Hx. apply Ho1. intros Hx'%heads_flat.
    by apply (side_disjoint _ _ _ true x (mi_rep _ _ _ Hi) Hx').
  - by rewrite Hf2, Hf1, <- app_assoc.
  - by rewrite Hc2.
  - intros y [? ?]%not_elem_of_app. by rewrite Ho2, Ho1.
  - intros x Hx. destruct (decide (x ∈ heads (gasks g))) as [Ha|Ha].
    + rewrite Hi2 by done. f_equal. apply Ho1. intros Hx'%heads_flat.
      by apply (side_disjoint _ _ _ true x (mi_rep _ _ _ Hi) Hx'), heads_flat.
    + rewrite Ho2 by done. apply Hi1. apply elem_of_app in Hx. tauto.
Qed.
