(* ===== verification/Turns.v ===== *)
(** * One turn of the matching loop (src/matching/matcher.cpp)

    [MatchSpec] has [turn], one pass through the body of the [while] loop of
    [Matcher::match] up to the release of a filled maker: the pool is shared
    with other threads, everything else a turn touches belongs to the book.
    Here are its effect on a well-formed book, and [a_finish], what the
    specification says is left to do in the middle of the loop. *)

From S2P Require Import Prelude StdMap Types Heap Pool PriceLevel OrderBook Latency Matcher.
From S2P Require Import MatchSpec SubmitSpec.

(** ** What is left to do *)

(** The rest of a submission whose order is [o] and that has made the trades
    [trs]. *)
Definition a_finish (tm : Timestamp) (trs : list Trade) (o : Order) (a : ABook)
    : ABook * Order * list Trade :=
  let opp := negb (is_buy (side o)) in
  let '(trs', o1, rest) := fills o (a_side opp a) in
  let (a2, o2) := a_settle tm o1 (set_a_side opp rest a) in
  (a2, o2, trs ++ trs').

(** The order passes the guards of [submit]. *)
Definition a_accepts (inst : InstrumentId) (o : Order) (a : ABook) : bool :=
  negb (invalid inst o) &&
  negb (bool_decide (tif o = FOK) &&
        negb (remaining o <=? qty_total (crossing o (a_side (negb (is_buy (side o))) a)))%Z).

Lemma a_submit_finish inst tm o a :
  a_submit inst tm o a =
    if a_accepts inst o a then a_finish tm [] o a else (a, set_status Rejected o, []).
Proof.
  unfold a_submit, a_accepts, a_finish. destruct (invalid inst o); [done|]. cbn [negb andb].
  destruct (bool_decide _ && _); [done|]. cbn [negb].
  destruct (fills o _) as [[trs o1] rest]. by destruct (a_settle _ _ _).
Qed.

Lemma set_a_side_same buy a : set_a_side buy (a_side buy a) a = a.
Proof. by destruct buy, a. Qed.

Lemma set_a_side_other buy l a a' :
  a_side (negb buy) a' = a_side (negb buy) a → set_a_side buy l a' = set_a_side buy l a.
Proof. destruct buy, a, a'; simpl; by intros ->. Qed.

(** The loop ends. *)
Lemma a_finish_stop tm trs o a :
  let opp := negb (is_buy (side o)) in
  fills o (a_side opp a) = ([], o, a_side opp a) →
  a_finish tm trs o a = (let (a2, o2) := a_settle tm o a in (a2, o2, trs)).
Proof.
  intros opp H. unfold a_finish. fold opp. rewrite H, set_a_side_same, app_nil_r. done.
Qed.

(** One trade. *)
Lemma a_finish_trade tm trs tr o o' a a' :
  let opp := negb (is_buy (side o)) in
  side o' = side o → a_side (negb opp) a' = a_side (negb opp) a →
  fills o (a_side opp a) =
    (let '(trs', t2, rest) := fills o' (a_side opp a') in (tr :: trs', t2, rest)) →
  a_finish tm (trs ++ [tr]) o' a' = a_finish tm trs o a.
Proof.
  intros opp Hs Ho H. unfold a_finish. rewrite Hs. fold opp. rewrite H.
  destruct (fills o' _) as [[trs' t2] rest]. rewrite (set_a_side_other opp rest a a' Ho).
  destruct (a_settle _ _ _). by rewrite <- app_assoc.
Qed.

(** The two kinds of trade, as [fills] sees them. *)
Lemma fills_filled t m l :
  (0 < remaining t)%Z → stops t (limit_price m) = false → (remaining m ≤ remaining t)%Z →
  fills (data t) (data m :: l) =
    (let '(trs, t2, rest) := fills (data (add_fill (remaining m) t)) l in
     (mkTrade (oid m) (oid t) (oinstrument t) (limit_price m) (remaining m) (ts t) :: trs, t2, rest)).
Proof.
  intros Hpos Hst Hle. simpl fills. rewrite data_remaining, stops_data.
  change (limit_price (data m)) with (limit_price m). rewrite data_remaining, Hst.
  rewrite (proj2 (Z.eqb_neq (remaining t) 0)) by lia. cbn [orb]. rewrite Z.min_r by done.
  rewrite Z.eqb_refl. by rewrite data_add_fill.
Qed.

Lemma fills_partial t m l :
  (0 < remaining t < remaining m)%Z → stops t (limit_price m) = false →
  remaining (add_fill (remaining t) t) = 0%Z →
  fills (data t) (data m :: l) =
    (let '(trs, t2, rest) := fills (data (add_fill (remaining t) t))
       (data (set_status PartiallyFilled (add_fill (remaining t) m)) :: l) in
     (mkTrade (oid m) (oid t) (oinstrument t) (limit_price m) (remaining t) (ts t) :: trs, t2, rest)).
Proof.
  intros Hlt Hst Hz. rewrite (fills_done (data (add_fill _ _))) by (by rewrite data_remaining).
  simpl fills. rewrite data_remaining, stops_data.
  change (limit_price (data m)) with (limit_price m). rewrite data_remaining, Hst.
  rewrite (proj2 (Z.eqb_neq (remaining t) 0)) by lia. cbn [orb]. rewrite Z.min_l by lia.
  rewrite (proj2 (Z.eqb_neq (remaining t) (remaining m))) by lia.
  by rewrite data_set_status, !data_add_fill.
Qed.

(** ** A turn on a well-formed book *)

(** An order left the book; its slot is still in use. *)
Lemma minv_removed p b g h b' g' x :
  minv p b g → length h = capacity p → book_rep h b' g' → instrument_ b' = instrument_ b →
  (∀ y, y ∈ resting g' ↔ y ≠ x ∧ y ∈ resting g) →
  (∀ y o', y ∈ resting g' → h !! y = Some o' → ∃ o0, storage_ p !! y = Some o0 ∧ data o' = data o0) →
  minv (with_storage h p) b' g'.
Proof.
  intros Hi Hlen Hrep Hinst Hel Hsame. constructor; simpl.
  - apply pool_ok_with_storage; [done|apply Hi].
  - done.
  - intros y o' Hy. rewrite Hinst. intros Ho'. destruct (Hsame _ _ Hy Ho') as (o0 & Ho0 & E0).
    eapply resting_ok_data; [symmetry; exact E0|]. eapply (mi_data _ _ _ Hi); [|done]. by apply Hel.
  - intros y [_ Hy]%Hel. apply allocated_with_storage; [done|]. by apply Hi.
Qed.

(** What a turn that traded leaves behind: the taker, the book without the
    filled maker, whose slot is in use but in no list, and the rest of the
    fills. *)
Record trade_post (opp : bool) (p : Pool) (b : OrderBook) (g : GBook) (x : ptr) (t : Order)
    (tr : Trade) (filled : option ptr)
    (p' : Pool) (b' : OrderBook) (g' : GBook) (t' : Order) : Prop := {
  tp_inv : minv p' b' g';
  tp_taker : taker_ok p' g' x t';
  tp_kept : oid t' = oid t ∧ oinstrument t' = oinstrument t ∧ side t' = side t;
  tp_fills : fills (data t) (a_side opp (absr (storage_ p) g)) =
    (let '(trs, t2, rest) := fills (data t') (a_side opp (absr (storage_ p') g')) in
     (tr :: trs, t2, rest));
  tp_other : a_side (negb opp) (absr (storage_ p') g') = a_side (negb opp) (absr (storage_ p) g);
  tp_frame : ∀ y, y ∉ resting g → y ≠ x → storage_ p' !! y = storage_ p !! y;
  tp_free : free p' = free p;
  tp_cap : capacity p' = capacity p;
  tp_rest : ∀ y, y ∈ resting g' ↔ Some y ≠ filled ∧ y ∈ resting g;
  tp_filled : ∀ mk, filled = Some mk → mk ∈ resting g ∧ mk ≠ x ∧
    ∃ m, storage_ p' !! mk = Some m ∧ qty_ok m;
  tp_inst : instrument_ b' = instrument_ b;
  tp_ids : ∀ id, is_Some (order_map_ b' !! id) → is_Some (order_map_ b !! id);
  tp_turns :
    length (flat (glevels opp g')) < length (flat (glevels opp g)) ∨
    (filled = None ∧ g' = g ∧ remaining t ≠ 0%Z ∧ remaining t' = 0%Z);
  tp_index : book_indexed (storage_ p) b g → book_indexed (storage_ p') b' g' }.

(** The maker is filled: it leaves the book. *)
Lemma trade_filled p b g x t opp mk l m :
  minv p b g → taker_ok p g x t → flat (glevels (is_buy opp) g) = mk :: l →
  storage_ p !! mk = Some m → (0 < remaining t)%Z → stops t (limit_price m) = false →
  (remaining m ≤ remaining t)%Z →
  let q := remaining m in
  let h := <[mk := set_status Filled (add_fill q m)]> (<[x := add_fill q t]> (storage_ p)) in
  let tr := mkTrade (oid m) (oid t) (oinstrument t) (limit_price m) q (ts t) in
  ∃ b' h' g', pop_top opp b h = Some (b', h') ∧
    trade_post (is_buy opp) p b g x t tr (Some mk) (with_storage h' p) b' g' (add_fill q t).
Proof.
  intros Hi Ht Hfl Hm Hpos Hst Hle q h tr. set (buy := is_buy opp) in *.
  assert (mk ∈ resting g) as Hmk by (apply elem_of_resting; exists buy; rewrite Hfl; set_solver).
  assert (mk ≠ x) as Hne by (intros ->; by destruct (to_out _ _ _ _ Ht)).
  destruct (resting_ok_remaining _ _ (mi_data _ _ _ Hi _ _ Hmk Hm)) as [Hmq Hmr].
  destruct (add_fill_qty q t (to_qty _ _ _ _ Ht)) as (Hq' & _ & _); [unfold q; lia|].
  destruct (add_fill_qty q m Hmq) as (Hmq' & _ & _); [unfold q; lia|].
  destruct (fill_maker_pop p b g x t opp mk l m q Hi Ht Hfl Hm Hq')
    as (b' & h' & E & Hrep & Hlen & Hdat & Hout & Hins & Hmap & Hbuy & Hel & Hsame).
  fold h in E, Hdat, Hout. fold buy in Hbuy, Hel, Hsame, Hrep.
  set (g' := gdel buy (limit_price m) mk g) in *. exists b', h', g'. split; [done|].
  pose proof (turn_views p b g x t buy mk l (add_fill q t) (set_status Filled (add_fill q m)) Hi Ht Hfl) as [Hv Hov].
  fold h in Hv, Hov.
  assert (flat (glevels buy g') = l) as Hfl'.
  { pose proof (gdel_filter _ _ _ _ _ buy (mi_rep _ _ _ Hi) Hmk Hm) as Ef. rewrite Hbuy in Ef.
    unfold g'. rewrite Ef, Hfl. apply (filter_ne_middle mk [] l). rewrite <- Hfl. apply (mi_rep _ _ _ Hi). }
  constructor; simpl.
  - by eapply minv_removed.
  - constructor; simpl; [|by intros [_ Hx]%Hel; apply Ht| |done].
    + rewrite Hout by apply Ht. unfold h. rewrite list_lookup_insert_ne by done.
      apply lookup_upd_eq. eexists. apply Ht.
    + apply allocated_with_storage; [done|apply Ht].
  - done.
  - rewrite !absr_side, Hfl, Hfl', (hview_hdata h' h) by done.
    rewrite (hview_cons _ _ _ _ Hm), Hv. by apply fills_filled.
  - rewrite !absr_side. unfold g'. rewrite gdel_other, (hview_hdata h' h) by done. done.
  - intros y Hy Hyx. rewrite Hout by done. unfold h.
    rewrite !list_lookup_insert_ne by (done || set_solver). done.
  - done.
  - done.
  - intros y. rewrite Hel. split; (intros [? ?]; split; [congruence|done]).
  - intros y [= <-]. split_and!; [done|done|]. destruct (hdata_lookup_some h h' mk (set_status Filled (add_fill q m)))
      as (m' & Hm' & Ed); [done|unfold h; apply lookup_upd_eq; rewrite list_lookup_insert_ne by done; eauto|].
    exists m'. split; [done|]. destruct (data_inv _ _ Ed) as (_ & _ & _ & _ & Hqi & Hqf & _).
    unfold qty_ok. by rewrite Hqi, Hqf.
  - done.
  - intros id [loc Hl]. rewrite Hmap in Hl. apply lookup_delete_Some in Hl as [_ Hl]. eauto.
  - left. rewrite Hfl, Hfl'. simpl. lia.
  - intros Hix. eapply book_indexed_gone; [done|done|done|done|]. intros y o' Hy Ho'.
    destruct (proj1 (Hel y) Hy). split_and!; [done|done|]. by apply Hsame.
Qed.

(** The maker is left with a part of its quantity. *)
Lemma trade_partial p b g x t opp mk l m :
  minv p b g → taker_ok p g x t → flat (glevels (is_buy opp) g) = mk :: l →
  storage_ p !! mk = Some m → stops t (limit_price m) = false →
  (0 < remaining t < remaining m)%Z →
  let q := remaining t in
  let h := <[mk := set_status PartiallyFilled (add_fill q m)]> (<[x := add_fill q t]> (storage_ p)) in
  let tr := mkTrade (oid m) (oid t) (oinstrument t) (limit_price m) q (ts t) in
  trade_post (is_buy opp) p b g x t tr None (with_storage h p) b g (add_fill q t).
Proof.
  intros Hi Ht Hfl Hm Hst Hlt q h tr.
  destruct (partial_maker_step p b g x t opp mk l m q Hi Ht Hfl Hm eq_refl Hlt)
    as (Hi1 & Ht1 & Hv & Hov & Hfr & Hix). fold h in Hi1, Ht1, Hv, Hov, Hfr, Hix.
  destruct (add_fill_qty q t (to_qty _ _ _ _ Ht)) as (_ & _ & Hz); [unfold q; lia|].
  constructor; try done.
  - rewrite !absr_side, Hfl, Hv, (hview_cons _ _ _ _ Hm). apply fills_partial; [done|done|].
    fold q. lia.
  - by rewrite !absr_side.
  - unfold capacity, h. simpl. by rewrite !length_insert.
  - intros y. split; [done|by intros []].
  - right. split_and!; [done|done|lia|]. rewrite Hz. unfold q. lia.
Qed.

(** One turn: it ends when the specification makes no more trades, and
    otherwise makes the next one. *)
Lemma turn_spec opp x b p g t :
  minv p b g → taker_ok p g x t →
  ∃ r, turn opp x b (storage_ p) = Some r ∧
    match r with
    | T_stop =>
        let v := a_side (is_buy opp) (absr (storage_ p) g) in fills (data t) v = ([], data t, v)
    | T_trade b' h tr filled =>
        ∃ g' t', trade_post (is_buy opp) p b g x t tr filled (with_storage h p) b' g' t'
    end.
Proof.
  intros Hi Ht. set (buy := is_buy opp).
  pose proof (peek_top_spec _ _ _ opp (mi_rep _ _ _ Hi)) as Hpk. fold buy in Hpk.
  pose proof (to_at _ _ _ _ Ht) as Hat. pose proof (remaining_bounds _ (to_qty _ _ _ _ Ht)) as Htb.
  rewrite absr_side. destruct (flat (glevels buy g)) as [|mk l] eqn:Hfl.
  { exists T_stop. split; [apply (turn_stop _ _ _ _ t); auto|done]. }
  assert (mk ∈ resting g) as Hmk by (apply elem_of_resting; exists buy; rewrite Hfl; left).
  destruct (book_rep_lookup _ _ _ _ (mi_rep _ _ _ Hi) Hmk) as [m Hm].
  destruct (resting_ok_remaining _ _ (mi_data _ _ _ Hi _ _ Hmk Hm)) as [Hmq Hmr].
  rewrite (hview_cons _ _ _ _ Hm).
  destruct (Z.eqb_spec (remaining t) 0) as [Hz|Hz].
  { exists T_stop. split; [apply (turn_stop _ _ _ _ t); auto|]. simpl. by rewrite data_remaining, Hz. }
  destruct (stops t (limit_price m)) eqn:Est.
  { exists T_stop. split; [apply (turn_stop _ _ _ _ t); eauto 10|].
    simpl. rewrite stops_data. change (limit_price (data m)) with (limit_price m). by rewrite Est, orb_true_r. }
  rewrite (turn_trades opp x b p g t mk m) by (done || lia). cbn zeta.
  destruct (Z.eqb_spec (Z.min (remaining t) (remaining m)) (remaining m)) as [Hq|Hq].
  - rewrite Hq. destruct (trade_filled p b g x t opp mk l m) as (b' & h' & g' & E & P); try done; [lia..|].
    rewrite E. eexists. split; [done|]. by exists g', (add_fill (remaining m) t).
  - assert (Z.min (remaining t) (remaining m) = remaining t) as -> by lia.
    eexists. split; [done|]. exists g, (add_fill (remaining t) t).
    apply (trade_partial p b g x t opp mk l m); (done || lia).
Qed.
