(* ===== verification/Priority.v ===== *)
(** * Price-time priority, conservation and the uncrossed book

    What the specification of [MatchSpec.v] and [SubmitSpec.v] guarantees, and
    the same guarantees for the pointer code of [Matcher.v] through the
    refinement. *)

From S2P Require Import Prelude StdMap Types Heap Pool PriceLevel OrderBook Latency Matcher.
From S2P Require Import MatchSpec SubmitSpec.

(** Priority order of a side: no later order has a better price. *)
Definition a_sorted (buy : bool) (l : list Order) : Prop :=
  StronglySorted (λ m n, cmp buy (limit_price n) (limit_price m) = false) l.

(** No bid at or above an ask. *)
Definition a_uncrossed (a : ABook) : Prop :=
  ∀ b k, b ∈ a_bids a → k ∈ a_asks a → (limit_price b < limit_price k)%Z.

Definition makers_ok (ms : list Order) : Prop := ∀ m, m ∈ ms → qty_ok m ∧ (0 < remaining m)%Z.

(** The trade of taker [t] with maker [m]. *)
Definition trade_of (t m : Order) (q : Quantity) : Trade :=
  mkTrade (oid m) (oid t) (oinstrument t) (limit_price m) q (ts t).

(** [price_time t ms trs rest]: the makers [ms] split into those that are
    filled completely (their trades in order), at most one that is filled in
    part, and those that are left alone; [rest] is what remains of them. *)
Inductive price_time (t : Order) : list Order → list Trade → list Order → Prop :=
| pt_stop ms : price_time t ms [] ms
| pt_partial m ms q :
    (0 < q < remaining m)%Z → stops t (limit_price m) = false →
    price_time t (m :: ms) [trade_of t m q] (set_status PartiallyFilled (add_fill q m) :: ms)
| pt_full m ms trs rest :
    stops t (limit_price m) = false → price_time t ms trs rest →
    price_time t (m :: ms) (trade_of t m (remaining m) :: trs) rest.

(** ** The fills of one taker *)

Lemma makers_ok_cons m ms : makers_ok (m :: ms) ↔ (qty_ok m ∧ (0 < remaining m)%Z) ∧ makers_ok ms.
Proof.
  unfold makers_ok. split.
  - intros H. split; [apply H; left|]. intros n Hn. apply H. by right.
  - intros [? ?] n [->|Hn]%elem_of_cons; auto.
Qed.

Lemma stops_add_fill q t p : stops (add_fill q t) p = stops t p.
Proof. done. Qed.

Lemma crossing_add_fill q t ms : crossing (add_fill q t) ms = crossing t ms.
Proof. induction ms; simpl; [done|]. by rewrite stops_add_fill, IHms. Qed.

Lemma trade_of_add_fill q t m r : trade_of (add_fill q t) m r = trade_of t m r.
Proof. done. Qed.

Lemma price_time_add_fill q t ms trs rest :
  price_time (add_fill q t) ms trs rest → price_time t ms trs rest.
Proof. induction 1; [apply pt_stop|by apply (pt_partial t)|by apply (pt_full t)]. Qed.

(** One step of [fills] when the maker crosses. *)
Lemma fills_cons t m ms :
  qty_ok t → qty_ok m → (0 < remaining m)%Z → (0 < remaining t)%Z →
  stops t (limit_price m) = false →
  fills t (m :: ms) =
    if (remaining m <=? remaining t)%Z then
      let '(trs, t', rest) := fills (add_fill (remaining m) t) ms in
      (trade_of t m (remaining m) :: trs, t', rest)
    else ([trade_of t m (remaining t)], add_fill (remaining t) t,
          set_status PartiallyFilled (add_fill (remaining t) m) :: ms).
Proof.
  intros Ht Hm Hpm Hpt Hst. simpl. rewrite Hst, (proj2 (Z.eqb_neq _ _)) by lia. simpl.
  destruct (Z.leb_spec (remaining m) (remaining t)).
  - rewrite Z.min_r, Z.eqb_refl by lia. done.
  - rewrite Z.min_l, (proj2 (Z.eqb_neq _ _)) by lia. done.
Qed.

Lemma fills_stop t m ms :
  remaining t = 0%Z ∨ stops t (limit_price m) = true → fills t (m :: ms) = ([], t, m :: ms).
Proof. intros [H|H]; simpl; rewrite H; [done|]. by rewrite orb_true_r. Qed.

(** Case analysis on [fills]: the three ways a turn can end. *)
Lemma fills_ind (P : Order → list Order → list Trade → Order → list Order → Prop) :
  (∀ t ms, qty_ok t → makers_ok ms →
     (remaining t = 0%Z ∨ ms = [] ∨ ∃ m ms', ms = m :: ms' ∧ stops t (limit_price m) = true) →
     P t ms [] t ms) →
  (∀ t m ms, qty_ok t → makers_ok (m :: ms) → (0 < remaining t < remaining m)%Z →
     stops t (limit_price m) = false →
     P t (m :: ms) [trade_of t m (remaining t)] (add_fill (remaining t) t)
       (set_status PartiallyFilled (add_fill (remaining t) m) :: ms)) →
  (∀ t m ms trs t' rest, qty_ok t → makers_ok (m :: ms) → (0 < remaining m ≤ remaining t)%Z →
     stops t (limit_price m) = false → qty_ok (add_fill (remaining m) t) →
     P (add_fill (remaining m) t) ms trs t' rest →
     P t (m :: ms) (trade_of t m (remaining m) :: trs) t' rest) →
  ∀ t ms, qty_ok t → makers_ok ms →
    P t ms (fills t ms).1.1 (fills t ms).1.2 (fills t ms).2.
Proof.
  intros Hstop Hpart Hfull t ms. revert t. induction ms as [|m ms IH]; intros t Ht Hms.
  { apply Hstop; auto. }
  pose proof Hms as [[Hm Hpm] Hms']%makers_ok_cons. pose proof (remaining_bounds _ Ht).
  destruct (decide (remaining t = 0%Z)) as [Hz|Hz].
  { rewrite fills_stop by auto. apply Hstop; auto. }
  destruct (stops t (limit_price m)) eqn:Est.
  { rewrite fills_stop by auto. apply Hstop; eauto 10. }
  rewrite fills_cons by (done || lia).
  destruct (Z.leb_spec (remaining m) (remaining t)).
  - destruct (add_fill_qty (remaining m) t Ht) as (Hq & _ & _); [lia|].
    specialize (IH _ Hq Hms'). destruct (fills _ ms) as [[trs t'] rest]. simpl in *.
    by apply Hfull.
  - simpl. apply Hpart; try done; lia.
Qed.

Lemma fills_price_time t ms :
  qty_ok t → makers_ok ms → price_time t ms (fills t ms).1.1 (fills t ms).2.
Proof.
  revert t ms. apply (fills_ind (λ t ms trs _ rest, price_time t ms trs rest)).
  - constructor.
  - constructor; [lia|done].
  - intros. constructor; [done|]. by eapply price_time_add_fill.
Qed.

(** The taker is filled as far as the crossing makers allow. *)
Lemma fills_exact t ms :
  qty_ok t → makers_ok ms →
  qty_ok (fills t ms).1.2 ∧
  remaining (fills t ms).1.2 = Z.max 0 (remaining t - qty_total (crossing t ms)).
Proof.
  revert t ms. apply (fills_ind (λ t ms _ t' _, qty_ok t' ∧
    remaining t' = Z.max 0 (remaining t - qty_total (crossing t ms)))).
  - intros t ms Ht Hms Hend. split; [done|]. pose proof (remaining_bounds _ Ht).
    assert (0 ≤ qty_total (crossing t ms))%Z.
    { apply sumZ_nonneg, Forall_forall. intros z (o & -> & Ho%crossing_elem)%list_elem_of_fmap.
      by apply remaining_bounds, Hms. }
    destruct Hend as [Hz|[->|(m & ms' & -> & Hs)]]; [lia| |]; simpl; rewrite ?Hs; unfold qty_total; simpl; lia.
  - intros t m ms Ht Hms Hlt Hs. destruct (add_fill_qty (remaining t) t Ht) as (? & _ & ->); [lia|].
    split; [done|]. simpl. rewrite Hs, qty_total_cons.
    assert (0 ≤ qty_total (crossing t ms))%Z; [|lia].
    apply makers_ok_cons in Hms as [_ Hms].
    apply sumZ_nonneg, Forall_forall. intros z (o & -> & Ho%crossing_elem)%list_elem_of_fmap.
    by apply remaining_bounds, Hms.
  - intros t m ms trs t' rest Ht Hms Hle Hs Hq [? ->]. split; [done|]. simpl.
    rewrite Hs, qty_total_cons, crossing_add_fill.
    destruct (add_fill_qty (remaining m) t Ht) as (_ & _ & ->); lia.
Qed.

(** Quantity is neither created nor lost. *)
Lemma fills_conserve t ms :
  qty_ok t → makers_ok ms →
  sumZ (quantity <$> (fills t ms).1.1) = (remaining t - remaining (fills t ms).1.2)%Z ∧
  sumZ (quantity <$> (fills t ms).1.1) = (qty_total ms - qty_total (fills t ms).2)%Z ∧
  Forall (λ tr, 0 < quantity tr)%Z (fills t ms).1.1.
Proof.
  revert t ms. apply (fills_ind (λ t ms trs t' rest,
    sumZ (quantity <$> trs) = (remaining t - remaining t')%Z ∧
    sumZ (quantity <$> trs) = (qty_total ms - qty_total rest)%Z ∧
    Forall (λ tr, 0 < quantity tr)%Z trs)).
  - intros t ms Ht Hms _. unfold sumZ. simpl. split_and!; [lia|lia|done].
  - intros t m ms Ht [[Hm _] Hms]%makers_ok_cons Hlt Hs.
    destruct (add_fill_qty (remaining t) t Ht) as (? & _ & ->); [lia|].
    destruct (add_fill_qty (remaining t) m Hm) as (? & _ & Hr); [lia|].
    rewrite !qty_total_cons. change (remaining (set_status _ ?o)) with (remaining o). rewrite Hr.
    unfold sumZ. simpl. split_and!; [lia|lia|]. repeat constructor. simpl. lia.
  - intros t m ms trs t' rest Ht Hms Hle Hs Hq (H1 & H2 & H3).
    destruct (add_fill_qty (remaining m) t Ht) as (_ & _ & Hr); [lia|].
    rewrite fmap_cons, qty_total_cons. unfold sumZ in *. simpl. split_and!; [lia|lia|].
    constructor; [simpl; lia|done].
Qed.

(** The makers that are left have prices of the original makers, in order. *)
Lemma fills_rest_prices t ms :
  qty_ok t → makers_ok ms →
  (limit_price <$> (fills t ms).2) `suffix_of` (limit_price <$> ms) ∧ makers_ok (fills t ms).2.
Proof.
  revert t ms. apply (fills_ind (λ t ms _ _ rest,
    (limit_price <$> rest) `suffix_of` (limit_price <$> ms) ∧ makers_ok rest)).
  - done.
  - intros t m ms Ht [[Hm _] Hms]%makers_ok_cons Hlt Hs. split; [done|].
    apply makers_ok_cons. split; [|done].
    destruct (add_fill_qty (remaining t) m Hm) as (? & _ & Hr); [lia|].
    change (remaining (set_status _ ?o)) with (remaining o). split; [done|lia].
  - intros t m ms trs t' rest Ht Hms Hle Hs Hq [H1 H2]. split; [|done].
    rewrite fmap_cons. by apply suffix_cons_r.
Qed.

(** When quantity is left, the next maker, if any, does not cross. *)
Lemma fills_blocked t ms :
  qty_ok t → makers_ok ms → (0 < remaining (fills t ms).1.2)%Z →
  match (fills t ms).2 with [] => True | m :: _ => stops t (limit_price m) = true end.
Proof.
  revert t ms. apply (fills_ind (λ t ms _ t' rest, (0 < remaining t')%Z →
    match rest with [] => True | m :: _ => stops t (limit_price m) = true end)).
  - intros t ms Ht Hms [Hz|[->|(m & ms' & -> & Hs)]] Hr; [lia|done|done].
  - intros t m ms Ht Hms Hlt Hs. destruct (add_fill_qty (remaining t) t Ht) as (? & _ & ->); lia.
  - intros t m ms trs t' rest Ht Hms Hle Hs Hq IH Hr. specialize (IH Hr).
    by destruct rest.
Qed.

(** ** Facts about represented books *)

Lemma minv_makers p b g buy : minv p b g → makers_ok (hview (storage_ p) (flat (glevels buy g))).
Proof.
  intros Hi m (x & o & Hx & Ho & ->)%elem_of_hview. rewrite data_remaining. change (qty_ok (data o)) with (qty_ok o).
  apply (resting_ok_remaining (instrument_ b)), (mi_data _ _ _ Hi x); [|done].
  apply elem_of_resting. eauto.
Qed.

(** Every order of the view stands on a level of its price. *)
Lemma view_level p b g buy o :
  minv p b g → o ∈ hview (storage_ p) (flat (glevels buy g)) →
  limit_price o ∈ (glevels buy g).*1 ∧ is_buy (side o) = buy.
Proof.
  intros Hi (x & o' & Hx & Ho & ->)%elem_of_hview. apply elem_of_flat in Hx as (q & xs & Hq & Hx).
  destruct (mi_rep _ _ _ Hi) as [Hs _]. destruct (Hs buy) as (_ & _ & _ & Hr).
  destruct (Hr q xs Hq) as [_ H']. destruct (H' x Hx) as (o2 & ? & <- & ?). simplify_eq.
  split; [|done]. by apply (list_elem_of_fmap_2 fst _ (limit_price o', xs)).
Qed.

Lemma minv_sorted p b g buy :
  minv p b g → a_sorted buy (hview (storage_ p) (flat (glevels buy g))).
Proof.
  intros Hi. destruct (mi_rep _ _ _ Hi) as [Hs _]. destruct (Hs buy) as (_ & Hsort & _ & Hr).
  revert Hsort Hr. induction (glevels buy g) as [|[q xs] l IH]; intros Hsort Hr; [constructor|].
  apply map_sorted_cons in Hsort as [Hlt Hsort]. rewrite flat_cons, hview_app.
  specialize (IH Hsort ltac:(intros; apply Hr; by right)).
  destruct (Hr q xs ltac:(left)) as [_ Hx].
  assert (∀ n, n ∈ hview (storage_ p) (flat l) → cmp buy (limit_price n) q = false) as Hl.
  { intros n (y & oy & Hy & Hoy & ->)%elem_of_hview. apply elem_of_flat in Hy as (r & ys & Hr' & Hy).
    destruct (Hr r ys ltac:(by right)) as [_ H2]. destruct (H2 y Hy) as (o2 & ? & <- & _). simplify_eq.
    apply (ltb_asym (cmp buy)), Hlt. by apply (list_elem_of_fmap_2 fst _ (limit_price oy, ys)). }
  clear Hlt Hsort Hr. induction xs as [|x xs IHx]; [done|].
  destruct (Hx x ltac:(left)) as (o & Ho & Hp & _). rewrite (hview_cons _ _ _ _ Ho). constructor.
  - apply IHx. intros; apply Hx. by right.
  - apply Forall_forall. intros n [Hn|Hn]%elem_of_app; change (limit_price (data o)) with (limit_price o);
      rewrite Hp; [|by apply Hl].
    apply elem_of_hview in Hn as (y & oy & Hy & Hoy & ->).
    destruct (Hx y ltac:(by right)) as (o2 & ? & Hp2 & _). simplify_eq.
    change (limit_price (data oy)) with (limit_price oy). rewrite Hp2. apply (ltb_irrefl (ltb:=cmp buy)).
Qed.

(** The top of a side is the price of the first order of its view. *)
Lemma best_view p b g buy :
  minv p b g →
  fst <$> head (levels buy b) = limit_price <$> head (hview (storage_ p) (flat (glevels buy g))).
Proof.
  intros Hi. pose proof (glevels_cases _ _ _ buy (mi_rep _ _ _ Hi)) as H.
  destruct (glevels buy g) as [|[q xs] l]; [by rewrite H|].
  destruct H as (x & xs' & lv & lr & o & -> & -> & _ & Ho & <- & _).
  rewrite flat_cons. simpl app. by rewrite (hview_cons _ _ _ _ Ho).
Qed.

Lemma uncrossed_absr p b g :
  minv p b g → uncrossed b ↔ a_uncrossed (absr (storage_ p) g).
Proof.
  intros Hi. pose proof (best_view p b g true Hi) as Hb. pose proof (best_view p b g false Hi) as Ha.
  pose proof (minv_sorted p b g true Hi) as Sb. pose proof (minv_sorted p b g false Hi) as Sa.
  unfold uncrossed, a_uncrossed, best_bid, best_ask. simpl in *. rewrite Hb, Ha.
  destruct (hview (storage_ p) (flat (gbids g))) as [|ob lb]; simpl; [set_solver|].
  destruct (hview (storage_ p) (flat (gasks g))) as [|oa la]; simpl; [set_solver|].
  split.
  - intros H b0 k0 Hb0 Hk0. specialize (H _ _ eq_refl eq_refl).
    apply StronglySorted_inv in Sb as [_ Fb]. apply StronglySorted_inv in Sa as [_ Fa].
    assert (limit_price b0 ≤ limit_price ob)%Z.
    { apply elem_of_cons in Hb0 as [->|Hb0]; [lia|]. rewrite Forall_forall in Fb.
      specialize (Fb _ Hb0). simpl in Fb. rewrite Z.gtb_ltb in Fb. zbool. lia. }
    assert (limit_price oa ≤ limit_price k0)%Z; [|lia].
    apply elem_of_cons in Hk0 as [->|Hk0]; [lia|]. rewrite Forall_forall in Fa.
    specialize (Fa _ Hk0). simpl in Fa. zbool. lia.
  - intros H pb pa [= <-] [= <-]. apply H; left.
Qed.

Lemma elem_of_a_insert buy o l n : n ∈ a_insert buy o l ↔ n = o ∨ n ∈ l.
Proof.
  induction l as [|m l IH]; simpl; [set_solver|].
  destruct (cmp buy _ _); rewrite !elem_of_cons, ?IH; tauto.
Qed.

(** A resting taker does not cross what is left on the other side. *)
Lemma fills_no_cross t ms m :
  let opp := negb (is_buy (side t)) in
  qty_ok t → makers_ok ms → a_sorted opp ms → (0 < remaining (fills t ms).1.2)%Z →
  m ∈ (fills t ms).2 → (if is_buy (side t) then limit_price t < limit_price m else limit_price m < limit_price t)%Z.
Proof.
  intros opp Ht Hms Hs Hr Hm. pose proof (fills_blocked t ms Ht Hms Hr) as Hb.
  destruct (fills_rest_prices t ms Ht Hms) as [[l Hsuf] _].
  destruct (fills t ms).2 as [|m0 rest]; [set_solver|].
  unfold stops, prices_cross in Hb. apply andb_true_iff in Hb as [_ Hb%negb_true_iff].
  assert (cmp opp (limit_price m) (limit_price m0) = false) as Hc.
  { apply elem_of_cons in Hm as [->|Hm]; [apply (ltb_irrefl (ltb:=cmp opp))|].
    assert (StronglySorted (λ p q, cmp opp q p = false) (limit_price <$> ms)) as Hs'.
    { clear -Hs. induction Hs as [|a l' Hl IH Hf]; [constructor|]. rewrite fmap_cons.
      constructor; [done|]. apply Forall_fmap. exact Hf. }
    rewrite Hsuf in Hs'. apply StronglySorted_app_1_r in Hs'. rewrite fmap_cons in Hs'.
    apply StronglySorted_inv in Hs' as [_ Hf]. rewrite Forall_forall in Hf. apply Hf.
    by apply list_elem_of_fmap_2. }
  unfold opp in Hc. destruct (is_buy (side t)); simpl in *; rewrite ?Z.gtb_ltb in *; zbool; lia.
Qed.

Lemma a_submit_uncrossed inst tm o a :
  qty_ok o → (∀ buy, makers_ok (a_side buy a) ∧ a_sorted buy (a_side buy a)) →
  a_uncrossed a → a_uncrossed (a_submit inst tm o a).1.1.
Proof.
  intros Ho Ha Hu. unfold a_submit. set (opp := negb (is_buy (side o))).
  destruct (invalid inst o); [done|]. destruct (_ && _); [done|]. destruct (Ha opp) as [Hmk Hso].
  destruct (fills_rest_prices o (a_side opp a) Ho Hmk) as [Hsuf _].
  destruct (fills_exact o (a_side opp a) Ho Hmk) as [Hq1 _].
  pose proof (fills_no_cross o (a_side opp a)) as Hnc. fold opp in Hnc.
  destruct (fills_taker o (a_side opp a)) as [q Hft].
  destruct (fills o (a_side opp a)) as [[trs o1] rest]. simpl in *.
  assert (side o1 = side o ∧ limit_price o1 = limit_price o) as [Hsd Hlp] by (rewrite Hft; done).
  assert (∀ n, n ∈ rest → ∃ n', n' ∈ a_side opp a ∧ limit_price n' = limit_price n) as Hrest.
  { intros n Hn. destruct Hsuf as [l Hsuf].
    assert (limit_price n ∈ limit_price <$> a_side opp a) as (n' & ? & ?)%list_elem_of_fmap.
    { rewrite Hsuf. apply elem_of_app. right. by apply list_elem_of_fmap_2. }
    eauto. }
  set (a1 := set_a_side opp rest a).
  assert (a_uncrossed a1) as Hu1.
  { intros b k Hb Hk. unfold a1 in Hb, Hk. destruct opp; simpl in *.
    - destruct (Hrest b Hb) as (n & Hn & <-). by apply Hu.
    - destruct (Hrest k Hk) as (n & Hn & <-). by apply Hu. }
  unfold a_settle. rewrite fully_filled_ok by done.
  destruct (remaining o1 =? 0)%Z eqn:Er; [done|]. destruct (_ || _); [done|].
  pose proof (remaining_bounds _ Hq1). zbool. simpl.
  assert (∀ m, m ∈ rest → if is_buy (side o) then (limit_price o < limit_price m)%Z
                          else (limit_price m < limit_price o)%Z) as Hc.
  { intros m Hm. apply Hnc; try done. lia. }
  rewrite Hsd. intros b k Hb Hk. unfold a1, opp in *. destruct (is_buy (side o)); simpl in *.
  - apply elem_of_a_insert in Hb as [->|Hb]; [|by apply Hu1].
    specialize (Hc k Hk). simpl. lia.
  - apply elem_of_a_insert in Hk as [->|Hk]; [|by apply Hu1].
    specialize (Hc b Hb). simpl. lia.
Qed.
