(* ===== verification/MatcherProps.v ===== *)
(** * What a matcher guarantees

    The properties of [Matcher::submit], [cancel] and [cancel_all], stated of
    the pointer code of [Matcher.v] through the refinement of [SubmitSpec.v]
    and [CancelSpec.v].  The witnesses run on a small book: two asks of 5 at
    100 and at 101, and a taker in a slot of its own. *)

From S2P Require Import Prelude StdMap Types Heap Pool PriceLevel OrderBook Latency Matcher.
From S2P Require Import MatchSpec SubmitSpec CancelSpec Priority.

(** ** A concrete book *)

Definition ex_order (id : OrderId) (px : Price) (q : Quantity) (sd : Side) (ty : OrderType)
    (tf : TimeInForce) : Order :=
  mkOrder id px q kZeroQty 7%Z 1%Z New sd ty tf 0%Z 0%Z 0%Z None None.

Definition ex_ask1 : Order := ex_order 1 100 5 Sell Limit GTC.
Definition ex_ask2 : Order := ex_order 2 101 5 Sell Limit GTC.

Definition ex_pool (t : Order) : Pool :=
  mkPool [Order_init; t; ex_ask2; ex_ask1] [0; 1; 2; 3] 1.
Definition ex_book : OrderBook :=
  mkBook 7 [] [(100%Z, mkLevel (Some 3) (Some 3)); (101%Z, mkLevel (Some 2) (Some 2))]
    (<[2%Z := locator_of 2 ex_ask2]> (<[1%Z := locator_of 3 ex_ask1]> ∅)).
Definition ex_ghost : GBook := mkGBook [] [(100%Z, [3]); (101%Z, [2])].
Definition ex_sys (t : Order) : Sys := mkSys (ex_pool t) 0.
Definition ex_matcher : Matcher := mkMatcher ex_book Tracker_new.

Lemma ex_side_bids t : side_rep (storage_ (ex_pool t)) true [] [].
Proof. split_and!; [constructor|constructor|apply NoDup_nil_2|set_solver]. Qed.

Lemma ex_side_asks t :
  side_rep (storage_ (ex_pool t)) false (asks_ ex_book) (gasks ex_ghost).
Proof.
  split_and!.
  - repeat constructor; simpl; try apply not_elem_of_nil;
      try (by eexists; split_and!; [reflexivity|..]).
  - repeat constructor.
  - change (NoDup [3; 2]). repeat constructor; set_solver.
  - intros p xs [[= -> ->]|[[= -> ->]|[]%not_elem_of_nil]%elem_of_cons]%elem_of_cons;
      (split; [done|]); intros x ->%list_elem_of_singleton; by eexists.
Qed.

Lemma ex_map_ok t : map_ok (storage_ (ex_pool t)) ex_book ex_ghost.
Proof.
  intros id loc H. simpl in H.
  apply lookup_insert_Some in H as [[<- <-]|[_ H]].
  { exists ex_ask2. split_and!; [|done..]. unfold resting. simpl. set_solver. }
  apply lookup_insert_Some in H as [[<- <-]|[_ H]]; [|done].
  exists ex_ask1. split_and!; [|done..]. unfold resting. simpl. set_solver.
Qed.

Lemma ex_resting x : x ∈ resting ex_ghost → x = 3 ∨ x = 2.
Proof. unfold resting. simpl. set_solver. Qed.

Lemma ex_minv t : minv (ex_pool t) ex_book ex_ghost.
Proof.
  constructor.
  - split_and!; [done|unfold capacity; simpl; lia|done|apply NoDup_singleton|].
    intros x Hx. unfold free in Hx. simpl in Hx. apply list_elem_of_singleton in Hx as ->.
    unfold capacity. simpl. lia.
  - split; [|apply ex_map_ok]. intros []; [apply ex_side_bids|apply ex_side_asks].
  - intros x o [->| ->]%ex_resting [= <-]; done.
  - intros x [->| ->]%ex_resting; (split; [unfold capacity; simpl; lia|]);
      unfold free; simpl; set_solver.
Qed.

Lemma ex_taker t : qty_ok t → taker_ok (ex_pool t) ex_ghost 1 t.
Proof.
  intros Hq. constructor; [done| | |done].
  - by intros [|]%ex_resting.
  - split; [unfold capacity; simpl; lia|]. unfold free. simpl. set_solver.
Qed.

Lemma ex_indexed t : book_indexed (storage_ (ex_pool t)) ex_book ex_ghost.
Proof. intros x o [->| ->]%ex_resting [= <-]; by vm_compute. Qed.

Definition ex_clock (n : nat) : Z := Z.of_nat n * 100.
Definition ex_buy : Order := ex_order 3 101 7 Buy Limit GTC.

(** ** Cases of the specification *)

(** The status of an order that was matched. *)
Definition settled_status (o : Order) : OrderStatus :=
  if decide (filled_qty o = initial_qty o) then Filled
  else if decide (0 < filled_qty o)%Z then PartiallyFilled
  else if decide (type o = Market ∨ tif o = IOC) then Cancelled
  else New.

Lemma settled_status_cases o :
  settled_status o ≠ Rejected ∧ (settled_status o = Filled ↔ filled_qty o = initial_qty o) ∧
  (type o = Market ∨ tif o = IOC → settled_status o ≠ New).
Proof. unfold settled_status. repeat case_decide; naive_solver. Qed.

Lemma a_settle_spec tm t a a' o' :
  a_settle tm t a = (a', o') →
  let buy := is_buy (side t) in
  o' = set_match_complete tm (set_status (settled_status t) t) ∧
  a_side (negb buy) a' = a_side (negb buy) a ∧
  ((is_fully_filled t || bool_decide (type t = Market) || bool_decide (tif t = IOC) = true ∧ a' = a) ∨
   (is_fully_filled t || bool_decide (type t = Market) || bool_decide (tif t = IOC) = false ∧
    a_side buy a' = a_insert buy o' (a_side buy a))).
Proof.
  intros H buy. unfold a_settle in H. fold buy in H. unfold settled_status, is_fully_filled in *.
  destruct (Z.eqb_spec (filled_qty t) (initial_qty t)) as [Hq|Hq]; simpl.
  { injection H as <- <-. rewrite decide_True by done. split_and!; [done|done|by left]. }
  rewrite decide_False by done.
  assert ((if (0 <? filled_qty t)%Z then PartiallyFilled
           else if bool_decide (type t = Market) || bool_decide (tif t = IOC) then Cancelled else New) =
    if decide (0 < filled_qty t)%Z then PartiallyFilled
    else if decide (type t = Market ∨ tif t = IOC) then Cancelled else New) as <-.
  { destruct (Z.ltb_spec 0 (filled_qty t)); [by rewrite decide_True|]. rewrite (decide_False (P:=(0 < _)%Z)) by lia.
    repeat case_bool_decide; case_decide; tauto. }
  destruct (bool_decide (type t = Market) || bool_decide (tif t = IOC)) eqn:Eb; injection H as <- <-.
  - split_and!; [done|done|auto].
  - split_and!; [done|by destruct buy|]. right. split; [done|]. by destruct buy.
Qed.

(** An order is either rejected and changes nothing, or matched and settled. *)
Lemma a_submit_cases inst tm o a a' o' trs :
  a_submit inst tm o a = (a', o', trs) →
  let opp := negb (is_buy (side o)) in
  (a' = a ∧ o' = set_status Rejected o ∧ trs = [] ∧
   (invalid inst o = true ∨
    tif o = FOK ∧ (qty_total (crossing o (a_side opp a)) < remaining o)%Z)) ∨
  (invalid inst o = false ∧
   (tif o = FOK → (remaining o ≤ qty_total (crossing o (a_side opp a)))%Z) ∧
   ∃ t, fills o (a_side opp a) = (trs, t, a_side opp a') ∧
     a_settle tm t (set_a_side opp (a_side opp a') a) = (a', o')).
Proof.
  intros H opp. unfold a_submit in H. fold opp in H.
  destruct (invalid inst o) eqn:Einv; [injection H as <- <- <-; auto 10|].
  destruct (bool_decide (tif o = FOK) && _) eqn:Ef.
  { injection H as <- <- <-. left. split_and!; [done..|]. right.
    zbool. by apply bool_decide_eq_true in H. }
  right. split_and!; [done| |].
  { intros Hf. rewrite bool_decide_eq_true_2 in Ef by done. simpl in Ef. zbool. lia. }
  destruct (fills_taker o (a_side opp a)) as [q Hq].
  destruct (fills o (a_side opp a)) as [[trs0 t] rest]. simpl in Hq.
  destruct (a_settle tm t _) as [a2 o2] eqn:Es. injection H as -> -> ->.
  assert (side t = side o) as Hs by by rewrite Hq.
  pose proof (a_settle_spec _ _ _ _ _ Es) as (_ & Ho & _). rewrite Hs in Ho. fold opp in Ho.
  rewrite a_side_set in Ho. rewrite (proj2 (Bool.eqb_true_iff opp opp) eq_refl) in Ho. rewrite Ho.
  by exists t.
Qed.

(** ** Submission *)

(** The abstract book of a matcher. *)
Definition view (s : Sys) (g : GBook) : ABook := absr (storage_ (pool_ s)) g.

(** The call [submit x] is defined, restores the invariant and leaves the
    taker in its slot; [P] holds of the result, the new state and the taker. *)
Definition submits (clock : nat → Z) (x : ptr) (m : Matcher) (s : Sys)
    (P : MatchResult → Matcher → Sys → GBook → Order → Prop) : Prop :=
  ∃ r m' s' g' o', submit clock x m s = Some (r, m', s') ∧
    minv (pool_ s') (book_ m') g' ∧ order_at x s' = Some o' ∧ P r m' s' g' o'.

Section submission.
Context (clock : nat → Z) (x : ptr) (m : Matcher) (s : Sys) (g : GBook) (o : Order).
Hypothesis Hinv : minv (pool_ s) (book_ m) g.
Hypothesis Htaker : taker_ok (pool_ s) g x o.

(** All the facts of [submit_spec], with the case analysis of the
    specification. *)
Lemma submits_cases (P : MatchResult → Matcher → Sys → GBook → Order → Prop) :
  (∀ r m' s' g' o', r_order r = x →
     submit_post (pool_ s) (book_ m) g x o (pool_ s') (book_ m') g' o' →
     a_submit (instrument_ (book_ m)) (i64 (u64 (clock (S (ticks_ s))))) (data o) (view s g) =
       (view s' g', data o', r_trades r) → P r m' s' g' o') →
  submits clock x m s P.
Proof.
  intros H. destruct (submit_spec clock x m s g o Hinv Htaker) as (r & m' & s' & g' & o' & E & Hr & Hp & Ha).
  exists r, m', s', g', o'. split_and!; [done|apply Hp|apply Hp|by apply H].
Qed.

Lemma makers_ok_view buy : makers_ok (a_side buy (view s g)).
Proof. unfold view. rewrite absr_side. by eapply minv_makers. Qed.

Lemma sorted_view buy : a_sorted buy (a_side buy (view s g)).
Proof. unfold view. rewrite absr_side. by eapply minv_sorted. Qed.

Lemma taker_data_ok : qty_ok (data o).
Proof. apply Htaker. Qed.

(** What acceptance means for the abstract book and the taker. *)
Record accepted (tm : Timestamp) (a' : ABook) (o' : Order) (trs : list Trade)
    (st : OrderStatus) (q : Quantity) : Prop := {
  ac_valid : invalid (instrument_ (book_ m)) o = false;
  ac_fok : tif o = FOK →
    (remaining o ≤ qty_total (crossing (data o) (a_side (negb (is_buy (side o))) (view s g))))%Z;
  ac_fills : fills (data o) (a_side (negb (is_buy (side o))) (view s g)) =
    (trs, set_filled_qty q (data o), a_side (negb (is_buy (side o))) a');
  ac_taker : o' = set_match_complete tm (set_status st (set_filled_qty q (data o)));
  ac_qty : qty_ok (set_filled_qty q (data o));
  ac_exact : remaining (set_filled_qty q (data o)) = Z.max 0 (remaining o -
    qty_total (crossing (data o) (a_side (negb (is_buy (side o))) (view s g))));
  ac_status : st = settled_status (set_filled_qty q o);
  ac_own :
    ((q = initial_qty o ∨ type o = Market ∨ tif o = IOC) ∧
      a_side (is_buy (side o)) a' = a_side (is_buy (side o)) (view s g)) ∨
    (q ≠ initial_qty o ∧ type o ≠ Market ∧ tif o ≠ IOC ∧
      a_side (is_buy (side o)) a' =
        a_insert (is_buy (side o)) o' (a_side (is_buy (side o)) (view s g))) }.

Lemma submit_outcome tm a' o' trs :
  a_submit (instrument_ (book_ m)) tm (data o) (view s g) = (a', o', trs) →
  (a' = view s g ∧ o' = set_status Rejected (data o) ∧ trs = [] ∧
    (invalid (instrument_ (book_ m)) o = true ∨ tif o = FOK ∧
      (qty_total (crossing (data o) (a_side (negb (is_buy (side o))) (view s g))) < remaining o)%Z)) ∨
  ∃ st q, accepted tm a' o' trs st q.
Proof.
  intros Ha. apply a_submit_cases in Ha as [?|(Hv & Hk & t & Hf & Hs)]; [by left|right].
  change (side (data o)) with (side o) in *. change (tif (data o)) with (tif o) in *.
  rewrite data_remaining in Hk. set (opp := negb (is_buy (side o))) in *.
  destruct (fills_exact (data o) _ taker_data_ok (makers_ok_view opp)) as [Hq Hr].
  destruct (fills_taker (data o) (a_side opp (view s g))) as [q Ht].
  rewrite Hf in Hq, Hr, Ht. simpl in *. subst t. rewrite data_remaining in Hr.
  apply a_settle_spec in Hs as (Ho & _ & Hown).
  change (side (set_filled_qty q (data o))) with (side o) in Hown.
  change (is_fully_filled (set_filled_qty q (data o))) with (q =? initial_qty o)%Z in *.
  change (type (set_filled_qty q (data o))) with (type o) in *.
  change (tif (set_filled_qty q (data o))) with (tif o) in *.
  rewrite a_side_set in Hown.
  assert (Bool.eqb (is_buy (side o)) opp = false) as Hne by (unfold opp; by destruct (is_buy _)).
  rewrite Hne in Hown. eexists _, q. constructor; try done.
  - destruct Hown as [[Hb Hown]|[Hb Hown]]; [left|right].
    + rewrite Hown, a_side_set, Hne. split; [|done].
      apply orb_true_iff in Hb as [[Hb|Hb]%orb_true_iff|Hb];
        [left; by apply Z.eqb_eq|right; left|right; right]; by apply bool_decide_eq_true in Hb.
    + zbool. by rewrite !bool_decide_eq_false in *.
Qed.

(** The claims below are proved from the two outcomes. *)
Ltac outcome :=
  apply submits_cases; intros r m' s' g' o' Hr Hp Ha; cbv zeta;
  apply submit_outcome in Ha as [(Ev & Eo & Et & Hrej)|(st & q & A)].

(** The data of the taker left in the store. *)
Lemma data_field {A} (f : Order → A) o1 o2 :
  (∀ o, f (data o) = f o) → data o1 = o2 → f o1 = f o2.
Proof. intros H <-. by rewrite H. Qed.

(** C1: [Matcher::submit] implements the specification [a_submit]: on every
    book that satisfies the invariant and every acquired order it is defined
    (no null or dangling pointer, no endless list walk), the trades it returns,
    the taker it leaves and the resting orders of both sides, in priority
    order, are exactly those of [a_submit], and the invariant holds again. *)
Theorem submit_refines :
  submits clock x m s (λ r m' s' g' o',
    a_submit (instrument_ (book_ m)) (i64 (u64 (clock (S (ticks_ s))))) (data o) (view s g) =
      (view s' g', data o', r_trades r) ∧ r_order r = x).
Proof. by apply submits_cases. Qed.

(** C2: price-time priority.  The opposite side is in priority order; the
    trades are with a prefix of it, in that order, each at the maker's price
    and within the taker's limit; every maker of the prefix is filled
    completely but at most the last, which keeps its place; the makers behind
    are untouched; and the taker's own side gains at most the taker, behind
    every order of the same or a better price. *)
Theorem submit_price_time :
  submits clock x m s (λ r m' s' g' o',
    let own := is_buy (side o) in
    a_sorted (negb own) (a_side (negb own) (view s g)) ∧
    price_time (data o) (a_side (negb own) (view s g)) (r_trades r) (a_side (negb own) (view s' g')) ∧
    (a_side own (view s' g') = a_side own (view s g) ∨
     a_side own (view s' g') = a_insert own (data o') (a_side own (view s g)))).
Proof.
  outcome; (split; [apply sorted_view|]).
  { rewrite Ev, Et. split; [constructor|by left]. }
  pose proof (fills_price_time (data o) _ taker_data_ok (makers_ok_view (negb (is_buy (side o))))) as Hpt.
  rewrite (ac_fills _ _ _ _ _ _ A) in Hpt. split; [done|].
  destruct (ac_own _ _ _ _ _ _ A) as [[_ H]|(_ & _ & _ & H)]; auto.
Qed.

(** C3: conservation.  Every trade has a positive quantity, and the sum of the
    traded quantities is what the taker gained in [filled_qty] and what the
    opposite side lost in open quantity. *)
Theorem submit_conserves :
  submits clock x m s (λ r m' s' g' o',
    let opp := negb (is_buy (side o)) in
    Forall (λ t, 0 < quantity t)%Z (r_trades r) ∧
    sumZ (quantity <$> r_trades r) = (filled_qty o' - filled_qty o)%Z ∧
    sumZ (quantity <$> r_trades r) =
      (qty_total (a_side opp (view s g)) - qty_total (a_side opp (view s' g')))%Z).
Proof.
  outcome.
  { rewrite Ev, Et, (data_field filled_qty o' _ (λ _, eq_refl) Eo). unfold sumZ. simpl.
    change (filled_qty (data o)) with (filled_qty o). split_and!; [done|lia|lia]. }
  rewrite (data_field filled_qty o' _ (λ _, eq_refl) (ac_taker _ _ _ _ _ _ A)).
  destruct (fills_conserve (data o) _ taker_data_ok (makers_ok_view (negb (is_buy (side o)))))
    as (H1 & H2 & H3).
  rewrite (ac_fills _ _ _ _ _ _ A) in H1, H2, H3. simpl in *. split_and!; [done| |done].
  rewrite H1, (remaining_ok _ taker_data_ok), (remaining_ok _ (ac_qty _ _ _ _ _ _ A)). simpl.
  change (initial_qty (data o)) with (initial_qty o). change (filled_qty (data o)) with (filled_qty o). lia.
Qed.

(** C4: an order is filled as far as the liquidity within its limit allows: it
    is either rejected, without a trade and without any change of the book, or
    its open quantity afterwards is what that liquidity did not cover, and its
    status says so: [Filled] exactly when nothing is open, [PartiallyFilled] if
    it has traded and something is, and if it has not traded [Cancelled] for a
    market or immediate-or-cancel order and [New] for one that rests. *)
Theorem submit_fills_available :
  submits clock x m s (λ r m' s' g' o',
    let liquidity := qty_total (crossing (data o) (a_side (negb (is_buy (side o))) (view s g))) in
    (status o' = Rejected ∧ r_trades r = [] ∧ view s' g' = view s g) ∨
    (status o' ≠ Rejected ∧ remaining o' = Z.max 0 (remaining o - liquidity) ∧
     (status o' = Filled ↔ remaining o' = 0%Z) ∧ status o' = settled_status o')).
Proof.
  outcome; [left|right].
  { by rewrite (data_field status o' _ (λ _, eq_refl) Eo). }
  pose proof (ac_taker _ _ _ _ _ _ A) as Eo. pose proof (settled_status_cases (set_filled_qty q o)) as (Hr0 & Hf & _).
  rewrite <- (ac_status _ _ _ _ _ _ A) in Hr0, Hf.
  rewrite (data_field settled_status o' _ (λ _, eq_refl) Eo), (data_field status o' _ (λ _, eq_refl) Eo).
  rewrite (data_field remaining o' _ data_remaining Eo). simpl.
  split_and!; [done|apply (ac_exact _ _ _ _ _ _ A)| |apply (ac_status _ _ _ _ _ _ A)].
  change (remaining (set_match_complete _ _)) with (remaining (set_filled_qty q (data o))).
  rewrite Hf, (remaining_ok _ (ac_qty _ _ _ _ _ _ A)). simpl. change (initial_qty (data o)) with (initial_qty o). lia.
Qed.

(** C5: a fill-or-kill order is filled completely or rejected without a trace,
    and it is rejected only if it is malformed or the liquidity within its
    limit is too small. *)
Theorem submit_fok :
  tif o = FOK →
  submits clock x m s (λ r m' s' g' o',
    let liquidity := qty_total (crossing (data o) (a_side (negb (is_buy (side o))) (view s g))) in
    (status o' = Filled ∧ remaining o' = 0%Z ∧ (remaining o ≤ liquidity)%Z) ∨
    (status o' = Rejected ∧ r_trades r = [] ∧ view s' g' = view s g ∧
     (invalid (instrument_ (book_ m)) o = true ∨ (liquidity < remaining o)%Z))).
Proof.
  intros Hfok. outcome; [right|left].
  { rewrite (data_field status o' _ (λ _, eq_refl) Eo). split_and!; [done..|]. tauto. }
  pose proof (ac_taker _ _ _ _ _ _ A) as Eo. pose proof (ac_fok _ _ _ _ _ _ A Hfok) as Hl.
  pose proof (ac_exact _ _ _ _ _ _ A) as He. pose proof (settled_status_cases (set_filled_qty q o)) as (_ & Hf & _).
  rewrite <- (ac_status _ _ _ _ _ _ A) in Hf.
  rewrite (data_field status o' _ (λ _, eq_refl) Eo), (data_field remaining o' _ data_remaining Eo).
  change (remaining (set_match_complete _ _)) with (remaining (set_filled_qty q (data o))).
  simpl. rewrite He, Z.max_l by lia. split_and!; [|done|done]. apply Hf.
  rewrite (remaining_ok _ (ac_qty _ _ _ _ _ _ A)) in He. simpl in He |- *.
  change (initial_qty (data o)) with (initial_qty o) in He. lia.
Qed.

(** Immediate-or-cancel and market orders never rest: the taker's own side
    of the book is left as it was, whatever happens to the order. *)
Theorem submit_immediate_never_rests :
  type o = Market ∨ tif o = IOC →
  submits clock x m s (λ r m' s' g' o',
    let own := is_buy (side o) in
    a_side own (view s' g') = a_side own (view s g) ∧
    status o' ≠ New).
Proof.
  intros Hty. outcome.
  { rewrite Ev, (data_field status o' _ (λ _, eq_refl) Eo). done. }
  split; [destruct (ac_own _ _ _ _ _ _ A) as [[_ H]|(_ & ? & ? & _)]; [done|tauto]|].
  rewrite (data_field status o' _ (λ _, eq_refl) (ac_taker _ _ _ _ _ _ A)). simpl.
  rewrite (ac_status _ _ _ _ _ _ A). by apply settled_status_cases.
Qed.

(** C6: a book that is not crossed stays so: after [submit] the best bid is
    below the best ask. *)
Theorem submit_keeps_uncrossed :
  uncrossed (book_ m) → submits clock x m s (λ r m' s' g' o', uncrossed (book_ m')).
Proof.
  intros Hu. apply submits_cases. intros r m' s' g' o' _ Hp Ha.
  apply (uncrossed_absr _ _ _ (su_inv _ _ _ _ _ _ _ _ _ Hp)).
  pose proof (a_submit_uncrossed (instrument_ (book_ m)) (i64 (u64 (clock (S (ticks_ s)))))
    (data o) (view s g) taker_data_ok) as Hk. rewrite Ha in Hk. apply Hk.
  - intros buy. split; [apply makers_ok_view|apply sorted_view].
  - by apply (uncrossed_absr _ _ _ Hinv).
Qed.

End submission.

(** *** Witnesses *)

Lemma ex_buy_ok : qty_ok ex_buy.
Proof. unfold qty_ok, in_u. simpl. unfold kZeroQty. lia. Qed.

Lemma submit_refines_witness :
  submits ex_clock 1 ex_matcher (ex_sys ex_buy) (λ r m' s' g' o',
    a_submit 7 (i64 (u64 (ex_clock 1))) (data ex_buy) (view (ex_sys ex_buy) ex_ghost) =
      (view s' g', data o', r_trades r) ∧ r_order r = 1).
Proof.
  apply (submit_refines ex_clock 1 ex_matcher (ex_sys ex_buy) ex_ghost ex_buy);
    [apply ex_minv|apply ex_taker, ex_buy_ok].
Defined.

(** The taker of 7 takes 5 at 100 and 2 at 101 and is filled. *)
Lemma submit_price_time_witness :
  r_trades <$> (fst <$> (fst <$> submit ex_clock 1 ex_matcher (ex_sys ex_buy))) =
    Some [mkTrade 1 3 7 100 5 0; mkTrade 2 3 7 101 2 0] ∧
  submits ex_clock 1 ex_matcher (ex_sys ex_buy) (λ r m' s' g' o',
    a_sorted false (a_side false (view (ex_sys ex_buy) ex_ghost)) ∧
    price_time (data ex_buy) (a_side false (view (ex_sys ex_buy) ex_ghost)) (r_trades r)
      (a_side false (view s' g')) ∧
    (a_side true (view s' g') = a_side true (view (ex_sys ex_buy) ex_ghost) ∨
     a_side true (view s' g') = a_insert true (data o') (a_side true (view (ex_sys ex_buy) ex_ghost)))).
Proof.
  split; [by vm_compute|].
  apply (submit_price_time ex_clock 1 ex_matcher (ex_sys ex_buy) ex_ghost ex_buy);
    [apply ex_minv|apply ex_taker, ex_buy_ok].
Defined.

Lemma submit_conserves_witness :
  submits ex_clock 1 ex_matcher (ex_sys ex_buy) (λ r m' s' g' o',
    Forall (λ t, 0 < quantity t)%Z (r_trades r) ∧
    sumZ (quantity <$> r_trades r) = (filled_qty o' - 0)%Z ∧
    sumZ (quantity <$> r_trades r) =
      (qty_total (a_side false (view (ex_sys ex_buy) ex_ghost)) -
       qty_total (a_side false (view s' g')))%Z).
Proof.
  apply (submit_conserves ex_clock 1 ex_matcher (ex_sys ex_buy) ex_ghost ex_buy);
    [apply ex_minv|apply ex_taker, ex_buy_ok].
Defined.

(** A taker of 20 finds 10. *)
Definition ex_big (tf : TimeInForce) : Order := ex_order 3 101 20 Buy Limit tf.

Lemma ex_big_ok tf : qty_ok (ex_big tf).
Proof. unfold qty_ok, in_u. simpl. unfold kZeroQty. lia. Qed.

Lemma submit_fills_available_witness :
  qty_total (crossing (data (ex_big GTC)) (a_side false (view (ex_sys (ex_big GTC)) ex_ghost))) = 10%Z ∧
  submits ex_clock 1 ex_matcher (ex_sys (ex_big GTC)) (λ r m' s' g' o',
    let liquidity := qty_total (crossing (data (ex_big GTC))
                       (a_side false (view (ex_sys (ex_big GTC)) ex_ghost))) in
    (status o' = Rejected ∧ r_trades r = [] ∧ view s' g' = view (ex_sys (ex_big GTC)) ex_ghost) ∨
    (status o' ≠ Rejected ∧ remaining o' = Z.max 0 (20 - liquidity) ∧
     (status o' = Filled ↔ remaining o' = 0%Z) ∧ status o' = settled_status o')).
Proof.
  split; [by vm_compute|].
  apply (submit_fills_available ex_clock 1 ex_matcher (ex_sys (ex_big GTC)) ex_ghost (ex_big GTC));
    [apply ex_minv|apply ex_taker, ex_big_ok].
Defined.

Lemma submit_fok_witness :
  submits ex_clock 1 ex_matcher (ex_sys (ex_big FOK)) (λ r m' s' g' o',
    let liquidity := qty_total (crossing (data (ex_big FOK))
                       (a_side false (view (ex_sys (ex_big FOK)) ex_ghost))) in
    (status o' = Filled ∧ remaining o' = 0%Z ∧ (remaining (ex_big FOK) ≤ liquidity)%Z) ∨
    (status o' = Rejected ∧ r_trades r = [] ∧ view s' g' = view (ex_sys (ex_big FOK)) ex_ghost ∧
     (invalid 7 (ex_big FOK) = true ∨ (liquidity < remaining (ex_big FOK))%Z))).
Proof.
  apply (submit_fok ex_clock 1 ex_matcher (ex_sys (ex_big FOK)) ex_ghost (ex_big FOK));
    [apply ex_minv|apply ex_taker, ex_big_ok|done].
Defined.

Lemma submit_immediate_never_rests_witness :
  submits ex_clock 1 ex_matcher (ex_sys (ex_big IOC)) (λ r m' s' g' o',
    a_side true (view s' g') = a_side true (view (ex_sys (ex_big IOC)) ex_ghost) ∧ status o' ≠ New).
Proof.
  apply (submit_immediate_never_rests ex_clock 1 ex_matcher (ex_sys (ex_big IOC)) ex_ghost (ex_big IOC));
    [apply ex_minv|apply ex_taker, ex_big_ok|by right].
Defined.

Lemma submit_keeps_uncrossed_witness :
  submits ex_clock 1 ex_matcher (ex_sys ex_buy) (λ r m' s' g' o', uncrossed (book_ m')).
Proof.
  apply (submit_keeps_uncrossed ex_clock 1 ex_matcher (ex_sys ex_buy) ex_ghost ex_buy);
    [apply ex_minv|apply ex_taker, ex_buy_ok|].
  intros pb pa. vm_compute. discriminate.
Defined.


(** ** The fill-or-kill test *)

Lemma crossing_data o l : crossing (data o) l = crossing o l.
Proof. induction l as [|m l IH]; simpl; [done|]. by rewrite stops_data, IH. Qed.

(** C8: The read-only walk of [can_fully_fill] is defined and agrees with the
    matching loop: on the same book and order, [match] is defined too, and the
    walk answers [true] exactly when [match] leaves nothing of the order open. *)
Theorem can_fully_fill_predicts p b g x o :
  minv p b g → taker_ok p g x o →
  ∃ c b' p' trs o', can_fully_fill o b (storage_ p) = Some c ∧ match_ x b p = Some (b', p', trs) ∧
    storage_ p' !! x = Some o' ∧ (c = true ↔ remaining o' = 0%Z).
Proof.
  intros Hi Ht. pose proof (to_qty _ _ _ _ Ht) as Hq. pose proof (match_spec x b p g o Hi Ht) as Hm. cbv zeta in Hm.
  destruct (fills_exact (data o) (hview (storage_ p) (flat (glevels (negb (is_buy (side o))) g))) Hq) as [_ Hr];
    [by eapply minv_makers|].
  destruct (fills _ _) as [[trs t'] rest]. destruct Hm as (k & b' & p' & g' & t1 & Em & P). simpl in Hr.
  eexists _, b', p', trs, t1. split_and!; [by apply can_fully_fill_spec|done|apply P|].
  rewrite <- (data_remaining t1), (lp_data _ _ _ _ _ _ _ _ _ _ _ _ P), Hr, Z.leb_le, data_remaining.
  rewrite crossing_data. lia.
Qed.

Lemma can_fully_fill_predicts_witness :
  ∃ c b' p' trs o', can_fully_fill ex_buy ex_book (storage_ (ex_pool ex_buy)) = Some c ∧
    match_ 1 ex_book (ex_pool ex_buy) = Some (b', p', trs) ∧
    storage_ p' !! 1 = Some o' ∧ (c = true ↔ remaining o' = 0%Z).
Proof.
  apply (can_fully_fill_predicts (ex_pool ex_buy) ex_book ex_ghost 1 ex_buy); [apply ex_minv|apply ex_taker, ex_buy_ok].
Defined.

(** ** Cancellation *)

(** C9: when the ids in the book are distinct, [Matcher::cancel] implements
    [a_cancel]: it is defined, removes the order with that id and no other,
    keeps every other order in place, answers whether there was one, and the
    invariant and the index are intact. *)
Theorem cancel_refines id m s g :
  minv (pool_ s) (book_ m) g → book_indexed (storage_ (pool_ s)) (book_ m) g →
  ∃ ok m' s' g', cancel id m s = Some (ok, m', s') ∧
    minv (pool_ s') (book_ m') g' ∧ book_indexed (storage_ (pool_ s')) (book_ m') g' ∧
    absr (storage_ (pool_ s')) g' = a_cancel id (absr (storage_ (pool_ s)) g) ∧
    (ok = true ↔ ∃ o, oid o = id ∧ (o ∈ a_bids (absr (storage_ (pool_ s)) g) ∨
                                     o ∈ a_asks (absr (storage_ (pool_ s)) g))).
Proof.
  intros Hi Hix. pose proof (indexed_has_id _ _ _ id Hi Hix) as Hid.
  destruct (order_map_ (book_ m) !! id) as [loc|] eqn:El.
  - destruct (cancel_present id m s g loc Hi El) as (m' & s' & g' & o & E & Ho & Ho' & Hr & P).
    exists true, m', s', g'. split_and!; [done|apply P|by apply P|by eapply cancel_view|].
    split; [intros _; by apply Hid|done].
  - assert (¬ has_id id (absr (storage_ (pool_ s)) g)) as Hn by (rewrite Hid; by intros []).
    exists false, m, s, g. rewrite cancel_absent by done. split_and!; [done..|by rewrite a_cancel_absent|].
    split; [done|]. intros H. by destruct Hn.
Qed.

Lemma cancel_refines_witness :
  (fst <$> (fst <$> cancel 2 ex_matcher (ex_sys ex_buy))) = Some true ∧
  ∃ ok m' s' g', cancel 2 ex_matcher (ex_sys ex_buy) = Some (ok, m', s') ∧
    minv (pool_ s') (book_ m') g' ∧ book_indexed (storage_ (pool_ s')) (book_ m') g' ∧
    absr (storage_ (pool_ s')) g' = a_cancel 2 (absr (storage_ (ex_pool ex_buy)) ex_ghost) ∧
    (ok = true ↔ ∃ o, oid o = 2%Z ∧ (o ∈ a_bids (absr (storage_ (ex_pool ex_buy)) ex_ghost) ∨
                                     o ∈ a_asks (absr (storage_ (ex_pool ex_buy)) ex_ghost))).
Proof.
  split; [by vm_compute|].
  apply (cancel_refines 2 ex_matcher (ex_sys ex_buy) ex_ghost); [apply ex_minv|apply ex_indexed].
Defined.

(** A book whose only level holds two orders of the same id. *)
Definition dup_pool : Pool :=
  mkPool [Order_init; Order_init; set_prev (Some 3) ex_ask1; set_next (Some 2) ex_ask1] [0; 1; 2; 3] 2.
Definition dup_book : OrderBook :=
  mkBook 7 [] [(100%Z, mkLevel (Some 3) (Some 2))] (<[1%Z := locator_of 3 ex_ask1]> ∅).
Definition dup_ghost : GBook := mkGBook [] [(100%Z, [3; 2])].
Definition dup_sys : Sys := mkSys dup_pool 0.
Definition dup_matcher : Matcher := mkMatcher dup_book Tracker_new.

Lemma dup_resting x : x ∈ resting dup_ghost → x = 3 ∨ x = 2.
Proof. unfold resting. simpl. set_solver. Qed.

Lemma dup_side_asks : side_rep (storage_ dup_pool) false (asks_ dup_book) (gasks dup_ghost).
Proof.
  split_and!.
  - repeat constructor; simpl; try set_solver; by (eexists; split_and!; [reflexivity|..]).
  - repeat constructor.
  - change (NoDup [3; 2]). repeat constructor; set_solver.
  - intros p xs [= -> ->]%list_elem_of_singleton. split; [done|].
    intros x [->|[->|[]%not_elem_of_nil]%elem_of_cons]%elem_of_cons; by eexists.
Qed.

Lemma dup_minv : minv dup_pool dup_book dup_ghost.
Proof.
  constructor.
  - split_and!; [done|unfold capacity; simpl; lia|done| |].
    + change (NoDup [0; 1]). repeat constructor; set_solver.
    + unfold free, capacity. simpl. intros x Hx. assert (x = 0 ∨ x = 1) by set_solver. lia.
  - split.
    + intros []; [|apply dup_side_asks].
      split_and!; [constructor|constructor|apply NoDup_nil_2|set_solver].
    + intros id loc H. simpl in H. apply lookup_insert_Some in H as [[<- <-]|[_ H]]; [|done].
      eexists. split_and!; [|done..]. unfold resting. simpl. set_solver.
  - intros x o [->| ->]%dup_resting [= <-]; done.
  - intros x [->| ->]%dup_resting; (split; [unfold capacity; simpl; lia|]);
      unfold free; simpl; set_solver.
Qed.

(** C10: with duplicate ids, which nothing rejects, an order becomes
    unreachable: if another order of the same id rests in the book, the first
    [cancel] removes the indexed one, the other stays in the book, and every
    further [cancel] of that id answers [false] and does nothing. *)
Theorem cancel_duplicate_unreachable id m s g y o loc :
  minv (pool_ s) (book_ m) g → order_map_ (book_ m) !! id = Some loc →
  y ∈ resting g → y ≠ loc_order loc → order_at y s = Some o → oid o = id →
  ∃ m' s' g', cancel id m s = Some (true, m', s') ∧
    minv (pool_ s') (book_ m') g' ∧ y ∈ resting g' ∧
    cancel id m' s' = Some (false, m', s').
Proof.
  intros Hi Hl Hy Hne Ho Hid.
  destruct (cancel_present id m s g loc Hi Hl) as (m' & s' & g' & o' & E & _ & _ & _ & P).
  exists m', s', g'. split_and!; [done|apply P| |].
  - by apply (ca_rest _ _ _ _ _ _ _ _ P).
  - apply cancel_absent. rewrite (ca_map _ _ _ _ _ _ _ _ P). apply lookup_delete_eq.
Qed.

Lemma cancel_duplicate_unreachable_witness :
  ∃ m' s' g', cancel 1 dup_matcher dup_sys = Some (true, m', s') ∧
    minv (pool_ s') (book_ m') g' ∧ 2 ∈ resting g' ∧ cancel 1 m' s' = Some (false, m', s').
Proof.
  apply (cancel_duplicate_unreachable 1 dup_matcher dup_sys dup_ghost 2
           (set_prev (Some 3) ex_ask1) (locator_of 3 ex_ask1));
    [apply dup_minv|done| |done|done|done].
  unfold resting. simpl. set_solver.
Defined.

(** ** Expiry of a book *)

(** C11: what [Matcher::cancel_all] does: it is defined and empties the book,
    but of each level only the first order is cancelled and given back to the
    pool; every other resting order keeps its slot, its status and its links,
    and is in no book any more. *)
Theorem cancel_all_drains_heads m s g :
  minv (pool_ s) (book_ m) g →
  let hs := heads (gbids g) ++ heads (gasks g) in
  ∃ m' s', cancel_all m s = Some (m', s') ∧
    book_ m' = Book_new (instrument_ (book_ m)) ∧ pool_ok (pool_ s') ∧
    (∀ y o, y ∈ resting g → order_at y s = Some o →
       (y ∈ hs ∧ y ∈ free (pool_ s') ∧ order_at y s' = Some (drained o)) ∨
       (y ∉ hs ∧ allocated (pool_ s') y ∧ order_at y s' = Some o)).
Proof.
  intros Hi hs. destruct (cancel_all_spec m s g Hi) as (p' & E & Hp & Hf & Hc & Hout & Hin).
  fold hs in Hf, Hout, Hin. eexists _, _. split_and!; [exact E|done|done|].
  intros y o Hy Ho. unfold order_at in *. simpl. destruct (decide (y ∈ hs)) as [Hh|Hh]; [left|right].
  - split_and!; [done| |].
    + rewrite Hf. apply elem_of_app. by right.
    + rewrite Hin, Ho by done. done.
  - split_and!; [done| |by rewrite Hout].
    destruct (mi_alloc _ _ _ Hi y Hy) as [? ?]. split; [by rewrite Hc|].
    rewrite Hf, elem_of_app. tauto.
Qed.

(** The second order of the level is lost. *)
Lemma cancel_all_drains_heads_witness :
  (∃ m' s', cancel_all dup_matcher dup_sys = Some (m', s') ∧ free (pool_ s') = [0; 1; 3] ∧
     (status <$> order_at 2 s') = Some New) ∧
  ∃ m' s', cancel_all dup_matcher dup_sys = Some (m', s') ∧
    book_ m' = Book_new 7 ∧ pool_ok (pool_ s') ∧
    (∀ y o, y ∈ resting dup_ghost → order_at y dup_sys = Some o →
       (y ∈ [3] ∧ y ∈ free (pool_ s') ∧ order_at y s' = Some (drained o)) ∨
       (y ∉ [3] ∧ allocated (pool_ s') y ∧ order_at y s' = Some o)).
Proof.
  split; [eexists _, _; split; [by vm_compute|done]|].
  apply (cancel_all_drains_heads dup_matcher dup_sys dup_ghost), dup_minv.
Defined.

(** ** Market data *)

(** The orders of some levels of a side have the prices of these levels. *)
Lemma levels_price p b g buy l o :
  minv p b g → (∀ e, e ∈ l → e ∈ glevels buy g) → o ∈ hview (storage_ p) (flat l) →
  limit_price o ∈ l.*1.
Proof.
  intros Hi Hl (x & o' & Hx & Ho & ->)%elem_of_hview. apply elem_of_flat in Hx as (q & xs & Hq & Hx).
  destruct (mi_rep _ _ _ Hi) as [Hs _]. destruct (Hs buy) as (_ & _ & _ & Hr).
  destruct (Hr q xs (Hl _ Hq)) as [_ H']. destruct (H' x Hx) as (o2 & ? & <- & ?). simplify_eq.
  by apply (list_elem_of_fmap_2 fst _ (limit_price o', xs)).
Qed.

(** The orders of one level are the orders of the side with that price. *)
Lemma level_view p b g buy px :
  minv p b g →
  hview (storage_ p) (default [] (map_find (cmp buy) px (glevels buy g))) =
  filter (λ o, limit_price o = px) (hview (storage_ p) (flat (glevels buy g))).
Proof.
  intros Hi. destruct (mi_rep _ _ _ Hi) as [Hs _]. destruct (Hs buy) as (_ & Hsort & _ & _).
  pose proof (levels_price p b g buy) as Hpr.
  assert (∀ l, (∀ e, e ∈ l → e ∈ glevels buy g) → (px ∉ l.*1) →
    filter (λ o, limit_price o = px) (hview (storage_ p) (flat l)) = []) as Hnone.
  { intros l Hl Hpx. apply filter_none. intros o Ho Heq. apply Hpx. rewrite <- Heq. by eapply Hpr. }
  destruct (map_find (cmp buy) px (glevels buy g)) as [xs|] eqn:Ef; simpl.
  - destruct (map_find_split (cmp buy) _ _ _ Hsort Ef) as (g1 & g2 & E & _ & _ & H1 & H2).
    rewrite E in Hnone, Hpr |- *. rewrite flat_app, flat_cons, !hview_app, !filter_app.
    rewrite (Hnone g1), (Hnone g2), app_nil_r; simpl; try set_solver.
    + symmetry. apply filter_all. intros o Ho.
      assert (limit_price o ∈ [(px, xs)].*1) as Hx.
      { apply (Hpr _ _ Hi); [set_solver|]. by rewrite flat_cons, app_nil_r. }
      by apply list_elem_of_singleton in Hx.
    + intros Hx%H2. by rewrite (ltb_irrefl (ltb:=cmp buy)) in Hx.
    + intros Hx%H1. by rewrite (ltb_irrefl (ltb:=cmp buy)) in Hx.
  - symmetry. apply Hnone; [done|]. intros ([q xs] & Hq & Hin)%list_elem_of_fmap. simpl in Hq. subst q.
    apply (map_find_elem (cmp buy)) in Hin; [congruence|done].
Qed.

(** C16: the market data a book publishes is true of its orders: the depth at a
    price is the sum (modulo 2^64) of the open quantities of the resting orders
    of that side and price, and the best price of a side is the price of the
    order that would trade first. *)
Theorem book_market_data p b g buy px :
  minv p b g →
  qty_at buy px b (storage_ p) =
    Some (u64 (qty_total (filter (λ o, limit_price o = px) (a_side buy (absr (storage_ p) g))))) ∧
  best_bid b = limit_price <$> head (a_bids (absr (storage_ p) g)) ∧
  best_ask b = limit_price <$> head (a_asks (absr (storage_ p) g)).
Proof.
  intros Hi. split_and!; [|apply (best_view p b g true Hi)|apply (best_view p b g false Hi)].
  rewrite (qty_at_spec _ _ _ _ g) by apply Hi. by rewrite absr_side, (level_view p b).
Qed.

Lemma book_market_data_witness :
  qty_at false 101 ex_book (storage_ (ex_pool ex_buy)) =
    Some (u64 (qty_total (filter (λ o, limit_price o = 101%Z)
      (a_side false (absr (storage_ (ex_pool ex_buy)) ex_ghost))))) ∧
  best_bid ex_book = limit_price <$> head (a_bids (absr (storage_ (ex_pool ex_buy)) ex_ghost)) ∧
  best_ask ex_book = limit_price <$> head (a_asks (absr (storage_ (ex_pool ex_buy)) ex_ghost)).
Proof. apply (book_market_data (ex_pool ex_buy) ex_book ex_ghost false 101), ex_minv. Defined.
