(* ===== verification/Codec.v ===== *)
(** * Wire protocol and codec (include/ordbk/protocol/protocol.hpp,
    messages.hpp, codec.hpp, src/protocol/codec.cpp)

    A [std::byte] is a [Z] in [0, 256), a span or vector of bytes a list.
    [BufferWriter] and [BufferReader] keep their span and position; a write or
    a read outside of the span is undefined behaviour ([None]), which the
    length tests of the code exclude. *)

From S2P Require Import Prelude.

Definition kProtocolVersion : Z := 1.
Definition kHeaderSize : nat := 8.
Definition kMaxBodySize : nat := 4096.

(** Enumerations received from the wire may hold any byte. *)
Inductive MsgType :=
  | T_Logon | T_Logout | T_Heartbeat | T_NewOrder | T_CancelOrder
  | T_OrderAck | T_OrderReject | T_Fill | T_Cancelled | MsgType_other (v : Z).

Inductive RejectReason :=
  | Unknown | UnknownInstrument | InvalidQuantity | InvalidPrice | InvalidTif
  | NotLoggedOn_reason | DuplicateOrderId | InsufficientLiquidity | RejectReason_other (v : Z).

#[export] Instance MsgType_eq_dec : EqDecision MsgType.
Proof. solve_decision. Defined.
#[export] Instance RejectReason_eq_dec : EqDecision RejectReason.
Proof. solve_decision. Defined.

Definition MsgType_code (t : MsgType) : Z :=
  match t with
  | T_Logon => 1 | T_Logout => 2 | T_Heartbeat => 3
  | T_NewOrder => 16 | T_CancelOrder => 17
  | T_OrderAck => 32 | T_OrderReject => 33 | T_Fill => 34 | T_Cancelled => 35
  | MsgType_other v => v
  end%Z.

Definition MsgType_of (b : Z) : MsgType :=
  if (b =? 1)%Z then T_Logon else if (b =? 2)%Z then T_Logout
  else if (b =? 3)%Z then T_Heartbeat else if (b =? 16)%Z then T_NewOrder
  else if (b =? 17)%Z then T_CancelOrder else if (b =? 32)%Z then T_OrderAck
  else if (b =? 33)%Z then T_OrderReject else if (b =? 34)%Z then T_Fill
  else if (b =? 35)%Z then T_Cancelled else MsgType_other b.

Definition RejectReason_code (r : RejectReason) : Z :=
  match r with
  | Unknown => 0 | UnknownInstrument => 1 | InvalidQuantity => 2 | InvalidPrice => 3
  | InvalidTif => 4 | NotLoggedOn_reason => 5 | DuplicateOrderId => 6
  | InsufficientLiquidity => 7 | RejectReason_other v => v
  end%Z.

Definition RejectReason_of (b : Z) : RejectReason :=
  if (b =? 0)%Z then Unknown else if (b =? 1)%Z then UnknownInstrument
  else if (b =? 2)%Z then InvalidQuantity else if (b =? 3)%Z then InvalidPrice
  else if (b =? 4)%Z then InvalidTif else if (b =? 5)%Z then NotLoggedOn_reason
  else if (b =? 6)%Z then DuplicateOrderId else if (b =? 7)%Z then InsufficientLiquidity
  else RejectReason_other b.

Record MessageHeader := mkHeader {
  protocol_version : Z;
  msg_type : MsgType;
  body_length : Z;
  sequence : Z }.

Record NewOrderMsg := mkNewOrder {
  no_client_order_id : Z;
  no_instrument_id : Z;
  no_side : Z;
  no_order_type : Z;
  no_tif : Z;
  no_price : Z;
  no_quantity : Z }.

(** [std::variant] of the message structs. *)
Inductive MessageBody :=
  | LogonMsg (client_id : Z)
  | LogoutMsg
  | HeartbeatMsg
  | NewOrder (m : NewOrderMsg)
  | CancelOrderMsg (client_order_id instrument_id : Z)
  | OrderAckMsg (client_order_id server_order_id : Z)
  | OrderRejectMsg (client_order_id : Z) (reason : RejectReason)
  | FillMsg (client_order_id server_order_id price quantity post_status : Z)
  | CancelledMsg (client_order_id : Z).

Record DecodedMessage := mkDecoded {
  header : MessageHeader;
  body : MessageBody }.

(** ** BufferWriter *)

Record BufferWriter := mkWriter {
  w_buf : list Z;
  w_pos : nat }.

(** [buf_[pos_++] = b] *)
Definition put (b : Z) (w : BufferWriter) : res BufferWriter :=
  guard* bool_decide (w_pos w < length (w_buf w)) in
  Some (mkWriter (<[w_pos w := b]> (w_buf w)) (S (w_pos w))).

(** The loop [for (i = 0; i < n; ++i) buf_[pos_++] = (v >> (8 * i)) & 0xFF]. *)
Fixpoint put_loop (n : nat) (i : Z) (v : Z) (w : BufferWriter) : res BufferWriter :=
  match n with
  | 0 => Some w
  | S n' =>
      let* w' := put (Z.land (Z.shiftr v (8 * i)) 255) w in
      put_loop n' (i + 1)%Z v w'
  end.

Definition write_u8 (v : Z) (w : BufferWriter) : res (bool * BufferWriter) :=
  if decide (length (w_buf w) < w_pos w + 1) then Some (false, w)
  else let* w' := put v w in Some (true, w').
Definition write_u16 (v : Z) (w : BufferWriter) : res (bool * BufferWriter) :=
  if decide (length (w_buf w) < w_pos w + 2) then Some (false, w)
  else
    let* w1 := put (Z.land v 255) w in
    let* w2 := put (Z.land (Z.shiftr v 8) 255) w1 in
    Some (true, w2).
Definition write_u32 (v : Z) (w : BufferWriter) : res (bool * BufferWriter) :=
  if decide (length (w_buf w) < w_pos w + 4) then Some (false, w)
  else let* w' := put_loop 4 0 v w in Some (true, w').
Definition write_u64 (v : Z) (w : BufferWriter) : res (bool * BufferWriter) :=
  if decide (length (w_buf w) < w_pos w + 8) then Some (false, w)
  else let* w' := put_loop 8 0 v w in Some (true, w').
Definition write_i64 (v : Z) (w : BufferWriter) : res (bool * BufferWriter) :=
  write_u64 (u64 v) w.

(** [a && b] on two calls of the same writer. *)
Definition and_then (f g : BufferWriter → res (bool * BufferWriter)) (w : BufferWriter)
    : res (bool * BufferWriter) :=
  let* (ok, w') := f w in
  if ok : bool then g w' else Some (false, w').
Declare Scope writer_scope.
Notation "f && g" := (and_then f g) (at level 40, left associativity) : writer_scope.
Delimit Scope writer_scope with writer.

(** ** BufferReader *)

Record BufferReader := mkReader {
  r_buf : list Z;
  r_pos : nat }.

(** [buf_[pos_++]] *)
Definition get (r : BufferReader) : res (Z * BufferReader) :=
  let* b := r_buf r !! r_pos r in
  Some (b, mkReader (r_buf r) (S (r_pos r))).

(** The loop [for (i = 0; i < n; ++i) v |= buf_[pos_++] << (8 * i)]. *)
Fixpoint get_loop (n : nat) (i : Z) (v : Z) (r : BufferReader) : res (Z * BufferReader) :=
  match n with
  | 0 => Some (v, r)
  | S n' =>
      let* (b, r') := get r in
      get_loop n' (i + 1)%Z (Z.lor v (Z.shiftl b (8 * i))) r'
  end.

(** [None] inside the result is [return false]. *)
Definition read_u8 (r : BufferReader) : res (option Z * BufferReader) :=
  if decide (length (r_buf r) < r_pos r + 1) then Some (None, r)
  else let* (b, r') := get r in Some (Some b, r').
Definition read_u16 (r : BufferReader) : res (option Z * BufferReader) :=
  if decide (length (r_buf r) < r_pos r + 2) then Some (None, r)
  else
    let* (a, r1) := get r in
    let* (b, r2) := get r1 in
    Some (Some (u16 (Z.lor a (Z.shiftl b 8))), r2).
Definition read_u32 (r : BufferReader) : res (option Z * BufferReader) :=
  if decide (length (r_buf r) < r_pos r + 4) then Some (None, r)
  else let* (v, r') := get_loop 4 0 0 r in Some (Some v, r').
Definition read_u64 (r : BufferReader) : res (option Z * BufferReader) :=
  if decide (length (r_buf r) < r_pos r + 8) then Some (None, r)
  else let* (v, r') := get_loop 8 0 0 r in Some (Some v, r').
Definition read_i64 (r : BufferReader) : res (option Z * BufferReader) :=
  let* (v, r') := read_u64 r in
  match v with None => Some (None, r') | Some u => Some (Some (i64 u), r') end.

(** [if (!r.read(x)) return nullopt; ...] *)
Definition read_bind {A B} (f : BufferReader → res (option A * BufferReader))
    (k : A → BufferReader → res (option B)) (r : BufferReader) : res (option B) :=
  let* (v, r') := f r in
  match v with None => Some None | Some a => k a r' end.
Notation "'read*' x ':=' f 'from' r 'in' k" := (read_bind f (λ x, λ r, k) r)
  (at level 10, x name, f at level 0, r name, k at level 200) : ordbk_scope.

Definition encode_header (h : MessageHeader) : BufferWriter → res (bool * BufferWriter) :=
  (write_u8 (protocol_version h) && write_u8 (MsgType_code (msg_type h)) &&
   write_u16 (body_length h) && write_u32 (sequence h))%writer.

Definition decode_header (r : BufferReader) : res (option MessageHeader) :=
  read* ver := read_u8 from r in
  read* mt := read_u8 from r in
  read* len := read_u16 from r in
  read* sq := read_u32 from r in
  Some (Some (mkHeader ver (MsgType_of mt) len sq)).

Definition encode_body (b : MessageBody) : BufferWriter → res (bool * BufferWriter) :=
  (match b with
   | LogonMsg c => write_u32 c
   | LogoutMsg | HeartbeatMsg => λ w, Some (true, w)
   | NewOrder m =>
       write_u64 (no_client_order_id m) && write_u32 (no_instrument_id m) &&
       write_u8 (no_side m) && write_u8 (no_order_type m) && write_u8 (no_tif m) &&
       write_u8 0 && write_i64 (no_price m) && write_u64 (no_quantity m)
   | CancelOrderMsg c i => write_u64 c && write_u32 i
   | OrderAckMsg c s => write_u64 c && write_u64 s
   | OrderRejectMsg c r => write_u64 c && write_u8 (RejectReason_code r)
   | FillMsg c s p q st => write_u64 c && write_u64 s && write_i64 p && write_u64 q && write_u8 st
   | CancelledMsg c => write_u64 c
   end)%writer.

Definition type_of (b : MessageBody) : MsgType :=
  match b with
  | LogonMsg _ => T_Logon
  | LogoutMsg => T_Logout
  | HeartbeatMsg => T_Heartbeat
  | NewOrder _ => T_NewOrder
  | CancelOrderMsg _ _ => T_CancelOrder
  | OrderAckMsg _ _ => T_OrderAck
  | OrderRejectMsg _ _ => T_OrderReject
  | FillMsg _ _ _ _ _ => T_Fill
  | CancelledMsg _ => T_Cancelled
  end.

(** [for (i = 0; i < body_len; ++i) out[kHeaderSize + i] = scratch[i]] *)
Fixpoint copy_loop (n : nat) (i : nat) (scratch out : list Z) : res (list Z) :=
  match n with
  | 0 => Some out
  | S n' =>
      let* b := scratch !! i in
      guard* bool_decide (kHeaderSize + i < length out) in
      copy_loop n' (S i) scratch (<[kHeaderSize + i := b]> out)
  end.

(** [encode(span, seq, body)]: the bytes written (0 on overflow) and the span. *)
Definition encode_span (out : list Z) (seq : Z) (b : MessageBody) : res (nat * list Z) :=
  if decide (length out < kHeaderSize) then Some (0, out)
  else
    let* (ok, bw) := encode_body b (mkWriter (replicate kMaxBodySize 0%Z) 0) in
    if negb ok then Some (0, out)
    else
      let body_len := w_pos bw in
      if decide (length out < kHeaderSize + body_len) then Some (0, out)
      else if decide (kMaxBodySize < body_len) then Some (0, out)
      else
        let h := mkHeader kProtocolVersion (type_of b) (u16 (Z.of_nat body_len)) seq in
        let* (ok', hw) := encode_header h (mkWriter out 0) in
        if negb ok' then Some (0, w_buf hw)
        else
          let* out' := copy_loop body_len 0 (w_buf bw) (w_buf hw) in
          Some (kHeaderSize + body_len, out').

(** [encode(seq, body)]: a fresh vector, resized to what was written. *)
Definition encode (seq : Z) (b : MessageBody) : res (list Z) :=
  let* (n, out) := encode_span (replicate (kHeaderSize + kMaxBodySize) 0%Z) seq b in
  Some (take n out).

Definition decode_body (h : MessageHeader) (bytes : list Z) : res (option MessageBody) :=
  let r := mkReader bytes 0 in
  match msg_type h with
  | T_Logon =>
      read* c := read_u32 from r in Some (Some (LogonMsg c))
  | T_Logout => Some (Some LogoutMsg)
  | T_Heartbeat => Some (Some HeartbeatMsg)
  | T_NewOrder =>
      read* c := read_u64 from r in
      read* i := read_u32 from r in
      read* sd := read_u8 from r in
      read* ty := read_u8 from r in
      read* tf := read_u8 from r in
      read* pad := read_u8 from r in
      read* p := read_i64 from r in
      read* q := read_u64 from r in
      Some (Some (NewOrder (mkNewOrder c i sd ty tf p q)))
  | T_CancelOrder =>
      read* c := read_u64 from r in
      read* i := read_u32 from r in
      Some (Some (CancelOrderMsg c i))
  | T_OrderAck =>
      read* c := read_u64 from r in
      read* s := read_u64 from r in
      Some (Some (OrderAckMsg c s))
  | T_OrderReject =>
      read* c := read_u64 from r in
      read* reason := read_u8 from r in
      Some (Some (OrderRejectMsg c (RejectReason_of reason)))
  | T_Fill =>
      read* c := read_u64 from r in
      read* s := read_u64 from r in
      read* p := read_i64 from r in
      read* q := read_u64 from r in
      read* st := read_u8 from r in
      Some (Some (FillMsg c s p q st))
  | T_Cancelled =>
      read* c := read_u64 from r in Some (Some (CancelledMsg c))
  | MsgType_other _ => Some None
  end.

(** ** The wire format *)

(** A little-endian number of [n] bytes. *)
Fixpoint le (n : nat) (v : Z) : list Z :=
  match n with 0 => [] | S n' => (v `mod` 256)%Z :: le n' (v / 256)%Z end.

Definition body_bytes (b : MessageBody) : list Z :=
  match b with
  | LogonMsg c => le 4 c
  | LogoutMsg | HeartbeatMsg => []
  | NewOrder m =>
      le 8 (no_client_order_id m) ++ le 4 (no_instrument_id m) ++
      [no_side m; no_order_type m; no_tif m; 0%Z] ++ le 8 (u64 (no_price m)) ++ le 8 (no_quantity m)
  | CancelOrderMsg c i => le 8 c ++ le 4 i
  | OrderAckMsg c s => le 8 c ++ le 8 s
  | OrderRejectMsg c r => le 8 c ++ [RejectReason_code r]
  | FillMsg c s p q st => le 8 c ++ le 8 s ++ le 8 (u64 p) ++ le 8 q ++ [st]
  | CancelledMsg c => le 8 c
  end.

Definition header_bytes (h : MessageHeader) : list Z :=
  [protocol_version h; MsgType_code (msg_type h)] ++ le 2 (body_length h) ++ le 4 (sequence h).

Definition header_of (seq : Z) (b : MessageBody) : MessageHeader :=
  mkHeader kProtocolVersion (type_of b) (Z.of_nat (length (body_bytes b))) seq.

(** The bytes of a whole message. *)
Definition wire (seq : Z) (b : MessageBody) : list Z :=
  header_bytes (header_of seq b) ++ body_bytes b.

(** The values the C++ types can hold. *)
Definition RejectReason_ok (r : RejectReason) : Prop :=
  match r with RejectReason_other v => (8 ≤ v < 256)%Z | _ => True end.
Definition body_ok (b : MessageBody) : Prop :=
  match b with
  | LogonMsg c => in_u 32 c
  | LogoutMsg | HeartbeatMsg => True
  | NewOrder m =>
      in_u 64 (no_client_order_id m) ∧ in_u 32 (no_instrument_id m) ∧ in_u 8 (no_side m) ∧
      in_u 8 (no_order_type m) ∧ in_u 8 (no_tif m) ∧ in_i 64 (no_price m) ∧ in_u 64 (no_quantity m)
  | CancelOrderMsg c i => in_u 64 c ∧ in_u 32 i
  | OrderAckMsg c s => in_u 64 c ∧ in_u 64 s
  | OrderRejectMsg c r => in_u 64 c ∧ RejectReason_ok r
  | FillMsg c s p q st => in_u 64 c ∧ in_u 64 s ∧ in_i 64 p ∧ in_u 64 q ∧ in_u 8 st
  | CancelledMsg c => in_u 64 c
  end.

(** ** Little-endian numbers *)

Lemma le_length n v : length (le n v) = n.
Proof. revert v. induction n; intros; simpl; auto. Qed.

Lemma byte_of v i : (0 ≤ i)%Z → Z.land (Z.shiftr v (8 * i)) 255 = ((v / 2 ^ (8 * i)) `mod` 256)%Z.
Proof.
  intros. rewrite Z.shiftr_div_pow2 by lia. change 255%Z with (Z.ones 8).
  by rewrite Z.land_ones by lia.
Qed.

Lemma lor_shiftl a b k :
  (0 ≤ k)%Z → (0 ≤ a < 2 ^ k)%Z → Z.lor a (Z.shiftl b k) = (a + b * 2 ^ k)%Z.
Proof.
  intros Hk Ha.
  assert (Z.land a (Z.shiftl b k) = 0)%Z as Hl.
  { apply Z.bits_inj'. intros n Hn. rewrite Z.land_spec, Z.bits_0.
    destruct (Z.ltb_spec n k); [by rewrite Z.shiftl_spec_low, andb_false_r by done|].
    rewrite <- (Z.mod_small a (2 ^ k)) by lia. by rewrite Z.mod_pow2_bits_high by lia. }
  rewrite <- Z.lxor_lor by done. rewrite <- Z.add_nocarry_lxor by done.
  by rewrite Z.shiftl_mul_pow2.
Qed.

(** What the read loop accumulates. *)
Fixpoint lor_val (i v : Z) (bs : list Z) : Z :=
  match bs with
  | [] => v
  | b :: bs' => lor_val (i + 1) (Z.lor v (Z.shiftl b (8 * i))) bs'
  end.

Lemma lor_val_le n i w v :
  (0 ≤ i)%Z → (0 ≤ w < 2 ^ (8 * i))%Z → (0 ≤ v < 2 ^ (8 * Z.of_nat n))%Z →
  lor_val i w (le n v) = (w + v * 2 ^ (8 * i))%Z.
Proof.
  revert i w v. induction n as [|n IH]; intros i w v Hi Hw Hv; simpl.
  { change (2 ^ (8 * Z.of_nat 0))%Z with 1%Z in Hv. lia. }
  rewrite lor_shiftl by lia.
  assert (2 ^ (8 * (i + 1)) = 256 * 2 ^ (8 * i))%Z as E.
  { replace (8 * (i + 1))%Z with (8 + 8 * i)%Z by lia. by rewrite Z.pow_add_r by lia. }
  assert (2 ^ (8 * Z.of_nat (S n)) = 256 * 2 ^ (8 * Z.of_nat n))%Z as E'.
  { replace (8 * Z.of_nat (S n))%Z with (8 + 8 * Z.of_nat n)%Z by lia. by rewrite Z.pow_add_r by lia. }
  pose proof (Z.mod_pos_bound v 256 ltac:(lia)). pose proof (Z.div_mod v 256 ltac:(lia)) as Hd.
  rewrite IH; [rewrite E; nia|lia|rewrite E; nia|].
  split; [apply Z.div_pos; lia|]. apply Z.div_lt_upper_bound; lia.
Qed.

Lemma lor_val_le_0 n v : in_u (8 * Z.of_nat n) v → lor_val 0 0 (le n v) = v.
Proof. intros Hv. rewrite lor_val_le; [lia|lia|simpl; lia|done]. Qed.

(** ** Writers *)

(** [f] writes the bytes [bs] when they fit. *)
Definition writes (f : BufferWriter → res (bool * BufferWriter)) (bs : list Z) : Prop :=
  ∀ pre rest, length bs ≤ length rest →
    f (mkWriter (pre ++ rest) (length pre)) =
    Some (true, mkWriter (pre ++ bs ++ drop (length bs) rest) (length pre + length bs)).

Lemma put_spec pre b c rest :
  put b (mkWriter (pre ++ c :: rest) (length pre)) =
  Some (mkWriter ((pre ++ [b]) ++ rest) (length (pre ++ [b]))).
Proof.
  unfold put. simpl. rewrite bool_decide_eq_true_2 by (rewrite length_app; simpl; lia).
  rewrite insert_app_r_alt, Nat.sub_diag by lia. simpl.
  rewrite <- app_assoc, length_app. simpl. do 2 f_equal. lia.
Qed.

Lemma put_loop_spec n i v pre rest :
  (0 ≤ i)%Z → n ≤ length rest →
  put_loop n i v (mkWriter (pre ++ rest) (length pre)) =
  Some (mkWriter (pre ++ le n (v / 2 ^ (8 * i)) ++ drop n rest) (length pre + n)).
Proof.
  revert i pre rest. induction n as [|n IH]; intros i pre rest Hi Hn; simpl.
  { by rewrite Nat.add_0_r, drop_0. }
  destruct rest as [|c rest]; simpl in Hn; [lia|]. rewrite put_spec, IH by lia.
  rewrite byte_of by lia. do 2 f_equal.
  - rewrite <- app_assoc. simpl. do 3 f_equal. f_equal.
    replace (8 * (i + 1))%Z with (8 * i + 8)%Z by lia.
    by rewrite Z.pow_add_r, Z.div_div by lia.
  - rewrite length_app. simpl. lia.
Qed.

Lemma writes_u8 v : writes (write_u8 v) [v].
Proof.
  intros pre [|c rest] Hl; simpl in Hl; [lia|]. unfold write_u8. simpl.
  rewrite decide_False by (rewrite length_app; simpl; lia).
  rewrite put_spec, <- app_assoc, length_app. done.
Qed.

Lemma writes_u16 v : writes (write_u16 v) (le 2 v).
Proof.
  intros pre [|c [|d rest]] Hl; simpl in Hl; [lia|lia|]. unfold write_u16. simpl.
  rewrite decide_False by (rewrite length_app; simpl; lia).
  rewrite !put_spec. pose proof (byte_of v 0 ltac:(lia)) as E0. pose proof (byte_of v 1 ltac:(lia)) as E1.
  change (8 * 1)%Z with 8%Z in E1. change (8 * 0)%Z with 0%Z in E0.
  rewrite Z.shiftr_0_r, Z.div_1_r in E0. rewrite E0, E1, <- !app_assoc, !length_app.
  simpl. rewrite drop_0. by do 3 f_equal.
Qed.

Lemma writes_u32 v : writes (write_u32 v) (le 4 v).
Proof.
  intros pre rest Hl. rewrite le_length in *. unfold write_u32. simpl w_buf. simpl w_pos.
  rewrite decide_False by (rewrite length_app; lia).
  rewrite put_loop_spec by lia. by rewrite Z.div_1_r.
Qed.

Lemma writes_u64 v : writes (write_u64 v) (le 8 v).
Proof.
  intros pre rest Hl. rewrite le_length in *. unfold write_u64. simpl w_buf. simpl w_pos.
  rewrite decide_False by (rewrite length_app; lia).
  rewrite put_loop_spec by lia. by rewrite Z.div_1_r.
Qed.

Lemma writes_i64 v : writes (write_i64 v) (le 8 (u64 v)).
Proof. apply writes_u64. Qed.

Lemma writes_nil : writes (λ w, Some (true, w)) [].
Proof. intros pre rest _. simpl. by rewrite drop_0, Nat.add_0_r. Qed.

Lemma writes_start f bs buf :
  writes f bs → length bs ≤ length buf →
  f (mkWriter buf 0) = Some (true, mkWriter (bs ++ drop (length bs) buf) (length bs)).
Proof. intros Hf. apply (Hf []). Qed.

Lemma writes_and_then f g bs1 bs2 :
  writes f bs1 → writes g bs2 → writes (and_then f g) (bs1 ++ bs2).
Proof.
  intros Hf Hg pre rest Hl. rewrite length_app in *. unfold and_then.
  rewrite Hf by lia. rewrite app_assoc.
  replace (length pre + length bs1) with (length (pre ++ bs1)) by apply length_app.
  rewrite Hg by (rewrite length_drop; lia). rewrite drop_drop, length_app.
  do 3 f_equal; [by rewrite <- !app_assoc|lia].
Qed.

#[export] Hint Resolve writes_u8 writes_u16 writes_u32 writes_u64 writes_i64 writes_nil
  writes_and_then : ordbk.

Lemma encode_header_writes h : writes (encode_header h) (header_bytes h).
Proof.
  unfold encode_header, header_bytes.
  replace ([protocol_version h; MsgType_code (msg_type h)] ++ le 2 (body_length h) ++ le 4 (sequence h))
    with ((([protocol_version h] ++ [MsgType_code (msg_type h)]) ++ le 2 (body_length h)) ++ le 4 (sequence h))
    by by rewrite <- !app_assoc.
  auto with ordbk.
Qed.

Lemma encode_body_writes b : writes (encode_body b) (body_bytes b).
Proof.
  destruct b; cbn [encode_body body_bytes]; auto with ordbk.
  - change [no_side m; no_order_type m; no_tif m; 0%Z]
      with ([no_side m] ++ [no_order_type m] ++ [no_tif m] ++ [0%Z]).
    rewrite !app_assoc. auto 20 with ordbk.
  - rewrite !app_assoc. auto 10 with ordbk.
Qed.

Lemma body_bytes_length b : length (body_bytes b) ≤ 33.
Proof. destruct b; simpl; rewrite ?length_app, ?le_length; simpl; rewrite ?length_app, ?le_length; simpl; lia. Qed.

Lemma header_bytes_length h : length (header_bytes h) = kHeaderSize.
Proof. unfold header_bytes. rewrite !length_app, !le_length. done. Qed.

Lemma copy_loop_spec n i scratch hd done_ rest :
  length hd = kHeaderSize → length done_ = i → n ≤ length rest → i + n ≤ length scratch →
  copy_loop n i scratch (hd ++ done_ ++ rest) =
  Some (hd ++ done_ ++ take n (drop i scratch) ++ drop n rest).
Proof.
  intros Hh. revert i done_ rest. induction n as [|n IH]; intros i done_ rest Hi Hn Hs; cbn [copy_loop].
  { by rewrite drop_0. }
  destruct rest as [|c rest]; simpl in Hn; [lia|].
  destruct (lookup_lt_is_Some_2 scratch i ltac:(lia)) as [b Hb]. rewrite Hb.
  rewrite bool_decide_eq_true_2 by (rewrite !length_app; cbn [length]; lia).
  rewrite insert_app_r_alt by lia. rewrite insert_app_r_alt by lia.
  replace (kHeaderSize + i - length hd - length done_) with 0 by lia. cbn [insert list_insert].
  rewrite cons_middle, (app_assoc done_), IH; [|rewrite length_app; simpl; lia|lia|lia].
  rewrite (drop_S scratch b i Hb). simpl. by rewrite <- app_assoc.
Qed.

(** A span that is long enough receives exactly [wire]; a shorter one is
    refused before anything is written. *)
Lemma encode_span_spec out seq b :
  encode_span out seq b =
  if decide (length (wire seq b) ≤ length out)
  then Some (length (wire seq b), wire seq b ++ drop (length (wire seq b)) out)
  else Some (0, out).
Proof.
  unfold encode_span, wire. rewrite length_app, header_bytes_length.
  pose proof (body_bytes_length b) as Hb.
  destruct (decide (length out < kHeaderSize)) as [Hs|Hs].
  { by rewrite decide_False by lia. }
  pose proof (length_replicate kMaxBodySize 0%Z) as Hsc.
  set (scratch := replicate kMaxBodySize 0%Z) in *.
  rewrite (writes_start _ _ _ (encode_body_writes b)) by (rewrite Hsc; unfold kMaxBodySize; lia).
  cbn [negb w_pos w_buf]. destruct (decide (length out < _)) as [Hl|Hl].
  { by rewrite decide_False by lia. }
  rewrite decide_False by (unfold kMaxBodySize; lia). rewrite (decide_True (P:=_ ≤ _)) by lia.
  rewrite wrap_small by (unfold in_u; lia). fold (header_of seq b).
  rewrite (writes_start _ _ _ (encode_header_writes (header_of seq b)))
    by (rewrite header_bytes_length; lia). cbn [negb w_pos w_buf].
  rewrite header_bytes_length.
  pose proof (copy_loop_spec (length (body_bytes b)) 0
    (body_bytes b ++ drop (length (body_bytes b)) scratch)
    (header_bytes (header_of seq b)) [] (drop kHeaderSize out)) as Ec.
  rewrite !app_nil_l in Ec. rewrite Ec; [|apply header_bytes_length|done|rewrite length_drop; lia|rewrite length_app; lia].
  rewrite drop_0, take_app_length, drop_drop, <- app_assoc. done.
Qed.

Lemma encode_spec seq b : encode seq b = Some (wire seq b).
Proof.
  unfold encode. rewrite encode_span_spec, decide_True.
  - by rewrite take_app_length.
  - unfold wire. rewrite length_app, header_bytes_length, length_replicate.
    pose proof (body_bytes_length b). unfold kMaxBodySize. lia.
Qed.

(** ** Readers *)

(** A reader in the middle of its span. *)
Definition rd (pre suf : list Z) : BufferReader := mkReader (pre ++ suf) (length pre).

(** [f] takes [n] bytes and decodes them with [dec], or fails. *)
Definition reads {A} (f : BufferReader → res (option A * BufferReader)) (n : nat)
    (dec : list Z → A) : Prop :=
  ∀ pre suf, f (rd pre suf) =
    if decide (n ≤ length suf)
    then Some (Some (dec (take n suf)), rd (pre ++ take n suf) (drop n suf))
    else Some (None, rd pre suf).

Lemma get_spec pre b suf : get (rd pre (b :: suf)) = Some (b, rd (pre ++ [b]) suf).
Proof.
  unfold get, rd. simpl. rewrite list_lookup_middle by done.
  rewrite <- app_assoc, length_app. simpl. do 3 f_equal. lia.
Qed.

Lemma get_loop_spec n i v pre suf :
  n ≤ length suf →
  get_loop n i v (rd pre suf) = Some (lor_val i v (take n suf), rd (pre ++ take n suf) (drop n suf)).
Proof.
  revert i v pre suf. induction n as [|n IH]; intros i v pre suf Hn; simpl.
  { by rewrite take_0, drop_0, app_nil_r. }
  destruct suf as [|b suf]; simpl in Hn; [lia|]. rewrite get_spec, IH by lia.
  simpl. by rewrite <- app_assoc.
Qed.

Lemma rd_short n pre suf :
  length (r_buf (rd pre suf)) < r_pos (rd pre suf) + n ↔ ¬ n ≤ length suf.
Proof. unfold rd. simpl. rewrite length_app. lia. Qed.

Lemma reads_u8 : reads read_u8 1 (lor_val 0 0).
Proof.
  intros pre suf. unfold read_u8. destruct (decide (1 ≤ length suf)) as [Hl|Hl].
  - rewrite decide_False by (rewrite rd_short; tauto). destruct suf as [|b suf]; simpl in Hl; [lia|].
    rewrite get_spec. simpl. rewrite take_0, drop_0, Z.shiftl_0_r. done.
  - by rewrite decide_True by (by rewrite rd_short).
Qed.

Lemma reads_u16 : reads read_u16 2 (λ bs, u16 (lor_val 0 0 bs)).
Proof.
  intros pre suf. unfold read_u16. destruct (decide (2 ≤ length suf)) as [Hl|Hl].
  - rewrite decide_False by (rewrite rd_short; tauto).
    destruct suf as [|a [|b suf]]; simpl in Hl; [lia..|].
    rewrite !get_spec. simpl. by rewrite take_0, drop_0, Z.shiftl_0_r, <- app_assoc.
  - by rewrite decide_True by (by rewrite rd_short).
Qed.

Lemma reads_loop n (f : BufferReader → res (option Z * BufferReader)) :
  (∀ r, f r = if decide (length (r_buf r) < r_pos r + n) then Some (None, r)
              else let* (v, r') := get_loop n 0 0 r in Some (Some v, r')) →
  reads f n (lor_val 0 0).
Proof.
  intros Hf pre suf. rewrite Hf. destruct (decide (n ≤ length suf)) as [Hl|Hl].
  - rewrite decide_False by (rewrite rd_short; tauto). by rewrite get_loop_spec.
  - by rewrite decide_True by (by rewrite rd_short).
Qed.

Lemma reads_u32 : reads read_u32 4 (lor_val 0 0).
Proof. by apply reads_loop. Qed.

Lemma reads_u64 : reads read_u64 8 (lor_val 0 0).
Proof. by apply reads_loop. Qed.

Lemma reads_i64 : reads read_i64 8 (λ bs, i64 (lor_val 0 0 bs)).
Proof. intros pre suf. unfold read_i64. rewrite reads_u64. by case_decide. Qed.

#[export] Hint Resolve reads_u8 reads_u16 reads_u32 reads_u64 reads_i64 : ordbk.

Lemma read_bind_spec {A B} (f : BufferReader → res (option A * BufferReader)) n dec
    (k : A → BufferReader → res (option B)) pre bs suf :
  reads f n dec → length bs = n →
  read_bind f k (rd pre (bs ++ suf)) = k (dec bs) (rd (pre ++ bs) suf).
Proof.
  intros Hf <-. unfold read_bind. rewrite Hf, decide_True by (rewrite length_app; lia).
  by rewrite take_app_length, drop_app_length.
Qed.

Lemma read_bind_total {A B} (f : BufferReader → res (option A * BufferReader)) n dec
    (k : A → BufferReader → res (option B)) pre suf :
  reads f n dec → (∀ a pre suf, ∃ v, k a (rd pre suf) = Some v) →
  ∃ v, read_bind f k (rd pre suf) = Some v.
Proof. intros Hf Hk. unfold read_bind. rewrite Hf. case_decide; eauto. Qed.

(** ** Decoding *)

Lemma decode_body_total h bytes : ∃ v, decode_body h bytes = Some v.
Proof.
  unfold decode_body. change (mkReader bytes 0) with (rd [] bytes).
  destruct (msg_type h); eauto;
    repeat (eapply read_bind_total; [auto with ordbk|intros]); eauto.
Qed.

Lemma decode_header_spec bytes :
  length bytes = kHeaderSize →
  ∃ v t l0 l1 s0 s1 s2 s3, bytes = [v; t; l0; l1; s0; s1; s2; s3] ∧
    decode_header (mkReader bytes 0) =
    Some (Some (mkHeader (lor_val 0 0 [v]) (MsgType_of (lor_val 0 0 [t]))
                  (u16 (lor_val 0 0 [l0; l1])) (lor_val 0 0 [s0; s1; s2; s3]))).
Proof.
  intros Hl. do 8 (destruct bytes as [|? bytes]; [discriminate Hl|]). destruct bytes; [|discriminate Hl].
  eexists _, _, _, _, _, _, _, _. split; [done|]. unfold decode_header.
  match goal with |- context [mkReader [?v; ?t; ?l0; ?l1; ?s0; ?s1; ?s2; ?s3] 0] =>
    change (mkReader [v; t; l0; l1; s0; s1; s2; s3] 0)
      with (rd [] ([v] ++ [t] ++ [l0; l1] ++ [s0; s1; s2; s3] ++ [])) end.
  rewrite !(read_bind_spec read_u8 1 _ _ _ _ _ reads_u8) by done.
  rewrite (read_bind_spec read_u16 2 _ _ _ _ _ reads_u16) by done.
  by rewrite (read_bind_spec read_u32 4 _ _ _ _ _ reads_u32) by done.
Qed.

Lemma byte_val b : lor_val 0 0 [b] = b.
Proof. simpl. by rewrite Z.shiftl_0_r. Qed.

Lemma RejectReason_round r : RejectReason_ok r → RejectReason_of (RejectReason_code r) = r.
Proof.
  destruct r; try done. simpl. intros Hv. unfold RejectReason_of.
  rewrite !(proj2 (Z.eqb_neq _ _)) by lia. done.
Qed.

Lemma MsgType_round b : MsgType_of (MsgType_code (type_of b)) = type_of b.
Proof. by destruct b. Qed.

Lemma decode_header_round seq b :
  in_u 32 seq →
  decode_header (mkReader (header_bytes (header_of seq b)) 0) = Some (Some (header_of seq b)).
Proof.
  intros Hs. pose proof (body_bytes_length b) as Hb. set (h := header_of seq b).
  assert (in_u 16 (body_length h)) as Hl by (unfold in_u; simpl; lia).
  unfold decode_header. rewrite <- (app_nil_r (header_bytes h)).
  change (mkReader (header_bytes h ++ []) 0)
    with (rd [] ([protocol_version h] ++ [MsgType_code (msg_type h)] ++ le 2 (body_length h) ++
                 le 4 (sequence h) ++ [])).
  rewrite !(read_bind_spec read_u8 1 _ _ _ _ _ reads_u8) by done.
  rewrite (read_bind_spec read_u16 2 _ _ _ _ _ reads_u16) by apply le_length.
  rewrite (read_bind_spec read_u32 4 _ _ _ _ _ reads_u32) by apply le_length.
  rewrite !byte_val, (lor_val_le_0 2 (body_length h)), (lor_val_le_0 4 (sequence h)), wrap_small by done.
  unfold h at 2. cbn [msg_type header_of]. by rewrite MsgType_round.
Qed.

(** One [read*] of a body that was written field by field. *)
Ltac read_field :=
  first
    [ rewrite (read_bind_spec read_u64 8 _ _ _ _ _ reads_u64) by apply le_length
    | rewrite (read_bind_spec read_u32 4 _ _ _ _ _ reads_u32) by apply le_length
    | rewrite (read_bind_spec read_i64 8 _ _ _ _ _ reads_i64) by apply le_length
    | rewrite (read_bind_spec read_u8 1 _ _ _ _ _ reads_u8) by done ].

Lemma decode_body_round seq b :
  body_ok b → decode_body (header_of seq b) (body_bytes b) = Some (Some b).
Proof.
  intros Hb. unfold decode_body. change (mkReader (body_bytes b) 0) with (rd [] (body_bytes b)).
  rewrite <- (app_nil_r (body_bytes b)).
  destruct b as [| | |m| | | | |]; cbn [header_of msg_type type_of body_bytes]; try done;
    simpl in Hb; destruct_and?.
  2: change [no_side m; no_order_type m; no_tif m; 0%Z]
       with ([no_side m] ++ [no_order_type m] ++ [no_tif m] ++ [0%Z]).
  all: rewrite <- ?app_assoc; repeat read_field;
    rewrite ?byte_val, ?(lor_val_le_0 4), ?(lor_val_le_0 8), ?i64_of_u64, ?RejectReason_round;
    auto using wrap_in_u with lia.
  by destruct m.
Qed.

(** *** Decoded values are in range *)

Lemma lor_val_bound i v bs :
  (0 ≤ i)%Z → Forall (in_u 8) bs → (0 ≤ v < 2 ^ (8 * i))%Z →
  (0 ≤ lor_val i v bs < 2 ^ (8 * (i + Z.of_nat (length bs))))%Z.
Proof.
  intros Hi Hb. revert i v Hi. induction Hb as [|b bs Hb Hbs IH]; intros i v Hi Hv; simpl.
  { by rewrite Z.add_0_r. }
  rewrite lor_shiftl by lia.
  replace (i + Z.of_nat (S (length bs)))%Z with (i + 1 + Z.of_nat (length bs))%Z by lia.
  apply IH; [lia|]. replace (8 * (i + 1))%Z with (8 + 8 * i)%Z by lia.
  rewrite Z.pow_add_r by lia. unfold in_u in Hb. nia.
Qed.

Lemma lor_val_in_u n bs : Forall (in_u 8) bs → length bs = n → in_u (8 * Z.of_nat n) (lor_val 0 0 bs).
Proof. intros Hb <-. apply (lor_val_bound 0 0 bs); [lia|done|simpl; lia]. Qed.

Lemma i64_in_i z : in_i 64 (i64 z).
Proof.
  unfold i64, in_i. pose proof (wrap_in_u 64 z ltac:(lia)) as [? ?].
  destruct (Z.ltb_spec (u64 z) (2 ^ 63)); lia.
Qed.

Lemma RejectReason_of_ok b : in_u 8 b → RejectReason_ok (RejectReason_of b).
Proof.
  intros [? ?]. unfold RejectReason_of. repeat (case_match; [done|]). simpl. zbool. lia.
Qed.

Lemma read_bind_inv {A B} (f : BufferReader → res (option A * BufferReader)) n dec
    (k : A → BufferReader → res (option B)) pre suf v :
  reads f n dec → Forall (in_u 8) suf → read_bind f k (rd pre suf) = Some (Some v) →
  ∃ bs pre' suf', length bs = n ∧ Forall (in_u 8) bs ∧ Forall (in_u 8) suf' ∧
    k (dec bs) (rd pre' suf') = Some (Some v).
Proof.
  intros Hf Hb. unfold read_bind. rewrite Hf. case_decide as Hl; [|done]. intros E.
  exists (take n suf), (pre ++ take n suf), (drop n suf). split_and!; [|by apply Forall_take|by apply Forall_drop|done].
  rewrite length_take. lia.
Qed.

Ltac unread H :=
  repeat (eapply read_bind_inv in H as (? & ? & ? & ? & ? & ? & H); [|solve [auto with ordbk]|assumption]).

Lemma decode_body_ok h bytes b :
  Forall (in_u 8) bytes → decode_body h bytes = Some (Some b) →
  body_ok b ∧ type_of b = msg_type h.
Proof.
  intros Hb. unfold decode_body. change (mkReader bytes 0) with (rd [] bytes).
  assert (∀ bs, Forall (in_u 8) bs → length bs = 1 → in_u 8 (lor_val 0 0 bs)) as H1 by apply (lor_val_in_u 1).
  assert (∀ bs, Forall (in_u 8) bs → length bs = 4 → in_u 32 (lor_val 0 0 bs)) as H4 by apply (lor_val_in_u 4).
  assert (∀ bs, Forall (in_u 8) bs → length bs = 8 → in_u 64 (lor_val 0 0 bs)) as H8 by apply (lor_val_in_u 8).
  destruct (msg_type h); intros E; try done; unread E; injection E as <-;
    simpl; split_and?; auto using i64_in_i, RejectReason_of_ok.
Qed.

Lemma wire_bytes seq b : body_ok b → in_u 32 seq → Forall (in_u 8) (wire seq b).
Proof.
  intros Hb Hs.
  assert (∀ n v, Forall (in_u 8) (le n v)) as Hle.
  { induction n as [|n IH]; intros v; simpl; constructor; [|done].
    apply Z.mod_pos_bound. lia. }
  unfold wire, header_bytes. rewrite !Forall_app, !Forall_cons. split_and!; try done; try apply Hle.
  - by destruct b.
  - destruct b; simpl in Hb; cbn [body_bytes]; rewrite ?Forall_app, ?Forall_cons, ?Forall_nil;
      destruct_and?; split_and?; auto; try (by unfold in_u).
    destruct reason; unfold in_u; simpl in *; lia.
Qed.

(** ** Properties *)

(** C17: encoding and decoding are inverse.  [encode] is defined and produces
    at most 41 bytes; into a caller's span it writes exactly these bytes, or
    nothing if the span is too short; decoding the first 8 bytes gives a header
    with the version, type, body length and sequence number, and decoding the
    rest with it gives the message back. *)
Theorem codec_roundtrip seq b :
  body_ok b → in_u 32 seq →
  ∃ bytes, encode seq b = Some bytes ∧ Forall (in_u 8) bytes ∧ length bytes ≤ 41 ∧
    decode_header (mkReader (take kHeaderSize bytes) 0) = Some (Some (header_of seq b)) ∧
    decode_body (header_of seq b) (drop kHeaderSize bytes) = Some (Some b) ∧
    (∀ out, encode_span out seq b =
       if decide (length bytes ≤ length out)
       then Some (length bytes, bytes ++ drop (length bytes) out) else Some (0, out)).
Proof.
  intros Hb Hs. exists (wire seq b). split_and!.
  - apply encode_spec.
  - by apply wire_bytes.
  - unfold wire. rewrite length_app, header_bytes_length. pose proof (body_bytes_length b).
    unfold kHeaderSize. lia.
  - unfold wire. rewrite take_app_le, take_ge by (by rewrite header_bytes_length).
    by apply decode_header_round.
  - unfold wire. rewrite drop_app_ge, header_bytes_length, Nat.sub_diag, drop_0
      by (by rewrite header_bytes_length). by apply decode_body_round.
  - intros out. apply encode_span_spec.
Qed.

Definition ex_msg : MessageBody := NewOrder (mkNewOrder 42 7 0 0 1 (-5) 100).

Lemma codec_roundtrip_witness :
  ∃ bytes, encode 3 ex_msg = Some bytes ∧ Forall (in_u 8) bytes ∧ length bytes ≤ 41 ∧
    decode_header (mkReader (take kHeaderSize bytes) 0) = Some (Some (header_of 3 ex_msg)) ∧
    decode_body (header_of 3 ex_msg) (drop kHeaderSize bytes) = Some (Some ex_msg) ∧
    (∀ out, encode_span out 3 ex_msg =
       if decide (length bytes ≤ length out)
       then Some (length bytes, bytes ++ drop (length bytes) out) else Some (0, out)).
Proof.
  apply (codec_roundtrip 3 ex_msg); [|by unfold in_u].
  unfold body_ok, ex_msg, in_u, in_i. simpl. lia.
Defined.

(** C18: decoding is safe on every input: whatever the header and the bytes,
    [decode_body] reads only inside its span; and what it accepts is a message
    of the header's type all of whose fields are values of their C++ types. *)
Theorem decode_body_safe h bytes :
  Forall (in_u 8) bytes →
  ∃ v, decode_body h bytes = Some v ∧
    ∀ b, v = Some b → body_ok b ∧ type_of b = msg_type h.
Proof.
  intros Hb. destruct (decode_body_total h bytes) as [v E]. exists v. split; [done|].
  intros b ->. by apply (decode_body_ok h bytes).
Qed.

Lemma decode_body_safe_witness :
  let h := mkHeader 1 T_CancelOrder 12 0 in
  let bytes := [1; 2; 0; 0; 0; 0; 0; 0; 7; 0; 0; 0]%Z in
  decode_body h bytes = Some (Some (CancelOrderMsg 513 7)) ∧
  ∃ v, decode_body h bytes = Some v ∧ ∀ b, v = Some b → body_ok b ∧ type_of b = T_CancelOrder.
Proof.
  intros h bytes. split; [by vm_compute|]. apply (decode_body_safe h bytes).
  unfold bytes. repeat constructor; unfold in_u; lia.
Defined.
