(* ===== verification/Framer.v ===== *)
(** * Stream framer (include/ordbk/protocol/framer.hpp, src/protocol/framer.cpp)

    TCP gives no message boundaries: the framer collects chunks of bytes and
    yields one message at a time.  [drain] is the loop [while (next())] its
    clients run after each chunk. *)

From S2P Require Import Prelude Codec.

Inductive Error := NoError | BadVersion | OversizeBody | BadBody.

#[export] Instance Error_eq_dec : EqDecision Error.
Proof. solve_decision. Defined.

Record Framer := mkFramer {
  fbuf : list Z;
  error_ : Error }.

Definition Framer_new : Framer := mkFramer [] NoError.

Definition feed (bytes : list Z) (f : Framer) : Framer :=
  if decide (error_ f = NoError) then mkFramer (fbuf f ++ bytes) (error_ f) else f.

Definition next (f : Framer) : res (option DecodedMessage * Framer) :=
  if decide (error_ f ≠ NoError) then Some (None, f)
  else if decide (length (fbuf f) < kHeaderSize) then Some (None, f)
  else
    let* h := decode_header (mkReader (take kHeaderSize (fbuf f)) 0) in
    match h with
    | None => Some (None, f)
    | Some h =>
        if negb (protocol_version h =? kProtocolVersion)%Z
        then Some (None, mkFramer (fbuf f) BadVersion)
        else if (Z.of_nat kMaxBodySize <? body_length h)%Z
        then Some (None, mkFramer (fbuf f) OversizeBody)
        else
          let total := kHeaderSize + Z.to_nat (body_length h) in
          if decide (length (fbuf f) < total) then Some (None, f)
          else
            let* b := decode_body h (take (Z.to_nat (body_length h)) (drop kHeaderSize (fbuf f))) in
            match b with
            | None => Some (None, mkFramer (fbuf f) BadBody)
            | Some b => Some (Some (mkDecoded h b), mkFramer (drop total (fbuf f)) (error_ f))
            end
    end.

Definition reset (f : Framer) : Framer := mkFramer [] NoError.
Definition has_error (f : Framer) : bool := bool_decide (error_ f ≠ NoError).
Definition buffered_bytes (f : Framer) : nat := length (fbuf f).

(** [while (auto m = next()) ...]: the messages the loop sees, one turn per
    unit of fuel; a turn that yields a message takes at least a header off the
    buffer, so the length of the buffer is enough. *)
Fixpoint drain_loop (fuel : nat) (f : Framer) : res (list DecodedMessage * Framer) :=
  match fuel with
  | 0 => None
  | S fuel' =>
      let* (m, f') := next f in
      match m with
      | None => Some ([], f')
      | Some m => let* (ms, f'') := drain_loop fuel' f' in Some (m :: ms, f'')
      end
  end.
Definition drain (f : Framer) : res (list DecodedMessage * Framer) :=
  drain_loop (S (length (fbuf f))) f.

(** A connection: each chunk is fed and then drained. *)
Fixpoint receive (chunks : list (list Z)) (f : Framer) : res (list DecodedMessage * Framer) :=
  match chunks with
  | [] => Some ([], f)
  | c :: chunks' =>
      let* (ms, f1) := drain (feed c f) in
      let* (ms', f2) := receive chunks' f1 in
      Some (ms ++ ms', f2)
  end.

(** ** Lemmas on [next] *)

(** The header of a buffer that has one. *)
Definition buf_header (buf : list Z) : MessageHeader :=
  match decode_header (mkReader (take kHeaderSize buf) 0) with
  | Some (Some h) => h
  | _ => mkHeader 0 (MsgType_other 0) 0 0
  end.
Definition buf_total (buf : list Z) : nat := kHeaderSize + Z.to_nat (body_length (buf_header buf)).

Lemma decode_buf_header buf :
  ¬ length buf < kHeaderSize →
  decode_header (mkReader (take kHeaderSize buf) 0) = Some (Some (buf_header buf)).
Proof.
  intros Hl. unfold buf_header.
  destruct (decode_header_spec (take kHeaderSize buf)) as (? & ? & ? & ? & ? & ? & ? & ? & _ & ->); [|done].
  rewrite length_take. lia.
Qed.

(** Bytes that arrive later do not change what a complete prefix means. *)
Lemma buf_header_app buf more :
  ¬ length buf < kHeaderSize → buf_header (buf ++ more) = buf_header buf.
Proof. intros Hl. unfold buf_header. by rewrite take_app_le by lia. Qed.

(** The three outcomes of [next] on a buffer without error. *)
Inductive next_case (buf : list Z) : option DecodedMessage → Framer → Prop :=
| nc_more :
    length buf < kHeaderSize ∨ length buf < buf_total buf →
    next_case buf None (mkFramer buf NoError)
| nc_error e :
    kHeaderSize ≤ length buf → e ≠ NoError → next_case buf None (mkFramer buf e)
| nc_msg b :
    kHeaderSize ≤ buf_total buf ≤ length buf →
    decode_body (buf_header buf) (take (Z.to_nat (body_length (buf_header buf))) (drop kHeaderSize buf))
      = Some (Some b) →
    next_case buf (Some (mkDecoded (buf_header buf) b)) (mkFramer (drop (buf_total buf) buf) NoError).

Lemma next_total buf : ∃ m f, next (mkFramer buf NoError) = Some (m, f) ∧ next_case buf m f.
Proof.
  unfold next. rewrite decide_False by (simpl; tauto). cbn [fbuf].
  destruct (decide (length buf < kHeaderSize)) as [Hs|Hs].
  { eexists _, _. split; [done|]. apply nc_more. by left. }
  rewrite decode_buf_header by done.
  destruct (negb _).
  { eexists _, _. split; [done|]. apply nc_error; [lia|done]. }
  destruct (Z.of_nat kMaxBodySize <? _)%Z.
  { eexists _, _. split; [done|]. apply nc_error; [lia|done]. }
  fold (buf_total buf). destruct (decide (length buf < buf_total buf)) as [Ht|Ht].
  { eexists _, _. split; [done|]. apply nc_more. by right. }
  destruct (decode_body_total (buf_header buf)
    (take (Z.to_nat (body_length (buf_header buf))) (drop kHeaderSize buf))) as [[b|] E]; rewrite E.
  - eexists _, _. split; [done|]. apply nc_msg; [|done]. unfold buf_total in *. lia.
  - eexists _, _. split; [done|]. apply nc_error; [lia|done].
Qed.

(** A message that is there stays, and so does an error. *)
Lemma next_app buf more m f :
  next (mkFramer buf NoError) = Some (m, f) → m ≠ None ∨ error_ f ≠ NoError →
  next (mkFramer (buf ++ more) NoError) = Some (m, mkFramer (fbuf f ++ more) (error_ f)).
Proof.
  unfold next. rewrite !decide_False by (simpl; tauto). cbn [fbuf].
  destruct (decide (length buf < kHeaderSize)) as [Hs|Hs].
  { intros [= <- <-] [?|?]; done. }
  rewrite (decide_False (P:=length (buf ++ more) < kHeaderSize)) by (rewrite length_app; lia).
  rewrite !decode_buf_header by (rewrite ?length_app; lia). rewrite buf_header_app by done.
  destruct (negb _); [by intros [= <- <-]|].
  destruct (Z.of_nat kMaxBodySize <? _)%Z; [by intros [= <- <-]|].
  destruct (decide (length buf < _)) as [Ht|Ht].
  { intros [= <- <-] [?|?]; done. }
  rewrite (decide_False (P:=length (buf ++ more) < _)) by (rewrite length_app; lia).
  rewrite !(drop_app_le buf) by lia. rewrite take_app_le by (rewrite length_drop; lia).
  destruct (decode_body_total (buf_header buf)
    (take (Z.to_nat (body_length (buf_header buf))) (drop kHeaderSize buf))) as [[b|] ->];
    by intros [= <- <-].
Qed.

(** ** The drain loop ends *)

Lemma drain_loop_fuel fuel buf :
  length buf < fuel →
  ∃ ms f, drain_loop fuel (mkFramer buf NoError) = Some (ms, f) ∧
    (∀ fuel', length buf < fuel' → drain_loop fuel' (mkFramer buf NoError) = Some (ms, f)) ∧
    length (fbuf f) ≤ length buf ∧
    (error_ f = NoError → next f = Some (None, f)).
Proof.
  revert buf. induction fuel as [|fuel IH]; intros buf Hl; [lia|].
  destruct (next_total buf) as (m & f & E & Hc). destruct Hc as [Hm|e Hh He|b Hb Hd].
  - exists [], (mkFramer buf NoError). cbn [drain_loop]. rewrite E. split_and!; try done.
    intros [|fuel'] Hf; [lia|]. cbn [drain_loop]. by rewrite E.
  - exists [], (mkFramer buf e). cbn [drain_loop]. rewrite E. split_and!; try done.
    intros [|fuel'] Hf; [lia|]. cbn [drain_loop]. by rewrite E.
  - assert (length (drop (buf_total buf) buf) < length buf) as Hlt.
    { rewrite length_drop. unfold buf_total, kHeaderSize in *. lia. }
    destruct (IH (drop (buf_total buf) buf)) as (ms & f & E1 & E2 & Hlen & Hn); [lia|].
    exists (mkDecoded (buf_header buf) b :: ms), f. cbn [drain_loop]. rewrite E, E1.
    split_and!; [done| |lia|done].
    intros [|fuel'] Hf; [lia|]. cbn [drain_loop]. rewrite E, E2 by lia. done.
Qed.

Lemma drain_total f : ∃ ms f', drain f = Some (ms, f') ∧ (error_ f' = NoError → next f' = Some (None, f')).
Proof.
  destruct f as [buf e]. destruct (decide (e = NoError)) as [->|He].
  - destruct (drain_loop_fuel (S (length buf)) buf) as (ms & f & E & _ & _ & Hn); [lia|]. eauto.
  - exists [], (mkFramer buf e). split; [|done]. unfold drain. cbn [drain_loop].
    unfold next. by rewrite decide_True.
Qed.

(** ** Chunks *)

(** Draining, feeding and draining again sees what one drain of all the bytes
    sees; after an error nothing more. *)
Lemma drain_app buf more ms f :
  drain (mkFramer buf NoError) = Some (ms, f) →
  ∃ ms' f', drain (feed more f) = Some (ms', f') ∧
    ∃ f'', drain (mkFramer (buf ++ more) NoError) = Some (ms ++ ms', f'') ∧
      error_ f'' = error_ f' ∧ (error_ f' = NoError → f'' = f').
Proof.
  remember (length buf) as n eqn:Hn. revert buf Hn ms f.
  induction n as [n IH] using lt_wf_ind. intros buf -> ms f Hd.
  destruct (next_total buf) as (m & f0 & E & Hc).
  assert (drain (mkFramer buf NoError) =
    match m with
    | None => Some ([], f0)
    | Some m => let* (ms, f'') := drain_loop (length buf) f0 in Some (m :: ms, f'')
    end) as Hd'.
  { unfold drain. cbn [drain_loop fbuf]. by rewrite E. }
  rewrite Hd' in Hd. clear Hd'. pose proof (next_app buf more m f0 E) as Hnext.
  destruct Hc as [Hm|e Hh He|b Hb Hbody].
  - injection Hd as <- <-. unfold feed. rewrite decide_True by done. cbn [fbuf error_ app].
    destruct (drain_total (mkFramer (buf ++ more) NoError)) as (ms' & f' & -> & _). eauto 10.
  - injection Hd as <- <-. exists [], (mkFramer buf e). unfold feed. rewrite decide_False by done.
    split. { unfold drain. cbn [drain_loop]. unfold next. by rewrite decide_True. }
    exists (mkFramer (buf ++ more) e). split_and!; [|done|done].
    unfold drain. cbn [drain_loop]. rewrite Hnext by auto. done.
  - assert (length (drop (buf_total buf) buf) < length buf) as Hlt.
    { rewrite length_drop. unfold buf_total, kHeaderSize in *. lia. }
    set (buf1 := drop (buf_total buf) buf) in *.
    destruct (drain_loop_fuel (length buf) buf1 Hlt) as (ms1 & f1 & E1 & E2 & _ & _).
    rewrite E1 in Hd. injection Hd as <- <-.
    destruct (IH (length buf1) Hlt buf1 eq_refl ms1 f1) as (ms' & f' & Ef & f'' & Ea & He & Hs).
    { apply E2. cbn [fbuf]. lia. }
    exists ms', f'. split; [done|]. exists f''. split_and!; [|done|done].
    unfold drain. cbn [drain_loop fbuf]. rewrite Hnext by auto. cbn [fbuf error_].
    destruct (drain_loop_fuel (length (buf ++ more)) (buf1 ++ more)) as (ms2 & f2 & E3 & E4 & _ & _).
    { rewrite !length_app. lia. }
    rewrite E3. unfold drain in Ea. rewrite E4 in Ea by (cbn [fbuf]; lia).
    injection Ea as -> ->. done.
Qed.

Lemma receive_spec chunks buf :
  next (mkFramer buf NoError) = Some (None, mkFramer buf NoError) →
  ∃ ms f, receive chunks (mkFramer buf NoError) = Some (ms, f) ∧
    ∃ f', drain (mkFramer (buf ++ concat chunks) NoError) = Some (ms, f') ∧
      error_ f' = error_ f ∧ (error_ f = NoError → f' = f).
Proof.
  revert buf. induction chunks as [|c chunks IH]; intros buf Hn; cbn [receive concat].
  { exists [], (mkFramer buf NoError). split; [done|]. exists (mkFramer buf NoError).
    rewrite app_nil_r. split_and!; try done. unfold drain. cbn [drain_loop]. by rewrite Hn. }
  unfold feed. rewrite decide_True by done. cbn [fbuf error_].
  destruct (drain_total (mkFramer (buf ++ c) NoError)) as (ms1 & [buf1 e1] & E1 & Hn1). rewrite E1.
  destruct (drain_app (buf ++ c) (concat chunks) ms1 _ E1) as (ms2 & f2 & E2 & f3 & E3 & He & Hs).
  rewrite <- app_assoc in E3. destruct (decide (e1 = NoError)) as [->|Hne].
  - destruct (IH buf1 (Hn1 eq_refl)) as (ms & f & -> & f' & E' & He' & Hs').
    unfold feed in E2. rewrite decide_True in E2 by done. cbn [fbuf error_] in E2.
    rewrite E2 in E'. injection E' as -> <-.
    exists (ms1 ++ ms), f. split; [done|]. exists f3. split_and!; [done|congruence|].
    intros Hf. rewrite Hf in He'. rewrite Hs by done. auto.
  - assert (∀ cs, receive cs (mkFramer buf1 e1) = Some ([], mkFramer buf1 e1)) as Hr.
    { clear -Hne. induction cs as [|c cs IH]; [done|]. cbn [receive]. unfold feed.
      rewrite decide_False by done. unfold drain. cbn [drain_loop]. unfold next.
      rewrite decide_True by done. by rewrite IH. }
    rewrite Hr, app_nil_r. exists ms1, (mkFramer buf1 e1). split; [done|]. exists f3.
    unfold feed in E2. rewrite decide_False in E2 by done. unfold drain in E2. cbn [drain_loop] in E2.
    unfold next in E2. rewrite decide_True in E2 by done. injection E2 as <- <-.
    rewrite app_nil_r in E3. by split_and!.
Qed.

Lemma drain_wire seq b rest :
  body_ok b → in_u 32 seq →
  next (mkFramer (wire seq b ++ rest) NoError) =
  Some (Some (mkDecoded (header_of seq b) b), mkFramer rest NoError).
Proof.
  intros Hb Hs. assert (next (mkFramer (wire seq b) NoError) =
    Some (Some (mkDecoded (header_of seq b) b), mkFramer [] NoError)) as E.
  { unfold next, wire. rewrite decide_False by (simpl; tauto). cbn [fbuf error_].
    pose proof (header_bytes_length (header_of seq b)) as Hh. pose proof (body_bytes_length b).
    rewrite decide_False by (rewrite length_app; lia).
    rewrite take_app_le, take_ge, decode_header_round by (done || lia).
    cbn [protocol_version header_of body_length]. rewrite Nat2Z.id.
    rewrite (proj2 (Z.ltb_ge _ _)) by (unfold kMaxBodySize; lia). cbn [negb].
    rewrite decide_False by (rewrite length_app; lia).
    rewrite drop_app_ge, Hh, Nat.sub_diag, drop_0, take_ge, decode_body_round by (done || lia).
    rewrite drop_ge by (rewrite length_app; lia). done. }
  apply (next_app _ rest) in E; [done|by left].
Qed.

(** Encoded messages are received as they were sent. *)
Lemma receive_wires chunks (msgs : list (Z * MessageBody)) :
  Forall (λ m, in_u 32 m.1 ∧ body_ok m.2) msgs →
  concat chunks = concat ((λ m, wire m.1 m.2) <$> msgs) →
  receive chunks Framer_new =
    Some ((λ m, mkDecoded (header_of m.1 m.2) m.2) <$> msgs, Framer_new).
Proof.
  intros Hok Hc. destruct (receive_spec chunks []) as (ms & f & E & f' & E' & He & Hs); [done|].
  unfold Framer_new. rewrite app_nil_l, Hc in E'. rewrite E. clear Hc E.
  assert (∀ fuel, length msgs < fuel →
    drain_loop fuel (mkFramer (concat ((λ m, wire m.1 m.2) <$> msgs)) NoError) =
      Some ((λ m, mkDecoded (header_of m.1 m.2) m.2) <$> msgs, mkFramer [] NoError)) as Hd.
  { clear -Hok. induction Hok as [|[seq b] msgs [? ?] Hok IH]; intros [|fuel] Hf; simpl in Hf; try lia; [done|].
    rewrite fmap_cons. cbn [concat drain_loop]. rewrite drain_wire by done. by rewrite IH by lia. }
  assert (length msgs ≤ length (concat ((λ m, wire m.1 m.2) <$> msgs))) as Hlen.
  { clear. induction msgs as [|[seq b] msgs IH]; [done|]. rewrite fmap_cons. cbn [concat]. rewrite length_app.
    unfold wire at 1. rewrite length_app, header_bytes_length. unfold kHeaderSize. cbn [length]. lia. }
  unfold drain in E'. rewrite Hd in E' by (cbn [fbuf]; lia). injection E' as <- <-.
  by rewrite <- Hs by (by rewrite <- He).
Qed.

(** ** Properties *)

(** Framing does not depend on how the stream is cut.  For every sequence
    of chunks of any bytes the receiver is defined and its loops end; the
    messages it sees and the error it ends with are those of all the bytes
    arriving at once. *)
Theorem framer_chunk_independent chunks :
  ∃ ms f f', receive chunks Framer_new = Some (ms, f) ∧
    drain (feed (concat chunks) Framer_new) = Some (ms, f') ∧ error_ f' = error_ f.
Proof.
  destruct (receive_spec chunks []) as (ms & f & E & f' & E' & He & _); [done|]. by exists ms, f, f'.
Qed.
