(* ===== verification/Session.v ===== *)
(** * Session (include/ordbk/protocol/session.hpp, src/protocol/session.cpp)

    The state of one connection, independent of the I/O layer: inbound bytes go
    through the framer, outbound messages are numbered and encoded into a
    buffer that the gateway takes and sends. *)

From S2P Require Import Prelude Codec Framer.

Inductive State := NotLoggedOn | Active | Closing.

#[export] Instance State_eq_dec : EqDecision State.
Proof. solve_decision. Defined.

Record Session := mkSession {
  session_id_ : Z;
  state_ : State;
  client_id_ : Z;
  out_seq_ : Z;
  framer_ : Framer;
  outbound_ : list Z }.

Definition Session_new (id : Z) : Session := mkSession id NotLoggedOn 0 0 Framer_new [].

Definition on_bytes (bytes : list Z) (s : Session) : Session :=
  mkSession (session_id_ s) (state_ s) (client_id_ s) (out_seq_ s) (feed bytes (framer_ s)) (outbound_ s).

Definition next_inbound (s : Session) : res (option DecodedMessage * Session) :=
  let* (m, f) := next (framer_ s) in
  Some (m, mkSession (session_id_ s) (state_ s) (client_id_ s) (out_seq_ s) f (outbound_ s)).

(** [++out_seq_] on a std::uint32_t. *)
Definition next_outbound_seq (s : Session) : Z * Session :=
  let n := u32 (out_seq_ s + 1) in
  (n, mkSession (session_id_ s) (state_ s) (client_id_ s) n (framer_ s) (outbound_ s)).

Definition emit (b : MessageBody) (s : Session) : res Session :=
  let (n, s1) := next_outbound_seq s in
  let* bytes := encode n b in
  Some (mkSession (session_id_ s1) (state_ s1) (client_id_ s1) (out_seq_ s1) (framer_ s1)
          (outbound_ s1 ++ bytes)).

Definition take_outbound (s : Session) : list Z * Session :=
  (outbound_ s, mkSession (session_id_ s) (state_ s) (client_id_ s) (out_seq_ s) (framer_ s) []).

Definition set_state (st : State) (s : Session) : Session :=
  mkSession (session_id_ s) st (client_id_ s) (out_seq_ s) (framer_ s) (outbound_ s).
Definition set_client (c : Z) (s : Session) : Session :=
  mkSession (session_id_ s) (state_ s) c (out_seq_ s) (framer_ s) (outbound_ s).

(** ** Emitting several messages *)

Fixpoint emit_all (bs : list MessageBody) (s : Session) : res Session :=
  match bs with
  | [] => Some s
  | b :: bs' => let* s' := emit b s in emit_all bs' s'
  end.

(** The messages [bs] numbered after [n]. *)
Fixpoint numbered (n : Z) (bs : list MessageBody) : list (Z * MessageBody) :=
  match bs with
  | [] => []
  | b :: bs' => (u32 (n + 1), b) :: numbered (u32 (n + 1)) bs'
  end.
Definition wires (ms : list (Z * MessageBody)) : list Z := concat ((λ m, wire m.1 m.2) <$> ms).

(** The session after [bs]: the counter and the outbound buffer have changed. *)
Definition emitted (bs : list MessageBody) (s : Session) : Session :=
  mkSession (session_id_ s) (state_ s) (client_id_ s)
    (default (out_seq_ s) (last (numbered (out_seq_ s) bs).*1))
    (framer_ s) (outbound_ s ++ wires (numbered (out_seq_ s) bs)).

Lemma emit_spec b s :
  emit b s = Some (mkSession (session_id_ s) (state_ s) (client_id_ s) (u32 (out_seq_ s + 1))
                     (framer_ s) (outbound_ s ++ wire (u32 (out_seq_ s + 1)) b)).
Proof. unfold emit. simpl. by rewrite encode_spec. Qed.

Lemma emit_all_spec bs s : emit_all bs s = Some (emitted bs s).
Proof.
  revert s. induction bs as [|b bs IH]; intros s; cbn [emit_all].
  { unfold emitted, wires. simpl. rewrite app_nil_r. by destruct s. }
  rewrite emit_spec, IH. unfold emitted, wires.
  cbn [numbered fmap list_fmap concat fst snd session_id_ state_ client_id_ out_seq_ framer_ outbound_].
  rewrite <- app_assoc. do 2 f_equal.
  change (?x :: (numbered ?n bs).*1) with ([x] ++ (numbered n bs).*1).
  destruct (numbered (u32 (out_seq_ s + 1)) bs).*1 as [|y l] eqn:E using rev_ind; [done|].
  rewrite last_snoc. simpl. by rewrite app_comm_cons, last_snoc.
Qed.

Lemma numbered_ok n bs :
  Forall body_ok bs → Forall (λ m, in_u 32 m.1 ∧ body_ok m.2) (numbered n bs).
Proof.
  intros H. revert n. induction H as [|b bs Hb Hbs IH]; intros n; simpl; constructor; [|done].
  split; [apply wrap_in_u; lia|done].
Qed.

Lemma numbered_seqs n bs :
  (numbered n bs).*1 = (λ i, u32 (n + Z.of_nat i)) <$> seq 1 (length bs).
Proof.
  revert n. induction bs as [|b bs IH]; intros n; [done|]. simpl. f_equal.
  rewrite IH, <- (fmap_S_seq 1), <- list_fmap_compose. apply list_fmap_ext. intros i j _. simpl.
  rewrite wrap_add_l. f_equal. lia.
Qed.

Lemma numbered_bodies n bs : (numbered n bs).*2 = bs.
Proof. revert n. induction bs as [|b bs IH]; intros n; [done|]. simpl. by rewrite IH. Qed.

(** End to end over the wire, no message is lost, duplicated or
    reordered: whatever a session emits, if its outbound bytes reach a peer's
    framer cut into any chunks, the peer sees exactly the messages emitted, in
    order, numbered 1, 2, 3, ... (modulo 2^32), and ends without an error and
    with an empty buffer; the session's outbound buffer is empty again. *)
Theorem session_delivers id bs chunks :
  Forall body_ok bs →
  concat chunks = wires (numbered 0 bs) →
  ∃ s, emit_all bs (Session_new id) = Some s ∧
    fst (take_outbound s) = concat chunks ∧ outbound_ (snd (take_outbound s)) = [] ∧
    ∃ ms, receive chunks Framer_new = Some (ms, Framer_new) ∧
      body <$> ms = bs ∧
      (λ m, sequence (header m)) <$> ms = (λ i, u32 (Z.of_nat i)) <$> seq 1 (length bs).
Proof.
  intros Hok Hc. eexists. split; [apply emit_all_spec|]. split_and!; [by rewrite Hc|done|].
  eexists. split; [by apply (receive_wires _ (numbered 0 bs)); [apply numbered_ok|]|].
  rewrite <- !list_fmap_compose. split.
  - rewrite <- (numbered_bodies 0 bs) at 2. by apply list_fmap_ext.
  - trans ((numbered 0 bs).*1); [by apply list_fmap_ext|apply (numbered_seqs 0)].
Qed.

(** An acknowledgement and a cancellation, cut in the middle of a header. *)
Lemma session_delivers_witness :
  let w := wires (numbered 0 [OrderAckMsg 5 5; CancelledMsg 5]) in
  ∃ s, emit_all [OrderAckMsg 5 5; CancelledMsg 5] (Session_new 1) = Some s ∧
    fst (take_outbound s) = concat [take 3 w; drop 3 w] ∧ outbound_ (snd (take_outbound s)) = [] ∧
    ∃ ms, receive [take 3 w; drop 3 w] Framer_new = Some (ms, Framer_new) ∧
      body <$> ms = [OrderAckMsg 5 5; CancelledMsg 5] ∧
      (λ m, sequence (header m)) <$> ms = (λ i, u32 (Z.of_nat i)) <$> seq 1 2.
Proof.
  intros w. apply (session_delivers 1 [OrderAckMsg 5 5; CancelledMsg 5] [take 3 w; drop 3 w]);
    [|by vm_compute].
  repeat constructor; unfold in_u; simpl; lia.
Defined.
