(* ===== verification/Contract.v ===== *)
(** * Option contracts (include/ordbk/instruments/contract.hpp,
    src/instruments/contract.cpp)

    A [std::string] is a [string]; the character loops of the OCC symbol work
    on its list of characters.  [std::snprintf] with the zero-padded decimal
    conversions of the source is written out, its truncation to the buffer
    included. *)

From Stdlib Require Import Ascii.
From stdpp Require Import strings.
From S2P Require Import Prelude StdMap Types.

Inductive OptionType := Call | Put.
Inductive OptionStyle := American | European.
Inductive SettlementType := Physical | Cash.

#[export] Instance OptionType_eq_dec : EqDecision OptionType.
Proof. solve_decision. Defined.

Record ExpiryDate := mkDate {
  year : Z;
  month : Z;
  day : Z }.

#[export] Instance ExpiryDate_eq_dec : EqDecision ExpiryDate.
Proof. solve_decision. Defined.

(** The defaulted [operator<=>]: lexicographic. *)
Definition date_ltb (a b : ExpiryDate) : bool :=
  if (year a =? year b)%Z then
    if (month a =? month b)%Z then (day a <? day b)%Z else (month a <? month b)%Z
  else (year a <? year b)%Z.

Record Contract := mkContract {
  underlying : string;
  strike : Price;
  expiry : ExpiryDate;
  option_type : OptionType;
  style : OptionStyle;
  multiplier : Z;
  settlement : SettlementType }.

(** [Contract c;]: the default member initialisers. *)
Definition Contract_init : Contract :=
  mkContract EmptyString 0 (mkDate 0 0 0) Call American 100 Physical.

(** ** Decimal conversions *)

Definition digit (d : Z) : ascii := ascii_of_nat (48 + Z.to_nat d).

(** The decimal digits of [n]; 20 are enough for 64 bits. *)
Fixpoint digits (fuel : nat) (n : Z) : list ascii :=
  match fuel with
  | 0 => []
  | S fuel' => if (n <? 10)%Z then [digit n] else digits fuel' (n / 10) ++ [digit (n `mod` 10)]
  end.

#[global] Arguments digit : simpl never.

Definition pad0 (w : nat) (l : list ascii) : list ascii := replicate (w - length l) "0"%char ++ l.

(** ["%0<w>d"] and ["%0<w>lld"]: the sign counts towards the width. *)
Definition fmt0 (w : nat) (n : Z) : list ascii :=
  if (n <? 0)%Z then "-"%char :: pad0 (pred w) (digits 20 (- n)) else pad0 w (digits 20 n).

(** [snprintf(buf, size, ...)]: at most [size - 1] characters are kept. *)
Definition snprintf (size : nat) (text : list ascii) : list ascii := take (pred size) text.

Definition chars (s : string) : list ascii := String.list_ascii_of_string s.
Definition of_chars (l : list ascii) : string := String.string_of_list_ascii l.

Definition to_string (d : ExpiryDate) : string :=
  of_chars (snprintf 16 (fmt0 4 (year d) ++ ["-"%char] ++ fmt0 2 (month d) ++ ["-"%char] ++ fmt0 2 (day d))).

(** [for (i = 0; i < underlying.size() && i < 6; ++i) root[i] = underlying[i]] *)
Fixpoint root_loop (i : nat) (u root : list ascii) : list ascii :=
  match u with
  | [] => root
  | c :: u' => if decide (i < 6) then root_loop (S i) u' (<[i := c]> root) else root
  end.

(** Undefined when [strike * 10] leaves std::int64_t.  [append(s, n)] reads [n]
    characters: every buffer has that many. *)
Definition occ_symbol (c : Contract) : res string :=
  let root := root_loop 0 (chars (underlying c)) (replicate 6 " "%char) in
  let date := snprintf 12 (fmt0 2 (year (expiry c) `mod` 100) ++ fmt0 2 (month (expiry c)) ++
                           fmt0 2 (day (expiry c))) in
  let cp := if decide (option_type c = Call) then "C"%char else "P"%char in
  let thousandths := (strike c * 10)%Z in
  guard* bool_decide (in_i 64 thousandths) in
  let strike_str := snprintf 9 (fmt0 8 thousandths) in
  Some (of_chars (take 6 root ++ take 6 date ++ [cp] ++ take 8 strike_str)).

(** [std::invalid_argument] *)
Inductive occ_error := TooShort | NonDigit | BadType.

(** [parse_int] *)
Fixpoint parse_int (v : Z) (sv : list ascii) : Z + occ_error :=
  match sv with
  | [] => inl v
  | ch :: sv' =>
      let code := Z.of_nat (nat_of_ascii ch) in
      if (code <? 48)%Z || (57 <? code)%Z then inr NonDigit
      else parse_int (v * 10 + (code - 48)) sv'
  end.

Definition substr (pos n : nat) (l : list ascii) : list ascii := take n (drop pos l).

(** [while (!s.empty() && s.back() == ' ') s.pop_back()], on the reversed
    string. *)
Fixpoint trim_rev (l : list ascii) : list ascii :=
  match l with
  | c :: l' => if decide (c = " "%char) then trim_rev l' else l
  | [] => []
  end.
Definition trim (l : list ascii) : list ascii := reverse (trim_rev (reverse l)).

Notation "'try*' x ':=' e 'in' k" :=
  (match e with inl x => k | inr err => inr err end)
  (at level 10, x name, e at level 200, k at level 200) : ordbk_scope.

Definition from_occ (s : string) : Contract + occ_error :=
  let occ := chars s in
  if decide (length occ < 21) then inr TooShort
  else
    let root := trim (substr 0 6 occ) in
    try* yy := parse_int 0 (substr 6 2 occ) in
    try* mm := parse_int 0 (substr 8 2 occ) in
    try* dd := parse_int 0 (substr 10 2 occ) in
    let date := mkDate (u16 (2000 + yy)) (u8 mm) (u8 dd) in
    let cp := nth 12 occ " "%char in
    try* ty := (if decide (cp = "C"%char) then inl Call
                else if decide (cp = "P"%char) then inl Put else inr BadType) in
    try* thousandths := parse_int 0 (substr 13 8 occ) in
    inl (mkContract (of_chars root) (thousandths / 10) date ty (style Contract_init)
           (multiplier Contract_init) (settlement Contract_init)).

(** ** Dates are totally ordered *)

#[export] Instance date_ltb_total : StrictTotal date_ltb.
Proof.
  split.
  - intros a. unfold date_ltb. by rewrite !Z.eqb_refl, Z.ltb_irrefl.
  - intros a b c. unfold date_ltb. intros H1 H2.
    repeat match goal with
    | H : context [(?x =? ?y)%Z] |- _ => destruct (Z.eqb_spec x y)
    | |- context [(?x =? ?y)%Z] => destruct (Z.eqb_spec x y)
    end; zbool; rewrite ?Z.ltb_lt; lia.
  - intros [y1 m1 d1] [y2 m2 d2]. unfold date_ltb. simpl. intros H1 H2.
    repeat match goal with
    | H : context [(?x =? ?y)%Z] |- _ => destruct (Z.eqb_spec x y)
    end; zbool; f_equal; lia.
Qed.

Definition date_le (a b : ExpiryDate) : bool := negb (date_ltb b a).

(** ** Zero-padded decimals *)

(** Exactly [w] digits. *)
Fixpoint fixed (w : nat) (n : Z) : list ascii :=
  match w with 0 => [] | S w' => fixed w' (n / 10) ++ [digit (n `mod` 10)] end.

Lemma fixed_length w n : length (fixed w n) = w.
Proof. revert n. induction w; intros n; simpl; [done|]. rewrite length_app, IHw. simpl. lia. Qed.

Lemma fixed_zero w : fixed w 0 = replicate w "0"%char.
Proof.
  induction w as [|w IH]; [done|]. cbn [fixed]. change (0 / 10)%Z with 0%Z. rewrite IH.
  change [digit (0 `mod` 10)] with (replicate 1 "0"%char). rewrite <- replicate_add. f_equal. lia.
Qed.

Lemma pad0_snoc w l c : pad0 (S w) (l ++ [c]) = pad0 w l ++ [c].
Proof.
  unfold pad0. rewrite length_app. simpl length.
  replace (S w - (length l + 1)) with (w - length l) by lia. by rewrite <- app_assoc.
Qed.

Lemma digits_fixed w fuel n :
  (0 ≤ n < 10 ^ Z.of_nat (S w))%Z → S w ≤ fuel → pad0 (S w) (digits fuel n) = fixed (S w) n.
Proof.
  revert fuel n. induction w as [|w IH]; intros [|fuel] n Hn Hf; try lia.
  - change (10 ^ Z.of_nat 1)%Z with 10%Z in Hn. simpl. rewrite (proj2 (Z.ltb_lt n 10)) by lia.
    by rewrite Z.mod_small by lia.
  - change (fixed (S (S w)) n) with (fixed (S w) (n / 10) ++ [digit (n `mod` 10)]).
    cbn [digits]. destruct (Z.ltb_spec n 10).
    + change [digit n] with ([] ++ [digit n]). rewrite pad0_snoc, Z.mod_small, Z.div_small by lia.
      rewrite fixed_zero. unfold pad0. by rewrite app_nil_r.
    + rewrite pad0_snoc. f_equal. apply IH; [|lia].
      rewrite Nat2Z.inj_succ, Z.pow_succ_r in Hn by lia.
      split; [apply Z.div_pos; lia|apply Z.div_lt_upper_bound; lia].
Qed.

Lemma fmt0_fixed w n :
  (0 ≤ n < 10 ^ Z.of_nat (S w))%Z → S w ≤ 20 → fmt0 (S w) n = fixed (S w) n.
Proof.
  intros Hn Hw. unfold fmt0. rewrite (proj2 (Z.ltb_ge n 0)) by lia. by apply digits_fixed.
Qed.

Lemma nat_of_digit d : (0 ≤ d < 10)%Z → Z.of_nat (nat_of_ascii (digit d)) = (48 + d)%Z.
Proof. intros Hd. unfold digit. rewrite nat_ascii_embedding by lia. lia. Qed.

Lemma parse_int_app v l1 l2 :
  parse_int v (l1 ++ l2) = match parse_int v l1 with inl u => parse_int u l2 | inr e => inr e end.
Proof. revert v. induction l1 as [|c l1 IH]; intros v; simpl; [done|]. case_match; [done|apply IH]. Qed.

Lemma parse_fixed w n v :
  (0 ≤ n < 10 ^ Z.of_nat w)%Z → parse_int v (fixed w n) = inl (v * 10 ^ Z.of_nat w + n)%Z.
Proof.
  revert n v. induction w as [|w IH]; intros n v Hn; cbn [fixed].
  { change (10 ^ Z.of_nat 0)%Z with 1%Z in *. cbn [parse_int]. f_equal. lia. }
  rewrite Nat2Z.inj_succ, Z.pow_succ_r in * by lia.
  rewrite parse_int_app, IH; last first.
  { split; [apply Z.div_pos; lia|apply Z.div_lt_upper_bound; lia]. }
  cbn [parse_int]. pose proof (Z.mod_pos_bound n 10 ltac:(lia)). rewrite nat_of_digit by lia.
  rewrite (proj2 (Z.ltb_ge _ 48)), (proj2 (Z.ltb_ge 57 _)) by lia. cbn [orb]. f_equal.
  pose proof (Z.div_mod n 10 ltac:(lia)). lia.
Qed.

(** ** The root *)

Lemma root_loop_spec i u root :
  length root = 6 → i ≤ 6 → root_loop i u root = take i root ++ take (6 - i) u ++ drop (i + length u) root.
Proof.
  revert i root. induction u as [|c u IH]; intros i root Hr Hi; simpl.
  { by rewrite take_nil, Nat.add_0_r, app_nil_l, take_drop. }
  case_decide as Hlt.
  - rewrite IH by (rewrite ?length_insert; lia).
    rewrite (take_S_r _ _ c) by (apply list_lookup_insert_eq; lia).
    rewrite take_insert_ge, drop_insert_lt by lia.
    replace (6 - i) with (S (6 - S i)) by lia. cbn [take]. rewrite <- app_assoc. simpl.
    do 4 f_equal. lia.
  - replace i with 6 by lia. simpl. rewrite drop_ge, !app_nil_r, take_ge by lia. done.
Qed.

Lemma trim_spaces l n :
  last l ≠ Some " "%char → trim (l ++ replicate n " "%char) = l.
Proof.
  intros Hl. unfold trim. rewrite reverse_app, reverse_replicate.
  assert (trim_rev (replicate n " "%char ++ reverse l) = reverse l) as ->.
  { induction n as [|n IH]; cbn [replicate app].
    - destruct l as [|c l _] using rev_ind; [done|]. rewrite reverse_snoc. cbn [trim_rev].
      rewrite last_snoc in Hl. rewrite decide_False; [done|congruence].
    - cbn [trim_rev]. by rewrite decide_True. }
  apply reverse_involutive.
Qed.

(** What an OCC symbol can express. *)
Definition occ_expressible (c : Contract) : Prop :=
  length (chars (underlying c)) ≤ 6 ∧ last (chars (underlying c)) ≠ Some " "%char ∧
  (2000 ≤ year (expiry c) < 2100)%Z ∧ (0 ≤ month (expiry c) < 100)%Z ∧
  (0 ≤ day (expiry c) < 100)%Z ∧ (0 ≤ strike c < 10000000)%Z.

Lemma chars_of_chars l : chars (of_chars l) = l.
Proof. apply String.list_ascii_of_string_of_list_ascii. Qed.

Lemma of_chars_chars s : of_chars (chars s) = s.
Proof. apply String.string_of_list_ascii_of_string. Qed.

Lemma occ_symbol_spec c :
  occ_expressible c →
  occ_symbol c = Some (of_chars (
    (chars (underlying c) ++ replicate (6 - length (chars (underlying c))) " "%char) ++
    fixed 2 (year (expiry c) - 2000) ++ fixed 2 (month (expiry c)) ++ fixed 2 (day (expiry c)) ++
    [if decide (option_type c = Call) then "C"%char else "P"%char] ++ fixed 8 (strike c * 10))).
Proof.
  intros (Hu & Hs & Hy & Hm & Hd & Hk). unfold occ_symbol, snprintf.
  rewrite bool_decide_eq_true_2 by (unfold in_i; lia).
  replace (year (expiry c) `mod` 100)%Z with (year (expiry c) - 2000)%Z
    by (apply (Z.mod_unique _ _ 20); lia).
  rewrite !(fmt0_fixed 1), (fmt0_fixed 7) by lia.
  rewrite root_loop_spec by (rewrite ?length_replicate; lia).
  rewrite take_0, drop_replicate, app_nil_l, (take_ge (chars _)) by lia.
  rewrite (take_ge (_ ++ replicate _ _)) by (rewrite length_app, length_replicate; lia).
  rewrite !(take_ge (fixed 2 _ ++ _)) by (rewrite !length_app, !fixed_length; simpl; lia).
  rewrite !(take_ge (fixed 8 _)) by (rewrite fixed_length; simpl; lia).
  by rewrite <- !app_assoc.
Qed.

Lemma substr_app pos n (l1 l2 l3 : list ascii) :
  length l1 = pos → length l2 = n → substr pos n (l1 ++ l2 ++ l3) = l2.
Proof. intros <- <-. unfold substr. by rewrite drop_app_length, take_app_length. Qed.

(** The parser on a symbol cut into its fields. *)
Lemma from_occ_fields root yy mm dd cp st :
  length root = 6 → length yy = 2 → length mm = 2 → length dd = 2 → length st = 8 →
  from_occ (of_chars (root ++ yy ++ mm ++ dd ++ [cp] ++ st)) =
  try* y := parse_int 0 yy in
  try* m := parse_int 0 mm in
  try* d := parse_int 0 dd in
  try* ty := (if decide (cp = "C"%char) then inl Call
              else if decide (cp = "P"%char) then inl Put else inr BadType) in
  try* t := parse_int 0 st in
  inl (mkContract (of_chars (trim root)) (t / 10) (mkDate (u16 (2000 + y)) (u8 m) (u8 d)) ty
         American 100 Physical).
Proof.
  intros Hr Hy Hm Hd Hs. unfold from_occ. rewrite chars_of_chars.
  rewrite decide_False by (rewrite !length_app; simpl; lia).
  assert (substr 0 6 (root ++ yy ++ mm ++ dd ++ [cp] ++ st) = root) as ->
    by (by apply (substr_app 0 6 [])).
  rewrite (substr_app 6 2) by done.
  rewrite (app_assoc root yy), (substr_app 8 2) by (rewrite ?length_app; lia).
  rewrite (app_assoc (root ++ yy) mm), (substr_app 10 2) by (rewrite ?length_app; lia).
  rewrite (app_assoc ((root ++ yy) ++ mm) dd). set (pre := ((root ++ yy) ++ mm) ++ dd).
  assert (length pre = 12) as Hp by (unfold pre; rewrite !length_app; lia).
  assert (nth 12 (pre ++ [cp] ++ st) " "%char = cp) as ->
    by (rewrite app_nth2 by lia; by rewrite Hp).
  assert (substr 13 8 (pre ++ [cp] ++ st) = st) as ->; [|done].
  rewrite app_assoc, <- (app_nil_r st) at 1. apply substr_app; [rewrite length_app; simpl; lia|done].
Qed.

Lemma list_ascii_length_21 (l : list ascii) :
  length l = 21 →
  ∃ root yy mm dd cp st, l = root ++ yy ++ mm ++ dd ++ [cp] ++ st ∧
    length root = 6 ∧ length yy = 2 ∧ length mm = 2 ∧ length dd = 2 ∧ length st = 8.
Proof.
  intros Hl. do 21 (destruct l as [|? l]; [discriminate Hl|]). destruct l; [|discriminate Hl].
  match goal with |- context [[?a0; ?a1; ?a2; ?a3; ?a4; ?a5; ?b0; ?b1; ?c0; ?c1; ?d0; ?d1; ?e;
                    ?f0; ?f1; ?f2; ?f3; ?f4; ?f5; ?f6; ?f7]] =>
    exists [a0; a1; a2; a3; a4; a5], [b0; b1], [c0; c1], [d0; d1], e, [f0; f1; f2; f3; f4; f5; f6; f7]
  end. done.
Qed.

(** ** Parsed digits are printed back *)

Lemma digit_of_code c :
  (48 ≤ Z.of_nat (nat_of_ascii c) ≤ 57)%Z → digit (Z.of_nat (nat_of_ascii c) - 48) = c.
Proof.
  intros Hc. unfold digit. replace (48 + Z.to_nat (Z.of_nat (nat_of_ascii c) - 48)) with (nat_of_ascii c) by lia.
  apply ascii_nat_embedding.
Qed.

Lemma parse_int_inv l v n :
  parse_int v l = inl n →
  ∃ m, (0 ≤ m < 10 ^ Z.of_nat (length l))%Z ∧ n = (v * 10 ^ Z.of_nat (length l) + m)%Z ∧
    fixed (length l) m = l.
Proof.
  revert n. induction l as [|c l IH] using rev_ind; intros n.
  { cbn [parse_int]. intros [= <-]. exists 0%Z. change (10 ^ Z.of_nat (length []))%Z with 1%Z.
    split_and!; [lia|lia|lia|done]. }
  rewrite parse_int_app. destruct (parse_int v l) as [u|] eqn:E; [|done].
  destruct (IH u eq_refl) as (m & Hm & Hu & Hf). cbn [parse_int].
  destruct (Z.ltb_spec (Z.of_nat (nat_of_ascii c)) 48); [done|].
  destruct (Z.ltb_spec 57 (Z.of_nat (nat_of_ascii c))); [done|]. cbn [orb]. intros [= <-].
  set (d := (Z.of_nat (nat_of_ascii c) - 48)%Z). assert (0 ≤ d < 10)%Z by (unfold d; lia).
  exists (m * 10 + d)%Z. rewrite length_app. cbn [length]. rewrite Nat.add_1_r.
  rewrite Nat2Z.inj_succ, Z.pow_succ_r by lia. split_and!; [lia|lia|lia|]. cbn [fixed].
  rewrite Z.div_add_l, Z.div_small, Z.add_0_r, Hf by lia. f_equal.
  rewrite Z.add_comm, Z.mod_add, Z.mod_small by lia. unfold d. by rewrite digit_of_code by lia.
Qed.

(** Two digits of a date fit their fields. *)
Lemma parse_two yy n : length yy = 2 → parse_int 0 yy = inl n → (0 ≤ n < 100)%Z ∧ fixed 2 n = yy.
Proof.
  intros Hl E. destruct (parse_int_inv _ _ _ E) as (m & Hm & -> & Hf). rewrite Hl in *.
  change (10 ^ Z.of_nat 2)%Z with 100%Z in *. rewrite Z.mul_0_l, Z.add_0_l. done.
Qed.

Lemma trim_pad (root : list ascii) :
  length root = 6 →
  last (trim root) ≠ Some " "%char ∧ length (trim root) ≤ 6 ∧
  trim root ++ replicate (6 - length (trim root)) " "%char = root.
Proof.
  intros Hl. assert (∀ l, ∃ n, l = replicate n " "%char ++ trim_rev l ∧ head (trim_rev l) ≠ Some " "%char) as H.
  { induction l as [|c l [n [IH Hh]]]; [by exists 0|]. cbn [trim_rev]. case_decide as Hc.
    - exists (S n). rewrite Hc. simpl. by rewrite <- IH.
    - exists 0. split; [done|]. simpl. congruence. }
  destruct (H (reverse root)) as (n & E & Hh). apply (f_equal reverse) in E.
  rewrite reverse_involutive, reverse_app, reverse_replicate in E. fold (trim root) in E.
  assert (length root = length (trim root) + n) as Hn by (rewrite E at 1; by rewrite length_app, length_replicate).
  split_and!.
  - unfold trim. by rewrite <- head_reverse, reverse_involutive.
  - lia.
  - replace (6 - length (trim root)) with n by lia. done.
Qed.

Lemma occ_print_parse c :
  occ_expressible c →
  ∃ sym, occ_symbol c = Some sym ∧ length (chars sym) = 21 ∧
    from_occ sym = inl (mkContract (underlying c) (strike c) (expiry c) (option_type c)
                          American 100 Physical).
Proof.
  intros Hc. eexists. split; [by apply occ_symbol_spec|].
  destruct Hc as (Hu & Hs & Hy & Hm & Hd & Hk).
  assert (length (chars (underlying c) ++ replicate (6 - length (chars (underlying c))) " "%char) = 6) as Hl
    by (rewrite length_app, length_replicate; lia).
  split. { rewrite chars_of_chars, !length_app, !fixed_length in *. simpl. lia. }
  rewrite from_occ_fields by (done || apply fixed_length).
  rewrite !parse_fixed by (simpl; lia). rewrite !Z.mul_0_l, !Z.add_0_l.
  assert ((if decide ((if decide (option_type c = Call) then "C"%char else "P"%char) = "C"%char) then inl Call
           else if decide ((if decide (option_type c = Call) then "C"%char else "P"%char) = "P"%char)
                then inl Put else inr BadType) = inl (option_type c) :> (OptionType + occ_error)) as ->
    by (by destruct (option_type c)).
  rewrite trim_spaces by done. rewrite of_chars_chars, Z.div_mul by lia.
  rewrite !wrap_small by (unfold in_u; lia). do 3 f_equal. destruct (expiry c). simpl. f_equal. lia.
Qed.

Lemma occ_parse_print s c :
  length (chars s) = 21 → from_occ s = inl c →
  occ_symbol c = Some (of_chars (take 20 (chars s) ++ ["0"%char])).
Proof.
  intros Hl. destruct (list_ascii_length_21 (chars s) Hl) as (root & yy & mm & dd & cp & st & E & Hr & Hy & Hm & Hd & Hs).
  rewrite <- (of_chars_chars s), chars_of_chars, E, from_occ_fields by done.
  destruct (parse_int 0 yy) as [y|] eqn:Ey; [|done]. destruct (parse_int 0 mm) as [m|] eqn:Em; [|done].
  destruct (parse_int 0 dd) as [d|] eqn:Ed; [|done].
  destruct (parse_two _ _ Hy Ey) as [By Fy]. destruct (parse_two _ _ Hm Em) as [Bm Fm].
  destruct (parse_two _ _ Hd Ed) as [Bd Fd].
  assert (∀ ty, (if decide (cp = "C"%char) then inl Call
                 else if decide (cp = "P"%char) then inl Put else inr BadType) = inl ty :> (OptionType + occ_error) →
          (if decide (ty = Call) then "C"%char else "P"%char) = cp) as Hcp.
  { intros ty. repeat case_decide; intros [= <-]; congruence. }
  destruct (if decide (cp = "C"%char) then _ else _) as [ty|]; [|done]. specialize (Hcp ty eq_refl).
  destruct (parse_int 0 st) as [t|] eqn:Et; [|done]. intros [= <-].
  destruct (parse_int_inv _ _ _ Et) as (t' & Bt & -> & Ft). rewrite Hs in *. rewrite Z.mul_0_l, Z.add_0_l.
  destruct (trim_pad root Hr) as (Hlast & Hlen & Hpad). rewrite !wrap_small by (unfold in_u; lia).
  rewrite occ_symbol_spec; cbn [underlying strike expiry option_type year month day]; last first.
  { unfold occ_expressible. cbn [underlying strike expiry option_type year month day]. rewrite chars_of_chars.
    change (10 ^ Z.of_nat 8)%Z with 100000000%Z in Bt.
    split_and!; try done; try lia; [apply Z.div_pos; lia|apply Z.div_lt_upper_bound; lia]. }
  rewrite chars_of_chars, Hpad, Hcp. replace (2000 + y - 2000)%Z with y by lia. rewrite Fy, Fm, Fd.
  change (fixed 8 ?n) with (fixed 7 (n / 10) ++ [digit (n `mod` 10)]) in Ft |- *.
  rewrite <- Ft, Z.div_mul, Z.mod_mul by lia. do 2 f_equal.
  assert (∀ x, root ++ yy ++ mm ++ dd ++ [cp] ++ fixed 7 (t' / 10) ++ [x] =
    (root ++ yy ++ mm ++ dd ++ [cp] ++ fixed 7 (t' / 10)) ++ [x]) as Ha by (intros; by rewrite <- !app_assoc).
  rewrite !Ha, take_app_le, take_ge by (rewrite !length_app, fixed_length; simpl; lia). done.
Qed.

(** C19: printing and parsing OCC symbols.  The symbol of every contract it can
    express (root of at most six characters not ending in a space, year 2000 to
    2099, month and day of two digits, strike of at most seven digits of cents)
    has 21 characters and parses
    back to that contract, with the default style, multiplier and settlement,
    which the symbol does not carry.  Conversely parsing loses nothing but the
    tenth of a cent: if a symbol of 21 characters is accepted, the contract it
    gives prints as the same symbol with the last digit of the strike set to 0,
    so two accepted symbols with the same contract differ in that digit only. *)
Theorem occ_roundtrip :
  (∀ c, occ_expressible c →
    ∃ sym, occ_symbol c = Some sym ∧ length (chars sym) = 21 ∧
      from_occ sym = inl (mkContract (underlying c) (strike c) (expiry c) (option_type c)
                            American 100 Physical)) ∧
  (∀ s c, length (chars s) = 21 → from_occ s = inl c →
    occ_symbol c = Some (of_chars (take 20 (chars s) ++ ["0"%char]))).
Proof. split; [apply occ_print_parse|apply occ_parse_print]. Qed.

Lemma occ_roundtrip_witness :
  let c := mkContract "AAPL"%string 15050 (mkDate 2026 1 17) Call American 100 Physical in
  let d := mkContract "SPY"%string 40012 (mkDate 2025 12 31) Put American 100 Physical in
  (∃ sym, occ_symbol c = Some sym ∧ length (chars sym) = 21 ∧ from_occ sym = inl c) ∧
  occ_symbol d = Some "SPY   251231P00400120"%string.
Proof.
  intros c d. split.
  - apply (proj1 occ_roundtrip c). unfold occ_expressible. simpl. split_and!; try lia; done.
  - apply (proj2 occ_roundtrip "SPY   251231P00400129"%string d); by vm_compute.
Defined.
