(* ===== verification/Chain.v ===== *)
(** * Option chains (include/ordbk/instruments/chain.hpp,
    src/instruments/chain.cpp)

    All contracts of one underlying: an ordered map of expiries, each an
    ordered map of strikes with a call and a put, and two hash maps from the
    instrument id back to its place. *)

From stdpp Require Import strings.
From S2P Require Import Prelude StdMap Types Contract.

Record StrikeSlot := mkSlot {
  call : option InstrumentId;
  put : option InstrumentId }.

Definition Slot_new : StrikeSlot := mkSlot None None.

Record Chain := mkChain {
  underlying_ : string;
  levels_ : list (ExpiryDate * list (Price * StrikeSlot));
  by_id_ : gmap Z (ExpiryDate * Price);
  id_to_type_ : gmap Z OptionType }.

Definition Chain_new (u : string) : Chain := mkChain u [] ∅ ∅.

Definition slot_get (t : OptionType) (s : StrikeSlot) : option InstrumentId :=
  match t with Call => call s | Put => put s end.
Definition slot_set (t : OptionType) (v : option InstrumentId) (s : StrikeSlot) : StrikeSlot :=
  match t with Call => mkSlot v (put s) | Put => mkSlot (call s) v end.

(** [levels_[e][k] = s]; reading through [operator[]] yields the default. *)
Definition set_slot (e : ExpiryDate) (k : Price) (s : StrikeSlot)
    (ls : list (ExpiryDate * list (Price * StrikeSlot))) : list (ExpiryDate * list (Price * StrikeSlot)) :=
  map_set date_ltb e (map_set Z.ltb k s (default [] (map_find date_ltb e ls))) ls.
Definition slot_at (e : ExpiryDate) (k : Price)
    (ls : list (ExpiryDate * list (Price * StrikeSlot))) : StrikeSlot :=
  default Slot_new (map_find Z.ltb k (default [] (map_find date_ltb e ls))).

Definition add (id : InstrumentId) (c : Contract) (ch : Chain) : bool * Chain :=
  if decide (is_Some (by_id_ ch !! id)) then (false, ch)
  else
    let s := slot_at (expiry c) (strike c) (levels_ ch) in
    let ls := set_slot (expiry c) (strike c) s (levels_ ch) in
    if decide (is_Some (slot_get (option_type c) s)) then
      (false, mkChain (underlying_ ch) ls (by_id_ ch) (id_to_type_ ch))
    else
      (true, mkChain (underlying_ ch)
               (set_slot (expiry c) (strike c) (slot_set (option_type c) (Some id) s) ls)
               (umap_emplace id (expiry c, strike c) (by_id_ ch))
               (umap_emplace id (option_type c) (id_to_type_ ch))).

(** [None] is the [std::out_of_range] of an [at] that finds nothing. *)
Definition remove (id : InstrumentId) (ch : Chain) : res (bool * Chain) :=
  match by_id_ ch !! id with
  | None => Some (false, ch)
  | Some (e, k) =>
      let* ty := id_to_type_ ch !! id in
      let* strike_map := map_find date_ltb e (levels_ ch) in
      let* slot := map_find Z.ltb k strike_map in
      let slot' := slot_set ty None slot in
      let sm1 := map_set Z.ltb k slot' strike_map in
      let sm2 := if bool_decide (call slot' = None) && bool_decide (put slot' = None)
                 then map_erase Z.ltb k sm1 else sm1 in
      let ls := if decide (sm2 = []) then map_erase date_ltb e (levels_ ch)
                else map_set date_ltb e sm2 (levels_ ch) in
      Some (true, mkChain (underlying_ ch) ls (delete id (by_id_ ch)) (delete id (id_to_type_ ch)))
  end.

Definition find (e : ExpiryDate) (k : Price) (ty : OptionType) (ch : Chain) : option InstrumentId :=
  match map_find date_ltb e (levels_ ch) with
  | None => None
  | Some sm =>
      match map_find Z.ltb k sm with
      | None => None
      | Some slot => if decide (ty = Call) then call slot else put slot
      end
  end.

(** [push_back] of the value of an optional that has one. *)
Definition push_opt (o : option InstrumentId) : list InstrumentId :=
  match o with Some id => [id] | None => [] end.

(** The ids of a strike map, in iteration order: calls before puts. *)
Definition strike_ids (sm : list (Price * StrikeSlot)) : list InstrumentId :=
  concat ((λ e, push_opt (call e.2) ++ push_opt (put e.2)) <$> sm).

Definition at_expiry (e : ExpiryDate) (ch : Chain) : list InstrumentId :=
  match map_find date_ltb e (levels_ ch) with None => [] | Some sm => strike_ids sm end.
Definition calls_at (e : ExpiryDate) (ch : Chain) : list InstrumentId :=
  match map_find date_ltb e (levels_ ch) with
  | None => []
  | Some sm => concat ((λ e, push_opt (call e.2)) <$> sm)
  end.
Definition puts_at (e : ExpiryDate) (ch : Chain) : list InstrumentId :=
  match map_find date_ltb e (levels_ ch) with
  | None => []
  | Some sm => concat ((λ e, push_opt (put e.2)) <$> sm)
  end.
Definition expiries (ch : Chain) : list ExpiryDate := (levels_ ch).*1.

(** The loop breaks at the first expiry after [date]. *)
Fixpoint expiring_loop (date : ExpiryDate) (ls : list (ExpiryDate * list (Price * StrikeSlot)))
    : list InstrumentId :=
  match ls with
  | [] => []
  | (e, sm) :: ls' => if date_ltb date e then [] else strike_ids sm ++ expiring_loop date ls'
  end.
Definition expiring_on_or_before (date : ExpiryDate) (ch : Chain) : list InstrumentId :=
  expiring_loop date (levels_ ch).

Definition chain_size (ch : Chain) : nat := size (by_id_ ch).

(** ** Invariant *)

Definition slot_used (s : StrikeSlot) : Prop := is_Some (call s) ∨ is_Some (put s).

Record chain_ok (ch : Chain) : Prop := mkChainOk {
  ch_sorted : map_sorted date_ltb (levels_ ch);
  ch_levels : ∀ e sm, (e, sm) ∈ levels_ ch →
    map_sorted Z.ltb sm ∧ sm ≠ [] ∧ ∀ k s, (k, s) ∈ sm → slot_used s;
  ch_index : ∀ id e k t,
    find e k t ch = Some id ↔ by_id_ ch !! id = Some (e, k) ∧ id_to_type_ ch !! id = Some t;
  ch_types : ∀ id, is_Some (by_id_ ch !! id) ↔ is_Some (id_to_type_ ch !! id) }.

(** ** Slots *)

Definition levels_sorted (ls : list (ExpiryDate * list (Price * StrikeSlot))) : Prop :=
  map_sorted date_ltb ls ∧ ∀ e sm, (e, sm) ∈ ls → map_sorted Z.ltb sm.

Lemma find_slot e k t ch : find e k t ch = slot_get t (slot_at e k (levels_ ch)).
Proof.
  unfold find, slot_at. destruct (map_find date_ltb e (levels_ ch)) as [sm|]; simpl; [|by destruct t].
  destruct (map_find Z.ltb k sm) as [s|]; simpl; by destruct t.
Qed.

Lemma default_sorted ls e :
  levels_sorted ls → map_sorted Z.ltb (default [] (map_find date_ltb e ls)).
Proof.
  intros [Hs Hi]. destruct (map_find date_ltb e ls) as [sm|] eqn:E; simpl; [|constructor].
  apply (Hi e), (map_find_elem date_ltb); done.
Qed.

Lemma set_slot_sorted e k s ls : levels_sorted ls → levels_sorted (set_slot e k s ls).
Proof.
  intros H. pose proof (default_sorted ls e H) as Hd. destruct H as [Hs Hi].
  split; [by apply (map_set_sorted date_ltb)|].
  intros e' sm. unfold set_slot. rewrite (elem_of_map_set date_ltb) by done.
  intros [[-> ->]|[_ ?]]; [by apply (map_set_sorted Z.ltb)|eauto].
Qed.

Lemma slot_at_set e k s e' k' ls :
  levels_sorted ls →
  slot_at e' k' (set_slot e k s ls) =
  if decide (e = e' ∧ k = k') then s else slot_at e' k' ls.
Proof.
  intros H. pose proof (default_sorted ls e H) as Hd. unfold slot_at, set_slot.
  rewrite (map_find_set_dec date_ltb) by apply H.
  destruct (decide (e = e')) as [->|He]; simpl.
  - rewrite (map_find_set_dec Z.ltb) by done. repeat case_decide; naive_solver.
  - rewrite decide_False; [done|]. tauto.
Qed.

Lemma slot_get_set t v t' s :
  slot_get t' (slot_set t v s) = if decide (t = t') then v else slot_get t' s.
Proof. by destruct t, t'. Qed.

Lemma set_slot_used e k s ls :
  levels_sorted ls → slot_used s →
  (∀ e' sm, (e', sm) ∈ ls → sm ≠ [] ∧ ∀ k' s', (k', s') ∈ sm → slot_used s') →
  ∀ e' sm, (e', sm) ∈ set_slot e k s ls → sm ≠ [] ∧ ∀ k' s', (k', s') ∈ sm → slot_used s'.
Proof.
  intros H Hu Hls e' sm. pose proof (default_sorted ls e H) as Hd. destruct H as [Hs Hi].
  unfold set_slot. rewrite (elem_of_map_set date_ltb) by done.
  intros [[-> ->]|[_ ?]]; [|eauto]. split.
  - intros E. assert ((k, s) ∈ map_set Z.ltb k s (default [] (map_find date_ltb e ls))) as Hin.
    { rewrite (elem_of_map_set Z.ltb) by done. auto. }
    rewrite E in Hin. by apply not_elem_of_nil in Hin.
  - intros k' s'. rewrite (elem_of_map_set Z.ltb) by done. intros [[-> ->]|[_ Hin]]; [done|].
    destruct (map_find date_ltb e ls) as [sm0|] eqn:E; simpl in Hin; [|by apply not_elem_of_nil in Hin].
    apply (map_find_elem date_ltb) in E; [|done]. by apply (Hls _ _ E) in Hin.
Qed.

Lemma chain_ok_sorted ch : chain_ok ch → levels_sorted (levels_ ch).
Proof. intros H. split; [apply H|]. intros e sm Hin. by destruct (ch_levels _ H e sm Hin). Qed.

(** Writing back a used slot changes nothing. *)
Lemma set_slot_id e k ls :
  slot_used (slot_at e k ls) → set_slot e k (slot_at e k ls) ls = ls.
Proof.
  intros Hu. unfold set_slot, slot_at in *.
  destruct (map_find date_ltb e ls) as [sm|] eqn:E; simpl in *; [|by destruct Hu as [[]|[]]].
  destruct (map_find Z.ltb k sm) as [s|] eqn:E2; simpl in *; [|by destruct Hu as [[]|[]]].
  rewrite (map_set_id Z.ltb _ _ _ E2). by apply (map_set_id date_ltb).
Qed.

Lemma slot_used_get t s : is_Some (slot_get t s) → slot_used s.
Proof. destruct t; [by left|by right]. Qed.

(** Two writes of the same slot. *)
Lemma set_slot_set e k s s' ls :
  levels_sorted ls → set_slot e k s' (set_slot e k s ls) = set_slot e k s' ls.
Proof.
  intros H. unfold set_slot. rewrite (map_find_set_dec date_ltb), decide_True by (done || apply H).
  simpl. by rewrite (map_set_set Z.ltb), (map_set_set date_ltb).
Qed.

(** ** [add] *)

(** [add] in one step: it changes nothing or sets one slot. *)
Lemma add_spec id c ch :
  chain_ok ch →
  add id c ch =
  if decide (by_id_ ch !! id = None ∧ find (expiry c) (strike c) (option_type c) ch = None)
  then (true, mkChain (underlying_ ch)
          (set_slot (expiry c) (strike c)
             (slot_set (option_type c) (Some id) (slot_at (expiry c) (strike c) (levels_ ch))) (levels_ ch))
          (<[id := (expiry c, strike c)]> (by_id_ ch)) (<[id := option_type c]> (id_to_type_ ch)))
  else (false, ch).
Proof.
  intros H. unfold add. rewrite find_slot.
  destruct (by_id_ ch !! id) as [ek|] eqn:Eid.
  { rewrite decide_True by eauto. rewrite decide_False; [done|]. by intros [? _]. }
  rewrite (decide_False (P:=is_Some None)) by (by intros []).
  destruct (slot_get (option_type c) (slot_at (expiry c) (strike c) (levels_ ch))) as [v|] eqn:Es.
  - rewrite decide_True by eauto. rewrite decide_False by (by intros [_ ?]).
    rewrite set_slot_id by (eapply slot_used_get; by rewrite Es). by destruct ch.
  - rewrite decide_False by (by intros []). rewrite (decide_True (P:=None = None ∧ _)) by done.
    rewrite set_slot_set by by apply chain_ok_sorted. unfold umap_emplace. rewrite Eid.
    destruct (id_to_type_ ch !! id) eqn:Et; [|done].
    assert (is_Some (by_id_ ch !! id)) as [? ?] by (by apply (ch_types _ H)). congruence.
Qed.

Lemma add_ok id c ch : chain_ok ch → chain_ok (add id c ch).2.
Proof.
  intros H. rewrite add_spec by done. case_decide as Hc; [|done]. destruct Hc as [Hid Hf].
  pose proof (chain_ok_sorted _ H) as Hs. simpl.
  set (sl := slot_set (option_type c) (Some id) (slot_at (expiry c) (strike c) (levels_ ch))).
  assert (slot_used sl) as Hu.
  { apply (slot_used_get (option_type c)). unfold sl. rewrite slot_get_set, decide_True by done. eauto. }
  assert (id_to_type_ ch !! id = None) as Hty.
  { destruct (id_to_type_ ch !! id) eqn:Et; [|done].
    assert (is_Some (by_id_ ch !! id)) as [? ?] by (by apply (ch_types _ H)). congruence. }
  constructor; simpl.
  - by apply set_slot_sorted.
  - intros e sm Hin. split; [by eapply set_slot_sorted|].
    eapply (set_slot_used _ _ sl (levels_ ch)); [done|done| |exact Hin].
    intros e' sm' Hin'. by destruct (ch_levels _ H _ _ Hin') as (_ & ? & ?).
  - intros id' e k t. rewrite find_slot. simpl. rewrite slot_at_set by done.
    pose proof (ch_index _ H id' e k t) as Hix. rewrite find_slot in Hix, Hf.
    destruct (decide (id = id')) as [<-|Hne].
    + rewrite !lookup_insert_eq. case_decide as Hek.
      * destruct Hek as [<- <-]. unfold sl. rewrite slot_get_set. case_decide as Ht; [naive_solver|].
        rewrite Hix. rewrite Hid. naive_solver.
      * rewrite Hix, Hid. naive_solver.
    + rewrite !lookup_insert_ne by done. case_decide as Hek; [|done].
      destruct Hek as [<- <-]. unfold sl. rewrite slot_get_set. case_decide as Ht; [|done].
      subst t. rewrite <- Hix, Hf. naive_solver.
  - intros id'. destruct (decide (id = id')) as [<-|Hne].
    + rewrite !lookup_insert_eq. naive_solver.
    + rewrite !lookup_insert_ne by done. apply H.
Qed.

(** ** [remove] *)

(** The levels of a chain that keeps no empty slot and no empty strike map. *)
Definition levels_tight (ls : list (ExpiryDate * list (Price * StrikeSlot))) : Prop :=
  ∀ e sm, (e, sm) ∈ ls → sm ≠ [] ∧ ∀ k s, (k, s) ∈ sm → slot_used s.

(** The strike map after its slot [k] has become [s]. *)
Lemma strike_map_update (k : Price) s sm :
  map_sorted Z.ltb sm → (∀ k' s', (k', s') ∈ sm → slot_used s') →
  let sm2 := if bool_decide (call s = None) && bool_decide (put s = None)
             then map_erase Z.ltb k (map_set Z.ltb k s sm) else map_set Z.ltb k s sm in
  map_sorted Z.ltb sm2 ∧ (∀ k' s', (k', s') ∈ sm2 → slot_used s') ∧
  ∀ k', default Slot_new (map_find Z.ltb k' sm2) =
        if decide (k = k') then s else default Slot_new (map_find Z.ltb k' sm).
Proof.
  intros Hs Hu. pose proof (map_set_sorted Z.ltb k s sm Hs) as Hs1.
  destruct (bool_decide (call s = None) && bool_decide (put s = None)) eqn:E; simpl.
  - rewrite andb_true_iff, !bool_decide_eq_true in E. destruct E as [Ec Ep].
    assert (s = Slot_new) as Hse by (destruct s; simpl in *; by subst).
    rewrite (map_erase_set Z.ltb) by done. split_and!.
    + by apply (map_erase_sorted Z.ltb).
    + intros k' s'. rewrite (elem_of_map_erase Z.ltb) by done. intros [_ ?]. eauto.
    + intros k'. rewrite (map_find_erase_dec Z.ltb) by done. by case_decide.
  - assert (slot_used s) as Hus.
    { destruct (call s) eqn:Ec; [left; by rewrite Ec|]. destruct (put s) eqn:Ep; [right; by rewrite Ep|].
      done. }
    split_and!; [done| |].
    + intros k' s'. rewrite (elem_of_map_set Z.ltb) by done. intros [[_ ->]|[_ ?]]; eauto.
    + intros k'. rewrite (map_find_set_dec Z.ltb) by done. by case_decide.
Qed.

Lemma remove_spec id e k ch :
  chain_ok ch → by_id_ ch !! id = Some (e, k) →
  ∃ t ls, id_to_type_ ch !! id = Some t ∧
    remove id ch = Some (true, mkChain (underlying_ ch) ls (delete id (by_id_ ch)) (delete id (id_to_type_ ch))) ∧
    levels_sorted ls ∧ levels_tight ls ∧
    ∀ e' k', slot_at e' k' ls =
      if decide (e = e' ∧ k = k') then slot_set t None (slot_at e k (levels_ ch))
      else slot_at e' k' (levels_ ch).
Proof.
  intros H Hid. destruct (proj1 (ch_types _ H id) ltac:(eauto)) as [t Ht]. exists t.
  assert (find e k t ch = Some id) as Hf by (by apply (ch_index _ H)).
  assert (levels_tight (levels_ ch)) as Htight.
  { intros e' sm' Hin'. by destruct (ch_levels _ H _ _ Hin') as (_ & ? & ?). }
  unfold find in Hf. unfold remove. rewrite Hid, Ht.
  destruct (map_find date_ltb e (levels_ ch)) as [sm|] eqn:Esm; [|done].
  destruct (map_find Z.ltb k sm) as [s|] eqn:Es; [|done]. clear Hf.
  pose proof (proj1 (map_find_elem date_ltb _ _ _ (ch_sorted _ H)) Esm) as Hin.
  destruct (ch_levels _ H _ _ Hin) as (Hsort & Hne & Hused).
  destruct (strike_map_update k (slot_set t None s) sm Hsort Hused) as (Hs2 & Hu2 & Hf2).
  set (sm2 := if _ && _ then _ else _) in *.
  assert (slot_at e k (levels_ ch) = s) as Hslot by (unfold slot_at; rewrite Esm; simpl; by rewrite Es).
  eexists. split_and!; [done|done|..]; rewrite ?Hslot.
  - destruct (chain_ok_sorted _ H) as [H1 H2]. case_decide; split.
    + by apply (map_erase_sorted date_ltb).
    + intros e' sm'. rewrite (elem_of_map_erase date_ltb) by done. intros [_ ?]. eauto.
    + by apply (map_set_sorted date_ltb).
    + intros e' sm'. rewrite (elem_of_map_set date_ltb) by done. intros [[_ ->]|[_ ?]]; eauto.
  - intros e' sm'. case_decide as Hemp.
    + rewrite (elem_of_map_erase date_ltb) by apply H. intros [_ ?]. by apply (Htight e').
    + rewrite (elem_of_map_set date_ltb) by apply H. intros [[_ ->]|[_ ?]]; [done|by apply (Htight e')].
  - intros e' k'. unfold slot_at. specialize (Hf2 k'). destruct (decide (sm2 = [])) as [Hemp|Hemp].
    + rewrite (map_find_erase_dec date_ltb) by apply H. rewrite Hemp in Hf2. simpl in Hf2.
      destruct (decide (e = e')) as [<-|Hee]; simpl.
      * etrans; [exact Hf2|]. rewrite Esm. simpl. by repeat case_decide; naive_solver.
      * rewrite decide_False by tauto. done.
    + rewrite (map_find_set_dec date_ltb) by apply H.
      destruct (decide (e = e')) as [<-|Hee]; simpl.
      * etrans; [exact Hf2|]. rewrite Esm. simpl. by repeat case_decide; naive_solver.
      * rewrite decide_False by tauto. done.
Qed.

Lemma remove_find id e k t ls ch :
  chain_ok ch → by_id_ ch !! id = Some (e, k) → id_to_type_ ch !! id = Some t →
  (∀ e' k', slot_at e' k' ls =
      if decide (e = e' ∧ k = k') then slot_set t None (slot_at e k (levels_ ch))
      else slot_at e' k' (levels_ ch)) →
  ∀ e' k' t', slot_get t' (slot_at e' k' ls) =
    if decide (find e' k' t' ch = Some id) then None else find e' k' t' ch.
Proof.
  intros H Hid Ht Hls e' k' t'. rewrite Hls, find_slot.
  pose proof (ch_index _ H id e' k' t') as Hix. rewrite find_slot, Hid, Ht in Hix.
  destruct (decide (slot_get t' _ = Some id)) as [E|E].
  - apply Hix in E as [[= -> ->] [= ->]]. rewrite decide_True by done.
    by rewrite slot_get_set, decide_True.
  - case_decide as Hek; [|done]. destruct Hek as [<- <-]. rewrite slot_get_set.
    case_decide as Htt; [|done]. subst. naive_solver.
Qed.

Lemma remove_ok id ch : chain_ok ch → ∃ ok ch', remove id ch = Some (ok, ch') ∧ chain_ok ch' ∧
  (ok = true ↔ is_Some (by_id_ ch !! id)) ∧
  (∀ e k t, find e k t ch' = if decide (find e k t ch = Some id) then None else find e k t ch) ∧
  by_id_ ch' = delete id (by_id_ ch).
Proof.
  intros H. destruct (by_id_ ch !! id) as [[e k]|] eqn:Hid; last first.
  { exists false, ch. unfold remove. rewrite Hid. split_and!; [done|done| | |by rewrite delete_id].
    - split; [done|by intros []].
    - intros e k t. case_decide as Hf; [|done]. apply (ch_index _ H) in Hf as [? _]. congruence. }
  destruct (remove_spec id e k ch H Hid) as (t & ls & Ht & E & Hs & Htight & Hsl).
  pose proof (remove_find id e k t ls ch H Hid Ht Hsl) as Hf.
  eexists true, _. split_and!; [exact E| |split; [eauto|done]| |done].
  - constructor; simpl.
    + apply Hs.
    + intros e' sm' Hin. split; [by eapply Hs|by eapply Htight].
    + intros id' e' k' t'. rewrite find_slot. simpl. rewrite Hf.
      pose proof (ch_index _ H id' e' k' t') as Hix.
      destruct (decide (id = id')) as [<-|Hne].
      * rewrite !lookup_delete_eq. case_decide; naive_solver.
      * rewrite !lookup_delete_ne by done. case_decide; naive_solver.
    + intros id'. destruct (decide (id = id')) as [<-|Hne].
      * rewrite !lookup_delete_eq. split; by intros [].
      * rewrite !lookup_delete_ne by done. apply H.
  - intros e' k' t'. rewrite find_slot. apply Hf.
Qed.

Lemma Chain_new_ok u : chain_ok (Chain_new u).
Proof.
  constructor; simpl.
  - constructor.
  - intros e sm []%not_elem_of_nil.
  - intros id e k t. rewrite find_slot. unfold Chain_new, slot_at. simpl.
    rewrite lookup_empty. destruct t; naive_solver.
  - intros id. by rewrite !lookup_empty.
Qed.

(** ** The chain as a table of contracts

    The specification: a finite map from instrument id to (expiry, strike,
    type), in which no two ids have the same key. *)

Abbreviation Key := (ExpiryDate * Price * OptionType)%type.

Inductive chain_op := op_add (id : InstrumentId) (c : Contract) | op_remove (id : InstrumentId).

Definition key_of (c : Contract) : Key := (expiry c, strike c, option_type c).

Definition table_exec (op : chain_op) (m : gmap Z Key) : bool * gmap Z Key :=
  match op with
  | op_add id c =>
      if decide (m !! id = None ∧ map_Forall (λ _ k, k ≠ key_of c) m)
      then (true, <[id := key_of c]> m) else (false, m)
  | op_remove id => (bool_decide (is_Some (m !! id)), delete id m)
  end.

Definition chain_exec (op : chain_op) (ch : Chain) : res (bool * Chain) :=
  match op with
  | op_add id c => Some (add id c ch)
  | op_remove id => remove id ch
  end.

Fixpoint chain_execs (ops : list chain_op) (ch : Chain) : res (list bool * Chain) :=
  match ops with
  | [] => Some ([], ch)
  | op :: ops' =>
      let* (ok, ch1) := chain_exec op ch in
      let* (oks, ch2) := chain_execs ops' ch1 in
      Some (ok :: oks, ch2)
  end.
Fixpoint table_execs (ops : list chain_op) (m : gmap Z Key) : list bool * gmap Z Key :=
  match ops with
  | [] => ([], m)
  | op :: ops' =>
      let (ok, m1) := table_exec op m in
      let (oks, m2) := table_execs ops' m1 in (ok :: oks, m2)
  end.

Definition represents (ch : Chain) (m : gmap Z Key) : Prop :=
  ∀ id e k t, m !! id = Some (e, k, t) ↔ find e k t ch = Some id.

Lemma represents_by_id ch m id : chain_ok ch → represents ch m → is_Some (m !! id) ↔ is_Some (by_id_ ch !! id).
Proof.
  intros H Hr. split.
  - intros [[[e k] t] Hm]. apply Hr, (ch_index _ H) in Hm as [-> _]. eauto.
  - intros [[e k] He]. destruct (proj1 (ch_types _ H id) ltac:(eauto)) as [t Ht].
    exists (e, k, t). apply Hr, (ch_index _ H). done.
Qed.

Lemma chain_exec_spec op ch m :
  chain_ok ch → represents ch m →
  ∃ ch', chain_exec op ch = Some ((table_exec op m).1, ch') ∧ chain_ok ch' ∧
    represents ch' (table_exec op m).2.
Proof.
  intros H Hr. destruct op as [id c|id]; simpl.
  - pose proof (add_ok id c ch H) as Hok. rewrite (add_spec id c ch H) in Hok |- *.
    assert ((by_id_ ch !! id = None ∧ find (expiry c) (strike c) (option_type c) ch = None) ↔
            (m !! id = None ∧ map_Forall (λ _ k, k ≠ key_of c) m)) as Hiff.
    { pose proof (represents_by_id ch m id H Hr) as Hb. rewrite !eq_None_not_Some, Hb.
      split; intros [? Hf]; (split; [done|]).
      - intros id' [[e k] t] Hm [= -> -> ->]. apply Hr in Hm. eauto.
      - intros [id' Hf']. apply Hr in Hf'. by apply (Hf id' _ Hf'). }
    destruct (decide (by_id_ ch !! id = None ∧ _)) as [Hc|Hc]; destruct (decide (m !! id = None ∧ _)) as [Hm|Hm];
      try tauto; [|by exists ch].
    eexists. split_and!; [done|done|]. intros id' e k t. simpl.
    rewrite (ch_index _ Hok). simpl. destruct (decide (id = id')) as [<-|Hne].
    + rewrite !lookup_insert_eq. unfold key_of. naive_solver.
    + rewrite !lookup_insert_ne by done. by rewrite (Hr id'), (ch_index _ H).
  - destruct (remove_ok id ch H) as (ok & ch' & E & Hok & Hb & Hf & Hd). exists ch'.
    assert (ok = bool_decide (is_Some (m !! id))) as ->.
    { apply eq_bool_prop_intro. rewrite Is_true_true, Hb, bool_decide_spec.
      symmetry. by apply represents_by_id. }
    split_and!; [done|done|]. intros id' e k t. rewrite Hf.
    destruct (decide (id = id')) as [<-|Hne].
    + rewrite lookup_delete_eq. case_decide; naive_solver.
    + rewrite lookup_delete_ne, (Hr id') by done. case_decide; naive_solver.
Qed.

Lemma chain_execs_spec ops ch m :
  chain_ok ch → represents ch m →
  ∃ ch', chain_execs ops ch = Some ((table_execs ops m).1, ch') ∧ chain_ok ch' ∧
    represents ch' (table_execs ops m).2.
Proof.
  revert ch m. induction ops as [|op ops IH]; intros ch m H Hr; [by exists ch|]. simpl.
  destruct (chain_exec_spec op ch m H Hr) as (ch1 & -> & H1 & Hr1).
  destruct (table_exec op m) as [ok m1]. simpl in *.
  destruct (IH ch1 m1 H1 Hr1) as (ch2 & -> & H2 & Hr2).
  destruct (table_execs ops m1) as [oks m2]. by exists ch2.
Qed.

(** ** Queries *)

Lemma elem_of_strike_ids id sm :
  id ∈ strike_ids sm ↔ ∃ k s t, (k, s) ∈ sm ∧ slot_get t s = Some id.
Proof.
  unfold strike_ids. rewrite list_elem_of_In, in_concat. split.
  - intros (l & Hl & Hid). apply list_elem_of_In, list_elem_of_fmap in Hl as ([k s] & -> & Hin).
    apply list_elem_of_In, elem_of_app in Hid. simpl in Hid. exists k, s.
    destruct Hid as [Hid|Hid]; [exists Call|exists Put]; (split; [done|]); simpl.
    + destruct (call s); simpl in Hid; [|by apply not_elem_of_nil in Hid]. by apply list_elem_of_singleton in Hid as ->.
    + destruct (put s); simpl in Hid; [|by apply not_elem_of_nil in Hid]. by apply list_elem_of_singleton in Hid as ->.
  - intros (k & s & t & Hin & Hg). eexists. split.
    + apply list_elem_of_In, list_elem_of_fmap. by exists (k, s).
    + apply list_elem_of_In, elem_of_app. simpl. destruct t; simpl in Hg; rewrite Hg; [left|right]; left.
Qed.

Lemma strike_ids_find ch e sm id :
  chain_ok ch → (e, sm) ∈ levels_ ch → id ∈ strike_ids sm ↔ ∃ k t, find e k t ch = Some id.
Proof.
  intros H Hin. destruct (ch_levels _ H _ _ Hin) as (Hs & _ & _).
  apply (map_find_elem date_ltb) in Hin; [|apply H].
  rewrite elem_of_strike_ids. split.
  - intros (k & s & t & Hks & Hg). exists k, t. rewrite find_slot. unfold slot_at. rewrite Hin. simpl.
    apply (map_find_elem Z.ltb) in Hks; [|done]. by rewrite Hks.
  - intros (k & t & Hf). rewrite find_slot in Hf. unfold slot_at in Hf. rewrite Hin in Hf. simpl in Hf.
    destruct (map_find Z.ltb k sm) as [s|] eqn:E; [|by destruct t].
    apply (map_find_elem Z.ltb) in E; [|done]. by exists k, s, t.
Qed.

Lemma find_level e k t id ch : find e k t ch = Some id → is_Some (map_find date_ltb e (levels_ ch)).
Proof. unfold find. destruct (map_find date_ltb e (levels_ ch)); [eauto|done]. Qed.

Lemma elem_of_expiring_loop date id ls :
  map_sorted date_ltb ls →
  id ∈ expiring_loop date ls ↔ ∃ e sm, (e, sm) ∈ ls ∧ date_ltb date e = false ∧ id ∈ strike_ids sm.
Proof.
  induction ls as [|[e sm] ls IH]; simpl.
  { intros _. split; [by intros ?%not_elem_of_nil|]. by intros (? & ? & ?%not_elem_of_nil & _). }
  intros [Hlt Hs]%map_sorted_cons. destruct (date_ltb date e) eqn:E.
  - split; [by intros ?%not_elem_of_nil|]. intros (e' & sm' & Hin & Hd & _).
    apply elem_of_cons in Hin as [[= -> ->]|Hin]; [congruence|].
    assert (date_ltb e e' = true) as He by (apply Hlt; by apply (list_elem_of_fmap_2 fst _ (e', sm'))).
    pose proof (ltb_trans _ _ _ E He). congruence.
  - rewrite elem_of_app, (IH Hs). split.
    + intros [Hid|(e' & sm' & Hin & ? & ?)]; [exists e, sm|exists e', sm'].
      * split_and!; [left|done|done].
      * split_and!; [by right|done|done].
    + intros (e' & sm' & [[= -> ->]|Hin]%elem_of_cons & Hd & Hid); [by left|right]. eauto.
Qed.

Lemma NoDup_concat {A B} (f : A → list B) (l : list A) :
  NoDup l → (∀ a, a ∈ l → NoDup (f a)) →
  (∀ a a' b, a ∈ l → a' ∈ l → b ∈ f a → b ∈ f a' → a = a') → NoDup (concat (f <$> l)).
Proof.
  induction l as [|a l IH]; intros Hl Hf Hd; simpl; [constructor|].
  apply NoDup_cons in Hl as [Ha Hl]. apply NoDup_app. split_and!.
  - apply Hf. left.
  - intros b Hb Hc. apply list_elem_of_In, in_concat in Hc as (l' & Hl' & Hb').
    apply list_elem_of_In, list_elem_of_fmap in Hl' as (a' & -> & Ha').
    apply Ha. rewrite (Hd a a' b); [done|left|by right|done|by apply list_elem_of_In].
  - apply IH; [done|intros; apply Hf; by right|]. intros a1 a2 b ??. apply Hd; by right.
Qed.

Lemma map_sorted_NoDup {K V} (ltb : K → K → bool) `{!StrictTotal ltb} (m : list (K * V)) :
  map_sorted ltb m → NoDup m.
Proof.
  induction m as [|[k v] m IH]; [constructor|]. intros [Hk Hs]%map_sorted_cons.
  apply NoDup_cons. split; [|auto]. intros Hin.
  specialize (Hk k (list_elem_of_fmap_2 fst _ (k, v) Hin)). by rewrite (ltb_irrefl k) in Hk.
Qed.

(** Two places of a chain never hold the same id. *)
Lemma find_inj ch e k t e' k' t' id :
  chain_ok ch → find e k t ch = Some id → find e' k' t' ch = Some id → e = e' ∧ k = k' ∧ t = t'.
Proof. intros H [E1 E2]%(ch_index _ H) [E3 E4]%(ch_index _ H). naive_solver congruence. Qed.

Lemma slot_find ch e sm k s t :
  chain_ok ch → (e, sm) ∈ levels_ ch → (k, s) ∈ sm → find e k t ch = slot_get t s.
Proof.
  intros H Hin Hks. destruct (ch_levels _ H _ _ Hin) as (Hs & _ & _).
  apply (map_find_elem date_ltb) in Hin; [|apply H]. apply (map_find_elem Z.ltb) in Hks; [|done].
  rewrite find_slot. unfold slot_at. rewrite Hin. simpl. by rewrite Hks.
Qed.

Lemma strike_ids_NoDup ch e sm : chain_ok ch → (e, sm) ∈ levels_ ch → NoDup (strike_ids sm).
Proof.
  intros H Hin. destruct (ch_levels _ H _ _ Hin) as (Hs & _ & _). unfold strike_ids.
  assert (∀ k s b, b ∈ push_opt (call s) ++ push_opt (put s) → (k, s) ∈ sm →
            ∃ t, find e k t ch = Some b) as Hb.
  { intros k s b [Hb|Hb]%elem_of_app Hks; [exists Call|exists Put];
      rewrite (slot_find ch e sm k s) by done; simpl;
      [destruct (call s)|destruct (put s)]; simpl in Hb;
      try (by apply not_elem_of_nil in Hb); by apply list_elem_of_singleton in Hb as ->. }
  apply NoDup_concat; [by apply (map_sorted_NoDup Z.ltb)| |].
  - intros [k s] Hks. simpl. destruct (call s) as [c|] eqn:Ec, (put s) as [p|] eqn:Ep; simpl;
      repeat constructor; try set_solver.
    intros ->%list_elem_of_singleton.
    destruct (find_inj ch e k Call e k Put p H) as (_ & _ & ?); [..|done];
      by rewrite (slot_find ch e sm k s).
  - intros [k s] [k' s'] b Hks Hks' Hb1 Hb2. simpl in *.
    destruct (Hb _ _ _ Hb1 Hks) as [t Ht]. destruct (Hb _ _ _ Hb2 Hks') as [t' Ht'].
    destruct (find_inj _ _ _ _ _ _ _ _ H Ht Ht') as (_ & <- & _).
    apply (map_find_elem Z.ltb) in Hks, Hks'; try done. congruence.
Qed.

Lemma expiring_prefix date ls :
  expiring_loop date ls `prefix_of` concat ((λ e, strike_ids e.2) <$> ls).
Proof.
  induction ls as [|[e sm] ls IH]; simpl; [done|]. destruct (date_ltb date e); [apply prefix_nil|].
  by apply prefix_app.
Qed.

Lemma NoDup_prefix {A} (l1 l2 : list A) : l1 `prefix_of` l2 → NoDup l2 → NoDup l1.
Proof. intros [l ->] Hnd. by apply NoDup_app in Hnd as (? & _ & _). Qed.

Lemma expiring_NoDup ch date : chain_ok ch → NoDup (expiring_on_or_before date ch).
Proof.
  intros H. eapply NoDup_prefix; [apply expiring_prefix|]. apply NoDup_concat.
  - apply (map_sorted_NoDup date_ltb), H.
  - intros [e sm] Hin. by eapply strike_ids_NoDup.
  - intros [e sm] [e' sm'] b Hin Hin' Hb Hb'. simpl in *.
    apply (strike_ids_find ch e sm) in Hb as (k & t & Hf); [|done..].
    apply (strike_ids_find ch e' sm') in Hb' as (k' & t' & Hf'); [|done..].
    destruct (find_inj _ _ _ _ _ _ _ _ H Hf Hf') as (<- & _ & _).
    apply (map_find_elem date_ltb) in Hin, Hin'; try apply H. congruence.
Qed.

(** ** Properties *)

(** C20: a chain is a table of contracts: after any sequence of additions and
    removals from an empty chain, no [at] fails, each call has answered what
    the table specification answers (an addition fails exactly if the id or
    the place is taken, a removal exactly if the id is unknown), [find] looks
    up the place in the table, and no empty slot or strike map is kept. *)
Theorem chain_refines_table u ops :
  ∃ ch, chain_execs ops (Chain_new u) = Some ((table_execs ops ∅).1, ch) ∧ chain_ok ch ∧
    ∀ id e k t, find e k t ch = Some id ↔ (table_execs ops ∅).2 !! id = Some (e, k, t).
Proof.
  destruct (chain_execs_spec ops (Chain_new u) ∅ (Chain_new_ok u)) as (ch & E & H & Hr).
  { intros id e k t. rewrite lookup_empty, find_slot. by destruct t. }
  exists ch. split_and!; [done|done|]. intros id e k t. symmetry. apply Hr.
Qed.

(** The end-of-day query is exact: [expiring_on_or_before] lists each
    contract of the chain with an expiry not after the date, and no other,
    once; [at_expiry] lists the contracts of its expiry. *)
Theorem chain_expiring_exact ch date :
  chain_ok ch →
  NoDup (expiring_on_or_before date ch) ∧
  (∀ id, id ∈ expiring_on_or_before date ch ↔
     ∃ e k t, find e k t ch = Some id ∧ date_ltb date e = false) ∧
  (∀ id, id ∈ at_expiry date ch ↔ ∃ k t, find date k t ch = Some id).
Proof.
  intros H. split_and!; [by apply expiring_NoDup| |].
  - intros id. unfold expiring_on_or_before. rewrite elem_of_expiring_loop by apply H. split.
    + intros (e & sm & Hin & Hd & Hid). apply (strike_ids_find ch e sm) in Hid as (k & t & Hf); [|done..].
      eauto.
    + intros (e & k & t & Hf & Hd). destruct (find_level _ _ _ _ _ Hf) as [sm Hsm].
      apply (map_find_elem date_ltb) in Hsm; [|apply H]. exists e, sm. split_and!; [done|done|].
      apply (strike_ids_find ch e sm); eauto.
  - intros id. unfold at_expiry. destruct (map_find date_ltb date (levels_ ch)) as [sm|] eqn:E.
    + apply (map_find_elem date_ltb) in E; [|apply H]. by apply strike_ids_find.
    + split; [by intros ?%not_elem_of_nil|]. intros (k & t & Hf).
      destruct (find_level _ _ _ _ _ Hf). congruence.
Qed.

Lemma chain_expiring_exact_witness :
  let d1 := mkDate 2026 1 16 in
  let d2 := mkDate 2026 2 20 in
  let c d k t := mkContract "AAPL"%string k d t American 100 Physical in
  let ch := (add 3 (c d2 150%Z Call) (add 2 (c d1 150%Z Put) (add 1 (c d1 150%Z Call)
               (Chain_new "AAPL"%string)).2).2).2 in
  expiring_on_or_before d1 ch = [1; 2]%Z ∧
  NoDup (expiring_on_or_before d1 ch) ∧
  (∀ id, id ∈ expiring_on_or_before d1 ch ↔
     ∃ e k t, find e k t ch = Some id ∧ date_ltb d1 e = false) ∧
  (∀ id, id ∈ at_expiry d1 ch ↔ ∃ k t, find d1 k t ch = Some id).
Proof.
  intros d1 d2 c ch. split; [by vm_compute|]. apply (chain_expiring_exact ch d1).
  apply add_ok, add_ok, add_ok, Chain_new_ok.
Defined.
