(* ===== verification/Registry.v ===== *)
(** * Instrument registry (include/ordbk/instruments/instrument_spec.hpp,
    instrument_registry.hpp, src/instruments/instrument_registry.cpp)

    The table of instruments, built once and then frozen.  The two thrown
    exceptions are the error values of [add]; every throw comes before the
    first change of state. *)

From stdpp Require Import strings.
From S2P Require Import Prelude StdMap Types Contract Chain.

Inductive InstrumentType := Equity | Future | Option.

#[export] Instance InstrumentType_eq_dec : EqDecision InstrumentType.
Proof. solve_decision. Defined.

Record InstrumentSpec := mkSpec {
  sid : InstrumentId;
  symbol : string;
  stype : InstrumentType;
  tick_size : Z;
  lot_size : Z;
  currency : string;
  soption : option Contract }.

Record InstrumentRegistry := mkRegistry {
  instruments_ : list InstrumentSpec;
  id_map_ : gmap Z nat;
  sym_map_ : gmap string nat;
  chains_ : gmap string Chain;
  frozen_ : bool }.

Definition Registry_new : InstrumentRegistry := mkRegistry [] ∅ ∅ ∅ false.

Inductive RegistryError := FrozenError | DuplicateError (what : string).

(** [spec.type == Option && spec.option.has_value()] *)
Definition option_contract (s : InstrumentSpec) : option Contract :=
  if decide (stype s = Option) then soption s else None.

(** The chain index of an option instrument; [Chain::add]'s answer is not
    looked at. *)
Definition index_chain (s : InstrumentSpec) (chains : gmap string Chain) : gmap string Chain :=
  match option_contract s with
  | None => chains
  | Some c =>
      let ch := default (Chain_new (underlying c)) (chains !! underlying c) in
      <[underlying c := (Chain.add (sid s) c ch).2]> chains
  end.

Definition add (s : InstrumentSpec) (r : InstrumentRegistry) : InstrumentRegistry + RegistryError :=
  if frozen_ r then inr FrozenError
  else if decide (is_Some (id_map_ r !! sid s)) then
    inr (DuplicateError "duplicate InstrumentId"%string)
  else if decide (is_Some (sym_map_ r !! symbol s)) then
    inr (DuplicateError (String.append "duplicate symbol: "%string (symbol s)))
  else
    let idx := length (instruments_ r) in
    inl (mkRegistry (instruments_ r ++ [s]) (umap_emplace (sid s) idx (id_map_ r))
           (umap_emplace (symbol s) idx (sym_map_ r)) (index_chain s (chains_ r)) (frozen_ r)).

Definition freeze (r : InstrumentRegistry) : InstrumentRegistry :=
  mkRegistry (instruments_ r) (id_map_ r) (sym_map_ r) (chains_ r) true.

(** [nullptr] is [Some None]; a bad subscript is [None]. *)
Definition find_id (id : InstrumentId) (r : InstrumentRegistry) : res (option InstrumentSpec) :=
  match id_map_ r !! id with
  | None => Some None
  | Some n => let* s := instruments_ r !! n in Some (Some s)
  end.
Definition find_symbol (sym : string) (r : InstrumentRegistry) : res (option InstrumentSpec) :=
  match sym_map_ r !! sym with
  | None => Some None
  | Some n => let* s := instruments_ r !! n in Some (Some s)
  end.

Definition option_chain (u : string) (r : InstrumentRegistry) : option Chain := chains_ r !! u.

(** In some order of the hash map. *)
Definition option_underlyings (r : InstrumentRegistry) : list string := (map_to_list (chains_ r)).*1.

(** ** Invariant *)

Definition has_key (u : string) (key : Key) (s : InstrumentSpec) : Prop :=
  match option_contract s with
  | Some c => underlying c = u ∧ key_of c = key
  | None => False
  end.

#[export] Instance has_key_dec u key s : Decision (has_key u key s).
Proof. unfold has_key. destruct (option_contract s); apply _. Defined.

(** The instrument registered first for a place of a chain. *)
Definition first_option (u : string) (key : Key) (l : list InstrumentSpec) : option InstrumentId :=
  sid <$> head (filter (has_key u key) l).

Definition is_option_on (u : string) (s : InstrumentSpec) : Prop :=
  ∃ c, option_contract s = Some c ∧ underlying c = u.

Record registry_ok (r : InstrumentRegistry) : Prop := {
  re_id : ∀ i n, id_map_ r !! i = Some n ↔ sid <$> instruments_ r !! n = Some i;
  re_sym : ∀ y n, sym_map_ r !! y = Some n ↔ symbol <$> instruments_ r !! n = Some y;
  re_chain : ∀ u ch, chains_ r !! u = Some ch → chain_ok ch ∧ underlying_ ch = u;
  re_find : ∀ u e k t, chains_ r !! u ≫= find e k t = first_option u (e, k, t) (instruments_ r);
  re_under : ∀ u, is_Some (chains_ r !! u) ↔ ∃ s, s ∈ instruments_ r ∧ is_option_on u s }.

Lemma Registry_new_ok : registry_ok Registry_new.
Proof.
  constructor; simpl; try done.
  intros u. rewrite lookup_empty. split; [by intros []|]. by intros (s & ?%not_elem_of_nil & _).
Qed.

Lemma first_option_elem u key l id :
  first_option u key l = Some id → ∃ s, s ∈ l ∧ sid s = id ∧ has_key u key s.
Proof.
  unfold first_option. intros (s & Hs & ->)%fmap_Some_1.
  apply head_Some_elem_of, list_elem_of_filter in Hs as [? ?]. eauto.
Qed.

Lemma first_option_snoc u key l s :
  first_option u key (l ++ [s]) =
  match first_option u key l with
  | Some id => Some id
  | None => if decide (has_key u key s) then Some (sid s) else None
  end.
Proof.
  unfold first_option. rewrite filter_app, filter_cons, filter_nil.
  destruct (filter (has_key u key) l); simpl; [|done]. by case_decide.
Qed.

Lemma has_key_some u key s c :
  option_contract s = Some c → has_key u key s ↔ underlying c = u ∧ key_of c = key.
Proof. intros E. unfold has_key. by rewrite E. Qed.

Lemma has_key_none u key s : option_contract s = None → ¬ has_key u key s.
Proof. intros E. unfold has_key. rewrite E. tauto. Qed.

(** The place of a contract after [index_chain]. *)
Lemma index_chain_find r s u e k t :
  registry_ok r → (∀ x, x ∈ instruments_ r → sid x ≠ sid s) →
  index_chain s (chains_ r) !! u ≫= find e k t =
  match chains_ r !! u ≫= find e k t with
  | Some id => Some id
  | None => if decide (has_key u (e, k, t) s) then Some (sid s) else None
  end.
Proof.
  intros H Hfresh. unfold index_chain. destruct (option_contract s) as [c|] eqn:Ec; last first.
  { destruct (chains_ r !! u ≫= find e k t); [done|]. by rewrite decide_False by by apply has_key_none. }
  pose proof (λ u key, has_key_some u key s c Ec) as Hk.
  set (ch := default (Chain_new (underlying c)) (chains_ r !! underlying c)).
  assert (chain_ok ch) as Hch.
  { unfold ch. destruct (chains_ r !! underlying c) eqn:E; simpl; [|apply Chain_new_ok].
    by apply (re_chain _ H) in E as [? _]. }
  assert (∀ e' k' t', find e' k' t' ch = chains_ r !! underlying c ≫= find e' k' t') as Hfind.
  { intros e' k' t'. unfold ch. destruct (chains_ r !! underlying c); simpl; [done|].
    rewrite find_slot. by destruct t'. }
  assert (by_id_ ch !! sid s = None) as Hid.
  { destruct (by_id_ ch !! sid s) as [[e' k']|] eqn:E; [|done].
    destruct (proj1 (ch_types _ Hch (sid s)) ltac:(eauto)) as [t' Ht'].
    assert (find e' k' t' ch = Some (sid s)) as Hf by (by apply (ch_index _ Hch)).
    rewrite Hfind, (re_find _ H) in Hf. apply first_option_elem in Hf as (x & Hx & Hxs & _).
    by destruct (Hfresh x). }
  destruct (decide (underlying c = u)) as [<-|Hu]; last first.
  { rewrite lookup_insert_ne by done. case_match; [done|]. rewrite decide_False; [done|]. rewrite Hk. tauto. }
  rewrite lookup_insert_eq. simpl. rewrite <- Hfind. pose proof (add_ok (sid s) c ch Hch) as Hok.
  rewrite add_spec in Hok |- * by done.
  destruct (decide (by_id_ ch !! sid s = None ∧ _)) as [[_ Hfree]|Hc]; simpl in *.
  - rewrite find_slot. simpl. rewrite slot_at_set by by apply chain_ok_sorted.
    rewrite find_slot in Hfree |- *.
    case_decide as Hek.
    + destruct Hek as [<- <-]. rewrite slot_get_set. case_decide as Ht.
      * subst t. by rewrite Hfree, decide_True by by rewrite Hk.
      * case_match; [done|]. rewrite decide_False; [done|]. rewrite Hk. intros [_ [= ?]]. done.
    + case_match; [done|]. rewrite decide_False; [done|]. rewrite Hk. intros [_ [= ? ? ?]]. naive_solver.
  - destruct (find e k t ch) eqn:Ef; [done|]. rewrite decide_False; [done|].
    rewrite Hk. intros [_ [= <- <- <-]]. tauto.
Qed.

Lemma umap_emplace_fresh `{Countable K} {V} (k : K) (v : V) m :
  ¬ is_Some (m !! k) → umap_emplace k v m = <[k := v]> m.
Proof. intros Hn%eq_None_not_Some. unfold umap_emplace. by rewrite Hn. Qed.

(** The index of a key into a list that grows at the end. *)
Lemma index_snoc {K A} `{Countable K} (f : A → K) (m : gmap K nat) (l : list A) x :
  (∀ i n, m !! i = Some n ↔ f <$> l !! n = Some i) → ¬ is_Some (m !! f x) →
  ∀ i n, <[f x := length l]> m !! i = Some n ↔ f <$> (l ++ [x]) !! n = Some i.
Proof.
  intros Hm Hx i n. rewrite lookup_app. destruct (decide (f x = i)) as [<-|Hne].
  - rewrite lookup_insert_eq. destruct (l !! n) as [y|] eqn:Ey; simpl.
    + split.
      * intros [= <-]. apply lookup_lt_Some in Ey. lia.
      * intros [= E]. exfalso. apply Hx. exists n. apply Hm. by rewrite Ey; simpl; rewrite E.
    + apply lookup_ge_None in Ey. rewrite fmap_Some. split.
      * intros [= <-]. exists x. by rewrite Nat.sub_diag.
      * intros (y & Hy & _). apply list_lookup_singleton_Some in Hy as [? _]. f_equal. lia.
  - rewrite lookup_insert_ne, Hm by done. destruct (l !! n) as [y|] eqn:Ey; simpl; [done|].
    split; [done|]. rewrite fmap_Some. intros (y & Hy & ->).
    apply list_lookup_singleton_Some in Hy as [_ <-]. done.
Qed.

Lemma registry_add_ok s r r' : registry_ok r → add s r = inl r' → registry_ok r'.
Proof.
  intros H. unfold add. destruct (frozen_ r); [done|].
  destruct (decide (is_Some (id_map_ r !! sid s))) as [?|Hid]; [done|].
  destruct (decide (is_Some (sym_map_ r !! symbol s))) as [?|Hsym]; [done|]. intros [= <-].
  assert (∀ x, x ∈ instruments_ r → sid x ≠ sid s) as Hfresh.
  { intros x (n & Hn)%list_elem_of_lookup_1 Hx. apply Hid. exists n. apply (re_id _ H). rewrite Hn. simpl. by rewrite Hx. }
  constructor; simpl.
  - rewrite umap_emplace_fresh by done. apply index_snoc; [apply H|done].
  - rewrite umap_emplace_fresh by done. apply index_snoc; [apply H|done].
  - unfold index_chain. destruct (option_contract s) as [c|]; [|apply H].
    intros u ch [[<- <-]|[_ Hch]]%lookup_insert_Some; [|by apply (re_chain _ H)].
    destruct (chains_ r !! underlying c) as [ch0|] eqn:E; simpl.
    + destruct (re_chain _ H _ _ E) as [Hok Hu]. split; [by apply add_ok|].
      rewrite add_spec by done. by case_decide.
    + split; [apply add_ok, Chain_new_ok|]. rewrite add_spec by apply Chain_new_ok. by case_decide.
  - intros u e k t. rewrite index_chain_find, first_option_snoc, (re_find _ H) by done. done.
  - intros u. setoid_rewrite elem_of_app. setoid_rewrite list_elem_of_singleton.
    pose proof (re_under _ H u) as Hu. unfold index_chain.
    destruct (option_contract s) as [c|] eqn:Ec.
    + destruct (decide (underlying c = u)) as [<-|Hne].
      * rewrite lookup_insert_eq. split; [|eauto]. intros _. exists s. split; [by right|]. by exists c.
      * rewrite lookup_insert_ne, Hu by done. split.
        -- intros (x & ? & ?). eauto.
        -- intros (x & [Hx| ->] & Ho); [eauto|]. destruct Ho as (c' & ? & ?). congruence.
    + rewrite Hu. split; [intros (x & ? & ?); eauto|].
      intros (x & [Hx| ->] & Ho); [eauto|]. destruct Ho as (c' & ? & ?). congruence.
Qed.

Lemma add_inl s r r' :
  add s r = inl r' → instruments_ r' = instruments_ r ++ [s] ∧ frozen_ r' = frozen_ r.
Proof. unfold add. destruct (frozen_ r); [done|]. repeat (case_decide; [done|]). by intros [= <-]. Qed.

(** ** Properties *)

(** Registering a list of instruments, then freezing. *)
Fixpoint add_all (l : list InstrumentSpec) (r : InstrumentRegistry) : InstrumentRegistry + RegistryError :=
  match l with
  | [] => inl r
  | s :: l' => match add s r with inl r' => add_all l' r' | inr e => inr e end
  end.

Lemma add_all_ok l r r' :
  registry_ok r → add_all l r = inl r' → registry_ok r' ∧ instruments_ r' = instruments_ r ++ l.
Proof.
  revert r. induction l as [|s l IH]; intros r H; simpl.
  { intros [= <-]. by rewrite app_nil_r. }
  destruct (add s r) as [r1|] eqn:E; [|done]. intros E'.
  destruct (IH r1 (registry_add_ok _ _ _ H E) E') as [H' ->]. split; [done|].
  destruct (add_inl _ _ _ E) as [-> _]. by rewrite <- app_assoc.
Qed.

Lemma index_NoDup {K A} `{Countable K} (f : A → K) (m : gmap K nat) (l : list A) :
  (∀ i n, m !! i = Some n ↔ f <$> l !! n = Some i) → NoDup (f <$> l).
Proof.
  intros Hm. apply NoDup_alt. intros i j x Hi Hj. rewrite list_lookup_fmap in Hi, Hj.
  apply Hm in Hi, Hj. congruence.
Qed.

(** The element of a list that an index leads to. *)
Lemma index_find {K A} `{Countable K} (f : A → K) (m : gmap K nat) (l : list A) i :
  (∀ i n, m !! i = Some n ↔ f <$> l !! n = Some i) →
  match m !! i with None => Some None | Some n => let* s := l !! n in Some (Some s) end =
  Some (head (filter (λ s, f s = i) l)).
Proof.
  intros Hm. destruct (m !! i) as [n|] eqn:E.
  - apply Hm, fmap_Some in E as (s & Hs & ->). rewrite Hs. do 2 f_equal.
    pose proof (index_NoDup f m l Hm) as Hnd. clear Hm.
    revert n Hs. induction l as [|y l IH]; intros n Hs; [done|]. rewrite filter_cons.
    apply NoDup_cons in Hnd as [Hy Hnd]. destruct n as [|n]; simpl in Hs.
    + injection Hs as ->. by rewrite decide_True.
    + rewrite decide_False; [by eapply IH|]. intros Heq. apply Hy. rewrite Heq.
      apply list_elem_of_fmap_2. by eapply list_elem_of_lookup_2.
  - rewrite filter_none; [done|]. intros s (n & Hn)%list_elem_of_lookup_1 <-.
    assert (m !! f s = Some n) by (apply Hm; by rewrite Hn). congruence.
Qed.

Lemma add_all_error l r e :
  registry_ok r → frozen_ r = false → add_all l r = inr e →
  e ≠ FrozenError ∧
  ¬ (NoDup (sid <$> instruments_ r ++ l) ∧ NoDup (symbol <$> instruments_ r ++ l)).
Proof.
  revert r. induction l as [|s l IH]; intros r H Hfr; simpl; [done|].
  assert (∀ {K} `{Countable K} (f : InstrumentSpec → K) (m : gmap K nat),
    (∀ i n, m !! i = Some n ↔ f <$> instruments_ r !! n = Some i) → is_Some (m !! f s) →
    ¬ NoDup (f <$> instruments_ r ++ s :: l)) as Hdup.
  { intros K ?? f m Hm [n Hn]. apply Hm, fmap_Some in Hn as (x & Hx & Hfx).
    rewrite fmap_app, fmap_cons. intros (_ & Hd & _)%NoDup_app.
    apply (Hd (f s)); [|left]. rewrite Hfx. apply list_elem_of_fmap_2. by eapply list_elem_of_lookup_2. }
  destruct (add s r) as [r1|e1] eqn:Ea.
  - intros E. destruct (add_inl _ _ _ Ea) as [Hl Hf].
    destruct (IH r1 (registry_add_ok _ _ _ H Ea) ltac:(congruence) E) as [He Hn]. split; [done|].
    by rewrite Hl, <- app_assoc in Hn.
  - intros [= <-]. unfold add in Ea. rewrite Hfr in Ea.
    destruct (decide (is_Some (id_map_ r !! sid s))) as [Hi|Hi].
    { injection Ea as <-. split; [done|]. intros [Hn _].
      by apply (Hdup _ _ _ sid (id_map_ r) (re_id _ H)) in Hn. }
    destruct (decide (is_Some (sym_map_ r !! symbol s))) as [Hs|Hs]; [|done].
    injection Ea as <-. split; [done|]. intros [_ Hn].
    by apply (Hdup _ _ _ symbol (sym_map_ r) (re_sym _ H)) in Hn.
Qed.

(** C21: the registry is exact.  Registering a list of instruments succeeds
    exactly if their ids and their symbols are distinct, and never reports a
    frozen registry; afterwards [all] is that list in order, lookups by id and
    by symbol find the instrument with that id or symbol and no other, without
    a bad subscript, and the option chains lead to the instrument registered
    first for each (underlying, expiry, strike, type). *)
Theorem registry_exact l :
  match add_all l Registry_new with
  | inl r =>
      NoDup (sid <$> l) ∧ NoDup (symbol <$> l) ∧ instruments_ r = l ∧
      (∀ i, find_id i r = Some (head (filter (λ s, sid s = i) l))) ∧
      (∀ y, find_symbol y r = Some (head (filter (λ s, symbol s = y) l))) ∧
      (∀ u e k t, option_chain u r ≫= find e k t = first_option u (e, k, t) l)
  | inr err => err ≠ FrozenError ∧ ¬ (NoDup (sid <$> l) ∧ NoDup (symbol <$> l))
  end.
Proof.
  destruct (add_all l Registry_new) as [r|e] eqn:E.
  - destruct (add_all_ok l _ _ Registry_new_ok E) as [H Hl]. simpl in Hl. rewrite <- Hl. split_and!.
    + by eapply index_NoDup, H.
    + by eapply index_NoDup, H.
    + done.
    + intros i. apply index_find, H.
    + intros y. apply index_find, H.
    + apply H.
  - by apply (add_all_error l Registry_new e Registry_new_ok).
Qed.
