(* ===== verification/Sweeper.v ===== *)
(** * Expiry sweeper (include/ordbk/matching/sweeper.hpp,
    src/matching/sweeper.cpp)

    Instruments by expiry in a multimap, and their expiry in a hash map.  The
    callback acts on a state of the caller. *)

From S2P Require Import Prelude StdMap Types Contract.

Record Sweeper := mkSweeper {
  by_expiry_ : list (ExpiryDate * InstrumentId);
  id_to_expiry_ : gmap Z ExpiryDate }.

Definition Sweeper_new : Sweeper := mkSweeper [] ∅.

Definition register_instrument (id : InstrumentId) (e : ExpiryDate) (s : Sweeper) : Sweeper :=
  mkSweeper (mmap_emplace date_ltb e id (by_expiry_ s)) (umap_emplace id e (id_to_expiry_ s)).

(** The loop over [equal_range(expiry)]: erase the first entry with this id. *)
Fixpoint erase_in_range (e : ExpiryDate) (id : InstrumentId) (m : list (ExpiryDate * InstrumentId))
    : list (ExpiryDate * InstrumentId) :=
  match m with
  | [] => []
  | (e', id') :: m' =>
      if date_ltb e' e then (e', id') :: erase_in_range e id m'
      else if date_ltb e e' then m
      else if (id' =? id)%Z then m' else (e', id') :: erase_in_range e id m'
  end.

Definition unregister (id : InstrumentId) (s : Sweeper) : Sweeper :=
  match id_to_expiry_ s !! id with
  | None => s
  | Some e => mkSweeper (erase_in_range e id (by_expiry_ s)) (delete id (id_to_expiry_ s))
  end.

(** The [while] loop of [sweep]. *)
Fixpoint sweep_loop (today : ExpiryDate) (m : list (ExpiryDate * InstrumentId)) (ids : gmap Z ExpiryDate)
    : list InstrumentId * list (ExpiryDate * InstrumentId) * gmap Z ExpiryDate :=
  match m with
  | [] => ([], [], ids)
  | (e, id) :: m' =>
      if negb (date_ltb today e) then
        let '(expired, m2, ids2) := sweep_loop today m' (delete id ids) in
        (id :: expired, m2, ids2)
      else ([], m, ids)
  end.

(** [sweep]: the callback, if there is one, is called for each expired id in
    order, after the sweeper has been updated. *)
Definition sweep {S} (callback : option (InstrumentId → S → S)) (today : ExpiryDate) (s : Sweeper) (st : S)
    : list InstrumentId * Sweeper * S :=
  let '(expired, m, ids) := sweep_loop today (by_expiry_ s) (id_to_expiry_ s) in
  (expired, mkSweeper m ids,
   match callback with None => st | Some f => foldl (λ st id, f id st) st expired end).

Definition sweeper_size (s : Sweeper) : nat := size (id_to_expiry_ s).

(** ** Invariant of a sweeper in which every id was registered once *)

Record sweeper_ok (s : Sweeper) : Prop := {
  sw_sorted : mmap_sorted date_ltb (by_expiry_ s);
  sw_ids : NoDup (by_expiry_ s).*2;
  sw_index : ∀ id e, id_to_expiry_ s !! id = Some e ↔ (e, id) ∈ by_expiry_ s }.

Lemma mmap_sorted_cons (e : ExpiryDate) (id : InstrumentId) m :
  mmap_sorted date_ltb ((e, id) :: m) ↔
  (∀ e' id', (e', id') ∈ m → date_ltb e' e = false) ∧ mmap_sorted date_ltb m.
Proof.
  unfold mmap_sorted. rewrite fmap_cons. split.
  - intros [? Hf]%StronglySorted_inv. split; [|done]. intros e' id' Hin.
    rewrite Forall_forall in Hf. apply Hf. by apply (list_elem_of_fmap_2 fst _ (e', id')).
  - intros [Hf ?]. constructor; [done|]. apply Forall_forall.
    intros e' ([e'' id'] & -> & Hin)%list_elem_of_fmap. eauto.
Qed.

Lemma elem_of_mmap_emplace e (id : InstrumentId) m x : x ∈ mmap_emplace date_ltb e id m ↔ x = (e, id) ∨ x ∈ m.
Proof.
  induction m as [|[e' id'] m IH]; simpl; [set_solver|].
  destruct (date_ltb e e'); rewrite !elem_of_cons, ?IH; tauto.
Qed.

Lemma mmap_emplace_sorted e (id : InstrumentId) m :
  mmap_sorted date_ltb m → mmap_sorted date_ltb (mmap_emplace date_ltb e id m).
Proof.
  induction m as [|[e' id'] m IH]; simpl.
  { intros _. apply mmap_sorted_cons. split; [set_solver|constructor]. }
  intros [Hf Hs]%mmap_sorted_cons. destruct (date_ltb e e') eqn:E; apply mmap_sorted_cons.
  - split; [|by apply mmap_sorted_cons]. intros e2 id2 [[= -> ->]|Hin]%elem_of_cons.
    + by apply (ltb_asym date_ltb).
    + destruct (date_ltb e2 e) eqn:E2; [|done].
      pose proof (ltb_trans _ _ _ E2 E). rewrite (Hf _ _ Hin) in *. done.
  - split; [|auto]. intros e2 id2 [[= -> ->]|Hin]%elem_of_mmap_emplace; eauto.
Qed.

Lemma mmap_emplace_ids e (id : InstrumentId) m : (mmap_emplace date_ltb e id m).*2 ≡ₚ id :: m.*2.
Proof.
  induction m as [|[e' id'] m IH]; simpl; [done|]. destruct (date_ltb e e'); simpl; [done|].
  rewrite IH. apply Permutation_swap.
Qed.

Lemma register_ok id e s :
  sweeper_ok s → id_to_expiry_ s !! id = None → sweeper_ok (register_instrument id e s).
Proof.
  intros [Hs Hnd Hix] Hid. constructor; simpl.
  - by apply mmap_emplace_sorted.
  - rewrite mmap_emplace_ids. apply NoDup_cons. split; [|done].
    intros ([e' id'] & -> & Hin)%list_elem_of_fmap. simpl in Hid. apply Hix in Hin. congruence.
  - intros id' e'. rewrite elem_of_mmap_emplace. unfold umap_emplace. rewrite Hid.
    destruct (decide (id = id')) as [<-|Hne].
    + rewrite lookup_insert_eq. split; [intros [= ->]; by left|].
      intros [[= ->]|Hin%Hix]; congruence.
    + rewrite lookup_insert_ne, Hix by done. split; [by right|]. intros [[= _ ->]|?]; done.
Qed.

Lemma erase_in_range_spec e id m :
  mmap_sorted date_ltb m → NoDup m.*2 → (e, id) ∈ m →
  ∃ m1 m2, m = m1 ++ (e, id) :: m2 ∧ erase_in_range e id m = m1 ++ m2.
Proof.
  induction m as [|[e' id'] m IH]; simpl; [by intros _ _ ?%not_elem_of_nil|].
  intros [Hf Hs]%mmap_sorted_cons [Hn Hnd]%NoDup_cons Hin.
  destruct (decide ((e, id) = (e', id'))) as [[= -> ->]|Hne].
  { exists [], m. by rewrite !(ltb_irrefl (ltb:=date_ltb)), Z.eqb_refl. }
  apply elem_of_cons in Hin as [?|Hin]; [done|].
  destruct (IH Hs Hnd Hin) as (m1 & m2 & -> & E). exists ((e', id') :: m1), m2. split; [done|].
  rewrite E. destruct (date_ltb e' e); [done|]. rewrite (Hf _ _ Hin).
  destruct (Z.eqb_spec id' id) as [->|]; [|done]. exfalso. apply Hn.
  by apply (list_elem_of_fmap_2 snd _ (e, id)).
Qed.

Lemma mmap_sorted_sub m1 x m2 :
  mmap_sorted date_ltb (m1 ++ x :: m2) → mmap_sorted date_ltb (m1 ++ m2 : list (ExpiryDate * InstrumentId)).
Proof.
  induction m1 as [|[e id] m1 IH]; simpl.
  - destruct x. by intros [_ ?]%mmap_sorted_cons.
  - intros [Hf Hs]%mmap_sorted_cons. apply mmap_sorted_cons. split; [|auto].
    intros e' id' Hin. apply (Hf e' id'). set_solver.
Qed.

Lemma unregister_ok id s :
  sweeper_ok s → sweeper_ok (unregister id s) ∧
  id_to_expiry_ (unregister id s) = delete id (id_to_expiry_ s).
Proof.
  intros [Hs Hnd Hix]. unfold unregister. destruct (id_to_expiry_ s !! id) as [e|] eqn:E; last first.
  { split; [done|]. by rewrite delete_id. }
  split; [|done]. apply Hix in E.
  destruct (erase_in_range_spec e id _ Hs Hnd E) as (m1 & m2 & Em & Eer).
  constructor; simpl; rewrite ?Eer.
  - rewrite Em in Hs. by eapply mmap_sorted_sub.
  - rewrite Em, fmap_app, fmap_cons in Hnd. rewrite fmap_app.
    apply NoDup_app in Hnd as (? & ? & [? ?]%NoDup_cons). apply NoDup_app. set_solver.
  - intros id' e'. destruct (decide (id = id')) as [<-|Hne].
    + rewrite lookup_delete_eq. split; [done|]. intros Hin. exfalso.
      rewrite Em, fmap_app, fmap_cons in Hnd. apply NoDup_app in Hnd as (_ & Hd & [Hn _]%NoDup_cons).
      apply elem_of_app in Hin as [Hin|Hin]; apply (list_elem_of_fmap_2 snd) in Hin; simpl in *.
      * apply (Hd _ Hin). left.
      * done.
    + rewrite lookup_delete_ne, Hix, Em by done. rewrite !elem_of_app, elem_of_cons.
      split; [|tauto]. intros [?|[[= _ ->]|?]]; tauto.
Qed.

Lemma sweep_loop_spec today m ids :
  mmap_sorted date_ltb m →
  ∃ m1 m2, m = m1 ++ m2 ∧
    sweep_loop today m ids = (m1.*2, m2, foldl (λ ids id, delete id ids) ids m1.*2) ∧
    (∀ e id, (e, id) ∈ m1 → date_ltb today e = false) ∧
    (∀ e id, (e, id) ∈ m2 → date_ltb today e = true).
Proof.
  revert ids. induction m as [|[e id] m IH]; intros ids Hs; simpl.
  { exists [], []. split_and!; try done; set_solver. }
  apply mmap_sorted_cons in Hs as [Hf Hs]. destruct (date_ltb today e) eqn:E; simpl.
  - exists [], ((e, id) :: m). split_and!; try done; [set_solver|].
    intros e' id' [[= -> ->]|Hin]%elem_of_cons; [done|].
    destruct (date_ltb today e') eqn:E'; [done|]. pose proof (Hf _ _ Hin) as Hle.
    destruct (date_ltb e' today) eqn:E2.
    + pose proof (ltb_trans _ _ _ E2 E). congruence.
    + rewrite (ltb_total _ _ E' E2) in E. congruence.
  - destruct (IH (delete id ids) Hs) as (m1 & m2 & -> & -> & H1 & H2).
    exists ((e, id) :: m1), m2. split_and!; try done.
    intros e' id' [[= -> ->]|Hin]%elem_of_cons; eauto.
Qed.

Lemma foldl_delete_lookup {A} (ids : gmap Z A) (l : list Z) i :
  foldl (λ ids id, delete id ids) ids l !! i = if decide (i ∈ l) then None else ids !! i.
Proof.
  revert ids. induction l as [|x l IH]; intros ids; cbn [foldl]; [done|]. rewrite IH. destruct (decide (i = x)) as [->|Hne].
  - rewrite lookup_delete_eq, (decide_True (P:=x ∈ x :: l)) by left. by case_decide.
  - rewrite lookup_delete_ne by done. case_decide as H1; case_decide as H2; try done; exfalso; set_solver.
Qed.

(** *** Sequences of registrations and withdrawals *)

Inductive sweeper_op := Sw_register (id : InstrumentId) (e : ExpiryDate) | Sw_unregister (id : InstrumentId).

Definition sweeper_exec (op : sweeper_op) (s : Sweeper) : Sweeper :=
  match op with
  | Sw_register id e => register_instrument id e s
  | Sw_unregister id => unregister id s
  end.
Definition sweeper_after (ops : list sweeper_op) : Sweeper := foldl (λ s op, sweeper_exec op s) Sweeper_new ops.

(** What the operations mean: the instruments registered, with their expiry. *)
Definition registered_exec (op : sweeper_op) (m : gmap Z ExpiryDate) : gmap Z ExpiryDate :=
  match op with
  | Sw_register id e => <[id := e]> m
  | Sw_unregister id => delete id m
  end.
Definition registered (ops : list sweeper_op) : gmap Z ExpiryDate := foldl (λ m op, registered_exec op m) ∅ ops.

(** No instrument is registered while it is registered. *)
Fixpoint once_from (m : gmap Z ExpiryDate) (ops : list sweeper_op) : bool :=
  match ops with
  | [] => true
  | op :: ops' =>
      match op with Sw_register id _ => bool_decide (m !! id = None) | Sw_unregister _ => true end &&
      once_from (registered_exec op m) ops'
  end.
Definition registered_once (ops : list sweeper_op) : bool := once_from ∅ ops.

Lemma erase_in_range_sorted e id m :
  mmap_sorted date_ltb m →
  mmap_sorted date_ltb (erase_in_range e id m) ∧ ∀ x, x ∈ erase_in_range e id m → x ∈ m.
Proof.
  induction m as [|[e' id'] m IH]; simpl; [done|]. intros Hs. pose proof Hs as [Hf Hs']%mmap_sorted_cons.
  destruct (IH Hs') as [Hs1 Hsub].
  assert (mmap_sorted date_ltb ((e', id') :: erase_in_range e id m) ∧
    ∀ x, x ∈ (e', id') :: erase_in_range e id m → x ∈ (e', id') :: m) as Hkeep.
  { split; [|set_solver]. apply mmap_sorted_cons. split; [|done]. intros e2 id2 Hin%Hsub. by eapply Hf. }
  destruct (date_ltb e' e); [done|]. destruct (date_ltb e e'); [done|].
  destruct (id' =? id)%Z; [|done]. split; [done|]. set_solver.
Qed.

(** The multimap is in order whatever is registered. *)
Lemma sweeper_after_sorted ops : mmap_sorted date_ltb (by_expiry_ (sweeper_after ops)).
Proof.
  induction ops as [|op ops IH] using rev_ind; [constructor|]. unfold sweeper_after in *. rewrite foldl_snoc.
  destruct op as [id e|id]; simpl.
  - by apply mmap_emplace_sorted.
  - unfold unregister. case_match; [|done]. simpl. by apply erase_in_range_sorted.
Qed.

Lemma Sweeper_new_ok : sweeper_ok Sweeper_new.
Proof.
  constructor; [constructor|constructor|]. intros id e. simpl. rewrite lookup_empty.
  split; [done|]. by intros ?%not_elem_of_nil.
Qed.

(** Registering once keeps the index exact. *)
Lemma once_from_ok ops s :
  sweeper_ok s → once_from (id_to_expiry_ s) ops = true →
  sweeper_ok (foldl (λ s op, sweeper_exec op s) s ops) ∧
  id_to_expiry_ (foldl (λ s op, sweeper_exec op s) s ops) = foldl (λ m op, registered_exec op m) (id_to_expiry_ s) ops.
Proof.
  revert s. induction ops as [|op ops IH]; intros s Hs; cbn [once_from foldl]; [done|].
  intros [Hop Hops]%andb_true_iff. destruct op as [id e|id]; cbn [sweeper_exec registered_exec] in *.
  - apply bool_decide_eq_true in Hop. assert (id_to_expiry_ (register_instrument id e s) = <[id := e]> (id_to_expiry_ s)) as E.
    { simpl. unfold umap_emplace. by rewrite Hop. }
    rewrite <- E in Hops |- *. apply IH; [by apply register_ok|done].
  - destruct (unregister_ok id s Hs) as [Hok E]. rewrite <- E in Hops |- *. by apply IH.
Qed.

Lemma sweeper_after_once ops :
  registered_once ops = true → sweeper_ok (sweeper_after ops) ∧ id_to_expiry_ (sweeper_after ops) = registered ops.
Proof. apply (once_from_ok ops Sweeper_new), Sweeper_new_ok. Qed.

(** What a sweep does to any sweeper whose multimap is in order. *)
Lemma sweep_sorted {S} (callback : InstrumentId → S → S) today s st :
  mmap_sorted date_ltb (by_expiry_ s) →
  ∃ expired s', sweep (Some callback) today s st = (expired, s', foldl (λ st id, callback id st) st expired) ∧
    mmap_sorted date_ltb (by_expiry_ s') ∧
    (∀ id, id ∈ expired ↔ ∃ e, (e, id) ∈ by_expiry_ s ∧ date_ltb today e = false) ∧
    (∀ e id, (e, id) ∈ by_expiry_ s' ↔ (e, id) ∈ by_expiry_ s ∧ date_ltb today e = true) ∧
    (∀ id, id_to_expiry_ s' !! id = if decide (id ∈ expired) then None else id_to_expiry_ s !! id).
Proof.
  intros Hs. unfold sweep.
  destruct (sweep_loop_spec today (by_expiry_ s) (id_to_expiry_ s) Hs) as (m1 & m2 & Em & -> & H1 & H2).
  eexists _, _. split; [done|]. rewrite Em. simpl. split_and!.
  - rewrite Em in Hs. unfold mmap_sorted in *. rewrite fmap_app in Hs. by apply StronglySorted_app_1_r in Hs.
  - intros id. split.
    + intros ([e i] & -> & Hi)%list_elem_of_fmap. exists e. split; [apply elem_of_app; by left|by eapply H1].
    + intros (e & [Hi|Hi]%elem_of_app & Ht); [by apply (list_elem_of_fmap_2 snd _ (e, id))|].
      by rewrite (H2 _ _ Hi) in Ht.
  - intros e id. rewrite elem_of_app. split; [intros Hi; split; [by right|by eapply H2]|].
    intros [[Hi|Hi] Ht]; [|done]. by rewrite (H1 _ _ Hi) in Ht.
  - intros id. apply foldl_delete_lookup.
Qed.

(** ** Properties *)

(** A sweep is exact.  If every id was registered once, [sweep] returns
    each registered instrument whose expiry is not after today, and no other,
    once and in order of expiry; it removes exactly these, calls the callback
    for them in that order, and leaves a well-formed sweeper. *)
Theorem sweep_exact {S} (callback : InstrumentId → S → S) today s st :
  sweeper_ok s →
  ∃ expired s' st', sweep (Some callback) today s st = (expired, s', st') ∧
    NoDup expired ∧
    (∀ id, id ∈ expired ↔ ∃ e, id_to_expiry_ s !! id = Some e ∧ date_ltb today e = false) ∧
    (∃ es, StronglySorted (λ a b, date_ltb b a = false) es ∧
       mapM (λ id, id_to_expiry_ s !! id) expired = Some es) ∧
    id_to_expiry_ s' = filter (λ p, date_ltb today p.2 = true) (id_to_expiry_ s) ∧
    sweeper_ok s' ∧ st' = foldl (λ st id, callback id st) st expired.
Proof.
  intros [Hs Hnd Hix]. unfold sweep.
  destruct (sweep_loop_spec today (by_expiry_ s) (id_to_expiry_ s) Hs) as (m1 & m2 & Em & -> & H1 & H2).
  assert (∀ id e, (e, id) ∈ m1 ∨ (e, id) ∈ m2 ↔ id_to_expiry_ s !! id = Some e) as Hin.
  { intros id e. by rewrite Hix, Em, elem_of_app. }
  rewrite Em, fmap_app in Hnd. apply NoDup_app in Hnd as (Hnd1 & Hdis & Hnd2).
  assert (foldl (λ ids id, delete id ids) (id_to_expiry_ s) m1.*2 =
          filter (λ p, date_ltb today p.2 = true) (id_to_expiry_ s)) as Hids.
  { apply map_eq. intros i. rewrite foldl_delete_lookup. apply option_eq. intros e.
    rewrite map_lookup_filter_Some. simpl. case_decide as Hi.
    - split; [done|]. intros [He Ht]. apply list_elem_of_fmap in Hi as ([e' i'] & -> & Hi). simpl in *.
      assert (id_to_expiry_ s !! i' = Some e') as E by (apply Hin; by left).
      rewrite He in E. injection E as ->. by rewrite (H1 _ _ Hi) in Ht.
    - split; [|by intros [? _]]. intros He. split; [done|]. apply Hin in He as [He|He]; [|eauto].
      destruct Hi. by apply (list_elem_of_fmap_2 snd _ (e, i)). }
  eexists _, _, _. split; [done|]. split_and!; [done| | |done| |done].
  - intros id. split.
    + intros ([e i] & -> & Hi)%list_elem_of_fmap. exists e. split; [apply Hin; by left|eauto].
    + intros (e & He & Ht). apply Hin in He as [He|He].
      * by apply (list_elem_of_fmap_2 snd _ (e, id)).
      * rewrite (H2 _ _ He) in Ht. done.
  - exists m1.*1. split.
    + rewrite Em in Hs. unfold mmap_sorted in Hs. rewrite fmap_app in Hs. by apply StronglySorted_app_1_l in Hs.
    + apply mapM_Some, Forall2_fmap, Forall_Forall2_diag, Forall_forall. intros [e i] Hi. simpl. apply Hin. by left.
  - rewrite Hids. constructor; simpl.
    + rewrite Em in Hs. unfold mmap_sorted in *. rewrite fmap_app in Hs. by apply StronglySorted_app_1_r in Hs.
    + done.
    + intros id e. rewrite map_lookup_filter_Some, <- Hin. simpl. split.
      * intros [[Hi|Hi] Ht]; [|done]. rewrite (H1 _ _ Hi) in Ht. done.
      * intros Hi. eauto.
Qed.

Definition ex_sweeper : Sweeper :=
  register_instrument 2 (mkDate 2026 1 16) (register_instrument 1 (mkDate 2026 3 20) Sweeper_new).

Lemma ex_sweeper_ok : sweeper_ok ex_sweeper.
Proof. apply register_ok; [|done]. apply register_ok; [|done]. apply Sweeper_new_ok. Qed.

Lemma sweep_exact_witness :
  let log := λ id (l : list Z), l ++ [id] in
  let today := mkDate 2026 1 31 in
  (sweep (Some log) today ex_sweeper []).1.1 = [2%Z] ∧
  ∃ expired s' st', sweep (Some log) today ex_sweeper [] = (expired, s', st') ∧
    NoDup expired ∧
    (∀ id, id ∈ expired ↔ ∃ e, id_to_expiry_ ex_sweeper !! id = Some e ∧ date_ltb today e = false) ∧
    (∃ es, StronglySorted (λ a b, date_ltb b a = false) es ∧
       mapM (λ id, id_to_expiry_ ex_sweeper !! id) expired = Some es) ∧
    id_to_expiry_ s' = filter (λ p, date_ltb today p.2 = true) (id_to_expiry_ ex_sweeper) ∧
    sweeper_ok s' ∧ st' = foldl (λ st id, log id st) [] expired.
Proof.
  intros log today. split; [by vm_compute|].
  apply (sweep_exact log today ex_sweeper []), ex_sweeper_ok.
Defined.

(** A second registration of an id is not refused and breaks the index:
    once both expiries have passed the instrument is reported twice, and
    [unregister], which is meant to withdraw it, leaves an entry behind that is
    still reported although the sweeper says it is empty. *)
Theorem sweeper_duplicate_registration id e1 e2 today :
  date_ltb today e1 = false → date_ltb today e2 = false →
  let s := register_instrument id e2 (register_instrument id e1 Sweeper_new) in
  (sweep (S:=unit) None today s tt).1.1 = [id; id] ∧
  sweeper_size (unregister id s) = 0 ∧
  (sweep (S:=unit) None today (unregister id s) tt).1.1 = [id].
Proof.
  intros H1 H2 s.
  assert (s = mkSweeper (if date_ltb e2 e1 then [(e2, id); (e1, id)] else [(e1, id); (e2, id)])
                {[id := e1]}) as ->.
  { unfold s, register_instrument. cbn [by_expiry_ id_to_expiry_ Sweeper_new mmap_emplace]. f_equal.
    unfold umap_emplace. by rewrite lookup_empty, lookup_insert_eq. }
  assert (unregister id (mkSweeper (if date_ltb e2 e1 then [(e2, id); (e1, id)] else [(e1, id); (e2, id)])
            {[id := e1]}) = mkSweeper [(e2, id)] ∅) as ->.
  { unfold unregister. cbn [by_expiry_ id_to_expiry_]. rewrite lookup_singleton_eq, delete_singleton_eq.
    f_equal. destruct (date_ltb e2 e1) eqn:E; cbn [erase_in_range];
      rewrite ?E, ?(ltb_irrefl (ltb:=date_ltb)), ?Z.eqb_refl; done. }
  unfold sweep, sweeper_size. split_and!.
  - cbn [by_expiry_ id_to_expiry_]. destruct (date_ltb e2 e1); cbn [sweep_loop]; by rewrite ?H1, ?H2; simpl; rewrite ?H1, ?H2.
  - apply map_size_empty.
  - cbn [by_expiry_ id_to_expiry_ sweep_loop]. by rewrite H2.
Qed.

Lemma sweeper_duplicate_registration_witness :
  let s := register_instrument 5 (mkDate 2026 1 1) (register_instrument 5 (mkDate 2026 2 1) Sweeper_new) in
  (sweep (S:=unit) None (mkDate 2026 3 1) s tt).1.1 = [5%Z; 5%Z] ∧
  sweeper_size (unregister 5 s) = 0 ∧
  (sweep (S:=unit) None (mkDate 2026 3 1) (unregister 5 s) tt).1.1 = [5%Z].
Proof.
  apply (sweeper_duplicate_registration 5 (mkDate 2026 2 1) (mkDate 2026 1 1) (mkDate 2026 3 1)); done.
Defined.
