(* ===== verification/Engine.v ===== *)
(** * The engine (include/ordbk/matching/engine.hpp, src/matching/engine.cpp)

    One book and one matcher per instrument, all over one pool.  The source
    keeps two hash maps: [matchers_] owns the books, [book_ptrs_] has raw
    pointers to them; such a pointer is the key of the slot that owns the
    book. *)

From stdpp Require Import strings.
From S2P Require Import Prelude StdMap Types Heap Pool PriceLevel OrderBook Latency Matcher.
From S2P Require Import MatchSpec SubmitSpec CancelSpec Contract Chain Registry.

Record Engine := mkEngine {
  registry_ : InstrumentRegistry;
  matchers_ : gmap Z Matcher;
  book_ptrs_ : gmap Z Z }.

(** [std::logic_error] of the constructor. *)
Inductive EngineError := RegistryNotFrozen.

(** The constructor's loop body. *)
Definition open_book (filter : option (InstrumentId → bool)) (e : Engine) (spec : InstrumentSpec) : Engine :=
  let keep := match filter with None => true | Some f => f (sid spec) end in
  if negb keep then e
  else mkEngine (registry_ e) (umap_emplace (sid spec) (Matcher_new (sid spec)) (matchers_ e))
         (umap_emplace (sid spec) (sid spec) (book_ptrs_ e)).

Definition Engine_new (r : InstrumentRegistry) (filter : option (InstrumentId → bool)) : Engine + EngineError :=
  if negb (frozen_ r) then inr RegistryNotFrozen
  else inl (foldl (open_book filter) (mkEngine r ∅ ∅) (instruments_ r)).

Definition acquire_order (s : Sys) : res (option ptr * Sys) :=
  let* (x, p) := acquire (pool_ s) in Some (x, set_pool p s).
Definition release_order (x : ptr) (s : Sys) : res Sys :=
  let* p := release x (pool_ s) in Some (set_pool p s).

Definition set_matcher (id : InstrumentId) (m : Matcher) (e : Engine) : Engine :=
  mkEngine (registry_ e) (<[id := m]> (matchers_ e)) (book_ptrs_ e).

Definition submit (clock : nat → Z) (x : ptr) (e : Engine) (s : Sys) : res (MatchResult * Engine * Sys) :=
  let* o := order_at x s in
  match matchers_ e !! oinstrument o with
  | None =>
      let* s' := order_upd (set_status Rejected) x s in
      Some (mkResult x [], e, s')
  | Some m =>
      let* (r, m', s') := Matcher.submit clock x m s in
      Some (r, set_matcher (oinstrument o) m' e, s')
  end.

Definition cancel (inst : InstrumentId) (id : OrderId) (e : Engine) (s : Sys) : res (bool * Engine * Sys) :=
  match matchers_ e !! inst with
  | None => Some (false, e, s)
  | Some m =>
      let* (ok, m', s') := Matcher.cancel id m s in
      Some (ok, set_matcher inst m' e, s')
  end.

Definition expire_instrument (id : InstrumentId) (e : Engine) (s : Sys) : res (bool * Engine * Sys) :=
  match matchers_ e !! id with
  | None => Some (false, e, s)
  | Some m =>
      let* (m', s') := cancel_all m s in
      Some (true, mkEngine (registry_ e) (delete id (matchers_ e)) (delete id (book_ptrs_ e)), s')
  end.

(** [nullptr] is [Some None]; a dangling pointer is [None]. *)
Definition book (id : InstrumentId) (e : Engine) : res (option OrderBook) :=
  match book_ptrs_ e !! id with
  | None => Some None
  | Some k => let* m := matchers_ e !! k in Some (Some (book_ m))
  end.
Definition book_count (e : Engine) : nat := size (book_ptrs_ e).

(** The loop body of [latency_snapshot]; [mean_ns] is not written. *)
Definition combine (a s : Snapshot) : Snapshot :=
  mkSnapshot (u64 (s_count a + s_count s)) (s_mean_ns a) (Z.max (s_max_ns a) (s_max_ns s))
    (zip_with (λ x y, u64 (x + y)) (s_hist a) (s_hist s)).

(** The hash map is visited in some order; the result does not depend on it. *)
Definition latency_snapshot (e : Engine) : Snapshot :=
  map_fold (λ _ m a, combine a (snapshot (stats_ m))) Snapshot_new (matchers_ e).

(** ** Invariant *)

Definition slots_ok (e : Engine) (p : Pool) (gs : gmap Z GBook) : Prop :=
  ∀ i m, matchers_ e !! i = Some m →
    ∃ g, gs !! i = Some g ∧ minv p (book_ m) g ∧ instrument_ (book_ m) = i.

Record engine_ok (e : Engine) (s : Sys) (gs : gmap Z GBook) : Prop := mkEngineOk {
  en_pool : pool_ok (pool_ s);
  en_slots : slots_ok e (pool_ s) gs;
  en_disj : ∀ i j gi gj, gs !! i = Some gi → gs !! j = Some gj → i ≠ j →
    ∀ y, y ∈ resting gi → y ∉ resting gj;
  en_dom : ∀ i, is_Some (gs !! i) ↔ is_Some (matchers_ e !! i);
  en_ptrs : ∀ i k, book_ptrs_ e !! i = Some k ↔ k = i ∧ is_Some (matchers_ e !! i) }.

(** An order on its way in: acquired, in no book. *)
Record client_order (s : Sys) (gs : gmap Z GBook) (x : ptr) (o : Order) : Prop := {
  co_at : order_at x s = Some o;
  co_alloc : allocated (pool_ s) x;
  co_out : ∀ i g, gs !! i = Some g → x ∉ resting g;
  co_qty : qty_ok o }.

(** A slot that is in no book. *)
Definition outside (gs : gmap Z GBook) (y : ptr) : Prop := ∀ i g, gs !! i = Some g → y ∉ resting g.

(** The abstract books of all instruments. *)
Definition books (s : Sys) (gs : gmap Z GBook) : gmap Z ABook := absr (storage_ (pool_ s)) <$> gs.

(** Ids are distinct within every book, so the indices are complete. *)
Definition engine_indexed (e : Engine) (s : Sys) (gs : gmap Z GBook) : Prop :=
  ∀ i m g, matchers_ e !! i = Some m → gs !! i = Some g → book_indexed (storage_ (pool_ s)) (book_ m) g.

(** ** Frames *)

Lemma book_indexed_frame h h' b g :
  (∀ y, y ∈ resting g → h' !! y = h !! y) → book_indexed h b g → book_indexed h' b g.
Proof. intros F Hix y o Hy. rewrite F by done. by apply Hix. Qed.

Lemma minv_frame p p' b g :
  minv p b g → pool_ok p' →
  (∀ y, y ∈ resting g → storage_ p' !! y = storage_ p !! y) →
  (∀ y, y ∈ resting g → allocated p' y) → minv p' b g.
Proof.
  intros [Hp [Hs Hm] Hd Ha] Hp' F Ha'. constructor; [done| | |done].
  - split.
    + intros buy. eapply side_rep_frame; [|apply Hs]. intros x Hx. apply F, elem_of_resting. eauto.
    + intros id loc Hl. destruct (Hm id loc Hl) as (o & Hr & Ho & ? & ?). exists o.
      split_and!; [done|by rewrite F|done|done].
  - intros x o Hx. rewrite F by done. by apply Hd.
Qed.

Lemma absr_frame h h' g : (∀ y, y ∈ resting g → h' !! y = h !! y) → absr h' g = absr h g.
Proof.
  intros F. apply absr_ext. intros buy. rewrite absr_side. apply hview_frame.
  intros y Hy. apply F, elem_of_resting. eauto.
Qed.

(** What an operation on the book [i] may do to the rest of the engine: only
    slots of book [i] and [x] are written or freed. *)
Record only_touches (p p' : Pool) (g : GBook) (xs : list ptr) : Prop := {
  ot_pool : pool_ok p';
  ot_cap : capacity p' = capacity p;
  ot_store : ∀ y, y ∉ resting g → y ∉ xs → storage_ p' !! y = storage_ p !! y;
  ot_free : ∀ y, y ∈ free p' → y ∈ free p ∨ y ∈ resting g }.

(** Replacing the matcher of one instrument. *)
Lemma engine_update e s gs i m' s' g g' xs :
  engine_ok e s gs → gs !! i = Some g →
  only_touches (pool_ s) (pool_ s') g xs →
  (∀ x j gj, x ∈ xs → gs !! j = Some gj → x ∉ resting gj) →
  minv (pool_ s') (book_ m') g' → instrument_ (book_ m') = i →
  (∀ y, y ∈ resting g' → y ∈ resting g ∨ y ∈ xs) →
  engine_ok (set_matcher i m' e) s' (<[i := g']> gs) ∧
  books s' (<[i := g']> gs) = <[i := absr (storage_ (pool_ s')) g']> (books s gs).
Proof.
  intros [Hp Hsl Hdj Hdom Hptr] Hg [Tp Tc Ts Tf] Hxs Hi Hinst Hsub.
  assert (∀ j gj y, gs !! j = Some gj → i ≠ j → y ∈ resting gj → y ∉ resting g ∧ y ∉ xs) as Hother.
  { intros j gj y Hgj Hij Hy. split.
    - intros Hy'. exact (Hdj i j g gj Hg Hgj Hij y Hy' Hy).
    - intros Hy'. exact (Hxs y j gj Hy' Hgj Hy). }
  assert (∀ j gj y, gs !! j = Some gj → i ≠ j → y ∈ resting gj →
            storage_ (pool_ s') !! y = storage_ (pool_ s) !! y) as Hst.
  { intros j gj y Hgj Hij Hy. destruct (Hother j gj y Hgj Hij Hy). by apply Ts. }
  split; [constructor|].
  - done.
  - intros j m Hm. simpl in Hm. destruct (decide (i = j)) as [<-|Hij].
    + rewrite lookup_insert_eq in Hm. injection Hm as <-. exists g'. by rewrite lookup_insert_eq.
    + rewrite lookup_insert_ne in Hm by done. destruct (Hsl j m Hm) as (gj & Hgj & Hmj & Hij').
      exists gj. rewrite lookup_insert_ne by done. split_and!; [done| |done].
      eapply minv_frame; [done|done|eauto|]. intros y Hy.
      destruct (mi_alloc _ _ _ Hmj y Hy) as [Hc Hf]. split; [by rewrite Tc|].
      intros Hfree. destruct (Hother j gj y Hgj Hij Hy). apply Tf in Hfree. tauto.
  - intros j k gj gk Hj Hk Hjk y Hy Hy'.
    apply lookup_insert_Some in Hj as [[-> ->]|[Hij Hj]]; apply lookup_insert_Some in Hk as [[-> ->]|[Hik Hk]].
    + done.
    + destruct (Hother _ _ _ Hk Hik Hy'). apply Hsub in Hy. tauto.
    + destruct (Hother _ _ _ Hj Hij Hy). apply Hsub in Hy'. tauto.
    + by eapply (Hdj j k).
  - intros j. simpl. destruct (decide (i = j)) as [<-|Hij].
    + rewrite !lookup_insert_eq. split; eauto.
    + rewrite !lookup_insert_ne by done. apply Hdom.
  - intros j k. simpl. rewrite Hptr. destruct (decide (i = j)) as [<-|Hij].
    + rewrite lookup_insert_eq. rewrite <- Hdom. rewrite Hg. split; (intros [-> ?]; split; eauto).
    + by rewrite lookup_insert_ne by done.
  - unfold books. rewrite fmap_insert. apply map_eq. intros j. destruct (decide (i = j)) as [<-|Hij].
    + by rewrite !lookup_insert_eq.
    + rewrite !lookup_insert_ne, !lookup_fmap by done. destruct (gs !! j) as [gj|] eqn:Hgj; simpl; [|done].
      f_equal. apply absr_frame. eauto.
Qed.

Lemma engine_indexed_update e s gs i m' s' g g' xs :
  engine_ok e s gs → gs !! i = Some g → only_touches (pool_ s) (pool_ s') g xs →
  (∀ x j gj, x ∈ xs → gs !! j = Some gj → x ∉ resting gj) →
  engine_indexed e s gs → book_indexed (storage_ (pool_ s')) (book_ m') g' →
  engine_indexed (set_matcher i m' e) s' (<[i := g']> gs).
Proof.
  intros He Hg Ht Hxs Hix Hb j m gj Hm Hgj. simpl in Hm. destruct (decide (i = j)) as [<-|Hij].
  - rewrite lookup_insert_eq in Hm. rewrite lookup_insert_eq in Hgj.
    injection Hm as <-. by injection Hgj as <-.
  - rewrite lookup_insert_ne in Hm by done. rewrite lookup_insert_ne in Hgj by done. eapply book_indexed_frame; [|by eapply Hix].
    intros y Hy. apply (ot_store _ _ _ _ Ht).
    + intros Hy'. exact (en_disj _ _ _ He i j g gj Hg Hgj Hij y Hy' Hy).
    + intros Hy'. by eapply Hxs.
Qed.

Lemma engine_indexed_outside e s gs s' :
  (∀ i g y, gs !! i = Some g → y ∈ resting g → order_at y s' = order_at y s) →
  engine_indexed e s gs → engine_indexed e s' gs.
Proof. intros F Hix i m g Hm Hg. eapply book_indexed_frame; [|by eapply Hix]. intros y Hy. by eapply (F i g). Qed.

(** The orders of a side, abstractly and as slots. *)
Lemma absr_length p b g buy :
  minv p b g → length (a_side buy (absr (storage_ p) g)) = length (flat (glevels buy g)).
Proof.
  intros Hi. rewrite absr_side. apply hview_length. intros y Hy.
  destruct (book_rep_lookup _ _ _ y (mi_rep _ _ _ Hi)) as [o ->]; [apply elem_of_resting; eauto|by eexists].
Qed.

(** ** Operations keep the invariant *)

Lemma submit_post_touches p b g x o p' b' g' o' :
  submit_post p b g x o p' b' g' o' → only_touches p p' g [x].
Proof.
  intros H. constructor.
  - apply (su_inv _ _ _ _ _ _ _ _ _ H).
  - apply (su_cap _ _ _ _ _ _ _ _ _ H).
  - intros y Hy Hyx. apply (su_frame _ _ _ _ _ _ _ _ _ H y Hy). intros ->. apply Hyx. left.
  - intros y. destruct (su_free _ _ _ _ _ _ _ _ _ H) as (k & -> & _). rewrite elem_of_app.
    intros [?|Hy]; [by left|right]. apply elem_of_resting. eexists.
    apply (subseteq_take k). exact Hy.
Qed.

(** A client's order as the taker of the book it names. *)
Lemma client_taker s gs x o i g : client_order s gs x o → gs !! i = Some g → taker_ok (pool_ s) g x o.
Proof. intros [Hat Hal Hout Hq] Hg. constructor; eauto. Qed.

Lemma books_lookup s gs i : books s gs !! i = absr (storage_ (pool_ s)) <$> gs !! i.
Proof. apply lookup_fmap. Qed.

Section engine.
Variable clock : nat → Z.

(** What a submission leaves: the books of the specification, every other
    order as it was, and the slots of the makers it filled back in the pool. *)
Definition engine_submitted (e : Engine) (s : Sys) (gs : gmap Z GBook) (x : ptr) (o : Order)
    (r : MatchResult) (e' : Engine) (s' : Sys) (gs' : gmap Z GBook) (o' : Order) : Prop :=
  engine_ok e' s' gs' ∧ order_at x s' = Some o' ∧ qty_ok o' ∧ allocated (pool_ s') x ∧
  (is_terminal o' = true → ∀ i g, gs' !! i = Some g → x ∉ resting g) ∧
  (∀ y, y ≠ x → outside gs y →
     order_at y s' = order_at y s ∧ (y ∈ free (pool_ s') → y ∈ free (pool_ s)) ∧ outside gs' y) ∧
  capacity (pool_ s') = capacity (pool_ s) ∧
  (engine_indexed e s gs → (∀ a, books s gs !! oinstrument o = Some a → ¬ has_id (oid o) a) →
   engine_indexed e' s' gs') ∧
  length (free (pool_ s')) = length (free (pool_ s)) +
    match books s gs !! oinstrument o, books s' gs' !! oinstrument o with
    | Some a, Some a' =>
        length (a_side (negb (is_buy (side o))) a) - length (a_side (negb (is_buy (side o))) a')
    | _, _ => 0
    end ∧
  match books s gs !! oinstrument o with
  | None => r_trades r = [] ∧ o' = set_status Rejected o ∧ books s' gs' = books s gs ∧ e' = e
  | Some a =>
      let '(a', od, trs) := a_submit (oinstrument o) (i64 (u64 (clock (S (ticks_ s))))) (data o) a in
      r_trades r = trs ∧ data o' = od ∧ books s' gs' = <[oinstrument o := a']> (books s gs)
  end.

Lemma engine_submit_known e s gs x o m :
  engine_ok e s gs → client_order s gs x o → matchers_ e !! oinstrument o = Some m →
  ∃ r e' s' gs' o', submit clock x e s = Some (r, e', s') ∧ r_order r = x ∧
    engine_submitted e s gs x o r e' s' gs' o'.
Proof.
  intros He Hc Em. unfold submit, engine_submitted. rewrite (co_at _ _ _ _ Hc), books_lookup, Em.
  destruct (en_slots _ _ _ He _ _ Em) as (g & Hg & Hm & Hinst). rewrite Hg. simpl.
  destruct (submit_spec clock x m s g o Hm (client_taker _ _ _ _ _ _ Hc Hg))
    as (r & m' & s' & g' & o' & -> & Hr & Hp & Ha). rewrite Hinst in Ha. rewrite Ha.
  destruct (engine_update e s gs (oinstrument o) m' s' g g' [x]) as [Hok Hb]; try done.
  { by eapply submit_post_touches. }
  { intros y j gj ->%list_elem_of_singleton Hgj. by eapply (co_out _ _ _ _ Hc). }
  { apply Hp. }
  { by rewrite (su_inst _ _ _ _ _ _ _ _ _ Hp). }
  { intros y Hy. apply (su_rest _ _ _ _ _ _ _ _ _ Hp) in Hy as [?| ->]; [by left|right; left]. }
  eexists r, _, s', _, o'.
  split_and!; [done|done|done|by eapply su_at|by eapply su_qty|by eapply su_alloc| | |by eapply su_cap| | |done|done|done].
  - intros Ht i gi Hgi Hx. apply lookup_insert_Some in Hgi as [[_ <-]|[_ Hgi]].
    + apply (su_live _ _ _ _ _ _ _ _ _ Hp) in Hx. congruence.
    + by eapply (co_out _ _ _ _ Hc).
  - intros y Hyx Hout. pose proof (Hout _ _ Hg) as Hy. split_and!.
    + by apply (su_frame _ _ _ _ _ _ _ _ _ Hp).
    + intros Hf. apply (ot_free _ _ _ _ (submit_post_touches _ _ _ _ _ _ _ _ _ Hp)) in Hf. tauto.
    + intros i gi [[_ <-]|[_ Hgi]]%lookup_insert_Some; [|by eapply Hout].
      intros [?| ->]%(su_rest _ _ _ _ _ _ _ _ _ Hp); done.
  - intros Hix Hfresh. eapply engine_indexed_update; [done|done|by eapply submit_post_touches| |done|].
    + intros y j gj ->%list_elem_of_singleton Hgj. by eapply (co_out _ _ _ _ Hc).
    + apply (su_index _ _ _ _ _ _ _ _ _ Hp); [by eapply Hix|]. apply eq_None_not_Some.
      rewrite <- indexed_has_id; [|done|by eapply Hix]. by apply Hfresh.
  - rewrite Hb, lookup_insert_eq. simpl. destruct (su_free _ _ _ _ _ _ _ _ _ Hp) as (k & -> & Hk).
    rewrite (absr_length _ _ _ _ Hm), (absr_length _ _ _ _ (su_inv _ _ _ _ _ _ _ _ _ Hp)), Hk.
    rewrite length_app, length_take, length_drop. lia.
Qed.

Lemma engine_submit_unknown e s gs x o :
  engine_ok e s gs → client_order s gs x o → matchers_ e !! oinstrument o = None →
  ∃ r s' o', submit clock x e s = Some (r, e, s') ∧ r_order r = x ∧
    engine_submitted e s gs x o r e s' gs o'.
Proof.
  intros He Hc Em. unfold submit, engine_submitted. rewrite (co_at _ _ _ _ Hc), books_lookup, Em.
  assert (gs !! oinstrument o = None) as Hg.
  { apply eq_None_not_Some. rewrite (en_dom _ _ _ He), Em. by intros []. }
  rewrite Hg. simpl. unfold order_upd. rewrite (hupd_some _ _ _ _ (co_at _ _ _ _ Hc)).
  set (p' := with_storage (<[x := set_status Rejected o]> (storage_ (pool_ s))) (pool_ s)).
  assert (∀ i gi y, gs !! i = Some gi → y ∈ resting gi → storage_ p' !! y = storage_ (pool_ s) !! y) as F.
  { intros i gi y Hgi Hy. simpl. rewrite list_lookup_insert_ne; [done|]. intros <-.
    by eapply (co_out _ _ _ _ Hc). }
  assert (length (<[x := set_status Rejected o]> (storage_ (pool_ s))) = capacity (pool_ s)) as Hlen
    by apply length_insert.
  eexists _, (set_pool p' s), (set_status Rejected o). split_and!; try done.
  - destruct He as [Hp Hsl Hdj Hdom Hptr]. constructor; try done; simpl.
    + by apply pool_ok_with_storage.
    + intros i m Hm. destruct (Hsl i m Hm) as (g & Hgi & Hmi & Hi). exists g. split_and!; [done| |done].
      eapply minv_frame; [done|by apply pool_ok_with_storage|eauto|].
      intros y Hy. apply allocated_with_storage; [done|]. by apply Hmi.
  - unfold order_at. simpl. apply lookup_upd_eq. exists o. apply Hc.
  - apply Hc.
  - apply allocated_with_storage; [done|]. apply Hc.
  - intros _ i gi Hgi. by eapply (co_out _ _ _ _ Hc).
  - intros y Hyx Hout. unfold order_at. simpl. rewrite list_lookup_insert_ne by done. by split_and!.
  - intros Hix _. eapply engine_indexed_outside; [|done]. intros i g y Hg' Hy. unfold order_at. by eapply F.
  - unfold books. apply map_fmap_ext. intros i gi Hgi. apply absr_frame. eauto.
Qed.

Lemma engine_submit_spec e s gs x o :
  engine_ok e s gs → client_order s gs x o →
  ∃ r e' s' gs' o', submit clock x e s = Some (r, e', s') ∧ r_order r = x ∧
    engine_submitted e s gs x o r e' s' gs' o'.
Proof.
  intros He Hc. destruct (matchers_ e !! oinstrument o) as [m|] eqn:Em.
  - by apply (engine_submit_known e s gs x o m).
  - destruct (engine_submit_unknown e s gs x o He Hc Em) as (r & s' & o' & ?). by exists r, e, s', gs, o'.
Qed.
End engine.

Lemma cancel_post_touches p b g id x p' b' g' :
  cancel_post p b g id x p' b' g' → x ∈ resting g → only_touches p p' g [].
Proof.
  intros H Hx. constructor.
  - apply (ca_inv _ _ _ _ _ _ _ _ H).
  - apply (ca_cap _ _ _ _ _ _ _ _ H).
  - intros y Hy _. by apply (ca_frame _ _ _ _ _ _ _ _ H).
  - intros y. rewrite (ca_free _ _ _ _ _ _ _ _ H), elem_of_app, list_elem_of_singleton. naive_solver.
Qed.

Lemma cancel_spec e s gs inst id :
  engine_ok e s gs →
  ∃ ok e' s' gs', cancel inst id e s = Some (ok, e', s') ∧ engine_ok e' s' gs' ∧
    (∀ j, j ≠ inst → books s' gs' !! j = books s gs !! j) ∧
    (∀ y, (∀ i g, gs !! i = Some g → y ∉ resting g) → order_at y s' = order_at y s ∧
       (y ∈ free (pool_ s') ↔ y ∈ free (pool_ s)) ∧ (∀ i g, gs' !! i = Some g → y ∉ resting g)) ∧
    (ok = true → ∃ m, matchers_ e !! inst = Some m ∧ is_Some (order_map_ (book_ m) !! id)) ∧
    length (free (pool_ s')) = length (free (pool_ s)) + (if ok : bool then 1 else 0) ∧
    (if ok : bool then
       ∃ o a a', oid o = id ∧ books s gs !! inst = Some a ∧ a_removes o a a' ∧ books s' gs' = <[inst := a']> (books s gs)
     else books s' gs' = books s gs) ∧
    (engine_indexed e s gs → engine_indexed e' s' gs' ∧
      match books s gs !! inst with
      | Some a => books s' gs' = <[inst := a_cancel id a]> (books s gs) ∧ (ok = true ↔ has_id id a)
      | None => books s' gs' = books s gs ∧ ok = false
      end).
Proof.
  intros He. unfold cancel. destruct (matchers_ e !! inst) as [m|] eqn:Em; last first.
  { assert (gs !! inst = None) as Hg by (apply eq_None_not_Some; rewrite (en_dom _ _ _ He), Em; by intros []).
    eexists false, e, s, gs. unfold books. rewrite lookup_fmap, Hg. by split_and!. }
  destruct (en_slots _ _ _ He _ _ Em) as (g & Hg & Hm & Hinst).
  destruct (order_map_ (book_ m) !! id) as [loc|] eqn:El.
  - destruct (cancel_present id m s g loc Hm El) as (m' & s' & g' & o & -> & Ho & Hid & Hr & P).
    destruct (engine_update e s gs inst m' s' g g' []) as [Hok Hb]; try done.
    { by eapply cancel_post_touches. }
    { by intros ? ? ? ?%not_elem_of_nil. }
    { apply P. }
    { by rewrite (ca_inst _ _ _ _ _ _ _ _ P). }
    { intros y [_ Hy]%(ca_rest _ _ _ _ _ _ _ _ P). by left. }
    eexists true, _, s', _. split_and!; [done|done| | |eauto| | |].
    + intros j Hj. rewrite Hb, lookup_insert_ne by done. done.
    + intros y Hy. split_and!.
      * apply (ca_frame _ _ _ _ _ _ _ _ P). by eapply Hy.
      * rewrite (ca_free _ _ _ _ _ _ _ _ P), elem_of_app, list_elem_of_singleton.
        split; [|by left]. intros [?| ->]; [done|]. by destruct (Hy _ _ Hg).
      * intros i gi [[_ <-]|[_ Hgi]]%lookup_insert_Some; [|eauto].
        intros [_ Hy']%(ca_rest _ _ _ _ _ _ _ _ P). by destruct (Hy _ _ Hg).
    + by rewrite (ca_free _ _ _ _ _ _ _ _ P), length_app.
    + exists (data o), (absr (storage_ (pool_ s)) g), (absr (storage_ (pool_ s')) g').
      rewrite books_lookup, Hg. split_and!; [done|done|by eapply cancel_removes|exact Hb].
    + intros Hix. pose proof (Hix _ _ _ Em Hg) as Hb1. split.
      * eapply engine_indexed_update; [done|done|by eapply cancel_post_touches|by intros ? ? ? ?%not_elem_of_nil|done|].
        by apply (ca_index _ _ _ _ _ _ _ _ P).
      * unfold books at 1. rewrite lookup_fmap, Hg. simpl. rewrite Hb, (cancel_view _ _ _ _ _ _ _ _ _ Hb1 El Ho Hid P).
        split; [done|]. rewrite (indexed_has_id _ _ _ _ Hm Hb1), El. split; [eauto|done].
  - rewrite cancel_absent by done. replace (set_matcher inst m e) with e
      by (unfold set_matcher; rewrite insert_id by done; by destruct e).
    eexists false, _, s, gs. split_and!; try done. intros Hix. split; [done|].
    unfold books at 1. rewrite lookup_fmap, Hg. simpl.
    assert (¬ has_id id (absr (storage_ (pool_ s)) g)) as Hn.
    { rewrite (indexed_has_id _ _ _ _ Hm (Hix _ _ _ Em Hg)), El. by intros []. }
    rewrite a_cancel_absent by done. split; [|by split].
    symmetry. apply insert_id. unfold books. by rewrite lookup_fmap, Hg.
Qed.

(** Removing a matcher keeps the engine well formed when the orders of the
    other books are as they were. *)
Lemma engine_ok_removed e s gs id e' s' :
  engine_ok e s gs → pool_ok (pool_ s') →
  matchers_ e' = delete id (matchers_ e) → book_ptrs_ e' = delete id (book_ptrs_ e) →
  (∀ j gj y, delete id gs !! j = Some gj → y ∈ resting gj →
     storage_ (pool_ s') !! y = storage_ (pool_ s) !! y ∧ allocated (pool_ s') y) →
  engine_ok e' s' (delete id gs).
Proof.
  intros He Hp Em Eb F. constructor.
  - done.
  - intros i mi. rewrite Em. intros [Hi Hmi]%lookup_delete_Some.
    destruct (en_slots _ _ _ He _ _ Hmi) as (gi & Hgi & Hm' & ?).
    exists gi. assert (delete id gs !! i = Some gi) as Hd by by rewrite lookup_delete_ne.
    split_and!; [done| |done]. eapply minv_frame; [done|done|..]; intros y Hy; by apply (F i gi y).
  - intros i j gi gj [_ Hi]%lookup_delete_Some [_ Hj]%lookup_delete_Some. by eapply (en_disj _ _ _ He).
  - intros i. rewrite Em. destruct (decide (id = i)) as [<-|Hne].
    + rewrite !lookup_delete_eq. split; by intros [].
    + rewrite !lookup_delete_ne by done. apply He.
  - intros i k. rewrite Em, Eb. destruct (decide (id = i)) as [<-|Hne].
    + rewrite !lookup_delete_eq. split; [done|by intros [_ []]].
    + rewrite !lookup_delete_ne by done. apply He.
Qed.

(** Removing a matcher. *)
Lemma expire_spec e s gs id :
  engine_ok e s gs →
  ∃ ok e' s', expire_instrument id e s = Some (ok, e', s') ∧
    engine_ok e' s' (delete id gs) ∧
    (ok = true ↔ is_Some (matchers_ e !! id)) ∧
    matchers_ e' = delete id (matchers_ e) ∧ book_ptrs_ e' = delete id (book_ptrs_ e) ∧
    books s' (delete id gs) = delete id (books s gs) ∧
    (∀ y, (∀ i g, gs !! i = Some g → y ∉ resting g) → order_at y s' = order_at y s ∧
       (y ∈ free (pool_ s') ↔ y ∈ free (pool_ s))).
Proof.
  intros He. unfold expire_instrument. destruct (matchers_ e !! id) as [m|] eqn:Em; last first.
  { assert (gs !! id = None) as Hg.
    { apply eq_None_not_Some. rewrite (en_dom _ _ _ He), Em. by intros []. }
    assert (book_ptrs_ e !! id = None) as Hb.
    { destruct (book_ptrs_ e !! id) eqn:Eb; [|done].
      apply (en_ptrs _ _ _ He) in Eb as [_ [? ?]]. congruence. }
    assert (books s gs !! id = None) as Hbs by (unfold books; by rewrite lookup_fmap, Hg).
    eexists false, e, s. rewrite !delete_id by done. by split_and!. }
  destruct (en_slots _ _ _ He _ _ Em) as (g & Hg & Hm & Hinst).
  destruct (cancel_all_spec m s g Hm) as (p' & -> & Hp & Hf & Hc & Hout & _).
  set (hs := heads (gbids g) ++ heads (gasks g)) in *.
  assert (∀ y, y ∈ hs → y ∈ resting g) as Hhs.
  { intros y [Hy|Hy]%elem_of_app; apply heads_flat in Hy; apply elem_of_app; auto. }
  assert (∀ j gj y, delete id gs !! j = Some gj → y ∈ resting gj →
            storage_ p' !! y = storage_ (pool_ s) !! y ∧ allocated p' y) as F.
  { intros j gj y [Hij Hgj]%lookup_delete_Some Hy.
    assert (y ∉ hs) as Hn.
    { intros Hy'%Hhs. exact (en_disj _ _ _ He id j g gj Hg Hgj Hij y Hy' Hy). }
    split; [by apply Hout|]. destruct (proj1 (en_dom _ _ _ He j) ltac:(eauto)) as [mj Hmj].
    destruct (en_slots _ _ _ He _ _ Hmj) as (gj' & Hgj' & Hm' & _). simplify_eq.
    destruct (mi_alloc _ _ _ Hm' y Hy). split; [by rewrite Hc|]. rewrite Hf, elem_of_app. tauto. }
  eexists true, _, _. split_and!; [done| |split; [eauto|done]|done|done| |].
  - by eapply engine_ok_removed.
  - unfold books. rewrite <- fmap_delete. apply map_fmap_ext. intros i gi Hgi. apply absr_frame.
    intros y Hy. by apply (F i gi y).
  - intros y Hy. assert (y ∉ hs) as Hn by (intros ?%Hhs; by eapply Hy). split.
    + by apply Hout.
    + simpl. rewrite Hf, elem_of_app. tauto.
Qed.

(** ** The pool under the engine *)

(** [acquire_order] followed by the assignment [*order = o]. *)
Definition write_order (o : Order) (x : ptr) (s : Sys) : res Sys := order_upd (λ _, o) x s.

(** A change of slots that are in no book and free nothing. *)
Lemma engine_ok_outside e s gs s' :
  engine_ok e s gs → pool_ok (pool_ s') → capacity (pool_ s') = capacity (pool_ s) →
  (∀ i g y, gs !! i = Some g → y ∈ resting g →
     order_at y s' = order_at y s ∧ (y ∈ free (pool_ s') → y ∈ free (pool_ s))) →
  engine_ok e s' gs ∧ books s' gs = books s gs.
Proof.
  intros [Hp Hsl Hdj Hdom Hptr] Hp' Hc F. split.
  - constructor; try done. intros i m Hm. destruct (Hsl i m Hm) as (g & Hg & Hi & ?). exists g.
    split_and!; [done| |done]. eapply minv_frame; [done|done|..]; intros y Hy.
    + by apply (F i g y).
    + destruct (mi_alloc _ _ _ Hi y Hy) as [? Hn]. split; [by rewrite Hc|].
      intros Hf. by apply Hn, (F i g y).
  - unfold books. apply map_fmap_ext. intros i g Hg. apply absr_frame. intros y Hy. by apply (F i g y).
Qed.

Lemma acquire_order_spec e s gs :
  engine_ok e s gs →
  (free (pool_ s) = [] ∧ acquire_order s = Some (None, s)) ∨
  ∃ x s1, acquire_order s = Some (Some x, s1) ∧ free (pool_ s) = free (pool_ s1) ++ [x] ∧
    ticks_ s1 = ticks_ s ∧
    ∀ o t, qty_ok o → ∃ s2, write_order o x (mkSys (pool_ s1) t) = Some s2 ∧
      engine_ok e s2 gs ∧ client_order s2 gs x o ∧
      books s2 gs = books s gs ∧ ticks_ s2 = t ∧ free (pool_ s2) = free (pool_ s1) ∧
      capacity (pool_ s2) = capacity (pool_ s) ∧ (engine_indexed e s gs → engine_indexed e s2 gs).
Proof.
  intros He. pose proof (en_pool _ _ _ He) as Hp. unfold acquire_order.
  destruct (decide (stack_top_ (pool_ s) = 0)) as [Hz|Hz].
  { left. rewrite acquire_empty by done. split; [unfold free; by rewrite Hz|].
    by destruct s as [p t]. }
  right. destruct (acquire_spec (pool_ s) Hp Hz) as (x & p1 & -> & Hp1 & Hf & Hst & Hx).
  exists x, (set_pool p1 s). split_and!; [done|done|done|]. intros o t Hq.
  assert (capacity p1 = capacity (pool_ s)) as Hc by (unfold capacity; by rewrite Hst, length_insert).
  assert (is_Some (storage_ p1 !! x)) as [o1 Ho1] by (apply lookup_lt_is_Some; fold (capacity p1); lia).
  unfold write_order, order_upd. simpl. rewrite (hupd_some _ _ _ _ Ho1).
  set (s2 := set_pool (with_storage (<[x := o]> (storage_ p1)) p1) (mkSys p1 t)).
  assert (x ∈ free (pool_ s)) as Hxf by (rewrite Hf; set_solver).
  assert (∀ i g, gs !! i = Some g → x ∉ resting g) as Hout.
  { intros i g Hg Hr. destruct (proj1 (en_dom _ _ _ He i) ltac:(eauto)) as [m Hm].
    destruct (en_slots _ _ _ He _ _ Hm) as (g' & Hg' & Hi & _). simplify_eq.
    by destruct (mi_alloc _ _ _ Hi x Hr). }
  assert (length (<[x := o]> (storage_ p1)) = capacity p1) as Hlen by apply length_insert.
  exists s2. split; [done|].
  assert (∀ i g y, gs !! i = Some g → y ∈ resting g → order_at y s2 = order_at y s) as F.
  { intros i g y Hg Hy. assert (x ≠ y) by (intros ->; by eapply Hout).
    unfold order_at. simpl. by rewrite list_lookup_insert_ne, Hst, list_lookup_insert_ne by done. }
  destruct (engine_ok_outside e s gs s2 He) as [Hok Hb].
  - by apply pool_ok_with_storage.
  - unfold s2, capacity at 1. simpl. rewrite Hlen. exact Hc.
  - intros i g y Hg Hy. split; [by eapply F|]. unfold s2. simpl. rewrite free_with_storage, Hf. set_solver.
  - split_and!; [done| |done|done|done| |by apply engine_indexed_outside]; last first.
    { unfold s2, capacity at 1. simpl. rewrite Hlen. exact Hc. }
    constructor; [| |done|done].
    + unfold order_at. simpl. apply lookup_upd_eq. eauto.
    + apply allocated_with_storage; [done|]. split; [rewrite Hc; lia|].
      destruct Hp as (_ & _ & _ & Hnd & _). rewrite Hf in Hnd. by apply NoDup_snoc in Hnd as [_ ?].
Qed.

Lemma release_order_spec e s gs x :
  engine_ok e s gs → allocated (pool_ s) x → (∀ i g, gs !! i = Some g → x ∉ resting g) →
  ∃ s', release_order x s = Some s' ∧ engine_ok e s' gs ∧ books s' gs = books s gs ∧
    free (pool_ s') = free (pool_ s) ++ [x] ∧ ticks_ s' = ticks_ s ∧
    capacity (pool_ s') = capacity (pool_ s) ∧ (engine_indexed e s gs → engine_indexed e s' gs).
Proof.
  intros He Ha Hout. destruct (release_spec (pool_ s) x (en_pool _ _ _ He) Ha) as (p' & E & Hp & Hf & Hst).
  unfold release_order. rewrite E. exists (set_pool p' s). split; [done|].
  assert (capacity p' = capacity (pool_ s)) as Hc by (unfold capacity; by rewrite Hst).
  destruct (engine_ok_outside e s gs (set_pool p' s) He) as [Hok Hb]; [done|done| |].
  2: { split_and!; try done. apply engine_indexed_outside. intros i g y Hg Hy. unfold order_at. simpl. by rewrite Hst. }
  intros i g y Hg Hy. unfold order_at. simpl. rewrite Hst, Hf. split; [done|].
  rewrite elem_of_app, list_elem_of_singleton. intros [?| ->]; [done|]. by destruct (Hout i g Hg).
Qed.

(** ** Construction *)

Definition kept (filter : option (InstrumentId → bool)) (id : InstrumentId) : Prop :=
  match filter with None => True | Some f => f id = true end.
#[export] Instance kept_dec filter id : Decision (kept filter id).
Proof. unfold kept. destruct filter; apply _. Defined.

Lemma open_books_lookup filter specs e i :
  (∀ i, matchers_ e !! i = None ∨ matchers_ e !! i = Some (Matcher_new i)) →
  let e' := foldl (open_book filter) e specs in
  (matchers_ e' !! i = Some (Matcher_new i) ∨ matchers_ e' !! i = None) ∧
  (is_Some (matchers_ e' !! i) ↔
     is_Some (matchers_ e !! i) ∨ ∃ s, s ∈ specs ∧ sid s = i ∧ kept filter i) ∧
  ((∀ i k, book_ptrs_ e !! i = Some k ↔ k = i ∧ is_Some (matchers_ e !! i)) →
   ∀ k, book_ptrs_ e' !! i = Some k ↔ k = i ∧ is_Some (matchers_ e' !! i)).
Proof.
  revert e. induction specs as [|s specs IH]; intros e Hm; cbn [foldl].
  { cbv zeta. split_and!; [destruct (Hm i); auto| |done].
    split; [by left|]. intros [?|(? & ?%not_elem_of_nil & _)]; done. }
  cbv zeta. assert (open_book filter e s = e ∧ ¬ kept filter (sid s) ∨
    kept filter (sid s) ∧
    matchers_ (open_book filter e s) = <[sid s := Matcher_new (sid s)]> (matchers_ e) ∧
    ((∀ i k, book_ptrs_ e !! i = Some k ↔ k = i ∧ is_Some (matchers_ e !! i)) →
     ∀ i k, book_ptrs_ (open_book filter e s) !! i = Some k ↔
       k = i ∧ is_Some (matchers_ (open_book filter e s) !! i))) as Hs.
  { unfold open_book, kept. destruct (match filter with Some f => f (sid s) | None => true end) eqn:Ek; simpl.
    - right. split; [by destruct filter|].
      assert (umap_emplace (sid s) (Matcher_new (sid s)) (matchers_ e) =
              <[sid s := Matcher_new (sid s)]> (matchers_ e)) as Hu.
      { unfold umap_emplace. destruct (Hm (sid s)) as [E|E]; rewrite E; [done|]. by rewrite insert_id. }
      split; [done|]. intros Hp j k. rewrite Hu. unfold umap_emplace.
      destruct (decide (sid s = j)) as [<-|Hne].
      + rewrite lookup_insert_eq. destruct (book_ptrs_ e !! sid s) as [k'|] eqn:Eb.
        * rewrite Eb. pose proof (proj1 (Hp _ _) Eb) as [-> _]. split; [intros [= <-]; eauto|]. by intros [-> _].
        * rewrite lookup_insert_eq. split; [intros [= <-]; eauto|]. by intros [-> _].
      + rewrite lookup_insert_ne by done. destruct (book_ptrs_ e !! sid s); [apply Hp|].
        rewrite lookup_insert_ne by done. apply Hp.
    - left. split; [done|]. destruct filter; [by rewrite Ek|done]. }
  destruct Hs as [[-> Hk]|(Hk & Hme & Hpe)].
  - destruct (IH e Hm) as (H1 & H2 & H3). split_and!; [done| |done]. rewrite H2. split.
    + intros [?|(x & ? & ? & ?)]; [by left|right]. exists x. split_and!; [by right|done|done].
    + intros [?|(x & [->|Hx]%elem_of_cons & <- & Hkx)]; [by left|done|right]. eauto.
  - destruct (IH (open_book filter e s)) as (H1 & H2 & H3).
    { intros j. rewrite Hme. destruct (decide (sid s = j)) as [<-|Hne]; [right; apply lookup_insert_eq|].
      rewrite lookup_insert_ne by done. apply Hm. }
    split_and!; [done| |intros Hp; by apply H3, Hpe]. rewrite H2, Hme. split.
    + intros [Hi|(x & ? & ? & ?)]; [|right; exists x; split_and!; [by right|done|done]].
      destruct (decide (sid s = i)) as [<-|Hne]; [right; exists s; split_and!; [left|done|done]|].
      rewrite lookup_insert_ne in Hi by done. by left.
    + intros [Hi|(x & [->|Hx]%elem_of_cons & <- & Hkx)].
      * left. destruct (decide (sid s = i)) as [<-|Hne]; [rewrite lookup_insert_eq; eauto|].
        by rewrite lookup_insert_ne.
      * left. rewrite lookup_insert_eq. eauto.
      * right. eauto.
Qed.

Definition empty_ghost : GBook := mkGBook [] [].

Lemma minv_empty p id : pool_ok p → minv p (Book_new id) empty_ghost.
Proof.
  intros Hp. constructor; [done| |..].
  - split.
    + intros []; (split_and!; [constructor|constructor|apply NoDup_nil_2|]);
        by intros ? ? ?%not_elem_of_nil.
    + intros i loc. simpl. by rewrite lookup_empty.
  - by intros x o ?%not_elem_of_nil.
  - by intros x ?%not_elem_of_nil.
Qed.

Lemma engine_new_ok r filter e p t :
  Engine_new r filter = inl e → pool_ok p →
  engine_ok e (mkSys p t) ((λ _, empty_ghost) <$> matchers_ e) ∧
  (∀ i, matchers_ e !! i = Some (Matcher_new i) ∨ matchers_ e !! i = None) ∧
  (∀ i, is_Some (matchers_ e !! i) ↔ ∃ s, s ∈ instruments_ r ∧ sid s = i ∧ kept filter i).
Proof.
  unfold Engine_new. destruct (negb (frozen_ r)); [done|]. intros [= <-] Hp.
  set (e0 := mkEngine r ∅ ∅).
  assert (∀ i, matchers_ e0 !! i = None ∨ matchers_ e0 !! i = Some (Matcher_new i)) as H0 by (by left).
  assert (∀ i, _) as H by exact (λ i, open_books_lookup filter (instruments_ r) e0 i H0). cbv zeta in H.
  set (e := foldl (open_book filter) e0 (instruments_ r)) in *.
  assert (∀ i m, matchers_ e !! i = Some m → m = Matcher_new i) as Hm.
  { intros i m Hm. destruct (H i) as ([E|E] & _); congruence. }
  split_and!.
  - constructor; [done| | | |].
    + intros i m Hi. rewrite (Hm i m Hi) in *. exists empty_ghost. rewrite lookup_fmap, Hi.
      split_and!; [done|by apply minv_empty|done].
    + intros i j gi gj Hgi _ _ y Hy. apply lookup_fmap_Some in Hgi as (? & <- & _).
      by apply not_elem_of_nil in Hy.
    + intros i. by rewrite lookup_fmap, fmap_is_Some.
    + intros i k. apply (H i). intros j k'. simpl. rewrite !lookup_empty. split; [done|]. by intros [_ []].
  - intros i. apply H.
  - intros i. destruct (H i) as (_ & -> & _). simpl. rewrite lookup_empty.
    split; [|by right]. intros [[]|?]; done.
Qed.

(** ** Properties *)

(** C23: routing and isolation.  [Engine::submit] is defined on every acquired
    order.  If the order names an instrument that trades, that instrument's
    book changes as [a_submit] says and no other book changes; otherwise the
    order is rejected, without a trade, and no book changes.  An order that
    ends in a terminal status rests in no book, so it may be released. *)
Theorem engine_submit_routes clock e s gs x o :
  engine_ok e s gs → client_order s gs x o →
  ∃ r e' s' gs' o', submit clock x e s = Some (r, e', s') ∧ engine_ok e' s' gs' ∧
    order_at x s' = Some o' ∧
    (∀ j, j ≠ oinstrument o → books s' gs' !! j = books s gs !! j) ∧
    (match books s gs !! oinstrument o with
     | None => status o' = Rejected ∧ r_trades r = [] ∧ books s' gs' !! oinstrument o = None
     | Some a => ∃ a', books s' gs' !! oinstrument o = Some a' ∧
         a_submit (oinstrument o) (i64 (u64 (clock (S (ticks_ s))))) (data o) a =
           (a', data o', r_trades r)
     end) ∧
    (is_terminal o' = true → ∀ i g, gs' !! i = Some g → x ∉ resting g).
Proof.
  intros He Hc. destruct (engine_submit_spec clock e s gs x o He Hc)
    as (r & e' & s' & gs' & o' & E & _ & Hok & Ho & _ & _ & Ht & _ & _ & _ & _ & Hb).
  exists r, e', s', gs', o'. split_and!; try done.
  - intros j Hj. destruct (books s gs !! oinstrument o) as [a|].
    + destruct (a_submit _ _ _ a) as [[a' od] trs]. destruct Hb as (_ & _ & ->).
      by rewrite lookup_insert_ne.
    + by destruct Hb as (_ & _ & -> & _).
  - destruct (books s gs !! oinstrument o) as [a|] eqn:Ea.
    + destruct (a_submit _ _ _ a) as [[a' od] trs]. destruct Hb as (-> & -> & ->).
      exists a'. by rewrite lookup_insert_eq.
    + destruct Hb as (-> & -> & -> & _). by rewrite Ea.
Qed.

(** Cancellation through the engine touches the named instrument only and
    is defined for every instrument and id; in particular the answer is [false]
    for an instrument that does not trade. *)
Theorem engine_cancel_isolated e s gs inst id :
  engine_ok e s gs →
  ∃ ok e' s' gs', cancel inst id e s = Some (ok, e', s') ∧ engine_ok e' s' gs' ∧
    (∀ j, j ≠ inst → books s' gs' !! j = books s gs !! j) ∧
    (books s gs !! inst = None → ok = false).
Proof.
  intros He. destruct (cancel_spec e s gs inst id He) as (ok & e' & s' & gs' & E & Hok & Hb & _ & Hm & _).
  exists ok, e', s', gs'. split_and!; try done. intros Hn. destruct ok; [|done].
  destruct (Hm eq_refl) as (m & Hm' & _). destruct (en_slots _ _ _ He _ _ Hm') as (g & Hg & _).
  unfold books in Hn. by rewrite lookup_fmap, Hg in Hn.
Qed.

(** C24: expiry.  [Engine::expire_instrument] is defined, answers whether the
    instrument was trading and removes it: its book is gone, an order for it is
    then rejected and a cancel refused, both without a change of the engine; the
    books of all other
    instruments are as before and none of their pointers dangles. *)
Theorem engine_expire_removes clock e s gs id :
  engine_ok e s gs →
  ∃ ok e' s', expire_instrument id e s = Some (ok, e', s') ∧ engine_ok e' s' (delete id gs) ∧
    (ok = true ↔ is_Some (books s gs !! id)) ∧
    book id e' = Some None ∧
    (∀ j, j ≠ id → books s' (delete id gs) !! j = books s gs !! j ∧
       book j e' = Some (book_ <$> matchers_ e !! j)) ∧
    (∀ ord, cancel id ord e' s' = Some (false, e', s')) ∧
    (∀ x o, order_at x s' = Some o → oinstrument o = id →
       ∃ s'', submit clock x e' s' = Some (mkResult x [], e', s'') ∧
         order_at x s'' = Some (set_status Rejected o)).
Proof.
  intros He. destruct (expire_spec e s gs id He) as (ok & e' & s' & E & Hok & Hiff & Hm & Hp & Hb & _).
  exists ok, e', s'. split_and!; try done.
  - rewrite Hiff, <- (en_dom _ _ _ He). unfold books. by rewrite lookup_fmap, fmap_is_Some.
  - unfold book. by rewrite Hp, lookup_delete_eq.
  - intros j Hj. rewrite Hb, lookup_delete_ne by done. split; [done|]. unfold book.
    rewrite Hp, Hm, lookup_delete_ne by done. destruct (book_ptrs_ e !! j) as [k|] eqn:Ek.
    + apply (en_ptrs _ _ _ He) in Ek as [-> [m Hmj]]. by rewrite lookup_delete_ne, Hmj by done.
    + destruct (matchers_ e !! j) as [m|] eqn:Emj; [|done].
      assert (book_ptrs_ e !! j = Some j) by (apply (en_ptrs _ _ _ He); eauto). congruence.
  - intros ord. unfold cancel. by rewrite Hm, lookup_delete_eq.
  - intros x o Ho <-. unfold submit. rewrite Ho, Hm, lookup_delete_eq. unfold order_upd.
    rewrite (hupd_some _ _ _ _ Ho). eexists. split; [done|]. unfold order_at. simpl.
    apply lookup_upd_eq. eauto.
Qed.

(** Construction.  [Engine] refuses a registry that is not frozen;
    otherwise it opens an empty book for exactly the registered instruments
    the filter keeps, and with any well-formed pool the invariant holds. *)
Theorem engine_new_exact r filter p t :
  pool_ok p →
  match Engine_new r filter with
  | inr _ => frozen_ r = false
  | inl e => frozen_ r = true ∧
      (∃ gs, engine_ok e (mkSys p t) gs ∧ map_Forall (λ _ a, a = mkABook [] []) (books (mkSys p t) gs)) ∧
      ∀ i, book i e = Some (if decide (Exists (λ s, sid s = i ∧ kept filter i) (instruments_ r))
                            then Some (Book_new i) else None)
  end.
Proof.
  intros Hp. destruct (Engine_new r filter) as [e|err] eqn:E; last first.
  { unfold Engine_new in E. by destruct (frozen_ r). }
  destruct (engine_new_ok r filter e p t E Hp) as (Hok & Hm & Hi). split_and!.
  - unfold Engine_new in E. by destruct (frozen_ r).
  - eexists. split; [done|]. intros i a Ha. apply lookup_fmap_Some in Ha as (g & <- & Hg).
    by apply lookup_fmap_Some in Hg as (m & <- & _).
  - intros i. unfold book. destruct (book_ptrs_ e !! i) as [k|] eqn:Ek.
    + apply (en_ptrs _ _ _ Hok) in Ek as [-> Hs]. rewrite decide_True.
      * destruct Hs as [m Hs]. rewrite Hs. destruct (Hm i); congruence || (simplify_eq; done).
      * apply Hi in Hs as (s & Hs & ? & ?). apply Exists_exists. eauto.
    + rewrite decide_False; [done|]. intros (s & Hs & ? & ?)%Exists_exists.
      assert (book_ptrs_ e !! i = Some i); [|congruence]. apply (en_ptrs _ _ _ Hok). split; [done|].
      apply Hi. eauto.
Qed.

(** *** Witnesses: two equities, one order of instrument 7 in slot 3 *)

Definition ex_spec (id : InstrumentId) (sym : string) : InstrumentSpec := mkSpec id sym Equity 1 1 "USD"%string None.
Definition ex_registry : InstrumentRegistry :=
  match add_all [ex_spec 7 "AAPL"%string; ex_spec 8 "MSFT"%string] Registry_new with
  | inl r => freeze r
  | inr _ => Registry_new
  end.
Definition ex_engine : Engine :=
  match Engine_new ex_registry None with inl e => e | inr _ => mkEngine ex_registry ∅ ∅ end.
Definition ex_o : Order := mkOrder 1 100 5 0 7 1 New Buy Limit GTC 0 0 0 None None.
Definition ex_s : Sys := mkSys (mkPool [Order_init; Order_init; Order_init; ex_o] [0; 1; 2; 3] 3) 0.
Definition ex_gs : gmap Z GBook := (λ _, empty_ghost) <$> matchers_ ex_engine.

Lemma ex_pool_ok : pool_ok (pool_ ex_s).
Proof.
  split_and!; [done|unfold capacity; simpl; lia|done| |].
  - change (NoDup [0; 1; 2]). repeat constructor; set_solver.
  - unfold free, capacity. simpl. intros x Hx. assert (x = 0 ∨ x = 1 ∨ x = 2) by set_solver. lia.
Qed.

Lemma ex_engine_ok : engine_ok ex_engine ex_s ex_gs.
Proof. apply (engine_new_ok ex_registry None); [by vm_compute|apply ex_pool_ok]. Qed.

Lemma ex_client : client_order ex_s ex_gs 3 ex_o.
Proof.
  constructor; [done| | |].
  - split; [unfold capacity; simpl; lia|]. unfold free. simpl. set_solver.
  - intros i g Hg. apply lookup_fmap_Some in Hg as (? & <- & _). apply not_elem_of_nil.
  - unfold qty_ok, in_u. simpl. lia.
Qed.

Lemma engine_submit_routes_witness :
  ∃ r e' s' gs' o', submit (λ _, 0%Z) 3 ex_engine ex_s = Some (r, e', s') ∧ engine_ok e' s' gs' ∧
    order_at 3 s' = Some o' ∧
    (∀ j, j ≠ 7%Z → books s' gs' !! j = books ex_s ex_gs !! j) ∧
    (match books ex_s ex_gs !! 7%Z with
     | None => status o' = Rejected ∧ r_trades r = [] ∧ books s' gs' !! 7%Z = None
     | Some a => ∃ a', books s' gs' !! 7%Z = Some a' ∧
         a_submit 7 (i64 (u64 0)) (data ex_o) a = (a', data o', r_trades r)
     end) ∧
    (is_terminal o' = true → ∀ i g, gs' !! i = Some g → 3 ∉ resting g).
Proof.
  apply (engine_submit_routes (λ _, 0%Z) ex_engine ex_s ex_gs 3 ex_o); [apply ex_engine_ok|apply ex_client].
Defined.

Lemma engine_cancel_isolated_witness :
  ∃ ok e' s' gs', cancel 8 1 ex_engine ex_s = Some (ok, e', s') ∧ engine_ok e' s' gs' ∧
    (∀ j, j ≠ 8%Z → books s' gs' !! j = books ex_s ex_gs !! j) ∧
    (books ex_s ex_gs !! 8%Z = None → ok = false).
Proof. apply (engine_cancel_isolated ex_engine ex_s ex_gs 8 1), ex_engine_ok. Defined.

Lemma engine_expire_removes_witness :
  ∃ ok e' s', expire_instrument 7 ex_engine ex_s = Some (ok, e', s') ∧
    engine_ok e' s' (delete 7%Z ex_gs) ∧
    (ok = true ↔ is_Some (books ex_s ex_gs !! 7%Z)) ∧
    book 7 e' = Some None ∧
    (∀ j, j ≠ 7%Z → books s' (delete 7%Z ex_gs) !! j = books ex_s ex_gs !! j ∧
       book j e' = Some (book_ <$> matchers_ ex_engine !! j)) ∧
    (∀ ord, cancel 7 ord e' s' = Some (false, e', s')) ∧
    (∀ x o, order_at x s' = Some o → oinstrument o = 7%Z →
       ∃ s'', submit (λ _, 0%Z) x e' s' = Some (mkResult x [], e', s'') ∧
         order_at x s'' = Some (set_status Rejected o)).
Proof. apply (engine_expire_removes (λ _, 0%Z) ex_engine ex_s ex_gs 7), ex_engine_ok. Defined.

Lemma engine_new_exact_witness :
  match Engine_new ex_registry (Some (λ id, (id `mod` 2 =? 0)%Z)) with
  | inr _ => frozen_ ex_registry = false
  | inl e => frozen_ ex_registry = true ∧
      (∃ gs, engine_ok e ex_s gs ∧ map_Forall (λ _ a, a = mkABook [] []) (books ex_s gs)) ∧
      ∀ i, book i e =
        Some (if decide (Exists (λ s, sid s = i ∧ kept (Some (λ id, (id `mod` 2 =? 0)%Z)) i)
                           (instruments_ ex_registry))
              then Some (Book_new i) else None)
  end.
Proof.
  apply (engine_new_exact ex_registry (Some (λ id, (id `mod` 2 =? 0)%Z)) (pool_ ex_s) 0), ex_pool_ok.
Defined.

(** ** Aggregated latency *)

Lemma combine_fold (l : list (Z * Matcher)) a :
  let f := foldr (λ m a, combine a (snapshot (stats_ m.2))) a l in
  s_mean_ns f = s_mean_ns a ∧
  u64 (s_count f) = u64 (s_count a + sumZ ((λ m, count_ (stats_ m.2)) <$> l)) ∧
  s_max_ns f = foldr (λ m z, Z.max z (max_ns_ (stats_ m.2))) (s_max_ns a) l.
Proof.
  induction l as [|[i m] l IH]; [cbn; unfold sumZ; simpl; by rewrite Z.add_0_r|].
  destruct IH as (H1 & H2 & H3). cbn [foldr combine s_mean_ns s_count s_max_ns snapshot]. cbv zeta in *.
  split_and!; [done| |by rewrite H3].
  rewrite wrap_wrap, <- wrap_add_l, H2, wrap_add_l, fmap_cons. unfold sumZ. simpl. f_equal. lia.
Qed.

(** The engine-wide latency snapshot: its count is the sum of the
    matchers' counts modulo 2^64 and its maximum their maximum, whatever order
    the hash map is visited in; but its mean is 0, always. *)
Theorem latency_snapshot_mean_zero e :
  s_mean_ns (latency_snapshot e) = 0%Z ∧
  u64 (s_count (latency_snapshot e)) =
    u64 (sumZ ((λ m, count_ (stats_ m.2)) <$> map_to_list (matchers_ e))) ∧
  s_max_ns (latency_snapshot e) =
    foldr (λ m z, Z.max z (max_ns_ (stats_ m.2))) 0%Z (map_to_list (matchers_ e)).
Proof.
  unfold latency_snapshot. rewrite map_fold_foldr.
  pose proof (combine_fold (map_to_list (matchers_ e)) Snapshot_new) as H. cbv zeta in H.
  replace (foldr _ _ _) with (foldr (λ m a, combine a (snapshot (stats_ m.2))) Snapshot_new (map_to_list (matchers_ e))).
  - exact H.
  - apply foldr_ext; [by intros [] ?|done|done].
Qed.
