(* ===== verification/EndOfDay.v ===== *)
(** * End of day (src/matching/sweeper.cpp and engine.cpp)

    The sweeper's callback closes the instruments it is called for: the use the
    comment at the top of include/ordbk/matching/sweeper.hpp shows and
    tests/integration/options_e2e_test.cpp has. *)

From stdpp Require Import strings.
From S2P Require Import Prelude StdMap Types Heap Pool PriceLevel OrderBook Latency Matcher.
From S2P Require Import MatchSpec SubmitSpec CancelSpec Contract Chain Registry Sweeper Engine.







(** *** Witness: the example engine, whose instrument 7 expires first *)


