(* ===== verification/Dispatcher.v ===== *)
(** * Dispatcher (include/ordbk/gateway/dispatcher.hpp,
    src/gateway/dispatcher.cpp)

    Translates the messages of a session into engine calls and the results
    back into messages.  The handlers act on the session, the engine and the
    process state together. *)

From S2P Require Import Prelude StdMap Types Heap Pool PriceLevel OrderBook Latency Matcher.
From S2P Require Import MatchSpec SubmitSpec CancelSpec Codec Framer Session Contract Registry Engine.

Record World := mkWorld {
  session : Session;
  engine_ : Engine;
  sys : Sys }.

Definition classify (st : OrderStatus) (m : NewOrderMsg) (e : Engine) : res RejectReason :=
  if decide (st ≠ Rejected) then Some Unknown
  else
    let* b := book (no_instrument_id m) e in
    match b with
    | None => Some UnknownInstrument
    | Some _ =>
        if (no_quantity m =? 0)%Z then Some InvalidQuantity
        else if (no_order_type m =? 0)%Z && (no_price m <=? 0)%Z then Some InvalidPrice
        else if (no_order_type m =? 1)%Z && ((no_tif m =? 0)%Z || (no_tif m =? 3)%Z) then Some InvalidTif
        else if (no_tif m =? 2)%Z then Some InsufficientLiquidity
        else Some Unknown
    end.

(** [s.emit(body)] *)
Definition reply (b : MessageBody) (w : World) : res World :=
  let* s := emit b (session w) in Some (mkWorld s (engine_ w) (sys w)).

Definition handle_logon (client : Z) (w : World) : res World :=
  if decide (state_ (session w) ≠ NotLoggedOn) then Some w
  else
    let s := set_state Active (set_client client (session w)) in
    reply (LogonMsg client) (mkWorld s (engine_ w) (sys w)).

Definition handle_logout (w : World) : res World :=
  reply LogoutMsg (mkWorld (set_state Closing (session w)) (engine_ w) (sys w)).

Definition handle_heartbeat (w : World) : res World := reply HeartbeatMsg w.

(** The order a message describes. *)
Definition order_of (m : NewOrderMsg) (client enqueued : Z) : Order :=
  mkOrder (no_client_order_id m) (no_price m) (no_quantity m) kZeroQty (no_instrument_id m) client New
    (Side_of (no_side m)) (OrderType_of (no_order_type m)) (TimeInForce_of (no_tif m))
    0 enqueued 0 None None.

(** [for (const auto& t : result.trades) s.emit(FillMsg{...})] *)
Fixpoint reply_fills (id : Z) (st : OrderStatus) (trades : list Trade) (w : World) : res World :=
  match trades with
  | [] => Some w
  | t :: ts =>
      let* w' := reply (FillMsg id id (tprice t) (quantity t) (OrderStatus_code st)) w in
      reply_fills id st ts w'
  end.

Section dispatcher.
Variable clock : nat → Z.

Definition handle_new_order (m : NewOrderMsg) (w : World) : res World :=
  let id := no_client_order_id m in
  if decide (state_ (session w) ≠ Active) then reply (OrderRejectMsg id NotLoggedOn_reason) w
  else
    let* (x, s1) := acquire_order (sys w) in
    match x with
    | None => reply (OrderRejectMsg id Unknown) (mkWorld (session w) (engine_ w) s1)
    | Some x =>
        let (now, s2) := now_ns clock s1 in
        let* s3 := write_order (order_of m (client_id_ (session w)) (i64 now)) x s2 in
        let* (r, e', s4) := submit clock x (engine_ w) s3 in
        let* o := order_at (r_order r) s4 in
        let w1 := mkWorld (session w) e' s4 in
        let* w2 :=
          if decide (status o = Rejected) then
            let* reason := classify Rejected m e' in
            reply (OrderRejectMsg id reason) w1
          else
            let* w1' := reply (OrderAckMsg id id) w1 in
            reply_fills id (status o) (r_trades r) w1' in
        if is_terminal o then
          let* s5 := release_order (r_order r) (sys w2) in
          Some (mkWorld (session w2) (engine_ w2) s5)
        else Some w2
    end.

Definition handle_cancel (id inst : Z) (w : World) : res World :=
  if decide (state_ (session w) ≠ Active) then reply (OrderRejectMsg id NotLoggedOn_reason) w
  else
    let* (ok, e', s') := cancel inst id (engine_ w) (sys w) in
    let w' := mkWorld (session w) e' s' in
    if ok : bool then reply (CancelledMsg id) w' else reply (OrderRejectMsg id Unknown) w'.

(** The visitor of [pump]; outbound message types are ignored. *)
Definition handle (b : MessageBody) (w : World) : res World :=
  match b with
  | LogonMsg c => handle_logon c w
  | LogoutMsg => handle_logout w
  | HeartbeatMsg => handle_heartbeat w
  | NewOrder m => handle_new_order m w
  | CancelOrderMsg id inst => handle_cancel id inst w
  | _ => Some w
  end.

(** [pump]: one turn of the loop per unit of fuel; a turn takes at least a
    header off the inbound buffer. *)
Fixpoint pump_loop (fuel : nat) (w : World) : res World :=
  match fuel with
  | 0 => None
  | S fuel' =>
      let* (m, s) := next_inbound (session w) in
      match m with
      | None => Some (mkWorld s (engine_ w) (sys w))
      | Some m =>
          let* w' := handle (body m) (mkWorld s (engine_ w) (sys w)) in
          pump_loop fuel' w'
      end
  end.
Definition pump (w : World) : res World := pump_loop (S (length (fbuf (framer_ (session w))))) w.

(** ** Handlers *)

(** The world after some replies. *)
Definition replied (bs : list MessageBody) (w : World) : World :=
  mkWorld (emitted bs (session w)) (engine_ w) (sys w).

Lemma reply_spec b w : reply b w = Some (replied [b] w).
Proof.
  unfold reply, replied. pose proof (emit_all_spec [b] (session w)) as E. cbn [emit_all] in E.
  destruct (emit b (session w)); [|done]. by apply (inj Some) in E as ->.
Qed.

Lemma emitted_app bs1 bs2 s : emitted bs2 (emitted bs1 s) = emitted (bs1 ++ bs2) s.
Proof.
  assert (emit_all (bs1 ++ bs2) s = let* s' := emit_all bs1 s in emit_all bs2 s') as E.
  { revert s. induction bs1 as [|b bs1 IH]; intros s; cbn [emit_all app]; [done|].
    rewrite emit_spec. apply IH. }
  rewrite !emit_all_spec in E. by apply (inj Some) in E.
Qed.

Lemma replied_app bs1 bs2 w : replied bs2 (replied bs1 w) = replied (bs1 ++ bs2) w.
Proof. unfold replied. simpl. by rewrite emitted_app. Qed.

Definition fill_msg (id : Z) (st : OrderStatus) (t : Trade) : MessageBody :=
  FillMsg id id (tprice t) (quantity t) (OrderStatus_code st).

Lemma reply_fills_spec id st ts w :
  reply_fills id st ts w = Some (replied (fill_msg id st <$> ts) w).
Proof.
  revert w. induction ts as [|t ts IH]; intros w; cbn [reply_fills].
  { unfold replied, emitted, wires. simpl. rewrite app_nil_r. by destruct w as [[]]. }
  rewrite reply_spec, IH, replied_app. done.
Qed.

Lemma order_of_qty m c n : in_u 64 (no_quantity m) → qty_ok (order_of m c n).
Proof. intros [? ?]. unfold qty_ok, in_u. simpl. unfold kZeroQty. lia. Qed.

(** The reason [classify] gives for an instrument that trades. *)
Definition reject_reason (m : NewOrderMsg) : RejectReason :=
  if (no_quantity m =? 0)%Z then InvalidQuantity
  else if (no_order_type m =? 0)%Z && (no_price m <=? 0)%Z then InvalidPrice
  else if (no_order_type m =? 1)%Z && ((no_tif m =? 0)%Z || (no_tif m =? 3)%Z) then InvalidTif
  else if (no_tif m =? 2)%Z then InsufficientLiquidity
  else Unknown.

(** The replies to a new order and what becomes of the books. *)
Inductive order_outcome (m : NewOrderMsg) (ses : Session) (s : Sys) (bs : gmap Z ABook)
    : list MessageBody → gmap Z ABook → Prop :=
| oo_not_active :
    state_ ses ≠ Active →
    order_outcome m ses s bs [OrderRejectMsg (no_client_order_id m) NotLoggedOn_reason] bs
| oo_exhausted :
    state_ ses = Active → free (pool_ s) = [] →
    order_outcome m ses s bs [OrderRejectMsg (no_client_order_id m) Unknown] bs
| oo_no_instrument :
    state_ ses = Active → bs !! no_instrument_id m = None →
    order_outcome m ses s bs [OrderRejectMsg (no_client_order_id m) UnknownInstrument] bs
| oo_submitted a a' o' trs replies :
    state_ ses = Active → bs !! no_instrument_id m = Some a →
    a_submit (no_instrument_id m) (i64 (u64 (clock (S (S (ticks_ s))))))
      (order_of m (client_id_ ses) (i64 (u64 (clock (ticks_ s))))) a = (a', o', trs) →
    (if decide (status o' = Rejected)
     then replies = [OrderRejectMsg (no_client_order_id m) (reject_reason m)]
     else replies = OrderAckMsg (no_client_order_id m) (no_client_order_id m) ::
                    (fill_msg (no_client_order_id m) (status o') <$> trs)) →
    order_outcome m ses s bs replies (<[no_instrument_id m := a']> bs).

Lemma classify_known m e b :
  book (no_instrument_id m) e = Some (Some b) → classify Rejected m e = Some (reject_reason m).
Proof.
  intros Hb. unfold classify, reject_reason. rewrite decide_False by tauto. rewrite Hb.
  by repeat case_match.
Qed.

Lemma books_book e s gs i :
  engine_ok e s gs → match books s gs !! i with
                     | None => book i e = Some None
                     | Some _ => ∃ b, book i e = Some (Some b)
                     end.
Proof.
  intros He. unfold books. rewrite lookup_fmap. unfold book.
  destruct (gs !! i) as [g|] eqn:Eg; simpl.
  - destruct (proj1 (en_dom _ _ _ He i) ltac:(eauto)) as [m Hm].
    rewrite (proj2 (en_ptrs _ _ _ He i i)) by eauto. rewrite Hm. eauto.
  - destruct (book_ptrs_ e !! i) as [k|] eqn:Ek; [|done].
    apply (en_ptrs _ _ _ He) in Ek as [-> Hm%(en_dom _ _ _ He)]. rewrite Eg in Hm. by destruct Hm.
Qed.

(** *** The exchange behind the gateway *)

(** What clients can tell of the engine: the books, how many more orders there
    is room for, and how many slots are lost for ever. *)
Record Exchange := mkExchange {
  x_books : gmap Z ABook;
  x_free : nat;
  x_lost : nat }.

(** An order that never rests. *)
Definition immediate (o : Order) : bool := bool_decide (type o = Market) || bool_decide (tif o = IOC).

(** A new order: the replies and the exchange after it; [t1] and [t2] are the
    times at which it came in and at which it was matched.  Filled makers give
    their slots back, and so does an order that ends at once; one that is
    immediate and only partially filled does not. *)
Definition x_order (t1 t2 : Z) (m : NewOrderMsg) (client : Z) (X : Exchange) : list MessageBody * Exchange :=
  let id := no_client_order_id m in
  if decide (x_free X = 0) then ([OrderRejectMsg id Unknown], X)
  else
    match x_books X !! no_instrument_id m with
    | None => ([OrderRejectMsg id UnknownInstrument], X)
    | Some a =>
        let '(a', o', trs) := a_submit (no_instrument_id m) t2 (order_of m client t1) a in
        let opp := negb (is_buy (Side_of (no_side m))) in
        (if decide (status o' = Rejected) then [OrderRejectMsg id (reject_reason m)]
         else OrderAckMsg id id :: (fill_msg id (status o') <$> trs),
         mkExchange (<[no_instrument_id m := a']> (x_books X))
           (x_free X - 1 + (length (a_side opp a) - length (a_side opp a')) + (if is_terminal o' then 1 else 0))
           (x_lost X + (if negb (is_terminal o') && immediate o' then 1 else 0)))
    end.

(** The engine and the pool implement the exchange. *)
Definition x_shown (X : Exchange) (s : Sys) (gs : gmap Z GBook) : Prop :=
  x_books X = books s gs ∧ x_free X = length (free (pool_ s)).

(** No resting order of the instrument has the id of the message. *)
Definition fresh_id (m : NewOrderMsg) (bs : gmap Z ABook) : Prop :=
  ∀ a, bs !! no_instrument_id m = Some a → ¬ has_id (no_client_order_id m) a.

(** The end of the handler: the replies are out, and a terminal order's slot
    goes back to the pool. *)
Definition finish_order (x : ptr) (o' : Order) (w : World) : res World :=
  if is_terminal o' then let* s := release_order x (sys w) in Some (mkWorld (session w) (engine_ w) s)
  else Some w.

Lemma finish_order_spec bs ss e s gs x o' X' :
  engine_ok e s gs → allocated (pool_ s) x →
  (is_terminal o' = true → ∀ i g, gs !! i = Some g → x ∉ resting g) →
  x_books X' = books s gs →
  x_free X' = length (free (pool_ s)) + (if is_terminal o' then 1 else 0) →
  ∃ w', finish_order x o' (replied bs (mkWorld ss e s)) = Some w' ∧ session w' = emitted bs ss ∧
    engine_ok (engine_ w') (sys w') gs ∧ x_shown X' (sys w') gs ∧
    (engine_indexed e s gs → engine_indexed (engine_ w') (sys w') gs).
Proof.
  intros He Hal Hterm HXb HXf. unfold finish_order. destruct (is_terminal o').
  - destruct (release_order_spec _ _ _ x He Hal (Hterm eq_refl)) as (s5 & E5 & He5 & Hb5 & Hf5 & _ & _ & Hix5).
    cbn [sys replied]. rewrite E5. eexists _. split_and!; [done|done|done| |done].
    split; simpl; [congruence|]. by rewrite Hf5, length_app.
  - eexists _. split_and!; [done|done|done| |done]. split; [done|]. simpl. lia.
Qed.

Lemma handle_new_order_exchange m w gs X :
  engine_ok (engine_ w) (sys w) gs → in_u 64 (no_quantity m) → state_ (session w) = Active → x_shown X (sys w) gs →
  let '(bs, X') := x_order (i64 (u64 (clock (ticks_ (sys w))))) (i64 (u64 (clock (S (S (ticks_ (sys w)))))))
                     m (client_id_ (session w)) X in
  ∃ w' gs', handle_new_order m w = Some w' ∧ session w' = emitted bs (session w) ∧
    engine_ok (engine_ w') (sys w') gs' ∧ x_shown X' (sys w') gs' ∧
    (engine_indexed (engine_ w) (sys w) gs → fresh_id m (x_books X) → engine_indexed (engine_ w') (sys w') gs').
Proof.
  intros He Hq Hst [Xb Xf]. unfold handle_new_order, x_order. rewrite Xb, Xf.
  destruct (decide (state_ (session w) ≠ Active)) as [|_]; [done|].
  destruct (acquire_order_spec _ _ _ He) as [[Hf ->]|(x & s1 & -> & Hf & Ht1 & Hw)].
  { rewrite Hf, decide_True by done. rewrite reply_spec. eexists _, gs. by split_and!. }
  rewrite Hf, length_app, decide_False by (simpl; lia). rewrite Nat.add_sub.
  unfold now_ns. set (o := order_of m (client_id_ (session w)) (i64 (u64 (clock (ticks_ s1))))).
  destruct (Hw o (S (ticks_ s1)) (order_of_qty _ _ _ Hq)) as (s3 & -> & He3 & Hc & Hb3 & Ht3 & Hf3 & Hc3 & Hix3).
  destruct (engine_submit_spec clock _ _ _ _ _ He3 Hc)
    as (r & e' & s4 & gs' & o' & -> & Hr & He4 & Ho & Hqo & Hal & Hterm & _ & _ & Hix4 & Hf4 & Hbk).
  rewrite Hr, Ho.
  change (oinstrument o) with (no_instrument_id m) in Hbk, Hf4, Hix4. change (data o) with o in Hbk.
  change (side o) with (Side_of (no_side m)) in Hf4. rewrite Hb3, Hf3 in Hf4. rewrite Hb3 in Hix4.
  rewrite Hb3, Ht3 in Hbk. rewrite <- Ht1.
  assert (∀ bs X', x_books X' = books s4 gs' →
    x_free X' = length (free (pool_ s4)) + (if is_terminal o' then 1 else 0) →
    ∃ w' gs'', finish_order x o' (replied bs (mkWorld (session w) e' s4)) = Some w' ∧
      session w' = emitted bs (session w) ∧
      engine_ok (engine_ w') (sys w') gs'' ∧ x_shown X' (sys w') gs'' ∧
      (engine_indexed (engine_ w) (sys w) gs → fresh_id m (books (sys w) gs) →
       engine_indexed (engine_ w') (sys w') gs'')) as Hfin.
  { intros bs X' HXb HXf.
    destruct (finish_order_spec bs (session w) _ _ _ x o' X' He4 Hal Hterm HXb HXf) as (w' & ? & ? & ? & ? & Hix).
    exists w', gs'. split_and!; try done. intros Hi Hfr. apply Hix, Hix4; [by apply Hix3|done]. }
  pose proof (books_book _ _ _ (no_instrument_id m) He4) as Hbook.
  destruct (books (sys w) gs !! no_instrument_id m) as [a|] eqn:Ea.
  - fold o. destruct (a_submit (no_instrument_id m) _ o a) as [[a' od] trs] eqn:Es.
    destruct Hbk as (Htr & Hd & Hbk). rewrite Hbk, lookup_insert_eq in Hbook. destruct Hbook as [b Hbook].
    rewrite Hbk, lookup_insert_eq in Hf4.
    assert (status od = status o' ∧ is_terminal od = is_terminal o') as [-> ->] by by rewrite <- Hd.
    destruct (decide (status o' = Rejected)) as [Hrej|Hacc].
    + rewrite (classify_known m e' b Hbook), reply_spec. apply Hfin; [by rewrite Hbk|simpl; lia].
    + rewrite reply_spec, reply_fills_spec, replied_app. rewrite <- Htr. apply Hfin; [by rewrite Hbk|simpl; lia].
  - destruct Hbk as (Htr & -> & Hbk & ->). rewrite decide_True by done.
    rewrite Hbk, Ea in Hbook. unfold classify. rewrite decide_False by tauto. rewrite Hbook, reply_spec.
    apply Hfin; [by rewrite Hbk|]. rewrite Xf, Hf, length_app. simpl. lia.
Qed.

(** ... and the relation of the replies to the books alone. *)
Lemma handle_new_order_spec m w gs :
  engine_ok (engine_ w) (sys w) gs → in_u 64 (no_quantity m) →
  ∃ bs w' gs', handle_new_order m w = Some w' ∧ session w' = emitted bs (session w) ∧
    engine_ok (engine_ w') (sys w') gs' ∧
    order_outcome m (session w) (sys w) (books (sys w) gs) bs (books (sys w') gs').
Proof.
  intros He Hq. destruct (decide (state_ (session w) = Active)) as [Hst|Hst]; last first.
  { unfold handle_new_order. rewrite decide_True by done. rewrite reply_spec.
    eexists _, _, gs. split_and!; [done|done|done|]. by apply oo_not_active. }
  pose proof (handle_new_order_exchange m w gs (mkExchange (books (sys w) gs) (length (free (pool_ (sys w)))) 0) He Hq Hst) as H.
  destruct (x_order _ _ _ _ _) as [bs X'] eqn:Ex. destruct H as (w' & gs' & Hh & Hs & He' & [HXb _] & _); [by split|].
  exists bs, w', gs'. split_and!; [done|done|done|]. rewrite <- HXb. unfold x_order in Ex. simpl in Ex.
  case_decide as Hfr; [injection Ex as <- <-; apply oo_exhausted; [done|by apply nil_length_inv]|].
  destruct (books (sys w) gs !! no_instrument_id m) as [a|] eqn:Ea; [|injection Ex as <- <-; by apply oo_no_instrument].
  destruct (a_submit _ _ _ a) as [[a' o'] trs] eqn:Es. injection Ex as Ebs <-.
  eapply oo_submitted; [done|done|done|]. by case_decide.
Qed.

(** *** All messages *)

(** How a message changes the session, its replies apart. *)
Definition session_after (b : MessageBody) (s : Session) : Session :=
  match b with
  | LogonMsg c => if decide (state_ s = NotLoggedOn) then set_state Active (set_client c s) else s
  | LogoutMsg => set_state Closing s
  | _ => s
  end.

Lemma emitted_nil s : emitted [] s = s.
Proof. unfold emitted, wires. simpl. rewrite app_nil_r. by destruct s. Qed.

Lemma handle_spec b w gs :
  engine_ok (engine_ w) (sys w) gs → body_ok b →
  ∃ bs w' gs', handle b w = Some w' ∧ session w' = emitted bs (session_after b (session w)) ∧
    engine_ok (engine_ w') (sys w') gs'.
Proof.
  intros He Hb. destruct b as [c| | |m|id inst| | | |]; cbn [handle session_after];
    try (eexists [], w, gs; by rewrite emitted_nil).
  - unfold handle_logon. destruct (decide (state_ (session w) = NotLoggedOn)) as [Hs|Hs].
    + rewrite decide_False by tauto. rewrite reply_spec. by eexists _, _, gs.
    + rewrite decide_True by done. eexists [], w, gs. by rewrite emitted_nil.
  - unfold handle_logout. rewrite reply_spec. by eexists _, _, gs.
  - unfold handle_heartbeat. rewrite reply_spec. by eexists _, _, gs.
  - destruct (handle_new_order_spec m w gs He) as (bs & w' & gs' & ? & ? & ? & _); [apply Hb|].
    by exists bs, w', gs'.
  - unfold handle_cancel. destruct (decide (state_ (session w) ≠ Active)).
    { rewrite reply_spec. by eexists _, _, gs. }
    destruct (cancel_spec (engine_ w) (sys w) gs inst id He) as (ok & e' & s' & gs' & -> & Hok & _).
    destruct ok; rewrite reply_spec; by eexists _, _, gs'.
Qed.

(** *** The pump *)

Definition with_framer (f : Framer) (s : Session) : Session :=
  mkSession (session_id_ s) (state_ s) (client_id_ s) (out_seq_ s) f (outbound_ s).

Lemma session_after_emitted b bs s : session_after b (emitted bs s) = emitted bs (session_after b s).
Proof. destruct b; try done. cbn [session_after]. change (state_ (emitted bs s)) with (state_ s). by case_decide. Qed.

Lemma session_after_framer b f s : session_after b (with_framer f s) = with_framer f (session_after b s).
Proof. destruct b; try done. cbn [session_after]. change (state_ (with_framer f s)) with (state_ s). by case_decide. Qed.

Lemma session_after_same b s :
  framer_ (session_after b s) = framer_ s ∧ out_seq_ (session_after b s) = out_seq_ s ∧
  outbound_ (session_after b s) = outbound_ s.
Proof. destruct b; try done. cbn [session_after]. by case_decide. Qed.

Definition sessions_after (ms : list DecodedMessage) (s : Session) : Session :=
  foldl (λ s m, session_after (body m) s) s ms.

Lemma sessions_after_emitted ms bs s : sessions_after ms (emitted bs s) = emitted bs (sessions_after ms s).
Proof.
  unfold sessions_after. revert s. induction ms as [|m ms IH]; intros s; simpl; [done|].
  by rewrite session_after_emitted, IH.
Qed.

Lemma sessions_after_framer ms f s : sessions_after ms (with_framer f s) = with_framer f (sessions_after ms s).
Proof.
  unfold sessions_after. revert s. induction ms as [|m ms IH]; intros s; simpl; [done|].
  by rewrite session_after_framer, IH.
Qed.

Lemma next_case_body buf m f :
  Forall (in_u 8) buf → next_case buf (Some m) f →
  body_ok (body m) ∧ Forall (in_u 8) (fbuf f) ∧ error_ f = NoError ∧ length (fbuf f) < length buf.
Proof.
  intros Hb Hc. inversion Hc as [| |b Ht Hd]; subst. split_and!.
  - simpl. eapply decode_body_ok; [|exact Hd]. apply Forall_take, Forall_drop. done.
  - by apply Forall_drop.
  - done.
  - simpl. rewrite length_drop. unfold buf_total, kHeaderSize in *. lia.
Qed.

Lemma pump_loop_spec fuel w gs :
  engine_ok (engine_ w) (sys w) gs → Forall (in_u 8) (fbuf (framer_ (session w))) →
  length (fbuf (framer_ (session w))) < fuel →
  ∃ ms f bs w' gs', drain_loop fuel (framer_ (session w)) = Some (ms, f) ∧
    pump_loop fuel w = Some w' ∧ engine_ok (engine_ w') (sys w') gs' ∧
    session w' = emitted bs (with_framer f (sessions_after ms (session w))).
Proof.
  revert w gs. induction fuel as [|fuel IH]; intros w gs He Hb Hl; [lia|].
  cbn [pump_loop drain_loop]. unfold next_inbound.
  destruct (framer_ (session w)) as [buf err] eqn:Ef. cbn [fbuf] in *.
  destruct (decide (err = NoError)) as [->|Herr]; last first.
  { assert (next (mkFramer buf err) = Some (None, mkFramer buf err)) as -> by (unfold next; by rewrite decide_True).
    eexists [], _, [], _, gs. split_and!; [done|done|done|]. rewrite emitted_nil. done. }
  destruct (next_total buf) as (m & f & -> & Hc). destruct m as [m|]; last first.
  { eexists [], f, [], _, gs. split_and!; [done|done|done|]. rewrite emitted_nil. done. }
  destruct (next_case_body _ _ _ Hb Hc) as (Hok & Hb' & He' & Hlt).
  set (w1 := mkWorld (with_framer f (session w)) (engine_ w) (sys w)).
  change (mkWorld (mkSession _ _ _ _ f _) (engine_ w) (sys w)) with w1.
  destruct (handle_spec (body m) w1 gs) as (bs1 & w2 & gs2 & -> & Hs2 & He2); [done|done|].
  assert (framer_ (session w2) = f) as Hf2.
  { rewrite Hs2. simpl. by rewrite session_after_framer. }
  destruct (IH w2 gs2 He2) as (ms & f' & bs & w' & gs' & Hd & Hp & He3 & Hs3).
  { by rewrite Hf2. }
  { rewrite Hf2. lia. }
  rewrite Hf2 in Hd. rewrite Hd, Hp. eexists (m :: ms), f', (bs1 ++ bs), w', gs'.
  split_and!; [done|done|done|]. rewrite Hs3, Hs2, sessions_after_emitted.
  cbn [session w1]. rewrite session_after_framer, sessions_after_framer.
  rewrite <- emitted_app. done.
Qed.

(** ** Properties *)

(** Every new order gets its answer: outside an active session a
    [NotLoggedOn] reject and nothing else happens; with the pool exhausted a
    reject; for an unknown instrument an [UnknownInstrument] reject; otherwise
    the book changes as [a_submit] says and the client gets either one reject
    or one acknowledgement followed by one fill per trade, at the trade's price
    and quantity, in order of execution. *)
Theorem new_order_answered m w gs :
  engine_ok (engine_ w) (sys w) gs → in_u 64 (no_quantity m) →
  ∃ bs w' gs', handle (NewOrder m) w = Some w' ∧ session w' = emitted bs (session w) ∧
    engine_ok (engine_ w') (sys w') gs' ∧
    order_outcome m (session w) (sys w) (books (sys w) gs) bs (books (sys w') gs').
Proof. apply handle_new_order_spec. Qed.

(** What a list of messages does to state and client id: a logout closes the
    session for good; the first logon before it, if the session was not logged
    on, makes it active and fixes the client. *)
Fixpoint first_logon (l : list MessageBody) : option Z :=
  match l with
  | [] | LogoutMsg :: _ => None
  | LogonMsg c :: _ => Some c
  | _ :: l' => first_logon l'
  end.

#[local] Instance is_logout_dec b : Decision (b = LogoutMsg).
Proof. destruct b; by (left + right). Defined.

Definition life_state (st : State) (l : list MessageBody) : State :=
  if decide (Exists (λ b, b = LogoutMsg) l) then Closing
  else match st with
       | NotLoggedOn => match first_logon l with None => NotLoggedOn | Some _ => Active end
       | _ => st
       end.
Definition life_client (st : State) (c : Z) (l : list MessageBody) : Z :=
  match st with NotLoggedOn => default c (first_logon l) | _ => c end.

Lemma sessions_after_life ms s :
  state_ (sessions_after ms s) = life_state (state_ s) (body <$> ms) ∧
  client_id_ (sessions_after ms s) = life_client (state_ s) (client_id_ s) (body <$> ms).
Proof.
  unfold sessions_after. revert s. induction ms as [|m ms IH]; intros s.
  { unfold life_state, life_client. simpl. by destruct (state_ s). }
  rewrite fmap_cons. cbn [foldl]. destruct (IH (session_after (body m) s)) as [-> ->]. clear IH.
  unfold life_state, life_client.
  assert (∀ b, Exists (λ b, b = LogoutMsg) (b :: (body <$> ms)) ↔
               b = LogoutMsg ∨ Exists (λ b, b = LogoutMsg) (body <$> ms)) as Hex by (intros b; by rewrite Exists_cons).
  destruct (decide (Exists (λ b, b = LogoutMsg) (body <$> ms))) as [He|He];
    destruct (decide (Exists (λ b, b = LogoutMsg) (body m :: (body <$> ms)))) as [He'|He'];
    rewrite Hex in He'; try tauto;
    destruct (body m); cbn [session_after first_logon]; try destruct (state_ s) eqn:Es; simpl;
    try rewrite Es; try done; try tauto;
    destruct He' as [?|?]; done.
Qed.

(** C25: the gateway survives any input.  Whatever bytes a client has sent, as
    long as the engine is well formed [pump] is defined (no bad pointer, no
    double release) and its loop ends; the engine is well formed afterwards and
    the framer has been drained of every complete message.  Only these messages,
    in order, decide the session's state and client ([life_state],
    [life_client]): a logout closes the session from any state and for good,
    only the first logon of a session that is not logged on counts. *)
Theorem pump_total w gs :
  engine_ok (engine_ w) (sys w) gs → Forall (in_u 8) (fbuf (framer_ (session w))) →
  ∃ ms f bs w' gs', drain (framer_ (session w)) = Some (ms, f) ∧
    pump w = Some w' ∧ engine_ok (engine_ w') (sys w') gs' ∧
    session w' = emitted bs (with_framer f (sessions_after ms (session w))) ∧
    state_ (session w') = life_state (state_ (session w)) (body <$> ms) ∧
    client_id_ (session w') = life_client (state_ (session w)) (client_id_ (session w)) (body <$> ms).
Proof.
  intros He Hb. destruct (pump_loop_spec (S (length (fbuf (framer_ (session w))))) w gs He Hb)
    as (ms & f & bs & w' & gs' & Hd & Hp & He' & Hs); [lia|].
  exists ms, f, bs, w', gs'. split_and!; [done|done|done|done|..]; rewrite Hs; apply sessions_after_life.
Qed.

(** The enumerators behind the tests of [classify]. *)
Lemma OrderType_tests b :
  bool_decide (OrderType_of b = Limit) = (b =? 0)%Z ∧ bool_decide (OrderType_of b = Market) = (b =? 1)%Z.
Proof. unfold OrderType_of. destruct (Z.eqb_spec b 0), (Z.eqb_spec b 1); try lia; done. Qed.

Lemma TimeInForce_tests b :
  bool_decide (TimeInForce_of b = GTC) = (b =? 0)%Z ∧ bool_decide (TimeInForce_of b = FOK) = (b =? 2)%Z ∧
  bool_decide (TimeInForce_of b = Day) = (b =? 3)%Z.
Proof.
  unfold TimeInForce_of. destruct (Z.eqb_spec b 0), (Z.eqb_spec b 1), (Z.eqb_spec b 2), (Z.eqb_spec b 3);
    try lia; done.
Qed.

(** An order that is matched is not rejected. *)
Lemma a_settle_not_rejected tm o a a' o' : a_settle tm o a = (a', o') → status o' ≠ Rejected.
Proof. unfold a_settle. repeat case_match; by intros [= <- <-]. Qed.

(** Which test failed when the book refuses the order of a message. *)
Lemma reject_reason_cases m client n tm a a' o' trs :
  a_submit (no_instrument_id m) tm (order_of m client n) a = (a', o', trs) →
  status o' = Rejected →
  (reject_reason m = InvalidQuantity ∧ no_quantity m = 0%Z) ∨
  (reject_reason m = InvalidPrice ∧ no_order_type m = 0%Z ∧ (no_price m ≤ 0)%Z) ∨
  (reject_reason m = InvalidTif ∧ no_order_type m = 1%Z ∧ (no_tif m = 0%Z ∨ no_tif m = 3%Z)) ∨
  (reject_reason m = InsufficientLiquidity ∧ no_tif m = 2%Z ∧
   (qty_total (crossing (order_of m client n) (a_side (negb (is_buy (Side_of (no_side m)))) a)) <
    remaining (order_of m client n))%Z).
Proof.
  unfold a_submit, reject_reason, invalid. set (o := order_of m client n).
  destruct (OrderType_tests (no_order_type m)) as [HL HM].
  destruct (TimeInForce_tests (no_tif m)) as (HG & HF & HD).
  change (type o) with (OrderType_of (no_order_type m)). change (tif o) with (TimeInForce_of (no_tif m)).
  change (limit_price o) with (no_price m). change (initial_qty o) with (no_quantity m).
  change (oinstrument o) with (no_instrument_id m). change (side o) with (Side_of (no_side m)).
  rewrite HL, HM, HG, HF, HD, Z.eqb_refl. cbn [negb orb].
  destruct (Z.eqb_spec (no_quantity m) 0) as [?|_]; [by auto|]. cbn [orb].
  destruct ((no_order_type m =? 0)%Z && (no_price m <=? 0)%Z) eqn:E1; [zbool; by auto|]. cbn [orb].
  destruct ((no_order_type m =? 1)%Z && ((no_tif m =? 0)%Z || (no_tif m =? 3)%Z)) eqn:E2.
  { intros _ _. right; right; left. apply andb_true_iff in E2 as [? E2]. zbool.
    apply orb_true_iff in E2 as [E2|E2]; zbool; auto. }
  destruct (no_tif m =? 2)%Z eqn:E3; cbn [andb].
  - match goal with |- context [negb (?x <=? ?y)%Z] => destruct (Z.leb_spec x y) end; cbn [negb].
    + destruct (fills _ _) as [[? ?] ?]. destruct (a_settle _ _ _) eqn:Ea. intros [= <- <- <-].
      by apply a_settle_not_rejected in Ea.
    + intros _ _. zbool. auto 10.
  - destruct (fills _ _) as [[? ?] ?]. destruct (a_settle _ _ _) eqn:Ea. intros [= <- <- <-].
    by apply a_settle_not_rejected in Ea.
Qed.

(** Rejects are explained: when the book of a trading instrument
    refuses the order of a message, the reason [classify] sends is never [Unknown], and it names the test that failed: a
    zero quantity, a limit price that is not positive, a market order with a
    resting time in force, or a fill-or-kill order without enough liquidity. *)
Theorem reject_reason_accurate m client n tm a a' o' trs e b :
  book (no_instrument_id m) e = Some (Some b) →
  a_submit (no_instrument_id m) tm (order_of m client n) a = (a', o', trs) →
  status o' = Rejected →
  ∃ reason, classify Rejected m e = Some reason ∧
  ((reason = InvalidQuantity ∧ no_quantity m = 0%Z) ∨
   (reason = InvalidPrice ∧ no_order_type m = 0%Z ∧ (no_price m ≤ 0)%Z) ∨
   (reason = InvalidTif ∧ no_order_type m = 1%Z ∧ (no_tif m = 0%Z ∨ no_tif m = 3%Z)) ∨
   (reason = InsufficientLiquidity ∧ no_tif m = 2%Z ∧
    (qty_total (crossing (order_of m client n) (a_side (negb (is_buy (Side_of (no_side m)))) a)) <
     remaining (order_of m client n))%Z)).
Proof.
  intros Hb Ha Hr. exists (reject_reason m). split; [by eapply classify_known|].
  by eapply reject_reason_cases.
Qed.
End dispatcher.

(** *** Witnesses *)

Definition ex_clock0 (n : nat) : Z := Z.of_nat n.

(** A logon, then a byte that is not a header yet. *)
Definition ex_world : World :=
  mkWorld (on_bytes (wire 1 (LogonMsg 9) ++ [255%Z]) (Session_new 1)) ex_engine ex_s.

Lemma ex_world_bytes : Forall (in_u 8) (fbuf (framer_ (session ex_world))).
Proof.
  change (Forall (in_u 8) (wire 1 (LogonMsg 9) ++ [255%Z])). apply Forall_app. split.
  - apply wire_bytes; unfold in_u; simpl; unfold in_u; lia.
  - repeat constructor; lia.
Qed.

Lemma pump_total_witness :
  ∃ ms f bs w' gs', drain (framer_ (session ex_world)) = Some (ms, f) ∧
    pump ex_clock0 ex_world = Some w' ∧ engine_ok (engine_ w') (sys w') gs' ∧
    session w' = emitted bs (with_framer f (sessions_after ms (session ex_world))) ∧
    state_ (session w') = life_state NotLoggedOn (body <$> ms) ∧
    client_id_ (session w') = life_client NotLoggedOn 0 (body <$> ms).
Proof. apply (pump_total ex_clock0 ex_world ex_gs); [apply ex_engine_ok|apply ex_world_bytes]. Defined.

Definition ex_new (id side_ tif_ px q : Z) : NewOrderMsg := mkNewOrder id 7 side_ 0 tif_ px q.

Lemma new_order_answered_witness :
  ∃ bs w' gs', handle ex_clock0 (NewOrder (ex_new 5 0 0 100 10)) ex_world = Some w' ∧
    session w' = emitted bs (session ex_world) ∧
    engine_ok (engine_ w') (sys w') gs' ∧
    order_outcome ex_clock0 (ex_new 5 0 0 100 10) (session ex_world) ex_s (books ex_s ex_gs) bs
      (books (sys w') gs').
Proof.
  apply (new_order_answered ex_clock0 (ex_new 5 0 0 100 10) ex_world ex_gs);
    [apply ex_engine_ok|unfold in_u; simpl; lia].
Defined.

Lemma reject_reason_accurate_witness :
  ∃ reason, classify Rejected (ex_new 5 0 2 100 10) ex_engine = Some reason ∧
    let m := ex_new 5 0 2 100 10 in
    ((reason = InvalidQuantity ∧ no_quantity m = 0%Z) ∨
     (reason = InvalidPrice ∧ no_order_type m = 0%Z ∧ (no_price m ≤ 0)%Z) ∨
     (reason = InvalidTif ∧ no_order_type m = 1%Z ∧ (no_tif m = 0%Z ∨ no_tif m = 3%Z)) ∨
     (reason = InsufficientLiquidity ∧ no_tif m = 2%Z ∧
      (qty_total (crossing (order_of m 9 0) (a_side (negb (is_buy (Side_of (no_side m)))) (mkABook [] []))) <
       remaining (order_of m 9 0))%Z)).
Proof.
  eapply (reject_reason_accurate (ex_new 5 0 2 100 10) 9 0 0 (mkABook [] []) _ _ _ ex_engine (Book_new 7));
    reflexivity.
Defined.

(** ** The slot of a partially filled immediate order *)

(** A logged-on session over a pool of two slots, which sells 1 at 100 and then
    buys 2 at 100, immediate or cancel. *)
Definition leak_world : World :=
  mkWorld (on_bytes (wire 1 (LogonMsg 9) ++ wire 2 (NewOrder (ex_new 1 1 0 100 1)) ++
                     wire 3 (NewOrder (ex_new 2 0 1 100 2))) (Session_new 1))
    ex_engine (mkSys (Pool_new 2) 0).

(** A partially filled immediate-or-cancel order keeps its slot for ever:
    in this session both orders are done, the book is empty and the client has
    been told so (two acknowledgements and a fill with status
    [PartiallyFilled]), but only one of the two slots is free again. *)
Theorem immediate_partial_fill_leaks :
  ∃ w' b, pump ex_clock0 leak_world = Some w' ∧
    book 7 (engine_ w') = Some (Some b) ∧ bids_ b = [] ∧ asks_ b = [] ∧ order_count b = 0 ∧
    capacity (pool_ (sys w')) = 2 ∧ length (free (pool_ (sys w'))) = 1 ∧
    outbound_ (session w') = wires [(1, LogonMsg 9); (2, OrderAckMsg 1 1); (3, OrderAckMsg 2 2);
                                    (4, FillMsg 2 2 100 1 (OrderStatus_code PartiallyFilled))]%Z.
Proof.
  assert (match pump ex_clock0 leak_world with
          | Some w' =>
              match book 7 (engine_ w') with
              | Some (Some b) =>
                  bool_decide (bids_ b = []) && bool_decide (asks_ b = []) && bool_decide (order_count b = 0) &&
                  bool_decide (capacity (pool_ (sys w')) = 2) && bool_decide (length (free (pool_ (sys w'))) = 1) &&
                  bool_decide (outbound_ (session w') =
                    wires [(1, LogonMsg 9); (2, OrderAckMsg 1 1); (3, OrderAckMsg 2 2);
                           (4, FillMsg 2 2 100 1 (OrderStatus_code PartiallyFilled))]%Z)
              | _ => false
              end
          | None => false
          end = true) as H by by vm_compute.
  destruct (pump ex_clock0 leak_world) as [w'|]; [|done].
  destruct (book 7 (engine_ w')) as [[b|]|] eqn:Eb; try done. exists w', b.
  rewrite !andb_true_iff, !bool_decide_eq_true in H. naive_solver.
Qed.
