(* ===== verification/Spsc.v ===== *)
(** * Single-producer single-consumer ring (include/ordbk/utils/spsc_ring_buffer.hpp)

    [push] and [pop] as the threads run them: each atomic load, each atomic
    store and each access to the buffer is a step, and the steps of the two
    threads interleave.  An atomic variable is the list of the values it has
    held, newest last.  A thread reads its own variable as it last wrote it; an
    acquire load of the other thread's variable may return any value that is
    not older than the last one this thread has seen.  Accesses to the buffer
    are ordinary memory accesses: that no two of them conflict is proved. *)

From S2P Require Import Prelude.

Section ring.
Context {T : Type}.
Variable log_cap : nat.

(** A power of two that is at least 2, as the two [static_assert]s demand. *)
Definition Capacity : Z := (2 ^ (Z.of_nat log_cap + 1))%Z.
Definition kMask : Z := (Capacity - 1)%Z.

(** Where a thread is inside [push] ... *)
Inductive PushPc :=
  | P_idle
  | P_called (v : T)
  | P_tail (v : T) (tail : Z)
  | P_write (v : T) (tail next : Z)
  | P_store (v : T) (next : Z).

(** ... and inside [pop]. *)
Inductive PopPc :=
  | C_idle
  | C_called
  | C_head (head : Z)
  | C_read (head : Z)
  | C_store (head : Z) (out : T).

Record Ring := mkRing {
  head_mo : list Z;
  tail_mo : list Z;
  buffer : list (option T);
  p_view : nat;
  c_view : nat;
  push_pc : PushPc;
  pop_pc : PopPc;
  pushed : list T;
  popped : list T }.

Definition Ring_new : Ring :=
  mkRing [0%Z] [0%Z] (replicate (Z.to_nat Capacity) None) 0 0 P_idle C_idle [] [].

Inductive push_step : Ring → Ring → Prop :=
| push_call h t b pv cv c ps qs v :
    push_step (mkRing h t b pv cv P_idle c ps qs) (mkRing h t b pv cv (P_called v) c ps qs)
| push_load_tail h t b pv cv c ps qs v tail :
    last t = Some tail →
    push_step (mkRing h t b pv cv (P_called v) c ps qs) (mkRing h t b pv cv (P_tail v tail) c ps qs)
| push_full h t b pv cv c ps qs v tail k hd :
    pv ≤ k → h !! k = Some hd → Z.land (tail + 1) kMask = hd →
    push_step (mkRing h t b pv cv (P_tail v tail) c ps qs) (mkRing h t b k cv P_idle c ps qs)
| push_room h t b pv cv c ps qs v tail k hd :
    pv ≤ k → h !! k = Some hd → Z.land (tail + 1) kMask ≠ hd →
    push_step (mkRing h t b pv cv (P_tail v tail) c ps qs)
      (mkRing h t b k cv (P_write v tail (Z.land (tail + 1) kMask)) c ps qs)
| push_write h t b pv cv c ps qs v tail next :
    push_step (mkRing h t b pv cv (P_write v tail next) c ps qs)
      (mkRing h t (<[Z.to_nat tail := Some v]> b) pv cv (P_store v next) c ps qs)
| push_store h t b pv cv c ps qs v next :
    push_step (mkRing h t b pv cv (P_store v next) c ps qs)
      (mkRing h (t ++ [next]) b pv cv P_idle c (ps ++ [v]) qs).

(** [out = std::move(buffer_[head])] needs a value there: a read of a slot
    that holds none, or that is outside of the array, has no step. *)
Inductive pop_step : Ring → Ring → Prop :=
| pop_call h t b pv cv p ps qs :
    pop_step (mkRing h t b pv cv p C_idle ps qs) (mkRing h t b pv cv p C_called ps qs)
| pop_load_head h t b pv cv p ps qs hd :
    last h = Some hd →
    pop_step (mkRing h t b pv cv p C_called ps qs) (mkRing h t b pv cv p (C_head hd) ps qs)
| pop_empty h t b pv cv p ps qs hd k tl :
    cv ≤ k → t !! k = Some tl → hd = tl →
    pop_step (mkRing h t b pv cv p (C_head hd) ps qs) (mkRing h t b pv k p C_idle ps qs)
| pop_some h t b pv cv p ps qs hd k tl :
    cv ≤ k → t !! k = Some tl → hd ≠ tl →
    pop_step (mkRing h t b pv cv p (C_head hd) ps qs) (mkRing h t b pv k p (C_read hd) ps qs)
| pop_read h t b pv cv p ps qs hd v :
    b !! Z.to_nat hd = Some (Some v) →
    pop_step (mkRing h t b pv cv p (C_read hd) ps qs) (mkRing h t b pv cv p (C_store hd v) ps qs)
| pop_store h t b pv cv p ps qs hd v :
    pop_step (mkRing h t b pv cv p (C_store hd v) ps qs)
      (mkRing (h ++ [Z.land (hd + 1) kMask]) t b pv cv p C_idle ps (qs ++ [v])).

Definition ring_step (r r' : Ring) : Prop := push_step r r' ∨ pop_step r r'.

(** [empty()] and [approx_size()] for loads that see [h] and [t]. *)
Definition ring_empty (h t : Z) : bool := (h =? t)%Z.
Definition approx_size (h t : Z) : Z := Z.land (u64 (t - h)%Z) kMask.
Definition usable : Z := (Capacity - 1)%Z.

(** ** Indices *)

(** The index after [n] operations. *)
Definition idx (n : nat) : Z := (Z.of_nat n `mod` Capacity)%Z.

Lemma Capacity_ge : (2 ≤ Capacity)%Z.
Proof.
  unfold Capacity. rewrite Z.pow_add_r by lia. change (2 ^ 1)%Z with 2%Z.
  pose proof (Z.pow_pos_nonneg 2 (Z.of_nat log_cap)). lia.
Qed.

Lemma land_mask z : Z.land z kMask = (z `mod` Capacity)%Z.
Proof.
  unfold kMask, Capacity. rewrite <- Z.land_ones by lia. f_equal. rewrite Z.ones_equiv. lia.
Qed.

Lemma idx_next n : Z.land (idx n + 1) kMask = idx (S n).
Proof.
  rewrite land_mask. unfold idx. pose proof Capacity_ge. rewrite Zplus_mod_idemp_l. f_equal. lia.
Qed.

Lemma idx_bound n : (0 ≤ idx n < Capacity)%Z.
Proof. pose proof Capacity_ge. apply Z.mod_pos_bound. lia. Qed.

Lemma idx_turn n : idx (n + Z.to_nat Capacity) = idx n.
Proof.
  unfold idx. pose proof Capacity_ge. rewrite Nat2Z.inj_add, Z2Nat.id by lia.
  rewrite <- (Z.mul_1_l Capacity) at 1. apply Z_mod_plus_full.
Qed.

(** Within one turn of the ring, equal indices are the same position. *)
Lemma idx_inj n m : (Z.abs (Z.of_nat n - Z.of_nat m) < Capacity)%Z → idx n = idx m → n = m.
Proof.
  unfold idx. intros Ha E. pose proof Capacity_ge.
  pose proof (Z.div_mod (Z.of_nat n) Capacity ltac:(lia)). pose proof (Z.div_mod (Z.of_nat m) Capacity ltac:(lia)).
  assert (Z.of_nat n / Capacity = Z.of_nat m / Capacity)%Z by nia. lia.
Qed.

(** ** Invariant *)

(** The views bound what a thread may rely on: the producer has seen the
    consumer finish [p_view] pops, the consumer has seen the producer finish
    [c_view] pushes. *)
Record ring_inv (r : Ring) : Prop := {
  ri_head : head_mo r = idx <$> seq 0 (S (length (popped r)));
  ri_tail : tail_mo r = idx <$> seq 0 (S (length (pushed r)));
  ri_fifo : popped r `prefix_of` pushed r;
  ri_room : (Z.of_nat (length (pushed r)) < Z.of_nat (p_view r) + Capacity)%Z;
  ri_len : length (buffer r) = Z.to_nat Capacity;
  ri_buf : ∀ i v, length (popped r) ≤ i → pushed r !! i = Some v →
    buffer r !! Z.to_nat (idx i) = Some (Some v);
  ri_pview : p_view r ≤ length (popped r);
  ri_cview : length (popped r) ≤ c_view r ≤ length (pushed r);
  ri_push : match push_pc r with
    | P_idle | P_called _ => True
    | P_tail _ tail => tail = idx (length (pushed r))
    | P_write _ tail next =>
        tail = idx (length (pushed r)) ∧ next = idx (S (length (pushed r))) ∧
        (Z.of_nat (length (pushed r)) + 1 < Z.of_nat (p_view r) + Capacity)%Z
    | P_store v next =>
        next = idx (S (length (pushed r))) ∧
        buffer r !! Z.to_nat (idx (length (pushed r))) = Some (Some v) ∧
        (Z.of_nat (length (pushed r)) + 1 < Z.of_nat (p_view r) + Capacity)%Z
    end;
  ri_pop : match pop_pc r with
    | C_idle | C_called => True
    | C_head hd => hd = idx (length (popped r))
    | C_read hd => hd = idx (length (popped r)) ∧ length (popped r) < c_view r
    | C_store hd v =>
        hd = idx (length (popped r)) ∧ length (popped r) < c_view r ∧
        pushed r !! length (popped r) = Some v
    end }.

Lemma ring_inv_new : ring_inv Ring_new.
Proof.
  pose proof Capacity_ge.
  assert (idx 0 = 0%Z) as E0 by (unfold idx; apply Z.mod_0_l; lia).
  split; simpl; rewrite ?E0; try done; try lia.
  by rewrite length_replicate.
Qed.

(** A variable's history, read at one place and at its end. *)
Lemma hist_lookup n k z : (idx <$> seq 0 (S n)) !! k = Some z → k ≤ n ∧ z = idx k.
Proof.
  rewrite list_lookup_fmap. intros (x & Hx%lookup_seq & ->)%fmap_Some_1. lia || (destruct Hx as [-> ?]; split; [lia|done]).
Qed.

Lemma hist_last n z : last (idx <$> seq 0 (S n)) = Some z → z = idx n.
Proof. rewrite seq_S, fmap_app. change (idx <$> [0 + n]) with [idx n]. rewrite last_snoc. congruence. Qed.

Lemma hist_snoc n : (idx <$> seq 0 (S n)) ++ [idx (S n)] = idx <$> seq 0 (S (S n)).
Proof. by rewrite (seq_S (S n)), fmap_app. Qed.

Lemma push_step_inv r r' : ring_inv r → push_step r r' → ring_inv r'.
Proof.
  intros [Hh Ht Hf Hr Hl Hb Hp Hc Hpu Hpo] St. pose proof Capacity_ge.
  destruct St; simpl in *; subst.
  - by split.
  - split; simpl; try done. by apply hist_last.
  - apply hist_lookup in H1 as [??]. split; simpl; try done; lia.
  - apply hist_lookup in H1 as [Hk ->]. rewrite idx_next in H2 |- *.
    pose proof (prefix_length _ _ Hf).
    split; simpl; try done; try lia. repeat split.
    destruct (decide (Z.of_nat (S (length ps)) = Z.of_nat k + Capacity)%Z) as [E|]; [|lia].
    destruct H2. rewrite <- (idx_turn k). f_equal. lia.
  - destruct Hpu as (-> & -> & Hroom). pose proof (idx_bound (length ps)).
    split; simpl; try done; rewrite ?length_insert; try done.
    + intros i w Hi Hw. pose proof (lookup_lt_Some _ _ _ Hw). rewrite list_lookup_insert_ne; [auto|].
      intros E. pose proof (idx_bound i).
      assert (length ps = i) by (apply idx_inj; lia). lia.
    + repeat split; try done. apply list_lookup_insert_eq. lia.
  - destruct Hpu as (-> & Hv & Hroom).
    split; simpl; rewrite ?length_app, ?Nat.add_1_r; simpl; try done; try lia.
    + apply hist_snoc.
    + by apply prefix_app_r.
    + intros i w Hi [Hw|[Hge Hw]]%lookup_app_Some; [auto|].
      apply list_lookup_singleton_Some in Hw as [E ->]. by replace i with (length ps) by lia.
    + destruct c; try done. destruct Hpo as (-> & ? & ?). repeat split; try done.
      by apply lookup_app_l_Some.
Qed.

Lemma pop_step_inv r r' : ring_inv r → pop_step r r' → ring_inv r'.
Proof.
  intros [Hh Ht Hf Hr Hl Hb Hp Hc Hpu Hpo] St. pose proof Capacity_ge.
  destruct St; simpl in *; subst.
  - by split.
  - split; simpl; try done. by apply hist_last.
  - apply hist_lookup in H1 as [??]. split; simpl; try done; lia.
  - apply hist_lookup in H1 as [Hk ->].
    split; simpl; try done; try lia. split; [done|].
    destruct (decide (k = length qs)) as [->|]; [done|lia].
  - destruct Hpo as [-> Hlt].
    destruct (lookup_lt_is_Some_2 ps (length qs)) as [w Hw]; [lia|].
    rewrite (Hb _ _ (le_n _) Hw) in H0. assert (w = v) as <- by congruence.
    by split; simpl.
  - destruct Hpo as (-> & Hlt & Hv).
    split; simpl; rewrite ?length_app, ?Nat.add_1_r; simpl; try done; try lia.
    + rewrite idx_next. apply hist_snoc.
    + destruct Hf as [x ->]. rewrite lookup_app_r, Nat.sub_diag in Hv by lia.
      destruct x as [|y x]; [done|]. simpl in Hv. assert (y = v) as -> by congruence.
      exists x. by rewrite <- app_assoc.
    + intros i w Hi. apply Hb. lia.
Qed.

Lemma ring_reachable_inv r : rtc ring_step Ring_new r → ring_inv r.
Proof.
  apply rtc_invariant; [|exact ring_inv_new].
  intros a b Ha [St|St]; eauto using push_step_inv, pop_step_inv.
Qed.

(** ** Observers *)

Lemma approx_size_idx a b :
  log_cap < 63 → a ≤ b → (Z.of_nat b < Z.of_nat a + Capacity)%Z →
  approx_size (idx a) (idx b) = (Z.of_nat b - Z.of_nat a)%Z.
Proof.
  intros Hlog Hab Hlt. pose proof Capacity_ge. unfold approx_size, wrap. rewrite land_mask.
  assert (Capacity | 2 ^ 64)%Z as Hdiv.
  { exists (2 ^ (64 - (Z.of_nat log_cap + 1)))%Z. unfold Capacity.
    rewrite <- Z.pow_add_r by lia. f_equal. lia. }
  rewrite Z.mod_mod_divide by done.
  unfold idx. rewrite <- Zminus_mod. apply Z.mod_small. lia.
Qed.

Lemma hist_last_eq n : last (idx <$> seq 0 (S n)) = Some (idx n).
Proof.
  rewrite seq_S, fmap_app. change (idx <$> [0 + n]) with [idx n]. by rewrite last_snoc.
Qed.

(** C33: For every interleaving of the two threads, whatever stale values the
    acquire loads return: the values popped are a prefix of the values pushed,
    in order and each once; at most [capacity() = Capacity - 1] values are in
    the ring; [approx_size] and [empty] on the current indices are exact. *)
Theorem ring_fifo r :
  log_cap < 63 → rtc ring_step Ring_new r →
  popped r `prefix_of` pushed r ∧
  (Z.of_nat (length (pushed r)) - Z.of_nat (length (popped r)) ≤ usable)%Z ∧
  ∃ h t, last (head_mo r) = Some h ∧ last (tail_mo r) = Some t ∧
    approx_size h t = (Z.of_nat (length (pushed r)) - Z.of_nat (length (popped r)))%Z ∧
    (ring_empty h t = true ↔ pushed r = popped r).
Proof.
  intros Hlog Hr. apply ring_reachable_inv in Hr as [Hh Ht Hf Hr Hl Hb Hp Hc Hpu Hpo].
  pose proof (prefix_length _ _ Hf). unfold usable.
  split; [done|]. split; [lia|].
  exists (idx (length (popped r))), (idx (length (pushed r))).
  rewrite Hh, Ht, !hist_last_eq. split; [done|]. split; [done|].
  split; [apply approx_size_idx; lia|].
  unfold ring_empty. rewrite Z.eqb_eq. split; [|congruence].
  intros E%idx_inj; [|lia]. destruct Hf as [x Hx]. rewrite Hx in E |- *.
  rewrite length_app in E. destruct x; [by rewrite app_nil_r|simpl in E; lia].
Qed.

(** C34: The ring never reads a slot without a value and its two threads
    never touch one slot at the same time: a read by [pop] finds the oldest
    value not yet popped, whose push this thread has seen finished; a write by
    [push] is inside the array and over a slot whose last pop this thread has
    seen finished; when both are about to happen their slots differ.  Moreover
    [push] reports full only when all the pops it has seen leave [Capacity - 1]
    values, and [pop] reports empty only when it has seen no further push. *)
Theorem ring_race_free r :
  rtc ring_step Ring_new r →
  (∀ hd, pop_pc r = C_read hd →
    length (popped r) < c_view r ∧
    ∃ v, pushed r !! length (popped r) = Some v ∧ buffer r !! Z.to_nat hd = Some (Some v)) ∧
  (∀ v tail next, push_pc r = P_write v tail next →
    Z.to_nat tail < length (buffer r) ∧
    (Z.of_nat (length (pushed r)) < Z.of_nat (p_view r) + usable)%Z) ∧
  (∀ v tail next hd, push_pc r = P_write v tail next → pop_pc r = C_read hd → tail ≠ hd) ∧
  (∀ r' v tail, push_step r r' → push_pc r = P_tail v tail → push_pc r' = P_idle →
    Z.of_nat (length (pushed r)) = (Z.of_nat (p_view r') + usable)%Z) ∧
  (∀ r' hd, pop_step r r' → pop_pc r = C_head hd → pop_pc r' = C_idle →
    c_view r' = length (popped r)).
Proof.
  intros Hr. apply ring_reachable_inv in Hr as [Hh Ht Hf Hr Hl Hb Hp Hc Hpu Hpo].
  pose proof (prefix_length _ _ Hf). pose proof Capacity_ge. unfold usable.
  split; [|split; [|split; [|split]]].
  - intros hd E. rewrite E in Hpo. destruct Hpo as [-> Hlt]. split; [done|].
    destruct (lookup_lt_is_Some_2 (pushed r) (length (popped r))) as [v Hv]; [lia|].
    exists v. auto.
  - intros v tail next E. rewrite E in Hpu. destruct Hpu as (-> & -> & ?).
    pose proof (idx_bound (length (pushed r))). lia.
  - intros v tail next hd E E'. rewrite E in Hpu. rewrite E' in Hpo.
    destruct Hpu as (-> & -> & ?), Hpo as [-> ?]. intros Ei%idx_inj; lia.
  - intros r' v tail St E E'. destruct St; simplify_eq/=.
    apply hist_lookup in H2 as [Hk Ei]. rewrite idx_next in Ei.
    destruct (decide (Z.of_nat (S (length ps)) < Z.of_nat k + Capacity)%Z) as [Hlt|]; [|lia].
    apply idx_inj in Ei; lia.
  - intros r' hd St E E'. destruct St; simplify_eq/=.
    apply hist_lookup in H2 as [Hk Ei]. apply idx_inj in Ei; lia.
Qed.
(** ** Progress *)

(** The steps a call has left, at most. *)
Definition push_left (pc : PushPc) : nat :=
  match pc with P_idle => 0 | P_called _ => 4 | P_tail _ _ => 3 | P_write _ _ _ => 2 | P_store _ _ => 1 end.
Definition pop_left (pc : PopPc) : nat :=
  match pc with C_idle => 0 | C_called => 4 | C_head _ => 3 | C_read _ => 2 | C_store _ _ => 1 end.

Lemma hist_at n k : k ≤ n → (idx <$> seq 0 (S n)) !! k = Some (idx k).
Proof. intros H. rewrite list_lookup_fmap, lookup_seq_lt by lia. done. Qed.

Lemma push_enabled r : ring_inv r → push_pc r ≠ P_idle → ∃ r', push_step r r'.
Proof.
  destruct r as [h t b pv cv p c ps qs]. intros [Hh Ht Hf Hr Hl Hb Hp Hc Hpu Hpo] Hn. simpl in *.
  destruct p as [|v|v tail|v tail next|v next]; [done| | |eexists; by constructor..].
  - eexists. apply push_load_tail. rewrite Ht. apply hist_last_eq.
  - assert (h !! length qs = Some (idx (length qs))) as Hk by (rewrite Hh; by apply hist_at).
    destruct (decide (Z.land (tail + 1) kMask = idx (length qs))); eexists;
      [by eapply push_full|by eapply push_room].
Qed.

(** A [pop] that reads the newest tail; if something is there it is found. *)
Lemma pop_enabled r :
  ring_inv r → pop_pc r ≠ C_idle →
  ∃ r', pop_step r r' ∧ (∀ hd, pop_pc r = C_head hd → popped r ≠ pushed r → pop_pc r' = C_read hd).
Proof.
  destruct r as [h t b pv cv p c ps qs]. intros [Hh Ht Hf Hr Hl Hb Hp Hc Hpu Hpo] Hn. simpl in *.
  destruct c as [| |hd|hd|hd v]; [done|..].
  - eexists. split; [|done]. apply pop_load_head. rewrite Hh. apply hist_last_eq.
  - assert (t !! length ps = Some (idx (length ps))) as Hk by (rewrite Ht; by apply hist_at).
    destruct (decide (hd = idx (length ps))) as [E|E].
    + eexists. split; [eapply pop_empty; [|exact Hk|exact E]; lia|]. intros ? [= <-] Hne. destruct Hne.
      subst hd. apply idx_inj in E; [|pose proof (prefix_length _ _ Hf); lia].
      destruct Hf as [z ->]. rewrite length_app in E. rewrite (nil_length_inv z) by lia. by rewrite app_nil_r.
    + eexists. split; [eapply pop_some; [|exact Hk|exact E]; lia|]. by intros ? [= <-] _.
  - destruct Hpo as [-> Hlt]. destruct (lookup_lt_is_Some_2 ps (length qs)) as [v Hv]; [lia|].
    eexists. split; [|done]. apply (pop_read _ _ _ _ _ _ _ _ _ v). by apply Hb.
  - eexists. split; [|done]. apply pop_store.
Qed.

Lemma push_step_left r r' :
  push_step r r' →
  (push_pc r = P_idle ∧ push_left (push_pc r') = 4 ∨ push_left (push_pc r') < push_left (push_pc r)) ∧
  pop_pc r' = pop_pc r.
Proof. intros []; simpl; (split; [|done]); first [by left|right; lia]. Qed.

Lemma pop_step_left r r' :
  pop_step r r' →
  (pop_pc r = C_idle ∧ pop_left (pop_pc r') = 4 ∨ pop_left (pop_pc r') < pop_left (pop_pc r)) ∧
  push_pc r' = push_pc r.
Proof. intros []; simpl; (split; [|done]); first [by left|right; lia]. Qed.

(** Both operations of the ring are wait-free: a call of [push] or [pop]
    that has begun can always go on, whatever the other thread is doing and
    wherever it has been stopped; it begins with four steps left, each step of
    its own thread leaves fewer, and a step of the other thread does not change
    where it is. *)
Theorem ring_wait_free r :
  rtc ring_step Ring_new r →
  (push_pc r ≠ P_idle → ∃ r', push_step r r') ∧
  (pop_pc r ≠ C_idle → ∃ r', pop_step r r') ∧
  (∀ r', push_step r r' →
    (push_pc r = P_idle ∧ push_left (push_pc r') = 4 ∨ push_left (push_pc r') < push_left (push_pc r)) ∧
    pop_pc r' = pop_pc r) ∧
  (∀ r', pop_step r r' →
    (pop_pc r = C_idle ∧ pop_left (pop_pc r') = 4 ∨ pop_left (pop_pc r') < pop_left (pop_pc r)) ∧
    push_pc r' = push_pc r).
Proof.
  intros Hr%ring_reachable_inv. split_and!; [by apply push_enabled| |apply push_step_left|apply pop_step_left].
  intros Hn. destruct (pop_enabled r Hr Hn) as (r' & ? & _). by exists r'.
Qed.
End ring.

(** ** A run of a ring of capacity 2: one push, and a pop up to its read *)

Definition demo_ring : Ring (T:=Z) :=
  mkRing [0%Z] [0%Z; 1%Z] [Some 7%Z; None] 0 1 P_idle (C_read 0) [7%Z] [].

Lemma demo_run : rtc (ring_step 0) (Ring_new 0) demo_ring.
Proof.
  eapply rtc_l; [left; apply push_call with (v:=7%Z)|].
  eapply rtc_l; [left; by apply push_load_tail|].
  eapply rtc_l; [left; by apply push_room with (k:=0) (hd:=0%Z)|].
  eapply rtc_l; [left; apply push_write|].
  eapply rtc_l; [left; apply push_store|].
  eapply rtc_l; [right; apply pop_call|].
  eapply rtc_l; [right; by apply pop_load_head|].
  eapply rtc_l; [right; apply pop_some with (k:=1) (tl:=1%Z); [lia|done|done]|].
  apply rtc_refl.
Qed.

Lemma ring_fifo_witness :
  popped demo_ring `prefix_of` pushed demo_ring ∧
  (Z.of_nat (length (pushed demo_ring)) - Z.of_nat (length (popped demo_ring)) ≤ usable 0)%Z.
Proof.
  destruct (ring_fifo 0 demo_ring) as (Hp & Hs & _); [lia|exact demo_run|]. split; [exact Hp|exact Hs].
Defined.

Lemma ring_race_free_witness : ∃ v, buffer demo_ring !! 0 = Some (Some v).
Proof.
  destruct (ring_race_free 0 demo_ring demo_run) as (Hread & _).
  destruct (Hread 0%Z eq_refl) as (_ & v & _ & Hb). exists v. exact Hb.
Defined.

(** The consumer before its read of the value it has found. *)
Lemma ring_wait_free_witness : ∃ r', pop_step 0 demo_ring r'.
Proof. apply (ring_wait_free 0 demo_ring); [exact demo_run|done]. Defined.
