(* ===== verification/Sharded.v ===== *)
(** * The sharded engine (include/ordbk/matching/sharded_engine.hpp,
    src/matching/sharded_engine.cpp)

    [num_shards] worker threads, each with an [Engine] for the instruments of
    its residue class and a ring of commands, over one pool.  The threads
    interleave: each atomic access of a ring, each access of a counter or of
    the stop flag and each pool operation is a step; running one command
    through the shard's engine is a step of its own, since it touches only the
    order it was handed and what the shard's own books own, and the pool's
    operations are atomic ([PoolLock]).  [Workers] has the commands of different
    shards run at the same time.

    The orders that clients hold between [acquire_order] and [submit] and the
    sequence of the commands run so far are part of the state but not of the
    program: they say who owns a slot, and what the single engine of the
    refinement theorem runs. *)

From S2P Require Import Prelude StdMap Types Heap Pool PriceLevel OrderBook Latency Matcher.
From S2P Require Import MatchSpec SubmitSpec CancelSpec Contract Chain Registry Engine Spsc.

Inductive Kind := Submit | Cancel.

Record Command := mkCommand {
  kind : Kind;
  cinstrument : InstrumentId;
  order_id : OrderId;
  corder : option ptr }.

(** 4096 slots: [Capacity = 2 ^ (11 + 1)]. *)
Definition kQueueLog : nat := 11.
Definition kQueueCapacity : Z := Capacity kQueueLog.

(** Where a client thread is inside [submit] or [cancel]. *)
Inductive ProducerPc := A_idle | A_push (cmd : Command) | A_count.

(** Where the worker is inside [run_shard]; the flag tells the loop that
    drains leftovers from the main loop. *)
Inductive WorkerPc :=
  | W_head
  | W_pop (draining : bool)
  | W_run (draining : bool) (cmd : Command)
  | W_done (draining : bool)
  | W_exit.

(** [stop] is [Some n] once the flag is set, [n] being the number of pushes
    the thread that set it had seen. *)
Record Shard := mkShard {
  queue : Ring (T:=Command);
  sengine : Engine;
  submitted : Z;
  processed : Z;
  stop : option nat;
  producer : ProducerPc;
  worker : WorkerPc }.

Record Sharded := mkSharded {
  shards_ : list Shard;
  sh_sys : Sys;
  held : list ptr;
  log : list Command }.

Definition shard_for (n : nat) (id : InstrumentId) : nat := Z.to_nat (id `mod` Z.of_nat n)%Z.

(** The filter of shard [i]. *)
Definition shard_filter (n i : nat) (id : InstrumentId) : bool := (shard_for n id =? i)%nat.

Inductive ShardedError := NoShards | NotFrozen.

Definition Shard_new (r : InstrumentRegistry) (n i : nat) : Shard + EngineError :=
  match Engine_new r (Some (shard_filter n i)) with
  | inl e => inl (mkShard (Ring_new kQueueLog) e 0 0 None A_idle W_head)
  | inr err => inr err
  end.

Fixpoint Shards_new (r : InstrumentRegistry) (n : nat) (ids : list nat) : list Shard + EngineError :=
  match ids with
  | [] => inl []
  | i :: ids' =>
      match Shard_new r n i, Shards_new r n ids' with
      | inl sh, inl shs => inl (sh :: shs)
      | inr err, _ | _, inr err => inr err
      end
  end.

Definition Sharded_new (r : InstrumentRegistry) (n pool_capacity : nat) : Sharded + ShardedError :=
  if decide (n = 0) then inr NoShards
  else if negb (frozen_ r) then inr NotFrozen
  else
    match Shards_new r n (seq 0 n) with
    | inl shs => inl (mkSharded shs (mkSys (Pool_new pool_capacity) 0) [] [])
    | inr _ => inr NotFrozen
    end.

(** [book(id)]; [None] is an index outside of [shards_]. *)
Definition sharded_book (id : InstrumentId) (st : Sharded) : res (option OrderBook) :=
  let* sh := shards_ st !! shard_for (length (shards_ st)) id in
  book id (sengine sh).

(** The test of [wait_idle]'s loop. *)
Definition all_done (st : Sharded) : bool :=
  forallb (λ sh, (submitted sh =? processed sh)%Z) (shards_ st).

(** The commands [submit] and [cancel] push. *)
Definition submit_command (x : ptr) (o : Order) : Command :=
  mkCommand Submit (oinstrument o) (oid o) (Some x).
Definition cancel_command (inst : InstrumentId) (id : OrderId) : Command :=
  mkCommand Cancel inst id None.

Definition with_queue (q : Ring) (sh : Shard) : Shard :=
  mkShard q (sengine sh) (submitted sh) (processed sh) (stop sh) (producer sh) (worker sh).
Definition with_producer (a : ProducerPc) (sh : Shard) : Shard :=
  mkShard (queue sh) (sengine sh) (submitted sh) (processed sh) (stop sh) a (worker sh).
Definition with_worker (w : WorkerPc) (sh : Shard) : Shard :=
  mkShard (queue sh) (sengine sh) (submitted sh) (processed sh) (stop sh) (producer sh) w.

(** An acquire load of the flag: the worker now sees these pushes. *)
Definition see_pushes {T} (n : nat) (q : Ring (T:=T)) : Ring :=
  mkRing (head_mo q) (tail_mo q) (buffer q) (p_view q) (Nat.max (c_view q) n)
    (push_pc q) (pop_pc q) (pushed q) (popped q).

Section sharded.
Variable clock : nat → Z.

(** The body of the worker's loops. *)
Definition process (cmd : Command) (e : Engine) (s : Sys) : res (Engine * Sys) :=
  match kind cmd with
  | Submit =>
      let* x := corder cmd in
      let* (r, e', s1) := submit clock x e s in
      let* o := order_at (r_order r) s1 in
      if is_terminal o then
        let* s2 := release_order (r_order r) s1 in Some (e', s2)
      else Some (e', s1)
  | Cancel =>
      let* (_, e', s') := cancel (cinstrument cmd) (order_id cmd) e s in Some (e', s')
  end.

(** Steps inside one shard: the slots given back to the client, and the
    commands run. *)
Inductive shard_step : Shard → Sys → list ptr → list Command → Shard → Sys → Prop :=
| sp_push sh s cmd q' :
    producer sh = A_push cmd → push_step kQueueLog (queue sh) q' → push_pc q' ≠ P_idle →
    shard_step sh s [] [] (with_queue q' sh) s
| sp_full sh s cmd q' :
    producer sh = A_push cmd → push_step kQueueLog (queue sh) q' → push_pc q' = P_idle →
    pushed q' = pushed (queue sh) →
    shard_step sh s (option_list (corder cmd)) [] (with_producer A_idle (with_queue q' sh)) s
| sp_pushed sh s cmd q' :
    producer sh = A_push cmd → push_step kQueueLog (queue sh) q' → push_pc q' = P_idle →
    pushed q' ≠ pushed (queue sh) →
    shard_step sh s [] [] (with_producer A_count (with_queue q' sh)) s
| sp_count sh s :
    producer sh = A_count →
    shard_step sh s [] []
      (mkShard (queue sh) (sengine sh) (u64 (submitted sh + 1)) (processed sh) (stop sh) A_idle (worker sh)) s
| sp_stop sh s :
    producer sh = A_idle → stop sh = None →
    shard_step sh s [] []
      (mkShard (queue sh) (sengine sh) (submitted sh) (processed sh)
         (Some (length (pushed (queue sh)))) A_idle (worker sh)) s
| sw_loop sh s :
    worker sh = W_head → shard_step sh s [] [] (with_worker (W_pop false) sh) s
| sw_stopped sh s n :
    worker sh = W_head → stop sh = Some n →
    shard_step sh s [] [] (with_worker (W_pop true) (with_queue (see_pushes n (queue sh)) sh)) s
| sw_pop sh s d q' :
    worker sh = W_pop d → pop_step kQueueLog (queue sh) q' → pop_pc q' ≠ C_idle →
    shard_step sh s [] [] (with_queue q' sh) s
| sw_empty sh s d q' :
    worker sh = W_pop d → pop_step kQueueLog (queue sh) q' → pop_pc q' = C_idle →
    popped q' = popped (queue sh) →
    shard_step sh s [] [] (with_worker (if d : bool then W_exit else W_head) (with_queue q' sh)) s
| sw_got sh s d q' cmd :
    worker sh = W_pop d → pop_step kQueueLog (queue sh) q' → pop_pc q' = C_idle →
    popped q' = popped (queue sh) ++ [cmd] →
    shard_step sh s [] [] (with_worker (W_run d cmd) (with_queue q' sh)) s
| sw_run sh s d cmd e' s' :
    worker sh = W_run d cmd → process cmd (sengine sh) s = Some (e', s') →
    shard_step sh s [] [cmd]
      (mkShard (queue sh) e' (submitted sh) (processed sh) (stop sh) (producer sh) (W_done d)) s'
| sw_count sh s d :
    worker sh = W_done d →
    shard_step sh s [] []
      (mkShard (queue sh) (sengine sh) (submitted sh) (u64 (processed sh + 1)) (stop sh) (producer sh)
         (if d : bool then W_pop true else W_head)) s.

Inductive step : Sharded → Sharded → Prop :=
| st_acquire shs s hs l x s' :
    acquire_order s = Some (Some x, s') →
    step (mkSharded shs s hs l) (mkSharded shs s' (x :: hs) l)
| st_write shs s hs l x o s' :
    x ∈ hs → qty_ok o → write_order o x s = Some s' →
    step (mkSharded shs s hs l) (mkSharded shs s' hs l)
| st_submit shs s hs1 hs2 l x o sh q' :
    order_at x s = Some o →
    shs !! shard_for (length shs) (oinstrument o) = Some sh →
    producer sh = A_idle → push_step kQueueLog (queue sh) q' →
    push_pc q' = P_called (submit_command x o) →
    step (mkSharded shs s (hs1 ++ x :: hs2) l)
      (mkSharded (<[shard_for (length shs) (oinstrument o) :=
                     with_producer (A_push (submit_command x o)) (with_queue q' sh)]> shs)
         s (hs1 ++ hs2) l)
| st_cancel shs s hs l inst id sh q' :
    shs !! shard_for (length shs) inst = Some sh →
    producer sh = A_idle → push_step kQueueLog (queue sh) q' →
    push_pc q' = P_called (cancel_command inst id) →
    step (mkSharded shs s hs l)
      (mkSharded (<[shard_for (length shs) inst :=
                     with_producer (A_push (cancel_command inst id)) (with_queue q' sh)]> shs) s hs l)
| st_shard shs s hs l i sh sh' back ran s' :
    shs !! i = Some sh → shard_step sh s back ran sh' s' →
    step (mkSharded shs s hs l) (mkSharded (<[i := sh']> shs) s' (back ++ hs) (l ++ ran)).

(** The single engine the shards implement: one thread, all instruments. *)
Inductive seq_step : Engine * Sys * list Command → Engine * Sys * list Command → Prop :=
| seq_acquire e s l x s' :
    acquire_order s = Some (Some x, s') → seq_step (e, s, l) (e, s', l)
| seq_write e s l x o s' :
    qty_ok o → write_order o x s = Some s' → seq_step (e, s, l) (e, s', l)
| seq_run e s l cmd e' s' :
    process cmd e s = Some (e', s') → seq_step (e, s, l) (e', s', l ++ [cmd]).

(** ** One command, on a shard's engine and on the single engine *)

(** Shard [i]'s engine holds what the single engine [U] holds for the
    instruments of its class, and nothing else. *)
Definition agree (n i : nat) (e U : Engine) : Prop := ∀ id,
  if decide (shard_for n id = i)
  then matchers_ e !! id = matchers_ U !! id ∧ book_ptrs_ e !! id = book_ptrs_ U !! id
  else matchers_ e !! id = None.

(** A command on its way: a submission owns an acquired order, whose instrument
    it names. *)
Definition cmd_ready (s : Sys) (gs : gmap Z GBook) (cmd : Command) : Prop :=
  match corder cmd with
  | None => kind cmd = Cancel
  | Some x => kind cmd = Submit ∧ ∃ o, client_order s gs x o ∧ oinstrument o = cinstrument cmd
  end.

Lemma agree_at n i e U id :
  agree n i e U → shard_for n id = i →
  matchers_ e !! id = matchers_ U !! id ∧ book_ptrs_ e !! id = book_ptrs_ U !! id.
Proof. intros H E. specialize (H id). by rewrite decide_True in H. Qed.

Lemma agree_set n i e U id m :
  agree n i e U → shard_for n id = i → agree n i (set_matcher id m e) (set_matcher id m U).
Proof.
  intros H E j. specialize (H j). cbn [set_matcher matchers_ book_ptrs_].
  destruct (decide (id = j)) as [<-|Hne].
  - rewrite decide_True in H |- * by done. rewrite !lookup_insert_eq. by destruct H.
  - by rewrite !lookup_insert_ne by done.
Qed.

Lemma agree_set_other n j e U id m :
  agree n j e U → shard_for n id ≠ j → agree n j e (set_matcher id m U).
Proof.
  intros H E k. specialize (H k). cbn [set_matcher matchers_ book_ptrs_].
  destruct (decide (id = k)) as [<-|Hne].
  - by destruct (decide (shard_for n id = j)).
  - by rewrite lookup_insert_ne by done.
Qed.

Lemma process_agree n i e U s gs cmd U' s' :
  agree n i e U → shard_for n (cinstrument cmd) = i → cmd_ready s gs cmd →
  process cmd U s = Some (U', s') →
  ∃ e', process cmd e s = Some (e', s') ∧ agree n i e' U' ∧
    ∀ j ej, j ≠ i → agree n j ej U → agree n j ej U'.
Proof.
  intros Ha Hi Hr. unfold process, cmd_ready in *. destruct (corder cmd) as [x|].
  - destruct Hr as [-> (o & [Hat _ _ _] & Ho)]. unfold submit. rewrite Hat. rewrite <- Ho in Hi.
    destruct (agree_at _ _ _ _ _ Ha Hi) as [-> _].
    destruct (matchers_ U !! oinstrument o) as [m|] eqn:Em.
    + destruct (Matcher.submit clock x m s) as [[[r m'] s1]|]; [|done].
      destruct (order_at (r_order r) s1) as [o'|]; [|done].
      destruct (is_terminal o'); [destruct (release_order (r_order r) s1) as [s2|]; [|done]|];
        (intros [= <- <-]; eexists; split_and!; [done|by apply agree_set|]; intros j ej Hj Hej;
         apply agree_set_other; [done|congruence]).
    + destruct (order_upd (set_status Rejected) x s) as [s1|]; [|done]. simpl.
      destruct (order_at x s1) as [o'|]; [|done].
      destruct (is_terminal o'); [destruct (release_order x s1) as [s2|]; [|done]|];
        (intros [= <- <-]; eexists; by split_and!).
  - rewrite Hr. unfold cancel. destruct (agree_at _ _ _ _ _ Ha Hi) as [-> _].
    destruct (matchers_ U !! cinstrument cmd) as [m|] eqn:Em; [|intros [= <- <-]; eexists; by split_and!].
    destruct (Matcher.cancel (order_id cmd) m s) as [[[ok m'] s1]|]; [|done].
    intros [= <- <-]. eexists. split_and!; [done|by apply agree_set|]. intros j ej Hj Hej.
    apply agree_set_other; [done|congruence].
Qed.

Lemma client_order_frame s gs s' gs' y o :
  client_order s gs y o → order_at y s' = order_at y s →
  (y ∈ free (pool_ s') → y ∈ free (pool_ s)) → outside gs' y → client_order s' gs' y o.
Proof.
  intros [Hat [Hc Hf] Hout Hq] E F O. constructor; [congruence| |done|done].
  split; [|tauto]. unfold capacity. apply lookup_lt_is_Some. unfold order_at in *. rewrite E, Hat. eauto.
Qed.

Lemma release_order_at x s s' y : release_order x s = Some s' → order_at y s' = order_at y s.
Proof.
  unfold release_order, release. destruct (bool_decide _); [|done]. intros E. apply (inj Some) in E.
  by subst s'.
Qed.

Lemma process_spec U s gs cmd :
  engine_ok U s gs → cmd_ready s gs cmd →
  ∃ U' s' gs', process cmd U s = Some (U', s') ∧ engine_ok U' s' gs' ∧
    ∀ y o, corder cmd ≠ Some y → client_order s gs y o → client_order s' gs' y o.
Proof.
  intros He Hr. unfold process, cmd_ready in *. destruct (corder cmd) as [x|].
  - destruct Hr as [-> (o & Hc & _)].
    destruct (engine_submit_spec clock U s gs x o He Hc)
      as (r & U' & s1 & gs' & o' & -> & Hro & Hok & Ho & _ & Hal & Hterm & Hfr & _).
    rewrite Hro, Ho.
    assert (∀ y oy, Some x ≠ Some y → client_order s gs y oy → client_order s1 gs' y oy) as Hcl.
    { intros y oy Hxy Hy. destruct (Hfr y) as (? & ? & ?); [congruence|exact (co_out _ _ _ _ Hy)|].
      by eapply client_order_frame. }
    destruct (is_terminal o') eqn:Et; [|by exists U', s1, gs'].
    destruct (release_order_spec U' s1 gs' x Hok Hal (Hterm eq_refl)) as (s2 & E2 & Hok2 & _ & Hf2 & _ & _).
    rewrite E2. exists U', s2, gs'. split_and!; [done|done|]. intros y oy Hxy Hy.
    specialize (Hcl y oy Hxy Hy). eapply (client_order_frame s1 gs'); [done| | |exact (co_out _ _ _ _ Hcl)].
    + by apply (release_order_at x).
    + rewrite Hf2, elem_of_app, list_elem_of_singleton. intros [?|?]; [done|congruence].
  - rewrite Hr.
    destruct (cancel_spec U s gs (cinstrument cmd) (order_id cmd) He) as (ok & U' & s' & gs' & -> & Hok & _ & Hfr & _).
    exists U', s', gs'. split_and!; [done|done|]. intros y oy _ Hy.
    destruct (Hfr y (co_out _ _ _ _ Hy)) as (? & ? & ?). eapply client_order_frame; [done|done|tauto|done].
Qed.

(** ** One shard *)

(** The value a call of [push] carries. *)
Definition push_value {T} (pc : PushPc (T:=T)) : option T :=
  match pc with
  | P_idle => None
  | P_called v | P_tail v _ | P_write v _ _ | P_store v _ => Some v
  end.

Lemma push_step_frame (q q' : Ring (T:=Command)) v :
  push_step kQueueLog q q' → push_value (push_pc q) = Some v →
  popped q' = popped q ∧ pop_pc q' = pop_pc q ∧ c_view q' = c_view q ∧
  ((push_value (push_pc q') = Some v ∧ pushed q' = pushed q) ∨
   (push_pc q' = P_idle ∧ (pushed q' = pushed q ∨ pushed q' = pushed q ++ [v]))).
Proof. intros [] E; simpl in *; simplify_eq; auto 10. Qed.

Lemma push_call_frame (q q' : Ring (T:=Command)) v :
  push_step kQueueLog q q' → push_pc q' = P_called v →
  popped q' = popped q ∧ pop_pc q' = pop_pc q ∧ c_view q' = c_view q ∧ pushed q' = pushed q.
Proof. intros [] E; simpl in *; by simplify_eq. Qed.

Lemma pop_step_frame (q q' : Ring (T:=Command)) :
  pop_step kQueueLog q q' →
  pushed q' = pushed q ∧ push_pc q' = push_pc q ∧ c_view q ≤ c_view q' ∧
  (pop_pc q' ≠ C_idle → popped q' = popped q).
Proof. intros []; simpl; naive_solver. Qed.

(** The commands in the hands of the worker and of the producer, and all the
    commands between the client and the engine. *)
Definition in_hand (w : WorkerPc) : list Command :=
  match w with W_run _ cmd => [cmd] | _ => [] end.
Definition in_push (a : ProducerPc) : list Command :=
  match a with A_push cmd => [cmd] | _ => [] end.
Definition flight (sh : Shard) : list Command :=
  in_hand (worker sh) ++ drop (length (popped (queue sh))) (pushed (queue sh)) ++ in_push (producer sh).

Definition draining (w : WorkerPc) : bool :=
  match w with W_pop d | W_run d _ | W_done d => d | W_head => false | W_exit => true end.

(** [done] is what the worker of shard [i] has run. *)
Record shard_ok (n i : nat) (sh : Shard) (done : list Command) : Prop := {
  so_ring : ring_inv kQueueLog (queue sh);
  so_prod : push_value (push_pc (queue sh)) = head (in_push (producer sh));
  so_work : (∀ d, worker sh ≠ W_pop d) → pop_pc (queue sh) = C_idle;
  so_popped : popped (queue sh) = done ++ in_hand (worker sh);
  so_sub : submitted sh = u64 (Z.of_nat (length (pushed (queue sh))) -
    match producer sh with A_count => 1 | _ => 0 end);
  so_proc : processed sh = u64 (Z.of_nat (length done) - match worker sh with W_done _ => 1 | _ => 0 end);
  so_class : Forall (λ c, shard_for n (cinstrument c) = i) (pushed (queue sh) ++ in_push (producer sh));
  so_stop : ∀ k, stop sh = Some k → k ≤ length (pushed (queue sh));
  so_drain : draining (worker sh) = true → ∃ k, stop sh = Some k ∧ k ≤ c_view (queue sh);
  so_exit : worker sh = W_exit → ∃ k, stop sh = Some k ∧ k ≤ length (popped (queue sh)) }.

Lemma see_pushes_inv k (q : Ring (T:=Command)) :
  ring_inv kQueueLog q → k ≤ length (pushed q) → ring_inv kQueueLog (see_pushes k q).
Proof.
  intros [Hh Ht Hf Hr Hl Hb Hp Hc Hpu Hpo] Hk. split; simpl; try done; [lia|].
  destruct (pop_pc q); try done.
  - destruct Hpo. split; [done|lia].
  - destruct Hpo as (? & ? & ?). split_and!; [done|lia|done].
Qed.

(** A turn of [pop] that finds the queue empty has seen every push it knows of. *)
Lemma pop_empty_view (q q' : Ring (T:=Command)) :
  ring_inv kQueueLog q → pop_step kQueueLog q q' → pop_pc q' = C_idle → popped q' = popped q →
  c_view q' = length (popped q').
Proof.
  intros Hi St E Ep. destruct St; simpl in *; try done.
  - destruct Hi as [Hh Ht Hf Hr Hl Hb Hp Hc Hpu Hpo]. simpl in *. subst.
    apply hist_lookup in H0 as [Hk Ei]. pose proof (prefix_length _ _ Hf).
    apply idx_inj in Ei; pose proof (Capacity_ge kQueueLog); lia.
  - exfalso. apply (f_equal length) in Ep. rewrite length_app in Ep. simpl in Ep. lia.
Qed.

Lemma drop_pop {A} (l k : list A) x : l ++ [x] `prefix_of` k → drop (length l) k = x :: drop (length (l ++ [x])) k.
Proof. intros [z ->]. by rewrite (drop_app_length (l ++ [x]) z), <- app_assoc, drop_app_length. Qed.

Lemma producer_step_ok n i sh done cmd q' :
  shard_ok n i sh done → producer sh = A_push cmd → push_step kQueueLog (queue sh) q' →
  (push_pc q' ≠ P_idle → shard_ok n i (with_queue q' sh) done ∧ flight (with_queue q' sh) = flight sh) ∧
  (push_pc q' = P_idle → pushed q' = pushed (queue sh) →
     shard_ok n i (with_producer A_idle (with_queue q' sh)) done ∧
     flight sh = flight (with_producer A_idle (with_queue q' sh)) ++ [cmd]) ∧
  (push_pc q' = P_idle → pushed q' ≠ pushed (queue sh) →
     shard_ok n i (with_producer A_count (with_queue q' sh)) done ∧
     flight (with_producer A_count (with_queue q' sh)) = flight sh).
Proof.
  intros [Hr Hp Hw Hpo Hs Hpr Hcl Hst Hdr Hex] Ea St.
  pose proof (push_step_inv _ _ _ Hr St) as Hr'. rewrite Ea in *. simpl in *.
  destruct (push_step_frame _ _ _ St Hp) as (E1 & E2 & E3 & Hv).
  assert (length (popped (queue sh)) ≤ length (pushed (queue sh))) as Hlen
    by apply prefix_length, ri_fifo with (1 := Hr).
  split_and!.
  - intros Hne. destruct Hv as [[Hv E4]|[? _]]; [|done]. unfold flight. simpl. rewrite Ea, E1, E4.
    split; [|done]. constructor; simpl; rewrite ?E1, ?E2, ?E3, ?E4, ?Ea; done.
  - intros Hidle E4. unfold flight. simpl. rewrite Ea, E1, E4. split; [|by rewrite app_nil_r, app_assoc].
    constructor; simpl; rewrite ?E1, ?E2, ?E3, ?E4, ?Hidle; try done.
    rewrite app_nil_r. by apply Forall_app in Hcl as [? _].
  - intros Hidle Hne. destruct Hv as [[_ ?]|[_ [?|E4]]]; [done|done|].
    unfold flight. simpl. rewrite Ea, E1, E4. split; [|by rewrite app_nil_r, drop_app_le by done].
    constructor; simpl; rewrite ?E1, ?E2, ?E3, ?E4, ?Hidle; try done.
    + rewrite Hs, length_app. simpl. f_equal. lia.
    + by rewrite app_nil_r.
    + intros k Hk. rewrite length_app. specialize (Hst k Hk). lia.
Qed.

Lemma worker_step_ok n i sh done d q' :
  shard_ok n i sh done → worker sh = W_pop d → pop_step kQueueLog (queue sh) q' →
  (pop_pc q' ≠ C_idle → shard_ok n i (with_queue q' sh) done ∧ flight (with_queue q' sh) = flight sh) ∧
  (pop_pc q' = C_idle → popped q' = popped (queue sh) →
     let sh' := with_worker (if d then W_exit else W_head) (with_queue q' sh) in
     shard_ok n i sh' done ∧ flight sh' = flight sh) ∧
  (∀ cmd, pop_pc q' = C_idle → popped q' = popped (queue sh) ++ [cmd] →
     let sh' := with_worker (W_run d cmd) (with_queue q' sh) in
     shard_ok n i sh' done ∧ flight sh' = flight sh).
Proof.
  intros [Hr Hp Hw Hpo Hs Hpr Hcl Hst Hdr Hex] Ew St.
  pose proof (pop_step_inv _ _ _ Hr St) as Hr'. rewrite Ew in *. simpl in *.
  destruct (pop_step_frame _ _ St) as (E1 & E2 & E3 & E4). rewrite app_nil_r in Hpo.
  assert (d = true → ∃ k, stop sh = Some k ∧ k ≤ c_view q') as Hdr'.
  { intros Hd. destruct (Hdr Hd) as (k & ? & ?). exists k. split; [done|lia]. }
  split_and!.
  - intros Hne. specialize (E4 Hne). unfold flight. simpl. rewrite Ew, E1, E4.
    split; [|done]. constructor; simpl; rewrite ?E1, ?E2, ?E4, ?Ew; try done.
    + intros Hd. by destruct (Hd d).
    + by rewrite app_nil_r.
  - intros Hidle E. pose proof (pop_empty_view _ _ Hr St Hidle E) as Hview.
    unfold flight. simpl. rewrite Ew, E1, E. split; [|by destruct d].
    constructor; simpl; rewrite ?E1, ?E2; try done; try by destruct d.
    + rewrite E. destruct d; by rewrite app_nil_r.
    + destruct d; [|done]. intros _. rewrite <- Hview. by apply Hdr'.
  - intros cmd Hidle E. unfold flight. simpl. rewrite Ew, E1.
    split; [constructor; simpl; rewrite ?E1, ?E2; try done; by rewrite E, Hpo|].
    rewrite E. rewrite (drop_pop (popped (queue sh)) _ cmd); [done|].
    rewrite <- E, <- E1. apply ri_fifo with (1 := Hr').
Qed.

(** A step that moves no command: the fields of the invariant that change. *)
Ltac shard_case Hok E :=
  destruct Hok as [Hr Hp Hw Hpo Hs Hpr Hcl Hst Hdr Hex]; rewrite E in *;
  split; [|exists []; unfold flight; simpl; rewrite E, !app_nil_r; by repeat case_match];
  constructor; simpl; try done.

Lemma shard_step_ok n i sh s back ran sh' s' done :
  shard_ok n i sh done → shard_step sh s back ran sh' s' →
  shard_ok n i sh' (done ++ ran) ∧
  ∃ cs, back = omap corder cs ∧ flight sh ≡ₚ ran ++ flight sh' ++ cs.
Proof.
  intros Hok St. destruct St as [sh s cmd q' Ea St Hn|sh s cmd q' Ea St Hn E|sh s cmd q' Ea St Hn E|
    sh s Ea|sh s Ea Es|sh s Ew|sh s k Ew Es|sh s d q' Ew St Hn|sh s d q' Ew St Hn E|
    sh s d q' cmd Ew St Hn E|sh s d cmd e' s' Ew Epr|sh s d Ew]; rewrite ?app_nil_r.
  - destruct (producer_step_ok n i sh done cmd q' Hok Ea St) as (H & _ & _).
    destruct (H Hn) as [? ->]. split; [done|]. exists []. by rewrite app_nil_r.
  - destruct (producer_step_ok n i sh done cmd q' Hok Ea St) as (_ & H & _).
    destruct (H Hn E) as [? ->]. split; [done|]. exists [cmd]. split; [cbn; by destruct (corder cmd)|done].
  - destruct (producer_step_ok n i sh done cmd q' Hok Ea St) as (_ & _ & H).
    destruct (H Hn E) as [? ->]. split; [done|]. exists []. by rewrite app_nil_r.
  - shard_case Hok Ea. rewrite Hs, wrap_add_l. f_equal. lia.
  - shard_case Hok Ea; rewrite ?Es in *; try done.
    + intros k [= <-]. done.
    + intros Hd. by destruct (Hdr Hd) as (? & ? & _).
    + intros Hd. by destruct (Hex Hd) as (? & ? & _).
  - shard_case Hok Ew. intros Hd. by destruct (Hd false).
  - shard_case Hok Ew.
    + apply see_pushes_inv; auto.
    + intros Hd. by destruct (Hd true).
    + intros _. exists k. split; [done|lia].
  - destruct (worker_step_ok n i sh done d q' Hok Ew St) as (H & _ & _).
    destruct (H Hn) as [? ->]. split; [done|]. exists []. by rewrite app_nil_r.
  - destruct (worker_step_ok n i sh done d q' Hok Ew St) as (_ & H & _).
    destruct (H Hn E) as [? ->]. split; [done|]. exists []. by rewrite app_nil_r.
  - destruct (worker_step_ok n i sh done d q' Hok Ew St) as (_ & _ & H).
    destruct (H cmd Hn E) as [? ->]. split; [done|]. exists []. by rewrite app_nil_r.
  - shard_case Hok Ew.
    + intros _. by apply Hw.
    + by rewrite app_nil_r.
    + rewrite Hpr, length_app. simpl. f_equal. lia.
  - shard_case Hok Ew.
    + intros _. by apply Hw.
    + by destruct d.
    + rewrite Hpr, wrap_add_l. destruct d; f_equal; lia.
    + by destruct d.
    + by destruct d.
Qed.

(** ** All shards *)

Definition flight_ptrs (sh : Shard) : list ptr := omap corder (flight sh).
Definition owned (hs : list ptr) (shs : list Shard) : list ptr := hs ++ (shs ≫= flight_ptrs).

(** The commands of [l] that belong to shard [i]. *)
Definition of_shard (n i : nat) (l : list Command) : list Command :=
  filter (λ c, shard_for n (cinstrument c) = i) l.

(** The state of the shards, [U] being the single engine: they agree with it on
    their instruments, and every slot of an acquired order that is not in a
    book has one owner, a client or a command on its way. *)
Record sharded_ok (n : nat) (st : Sharded) (U : Engine) (gs : gmap Z GBook) : Prop := {
  sg_len : length (shards_ st) = n;
  sg_engine : engine_ok U (sh_sys st) gs;
  sg_shards : ∀ i sh, shards_ st !! i = Some sh →
    agree n i (sengine sh) U ∧ shard_ok n i sh (of_shard n i (log st));
  sg_owned : NoDup (owned (held st) (shards_ st));
  sg_held : ∀ x, x ∈ held st → ∃ o, client_order (sh_sys st) gs x o;
  sg_ready : ∀ i sh cmd, shards_ st !! i = Some sh → cmd ∈ flight sh → cmd_ready (sh_sys st) gs cmd }.

Lemma owned_at hs shs i sh sh' :
  shs !! i = Some sh →
  owned hs (<[i := sh']> shs) ≡ₚ (hs ++ flight_ptrs sh') ++ (delete i shs ≫= flight_ptrs).
Proof.
  intros Hi. unfold owned. rewrite <- app_assoc. f_equiv. by apply (bind_insert_perm _ _ _ sh).
Qed.

Lemma owned_id hs shs i sh :
  shs !! i = Some sh → owned hs shs ≡ₚ (hs ++ flight_ptrs sh) ++ (delete i shs ≫= flight_ptrs).
Proof. intros Hi. rewrite <- (owned_at hs shs i sh sh Hi). by rewrite list_insert_id. Qed.

(** A step of one shard, or a transfer between a client and a shard, that
    leaves the pool and the engines alone. *)
Lemma sharded_local n shs s hs hs' l U gs i sh sh' :
  sharded_ok n (mkSharded shs s hs l) U gs → shs !! i = Some sh →
  shard_ok n i sh' (of_shard n i l) → sengine sh' = sengine sh →
  hs' ++ flight_ptrs sh' ≡ₚ hs ++ flight_ptrs sh →
  (∀ x, x ∈ hs' → ∃ o, client_order s gs x o) → (∀ cmd, cmd ∈ flight sh' → cmd_ready s gs cmd) →
  sharded_ok n (mkSharded (<[i := sh']> shs) s hs' l) U gs.
Proof.
  intros [Hn He Hs Ho Hh Hr] Hi Hok Eng Perm Hh' Hr'. simpl in *. constructor; simpl.
  - by rewrite length_insert.
  - done.
  - intros j shj [(<- & <- & _)|[_ Hj]]%list_lookup_insert_Some; [|by apply Hs].
    rewrite Eng. split; [by apply Hs|done].
  - rewrite (owned_at hs' shs i sh sh' Hi), Perm, <- (owned_id hs shs i sh Hi). done.
  - done.
  - intros j shj cmd [(<- & <- & _)|[_ Hj]]%list_lookup_insert_Some; [by apply Hr'|by eapply Hr].
Qed.

Lemma cmd_ready_frame s gs s' gs' cmd :
  (∀ x o, corder cmd = Some x → client_order s gs x o → ∃ o', client_order s' gs' x o' ∧ oinstrument o' = oinstrument o) →
  cmd_ready s gs cmd → cmd_ready s' gs' cmd.
Proof.
  intros F. unfold cmd_ready. destruct (corder cmd) as [x|]; [|done].
  intros [? (o & Hc & Ho)]. split; [done|]. destruct (F x o eq_refl Hc) as (o' & ? & ?).
  exists o'. split; [done|congruence].
Qed.

Lemma elem_of_flight shs i sh cmd x :
  shs !! i = Some sh → cmd ∈ flight sh → corder cmd = Some x → x ∈ shs ≫= flight_ptrs.
Proof.
  intros Hi Hc Hx. apply list_elem_of_bind. exists sh. split; [|by eapply list_elem_of_lookup_2].
  apply list_elem_of_omap. eauto.
Qed.

Lemma acquire_frame U s gs x s' :
  engine_ok U s gs → acquire_order s = Some (Some x, s') →
  engine_ok U s' gs ∧ client_order s' gs x Order_init ∧ x ∈ free (pool_ s) ∧
  (∀ y o, client_order s gs y o → client_order s' gs y o) ∧
  books s' gs = books s gs ∧ (engine_indexed U s gs → engine_indexed U s' gs).
Proof.
  intros He. pose proof (en_pool _ _ _ He) as Hp. unfold acquire_order.
  destruct (decide (stack_top_ (pool_ s) = 0)) as [Hz|Hz]; [by rewrite acquire_empty|].
  destruct (acquire_spec (pool_ s) Hp Hz) as (x' & p' & -> & Hp' & Hf & Hst & Hx).
  intros [= -> <-].
  assert (x ∈ free (pool_ s)) as Hxf by (rewrite Hf; set_solver).
  assert (x ∉ free p') as Hxn.
  { destruct Hp as (_ & _ & _ & Hnd & _). rewrite Hf in Hnd. by apply NoDup_snoc in Hnd as [_ ?]. }
  assert (capacity p' = capacity (pool_ s)) as Hc by (unfold capacity; by rewrite Hst, length_insert).
  assert (∀ y, y ≠ x → order_at y (set_pool p' s) = order_at y s) as Hat.
  { intros y Hy. unfold order_at. simpl. by rewrite Hst, list_lookup_insert_ne. }
  assert (∀ y, y ∈ free p' → y ∈ free (pool_ s)) as Hfr by (intros y; rewrite Hf; set_solver).
  assert (outside gs x) as Hout.
  { intros i g Hg Hr. destruct (proj1 (en_dom _ _ _ He i) ltac:(eauto)) as [m Hm].
    destruct (en_slots _ _ _ He _ _ Hm) as (g' & Hg' & Hi & _). simplify_eq.
    by destruct (mi_alloc _ _ _ Hi x Hr). }
  assert (∀ i g y, gs !! i = Some g → y ∈ resting g → order_at y (set_pool p' s) = order_at y s) as Hin.
  { intros i g y Hg Hy. apply Hat. intros ->. by eapply Hout. }
  destruct (engine_ok_outside U s gs (set_pool p' s) He) as [Hok Hb]; [done|done| |].
  { intros i g y Hg Hy. split; [by eapply Hin|apply Hfr]. }
  split_and!; [done| |done| |done|by apply engine_indexed_outside].
  - constructor; [| |done|by unfold qty_ok, in_u; simpl; unfold kZeroQty; lia].
    + unfold order_at. simpl. rewrite Hst. apply list_lookup_insert_eq. exact Hx.
    + split; [change (x < capacity p'); by rewrite Hc|done].
  - intros y o Hy. eapply client_order_frame; [done| |apply Hfr|exact (co_out _ _ _ _ Hy)].
    apply Hat. intros ->. by destruct (co_alloc _ _ _ _ Hy).
Qed.

Lemma write_frame U s gs x ox o s' :
  engine_ok U s gs → client_order s gs x ox → qty_ok o → write_order o x s = Some s' →
  engine_ok U s' gs ∧ client_order s' gs x o ∧
  ∀ y oy, y ≠ x → client_order s gs y oy → client_order s' gs y oy.
Proof.
  intros He Hx Hq. unfold write_order, order_upd. rewrite (hupd_some _ _ _ _ (co_at _ _ _ _ Hx)).
  intros E. apply (inj Some) in E. subst s'.
  assert (length (<[x := o]> (storage_ (pool_ s))) = capacity (pool_ s)) as Hlen by apply length_insert.
  set (s' := set_pool _ s).
  assert (∀ y, y ≠ x → order_at y s' = order_at y s) as Hat.
  { intros y Hy. unfold order_at. simpl. by rewrite list_lookup_insert_ne. }
  split_and!.
  - eapply engine_ok_outside; [done|by apply pool_ok_with_storage, He|done|].
    intros i g y Hg Hy. split; [|done]. apply Hat. intros ->. by eapply (co_out _ _ _ _ Hx).
  - constructor; [| |exact (co_out _ _ _ _ Hx)|done].
    + unfold order_at. simpl. apply lookup_upd_eq. exists ox. apply Hx.
    + apply allocated_with_storage; [done|]. apply Hx.
  - intros y oy Hy Hc. eapply client_order_frame; [done|by apply Hat|done|exact (co_out _ _ _ _ Hc)].
Qed.

(** The clients' steps on the pool. *)
Lemma sharded_acquire n shs s hs l U gs x s' :
  sharded_ok n (mkSharded shs s hs l) U gs → acquire_order s = Some (Some x, s') →
  sharded_ok n (mkSharded shs s' (x :: hs) l) U gs.
Proof.
  intros [Hn He Hs Ho Hh Hr] Ha. simpl in *.
  destruct (acquire_frame U s gs x s' He Ha) as (He' & Hx & Hxf & Hfr & _).
  constructor; simpl; try done.
  - unfold owned. simpl. constructor; [|done]. intros Hin.
    assert (∃ o, client_order s gs x o) as [o Hc].
    { apply elem_of_app in Hin as [?|Hin]; [by apply Hh|].
      apply list_elem_of_bind in Hin as (sh & Hp & (i & Hi)%list_elem_of_lookup).
      apply list_elem_of_omap in Hp as (cmd & Hcmd & Hco).
      pose proof (Hr i sh cmd Hi Hcmd) as Hrd. unfold cmd_ready in Hrd. rewrite Hco in Hrd.
      destruct Hrd as [_ (o & ? & _)]. eauto. }
    by destruct (co_alloc _ _ _ _ Hc).
  - intros y [->|Hy]%elem_of_cons; [eauto|]. destruct (Hh y Hy) as [o ?]. eauto.
  - intros i sh cmd Hi Hc. eapply cmd_ready_frame; [|by eapply Hr]. eauto.
Qed.

Lemma sharded_write n shs s hs l U gs x o s' :
  sharded_ok n (mkSharded shs s hs l) U gs → x ∈ hs → qty_ok o → write_order o x s = Some s' →
  sharded_ok n (mkSharded shs s' hs l) U gs.
Proof.
  intros [Hn He Hs Ho Hh Hr] Hx Hq Hw. simpl in *. destruct (Hh x Hx) as [ox Hox].
  destruct (write_frame U s gs x ox o s' He Hox Hq Hw) as (He' & Hx' & Hfr).
  constructor; simpl; try done.
  - intros y Hy. destruct (decide (y = x)) as [->|Hne]; [eauto|]. destruct (Hh y Hy) as [oy ?]. eauto.
  - intros i sh cmd Hi Hc. eapply cmd_ready_frame; [|by eapply Hr]. intros y oy Hco Hy.
    exists oy. split; [|done]. apply Hfr; [|done]. intros ->.
    apply NoDup_app in Ho as (_ & Hdj & _). eapply Hdj; [done|]. by eapply elem_of_flight.
Qed.

(** A client's call of [submit] or [cancel] enters the ring. *)
Lemma call_ok n i sh done cmd q' :
  shard_ok n i sh done → producer sh = A_idle → push_step kQueueLog (queue sh) q' →
  push_pc q' = P_called cmd → shard_for n (cinstrument cmd) = i →
  let sh' := with_producer (A_push cmd) (with_queue q' sh) in
  shard_ok n i sh' done ∧ flight sh' = flight sh ++ [cmd].
Proof.
  intros [Hr Hp Hw Hpo Hs Hpr Hcl Hst Hdr Hex] Ea St Hc Hi.
  pose proof (push_step_inv _ _ _ Hr St) as Hr'. rewrite Ea in *. simpl in *.
  destruct (push_call_frame _ _ _ St Hc) as (E1 & E2 & E3 & E4).
  unfold flight. simpl. rewrite Ea, E1, E4, app_nil_r, <- app_assoc. split; [|done].
  constructor; simpl; rewrite ?E1, ?E2, ?E3, ?E4, ?Hc; try done.
  rewrite app_nil_r in Hcl. apply Forall_app. split; [done|]. by constructor.
Qed.

Lemma sharded_call n shs s hs hs' l U gs cmd sh q' :
  sharded_ok n (mkSharded shs s hs l) U gs → shs !! shard_for n (cinstrument cmd) = Some sh →
  producer sh = A_idle → push_step kQueueLog (queue sh) q' → push_pc q' = P_called cmd →
  hs ≡ₚ omap corder [cmd] ++ hs' → cmd_ready s gs cmd →
  sharded_ok n (mkSharded (<[shard_for n (cinstrument cmd) :=
    with_producer (A_push cmd) (with_queue q' sh)]> shs) s hs' l) U gs.
Proof.
  intros Hok Hi Ea St Hc Hp Hr. pose proof Hok as [_ _ Hs _ Hh Hrd].
  cbn [shards_ sh_sys held log] in *.
  destruct (Hs _ _ Hi) as [Hag Hsh].
  destruct (call_ok n _ sh _ cmd q' Hsh Ea St Hc eq_refl) as [Hsh' Hfl].
  eapply sharded_local; [done|done|done|done| | |].
  - unfold flight_ptrs. rewrite Hfl, omap_app, Hp, (Permutation_app_comm (omap corder [cmd])).
    rewrite <- app_assoc. f_equiv. apply Permutation_app_comm.
  - intros y Hy. apply Hh. rewrite Hp. apply elem_of_app. by right.
  - rewrite Hfl. intros c [Hcf| ->%list_elem_of_singleton]%elem_of_app; [by eapply Hrd|done].
Qed.

Lemma shard_step_quiet sh s back ran sh' s' :
  shard_step sh s back ran sh' s' →
  (ran = [] ∧ s' = s ∧ sengine sh' = sengine sh) ∨
  (∃ d cmd e', back = [] ∧ ran = [cmd] ∧ worker sh = W_run d cmd ∧
     process cmd (sengine sh) s = Some (e', s') ∧ sengine sh' = e').
Proof. intros []; simpl; [left; done..| |left; done]. right. eauto 10. Qed.

Lemma of_shard_snoc n i l cmd :
  of_shard n i (l ++ [cmd]) =
  of_shard n i l ++ (if decide (shard_for n (cinstrument cmd) = i) then [cmd] else []).
Proof. unfold of_shard. rewrite filter_app. f_equal. Qed.

Lemma in_hand_class n i sh done d cmd :
  shard_ok n i sh done → worker sh = W_run d cmd → shard_for n (cinstrument cmd) = i.
Proof.
  intros Hsh Ew. pose proof (so_class _ _ _ _ Hsh) as H. rewrite Forall_forall in H. apply H, elem_of_app.
  left. destruct (ri_fifo _ _ (so_ring _ _ _ _ Hsh)) as [z ->]. rewrite (so_popped _ _ _ _ Hsh), Ew.
  simpl. set_solver.
Qed.

(** The worker of shard [i] runs a command: the single engine does too. *)
Lemma sharded_run n shs s hs l U gs i sh d cmd e' s' sh' :
  sharded_ok n (mkSharded shs s hs l) U gs → shs !! i = Some sh → worker sh = W_run d cmd →
  process cmd (sengine sh) s = Some (e', s') → shard_step sh s [] [cmd] sh' s' → sengine sh' = e' →
  ∃ U' gs', process cmd U s = Some (U', s') ∧
    sharded_ok n (mkSharded (<[i := sh']> shs) s' hs (l ++ [cmd])) U' gs'.
Proof.
  intros [Hn He Hs Ho Hh Hr] Hi Ew Hpr St Heng. cbn [shards_ sh_sys held log] in *.
  destruct (Hs i sh Hi) as [Hag Hsh].
  destruct (shard_step_ok n i sh s [] [cmd] sh' s' _ Hsh St) as (Hsh' & cs & Ecs & Hfl).
  assert (cmd ∈ flight sh) as Hcmd by (unfold flight; rewrite Ew; left).
  pose proof (in_hand_class n i sh _ d cmd Hsh Ew) as Hcl.
  pose proof (Hr i sh cmd Hi Hcmd) as Hrd.
  destruct (process_spec U s gs cmd He Hrd) as (U' & s2 & gs' & HU & He' & Hkeep).
  destruct (process_agree n i (sengine sh) U s gs cmd U' s2 Hag Hcl Hrd HU) as (e2 & E2 & Hag' & Hother).
  rewrite Hpr in E2. apply (inj Some) in E2. injection E2 as <- <-.
  exists U', gs'. split; [done|].
  assert (owned hs shs ≡ₚ omap corder [cmd] ++ owned hs (<[i := sh']> shs)) as Hperm.
  { rewrite (owned_id hs shs i sh Hi), (owned_at hs shs i sh sh' Hi). unfold flight_ptrs at 1.
    rewrite Hfl, !omap_app, <- Ecs, app_nil_r. rewrite !app_assoc. do 2 f_equiv.
    apply Permutation_app_comm. done. }
  rewrite Hperm in Ho. apply NoDup_app in Ho as (_ & Hdj & Ho').
  assert (∀ y, y ∈ owned hs (<[i := sh']> shs) → corder cmd ≠ Some y) as Hne.
  { intros y Hy E. apply (Hdj y); [|done]. apply list_elem_of_omap. exists cmd. split; [left|done]. }
  constructor; cbn [shards_ sh_sys held log].
  - by rewrite length_insert.
  - done.
  - intros j shj [(<- & <- & _)|[Hij Hj]]%list_lookup_insert_Some.
    + rewrite of_shard_snoc, decide_True by done. rewrite Heng. done.
    + rewrite of_shard_snoc, decide_False, app_nil_r by congruence. destruct (Hs j shj Hj).
      split; [by apply Hother|done].
  - done.
  - intros y Hy. destruct (Hh y Hy) as [o Hc]. exists o. apply Hkeep; [|done].
    apply Hne, elem_of_app. by left.
  - intros j shj c Hj Hc. eapply cmd_ready_frame.
    + intros y o Hco Hy. exists o. split; [|done]. apply Hkeep; [|done].
      apply Hne, elem_of_app. right. by eapply elem_of_flight.
    + apply list_lookup_insert_Some in Hj as [(<- & <- & _)|[Hij Hj]]; [|by eapply Hr].
      eapply Hr; [done|]. rewrite Hfl. set_solver.
Qed.

(** ** Simulation *)

Lemma step_simulation n U0 s0 st st' U gs :
  sharded_ok n st U gs → rtc seq_step (U0, s0, []) (U, sh_sys st, log st) → step st st' →
  ∃ U' gs', sharded_ok n st' U' gs' ∧ rtc seq_step (U0, s0, []) (U', sh_sys st', log st').
Proof.
  intros Hok Hseq St. pose proof (sg_len _ _ _ _ Hok) as Hn.
  destruct St as [shs s hs l x s' Ha|shs s hs l x o s' Hx Hq Hw|shs s hs1 hs2 l x o sh q' Ho Hi Ea Stp Hc|
    shs s hs l inst id sh q' Hi Ea Stp Hc|shs s hs l i sh sh' back ran s' Hi Stp]; cbn [shards_ sh_sys held log] in *.
  - exists U, gs. split; [by eapply sharded_acquire|]. eapply rtc_r; [done|]. by eapply seq_acquire.
  - exists U, gs. split; [by eapply sharded_write|]. eapply rtc_r; [done|]. by eapply seq_write.
  - exists U, gs. split; [|done]. rewrite Hn in *.
    destruct (sg_held _ _ _ _ Hok x) as [o' Hco]; [set_solver|].
    pose proof (co_at _ _ _ _ Hco) as Hat. cbn [sh_sys] in Hat. rewrite Ho in Hat. apply (inj Some) in Hat. subst o'.
    eapply (sharded_call n shs s (hs1 ++ x :: hs2) (hs1 ++ hs2) l U gs (submit_command x o)); try done.
    + by rewrite <- Permutation_middle.
    + split; [done|]. exists o. done.
  - exists U, gs. split; [|done]. rewrite Hn in *.
    by eapply (sharded_call n shs s hs hs l U gs (cancel_command inst id)).
  - destruct (shard_step_quiet _ _ _ _ _ _ Stp) as [(-> & -> & Eng)|(d & cmd & e' & -> & -> & Ew & Hp & Eng)].
    + exists U, gs. rewrite app_nil_r. split; [|done].
      destruct (sg_shards _ _ _ _ Hok i sh Hi) as [_ Hsh].
      destruct (shard_step_ok n i sh s back [] sh' s _ Hsh Stp) as (Hsh' & cs & -> & Hfl).
      rewrite app_nil_r in Hsh'. simpl in Hfl.
      eapply sharded_local; [done|done|done|done| | |].
      * unfold flight_ptrs. rewrite Hfl, omap_app, <- app_assoc, Permutation_app_comm, <- app_assoc. done.
      * intros y [Hy|Hy]%elem_of_app; [|by apply (sg_held _ _ _ _ Hok)].
        apply list_elem_of_omap in Hy as (c & Hc & Hco).
        assert (cmd_ready s gs c) as Hrd by (eapply (sg_ready _ _ _ _ Hok i sh); [done|rewrite Hfl; set_solver]).
        unfold cmd_ready in Hrd. rewrite Hco in Hrd. destruct Hrd as [_ (o & ? & _)]. eauto.
      * intros c Hc. eapply (sg_ready _ _ _ _ Hok i sh); [done|]. rewrite Hfl. set_solver.
    + destruct (sharded_run n shs s hs l U gs i sh d cmd e' s' sh' Hok Hi Ew Hp Stp Eng) as (U' & gs' & HU & Hok').
      exists U', gs'. split; [done|]. eapply rtc_r; [done|]. by apply seq_run.
Qed.

Lemma sharded_reachable n U0 gs0 st0 st :
  sharded_ok n st0 U0 gs0 → log st0 = [] → rtc step st0 st →
  ∃ U gs, sharded_ok n st U gs ∧ rtc seq_step (U0, sh_sys st0, []) (U, sh_sys st, log st).
Proof.
  intros Hok Hlog. apply (rtc_invariant step (λ st, ∃ U gs, sharded_ok n st U gs ∧
    rtc seq_step (U0, sh_sys st0, []) (U, sh_sys st, log st))).
  - intros a b (U & gs & Ha & Hseq) St. by eapply step_simulation.
  - exists U0, gs0. rewrite Hlog. split; [done|apply rtc_refl].
Qed.

(** ** Construction *)

Lemma Shards_new_lookup r n ids shs :
  Shards_new r n ids = inl shs →
  length shs = length ids ∧
  ∀ k sh, shs !! k = Some sh → ∃ i, ids !! k = Some i ∧ Shard_new r n i = inl sh.
Proof.
  revert shs. induction ids as [|i ids IH]; intros shs; simpl; [intros [= <-]; by split|].
  destruct (Shard_new r n i) as [sh|] eqn:Ei; [|done].
  destruct (Shards_new r n ids) as [shs'|]; [|done]. intros [= <-].
  destruct (IH shs' eq_refl) as [Hl Hk]. split; [simpl; by rewrite Hl|].
  intros [|k] sh' Hsh; simpl in *; [|by apply Hk]. exists i. split; [done|congruence].
Qed.

Lemma engine_new_agree r n i e U p :
  pool_ok p → Engine_new r (Some (shard_filter n i)) = inl e → Engine_new r None = inl U → agree n i e U.
Proof.
  intros Hp He HU.
  destruct (engine_new_ok r (Some (shard_filter n i)) e p 0 He Hp) as (Hok & Hm & Hi).
  destruct (engine_new_ok r None U p 0 HU Hp) as (HokU & HmU & HiU).
  intros id. specialize (Hi id). specialize (HiU id).
  assert (kept (Some (shard_filter n i)) id ↔ shard_for n id = i) as Hk.
  { unfold kept, shard_filter. apply Nat.eqb_eq. }
  destruct (decide (shard_for n id = i)) as [E|E].
  - assert (is_Some (matchers_ e !! id) ↔ is_Some (matchers_ U !! id)) as Hiff.
    { rewrite Hi, HiU. split; intros (x & ? & ? & ?); exists x; split_and!; try done. by apply Hk. }
    assert (matchers_ e !! id = matchers_ U !! id) as Em.
    { destruct (Hm id) as [H|H], (HmU id) as [H'|H']; rewrite H, H' in *; try done.
      - by destruct (proj1 Hiff ltac:(eauto)).
      - by destruct (proj2 Hiff ltac:(eauto)). }
    split; [done|]. apply option_eq. intros k.
    by rewrite (en_ptrs _ _ _ Hok), (en_ptrs _ _ _ HokU), Em.
  - apply eq_None_not_Some. rewrite Hi. intros (x & _ & _ & H%Hk). done.
Qed.

(** The shards of a new engine: each has the books of its class, and is idle. *)
Lemma Sharded_new_shape r n cap st :
  (Z.of_nat cap ≤ 4294967294)%Z → Sharded_new r n cap = inl st →
  ∃ U, Engine_new r None = inl U ∧ n ≠ 0 ∧ length (shards_ st) = n ∧
    st = mkSharded (shards_ st) (mkSys (Pool_new cap) 0) [] [] ∧
    engine_ok U (mkSys (Pool_new cap) 0) ((λ _, empty_ghost) <$> matchers_ U) ∧
    ∀ i sh, shards_ st !! i = Some sh → agree n i (sengine sh) U ∧
      sh = mkShard (Ring_new kQueueLog) (sengine sh) 0 0 None A_idle W_head.
Proof.
  intros Hcap. unfold Sharded_new. destruct (decide (n = 0)) as [|Hn]; [done|].
  destruct (negb (frozen_ r)) eqn:Ef; [done|].
  destruct (Shards_new r n (seq 0 n)) as [shs|] eqn:E; [|done]. intros [= <-].
  destruct (Shards_new_lookup _ _ _ _ E) as [Hl Hk]. rewrite length_seq in Hl.
  pose proof (Pool_new_ok cap Hcap) as Hp.
  destruct (Engine_new r None) as [U|] eqn:EU; [|unfold Engine_new in EU; by rewrite Ef in EU].
  destruct (engine_new_ok r None U _ 0 EU Hp) as (Hok & _).
  exists U. split_and!; try done. intros i sh Hi. destruct (Hk i sh Hi) as (j & [-> _]%lookup_seq & Hs).
  simpl in Hs. unfold Shard_new in Hs.
  destruct (Engine_new r (Some (shard_filter n i))) as [e|] eqn:Ee; [|done]. injection Hs as <-.
  split; [by eapply engine_new_agree|done].
Qed.

Lemma Sharded_new_ok r n cap st :
  (Z.of_nat cap ≤ 4294967294)%Z → Sharded_new r n cap = inl st →
  ∃ U gs, Engine_new r None = inl U ∧ sharded_ok n st U gs ∧ log st = [].
Proof.
  intros Hcap Hnew. destruct (Sharded_new_shape r n cap st Hcap Hnew) as (U & HU & Hn & Hl & -> & Hok & Hsh).
  set (shs := shards_ st) in *.
  exists U, ((λ _, empty_ghost) <$> matchers_ U). split_and!; [done| |done].
  constructor; simpl; try done.
  - intros i sh Hi. destruct (Hsh i sh Hi) as [Ha ->]. simpl. split; [done|].
    constructor; by try apply ring_inv_new.
  - replace (owned [] shs) with (@nil ptr); [constructor|]. unfold owned. simpl. symmetry.
    clear -Hsh. assert (∀ sh, sh ∈ shs → flight_ptrs sh = []) as H.
    { intros sh (i & Hi)%list_elem_of_lookup. by destruct (Hsh i sh Hi) as [_ ->]. }
    clear Hsh. induction shs as [|sh l IH]; [done|]. simpl. rewrite (H sh) by left.
    apply IH. intros sh' Hsh'. apply H. by right.
  - by intros x ?%not_elem_of_nil.
  - intros i sh cmd Hi Hc. destruct (Hsh i sh Hi) as [_ E]. rewrite E in Hc. by apply not_elem_of_nil in Hc.
Qed.

(** ** The refinement *)

Lemma wrap_close a b : (0 ≤ b - a < 2 ^ 64)%Z → u64 a = u64 b → a = b.
Proof.
  intros Hr E. unfold wrap in E. assert ((b - a) `mod` 2 ^ 64 = 0)%Z as H.
  { rewrite Zminus_mod, E, Z.sub_diag. done. }
  rewrite Z.mod_small in H by done. lia.
Qed.

(** When the counters of an idle producer's shard agree, its worker has run
    everything that was pushed. *)
Lemma shard_idle n i sh done :
  shard_ok n i sh done → producer sh = A_idle → submitted sh = processed sh → done = pushed (queue sh).
Proof.
  intros [Hr Hp Hw Hpo Hs Hpr Hcl Hst Hdr Hex] Ea E. rewrite Ea in Hs. rewrite Hs, Hpr in E.
  destruct (ri_fifo _ _ Hr) as [z Hz]. pose proof (ri_room _ _ Hr) as Hroom. pose proof (ri_pview _ _ Hr) as Hv.
  assert (Capacity kQueueLog = 4096)%Z as Hc by done. rewrite Hc in Hroom.
  rewrite Hz, Hpo, !length_app in *. symmetry in E.
  apply wrap_close in E; [|destruct (worker sh); simpl in *; lia].
  assert (length (in_hand (worker sh)) = 0 ∧ length z = 0) as [H1%nil_length_inv H2%nil_length_inv]
    by (destruct (worker sh); simpl in *; lia).
  by rewrite H1, H2, !app_nil_r.
Qed.

Lemma agree_book n i e U id : agree n i e U → shard_for n id = i →
  (∀ k, book_ptrs_ U !! id = Some k → k = id) → book id e = book id U.
Proof.
  intros Ha Hi Hk. destruct (agree_at _ _ _ _ _ Ha Hi) as [Em Ep]. unfold book. rewrite Ep.
  destruct (book_ptrs_ U !! id) as [k|]; [|done]. specialize (Hk k eq_refl). subst k. by rewrite Em.
Qed.

(** C35: the sharded engine implements one engine.  For every registry, number
    of shards and interleaving of clients and workers there is a run of a
    single engine with all instruments over the same pool that runs the same
    commands, one after the other, and every book of the shards is the book of
    that engine.  Each worker runs the commands of its shard in the order they
    were pushed, and is never stuck: the command in its hands is defined.  When
    [wait_idle] sees equal counters and no client is sending, everything pushed
    has been run; a worker that has exited has run everything pushed before the
    stop flag was set. *)
Theorem sharded_refines_engine r n cap st0 st :
  (Z.of_nat cap ≤ 4294967294)%Z → Sharded_new r n cap = inl st0 → rtc step st0 st →
  ∃ U0 U gs, Engine_new r None = inl U0 ∧
    rtc seq_step (U0, sh_sys st0, []) (U, sh_sys st, log st) ∧ engine_ok U (sh_sys st) gs ∧
    (∀ id, sharded_book id st = book id U) ∧
    (∀ i sh, shards_ st !! i = Some sh →
       of_shard n i (log st) ++ in_hand (worker sh) = popped (queue sh) ∧
       popped (queue sh) `prefix_of` pushed (queue sh) ∧
       (∀ d cmd, worker sh = W_run d cmd → is_Some (process cmd (sengine sh) (sh_sys st))) ∧
       (all_done st = true → producer sh = A_idle → of_shard n i (log st) = pushed (queue sh)) ∧
       (worker sh = W_exit → ∃ k, stop sh = Some k ∧ k ≤ length (of_shard n i (log st)))).
Proof.
  intros Hcap Hnew Hr. destruct (Sharded_new_ok r n cap st0 Hcap Hnew) as (U0 & gs0 & HU0 & Hok0 & Hlog).
  assert (n ≠ 0) as Hn0 by (unfold Sharded_new in Hnew; by destruct (decide (n = 0))).
  destruct (sharded_reachable n U0 gs0 st0 st Hok0 Hlog Hr) as (U & gs & Hok & Hseq).
  exists U0, U, gs. destruct Hok as [Hn He Hs Ho Hh Hrd]. split_and!; [done|done|done| |].
  - intros id. unfold sharded_book. rewrite Hn.
    destruct (lookup_lt_is_Some_2 (shards_ st) (shard_for n id)) as [sh Hsh].
    { rewrite Hn. unfold shard_for. pose proof (Z.mod_pos_bound id (Z.of_nat n)). lia. }
    rewrite Hsh. destruct (Hs _ _ Hsh) as [Hag _]. eapply agree_book; [done|done|].
    intros k Hk. by apply (en_ptrs _ _ _ He) in Hk as [-> _].
  - intros i sh Hi. destruct (Hs i sh Hi) as [Hag Hsh]. split_and!.
    + symmetry. apply (so_popped _ _ _ _ Hsh).
    + apply (ri_fifo _ _ (so_ring _ _ _ _ Hsh)).
    + intros d cmd Ew. assert (cmd ∈ flight sh) as Hcmd by (unfold flight; rewrite Ew; left).
      pose proof (in_hand_class n i sh _ d cmd Hsh Ew) as Hcl.
      destruct (process_spec U _ gs cmd He (Hrd i sh cmd Hi Hcmd)) as (U' & s' & gs' & HU & _).
      destruct (process_agree n i _ U _ gs cmd U' s' Hag Hcl (Hrd i sh cmd Hi Hcmd) HU) as (e' & -> & _). done.
    + intros Hall Ea. eapply shard_idle; [done|done|]. unfold all_done in Hall.
      rewrite forallb_forall in Hall. apply Z.eqb_eq, Hall, list_elem_of_In. by eapply list_elem_of_lookup_2.
    + intros Ew. destruct (so_exit _ _ _ _ Hsh Ew) as (k & ? & Hk). exists k. split; [done|].
      rewrite (so_popped _ _ _ _ Hsh), Ew, app_nil_r in Hk. done.
Qed.
End sharded.

(** ** A run: two shards, one order through the shard of instrument 7 *)

Definition demo_order : Order := mkOrder 1 100 5 0 7 1 New Buy Limit GTC 0 0 0 None None.
Definition demo_command : Command := submit_command 3 demo_order.

Definition demo_start : Sharded :=
  match Sharded_new ex_registry 2 4 with inl st => st | inr _ => mkSharded [] (mkSys (Pool_new 0) 0) [] [] end.

Lemma demo_start_ok : Sharded_new ex_registry 2 4 = inl demo_start.
Proof. reflexivity. Qed.

Definition demo_clock (n : nat) : Z := Z.of_nat n.

Ltac shard_1 rule := eapply (st_shard demo_clock _ _ _ _ 1); [reflexivity|eapply rule; [reflexivity|..]].

Lemma demo_sharded_run :
  ∃ st, rtc (step demo_clock) demo_start st ∧ log st = [demo_command] ∧
    (λ sh, (producer sh, worker sh, submitted sh, pushed (queue sh), popped (queue sh))) <$> shards_ st =
      [(A_idle, W_head, 0%Z, [], []); (A_idle, W_head, 1%Z, [demo_command], [demo_command])].
Proof.
  eexists. split_and!.
  - eapply rtc_l; [eapply (st_acquire demo_clock _ _ _ _ 3); reflexivity|].
    eapply rtc_l; [eapply (st_write demo_clock _ _ _ _ 3 demo_order);
      [left|unfold qty_ok, in_u; simpl; lia|reflexivity]|].
    eapply rtc_l; [eapply (st_submit demo_clock _ _ [] [] _ 3 demo_order);
      [reflexivity|reflexivity|reflexivity|apply push_call|reflexivity]|].
    eapply rtc_l; [shard_1 sp_push; [apply push_load_tail; reflexivity|done]|].
    eapply rtc_l; [shard_1 sp_push; [eapply (push_room _ _ _ _ _ _ _ _ _ _ _ 0); [apply le_n|reflexivity|by vm_compute]|done]|].
    eapply rtc_l; [shard_1 sp_push; [apply push_write|done]|].
    eapply rtc_l; [shard_1 sp_pushed; [apply push_store|done|done]|].
    eapply rtc_l; [shard_1 sp_count|].
    eapply rtc_l; [shard_1 sw_loop|].
    eapply rtc_l; [shard_1 sw_pop; [apply pop_call|done]|].
    eapply rtc_l; [shard_1 sw_pop; [apply pop_load_head; reflexivity|done]|].
    eapply rtc_l; [shard_1 sw_pop; [eapply (pop_some _ _ _ _ _ _ _ _ _ _ 1); [apply le_S, le_n|reflexivity|by vm_compute]|done]|].
    eapply rtc_l; [shard_1 sw_pop; [apply (pop_read _ _ _ _ _ _ _ _ _ _ demo_command); reflexivity|done]|].
    eapply rtc_l; [shard_1 sw_got; [apply pop_store|done|reflexivity]|].
    eapply rtc_l; [shard_1 sw_run; reflexivity|].
    eapply rtc_l; [shard_1 sw_count|].
    apply rtc_refl.
  - reflexivity.
  - reflexivity.
Qed.

Lemma sharded_refines_engine_witness :
  ∃ st, log st = [demo_command] ∧ ∃ U0 U gs, Engine_new ex_registry None = inl U0 ∧
    rtc (seq_step demo_clock) (U0, sh_sys demo_start, []) (U, sh_sys st, [demo_command]) ∧
    engine_ok U (sh_sys st) gs ∧ ∀ id, sharded_book id st = book id U.
Proof.
  destruct demo_sharded_run as (st & Hr & Hl & _). exists st. split; [exact Hl|].
  destruct (sharded_refines_engine demo_clock ex_registry 2 4 demo_start st) as (U0 & U & gs & H1 & H2 & H3 & H4 & _);
    [lia|exact demo_start_ok|exact Hr|].
  exists U0, U, gs. rewrite <- Hl at 1. split; [exact H1|]. split; [exact H2|]. split; [exact H3|exact H4].
Defined.
