(* ===== verification/Workers.v ===== *)
(** * Commands of several shards, interleaved (src/matching/sharded_engine.cpp,
    src/matching/matcher.cpp)

    [Sharded] runs a command in one step.  Here the workers run their commands
    side by side: a worker stops, and any other thread may run, at every turn
    of the matching loop and before every operation of the pool.  What a worker
    does between two such points reads and writes only its engine, its order
    and the orders of its books, which no other thread touches (that they do
    not overlap is part of the invariant); the pool's operations are single
    steps by [PoolLock].  The rings are the FIFO queues [Spsc] shows them to
    be; a call that finds its ring full returns false and changes nothing, so
    the queues need no bound here.

    The history [p_log] is not part of the program: it says, in the order in
    which the submissions settle and the cancellations take effect, what each
    command was given and what came of it. *)

From S2P Require Import Prelude StdMap Types Heap Pool PriceLevel OrderBook Latency Matcher.
From S2P Require Import MatchSpec SubmitSpec CancelSpec Turns Contract Chain Registry Engine Spsc Sharded.

(** ** Histories and their specification *)

Inductive Input :=
| In_submit (od : Order) (tm : Timestamp)       (* the order as submitted; its completion stamp *)
| In_cancel (inst : InstrumentId) (id : OrderId).

Inductive Outcome :=
| Out_submit (od : Order) (trades : list Trade)  (* the order afterwards *)
| Out_cancel (ok : bool).

#[export] Instance has_id_decision id a : Decision (has_id id a).
Proof.
  refine (cast_if (decide (Exists (λ o, oid o = id) (a_bids a ++ a_asks a))));
    unfold has_id in *; rewrite Exists_exists in *; set_solver.
Defined.

(** One book per instrument; commands run one after the other. *)
Definition spec_step (B : gmap Z ABook) (i : Input) : gmap Z ABook * Outcome :=
  match i with
  | In_submit od tm =>
      match B !! oinstrument od with
      | None => (B, Out_submit (set_status Rejected od) [])
      | Some a =>
          let '(a', od', trs) := a_submit (oinstrument od) tm od a in
          (<[oinstrument od := a']> B, Out_submit od' trs)
      end
  | In_cancel inst id =>
      match B !! inst with
      | None => (B, Out_cancel false)
      | Some a => (<[inst := a_cancel id a]> B, Out_cancel (bool_decide (has_id id a)))
      end
  end.

Fixpoint spec_run (B : gmap Z ABook) (ins : list Input) : gmap Z ABook * list Outcome :=
  match ins with
  | [] => (B, [])
  | i :: ins =>
      let (B1, out) := spec_step B i in
      let (B2, outs) := spec_run B1 ins in (B2, out :: outs)
  end.

(** No order is submitted under the id of an order of the same book. *)
Fixpoint fresh_run (B : gmap Z ABook) (ins : list Input) : bool :=
  match ins with
  | [] => true
  | i :: ins =>
      match i with
      | In_submit od _ =>
          match B !! oinstrument od with
          | Some a => negb (bool_decide (has_id (oid od) a))
          | None => true
          end
      | In_cancel _ _ => true
      end && fresh_run (spec_step B i).1 ins
  end.

Lemma spec_run_app B l1 l2 :
  spec_run B (l1 ++ l2) =
    let (B1, o1) := spec_run B l1 in let (B2, o2) := spec_run B1 l2 in (B2, o1 ++ o2).
Proof.
  revert B. induction l1 as [|i l1 IH]; intros B; simpl; [by destruct (spec_run B l2)|].
  destruct (spec_step B i) as [B1 out]. rewrite IH. destruct (spec_run B1 l1) as [B2 outs].
  by destruct (spec_run B2 l2).
Qed.

Lemma fresh_run_app B l1 l2 :
  fresh_run B (l1 ++ l2) = fresh_run B l1 && fresh_run (spec_run B l1).1 l2.
Proof.
  revert B. induction l1 as [|i l1 IH]; intros B; simpl; [done|].
  rewrite IH, <- andb_assoc. do 2 f_equal. destruct (spec_step B i) as [B1 out]. simpl.
  by destruct (spec_run B1 l1).
Qed.

(** ** Workers *)

(** Where a worker is with a command.  [od], the order as it was submitted, is
    for the history only. *)
Inductive Job :=
| J_idle
| J_called (cmd : Command)
| J_match (x : ptr) (inst : InstrumentId) (t0 : Z) (trades : list Trade) (od : Order)
| J_give (x : ptr) (inst : InstrumentId) (t0 : Z) (trades : list Trade) (od : Order) (maker : ptr)
| J_return (x : ptr)     (* [pool_.release(result.order)] *)
| J_drop (x : ptr).      (* [pool_.release(o)] of [Matcher::cancel] *)

Record Worker := mkWorker {
  w_engine : Engine;
  w_inbox : list Command;
  w_job : Job }.

Section workers.
Variable clock : nat → Z.

(** [if (result.order && result.order->is_terminal())] *)
Definition finish (x : ptr) (od : Order) (tm : Timestamp) (trades : list Trade) (s : Sys)
    : res (Job * list (Input * Outcome)) :=
  let* o := order_at x s in
  Some (if is_terminal o then J_return x else J_idle,
        [(In_submit od tm, Out_submit (data o) trades)]).

(** [order->status = OrderStatus::Rejected; return result;] *)
Definition start_reject (x : ptr) (o : Order) (s : Sys) : res (Job * Sys * list (Input * Outcome)) :=
  let* s' := order_upd (set_status Rejected) x s in
  let* (j, es) := finish x (data o) 0 [] s' in
  Some (j, s', es).

(** [Engine::submit] and [Matcher::submit] up to the matching loop. *)
Definition start_submit (x : ptr) (e : Engine) (s : Sys) : res (Job * Sys * list (Input * Outcome)) :=
  let* o := order_at x s in
  match matchers_ e !! oinstrument o with
  | None => start_reject x o s
  | Some m =>
      let (t0, s0) := now_ns clock s in
      if invalid (instrument_ (book_ m)) o then start_reject x o s0
      else
        let* fillable :=
          if bool_decide (tif o = FOK) then can_fully_fill o (book_ m) (storage_ (pool_ s0))
          else Some true in
        if negb fillable then start_reject x o s0
        else Some (J_match x (oinstrument o) t0 [] (data o), s0, [])
  end.

(** [Engine::cancel] and [Matcher::cancel] up to the release. *)
Definition start_cancel (inst : InstrumentId) (id : OrderId) (e : Engine) (s : Sys)
    : res (Engine * Job * Sys * list (Input * Outcome)) :=
  match matchers_ e !! inst with
  | None => Some (e, J_idle, s, [(In_cancel inst id, Out_cancel false)])
  | Some m =>
      let p := pool_ s in
      let* (x, b', h) := cancel_and_get id (book_ m) (storage_ p) in
      let e' := set_matcher inst (mkMatcher b' (stats_ m)) e in
      match x with
      | None =>
          Some (e', J_idle, set_pool (with_storage h p) s, [(In_cancel inst id, Out_cancel false)])
      | Some x =>
          let* h1 := hupd (set_status Cancelled) x h in
          Some (e', J_drop x, set_pool (with_storage h1 p) s, [(In_cancel inst id, Out_cancel true)])
      end
  end.

(** The rest of [Matcher::submit] when the loop has ended. *)
Definition wrap_up (x : ptr) (inst : InstrumentId) (t0 : Z) (trades : list Trade) (od : Order)
    (m : Matcher) (e : Engine) (s : Sys) : res (Engine * Job * Sys * list (Input * Outcome)) :=
  let* (b2, p2) := settle x (book_ m) (pool_ s) in
  let (t1, s1) := now_ns clock (set_pool p2 s) in
  let* s2 := order_upd (set_match_complete (i64 t1)) x s1 in
  let (t2, s3) := now_ns clock s2 in
  let* (j, es) := finish x od (i64 t1) trades s3 in
  Some (set_matcher inst (mkMatcher b2 (record (u64 (t2 - t0)) (stats_ m))) e, j, s3, es).

(** One turn of the loop. *)
Definition go_on (x : ptr) (inst : InstrumentId) (t0 : Z) (trades : list Trade) (od : Order)
    (e : Engine) (s : Sys) : res (Engine * Job * Sys * list (Input * Outcome)) :=
  let* m := matchers_ e !! inst in
  let* t := order_at x s in
  let* r := turn (opposite (side t)) x (book_ m) (storage_ (pool_ s)) in
  match r with
  | T_trade b h tr filled =>
      let e' := set_matcher inst (mkMatcher b (stats_ m)) e in
      let s' := set_pool (with_storage h (pool_ s)) s in
      let trades' := trades ++ [tr] in
      Some (e', match filled with
                | Some mk => J_give x inst t0 trades' od mk
                | None => J_match x inst t0 trades' od
                end, s', [])
  | T_stop => wrap_up x inst t0 trades od m e s
  end.

(** The worker runs to its next stop. *)
Definition work (w : Worker) (s : Sys) : res (Worker * Sys * list (Input * Outcome)) :=
  let '(mkWorker e q j) := w in
  match j with
  | J_idle =>
      match q with
      | [] => Some (w, s, [])
      | cmd :: q => Some (mkWorker e q (J_called cmd), s, [])
      end
  | J_called cmd =>
      match kind cmd with
      | Submit =>
          let* x := corder cmd in
          let* (j', s', es) := start_submit x e s in Some (mkWorker e q j', s', es)
      | Cancel =>
          let* (e', j', s', es) := start_cancel (cinstrument cmd) (order_id cmd) e s in
          Some (mkWorker e' q j', s', es)
      end
  | J_match x inst t0 trades od =>
      let* (e', j', s', es) := go_on x inst t0 trades od e s in Some (mkWorker e' q j', s', es)
  | J_give x inst t0 trades od mk =>
      let* s' := release_order mk s in Some (mkWorker e q (J_match x inst t0 trades od), s', [])
  | J_return x | J_drop x =>
      let* s' := release_order x s in Some (mkWorker e q J_idle, s', [])
  end.

(** ** All threads *)

Record Pit := mkPit {
  p_workers : list Worker;
  p_sys : Sys;
  p_held : list ptr;                   (* orders the clients hold *)
  p_log : list (Input * Outcome) }.

Definition enqueue (cmd : Command) (w : Worker) : Worker :=
  mkWorker (w_engine w) (w_inbox w ++ [cmd]) (w_job w).

(** A step, with the command a client called with. *)
Inductive pit_step : Pit → list Command → Pit → Prop :=
| pt_acquire ws s hs l x s' :
    acquire_order s = Some (Some x, s') →
    pit_step (mkPit ws s hs l) [] (mkPit ws s' (x :: hs) l)
| pt_write ws s hs l x o s' :
    x ∈ hs → qty_ok o → write_order o x s = Some s' →
    pit_step (mkPit ws s hs l) [] (mkPit ws s' hs l)
| pt_submit ws s hs1 hs2 l x o w :
    order_at x s = Some o → ws !! shard_for (length ws) (oinstrument o) = Some w →
    pit_step (mkPit ws s (hs1 ++ x :: hs2) l) [submit_command x o]
      (mkPit (<[shard_for (length ws) (oinstrument o) := enqueue (submit_command x o) w]> ws)
         s (hs1 ++ hs2) l)
| pt_cancel ws s hs l inst id w :
    ws !! shard_for (length ws) inst = Some w →
    pit_step (mkPit ws s hs l) [cancel_command inst id]
      (mkPit (<[shard_for (length ws) inst := enqueue (cancel_command inst id) w]> ws) s hs l)
| pt_work ws s hs l i w w' s' es :
    ws !! i = Some w → work w s = Some (w', s', es) →
    pit_step (mkPit ws s hs l) [] (mkPit (<[i := w']> ws) s' hs (l ++ es)).

(** A run, with all commands called so far. *)
Inductive pit_run (st0 : Pit) : list Command → Pit → Prop :=
| run_start : pit_run st0 [] st0
| run_step cs st c st' : pit_run st0 cs st → pit_step st c st' → pit_run st0 (cs ++ c) st'.

(** ** What one thread does to the others

    [U] is the engine of all instruments, of which every worker has its part;
    [gs] has the slots of every book. *)

(** The slots a worker owns on account of its command. *)
Definition job_slots (j : Job) : list ptr :=
  match j with
  | J_idle => []
  | J_called cmd => option_list (corder cmd)
  | J_match x _ _ _ _ | J_return x | J_drop x => [x]
  | J_give x _ _ _ _ mk => [x; mk]
  end.

Definition is_client (s : Sys) (gs : gmap Z GBook) (x : ptr) : Prop := ∃ o, client_order s gs x o.

(** The taker of a submission in progress. *)
Definition taking (n i : nat) (s : Sys) (gs : gmap Z GBook) (x : ptr) (inst : InstrumentId) (od : Order) : Prop :=
  shard_for n inst = i ∧ is_Some (gs !! inst) ∧ oinstrument od = inst ∧
  ∃ o, client_order s gs x o ∧ oinstrument o = inst.

(** A command on its way: a submission names the order it owns. *)
Definition cmd_given (s : Sys) (gs : gmap Z GBook) (cmd : Command) : Prop :=
  match corder cmd with
  | None => kind cmd = Cancel
  | Some x => ∃ o, client_order s gs x o ∧ cmd = submit_command x o
  end.

(** What a command asks for. *)
Definition cmd_key (cmd : Command) : Kind * InstrumentId * OrderId :=
  (kind cmd, cinstrument cmd, order_id cmd).
Definition in_key (i : Input) : Kind * InstrumentId * OrderId :=
  match i with
  | In_submit od _ => (Submit, oinstrument od, oid od)
  | In_cancel inst id => (Cancel, inst, id)
  end.
Definition job_keys (j : Job) : list (Kind * InstrumentId * OrderId) :=
  match j with
  | J_called cmd => [cmd_key cmd]
  | J_match _ _ _ _ od | J_give _ _ _ _ od _ => [(Submit, oinstrument od, oid od)]
  | _ => []
  end.

Definition job_safe (n i : nat) (s : Sys) (gs : gmap Z GBook) (j : Job) : Prop :=
  match j with
  | J_idle => True
  | J_called cmd => cmd_given s gs cmd ∧ shard_for n (cinstrument cmd) = i
  | J_match x inst _ _ od => taking n i s gs x inst od
  | J_give x inst _ _ od mk => taking n i s gs x inst od ∧ is_client s gs mk
  | J_return x | J_drop x => is_client s gs x
  end.

(** The book of [inst] is that of the specification, or on the way from it to
    what the specification makes of the submission in progress. *)
Definition midway (B : gmap Z ABook) (s : Sys) (gs : gmap Z GBook) (inst : InstrumentId)
    (x : ptr) (trades : list Trade) (od : Order) : Prop :=
  ∃ a0 a o, B !! inst = Some a0 ∧ books s gs !! inst = Some a ∧ order_at x s = Some o ∧
    (∀ tm, a_finish tm trades (data o) a = a_submit inst tm od a0) ∧
    oinstrument od = inst ∧ oid od = oid o ∧ (∀ id, has_id id a → has_id id a0).

Definition book_spec (B : gmap Z ABook) (s : Sys) (gs : gmap Z GBook) (inst : InstrumentId) (j : Job) : Prop :=
  match j with
  | J_match x k _ trades od | J_give x k _ trades od _ =>
      if decide (k = inst) then midway B s gs inst x trades od
      else books s gs !! inst = B !! inst
  | _ => books s gs !! inst = B !! inst
  end.

(** The submission is under an id no order of the book has. *)
Lemma fresh_submit B od tm :
  fresh_run B [In_submit od tm] = true → ∀ a, B !! oinstrument od = Some a → ¬ has_id (oid od) a.
Proof.
  simpl. rewrite andb_true_r. intros H a E. rewrite E in H. by apply negb_true_iff, bool_decide_eq_false in H.
Qed.

(** A bound on the steps a worker has left with its command: a turn that trades
    takes a maker off the book, after which its slot is released, or leaves
    nothing to trade. *)
Definition turns_left (s : Sys) (gs : gmap Z GBook) (x : ptr) (inst : InstrumentId) : nat :=
  match order_at x s, gs !! inst with
  | Some o, Some g =>
      3 * length (flat (glevels (negb (is_buy (side o))) g)) + (if (remaining o =? 0)%Z then 0 else 1)
  | _, _ => 0
  end.

Definition job_left (s : Sys) (gs : gmap Z GBook) (j : Job) : nat :=
  match j with
  | J_idle => 0
  | J_return _ | J_drop _ => 1
  | J_match x inst _ _ _ => turns_left s gs x inst + 2
  | J_give x inst _ _ _ _ => turns_left s gs x inst + 3
  | J_called _ => 3 * capacity (pool_ s) + 4
  end.

(** Worker [i] ran from [j] to [j']. *)
Record staged (n i : nat) (U : Engine) (s : Sys) (gs : gmap Z GBook) (e : Engine) (j : Job)
    (U' : Engine) (s' : Sys) (gs' : gmap Z GBook) (e' : Engine) (j' : Job)
    (es : list (Input * Outcome)) : Prop := {
  sd_ok : engine_ok U' s' gs';
  sd_engine : (U' = U ∧ e' = e) ∨
    ∃ inst m, shard_for n inst = i ∧ U' = set_matcher inst m U ∧ e' = set_matcher inst m e;
  sd_outside : ∀ y, outside gs y → y ∉ job_slots j →
    order_at y s' = order_at y s ∧ (y ∈ free (pool_ s') → y ∈ free (pool_ s)) ∧ outside gs' y;
  sd_books : ∀ k, shard_for n k ≠ i → books s' gs' !! k = books s gs !! k;
  sd_safe : job_safe n i s' gs' j';
  sd_slots : NoDup (job_slots j') ∧ ∀ y, y ∈ job_slots j' → y ∈ job_slots j ∨ ¬ outside gs y;
  sd_left : job_left s' gs' j' < job_left s gs j ∧ capacity (pool_ s') = capacity (pool_ s);
  sd_order : (in_key <$> es.*1) ++ job_keys j' = job_keys j ∧
    Forall (λ k, shard_for n k.1.2 = i) (in_key <$> es.*1);
  sd_exact : ∀ B, engine_indexed U s gs →
    (∀ k, shard_for n k = i → book_spec B s gs k j) → fresh_run B es.*1 = true →
    engine_indexed U' s' gs' ∧ ∃ B', spec_run B es.*1 = (B', es.*2) ∧
      (∀ k, shard_for n k = i → book_spec B' s' gs' k j') ∧
      (∀ k, shard_for n k ≠ i → B' !! k = B !! k) }.

(** A clock reading changes nothing. *)
Lemma engine_ok_tick U p t t' gs : engine_ok U (mkSys p t) gs → engine_ok U (mkSys p t') gs.
Proof. by intros []. Qed.

(** A write to an order outside the books. *)
Lemma client_write U s gs x o o' t :
  engine_ok U s gs → client_order s gs x o → qty_ok o' →
  let s' := mkSys (with_storage (<[x := o']> (storage_ (pool_ s))) (pool_ s)) t in
  engine_ok U s' gs ∧ books s' gs = books s gs ∧ client_order s' gs x o' ∧
  (∀ y, y ≠ x → order_at y s' = order_at y s) ∧ (engine_indexed U s gs → engine_indexed U s' gs).
Proof.
  intros He Hx Hq s'.
  assert (length (<[x := o']> (storage_ (pool_ s))) = capacity (pool_ s)) as Hlen by apply length_insert.
  assert (∀ y, y ≠ x → order_at y s' = order_at y s) as Hat.
  { intros y Hy. unfold order_at. simpl. by rewrite list_lookup_insert_ne. }
  assert (∀ i g y, gs !! i = Some g → y ∈ resting g → order_at y s' = order_at y s) as Hin.
  { intros i g y Hg Hy. apply Hat. intros ->. by eapply (co_out _ _ _ _ Hx). }
  destruct (engine_ok_outside U s gs s' He) as [Hok Hb]; [by apply pool_ok_with_storage, He|done| |].
  { intros i g y Hg Hy. split; [by eapply Hin|done]. }
  split_and!; [done|done| |done|by apply engine_indexed_outside].
  constructor; [| |exact (co_out _ _ _ _ Hx)|done].
  - unfold order_at. simpl. apply lookup_upd_eq. exists o. apply Hx.
  - apply allocated_with_storage; [done|]. apply Hx.
Qed.

(** A change of one book and of orders outside all books. *)
Lemma book_change U s gs inst m' s' g g' xs :
  engine_ok U s gs → gs !! inst = Some g → only_touches (pool_ s) (pool_ s') g xs →
  (∀ x, x ∈ xs → outside gs x) → minv (pool_ s') (book_ m') g' → instrument_ (book_ m') = inst →
  (∀ y, y ∈ resting g' → y ∈ resting g ∨ y ∈ xs) →
  engine_ok (set_matcher inst m' U) s' (<[inst := g']> gs) ∧
  books s' (<[inst := g']> gs) = <[inst := absr (storage_ (pool_ s')) g']> (books s gs) ∧
  (∀ y, outside gs y → y ∉ xs →
     order_at y s' = order_at y s ∧ (y ∈ free (pool_ s') → y ∈ free (pool_ s)) ∧
     outside (<[inst := g']> gs) y).
Proof.
  intros He Hg Ht Hxs Hi Hinst Hsub.
  destruct (engine_update U s gs inst m' s' g g' xs) as [Hok Hb]; try done.
  { intros x k gk Hx Hk. by apply (Hxs x Hx k gk). }
  split_and!; [done|done|]. intros y Hy Hyx. split_and!.
  - apply (ot_store _ _ _ _ Ht); [by apply (Hy inst)|done].
  - intros Hf. apply (ot_free _ _ _ _ Ht) in Hf as [?|Hr]; [done|]. by destruct (Hy inst g Hg).
  - intros k gk [[_ <-]|[_ Hk]]%lookup_insert_Some; [|by apply (Hy k)].
    intros [?|?]%Hsub; [by apply (Hy inst g)|done].
Qed.

(** *** Releases *)

Lemma release_client U s gs x :
  engine_ok U s gs → is_client s gs x →
  ∃ s', release_order x s = Some s' ∧ engine_ok U s' gs ∧ books s' gs = books s gs ∧
    (∀ y, order_at y s' = order_at y s) ∧
    (∀ y, y ≠ x → y ∈ free (pool_ s') → y ∈ free (pool_ s)) ∧
    (engine_indexed U s gs → engine_indexed U s' gs) ∧ capacity (pool_ s') = capacity (pool_ s).
Proof.
  intros He [o Hc].
  destruct (release_order_spec U s gs x He (co_alloc _ _ _ _ Hc) (co_out _ _ _ _ Hc))
    as (s' & E & He' & Hb & Hf & _ & Hcap & Hix).
  exists s'. split_and!; try done.
  - intros y. by apply (release_order_at x).
  - intros y Hy. rewrite Hf. intros [?|?%list_elem_of_singleton]%elem_of_app; done.
Qed.

Lemma staged_return n i U s gs e x j :
  engine_ok U s gs → is_client s gs x → j = J_return x ∨ j = J_drop x →
  ∃ s', release_order x s = Some s' ∧ staged n i U s gs e j U s' gs e J_idle [].
Proof.
  intros He Hx Hj. destruct (release_client U s gs x He Hx) as (s' & E & He' & Hb & Hat & Hf & Hix & Hcap).
  exists s'. split; [done|]. constructor.
  - done.
  - by left.
  - intros y Hy Hn. split_and!; [done| |done]. apply Hf. destruct Hj as [->| ->]; set_solver.
  - intros k _. by rewrite Hb.
  - done.
  - split; [constructor|set_solver].
  - split; [destruct Hj as [->| ->]; simpl; lia|done].
  - split; [by destruct Hj as [->| ->]|constructor].
  - intros B Hi Hbs _. split; [auto|]. exists B. split_and!; [done| |done].
    intros k Hk. specialize (Hbs k Hk). simpl. rewrite Hb. by destruct Hj as [->| ->].
Qed.

Lemma midway_frame B s gs s' inst x trs od :
  books s' gs = books s gs → order_at x s' = order_at x s →
  midway B s gs inst x trs od → midway B s' gs inst x trs od.
Proof. intros Hb Hat (a0 & a & o & ? & ? & ? & ?). exists a0, a, o. by rewrite Hb, Hat. Qed.

Lemma staged_give n i U s gs e x inst t0 trs od mk :
  engine_ok U s gs → job_safe n i s gs (J_give x inst t0 trs od mk) → x ≠ mk →
  ∃ s', release_order mk s = Some s' ∧
    staged n i U s gs e (J_give x inst t0 trs od mk) U s' gs e (J_match x inst t0 trs od) [].
Proof.
  intros He [(Hcl & Hg & Hod & o & Hx & Ho) Hmk] Hne.
  destruct (release_client U s gs mk He Hmk) as (s' & E & He' & Hb & Hat & Hf & Hix & Hcap).
  exists s'. split; [done|]. constructor.
  - done.
  - by left.
  - intros y Hy Hn. split_and!; [done| |done]. apply Hf. set_solver.
  - intros k _. by rewrite Hb.
  - split_and!; [done|done|done|]. exists o. split; [|done].
    apply (client_order_frame clock s gs); [done|apply Hat|by apply Hf|exact (co_out _ _ _ _ Hx)].
  - simpl. split; [apply NoDup_singleton|]. set_solver.
  - split; [|done]. simpl. unfold turns_left. rewrite Hat. destruct (order_at x s), (gs !! inst); lia.
  - split; [done|constructor].
  - intros B Hi Hbs _. split; [auto|]. exists B. split_and!; [done| |done].
    intros k Hk. specialize (Hbs k Hk). simpl in *. destruct (decide (inst = k)); [|by rewrite Hb].
    by eapply midway_frame.
Qed.

(** *** Rejections *)

(** The specification rejects the order. *)
Definition spec_rejects (B : gmap Z ABook) (o : Order) : Prop :=
  ∀ a, B !! oinstrument o = Some a →
    a_submit (oinstrument o) 0 (data o) a = (a, set_status Rejected (data o), []).

Lemma spec_rejects_step B o :
  spec_rejects B o →
  spec_run B [In_submit (data o) 0] = (B, [Out_submit (data (set_status Rejected o)) []]).
Proof.
  intros H. simpl. change (oinstrument (data o)) with (oinstrument o). rewrite data_set_status.
  destruct (B !! oinstrument o) as [a|] eqn:E; [|done]. rewrite (H a E). by rewrite insert_id.
Qed.

Lemma staged_reject n i U s gs e x o cmd :
  engine_ok U s gs → client_order s gs x o → cmd = submit_command x o →
  (∀ B, books s gs !! oinstrument o = B !! oinstrument o → spec_rejects B o) →
  shard_for n (oinstrument o) = i →
  ∃ j' s' es, start_reject x o s = Some (j', s', es) ∧
    staged n i U s gs e (J_called cmd) U s' gs e j' es.
Proof.
  intros He Hc Hcmd Hrej Hcl. unfold start_reject, order_upd, finish.
  rewrite (hupd_some _ _ _ _ (co_at _ _ _ _ Hc)).
  destruct (client_write U s gs x o (set_status Rejected o) (ticks_ s) He Hc (co_qty _ _ _ _ Hc))
    as (He' & Hb & Hx & Hat & Hix).
  fold (set_pool (with_storage (<[x := set_status Rejected o]> (storage_ (pool_ s))) (pool_ s)) s)
    in He', Hb, Hx, Hat, Hix.
  rewrite (co_at _ _ _ _ Hx). change (is_terminal (set_status Rejected o)) with true. cbn iota.
  set (s' := set_pool _ s) in *.
  eexists _, s', _. split; [done|]. constructor.
  - done.
  - by left.
  - intros y Hy Hn. rewrite Hcmd in Hn. simpl in Hn. split_and!; [|done|done]. apply Hat. set_solver.
  - intros k _. by rewrite Hb.
  - by exists (set_status Rejected o).
  - rewrite Hcmd. simpl. split; [apply NoDup_singleton|]. set_solver.
  - split; [simpl; lia|]. unfold capacity. simpl. apply length_insert.
  - rewrite Hcmd. split; [done|]. by constructor.
  - intros B Hi Hbs _. split; [auto|]. exists B. split_and!; [|intros k Hk; simpl; rewrite Hb; exact (Hbs k Hk)|done].
    apply spec_rejects_step, Hrej. by apply Hbs.
Qed.

(** *** The start of a submission *)

Lemma staged_tick n i U s t gs e j U' s' gs' e' j' es :
  staged n i U (mkSys (pool_ s) t) gs e j U' s' gs' e' j' es → staged n i U s gs e j U' s' gs' e' j' es.
Proof. intros [H1 H2 H3 H4 H5 H6 H7 H8 H9].
  constructor; [exact H1|exact H2|exact H3|exact H4|exact H5|exact H6|exact H7|exact H8|exact H9]. Qed.

(** The guards of [Matcher::submit] are those of the specification. *)
Lemma guards_spec p b g o inst :
  minv p b g → qty_ok o → instrument_ b = inst →
  ∃ fillable,
    (if bool_decide (tif o = FOK) then can_fully_fill o b (storage_ p) else Some true) = Some fillable ∧
    a_accepts inst (data o) (absr (storage_ p) g) = negb (invalid (instrument_ b) o) && fillable.
Proof.
  intros Hi Hq <-. rewrite (can_fully_fill_spec _ _ _ _ Hi Hq).
  exists (negb (bool_decide (tif o = FOK) &&
    negb (remaining o <=? qty_total (crossing o (hview (storage_ p) (flat (glevels (negb (is_buy (side o))) g)))))%Z)).
  split; [destruct (bool_decide (tif o = FOK)), (_ <=? _)%Z; done|].
  unfold a_accepts. change (invalid _ (data o)) with (invalid (instrument_ b) o).
  change (tif (data o)) with (tif o). change (side (data o)) with (side o).
  rewrite data_remaining, absr_side.
  assert (∀ l, crossing (data o) l = crossing o l) as ->; [|done].
  intros l. induction l as [|m l IH]; simpl; [done|]. by rewrite stops_data, IH.
Qed.

Lemma books_some s gs inst g : gs !! inst = Some g → books s gs !! inst = Some (absr (storage_ (pool_ s)) g).
Proof. intros H. by rewrite books_lookup, H. Qed.

(** The loop begins. *)
Lemma staged_accept n i U s gs e x o cmd t0 :
  engine_ok U s gs → client_order s gs x o → cmd = submit_command x o → shard_for n (oinstrument o) = i →
  (∃ g, gs !! oinstrument o = Some g ∧
     a_accepts (oinstrument o) (data o) (absr (storage_ (pool_ s)) g) = true) →
  staged n i U s gs e (J_called cmd) U s gs e (J_match x (oinstrument o) t0 [] (data o)) [].
Proof.
  intros He Hc Hcmd Hcl (g & Hg & Hacc). constructor.
  - done.
  - by left.
  - done.
  - done.
  - split_and!; [done|by eexists|done|]. by exists o.
  - rewrite Hcmd. simpl. split; [apply NoDup_singleton|]. by left.
  - split; [|done]. simpl. unfold turns_left. rewrite (co_at _ _ _ _ Hc), Hg.
    destruct (proj1 (en_dom _ _ _ He _) ltac:(eauto)) as [m Em].
    destruct (en_slots _ _ _ He _ _ Em) as (g1 & Hg1 & Hm & _). rewrite Hg in Hg1. injection Hg1 as <-.
    pose proof (resting_length _ _ _ (negb (is_buy (side o))) Hm). destruct (_ =? 0)%Z; lia.
  - rewrite Hcmd. by split.
  - intros B Hi Hbs _. split; [done|]. exists B. split_and!; [done| |done].
    intros k Hk. simpl. destruct (decide (oinstrument o = k)) as [<-|]; [|exact (Hbs k Hk)].
    pose proof (books_some s gs _ g Hg) as Hb. pose proof (Hbs _ Hcl) as HB. simpl in HB.
    exists (absr (storage_ (pool_ s)) g), (absr (storage_ (pool_ s)) g), o. rewrite <- HB.
    split_and!; [done|done|apply Hc| |done|done|done].
    intros tm. by rewrite a_submit_finish, Hacc.
Qed.

Lemma staged_submit n i U s gs e x cmd :
  engine_ok U s gs → agree n i e U → cmd_given s gs cmd → corder cmd = Some x →
  shard_for n (cinstrument cmd) = i →
  ∃ j' s' es, start_submit x e s = Some (j', s', es) ∧
    staged n i U s gs e (J_called cmd) U s' gs e j' es.
Proof.
  intros He Ha Hr Hx Hcl. unfold cmd_given in Hr. rewrite Hx in Hr.
  destruct Hr as (o & Hc & Hcmd). rewrite Hcmd in Hcl. simpl in Hcl.
  unfold start_submit. rewrite (co_at _ _ _ _ Hc). destruct (agree_at _ _ _ _ _ Ha Hcl) as [-> _].
  destruct (matchers_ U !! oinstrument o) as [m|] eqn:Em; last first.
  { apply staged_reject; try done. intros B HB a Hb. rewrite <- HB, books_lookup in Hb.
    assert (gs !! oinstrument o = None) as Hg
      by (apply eq_None_not_Some; rewrite (en_dom _ _ _ He), Em; by intros []).
    by rewrite Hg in Hb. }
  destruct (en_slots _ _ _ He _ _ Em) as (g & Hg & Hm & Hinst).
  destruct (guards_spec (pool_ s) (book_ m) g o _ Hm (co_qty _ _ _ _ Hc) Hinst) as (fillable & Hf & Hacc).
  unfold now_ns. set (s0 := mkSys (pool_ s) (S (ticks_ s))).
  assert (engine_ok U s0 gs) as He0 by (by apply (engine_ok_tick U (pool_ s) (ticks_ s)); destruct s).
  assert (client_order s0 gs x o) as Hc0 by (by destruct Hc).
  assert (a_accepts (oinstrument o) (data o) (absr (storage_ (pool_ s)) g) = false →
    ∃ j' s' es, start_reject x o s0 = Some (j', s', es) ∧ staged n i U s gs e (J_called cmd) U s' gs e j' es) as Hrej.
  { intros Hno. destruct (staged_reject n i U s0 gs e x o cmd He0 Hc0 Hcmd) as (j' & s' & es & E & S); [|done|].
    - intros B HB a Hb. rewrite <- HB, (books_some s0 gs _ g Hg) in Hb. injection Hb as <-.
      rewrite a_submit_finish. change (storage_ (pool_ s0)) with (storage_ (pool_ s)). by rewrite Hno.
    - exists j', s', es. split; [done|]. by eapply staged_tick. }
  destruct (invalid (instrument_ (book_ m)) o) eqn:Einv; [by apply Hrej; rewrite Hacc|].
  change (storage_ (pool_ s0)) with (storage_ (pool_ s)). rewrite Hf.
  destruct fillable; cbn [negb]; [|by apply Hrej; rewrite Hacc].
  eexists _, s0, []. split; [done|]. eapply staged_tick, (staged_accept n i U s0); try done.
  exists g. split; [done|exact Hacc].
Qed.

(** *** The start of a cancellation *)

(** Nothing is found. *)
Lemma staged_not_found n i U s gs e inst id cmd :
  engine_ok U s gs → shard_for n inst = i → cmd_key cmd = (Cancel, inst, id) →
  (∀ a, engine_indexed U s gs → books s gs !! inst = Some a → ¬ has_id id a) →
  staged n i U s gs e (J_called cmd) U s gs e J_idle [(In_cancel inst id, Out_cancel false)].
Proof.
  intros He Hcl Hkey Hno. constructor; [done|by left|done|done|done| | | |].
  - split; [constructor|set_solver].
  - split; [simpl; lia|done].
  - simpl. rewrite Hkey. split; [done|by constructor].
  - intros B Hi Hbs _. split; [done|]. exists B. split_and!; [|done|done].
    pose proof (Hbs _ Hcl) as HB. simpl in HB |- *. rewrite <- HB.
    destruct (books s gs !! inst) as [a|] eqn:Ea; [|done].
    rewrite a_cancel_absent, insert_id, bool_decide_eq_false_2; [done| |by rewrite <- HB|]; by apply Hno.
Qed.

(** The order leaves the book. *)
Lemma staged_taken n i U s gs e inst id m g loc cmd :
  engine_ok U s gs → shard_for n inst = i → cmd_key cmd = (Cancel, inst, id) →
  matchers_ U !! inst = Some m → gs !! inst = Some g →
  minv (pool_ s) (book_ m) g → instrument_ (book_ m) = inst → order_map_ (book_ m) !! id = Some loc →
  ∃ b' h h1 g', cancel_and_get id (book_ m) (storage_ (pool_ s)) = Some (Some (loc_order loc), b', h) ∧
    hupd (set_status Cancelled) (loc_order loc) h = Some h1 ∧
    let m' := mkMatcher b' (stats_ m) in
    staged n i U s gs e (J_called cmd)
      (set_matcher inst m' U) (set_pool (with_storage h1 (pool_ s)) s) (<[inst := g']> gs)
      (set_matcher inst m' e) (J_drop (loc_order loc)) [(In_cancel inst id, Out_cancel true)].
Proof.
  intros He Hcl Hkey Em Hg Hm Hinst Hl.
  destruct (cancel_take id (book_ m) (pool_ s) g loc Hm Hl)
    as (b' & h & h1 & g' & o & E & E1 & Ho & Hid & Hr & (o1 & Ho1 & Hq1) & [Tl Tr Ts Tf Te Tv Ti Tm Tx]).
  exists b', h, h1, g'. split_and!; [done|done|]. intros m'. set (x := loc_order loc) in *.
  set (s' := set_pool (with_storage h1 (pool_ s)) s).
  assert (minv (pool_ s') b' g') as Hi'.
  { eapply minv_removed; try done. intros y oy [Hyx _]%Te. by apply Ts. }
  assert (only_touches (pool_ s) (pool_ s') g []) as Htouch.
  { constructor; [apply Hi'|done|intros y Hy _; by apply Tf|by left]. }
  destruct (book_change U s gs inst m' s' g g' [] He Hg Htouch) as (He' & Hb & Hout); try done.
  { by intros y ?%not_elem_of_nil. }
  { simpl. congruence. }
  { intros y [_ Hy]%Te. by left. }
  constructor.
  - done.
  - right. by exists inst, m'.
  - intros y Hy _. apply Hout; [done|set_solver].
  - intros k Hk. rewrite Hb, lookup_insert_ne by congruence. done.
  - exists o1. constructor; [done| | |done].
    + apply allocated_with_storage; [done|]. by apply Hm.
    + intros k gk [[_ <-]|[Hk Hgk]]%lookup_insert_Some; [by intros [? _]%Te|].
      intros Hx. exact (en_disj _ _ _ He inst k g gk Hg Hgk Hk x Hr Hx).
  - simpl. split; [apply NoDup_singleton|]. intros y ->%list_elem_of_singleton. right.
    intros Hx. by apply (Hx inst g Hg).
  - split; [simpl; lia|exact Tl].
  - simpl. rewrite Hkey. split; [done|by constructor].
  - intros B Hi Hbs _. pose proof (Hi _ _ _ Em Hg) as Hix. split.
    { eapply engine_indexed_update; [done|done|done|by intros ? ? ? ?%not_elem_of_nil|done|by apply Tx]. }
    pose proof (Hbs _ Hcl) as HB. simpl in HB. rewrite (books_some s gs _ g Hg) in HB.
    exists (<[inst := a_cancel id (absr (storage_ (pool_ s)) g)]> B). split_and!.
    + simpl. rewrite <- HB. rewrite bool_decide_eq_true_2; [done|].
      rewrite (indexed_has_id _ _ _ _ Hm Hix), Hl. by eexists.
    + intros k Hk. simpl. rewrite Hb. simpl.
      rewrite (cancel_absr _ _ _ _ _ _ _ _ Hix Hl Ho Hid Tv).
      destruct (decide (inst = k)) as [<-|Hne]; [by rewrite !lookup_insert_eq|].
      rewrite !lookup_insert_ne by done. exact (Hbs k Hk).
    + intros k Hk. rewrite lookup_insert_ne by congruence. done.
Qed.

Lemma staged_cancel n i U s gs e cmd :
  engine_ok U s gs → agree n i e U → kind cmd = Cancel → shard_for n (cinstrument cmd) = i →
  ∃ e' j' s' es U' gs', start_cancel (cinstrument cmd) (order_id cmd) e s = Some (e', j', s', es) ∧
    staged n i U s gs e (J_called cmd) U' s' gs' e' j' es.
Proof.
  intros He Ha Hkind Hcl. unfold start_cancel. set (inst := cinstrument cmd) in *.
  assert (cmd_key cmd = (Cancel, inst, order_id cmd)) as Hkey by (unfold cmd_key; by rewrite Hkind).
  destruct (agree_at _ _ _ _ _ Ha Hcl) as [Eagree _]. rewrite Eagree.
  destruct (matchers_ U !! inst) as [m|] eqn:Em; last first.
  { eexists e, _, s, _, U, gs. split; [done|]. apply staged_not_found; [done|done|done|].
    intros a _. rewrite books_lookup.
    assert (gs !! inst = None) as -> by (apply eq_None_not_Some; rewrite (en_dom _ _ _ He), Em; by intros []).
    done. }
  destruct (en_slots _ _ _ He _ _ Em) as (g & Hg & Hm & Hinst).
  destruct (order_map_ (book_ m) !! order_id cmd) as [loc|] eqn:El.
  - destruct (staged_taken n i U s gs e inst (order_id cmd) m g loc cmd) as (b' & h & h1 & g' & -> & -> & S); try done.
    eexists _, _, _, _, _, _. split; [done|exact S].
  - unfold cancel_and_get. rewrite El.
    replace (set_matcher inst (mkMatcher (book_ m) (stats_ m)) e) with e
      by (unfold set_matcher; rewrite insert_id by (by rewrite Eagree; destruct m); by destruct e).
    eexists e, _, s, _, U, gs. split; [by destruct s as [[] ?]|]. apply staged_not_found; [done|done|done|].
    intros a Hix. rewrite (books_some s gs _ g Hg). intros [= <-].
    rewrite (indexed_has_id _ _ _ _ Hm (Hix _ _ _ Em Hg)), El. by intros [].
Qed.

(** *** A turn that trades *)

Definition after_trade (x : ptr) (inst : InstrumentId) (t0 : Z) (trades : list Trade) (od : Order)
    (filled : option ptr) : Job :=
  match filled with
  | Some mk => J_give x inst t0 trades od mk
  | None => J_match x inst t0 trades od
  end.

Lemma trade_touches opp p b g x t tr filled p' b' g' t' :
  trade_post opp p b g x t tr filled p' b' g' t' → only_touches p p' g [x].
Proof.
  intros P. constructor.
  - apply (tp_inv _ _ _ _ _ _ _ _ _ _ _ _ P).
  - apply (tp_cap _ _ _ _ _ _ _ _ _ _ _ _ P).
  - intros y Hy Hyx. apply (tp_frame _ _ _ _ _ _ _ _ _ _ _ _ P); set_solver.
  - intros y. rewrite (tp_free _ _ _ _ _ _ _ _ _ _ _ _ P). by left.
Qed.

Lemma trade_ids opp p b g x t tr filled p' b' g' t' id :
  minv p b g → book_indexed (storage_ p) b g →
  trade_post opp p b g x t tr filled p' b' g' t' →
  has_id id (absr (storage_ p') g') → has_id id (absr (storage_ p) g).
Proof.
  intros Hi Hix P. rewrite (indexed_has_id p b g), (indexed_has_id p' b' g'); try done.
  - apply (tp_ids _ _ _ _ _ _ _ _ _ _ _ _ P).
  - apply (tp_inv _ _ _ _ _ _ _ _ _ _ _ _ P).
  - by apply (tp_index _ _ _ _ _ _ _ _ _ _ _ _ P).
Qed.

(** The submission is one trade further. *)
Lemma midway_trade B s gs inst x trs od o g b tr filled s' b' g' t' :
  gs !! inst = Some g → minv (pool_ s) b g → book_indexed (storage_ (pool_ s)) b g →
  trade_post (negb (is_buy (side o))) (pool_ s) b g x o tr filled (pool_ s') b' g' t' →
  order_at x s = Some o → midway B s gs inst x trs od →
  midway B s' (<[inst := g']> gs) inst x (trs ++ [tr]) od.
Proof.
  intros Hg Hi Hix P Ho (a0 & a & o1 & HB & Ha & Ho1 & Hfin & Hin & Hid & Hids).
  rewrite Ho in Ho1. injection Ho1 as <-. rewrite (books_some s gs _ g Hg) in Ha. injection Ha as <-.
  destruct (tp_kept _ _ _ _ _ _ _ _ _ _ _ _ P) as (Kid & _ & Ks).
  exists a0, (absr (storage_ (pool_ s')) g'), t'. split_and!; try done.
  - by rewrite (books_some s' _ inst g') by apply lookup_insert_eq.
  - apply (tp_taker _ _ _ _ _ _ _ _ _ _ _ _ P).
  - intros tm. rewrite <- Hfin. apply a_finish_trade.
    + exact Ks.
    + apply (tp_other _ _ _ _ _ _ _ _ _ _ _ _ P).
    + apply (tp_fills _ _ _ _ _ _ _ _ _ _ _ _ P).
  - congruence.
  - intros id Hh. apply Hids. by eapply trade_ids.
Qed.

(** The filled maker is off the book, its slot still in use. *)
Lemma filled_client U s gs inst g opp b x o tr mk s' b' g' t' :
  engine_ok U s gs → gs !! inst = Some g → minv (pool_ s) b g →
  trade_post opp (pool_ s) b g x o tr (Some mk) (pool_ s') b' g' t' →
  is_client s' (<[inst := g']> gs) mk.
Proof.
  intros He Hg Hi P. destruct (tp_filled _ _ _ _ _ _ _ _ _ _ _ _ P mk eq_refl) as (Hr & _ & mo & Hmo & Hq).
  exists mo. constructor; [done| | |done].
  - destruct (mi_alloc _ _ _ Hi mk Hr). split.
    + by rewrite (tp_cap _ _ _ _ _ _ _ _ _ _ _ _ P).
    + by rewrite (tp_free _ _ _ _ _ _ _ _ _ _ _ _ P).
  - intros k gk [[_ <-]|[Hk Hgk]]%lookup_insert_Some.
    + by intros [? _]%(tp_rest _ _ _ _ _ _ _ _ _ _ _ _ P).
    + intros Hx. exact (en_disj _ _ _ He inst k g gk Hg Hgk Hk mk Hr Hx).
Qed.

Lemma taker_client s gs inst g x o (p' : Pool) g' t' t :
  client_order s gs x o → gs !! inst = Some g → taker_ok p' g' x t' →
  client_order (mkSys p' t) (<[inst := g']> gs) x t'.
Proof.
  intros Hc Hg [Ht Hx Hal Hq]. constructor; [done|done| |done].
  intros k gk [[_ <-]|[_ Hk]]%lookup_insert_Some; [done|by apply (co_out _ _ _ _ Hc k)].
Qed.

Lemma trade_left s gs x inst t0 trs od trs' g o b b' h tr filled g' t' :
  gs !! inst = Some g → order_at x s = Some o →
  trade_post (negb (is_buy (side o))) (pool_ s) b g x o tr filled (with_storage h (pool_ s)) b' g' t' →
  job_left (set_pool (with_storage h (pool_ s)) s) (<[inst := g']> gs) (after_trade x inst t0 trs' od filled) <
    job_left s gs (J_match x inst t0 trs od).
Proof.
  intros Hg Ho P. pose proof (to_at _ _ _ _ (tp_taker _ _ _ _ _ _ _ _ _ _ _ _ P)) as Ht. simpl in Ht.
  destruct (tp_kept _ _ _ _ _ _ _ _ _ _ _ _ P) as (_ & _ & Ks).
  assert (turns_left (set_pool (with_storage h (pool_ s)) s) (<[inst := g']> gs) x inst + (match filled with Some _ => 1 | None => 0 end) <
    turns_left s gs x inst) as H; [|destruct filled; simpl; lia].
  unfold turns_left. rewrite Ho, Hg. unfold order_at at 1. simpl. rewrite Ht, lookup_insert_eq, Ks.
  destruct (tp_turns _ _ _ _ _ _ _ _ _ _ _ _ P) as [H|(-> & -> & Hz & ->)].
  - destruct (remaining t' =? 0)%Z, (remaining o =? 0)%Z, filled; lia.
  - rewrite (proj2 (Z.eqb_neq _ _) Hz). simpl. lia.
Qed.

Lemma staged_trade n i U s gs e x inst t0 trs od m g o b' h tr filled g' t' :
  engine_ok U s gs → shard_for n inst = i → matchers_ U !! inst = Some m → gs !! inst = Some g →
  minv (pool_ s) (book_ m) g → instrument_ (book_ m) = inst →
  client_order s gs x o → oinstrument o = inst → oinstrument od = inst →
  trade_post (negb (is_buy (side o))) (pool_ s) (book_ m) g x o tr filled (with_storage h (pool_ s)) b' g' t' →
  let m' := mkMatcher b' (stats_ m) in
  let s' := set_pool (with_storage h (pool_ s)) s in
  staged n i U s gs e (J_match x inst t0 trs od)
    (set_matcher inst m' U) s' (<[inst := g']> gs) (set_matcher inst m' e)
    (after_trade x inst t0 (trs ++ [tr]) od filled) [].
Proof.
  intros He Hcl Em Hg Hm Hinst Hc Ho Hod P m' s'. pose proof (trade_touches _ _ _ _ _ _ _ _ _ _ _ _ P) as Htouch.
  destruct (tp_kept _ _ _ _ _ _ _ _ _ _ _ _ P) as (_ & Kin & _).
  assert (∀ y, y ∈ [x] → outside gs y) as Hxs by (intros y ->%list_elem_of_singleton; exact (co_out _ _ _ _ Hc)).
  destruct (book_change U s gs inst m' s' g g' [x] He Hg Htouch Hxs) as (He' & Hb & Hout).
  { apply (tp_inv _ _ _ _ _ _ _ _ _ _ _ _ P). }
  { simpl. by rewrite (tp_inst _ _ _ _ _ _ _ _ _ _ _ _ P). }
  { intros y [_ Hy]%(tp_rest _ _ _ _ _ _ _ _ _ _ _ _ P). by left. }
  assert (taking n i s' (<[inst := g']> gs) x inst od) as Htk.
  { split_and!; [done|rewrite lookup_insert_eq; by eexists|done|]. exists t'. split; [|congruence].
    eapply taker_client; [done|done|]. apply (tp_taker _ _ _ _ _ _ _ _ _ _ _ _ P). }
  constructor.
  - done.
  - right. by exists inst, m'.
  - done.
  - intros k Hk. rewrite Hb, lookup_insert_ne by congruence. done.
  - destruct filled as [mk|]; simpl; [split; [done|]|done].
    eapply (filled_client U s gs inst g); [done|done|done|exact P].
  - destruct filled as [mk|]; simpl.
    + destruct (tp_filled _ _ _ _ _ _ _ _ _ _ _ _ P mk eq_refl) as (Hr & Hne & _).
      split; [apply NoDup_cons; split; [set_solver|apply NoDup_singleton]|].
      intros y [->|[->|[]%not_elem_of_nil]%elem_of_cons]%elem_of_cons; [left; set_solver|right].
      intros Hx. by apply (Hx inst g Hg).
    + split; [apply NoDup_singleton|by left].
  - split; [|apply (tp_cap _ _ _ _ _ _ _ _ _ _ _ _ P)]. exact (trade_left s gs x inst t0 trs od _ g o (book_ m) b' h tr filled g' t' Hg (co_at _ _ _ _ Hc) P).
  - split; [by destruct filled|constructor].
  - intros B Hi Hbs _. pose proof (Hi _ _ _ Em Hg) as Hix. split.
    { eapply engine_indexed_update; [done|done|done| |done|by apply (tp_index _ _ _ _ _ _ _ _ _ _ _ _ P)].
      intros y k gk Hy Hk. by apply (Hxs y Hy k). }
    exists B. split_and!; [done| |done]. intros k Hk. specialize (Hbs k Hk). simpl in Hbs.
    assert (if decide (inst = k) then midway B s' (<[inst := g']> gs) k x (trs ++ [tr]) od
            else books s' (<[inst := g']> gs) !! k = B !! k) as H; [|by destruct filled].
    destruct (decide (inst = k)) as [<-|Hne]; [|by rewrite Hb, lookup_insert_ne].
    eapply midway_trade; [done|done|done|exact P|apply Hc|done].
Qed.

(** *** The end of a submission *)

Lemma settle_touches p b g x t p' b' g' o' :
  settle_post p b g x t p' b' g' o' → only_touches p p' g [x].
Proof.
  intros P. constructor.
  - apply (se_inv _ _ _ _ _ _ _ _ _ P).
  - apply (se_cap _ _ _ _ _ _ _ _ _ P).
  - intros y Hy Hyx. apply (se_frame _ _ _ _ _ _ _ _ _ P); set_solver.
  - intros y. rewrite (se_free _ _ _ _ _ _ _ _ _ P). by left.
Qed.

(** The specification makes of the whole submission what has come of it. *)
Lemma midway_settle B s gs inst x trs od o g tm a' od' :
  gs !! inst = Some g → order_at x s = Some o →
  (let v := a_side (negb (is_buy (side o))) (absr (storage_ (pool_ s)) g) in
   fills (data o) v = ([], data o, v)) →
  a_settle tm (data o) (absr (storage_ (pool_ s)) g) = (a', od') →
  midway B s gs inst x trs od →
  spec_run B [In_submit od tm] = (<[inst := a']> B, [Out_submit od' trs]).
Proof.
  intros Hg Ho Hstop Hset (a0 & a & o1 & HB & Ha & Ho1 & Hfin & Hin & _).
  rewrite Ho in Ho1. injection Ho1 as <-. rewrite (books_some s gs _ g Hg) in Ha. injection Ha as <-.
  simpl. rewrite Hin, HB, <- Hfin, a_finish_stop by done. by rewrite Hset.
Qed.

(** The new id is in no order of the book. *)
Lemma midway_fresh B s gs inst x trs od o g b :
  gs !! inst = Some g → order_at x s = Some o → minv (pool_ s) b g →
  book_indexed (storage_ (pool_ s)) b g → midway B s gs inst x trs od →
  (∀ a, B !! oinstrument od = Some a → ¬ has_id (oid od) a) → order_map_ b !! oid o = None.
Proof.
  intros Hg Ho Hi Hix (a0 & a & o1 & HB & Ha & Ho1 & _ & Hin & Hid & Hids) Hfr.
  rewrite Ho in Ho1. injection Ho1 as <-. rewrite (books_some s gs _ g Hg) in Ha. injection Ha as <-.
  apply eq_None_not_Some. rewrite <- (indexed_has_id _ _ _ _ Hi Hix), <- Hid. intros Hh%Hids.
  apply (Hfr a0); [by rewrite Hin|done].
Qed.

Lemma staged_settle n i U s gs e x inst t0 trs od m g o p' b' g' o' tm t st :
  engine_ok U s gs → shard_for n inst = i → matchers_ U !! inst = Some m → gs !! inst = Some g →
  minv (pool_ s) (book_ m) g → instrument_ (book_ m) = inst → client_order s gs x o → oinstrument od = inst →
  (let v := a_side (negb (is_buy (side o))) (absr (storage_ (pool_ s)) g) in
   fills (data o) v = ([], data o, v)) →
  settle_post (pool_ s) (book_ m) g x o p' b' g' o' →
  a_settle tm (data o) (absr (storage_ (pool_ s)) g) = (absr (storage_ p') g', data o') →
  let m' := mkMatcher b' st in
  let s' := mkSys p' t in
  staged n i U s gs e (J_match x inst t0 trs od)
    (set_matcher inst m' U) s' (<[inst := g']> gs) (set_matcher inst m' e)
    (if is_terminal o' then J_return x else J_idle) [(In_submit od tm, Out_submit (data o') trs)].
Proof.
  intros He Hcl Em Hg Hm Hinst Hc Hod Hstop P Hset m' s'. pose proof (settle_touches _ _ _ _ _ _ _ _ _ P) as Htouch.
  assert (∀ y, y ∈ [x] → outside gs y) as Hxs by (intros y ->%list_elem_of_singleton; exact (co_out _ _ _ _ Hc)).
  destruct (book_change U s gs inst m' s' g g' [x] He Hg Htouch Hxs) as (He' & Hb & Hout).
  { apply (se_inv _ _ _ _ _ _ _ _ _ P). }
  { simpl. by rewrite (se_inst _ _ _ _ _ _ _ _ _ P). }
  { intros y [?|[-> _]]%(se_rest _ _ _ _ _ _ _ _ _ P); [by left|right; set_solver]. }
  constructor.
  - done.
  - right. by exists inst, m'.
  - done.
  - intros k Hk. rewrite Hb, lookup_insert_ne by congruence. done.
  - destruct (is_terminal o') eqn:Et; [|done]. exists o'. eapply taker_client; [done|done|].
    constructor; [apply (se_at _ _ _ _ _ _ _ _ _ P)| | |apply (se_qty _ _ _ _ _ _ _ _ _ P)].
    + intros Hx%(se_live _ _ _ _ _ _ _ _ _ P). congruence.
    + destruct (co_alloc _ _ _ _ Hc). split; [by rewrite (se_cap _ _ _ _ _ _ _ _ _ P)|].
      by rewrite (se_free _ _ _ _ _ _ _ _ _ P).
  - destruct (is_terminal o'); simpl; (split; [|set_solver]); [apply NoDup_singleton|constructor].
  - split; [destruct (is_terminal o'); simpl; lia|apply (se_cap _ _ _ _ _ _ _ _ _ P)].
  - simpl. rewrite Hod. split; [by destruct (is_terminal o')|by constructor].
  - intros B Hi Hbs Hfr. pose proof (Hi _ _ _ Em Hg) as Hix.
    pose proof (fresh_submit B od tm Hfr) as Hfr'.
    pose proof (Hbs inst Hcl) as Hmid. simpl in Hmid. rewrite decide_True in Hmid by done. split.
    { eapply engine_indexed_update; [done|done|done| |done|].
      - intros y k gk Hy Hk. by apply (Hxs y Hy k).
      - apply (se_index _ _ _ _ _ _ _ _ _ P); [done|].
        exact (midway_fresh B s gs inst x trs od o g (book_ m) Hg (co_at _ _ _ _ Hc) Hm Hix Hmid Hfr'). }
    exists (<[inst := absr (storage_ p') g']> B). split_and!.
    + eapply midway_settle; [done|apply Hc|done|done|done].
    + intros k Hk. specialize (Hbs k Hk). simpl in Hbs.
      assert (books s' (<[inst := g']> gs) !! k = <[inst := absr (storage_ p') g']> B !! k) as H;
        [|by destruct (is_terminal o')].
      rewrite Hb. simpl. destruct (decide (inst = k)) as [<-|Hne]; [by rewrite !lookup_insert_eq|].
      by rewrite !lookup_insert_ne.
    + intros k Hk. rewrite lookup_insert_ne by congruence. done.
Qed.

Lemma staged_go_on n i U s gs e x inst t0 trs od :
  engine_ok U s gs → agree n i e U → job_safe n i s gs (J_match x inst t0 trs od) →
  ∃ e' j' s' es U' gs', go_on x inst t0 trs od e s = Some (e', j', s', es) ∧
    staged n i U s gs e (J_match x inst t0 trs od) U' s' gs' e' j' es.
Proof.
  intros He Ha (Hcl & [g Hg] & Hod & o & Hc & Ho). unfold go_on.
  destruct (agree_at _ _ _ _ _ Ha Hcl) as [-> _].
  destruct (proj1 (en_dom _ _ _ He inst) ltac:(eauto)) as [m Em].
  destruct (en_slots _ _ _ He _ _ Em) as (g1 & Hg1 & Hm & Hinst). rewrite Hg in Hg1. injection Hg1 as <-.
  rewrite Em, (co_at _ _ _ _ Hc). pose proof (client_taker _ _ _ _ _ _ Hc Hg) as Ht.
  destruct (turn_spec (opposite (side o)) x (book_ m) (pool_ s) g o Hm Ht) as (r & -> & Hr).
  rewrite is_buy_opposite in Hr. destruct r as [|b' h tr filled].
  - unfold wrap_up. set (t1 := i64 (u64 (clock (ticks_ s)))).
    destruct (settle_spec x (book_ m) (pool_ s) g o t1 Hm Ht) as (b2 & p2 & -> & h3 & g' & o' & E3 & P & Hset);
      [congruence|].
    unfold now_ns, order_upd. simpl. fold t1. rewrite E3. unfold finish, order_at. simpl.
    pose proof (se_at _ _ _ _ _ _ _ _ _ P) as Hat. simpl in Hat. rewrite Hat.
    eexists _, _, _, _, _, _. split; [done|]. by eapply staged_settle.
  - destruct Hr as (g' & t' & P). eexists _, _, _, _, _, _. split; [done|]. by eapply staged_trade.
Qed.

(** ** The invariant of all threads *)

Definition w_slots (w : Worker) : list ptr := job_slots (w_job w) ++ omap corder (w_inbox w).
Definition pit_slots (hs : list ptr) (ws : list Worker) : list ptr := hs ++ (ws ≫= w_slots).

Definition worker_ok (n i : nat) (s : Sys) (gs : gmap Z GBook) (U : Engine) (w : Worker) : Prop :=
  agree n i (w_engine w) U ∧ job_safe n i s gs (w_job w) ∧
  ∀ cmd, cmd ∈ w_inbox w → cmd_given s gs cmd ∧ shard_for n (cinstrument cmd) = i.

Record pit_ok (n : nat) (st : Pit) (U : Engine) (gs : gmap Z GBook) : Prop := {
  po_len : length (p_workers st) = n;
  po_engine : engine_ok U (p_sys st) gs;
  po_workers : ∀ i w, p_workers st !! i = Some w → worker_ok n i (p_sys st) gs U w;
  po_slots : NoDup (pit_slots (p_held st) (p_workers st));
  po_held : ∀ x, x ∈ p_held st → is_client (p_sys st) gs x }.

(** The books are those of the specification, but for the submissions in
    progress. *)
Definition pit_exact (n : nat) (B0 : gmap Z ABook) (st : Pit) (U : Engine) (gs : gmap Z GBook) : Prop :=
  fresh_run B0 (p_log st).*1 = true →
  engine_indexed U (p_sys st) gs ∧
  ∃ B, spec_run B0 (p_log st).*1 = (B, (p_log st).*2) ∧
    ∀ i w k, p_workers st !! i = Some w → shard_for n k = i → book_spec B (p_sys st) gs k (w_job w).

Lemma job_client n i s gs j y : job_safe n i s gs j → y ∈ job_slots j → is_client s gs y.
Proof.
  destruct j as [|cmd|x inst t0 trs od|x inst t0 trs od mk|x|x]; simpl.
  - set_solver.
  - intros [Hr _] Hy. unfold cmd_given in Hr. destruct (corder cmd) as [x|]; [|set_solver].
    destruct Hr as (o & Hc & _). apply list_elem_of_singleton in Hy as ->. by exists o.
  - intros (_ & _ & _ & o & Hc & _) ->%list_elem_of_singleton. by exists o.
  - intros [(_ & _ & _ & o & Hc & _) Hm] [->| ->%list_elem_of_singleton]%elem_of_cons; [by exists o|done].
  - by intros H ->%list_elem_of_singleton.
  - by intros H ->%list_elem_of_singleton.
Qed.

Lemma worker_client n i s gs U w y : worker_ok n i s gs U w → y ∈ w_slots w → is_client s gs y.
Proof.
  intros (_ & Hj & Hi) [Hy|(cmd & Hc & Hy)%list_elem_of_omap]%elem_of_app; [by eapply job_client|].
  destruct (Hi cmd Hc) as [Hr _]. unfold cmd_given in Hr. rewrite Hy in Hr.
  destruct Hr as (o & ? & _). by exists o.
Qed.

Lemma pit_client n st U gs y :
  pit_ok n st U gs → y ∈ pit_slots (p_held st) (p_workers st) → is_client (p_sys st) gs y.
Proof.
  intros H [Hy|Hy]%elem_of_app; [by apply (po_held _ _ _ _ H)|].
  apply list_elem_of_bind in Hy as (w & Hy & (i & Hi)%list_elem_of_lookup).
  eapply worker_client; [exact (po_workers _ _ _ _ H i w Hi)|done].
Qed.

(** The commands of a shard are those in its history, then the one in
    progress, then those queued, in the order in which they were called. *)
Definition pit_order (n : nat) (cs : list Command) (st : Pit) : Prop :=
  ∀ i w, p_workers st !! i = Some w →
    cmd_key <$> of_shard n i cs =
      filter (λ k, shard_for n k.1.2 = i) (in_key <$> (p_log st).*1) ++
      job_keys (w_job w) ++ (cmd_key <$> w_inbox w).

(** *** What another thread leaves alone *)

Section frame.
Context (n i : nat) (s s' : Sys) (gs gs' : gmap Z GBook).
Context (Hgs : ∀ k, shard_for n k = i → is_Some (gs !! k) → is_Some (gs' !! k)).

Definition kept (xs : list ptr) : Prop :=
  ∀ y o, y ∈ xs → client_order s gs y o → client_order s' gs' y o.

Lemma given_frame cmd : kept (option_list (corder cmd)) → cmd_given s gs cmd → cmd_given s' gs' cmd.
Proof.
  unfold cmd_given. destruct (corder cmd) as [x|]; [|done]. intros F (o & Hc & ?).
  exists o. split; [|done]. apply F; [by left|done].
Qed.

Lemma taking_frame x inst od : kept [x] → taking n i s gs x inst od → taking n i s' gs' x inst od.
Proof.
  intros F (Hcl & Hg & Hod & o & Hc & Ho). split_and!; [done|by apply Hgs|done|]. exists o. split; [|done].
  apply F; [by left|done].
Qed.

Lemma is_client_frame x : kept [x] → is_client s gs x → is_client s' gs' x.
Proof. intros F [o Hc]. exists o. apply F; [by left|done]. Qed.

Lemma job_frame j : kept (job_slots j) → job_safe n i s gs j → job_safe n i s' gs' j.
Proof.
  intros F. destruct j as [|cmd|x inst t0 trs od|x inst t0 trs od mk|x|x]; simpl in *; [done| | | | |].
  - intros [Hr ?]. split; [by apply given_frame|done].
  - by apply taking_frame.
  - intros [Ht Hm]. split; [apply taking_frame; [|done]|apply is_client_frame; [|done]];
      intros y o ->%list_elem_of_singleton; apply F; set_solver.
  - by apply is_client_frame.
  - by apply is_client_frame.
Qed.

Lemma worker_frame U U' w :
  kept (w_slots w) → (agree n i (w_engine w) U → agree n i (w_engine w) U') →
  worker_ok n i s gs U w → worker_ok n i s' gs' U' w.
Proof.
  intros F Ha (Hag & Hj & Hi). split_and!; [by apply Ha| |].
  - apply job_frame; [|done]. intros y o Hy. apply F, elem_of_app. by left.
  - intros cmd Hc. destruct (Hi cmd Hc) as [Hr ?]. split; [|done]. apply given_frame; [|done].
    intros y o Hy. apply F, elem_of_app. right. apply list_elem_of_omap. exists cmd. split; [done|].
    destruct (corder cmd); simpl in Hy; [|by apply not_elem_of_nil in Hy].
    by apply list_elem_of_singleton in Hy as ->.
Qed.

Lemma book_frame B B' k j :
  kept (job_slots j) → job_safe n i s gs j → books s' gs' !! k = books s gs !! k → B' !! k = B !! k →
  book_spec B s gs k j → book_spec B' s' gs' k j.
Proof.
  intros F Hj Hb HB. assert (∀ x inst trs od, kept [x] → taking n i s gs x inst od →
    (if decide (inst = k) then midway B s gs k x trs od else books s gs !! k = B !! k) →
    if decide (inst = k) then midway B' s' gs' k x trs od else books s' gs' !! k = B' !! k) as Hmid.
  { intros x inst trs od Fx (_ & _ & _ & o & Hc & _) H. destruct (decide (inst = k)); [|congruence].
    destruct H as (a0 & a & o1 & ? & ? & Ho & ?). rewrite (co_at _ _ _ _ Hc) in Ho. injection Ho as <-.
    exists a0, a, o. rewrite Hb, HB. split; [done|]. split; [done|]. split; [|done].
    apply (co_at _ _ _ _ (Fx x o ltac:(by left) Hc)). }
  destruct j as [|cmd|x inst t0 trs od|x inst t0 trs od mk|x|x]; simpl in *; try congruence.
  - by apply Hmid.
  - apply Hmid; [|apply Hj]. intros y o ->%list_elem_of_singleton. apply F. set_solver.
Qed.
End frame.

(** The step of another thread leaves worker [k] its orders and its books. *)
Definition undisturbed (n k : nat) (s s' : Sys) (gs gs' : gmap Z GBook) (j : Job) : Prop :=
  kept s s' gs gs' (job_slots j) ∧ ∀ id, shard_for n id = k → books s' gs' !! id = books s gs !! id.

Lemma undisturbed_refl n k s gs j : undisturbed n k s s gs gs j.
Proof. split; [by intros y o _|done]. Qed.

Lemma pit_slots_at hs ws i w w' :
  ws !! i = Some w →
  pit_slots hs (<[i := w']> ws) ≡ₚ w_slots w' ++ (hs ++ (delete i ws ≫= w_slots)).
Proof.
  intros Hi. unfold pit_slots. rewrite (bind_insert_perm _ _ _ w w' Hi). apply Permutation_app_swap_app.
Qed.

Lemma pit_slots_id hs ws i w :
  ws !! i = Some w → pit_slots hs ws ≡ₚ w_slots w ++ (hs ++ (delete i ws ≫= w_slots)).
Proof. intros Hi. rewrite <- (pit_slots_at hs ws i w w Hi). by rewrite list_insert_id. Qed.

Lemma other_slots hs ws i j w y :
  ws !! j = Some w → i ≠ j → y ∈ w_slots w → y ∈ hs ++ (delete i ws ≫= w_slots).
Proof.
  intros Hj Hij Hy. apply elem_of_app. right. apply list_elem_of_bind. exists w. split; [done|].
  apply list_elem_of_lookup. destruct (decide (j < i)).
  - exists j. by rewrite list_lookup_delete_lt.
  - exists (pred j). rewrite list_lookup_delete_ge by lia. by replace (S (pred j)) with j by lia.
Qed.

(** *** A worker's queue, and calls of clients *)

Lemma pit_local n ws s hs hs' l U gs i w w' :
  pit_ok n (mkPit ws s hs l) U gs → ws !! i = Some w → worker_ok n i s gs U w' →
  hs' ++ w_slots w' ≡ₚ hs ++ w_slots w → (∀ x, x ∈ hs' → is_client s gs x) →
  pit_ok n (mkPit (<[i := w']> ws) s hs' l) U gs.
Proof.
  intros [Hn He Hw Hs Hh] Hi Hw' Hp Hh'. simpl in *. constructor; simpl; try done.
  - by rewrite length_insert.
  - intros j wj [(<- & <- & _)|[_ Hj]]%list_lookup_insert_Some; [done|by apply Hw].
  - rewrite (pit_slots_at hs' ws i w w' Hi), Permutation_app_swap_app, app_assoc, Hp, <- app_assoc.
    by rewrite Permutation_app_swap_app, <- (pit_slots_id hs ws i w Hi).
Qed.

Lemma exact_local n B0 ws s hs hs' l U gs i w w' :
  ws !! i = Some w → (∀ B k, shard_for n k = i → book_spec B s gs k (w_job w) → book_spec B s gs k (w_job w')) →
  pit_exact n B0 (mkPit ws s hs l) U gs → pit_exact n B0 (mkPit (<[i := w']> ws) s hs' l) U gs.
Proof.
  intros Hi Hw H Hf. destruct (H Hf) as (Hix & B & HB & Hbs). split; [done|]. exists B. split; [done|]. simpl in *.
  intros j wj k [(<- & <- & _)|[_ Hj]]%list_lookup_insert_Some Hk; [|by eapply Hbs].
  apply Hw; [done|]. by eapply Hbs.
Qed.

(** *** A worker's steps *)

Section worked.
Context (n : nat) (ws : list Worker) (s : Sys) (hs : list ptr) (l : list (Input * Outcome)).
Context (U : Engine) (gs : gmap Z GBook) (i : nat) (e : Engine) (q : list Command) (j : Job).
Context (U' : Engine) (s' : Sys) (gs' : gmap Z GBook) (e' : Engine) (j' : Job).
Context (es : list (Input * Outcome)).
Context (Hok : pit_ok n (mkPit ws s hs l) U gs) (Hi : ws !! i = Some (mkWorker e q j)).
Context (S : staged n i U s gs e j U' s' gs' e' j' es).

(** What a worker has queued, and what the others own, stays. *)
Lemma worked_kept y :
  y ∈ omap corder q ++ (hs ++ (delete i ws ≫= w_slots)) →
  ∀ o, client_order s gs y o → client_order s' gs' y o.
Proof.
  intros Hy o Hc. pose proof (po_slots _ _ _ _ Hok) as Hnd. simpl in Hnd.
  rewrite (pit_slots_id hs ws i _ Hi) in Hnd. unfold w_slots at 1 in Hnd. simpl in Hnd.
  rewrite <- app_assoc in Hnd. apply NoDup_app in Hnd as (_ & Hd & _).
  destruct (sd_outside _ _ _ _ _ _ _ _ _ _ _ _ _ S y) as (Hat & Hf & Hout).
  - exact (co_out _ _ _ _ Hc).
  - intros Hj. by apply (Hd y).
  - by apply (client_order_frame clock s gs).
Qed.

Lemma worked_gs k : is_Some (gs !! k) → is_Some (gs' !! k).
Proof.
  rewrite (en_dom _ _ _ (po_engine _ _ _ _ Hok)), (en_dom _ _ _ (sd_ok _ _ _ _ _ _ _ _ _ _ _ _ _ S)).
  destruct (sd_engine _ _ _ _ _ _ _ _ _ _ _ _ _ S) as [[-> _]|(inst & m & _ & -> & _)]; [done|].
  cbn [set_matcher matchers_]. destruct (decide (inst = k)) as [<-|Hne]; [rewrite lookup_insert_eq; by eexists|].
  by rewrite lookup_insert_ne.
Qed.

Lemma worked_agree k wk :
  agree n k (w_engine wk) U → k ≠ i → agree n k (w_engine wk) U'.
Proof.
  intros Ha Hk. destruct (sd_engine _ _ _ _ _ _ _ _ _ _ _ _ _ S) as [[-> _]|(inst & m & Hc & -> & _)]; [done|].
  apply agree_set_other; [done|congruence].
Qed.

Lemma worked_slots : NoDup (pit_slots hs (<[i := mkWorker e' q j']> ws)).
Proof.
  rewrite (pit_slots_at hs ws i _ _ Hi). unfold w_slots at 1. simpl. rewrite <- app_assoc.
  pose proof (po_slots _ _ _ _ Hok) as Hnd. simpl in Hnd.
  rewrite (pit_slots_id hs ws i _ Hi) in Hnd. unfold w_slots at 1 in Hnd. simpl in Hnd.
  rewrite <- app_assoc in Hnd. apply NoDup_app in Hnd as (_ & Hd & Hnd).
  destruct (sd_slots _ _ _ _ _ _ _ _ _ _ _ _ _ S) as [Hnd' Hsub].
  apply NoDup_app. split_and!; [done| |done]. intros y [Hy|Hy]%Hsub; [by apply Hd|].
  intros Hin. apply Hy. assert (is_client s gs y) as [o Hc]; [|exact (co_out _ _ _ _ Hc)].
  apply (pit_client n _ U gs y Hok). simpl. rewrite (pit_slots_id hs ws i _ Hi). unfold w_slots at 1. simpl.
  rewrite <- app_assoc. apply elem_of_app. by right.
Qed.

Lemma worked_ok : pit_ok n (mkPit (<[i := mkWorker e' q j']> ws) s' hs (l ++ es)) U' gs'.
Proof.
  pose proof Hok as [Hn He Hw Hs Hh]. simpl in *. constructor; simpl.
  - by rewrite length_insert.
  - apply S.
  - intros k wk [(<- & <- & _)|[Hik Hk]]%list_lookup_insert_Some.
    + destruct (Hw i _ Hi) as (Hag & _ & Hq). split_and!; simpl in *.
      * destruct (sd_engine _ _ _ _ _ _ _ _ _ _ _ _ _ S) as [[-> ->]|(inst & m & Hc & -> & ->)]; [done|].
        by apply agree_set.
      * apply S.
      * intros cmd Hcmd. destruct (Hq cmd Hcmd) as [Hr Hc]. split; [|done].
        eapply given_frame; [|done]. intros y o Hy. apply worked_kept, elem_of_app. left.
        apply list_elem_of_omap. exists cmd. split; [done|].
        destruct (corder cmd); simpl in Hy; [|by apply not_elem_of_nil in Hy].
        by apply list_elem_of_singleton in Hy as ->.
    + apply (worker_frame n k s s' gs gs') with U.
      * intros ? _. apply worked_gs.
      * intros y o Hy. apply worked_kept, elem_of_app. right. by eapply other_slots.
      * intros Ha. apply worked_agree; [done|congruence].
      * by apply Hw.
  - apply worked_slots.
  - intros x Hx. destruct (Hh x Hx) as [o Hc]. exists o. apply worked_kept; [|done].
    apply elem_of_app. right. apply elem_of_app. by left.
Qed.

Lemma worked_others k wk : ws !! k = Some wk → k ≠ i → undisturbed n k s s' gs gs' (w_job wk).
Proof.
  intros Hk Hik. split.
  - intros y o Hy. apply worked_kept, elem_of_app. right. eapply other_slots; [done|done|]. apply elem_of_app. by left.
  - intros id Hid. apply (sd_books _ _ _ _ _ _ _ _ _ _ _ _ _ S). congruence.
Qed.

Lemma worked_exact B0 :
  pit_exact n B0 (mkPit ws s hs l) U gs →
  pit_exact n B0 (mkPit (<[i := mkWorker e' q j']> ws) s' hs (l ++ es)) U' gs'.
Proof.
  intros H. unfold pit_exact in *. cbn [p_log p_workers p_sys] in *.
  rewrite !fmap_app, fresh_run_app, spec_run_app. intros [Hf Hf']%andb_true_iff.
  destruct (H Hf) as (Hix & B & HB & Hbs). rewrite HB in Hf' |- *. simpl in Hf'.
  destruct (sd_exact _ _ _ _ _ _ _ _ _ _ _ _ _ S B Hix) as (Hix' & B' & HB' & Hown & Hother); [|done|].
  { intros k Hk. exact (Hbs i _ k Hi Hk). }
  split; [done|]. exists B'. rewrite HB'. split; [done|].
  intros k wk id [(<- & <- & _)|[Hik Hk]]%list_lookup_insert_Some Hid; [by apply Hown|].
  destruct (po_workers _ _ _ _ Hok k wk Hk) as (_ & Hj & _).
  apply (book_frame n k s s' gs gs' ltac:(intros ? _; apply worked_gs) B); [| | |apply Hother; congruence|].
  - intros y o Hy. apply worked_kept, elem_of_app. right. apply (other_slots hs ws i k wk); [done|done|].
    apply elem_of_app. by left.
  - done.
  - apply (sd_books _ _ _ _ _ _ _ _ _ _ _ _ _ S). congruence.
  - by eapply Hbs.
Qed.
End worked.

(** What a worker has yet to do shrinks by what enters the history. *)
Definition in_order (n i : nat) (w w' : Worker) (es : list (Input * Outcome)) : Prop :=
  (in_key <$> es.*1) ++ job_keys (w_job w') ++ (cmd_key <$> w_inbox w') =
    job_keys (w_job w) ++ (cmd_key <$> w_inbox w) ∧
  Forall (λ k, shard_for n k.1.2 = i) (in_key <$> es.*1).

(** The command is nearer to its end; the queue is as it was. *)
Definition nearer (s : Sys) (gs : gmap Z GBook) (w : Worker) (s' : Sys) (gs' : gmap Z GBook) (w' : Worker) : Prop :=
  w_job w ≠ J_idle → job_left s' gs' (w_job w') < job_left s gs (w_job w) ∧ w_inbox w' = w_inbox w.

(** The worker's next step is defined, and keeps the invariant. *)
Lemma pit_work n ws s hs l U gs i w :
  pit_ok n (mkPit ws s hs l) U gs → ws !! i = Some w →
  ∃ w' s' es, work w s = Some (w', s', es) ∧
  ∃ U' gs', pit_ok n (mkPit (<[i := w']> ws) s' hs (l ++ es)) U' gs' ∧
    (∀ B0, pit_exact n B0 (mkPit ws s hs l) U gs →
       pit_exact n B0 (mkPit (<[i := w']> ws) s' hs (l ++ es)) U' gs') ∧
    in_order n i w w' es ∧ nearer s gs w s' gs' w' ∧
    (∀ k wk, ws !! k = Some wk → k ≠ i → undisturbed n k s s' gs gs' (w_job wk)) ∧
    capacity (pool_ s') = capacity (pool_ s).
Proof.
  intros Hok Hi. pose proof (po_engine _ _ _ _ Hok) as He.
  destruct (po_workers _ _ _ _ Hok i w Hi) as (Hag & Hj & Hq). simpl in He, Hag, Hj, Hq.
  pose proof (po_slots _ _ _ _ Hok) as Hnd. simpl in Hnd. rewrite (pit_slots_id hs ws i w Hi) in Hnd.
  destruct w as [e q j]. simpl in *. unfold w_slots at 1 in Hnd. simpl in Hnd.
  assert (∀ e' j' s' es U' gs', staged n i U s gs e j U' s' gs' e' j' es →
    ∃ U' gs', pit_ok n (mkPit (<[i := mkWorker e' q j']> ws) s' hs (l ++ es)) U' gs' ∧
      (∀ B0, pit_exact n B0 (mkPit ws s hs l) U gs →
         pit_exact n B0 (mkPit (<[i := mkWorker e' q j']> ws) s' hs (l ++ es)) U' gs') ∧
      in_order n i (mkWorker e q j) (mkWorker e' q j') es ∧
      nearer s gs (mkWorker e q j) s' gs' (mkWorker e' q j') ∧
      (∀ k wk, ws !! k = Some wk → k ≠ i → undisturbed n k s s' gs gs' (w_job wk)) ∧
      capacity (pool_ s') = capacity (pool_ s)) as Hdone.
  { intros e' j' s' es U' gs' S. exists U', gs'. split_and!.
    - by eapply worked_ok.
    - intros B0. by eapply worked_exact.
    - destruct (sd_order _ _ _ _ _ _ _ _ _ _ _ _ _ S) as [Ho Hf]. split; [|done]. simpl. by rewrite app_assoc, Ho.
    - intros _. simpl. split; [apply S|done].
    - intros k wk. by eapply worked_others.
    - apply S. }
  destruct j as [|cmd|x inst t0 trs od|x inst t0 trs od mk|x|x].
  - destruct q as [|cmd q]; eexists _, s, []; (split; [done|]); exists U, gs; rewrite app_nil_r.
    { rewrite list_insert_id by done. split_and!; try done. intros; apply undisturbed_refl. }
    destruct (Hq cmd ltac:(left)) as [Hr Hc]. split_and!; [| |done|by intros []|intros; apply undisturbed_refl|done].
    + eapply pit_local; [done|done| | |exact (po_held _ _ _ _ Hok)].
      * split_and!; [done|done|]. intros c Hc'. apply Hq. by right.
      * unfold w_slots. simpl. f_equiv. by destruct (corder cmd).
    + intros B0. by eapply exact_local.
  - destruct Hj as [Hr Hc]. pose proof Hr as Hr0. unfold cmd_given in Hr0.
    destruct (corder cmd) as [x|] eqn:Ex.
    + destruct Hr0 as (o & _ & Ecmd). assert (kind cmd = Submit) as -> by (by rewrite Ecmd).
      destruct (staged_submit n i U s gs e x cmd He Hag Hr Ex Hc) as (j' & s' & es & -> & S).
      eexists _, _, _. split; [done|]. by eapply Hdone.
    + rewrite Hr0. destruct (staged_cancel n i U s gs e cmd He Hag Hr0 Hc) as (e' & j' & s' & es & U' & gs' & -> & S).
      eexists _, _, _. split; [done|]. by eapply Hdone.
  - destruct (staged_go_on n i U s gs e x inst t0 trs od He Hag Hj) as (e' & j' & s' & es & U' & gs' & -> & S).
    eexists _, _, _. split; [done|]. by eapply Hdone.
  - assert (x ≠ mk) as Hne by (intros ->; apply NoDup_cons in Hnd as [Hx _]; set_solver).
    destruct (staged_give n i U s gs e x inst t0 trs od mk He Hj Hne) as (s' & -> & S).
    eexists _, _, _. split; [done|]. by eapply Hdone.
  - destruct (staged_return n i U s gs e x (J_return x) He Hj) as (s' & -> & S); [by left|].
    eexists _, _, _. split; [done|]. by eapply Hdone.
  - destruct (staged_return n i U s gs e x (J_drop x) He Hj) as (s' & -> & S); [by right|].
    eexists _, _, _. split; [done|]. by eapply Hdone.
Qed.

(** *** The clients' steps *)

(** A change of orders that are in no book and that no worker owns. *)
Lemma pit_client_step n ws s s' hs hs' l U gs :
  pit_ok n (mkPit ws s hs l) U gs → engine_ok U s' gs → books s' gs = books s gs →
  (engine_indexed U s gs → engine_indexed U s' gs) →
  (∀ y o, y ∈ ws ≫= w_slots → client_order s gs y o → client_order s' gs y o) →
  NoDup (pit_slots hs' ws) → (∀ x, x ∈ hs' → is_client s' gs x) →
  pit_ok n (mkPit ws s' hs' l) U gs ∧
  (∀ B0, pit_exact n B0 (mkPit ws s hs l) U gs → pit_exact n B0 (mkPit ws s' hs' l) U gs) ∧
  ∀ k wk, ws !! k = Some wk → undisturbed n k s s' gs gs (w_job wk).
Proof.
  intros [Hn He Hw Hs Hh] He' Hb Hix Hk Hs' Hh'. simpl in *.
  assert (∀ i w y o, ws !! i = Some w → y ∈ w_slots w → client_order s gs y o → client_order s' gs y o) as Hkeep.
  { intros i w y o Hi Hy. apply Hk, list_elem_of_bind. exists w. split; [done|by eapply list_elem_of_lookup_2]. }
  split_and!.
  - constructor; simpl; try done. intros i w Hi.
    apply (worker_frame n i s s' gs gs) with U; [done| |done|by apply Hw].
    intros y o Hy. by eapply Hkeep.
  - intros B0 H Hf. destruct (H Hf) as (Hi & B & HB & Hbs). simpl in *.
    split; [auto|]. exists B. split; [done|]. intros i w k Hwi Hk'.
    apply (book_frame n i s s' gs gs ltac:(done) B); [|by apply Hw|by rewrite Hb|done|by eapply Hbs].
    intros y o Hy. eapply Hkeep; [done|]. apply elem_of_app. by left.
  - intros k wk Hwk. split; [|by rewrite Hb]. intros y o Hy. eapply Hkeep; [done|]. apply elem_of_app. by left.
Qed.

Lemma pit_acquire n ws s hs l U gs x s' :
  pit_ok n (mkPit ws s hs l) U gs → acquire_order s = Some (Some x, s') →
  pit_ok n (mkPit ws s' (x :: hs) l) U gs ∧
  (∀ B0, pit_exact n B0 (mkPit ws s hs l) U gs → pit_exact n B0 (mkPit ws s' (x :: hs) l) U gs) ∧
  ∀ k wk, ws !! k = Some wk → undisturbed n k s s' gs gs (w_job wk).
Proof.
  intros Hok Ha. pose proof (po_engine _ _ _ _ Hok) as He. simpl in He.
  destruct (acquire_frame clock U s gs x s' He Ha) as (He' & Hx & Hxf & Hfr & Hb & Hix).
  eapply pit_client_step; try done; [intros y o _; apply Hfr| |].
  - unfold pit_slots. simpl. constructor; [|apply Hok]. intros Hin.
    destruct (pit_client n _ U gs x Hok Hin) as [o Hc]. by destruct (co_alloc _ _ _ _ Hc).
  - intros y [->|Hy]%elem_of_cons; [by exists Order_init|].
    destruct (po_held _ _ _ _ Hok y Hy) as [o Hc]. exists o. by apply Hfr.
Qed.

Lemma pit_write n ws s hs l U gs x o s' :
  pit_ok n (mkPit ws s hs l) U gs → x ∈ hs → qty_ok o → write_order o x s = Some s' →
  pit_ok n (mkPit ws s' hs l) U gs ∧
  (∀ B0, pit_exact n B0 (mkPit ws s hs l) U gs → pit_exact n B0 (mkPit ws s' hs l) U gs) ∧
  ∀ k wk, ws !! k = Some wk → undisturbed n k s s' gs gs (w_job wk).
Proof.
  intros Hok Hx Hq. pose proof (po_engine _ _ _ _ Hok) as He. simpl in He.
  destruct (po_held _ _ _ _ Hok x Hx) as [ox Hc]. simpl in Hc.
  unfold write_order, order_upd. rewrite (hupd_some _ _ _ _ (co_at _ _ _ _ Hc)). intros E. apply (inj Some) in E.
  destruct (client_write U s gs x ox o (ticks_ s) He Hc Hq) as (He' & Hb & Hc' & Hat & Hix).
  fold (set_pool (with_storage (<[x := o]> (storage_ (pool_ s))) (pool_ s)) s) in He', Hb, Hc', Hat, Hix.
  rewrite E in He', Hb, Hc', Hat, Hix.
  assert (∀ y oy, y ≠ x → client_order s gs y oy → client_order s' gs y oy) as Hfr.
  { intros y oy Hy Hcy. apply (client_order_frame clock s gs); [done|by apply Hat| |exact (co_out _ _ _ _ Hcy)].
    by rewrite <- E. }
  eapply pit_client_step; try done; [|apply Hok|].
  - intros y oy Hy. apply Hfr. intros ->. pose proof (po_slots _ _ _ _ Hok) as Hnd. simpl in Hnd.
    apply NoDup_app in Hnd as (_ & Hd & _). by apply (Hd x).
  - intros y Hy. destruct (decide (y = x)) as [->|Hne]; [by exists o|].
    destruct (po_held _ _ _ _ Hok y Hy) as [oy Hcy]. exists oy. by apply Hfr.
Qed.

Lemma pit_call n ws s hs hs' l U gs cmd w :
  pit_ok n (mkPit ws s hs l) U gs → ws !! shard_for n (cinstrument cmd) = Some w →
  hs ≡ₚ option_list (corder cmd) ++ hs' → cmd_given s gs cmd →
  let st' := mkPit (<[shard_for n (cinstrument cmd) := enqueue cmd w]> ws) s hs' l in
  pit_ok n st' U gs ∧ ∀ B0, pit_exact n B0 (mkPit ws s hs l) U gs → pit_exact n B0 st' U gs.
Proof.
  intros Hok Hi Hp Hr. destruct (po_workers _ _ _ _ Hok _ w Hi) as (Hag & Hj & Hq). split.
  - eapply pit_local; [done|done| | |].
    + split_and!; [done|done|]. simpl. intros c [Hc| ->%list_elem_of_singleton]%elem_of_app; [by apply Hq|done].
    + unfold w_slots. simpl. rewrite omap_app, Hp. simpl.
      replace (match corder cmd with Some y => [y] | None => [] end) with (option_list (corder cmd)) by by destruct (corder cmd).
      rewrite !app_assoc, (Permutation_app_comm _ (option_list _)), !app_assoc. done.
    + intros x Hx. apply (po_held _ _ _ _ Hok). simpl. rewrite Hp. apply elem_of_app. by right.
  - intros B0. by eapply exact_local.
Qed.

Lemma pit_step_ok n st c st' U gs :
  pit_ok n st U gs → pit_step st c st' →
  ∃ U' gs', pit_ok n st' U' gs' ∧ ∀ B0, pit_exact n B0 st U gs → pit_exact n B0 st' U' gs'.
Proof.
  intros Hok St. pose proof (po_len _ _ _ _ Hok) as Hn.
  destruct St as [ws s hs l x s' Ha|ws s hs l x o s' Hx Hq Hw|ws s hs1 hs2 l x o w Ho Hi|
    ws s hs l inst id w Hi|ws s hs l i w w' s' es Hi Hw]; simpl in Hn.
  - exists U, gs. by destruct (pit_acquire n ws s hs l U gs x s' Hok Ha) as (? & ? & _).
  - exists U, gs. by destruct (pit_write n ws s hs l U gs x o s' Hok Hx Hq Hw) as (? & ? & _).
  - exists U, gs. rewrite Hn in *.
    destruct (po_held _ _ _ _ Hok x) as [o' Hc]; [simpl; set_solver|]. simpl in Hc.
    pose proof (co_at _ _ _ _ Hc) as Hat. rewrite Ho in Hat. injection Hat as <-.
    apply (pit_call n ws s (hs1 ++ x :: hs2) (hs1 ++ hs2) l U gs (submit_command x o) w Hok Hi).
    + simpl. by rewrite <- Permutation_middle.
    + by exists o.
  - exists U, gs. rewrite Hn in *. by apply (pit_call n ws s hs hs l U gs (cancel_command inst id) w Hok Hi).
  - destruct (pit_work n ws s hs l U gs i w Hok Hi) as (w1 & s1 & es1 & E & U' & gs' & H).
    rewrite Hw in E. apply (inj Some) in E. injection E as -> -> ->. exists U', gs'. by destruct H as (? & ? & _).
Qed.

(** *** Order *)

Lemma order_call n cs ws s hs hs' l cmd w :
  length ws = n → ws !! shard_for n (cinstrument cmd) = Some w →
  pit_order n cs (mkPit ws s hs l) →
  pit_order n (cs ++ [cmd]) (mkPit (<[shard_for n (cinstrument cmd) := enqueue cmd w]> ws) s hs' l).
Proof.
  intros Hn Hi Ho k wk Hk. simpl in *. rewrite of_shard_snoc, fmap_app.
  apply list_lookup_insert_Some in Hk as [(<- & <- & _)|[Hne Hk]].
  - rewrite decide_True by done. simpl. rewrite fmap_app. rewrite (Ho _ w Hi). by rewrite <- !app_assoc.
  - rewrite decide_False, app_nil_r by done. by apply Ho.
Qed.

Lemma order_work n cs ws s hs l i w w' s' es :
  ws !! i = Some w → in_order n i w w' es → pit_order n cs (mkPit ws s hs l) →
  pit_order n cs (mkPit (<[i := w']> ws) s' hs (l ++ es)).
Proof.
  intros Hi [Ho Hf] H k wk Hk. simpl in *. rewrite !fmap_app, filter_app. rewrite Forall_forall in Hf.
  apply list_lookup_insert_Some in Hk as [(<- & <- & _)|[Hne Hk]].
  - rewrite (filter_all _ (in_key <$> es.*1)) by done. rewrite <- app_assoc, Ho. by apply H.
  - rewrite (filter_none _ (in_key <$> es.*1)), app_nil_r; [by apply H|].
    intros x Hx. rewrite (Hf x Hx). congruence.
Qed.

Lemma pit_step_order n cs st c st' U gs :
  pit_ok n st U gs → pit_step st c st' → pit_order n cs st → pit_order n (cs ++ c) st'.
Proof.
  intros Hok St Ho. pose proof (po_len _ _ _ _ Hok) as Hn.
  destruct St as [ws s hs l x s' Ha|ws s hs l x o s' Hx Hq Hw|ws s hs1 hs2 l x o w Hox Hi|
    ws s hs l inst id w Hi|ws s hs l i w w' s' es Hi Hw]; simpl in Hn; rewrite ?app_nil_r.
  - exact Ho.
  - exact Ho.
  - rewrite Hn in *. by apply (order_call n cs ws s (hs1 ++ x :: hs2) (hs1 ++ hs2) l (submit_command x o)).
  - rewrite Hn in *. by apply (order_call n cs ws s hs hs l (cancel_command inst id)).
  - destruct (pit_work n ws s hs l U gs i w Hok Hi) as (w1 & s1 & es1 & E & U' & gs' & _ & _ & Hin & _).
    rewrite Hw in E. apply (inj Some) in E. injection E as -> -> ->. by eapply order_work.
Qed.

(** ** Construction, and the theorem *)

Definition Pit_new (r : InstrumentRegistry) (n pool_capacity : nat) : Pit + ShardedError :=
  match Sharded_new r n pool_capacity with
  | inl st => inl (mkPit ((λ sh, mkWorker (sengine sh) [] J_idle) <$> shards_ st) (sh_sys st) [] [])
  | inr err => inr err
  end.

(** No book has an order yet. *)
Definition opening_books (U : Engine) : gmap Z ABook := (λ _, mkABook [] []) <$> matchers_ U.

Lemma Pit_new_ok r n cap st U :
  (Z.of_nat cap ≤ 4294967294)%Z → Pit_new r n cap = inl st → Engine_new r None = inl U →
  ∃ gs, pit_ok n st U gs ∧ pit_exact n (opening_books U) st U gs ∧ pit_order n [] st.
Proof.
  intros Hcap. unfold Pit_new. destruct (Sharded_new r n cap) as [st1|] eqn:E; [|done]. intros [= <-] HU.
  destruct (Sharded_new_shape r n cap st1 Hcap E) as (U' & HU' & Hn & Hl & Est & Hok & Hsh).
  rewrite HU in HU'. injection HU' as <-. set (gs := (λ _, empty_ghost) <$> matchers_ U) in *.
  set (ws := (λ sh, mkWorker (sengine sh) [] J_idle) <$> shards_ st1).
  assert (sh_sys st1 = mkSys (Pool_new cap) 0) as -> by by rewrite Est.
  assert (∀ i w, ws !! i = Some w → ∃ sh, shards_ st1 !! i = Some sh ∧ w = mkWorker (sengine sh) [] J_idle) as Hw.
  { intros i w. unfold ws. rewrite list_lookup_fmap. intros (sh & -> & Hi)%fmap_Some. by exists sh. }
  exists gs. split_and!.
  - constructor; simpl; [unfold ws; by rewrite length_fmap|done| | |by intros x ?%not_elem_of_nil].
    + intros i w (sh & Hi & ->)%Hw. destruct (Hsh i sh Hi) as [Ha _]. split_and!; [done|done|].
      by intros cmd ?%not_elem_of_nil.
    + replace (pit_slots [] ws) with (@nil ptr); [constructor|]. unfold pit_slots, ws. simpl.
      clear. induction (shards_ st1) as [|sh l IH]; [done|]. by simpl.
  - intros _. simpl. split.
    + intros i m g Hm Hg y o Hy. unfold gs in Hg. rewrite lookup_fmap, Hm in Hg. injection Hg as <-.
      by apply not_elem_of_nil in Hy.
    + exists (opening_books U). split; [done|]. intros i w k (sh & Hi & ->)%Hw Hk. simpl.
      rewrite books_lookup. unfold gs, opening_books. rewrite !lookup_fmap. by destruct (matchers_ U !! k).
  - intros i w (sh & Hi & ->)%Hw. done.
Qed.

Lemma pit_reachable r n cap st0 U0 cs st :
  (Z.of_nat cap ≤ 4294967294)%Z → Pit_new r n cap = inl st0 → Engine_new r None = inl U0 →
  pit_run st0 cs st →
  ∃ U gs, pit_ok n st U gs ∧ pit_exact n (opening_books U0) st U gs ∧ pit_order n cs st.
Proof.
  intros Hcap Hnew HU. induction 1 as [|cs st c st' Hr IH St].
  - exists U0. by eapply Pit_new_ok.
  - destruct IH as (U & gs & Hok & Hex & Hord).
    destruct (pit_step_ok n st c st' U gs Hok St) as (U' & gs' & Hok' & Hex').
    exists U', gs'. split_and!; [done|by apply Hex'|]. exact (pit_step_order n cs st c st' U gs Hok St Hord).
Qed.

(** Is the worker in the middle of a submission to [k]? *)
Definition submitting (k : InstrumentId) (j : Job) : bool :=
  match j with
  | J_match _ inst _ _ _ | J_give _ inst _ _ _ _ => (inst =? k)%Z
  | _ => false
  end.

Lemma book_spec_settled B s gs k j :
  submitting k j = false → book_spec B s gs k j → books s gs !! k = B !! k.
Proof.
  destruct j as [|cmd|x inst t0 trs od|x inst t0 trs od mk|x|x]; simpl; try done;
    intros H%Z.eqb_neq; by rewrite decide_False.
Qed.

(** C36: commands of different shards may run at the same time.  However the
    workers interleave, turn by turn and pool operation by pool operation, with
    each other and with the clients: every worker's next step is defined; the
    commands of a shard take effect in the order in which they were called;
    and, as long as no order is submitted under the id of one that rests in the
    same book, every order ends as it would, with the trades it would make, if
    the commands ran one after the other in the order of the history, and every
    book that is not in the middle of a submission holds what it would hold. *)
Theorem workers_linearizable r n cap st0 U0 cs st :
  (Z.of_nat cap ≤ 4294967294)%Z → Pit_new r n cap = inl st0 → Engine_new r None = inl U0 →
  pit_run st0 cs st →
  (∀ i w, p_workers st !! i = Some w →
     is_Some (work w (p_sys st)) ∧
     cmd_key <$> of_shard n i cs =
       filter (λ k, shard_for n k.1.2 = i) (in_key <$> (p_log st).*1) ++
       job_keys (w_job w) ++ (cmd_key <$> w_inbox w)) ∧
  (fresh_run (opening_books U0) (p_log st).*1 = true →
   ∃ B, spec_run (opening_books U0) (p_log st).*1 = (B, (p_log st).*2) ∧
     ∀ i w k m, p_workers st !! i = Some w → matchers_ (w_engine w) !! k = Some m →
       submitting k (w_job w) = false →
       ∃ g, book_rep (storage_ (pool_ (p_sys st))) (book_ m) g ∧
         B !! k = Some (absr (storage_ (pool_ (p_sys st))) g)).
Proof.
  intros Hcap Hnew HU Hr.
  destruct (pit_reachable r n cap st0 U0 cs st Hcap Hnew HU Hr) as (U & gs & Hok & Hex & Hord). split.
  - intros i w Hi. split; [|by apply Hord]. destruct st as [ws s hs l].
    destruct (pit_work n ws s hs l U gs i w Hok Hi) as (w' & s' & es & E & _). by eexists.
  - intros Hf. destruct (Hex Hf) as (_ & B & HB & Hbs). exists B. split; [done|].
    intros i w k m Hi Hm Hsub. destruct (po_workers _ _ _ _ Hok i w Hi) as (Hag & _).
    assert (shard_for n k = i) as Hk.
    { specialize (Hag k). destruct (decide (shard_for n k = i)); [done|congruence]. }
    destruct (agree_at _ _ _ _ _ Hag Hk) as [Em _]. rewrite Hm in Em.
    destruct (en_slots _ _ _ (po_engine _ _ _ _ Hok) k m (eq_sym Em)) as (g & Hg & Hmi & _).
    exists g. split; [apply Hmi|].
    rewrite <- (book_spec_settled B _ gs k _ Hsub (Hbs i w k Hi Hk)). by apply books_some.
Qed.

(** ** One worker alone *)

Fixpoint run_alone (k : nat) (w : Worker) (s : Sys) : res (Worker * Sys) :=
  match k with
  | 0 => Some (w, s)
  | S k => let* (w', s', _) := work w s in run_alone k w' s'
  end.

Lemma set_matcher_twice inst m m' e : set_matcher inst m (set_matcher inst m' e) = set_matcher inst m e.
Proof. unfold set_matcher. simpl. by rewrite insert_insert_eq. Qed.

(** The book and the taker after a turn and the release of the filled maker. *)
Lemma released_turn opp p b g x t tr filled h b' g' t' :
  minv p b g → trade_post opp p b g x t tr filled (with_storage h p) b' g' t' →
  ∃ p', release_filled filled (with_storage h p) = Some p' ∧ minv p' b' g' ∧ taker_ok p' g' x t'.
Proof.
  intros Hi P. pose proof (tp_inv _ _ _ _ _ _ _ _ _ _ _ _ P) as Hi'.
  pose proof (tp_taker _ _ _ _ _ _ _ _ _ _ _ _ P) as Ht'.
  destruct filled as [mk|]; simpl; [|by exists (with_storage h p)].
  destruct (tp_filled _ _ _ _ _ _ _ _ _ _ _ _ P mk eq_refl) as (Hr & Hne & _).
  destruct (release_spec (with_storage h p) mk (mi_pool _ _ _ Hi')) as (p' & E & Hp' & Hf & Hst).
  { apply allocated_with_storage; [exact (tp_cap _ _ _ _ _ _ _ _ _ _ _ _ P)|]. by apply Hi. }
  assert (∀ y, y ≠ mk → allocated (with_storage h p) y → allocated p' y) as Hal.
  { intros y Hy [Hc Hn]. split; [unfold capacity; by rewrite Hst|]. rewrite Hf. set_solver. }
  exists p'. split_and!; [done| |].
  - eapply minv_frame; [done|done|by intros y _; rewrite Hst|]. intros y Hy. apply Hal; [|by apply Hi'].
    intros ->. by apply (tp_rest _ _ _ _ _ _ _ _ _ _ _ _ P) in Hy as [? _].
  - destruct Ht' as [Ht Hx Ha Hq]. constructor; [by rewrite Hst|done|by apply Hal|done].
Qed.

(** The loop, turn by turn, ends where [match_loop] does. *)
Lemma loop_alone fuel x inst t0 od e q m s g o trs b1 p1 trs1 :
  minv (pool_ s) (book_ m) g → taker_ok (pool_ s) g x o → matchers_ e !! inst = Some m →
  match_loop fuel (opposite (side o)) x (book_ m) (pool_ s) trs = Some (b1, p1, trs1) →
  ∃ k, run_alone k (mkWorker e q (J_match x inst t0 trs od)) s =
    let* (e', j', s', _) :=
      wrap_up x inst t0 trs1 od (mkMatcher b1 (stats_ m)) e (set_pool p1 s) in
    Some (mkWorker e' q j', s').
Proof.
  revert e m s g o trs. induction fuel as [|fuel IH]; intros e m s g o trs Hi Ht Em; [done|].
  rewrite match_loop_turn.
  destruct (turn_spec (opposite (side o)) x (book_ m) (pool_ s) g o Hi Ht) as (r & Er & Hr). rewrite Er.
  assert (work (mkWorker e q (J_match x inst t0 trs od)) s =
    let* (e', j', s', es) := match r with
      | T_stop => wrap_up x inst t0 trs od m e s
      | T_trade b h tr filled =>
          Some (set_matcher inst (mkMatcher b (stats_ m)) e, after_trade x inst t0 (trs ++ [tr]) od filled,
                set_pool (with_storage h (pool_ s)) s, [])
      end in Some (mkWorker e' q j', s', es)) as Hw.
  { unfold work, go_on, order_at. rewrite Em, (to_at _ _ _ _ Ht), Er. by destruct r. }
  destruct r as [|b h tr filled].
  - intros [= <- <- <-]. exists 1. unfold run_alone. rewrite Hw.
    replace (mkMatcher (book_ m) (stats_ m)) with m by by destruct m.
    replace (set_pool (pool_ s) s) with s by by destruct s.
    by destruct (wrap_up x inst t0 trs od m e s) as [[[[e' j'] s'] es]|].
  - destruct Hr as (g' & t' & P). destruct (released_turn _ _ _ _ _ _ _ _ _ _ _ _ Hi P) as (p' & Ep & Hi' & Ht').
    destruct (tp_kept _ _ _ _ _ _ _ _ _ _ _ _ P) as (_ & _ & Ks). rewrite Ep, <- Ks. intros E.
    destruct (IH (set_matcher inst (mkMatcher b (stats_ m)) e) (mkMatcher b (stats_ m)) (set_pool p' s) g' t' (trs ++ [tr]))
      as [k Hk]; [done|done|apply lookup_insert_eq|done|].
    assert (∀ m', wrap_up x inst t0 trs1 od m' (set_matcher inst (mkMatcher b (stats_ m)) e) (set_pool p1 s) =
      wrap_up x inst t0 trs1 od m' e (set_pool p1 s)) as Hwrap.
    { intros m'. unfold wrap_up. destruct (settle _ _ _) as [[b2 p2]|]; [|done]. destruct (now_ns _ _) as [t1 s1].
      destruct (order_upd _ _ _) as [s2|]; [|done]. destruct (now_ns _ _) as [t2 s3].
      destruct (finish _ _ _ _ _) as [[j es]|]; [|done]. by rewrite set_matcher_twice. }
    simpl in Hk. rewrite Hwrap in Hk. destruct filled as [mk|]; simpl in Ep.
    + exists (S (S k)). cbn [run_alone]. rewrite Hw. cbn [after_trade]. unfold work at 1, release_order. simpl.
      rewrite Ep. exact Hk.
    + injection Ep as <-. exists (S k). cbn [run_alone]. rewrite Hw. exact Hk.
Qed.

Lemma run_alone_app k1 k2 w s :
  run_alone (k1 + k2) w s = let* (w', s') := run_alone k1 w s in run_alone k2 w' s'.
Proof.
  revert w s. induction k1 as [|k1 IH]; intros w s; simpl; [done|].
  destruct (work w s) as [[[w1 s1] es]|]; [apply IH|done].
Qed.

(** The end of [process] on the order [x]. *)
Definition end_submit (x : ptr) (e : Engine) (s : Sys) : res (Engine * Sys) :=
  let* o := order_at x s in
  if is_terminal o then let* s2 := release_order x s in Some (e, s2) else Some (e, s).

Lemma finish_alone x od tm trs e q s j es r :
  finish x od tm trs s = Some (j, es) → end_submit x e s = Some r →
  ∃ k, run_alone k (mkWorker e q j) s = Some (mkWorker r.1 q J_idle, r.2).
Proof.
  unfold finish, end_submit. destruct (order_at x s) as [o|]; [|done]. intros [= <- <-].
  destruct (is_terminal o); [|intros [= <-]; by exists 0].
  destruct (release_order x s) as [s2|] eqn:E; [|done]. intros [= <-]. exists 1. simpl. by rewrite E.
Qed.

Lemma reject_alone x o e q s0 s cmd r :
  order_at x s0 = Some o → work (mkWorker e q (J_called cmd)) s =
    (let* (j', s', es) := start_reject x o s0 in Some (mkWorker e q j', s', es)) →
  (let* s' := order_upd (set_status Rejected) x s0 in end_submit x e s') = Some r →
  ∃ k, run_alone k (mkWorker e q (J_called cmd)) s = Some (mkWorker r.1 q J_idle, r.2).
Proof.
  intros Ho Hw. unfold start_reject in Hw. destruct (order_upd _ x s0) as [s1|] eqn:E; [|done]. intros He.
  destruct (finish x (data o) 0 [] s1) as [[j es]|] eqn:Ef.
  - destruct (finish_alone _ _ _ _ e q _ _ _ _ Ef He) as [k Hk]. exists (S k). cbn [run_alone]. by rewrite Hw.
  - unfold finish in Ef. unfold end_submit in He. by destruct (order_at x s1).
Qed.

Lemma submit_alone x o e q s gs cmd r :
  engine_ok e s gs → client_order s gs x o → kind cmd = Submit → corder cmd = Some x →
  (let* (r1, e1, s1) := submit clock x e s in end_submit (r_order r1) e1 s1) = Some r →
  ∃ k, run_alone k (mkWorker e q (J_called cmd)) s = Some (mkWorker r.1 q J_idle, r.2).
Proof.
  intros He Hc Hkind Hx. unfold submit. rewrite (co_at _ _ _ _ Hc).
  assert (work (mkWorker e q (J_called cmd)) s =
    let* (j', s', es) := start_submit x e s in Some (mkWorker e q j', s', es)) as Hw.
  { unfold work. by rewrite Hkind, Hx. }
  unfold start_submit in Hw. rewrite (co_at _ _ _ _ Hc) in Hw.
  destruct (matchers_ e !! oinstrument o) as [m|] eqn:Em; last first.
  { intros E. eapply reject_alone; [apply Hc|exact Hw|]. by destruct (order_upd _ x s). }
  destruct (en_slots _ _ _ He _ _ Em) as (g & Hg & Hm & _).
  unfold Matcher.submit. unfold now_ns at 1. unfold now_ns in Hw. set (s0 := mkSys (pool_ s) (S (ticks_ s))) in *.
  change (order_at x s0) with (order_at x s). rewrite (co_at _ _ _ _ Hc).
  assert (order_at x s0 = Some o) as Ho0 by apply Hc.
  assert (∀ r, (let* (r1, e1, s1) := (let* (r2, m', s') := reject x m s0 in
      Some (r2, set_matcher (oinstrument o) m' e, s')) in end_submit (r_order r1) e1 s1) = Some r →
    (let* s' := order_upd (set_status Rejected) x s0 in end_submit x e s') = Some r) as Hrej.
  { intros r0. unfold reject. destruct (order_upd _ x s0); [|done]. simpl.
    replace (set_matcher (oinstrument o) m e) with e; [done|].
    unfold set_matcher. rewrite insert_id by done. by destruct e. }
  destruct (invalid _ o); [intros E; by eapply reject_alone; [..|apply Hrej]|].
  destruct (if bool_decide (tif o = FOK) then _ else _) as [fillable|]; [|done].
  destruct fillable; cbn [negb] in *; [|intros E; by eapply reject_alone; [..|apply Hrej]].
  unfold match_. change (storage_ (pool_ s0)) with (storage_ (pool_ s)).
  change (storage_ (pool_ s) !! x) with (order_at x s). rewrite (co_at _ _ _ _ Hc).
  destruct (match_loop _ _ x (book_ m) (pool_ s0) []) as [[[b1 p1] trs]|] eqn:El; [|done].
  destruct (loop_alone _ x (oinstrument o) (u64 (clock (ticks_ s))) (data o) e q m s0 g o [] b1 p1 trs
    Hm (client_taker _ _ _ _ _ _ Hc Hg) Em El) as [k Hk].
  unfold wrap_up in Hk. cbn [book_ pool_ set_pool stats_] in Hk.
  destruct (settle x b1 p1) as [[b2 p2]|]; [|done].
  cbv beta iota delta [now_ns] in Hk |- *. cbn [set_pool pool_ ticks_ s0] in Hk |- *.
  destruct (order_upd (set_match_complete _) x _) as [s2|]; [|done]. cbn [r_order].
  intros E. destruct (finish x _ _ trs _) as [[j es]|] eqn:Ef.
  - destruct (finish_alone _ _ _ _ _ q _ _ _ _ Ef E) as [k2 Hk2]. exists (S (k + k2)). cbn [run_alone]. rewrite Hw.
    by rewrite run_alone_app, Hk.
  - unfold finish in Ef. unfold end_submit in E. by destruct (order_at x (mkSys (pool_ s2) (S (ticks_ s2)))).
Qed.

Lemma cancel_alone e q s cmd r :
  kind cmd = Cancel →
  (let* (_, e', s') := cancel (cinstrument cmd) (order_id cmd) e s in Some (e', s')) = Some r →
  ∃ k, run_alone k (mkWorker e q (J_called cmd)) s = Some (mkWorker r.1 q J_idle, r.2).
Proof.
  intros Hkind. unfold cancel, Matcher.cancel.
  assert (work (mkWorker e q (J_called cmd)) s =
    let* (e', j', s', es) := start_cancel (cinstrument cmd) (order_id cmd) e s in
    Some (mkWorker e' q j', s', es)) as Hw by (unfold work; by rewrite Hkind).
  unfold start_cancel in Hw.
  destruct (matchers_ e !! cinstrument cmd) as [m|]; [|intros [= <-]; exists 1; cbn [run_alone]; by rewrite Hw].
  destruct (cancel_and_get _ _ _) as [[[[x|] b'] h]|]; [| |done].
  - destruct (hupd _ x h) as [h1|]; [|done].
    destruct (release x (with_storage h1 (pool_ s))) as [p'|] eqn:Er; [|done]. intros [= <-].
    exists 2. cbn [run_alone]. rewrite Hw. unfold work, release_order. simpl. by rewrite Er.
  - intros [= <-]. exists 1. cbn [run_alone]. by rewrite Hw.
Qed.

(** A worker that nobody interrupts runs a command, stop by stop, to where
    [process] takes it in one step. *)
Theorem worker_alone e q s gs cmd :
  engine_ok e s gs → cmd_given s gs cmd →
  ∃ e' s' k, process clock cmd e s = Some (e', s') ∧
    run_alone k (mkWorker e q (J_called cmd)) s = Some (mkWorker e' q J_idle, s').
Proof.
  intros He Hg. assert (cmd_ready s gs cmd) as Hr.
  { unfold cmd_given, cmd_ready in *. destruct (corder cmd) as [x|]; [|done].
    destruct Hg as (o & Hc & ->). split; [done|]. by exists o. }
  destruct (process_spec clock e s gs cmd He Hr) as (e' & s' & gs' & E & _). exists e', s'.
  unfold cmd_given in Hg. unfold process in E |- *. destruct (corder cmd) as [x|] eqn:Ex.
  - destruct Hg as (o & Hc & Ecmd). assert (kind cmd = Submit) as Hk by by rewrite Ecmd.
    rewrite Hk in E |- *. destruct (submit_alone x o e q s gs cmd (e', s') He Hc Hk Ex) as [k Hrun]; [|by exists k].
    rewrite <- E. by destruct (submit clock x e s) as [[[r1 e1] s1]|].
  - rewrite Hg in E |- *. destruct (cancel_alone e q s cmd (e', s') Hg E) as [k Hrun]. by exists k.
Qed.

(** ** Schedules *)

#[local] Instance qty_ok_decision o : Decision (qty_ok o).
Proof. unfold qty_ok, in_u. apply _. Defined.

Inductive Act :=
| Act_acquire
| Act_write (x : ptr) (o : Order)
| Act_submit (x : ptr)
| Act_cancel (inst : InstrumentId) (id : OrderId)
| Act_work (i : nat).

Definition act (a : Act) (st : Pit) : option (list Command * Pit) :=
  let '(mkPit ws s hs l) := st in
  match a with
  | Act_acquire =>
      match acquire_order s with
      | Some (Some x, s') => Some ([], mkPit ws s' (x :: hs) l)
      | _ => None
      end
  | Act_write x o =>
      guard* bool_decide (x ∈ hs) && bool_decide (qty_ok o) in
      let* s' := write_order o x s in Some ([], mkPit ws s' hs l)
  | Act_submit x =>
      match hs with
      | y :: hs' =>
          guard* bool_decide (x = y) in
          let* o := order_at x s in
          let k := shard_for (length ws) (oinstrument o) in
          let* w := ws !! k in
          Some ([submit_command x o], mkPit (<[k := enqueue (submit_command x o) w]> ws) s hs' l)
      | [] => None
      end
  | Act_cancel inst id =>
      let k := shard_for (length ws) inst in
      let* w := ws !! k in
      Some ([cancel_command inst id], mkPit (<[k := enqueue (cancel_command inst id) w]> ws) s hs l)
  | Act_work i =>
      let* w := ws !! i in
      let* (w', s', es) := work w s in
      Some ([], mkPit (<[i := w']> ws) s' hs (l ++ es))
  end.

Fixpoint acts (l : list Act) (cs : list Command) (st : Pit) : option (list Command * Pit) :=
  match l with
  | [] => Some (cs, st)
  | a :: l => let* (c, st') := act a st in acts l (cs ++ c) st'
  end.

Lemma act_step a st c st' : act a st = Some (c, st') → pit_step st c st'.
Proof.
  destruct st as [ws s hs l], a as [|x o|x|inst id|i]; simpl.
  - destruct (acquire_order s) as [[[x|] s']|] eqn:E; intros [= <- <-]. by apply pt_acquire.
  - destruct (bool_decide (x ∈ hs)) eqn:Ex; [|done]. destruct (bool_decide (qty_ok o)) eqn:Eq; [|done]. simpl.
    destruct (write_order o x s) as [s'|] eqn:E; intros [= <- <-].
    apply bool_decide_eq_true in Ex, Eq. by eapply pt_write.
  - destruct hs as [|y hs]; [done|]. case_bool_decide; [|done]. subst y.
    destruct (order_at x s) as [o|] eqn:Eo; [|done]. destruct (ws !! _) as [w|] eqn:Ew; [|done].
    intros [= <- <-]. by apply (pt_submit ws s [] hs l x o w).
  - destruct (ws !! _) as [w|] eqn:Ew; [|done]. intros [= <- <-]. by apply pt_cancel.
  - destruct (ws !! i) as [w|] eqn:Ew; [|done].
    destruct (work w s) as [[[w' s'] es]|] eqn:E; [|done]. intros [= <- <-]. by eapply pt_work.
Qed.

Lemma acts_run st0 l cs st cs' st' :
  pit_run st0 cs st → acts l cs st = Some (cs', st') → pit_run st0 cs' st'.
Proof.
  revert cs st. induction l as [|a l IH]; intros cs st Hr; simpl; [by intros [= <- <-]|].
  destruct (act a st) as [[c st1]|] eqn:E; [|done]. apply IH. eapply run_step; [done|by apply (act_step a)].
Qed.
End workers.

(** ** A run: two instruments on two shards, one matching loop inside another *)

Definition order_demo (id inst price qty : Z) (s : Side) : Order :=
  mkOrder id price qty 0 inst 1 New s Limit GTC 0 0 0 None None.

Definition pit_demo : Pit :=
  match Pit_new ex_registry 2 8 with inl st => st | inr _ => mkPit [] (mkSys (Pool_new 0) 0) [] [] end.

(** A client submits one order. *)
Definition enter (x : ptr) (o : Order) : list Act := [Act_acquire; Act_write x o; Act_submit x].

(** Two sellers of instrument 7 and one of 8 rest; then a buyer of each arrives,
    the loop for 8 runs inside that for 7, and a cancellation follows. *)
Definition acts_demo : list Act :=
  enter 7 (order_demo 1 7 100 5 Sell) ++ enter 6 (order_demo 2 7 100 5 Sell) ++
  enter 5 (order_demo 1 8 50 5 Sell) ++ replicate 6 (Act_work 1) ++ replicate 3 (Act_work 0) ++
  enter 4 (order_demo 3 7 100 7 Buy) ++ enter 3 (order_demo 2 8 50 5 Buy) ++
  [Act_work 1; Act_work 1; Act_work 1; Act_work 0; Act_work 0; Act_work 0; Act_work 1; Act_work 0;
   Act_work 1; Act_work 0; Act_work 1; Act_work 0; Act_work 1] ++
  [Act_cancel 7 2; Act_work 1; Act_work 1; Act_work 1].

Definition after_demo : option (list Command * Pit) := acts demo_clock acts_demo [] pit_demo.

Lemma workers_linearizable_witness :
  ∃ cs st, after_demo = Some (cs, st) ∧
    (in_key <$> (p_log st).*1) =
      [(Submit, 7, 1); (Submit, 7, 2); (Submit, 8, 1); (Submit, 8, 2); (Submit, 7, 3); (Cancel, 7, 2)]%Z ∧
    (w_job <$> p_workers st) = [J_idle; J_idle] ∧
    ∃ B, spec_run (opening_books ex_engine) (p_log st).*1 = (B, (p_log st).*2).
Proof.
  destruct after_demo as [[cs st]|] eqn:E; [|vm_compute in E; discriminate E].
  assert (pit_run demo_clock pit_demo cs st) as Hr by (by eapply acts_run; [constructor|exact E]).
  assert (Engine_new ex_registry None = inl ex_engine) as HU by reflexivity.
  assert (Pit_new ex_registry 2 8 = inl pit_demo) as Hp by reflexivity.
  assert (fresh_run (opening_books ex_engine) (p_log st).*1 = true ∧
    (in_key <$> (p_log st).*1) =
      [(Submit, 7, 1); (Submit, 7, 2); (Submit, 8, 1); (Submit, 8, 2); (Submit, 7, 3); (Cancel, 7, 2)]%Z ∧
    (w_job <$> p_workers st) = [J_idle; J_idle]) as (Hf & Hk & Hj).
  { vm_compute in E. injection E as <- <-. split; [|split]; vm_compute; reflexivity. }
  exists cs, st. split; [done|]. split; [exact Hk|]. split; [exact Hj|].
  assert (Z.of_nat 8 ≤ 4294967294)%Z as H8 by lia.
  destruct (workers_linearizable demo_clock ex_registry 2 8 pit_demo ex_engine cs st H8 Hp HU Hr) as [_ H].
  destruct (H Hf) as (B & HB & _). exists B. exact HB.
Defined.
