(* ===== verification/Progress.v ===== *)
(** * Commands end (src/matching/sharded_engine.cpp, include/ordbk/utils/pool.hpp)

    [Workers] has the operations of the pool as single steps.  Here a thread
    must take the pool's mutex first: it locks [mu_], runs the operation and
    unlocks, and any other thread that calls the pool in between waits.  What
    the operation does inside is one step, as [PoolLock] allows.  The theorem is
    that no command runs for ever and that no command waits but for a thread
    that is inside the pool and can leave it. *)

From S2P Require Import Prelude StdMap Types Heap Pool PriceLevel OrderBook Latency Matcher.
From S2P Require Import MatchSpec SubmitSpec CancelSpec Turns Contract Chain Registry Engine Spsc Sharded Workers.

(** ** The mutex *)

(** Who may hold [mu_]: a worker, or a client in [acquire_order]. *)
Inductive Holder := H_worker (i : nat) | H_client.

Record Floor := mkFloor {
  f_pit : Pit;
  f_mu : option Holder }.

(** Is the worker's next step a call of [Pool::release]? *)
Definition calls_pool (j : Job) : bool :=
  match j with J_give _ _ _ _ _ _ | J_return _ | J_drop _ => true | _ => false end.

Section progress.
Variable clock : nat → Z.

(** Worker [i] runs to its next stop. *)
Definition runs (i : nat) (w : Worker) (st st' : Pit) : Prop :=
  p_workers st !! i = Some w ∧ ∃ w' s' es, work clock w (p_sys st) = Some (w', s', es) ∧
    st' = mkPit (<[i := w']> (p_workers st)) s' (p_held st) (p_log st ++ es).

(** What clients do without the pool: write to an order they hold, submit it,
    and cancel. *)
Inductive client_call : Pit → Pit → Prop :=
| cl_write ws s hs l x o s' :
    x ∈ hs → qty_ok o → write_order o x s = Some s' → client_call (mkPit ws s hs l) (mkPit ws s' hs l)
| cl_submit ws s hs1 hs2 l x o w :
    order_at x s = Some o → ws !! shard_for (length ws) (oinstrument o) = Some w →
    client_call (mkPit ws s (hs1 ++ x :: hs2) l)
      (mkPit (<[shard_for (length ws) (oinstrument o) := enqueue (submit_command x o) w]> ws) s (hs1 ++ hs2) l)
| cl_cancel ws s hs l inst id w :
    ws !! shard_for (length ws) inst = Some w →
    client_call (mkPit ws s hs l)
      (mkPit (<[shard_for (length ws) inst := enqueue (cancel_command inst id) w]> ws) s hs l).

(** [acquire], which may find no slot. *)
Inductive client_acquires : Pit → Pit → Prop :=
| ca_some ws s hs l x s' :
    acquire_order s = Some (Some x, s') → client_acquires (mkPit ws s hs l) (mkPit ws s' (x :: hs) l)
| ca_none ws s hs l s' :
    acquire_order s = Some (None, s') → client_acquires (mkPit ws s hs l) (mkPit ws s' hs l).

(** A step, with the worker that takes it. *)
Inductive floor_step : option nat → Floor → Floor → Prop :=
| fl_run i w st st' mu :
    runs i w st st' → calls_pool (w_job w) = false → floor_step (Some i) (mkFloor st mu) (mkFloor st' mu)
| fl_lock i w st :
    p_workers st !! i = Some w → calls_pool (w_job w) = true →
    floor_step (Some i) (mkFloor st None) (mkFloor st (Some (H_worker i)))
| fl_release i w st st' :
    runs i w st st' → calls_pool (w_job w) = true →
    floor_step (Some i) (mkFloor st (Some (H_worker i))) (mkFloor st' None)
| fl_client st st' mu : client_call st st' → floor_step None (mkFloor st mu) (mkFloor st' mu)
| fl_client_lock st : floor_step None (mkFloor st None) (mkFloor st (Some H_client))
| fl_acquire st st' : client_acquires st st' → floor_step None (mkFloor st (Some H_client)) (mkFloor st' None).

(** A run, with the threads that took its steps. *)
Inductive floor_run : list (option nat) → Floor → Floor → Prop :=
| fr_nil F : floor_run [] F F
| fr_cons m ms F F1 F' : floor_step m F F1 → floor_run ms F1 F' → floor_run (m :: ms) F F'.

Definition Floor_new (r : InstrumentRegistry) (n cap : nat) : Floor + ShardedError :=
  match Pit_new r n cap with inl st => inl (mkFloor st None) | inr err => inr err end.

(** Worker [i] has a command in hand. *)
Definition busy (i : nat) (F : Floor) : Prop := ∃ w, p_workers (f_pit F) !! i = Some w ∧ w_job w ≠ J_idle.

(** The same, and all along a run. *)
Inductive busy_run (i : nat) : list (option nat) → Floor → Floor → Prop :=
| br_nil F : busy_run i [] F F
| br_cons m ms F F1 F' : busy i F → floor_step m F F1 → busy_run i ms F1 F' → busy_run i (m :: ms) F F'.

(** The steps of worker [i] in a run. *)
Definition steps_of (i : nat) (ms : list (option nat)) : nat := length (filter (λ m, m = Some i) ms).

(** ** What a worker has left to do *)

Lemma side_length U s gs inst g buy :
  engine_ok U s gs → gs !! inst = Some g →
  length (flat (glevels buy g)) = length (a_side buy (absr (storage_ (pool_ s)) g)).
Proof.
  intros He Hg. destruct (proj1 (en_dom _ _ _ He inst) ltac:(eauto)) as [m Hm].
  destruct (en_slots _ _ _ He _ _ Hm) as (g' & Hg' & Hi & _). rewrite Hg in Hg'. injection Hg' as <-.
  rewrite absr_side, hview_length; [done|]. intros x Hx.
  apply (book_rep_lookup _ _ _ x (mi_rep _ _ _ Hi)), elem_of_resting. by exists buy.
Qed.

Lemma turns_left_frame n k U U' s s' gs gs' x inst od j :
  engine_ok U s gs → engine_ok U' s' gs' → taking n k s gs x inst od → x ∈ job_slots j →
  undisturbed n k s s' gs gs' j → turns_left s' gs' x inst = turns_left s gs x inst.
Proof.
  intros He He' (Hk & [g Hg] & _ & o & Hc & _) Hx [Hkeep Hb]. specialize (Hb inst Hk).
  pose proof (co_at _ _ _ _ (Hkeep x o Hx Hc)) as Ho'. rewrite !books_lookup, Hg in Hb. simpl in Hb.
  destruct (gs' !! inst) as [g'|] eqn:Hg'; [|done]. injection Hb as Hb0 Hb1.
  assert (absr (storage_ (pool_ s')) g' = absr (storage_ (pool_ s)) g) as Hb by (unfold absr; congruence).
  unfold turns_left. rewrite Ho', (co_at _ _ _ _ Hc), Hg, Hg'.
  by rewrite (side_length _ _ _ _ _ _ He Hg), (side_length _ _ _ _ _ _ He' Hg'), Hb.
Qed.

(** Others do not lengthen it. *)
Lemma job_left_frame n k U U' s s' gs gs' j :
  engine_ok U s gs → engine_ok U' s' gs' → job_safe n k s gs j → undisturbed n k s s' gs gs' j →
  capacity (pool_ s') = capacity (pool_ s) → job_left s' gs' j = job_left s gs j.
Proof.
  intros He He' Hj Hu Hc. destruct j as [|cmd|x inst t0 trs od|x inst t0 trs od mk|x|x]; simpl; try done.
  - by rewrite Hc.
  - by rewrite (turns_left_frame n k U U' s s' gs gs' x inst od (J_match x inst t0 trs od) He He' Hj ltac:(by left) Hu).
  - by rewrite (turns_left_frame n k U U' s s' gs gs' x inst od (J_give x inst t0 trs od mk) He He' (proj1 Hj) ltac:(by left) Hu).
Qed.

Lemma job_left_bound U s gs j : engine_ok U s gs → job_left s gs j ≤ 3 * capacity (pool_ s) + 4.
Proof.
  intros He. assert (∀ x inst, turns_left s gs x inst ≤ 3 * capacity (pool_ s) + 1) as H.
  { intros x inst. unfold turns_left. destruct (order_at x s) as [o|]; [|lia].
    destruct (gs !! inst) as [g|] eqn:Hg; [|lia].
    destruct (proj1 (en_dom _ _ _ He _) ltac:(eauto)) as [m Em].
    destruct (en_slots _ _ _ He _ _ Em) as (g1 & Hg1 & Hm & _). rewrite Hg in Hg1. injection Hg1 as <-.
    pose proof (resting_length _ _ _ (negb (is_buy (side o))) Hm). destruct (_ =? 0)%Z; lia. }
  destruct j; simpl; try lia; pose proof (H x inst); lia.
Qed.

Lemma acquire_order_capacity s x s' : acquire_order s = Some (x, s') → capacity (pool_ s') = capacity (pool_ s).
Proof.
  unfold acquire_order, acquire, hupd, capacity. case_decide; [by intros [= _ <-]|].
  destruct (free_slots_ _ !! _) as [y|]; [|done]. destruct (storage_ _ !! y); [|done]. intros [= _ <-].
  apply length_insert.
Qed.

Lemma write_order_capacity o x s s' : write_order o x s = Some s' → capacity (pool_ s') = capacity (pool_ s).
Proof.
  unfold write_order, order_upd, hupd, capacity. destruct (storage_ _ !! x); [|done]. intros [= <-]. apply length_insert.
Qed.

(** Worker [k] is where it was, with as much left to do. *)
Definition same_job (k : nat) (st st' : Pit) (gs gs' : gmap Z GBook) : Prop :=
  ∀ w, p_workers st !! k = Some w → ∃ w', p_workers st' !! k = Some w' ∧ w_job w' = w_job w ∧
    job_left (p_sys st') gs' (w_job w') = job_left (p_sys st) gs (w_job w).

Lemma worker_runs n st st' U gs i w :
  pit_ok n st U gs → runs i w st st' →
  ∃ U' gs' w', pit_ok n st' U' gs' ∧ capacity (pool_ (p_sys st')) = capacity (pool_ (p_sys st)) ∧
    p_workers st' !! i = Some w' ∧ nearer (p_sys st) gs w (p_sys st') gs' w' ∧
    ∀ k, k ≠ i → same_job k st st' gs gs'.
Proof.
  intros Hok (Hi & w1 & s1 & es1 & E1 & ->). destruct st as [ws s hs l]. simpl in *.
  destruct (pit_work clock n ws s hs l U gs i w Hok Hi)
    as (w' & s' & es & E & U' & gs' & Hok' & _ & _ & Hn & Hoth & Hc).
  rewrite E1 in E. apply (inj Some) in E. injection E as -> -> ->. exists U', gs', w'.
  split_and!; [done|done|by eapply list_lookup_insert_eq, lookup_lt_Some|done|].
  intros k Hk wk Hwk. simpl in Hwk. exists wk. simpl. split_and!; [by rewrite list_lookup_insert_ne|done|].
  destruct (po_workers _ _ _ _ Hok k wk Hwk) as (_ & Hj & _).
  exact (job_left_frame n k U U' s s' gs gs' (w_job wk) (po_engine _ _ _ _ Hok) (po_engine _ _ _ _ Hok') Hj (Hoth k wk Hwk Hk) Hc).
Qed.

Lemma client_same_job n ws s s' hs hs' l U gs :
  pit_ok n (mkPit ws s hs l) U gs → engine_ok U s' gs → capacity (pool_ s') = capacity (pool_ s) →
  (∀ k wk, ws !! k = Some wk → undisturbed n k s s' gs gs (w_job wk)) →
  ∀ k, same_job k (mkPit ws s hs l) (mkPit ws s' hs' l) gs gs.
Proof.
  intros Hok He' Hc Hu k wk Hwk. exists wk. simpl in *. split_and!; [done|done|].
  destruct (po_workers _ _ _ _ Hok k wk Hwk) as (_ & Hj & _).
  exact (job_left_frame n k U U s s' gs gs (w_job wk) (po_engine _ _ _ _ Hok) He' Hj (Hu k wk Hwk) Hc).
Qed.

Lemma enqueue_same_job k i cmd w ws s hs hs' l gs :
  ws !! i = Some w → same_job k (mkPit ws s hs l) (mkPit (<[i := enqueue cmd w]> ws) s hs' l) gs gs.
Proof.
  intros Hi wk Hwk. simpl in *. destruct (decide (i = k)) as [<-|Hne].
  - rewrite Hi in Hwk. injection Hwk as <-. exists (enqueue cmd w).
    split_and!; [by eapply list_lookup_insert_eq, lookup_lt_Some|done|done].
  - exists wk. by rewrite list_lookup_insert_ne.
Qed.

Lemma client_calls n st st' U gs :
  pit_ok n st U gs → client_call st st' →
  pit_ok n st' U gs ∧ capacity (pool_ (p_sys st')) = capacity (pool_ (p_sys st)) ∧ ∀ k, same_job k st st' gs gs.
Proof.
  intros Hok St. pose proof (po_len _ _ _ _ Hok) as Hn.
  destruct St as [ws s hs l x o s' Hx Hq Hw|ws s hs1 hs2 l x o w Ho Hi|ws s hs l inst id w Hi]; simpl in Hn.
  - destruct (pit_write clock n ws s hs l U gs x o s' Hok Hx Hq Hw) as (Hok' & _ & Hu).
    pose proof (write_order_capacity _ _ _ _ Hw) as Hc. split_and!; [done|done|].
    eapply client_same_job; [done|exact (po_engine _ _ _ _ Hok')|done|done].
  - rewrite Hn in *. destruct (po_held _ _ _ _ Hok x) as [o' Hc]; [simpl; set_solver|]. simpl in Hc.
    pose proof (co_at _ _ _ _ Hc) as Hat. rewrite Ho in Hat. injection Hat as <-.
    destruct (pit_call n ws s (hs1 ++ x :: hs2) (hs1 ++ hs2) l U gs (submit_command x o) w Hok Hi) as [Hok' _].
    { simpl. by rewrite <- Permutation_middle. }
    { by exists o. }
    split_and!; [exact Hok'|done|]. intros k. by apply enqueue_same_job.
  - rewrite Hn in *. destruct (pit_call n ws s hs hs l U gs (cancel_command inst id) w Hok Hi) as [Hok' _]; [done|done|].
    split_and!; [exact Hok'|done|]. intros k. by apply enqueue_same_job.
Qed.

Lemma acquires n st st' U gs :
  pit_ok n st U gs → client_acquires st st' →
  pit_ok n st' U gs ∧ capacity (pool_ (p_sys st')) = capacity (pool_ (p_sys st)) ∧ ∀ k, same_job k st st' gs gs.
Proof.
  intros Hok St. destruct St as [ws s hs l x s' Ha|ws s hs l s' Ha].
  - destruct (pit_acquire clock n ws s hs l U gs x s' Hok Ha) as (Hok' & _ & Hu).
    pose proof (acquire_order_capacity _ _ _ Ha) as Hc. split_and!; [done|done|].
    eapply client_same_job; [done|exact (po_engine _ _ _ _ Hok')|done|done].
  - pose proof (po_engine _ _ _ _ Hok) as He. simpl in He.
    destruct (acquire_order_spec U s gs He) as [[_ E]|(x & s1 & E & _)]; rewrite E in Ha; [|done].
    injection Ha as <-. split_and!; [done|done|]. intros k wk Hwk. by exists wk.
Qed.

(** ** The mutex among the workers *)

Definition holds (i : nat) (mu : option Holder) : bool :=
  match mu with Some (H_worker k) => k =? i | _ => false end.

Record floor_ok (n : nat) (F : Floor) (U : Engine) (gs : gmap Z GBook) : Prop := {
  fo_pit : pit_ok n (f_pit F) U gs;
  fo_mu : ∀ i, f_mu F = Some (H_worker i) → ∃ w, p_workers (f_pit F) !! i = Some w ∧ calls_pool (w_job w) = true }.

(** A bound on the steps worker [i] has left with its command, those to take
    the mutex included. *)
Definition steps_left (i : nat) (F : Floor) (gs : gmap Z GBook) : nat :=
  match p_workers (f_pit F) !! i with
  | Some w => 2 * job_left (p_sys (f_pit F)) gs (w_job w) - (if holds i (f_mu F) then 1 else 0)
  | None => 0
  end.

Lemma job_left_pos s gs j : j ≠ J_idle → 1 ≤ job_left s gs j.
Proof. destruct j; simpl; try done; lia. Qed.

Lemma left_same i F F' gs gs' :
  same_job i (f_pit F) (f_pit F') gs gs' → holds i (f_mu F') = holds i (f_mu F) → busy i F →
  steps_left i F' gs' = steps_left i F gs ∧ busy i F'.
Proof.
  intros Hs Hh (w & Hi & Hj). destruct (Hs w Hi) as (w' & Hi' & Hj' & Hl). unfold steps_left. rewrite Hi, Hi', Hh, Hl.
  split; [done|]. exists w'. by rewrite Hj'.
Qed.

Lemma mu_same n F F' U U' gs gs' :
  floor_ok n F U gs → pit_ok n (f_pit F') U' gs' → f_mu F' = f_mu F →
  (∀ i, f_mu F = Some (H_worker i) → same_job i (f_pit F) (f_pit F') gs gs') → floor_ok n F' U' gs'.
Proof.
  intros [_ Hm] Hok' E Hs. constructor; [done|]. rewrite E. intros i Hi. destruct (Hm i Hi) as (w & Hw & Hc).
  destruct (Hs i Hi w Hw) as (w' & Hw' & Hj & _). exists w'. by rewrite Hj.
Qed.

(** A step keeps the invariant; it brings the command of the worker that takes
    it nearer to its end and leaves those of the others as they are. *)
Lemma floor_step_ok n m F F' U gs :
  floor_ok n F U gs → floor_step m F F' →
  ∃ U' gs', floor_ok n F' U' gs' ∧ capacity (pool_ (p_sys (f_pit F'))) = capacity (pool_ (p_sys (f_pit F))) ∧
    ∀ i, busy i F → if decide (m = Some i) then steps_left i F' gs' < steps_left i F gs else steps_left i F' gs' = steps_left i F gs ∧ busy i F'.
Proof.
  intros Hok St. pose proof (fo_pit _ _ _ _ Hok) as Hp. pose proof (fo_mu _ _ _ _ Hok) as Hm.
  destruct St as [i w st st' mu Hr Hc|i w st Hi Hc|i w st st' Hr Hc|st st' mu Hcl|st|st st' Ha]; simpl in Hp, Hm.
  - destruct (worker_runs n st st' U gs i w Hp Hr) as (U' & gs' & w' & Hok' & Hcap & Hi' & Hn & Hoth).
    pose proof (proj1 Hr) as Hi. assert (holds i mu = false) as Hh.
    { destruct mu as [[k|]|]; simpl; [|done..]. apply Nat.eqb_neq. intros ->. destruct (Hm i eq_refl) as (w0 & Hw0 & Hc0). congruence. }
    exists U', gs'. split_and!; [|done|].
    + eapply (mu_same n (mkFloor st mu)); [done|done|done|]. simpl. intros k ->. apply Hoth. intros ->.
      simpl in Hh. by rewrite Nat.eqb_refl in Hh.
    + intros k Hk. case_decide as Hik.
      * injection Hik as <-. destruct Hk as (w0 & Hw0 & Hj0). simpl in Hw0. assert (w0 = w) as -> by congruence.
        destruct (Hn Hj0) as [Hlt _]. unfold steps_left. simpl. rewrite Hi, Hi', Hh. lia.
      * apply (left_same k (mkFloor st mu) (mkFloor st' mu)); [|done|done]. apply Hoth. congruence.
  - exists U, gs. split_and!; [|done|].
    + constructor; [done|]. simpl. intros k [= <-]. by exists w.
    + intros k Hk. case_decide as Hik.
      * injection Hik as <-. unfold steps_left. simpl. rewrite Hi, Nat.eqb_refl.
        pose proof (job_left_pos (p_sys st) gs (w_job w)) as Hl. destruct (w_job w); try done; specialize (Hl ltac:(done)); lia.
      * apply (left_same k (mkFloor st None) (mkFloor st _)); [intros wk Hwk; by exists wk| |done].
        simpl. apply Nat.eqb_neq. congruence.
  - destruct (worker_runs n st st' U gs i w Hp Hr) as (U' & gs' & w' & Hok' & Hcap & Hi' & Hn & Hoth).
    pose proof (proj1 Hr) as Hi. exists U', gs'. split_and!; [by constructor|done|]. intros k Hk. case_decide as Hik.
    + injection Hik as <-. destruct Hk as (w0 & Hw0 & Hj0). simpl in Hw0. assert (w0 = w) as -> by congruence.
      destruct (Hn Hj0) as [Hlt _]. unfold steps_left. simpl. rewrite Hi, Hi', Nat.eqb_refl. lia.
    + apply (left_same k (mkFloor st _) (mkFloor st' None)); [apply Hoth; congruence| |done].
      simpl. symmetry. apply Nat.eqb_neq. congruence.
  - destruct (client_calls n st st' U gs Hp Hcl) as (Hok' & Hcap & Hs). exists U, gs. split_and!; [|done|].
    + by eapply (mu_same n (mkFloor st mu)).
    + intros k Hk. rewrite decide_False by done. by apply (left_same k (mkFloor st mu) (mkFloor st' mu)).
  - exists U, gs. split_and!; [by constructor|done|]. intros k Hk. rewrite decide_False by done.
    apply (left_same k (mkFloor st None) (mkFloor st _)); [intros wk Hwk; by exists wk|done|done].
  - destruct (acquires n st st' U gs Hp Ha) as (Hok' & Hcap & Hs). exists U, gs. split_and!; [by constructor|done|].
    intros k Hk. rewrite decide_False by done. by apply (left_same k (mkFloor st _) (mkFloor st' None)).
Qed.

Lemma floor_run_ok n ms F F' U gs :
  floor_ok n F U gs → floor_run ms F F' →
  ∃ U' gs', floor_ok n F' U' gs' ∧ capacity (pool_ (p_sys (f_pit F'))) = capacity (pool_ (p_sys (f_pit F))).
Proof.
  intros Hok Hr. revert U gs Hok. induction Hr as [F|m ms F F1 F' St Hr IH]; intros U gs Hok; [by exists U, gs|].
  destruct (floor_step_ok n m F F1 U gs Hok St) as (U1 & gs1 & Hok1 & Hc1 & _).
  destruct (IH U1 gs1 Hok1) as (U' & gs' & Hok' & Hc). exists U', gs'. split; [done|congruence].
Qed.

Lemma Floor_new_ok r n cap F :
  (Z.of_nat cap ≤ 4294967294)%Z → Floor_new r n cap = inl F →
  capacity (pool_ (p_sys (f_pit F))) = cap ∧ ∃ U gs, floor_ok n F U gs.
Proof.
  unfold Floor_new. destruct (Pit_new r n cap) as [st|] eqn:E; [|done]. intros Hcap [= <-].
  pose proof E as E'. unfold Pit_new in E'. destruct (Sharded_new r n cap) as [st1|] eqn:Es; [|done].
  destruct (Sharded_new_shape r n cap st1 Hcap Es) as (U & HU & _ & _ & Est & _). injection E' as <-. split.
  - simpl. rewrite Est. apply length_replicate.
  - destruct (Pit_new_ok r n cap _ U Hcap E HU) as (gs & Hok & _). exists U, gs. by constructor.
Qed.

(** However the others interleave, the steps of a worker with a command in
    hand are bounded. *)
Lemma busy_bound n i ms F F' U gs :
  floor_ok n F U gs → busy_run i ms F F' → steps_of i ms ≤ steps_left i F gs.
Proof.
  intros Hok Hr. revert U gs Hok. induction Hr as [F|m ms F F1 F' Hb St Hr IH]; intros U gs Hok; [unfold steps_of; simpl; lia|].
  destruct (floor_step_ok n m F F1 U gs Hok St) as (U1 & gs1 & Hok1 & _ & Hi).
  specialize (IH U1 gs1 Hok1). specialize (Hi i Hb). unfold steps_of in *. rewrite filter_cons.
  destruct (decide (m = Some i)); simpl; lia.
Qed.

(** The worker can go on, or the mutex is held by a thread that can leave it. *)
Lemma busy_goes_on n i F U gs :
  floor_ok n F U gs → busy i F →
  (∃ F', floor_step (Some i) F F') ∨
  ∃ m F', m ≠ Some i ∧ is_Some (f_mu F) ∧ floor_step m F F' ∧ f_mu F' = None.
Proof.
  intros [Hp Hm] (w & Hi & Hj). destruct F as [st mu]. simpl in *.
  assert (∀ k wk, p_workers st !! k = Some wk → ∃ st', runs k wk st st') as Hrun.
  { intros k wk Hk. destruct st as [ws s hs l].
    destruct (pit_work clock n ws s hs l U gs k wk Hp Hk) as (w' & s' & es & E & _). eexists. split; [done|]. eauto. }
  destruct (calls_pool (w_job w)) eqn:Hc; last first.
  { destruct (Hrun i w Hi) as [st' Hr]. left. eexists. by eapply fl_run. }
  destruct mu as [[k|]|].
  - destruct (Hm k eq_refl) as (wk & Hk & Hck). destruct (Hrun k wk Hk) as [st' Hr].
    destruct (decide (k = i)) as [->|Hne]; [left; eexists; by eapply fl_release|].
    right. exists (Some k), (mkFloor st' None). split_and!; [congruence|done|by eapply fl_release|done].
  - right. assert (∃ st', client_acquires st st') as [st' Ha].
    { destruct st as [ws s hs l]. pose proof (po_engine _ _ _ _ Hp) as He. simpl in He.
      destruct (acquire_order_spec U s gs He) as [[_ E]|(x & s1 & E & _)]; eexists; [by eapply ca_none|by eapply ca_some]. }
    exists None, (mkFloor st' None). split_and!; [done|done|by apply fl_acquire|done].
  - left. eexists. by eapply fl_lock.
Qed.

(** C37: no command runs for ever, and none is blocked for good.  In every state
    of the sharded engine, with the pool's mutex: a worker that has a command in
    hand needs a number of its own steps to end it that is bounded by the
    capacity of the pool, however the steps of the other workers and of the
    clients come in between; and its next step is possible, unless it waits for
    the mutex, and then the thread that holds it can take its next step, which
    gives the mutex back.  (Who gets the mutex next is up to the scheduler, as
    with [std::mutex].) *)
Theorem worker_finishes r n cap F0 ms F i :
  (Z.of_nat cap ≤ 4294967294)%Z → Floor_new r n cap = inl F0 → floor_run ms F0 F → busy i F →
  (∀ ms' F', busy_run i ms' F F' → steps_of i ms' ≤ 2 * (3 * cap + 4)) ∧
  ((∃ F', floor_step (Some i) F F') ∨
   ∃ m F', m ≠ Some i ∧ is_Some (f_mu F) ∧ floor_step m F F' ∧ f_mu F' = None).
Proof.
  intros Hcap Hnew Hr Hb. destruct (Floor_new_ok r n cap F0 Hcap Hnew) as (Hc0 & U0 & gs0 & Hok0).
  destruct (floor_run_ok n ms F0 F U0 gs0 Hok0 Hr) as (U & gs & Hok & Hc). split; [|by eapply busy_goes_on].
  intros ms' F' Hbr. etrans; [by eapply busy_bound|]. unfold steps_left.
  destruct (p_workers (f_pit F) !! i) as [w|]; [|lia].
  pose proof (job_left_bound U (p_sys (f_pit F)) gs (w_job w) (po_engine _ _ _ _ (fo_pit _ _ _ _ Hok))).
  rewrite Hc, Hc0 in *. destruct (holds i (f_mu F)); lia.
Qed.

(** ** Schedules *)

Definition floor_act (a : Act) (F : Floor) : option Floor :=
  let '(mkFloor st mu) := F in
  match a with
  | Act_acquire =>
      match mu with
      | None => let* (_, st') := act clock Act_acquire st in Some (mkFloor st' None)
      | Some _ => None
      end
  | Act_work i =>
      let* w := p_workers st !! i in
      if calls_pool (w_job w) then
        match mu with
        | None => Some (mkFloor st (Some (H_worker i)))
        | Some (H_worker k) =>
            guard* (k =? i) in
            let* (_, st') := act clock (Act_work i) st in Some (mkFloor st' None)
        | Some H_client => None
        end
      else let* (_, st') := act clock (Act_work i) st in Some (mkFloor st' mu)
  | _ => let* (_, st') := act clock a st in Some (mkFloor st' mu)
  end.

Fixpoint floor_acts (l : list Act) (F : Floor) : option Floor :=
  match l with
  | [] => Some F
  | a :: l => let* F1 := floor_act a F in floor_acts l F1
  end.

Lemma act_work_runs i c st st' : act clock (Act_work i) st = Some (c, st') → ∃ w, runs i w st st'.
Proof.
  destruct st as [ws s hs l]. simpl. destruct (ws !! i) as [w|] eqn:Ew; [|done].
  destruct (work clock w s) as [[[w' s'] es]|] eqn:E; [|done]. intros [= _ <-]. exists w. split; [done|]. by exists w', s', es.
Qed.

Lemma floor_act_run a F F' : floor_act a F = Some F' → ∃ ms, floor_run ms F F'.
Proof.
  assert (∀ m F F', floor_step m F F' → ∃ ms, floor_run ms F F') as Hone.
  { intros m G G' St. exists [m]. by eapply fr_cons; [|constructor]. }
  destruct F as [st mu], a as [|x o|x|inst id|i]; cbn [floor_act].
  - destruct mu; [done|]. destruct st as [ws s hs l]. simpl.
    destruct (acquire_order s) as [[[x|] s']|] eqn:E; intros [= <-]. exists [None; None].
    eapply fr_cons; [apply fl_client_lock|]. eapply fr_cons; [apply fl_acquire; by apply ca_some|]. constructor.
  - destruct st as [ws s hs l]. simpl. destruct (bool_decide (x ∈ hs)) eqn:Ex; [|done].
    destruct (bool_decide (qty_ok o)) eqn:Eq; [|done]. simpl.
    destruct (write_order o x s) as [s'|] eqn:E; intros [= <-]. apply bool_decide_eq_true in Ex, Eq.
    eapply Hone, fl_client. by eapply cl_write.
  - destruct st as [ws s [|y hs] l]; simpl; [done|]. case_bool_decide; [|done]. subst y.
    destruct (order_at x s) as [o|] eqn:Eo; [|done]. destruct (ws !! _) as [w|] eqn:Ew; [|done].
    intros [= <-]. eapply Hone, fl_client. by apply (cl_submit ws s [] hs l x o w).
  - destruct st as [ws s hs l]. simpl. destruct (ws !! _) as [w|] eqn:Ew; [|done]. intros [= <-].
    eapply Hone, fl_client. by apply cl_cancel.
  - destruct (p_workers st !! i) as [w|] eqn:Hi; [|done]. destruct (calls_pool (w_job w)) eqn:Hc.
    + destruct mu as [[k|]|]; [|done|].
      * destruct (Nat.eqb_spec k i) as [->|]; [|done].
        destruct (act clock (Act_work i) st) as [[c st']|] eqn:E; [|done]. intros [= <-].
        destruct (act_work_runs _ _ _ _ E) as [w0 Hr]. assert (w0 = w) as -> by (destruct Hr; congruence).
        eapply Hone. by eapply fl_release.
      * intros [= <-]. eapply Hone. by eapply fl_lock.
    + destruct (act clock (Act_work i) st) as [[c st']|] eqn:E; [|done]. intros [= <-].
      destruct (act_work_runs _ _ _ _ E) as [w0 Hr]. assert (w0 = w) as -> by (destruct Hr; congruence).
      eapply Hone. by eapply fl_run.
Qed.

Lemma floor_run_app ms1 ms2 F F1 F' : floor_run ms1 F F1 → floor_run ms2 F1 F' → floor_run (ms1 ++ ms2) F F'.
Proof. induction 1; [done|]. intros H2. simpl. eapply fr_cons; eauto. Qed.

Lemma floor_acts_run l F F' : floor_acts l F = Some F' → ∃ ms, floor_run ms F F'.
Proof.
  revert F. induction l as [|a l IH]; intros F; simpl; [intros [= <-]; exists []; constructor|].
  destruct (floor_act a F) as [F1|] eqn:E; [|done]. intros (ms2 & H2)%IH.
  destruct (floor_act_run _ _ _ E) as [ms1 H1]. exists (ms1 ++ ms2). by eapply floor_run_app.
Qed.
End progress.

(** ** A run: a worker waits for the mutex another one holds *)

Definition floor_demo : list Act :=
  enter 7 (order_demo 1 7 100 5 Sell) ++ enter 6 (order_demo 1 8 50 5 Sell) ++
  replicate 3 (Act_work 1) ++ replicate 3 (Act_work 0) ++
  enter 5 (order_demo 2 7 100 7 Buy) ++ enter 4 (order_demo 2 8 50 5 Buy) ++
  replicate 4 (Act_work 1) ++ replicate 3 (Act_work 0).

(** Worker 1 has filled a seller and is inside [release]; worker 0 has filled
    another and is about to call it. *)
Lemma worker_finishes_witness :
  ∃ F w, floor_acts demo_clock floor_demo (mkFloor pit_demo None) = Some F ∧
    f_mu F = Some (H_worker 1) ∧ p_workers (f_pit F) !! 0 = Some w ∧ calls_pool (w_job w) = true ∧
    (∀ ms' F', busy_run demo_clock 0 ms' F F' → steps_of 0 ms' ≤ 56) ∧
    ((∃ F', floor_step demo_clock (Some 0) F F') ∨
     ∃ m F', m ≠ Some 0 ∧ is_Some (f_mu F) ∧ floor_step demo_clock m F F' ∧ f_mu F' = None).
Proof.
  destruct (floor_acts demo_clock floor_demo (mkFloor pit_demo None)) as [F|] eqn:E; [|vm_compute in E; discriminate E].
  assert (f_mu F = Some (H_worker 1) ∧ ∃ w, p_workers (f_pit F) !! 0 = Some w ∧ calls_pool (w_job w) = true) as (Hm & w & Hw & Hc).
  { vm_compute in E. injection E as <-. split; [reflexivity|]. eexists. split; reflexivity. }
  exists F, w. split; [done|]. split; [exact Hm|]. split; [exact Hw|]. split; [exact Hc|].
  destruct (floor_acts_run _ _ _ _ E) as [ms Hr].
  assert (Z.of_nat 8 ≤ 4294967294)%Z as H8 by lia.
  assert (Floor_new ex_registry 2 8 = inl (mkFloor pit_demo None)) as Hp by reflexivity.
  assert (busy 0 F) as Hb by (exists w; split; [exact Hw|intros Hj; by rewrite Hj in Hc]).
  exact (worker_finishes demo_clock ex_registry 2 8 (mkFloor pit_demo None) ms F 0 H8 Hp Hr Hb).
Defined.
