(* ===== verification/Drain.v ===== *)
(** * The sharded engine can always finish its work

    From every reachable state the threads that are in the middle of something,
    scheduled suitably and without any new call by a client, reach a state in
    which every producer has returned and every worker has either run all the
    commands of its shard or, once its stop flag is set, exited: no reachable
    state is a dead end.  What a fair schedule guarantees is in the file Fair. *)

From S2P Require Import Prelude StdMap Types Heap Pool PriceLevel OrderBook Latency Matcher.
From S2P Require Import MatchSpec SubmitSpec CancelSpec Contract Chain Registry Engine Spsc Sharded.

Definition decide_idle {T} (pc : PopPc (T:=T)) : {pc = C_idle} + {pc ≠ C_idle}.
Proof. destruct pc; by (left; done) || (right; done). Defined.

Section drain.
Variable clock : nat → Z.

(** A step inside a shard that is not the setting of the stop flag. *)
Definition works (st st' : Sharded) : Prop :=
  ∃ i sh sh' back ran s', shards_ st !! i = Some sh ∧
    shard_step clock sh (sh_sys st) back ran sh' s' ∧ stop sh' = stop sh ∧
    st' = mkSharded (<[i := sh']> (shards_ st)) s' (back ++ held st) (log st ++ ran).

Lemma works_step st st' : works st st' → step clock st st'.
Proof.
  destruct st as [shs s hs l]. intros (i & sh & sh' & back & ran & s' & Hi & Hs & _ & ->). by eapply st_shard.
Qed.

(** Commands pushed and not yet popped. *)
Definition waiting (sh : Shard) : nat := length (pushed (queue sh)) - length (popped (queue sh)).

(** What a shard has left to do under a schedule whose loads are fresh. *)
Definition producer_work (sh : Shard) : nat :=
  match producer sh with A_idle => 0 | A_count => 1 | A_push _ => 20 + push_left (push_pc (queue sh)) end.
Definition pop_work (sh : Shard) : nat :=
  match pop_pc (queue sh) with C_idle => 5 | pc => pop_left pc end.
Definition worker_work (sh : Shard) : nat :=
  match worker sh with
  | W_exit => 0
  | W_head => if decide (stop sh = None ∧ waiting sh = 0) then 0 else 6
  | W_pop d => (if decide (d = false ∧ stop sh ≠ None) then 8 else 0) + pop_work sh
  | W_run _ _ => 8
  | W_done _ => 7
  end.
Definition queue_work (sh : Shard) : nat := match worker sh with W_exit => 0 | _ => 10 * waiting sh end.
Definition shard_work (sh : Shard) : nat := producer_work sh + queue_work sh + worker_work sh.

(** A shard step towards the end of the work. *)
Definition gets_on (sh : Shard) (s : Sys) (back : list ptr) (ran : list Command) (sh' : Shard) (s' : Sys) : Prop :=
  shard_step clock sh s back ran sh' s' ∧ stop sh' = stop sh ∧ shard_work sh' < shard_work sh ∧
  pushed (queue sh) `prefix_of` pushed (queue sh').

Lemma producer_gets_on n i sh done s :
  shard_ok n i sh done → producer sh ≠ A_idle → ∃ back sh', gets_on sh s back [] sh' s.
Proof.
  intros Hok Hne. pose proof (prefix_length _ _ (ri_fifo _ _ (so_ring _ _ _ _ Hok))) as Hlen.
  destruct (producer sh) as [|cmd|] eqn:Ea; [done| |]; last first.
  { eexists [], _. split_and!; [by apply sp_count|done| |done].
    unfold shard_work, producer_work, queue_work, worker_work, waiting, pop_work. simpl. rewrite Ea. lia. }
  pose proof (so_prod _ _ _ _ Hok) as Hp. rewrite Ea in Hp. simpl in Hp.
  destruct (push_enabled kQueueLog (queue sh) (so_ring _ _ _ _ Hok)) as [q' St]; [intros E; by rewrite E in Hp|].
  destruct (push_step_frame _ _ _ St Hp) as (E1 & E2 & E3 & Hv).
  destruct (push_step_left _ _ _ St) as [[[E _]|Hlt] _]; [by rewrite E in Hp|].
  unfold gets_on, shard_work, producer_work, queue_work, worker_work, waiting, pop_work.
  destruct Hv as [[Hv E4]|[Hidle [E4|E4]]].
  - eexists [], _. split_and!; [eapply sp_push; [done..|]|done| |]; simpl.
    + intros E. by rewrite E in Hv.
    + rewrite Ea, E1, E2, E4. lia.
    + by rewrite E4.
  - eexists _, _. split_and!; [by eapply sp_full|done| |]; simpl.
    + rewrite Ea, E1, E2, E4. lia.
    + by rewrite E4.
  - eexists [], _. split_and!; [eapply sp_pushed; [done..|]|done| |]; simpl.
    + rewrite E4. intros E%(f_equal length). rewrite length_app in E. simpl in E. lia.
    + rewrite Ea, E1, E2, E4, length_app. simpl. destruct (worker sh); repeat case_decide; lia.
    + rewrite E4. by apply prefix_app_r.
Qed.

Lemma pop_step_end (q q' : Ring (T:=Command)) :
  pop_step kQueueLog q q' → pop_pc q' = C_idle →
  (popped q' = popped q ∧ ∃ hd, pop_pc q = C_head hd) ∨ (∃ cmd, popped q' = popped q ++ [cmd]).
Proof. intros [] E; simpl in *; try done; eauto. Qed.

Lemma pop_gets_on n i sh done d s :
  shard_ok n i sh done → producer sh = A_idle → worker sh = W_pop d → ∃ sh', gets_on sh s [] [] sh' s.
Proof.
  intros Hok Ea Ew. pose proof (so_ring _ _ _ _ Hok) as Hr. pose proof (prefix_length _ _ (ri_fifo _ _ Hr)) as Hlen.
  assert (∃ q', pop_step kQueueLog (queue sh) q' ∧
    (∀ hd, pop_pc (queue sh) = C_head hd → popped (queue sh) ≠ pushed (queue sh) → pop_pc q' = C_read hd))
    as (q' & St & Hfresh).
  { destruct (decide_idle (pop_pc (queue sh))) as [Hi|Hi]; [|by apply pop_enabled].
    destruct (queue sh) as [h t b pv cv pp c ps qs]. simpl in *. subst c. eexists. split; [apply pop_call|done]. }
  destruct (pop_step_frame clock _ _ St) as (E1 & E2 & _ & E3). destruct (pop_step_left _ _ _ St) as [Hleft _].
  pose proof (prefix_length _ _ (ri_fifo _ _ (pop_step_inv _ _ _ Hr St))) as Hlen'.
  unfold gets_on, shard_work, producer_work, queue_work, worker_work, waiting, pop_work.
  destruct (decide_idle (pop_pc q')) as [Hi|Hi].
  - destruct (pop_step_end _ _ St Hi) as [(Ep & hd & Eh)|(cmd & Ep)].
    + assert (popped (queue sh) = pushed (queue sh)) as Epp.
      { destruct (decide (length (popped (queue sh)) = length (pushed (queue sh)))) as [El|Hne].
        - destruct (ri_fifo _ _ Hr) as [z Hz]. rewrite Hz, length_app in El.
          rewrite Hz, (nil_length_inv z) by lia. by rewrite app_nil_r.
        - rewrite (Hfresh hd Eh) in Hi; [done|]. congruence. }
      eexists. split_and!; [by eapply sw_empty|done| |simpl; by rewrite E1]. simpl.
      rewrite Ea, Ew, Ep, E1, Epp, Nat.sub_diag, Eh. simpl. destruct d; repeat case_decide; naive_solver lia.
    + eexists. split_and!; [by eapply sw_got|done| |simpl; by rewrite E1]. simpl.
      rewrite Ep, E1, length_app in *. simpl in *. rewrite Ea, Ew. lia.
  - eexists. split_and!; [by eapply sw_pop|done| |simpl; by rewrite E1]. simpl.
    rewrite Ea, Ew, E1, (E3 Hi). destruct Hleft as [[-> Hl]|Hl]; destruct (pop_pc q'); simpl in *; try done;
      destruct (pop_pc (queue sh)); simpl in *; lia.
Qed.

Lemma worker_gets_on n i sh done s :
  shard_ok n i sh done → producer sh = A_idle → 0 < shard_work sh →
  (∀ d cmd, worker sh = W_run d cmd → is_Some (process clock cmd (sengine sh) s)) →
  ∃ ran sh' s', gets_on sh s [] ran sh' s'.
Proof.
  intros Hok Ea Hwork Hrun. pose proof (prefix_length _ _ (ri_fifo _ _ (so_ring _ _ _ _ Hok))) as Hlen.
  pose proof (so_work _ _ _ _ Hok) as Hidle.
  destruct (worker sh) as [|d|d cmd|d|] eqn:Ew.
  - assert (pop_pc (queue sh) = C_idle) as Hpc by (by apply Hidle). destruct (stop sh) as [k|] eqn:Es.
    + eexists [], _, s. split_and!; [by eapply sw_stopped|first [done|by simpl; rewrite Es]| |done].
      unfold shard_work, producer_work, queue_work, worker_work, waiting, pop_work in *. simpl. rewrite Ew, Ea, Es, Hpc.
      repeat case_decide; naive_solver lia.
    + eexists [], _, s. split_and!; [by eapply sw_loop|first [done|by simpl; rewrite Es]| |done].
      unfold shard_work, producer_work, queue_work, worker_work, waiting, pop_work in *. simpl in *. rewrite Ew, Ea, Es, Hpc in *.
      repeat case_decide; naive_solver lia.
  - destruct (pop_gets_on n i sh done d s Hok Ea Ew) as [sh' H]. by exists [], sh', s.
  - destruct (Hrun d cmd eq_refl) as [[e' s'] Hp]. eexists [cmd], _, s'. split_and!; [by eapply sw_run|done| |done].
    unfold shard_work, producer_work, queue_work, worker_work, waiting, pop_work. simpl. rewrite Ew, Ea. lia.
  - assert (pop_pc (queue sh) = C_idle) as Hpc by (by apply Hidle).
    eexists [], _, s. split_and!; [by eapply sw_count|done| |done].
    unfold shard_work, producer_work, queue_work, worker_work, waiting, pop_work. simpl. rewrite Ew, Ea, Hpc.
    destruct d; repeat case_decide; naive_solver lia.
  - unfold shard_work, producer_work, queue_work, worker_work in Hwork. rewrite Ea, Ew in Hwork. lia.
Qed.

(** A shard with nothing left to do. *)
Lemma no_work n i sh done :
  shard_ok n i sh done → shard_work sh = 0 →
  producer sh = A_idle ∧
  match stop sh with
  | None => submitted sh = processed sh ∧ done = pushed (queue sh)
  | Some _ => worker sh = W_exit
  end.
Proof.
  intros [Hr Hp Hw Hpo Hs Hpr Hcl Hst Hdr Hex] H.
  unfold shard_work, producer_work, queue_work, worker_work in H.
  destruct (producer sh) eqn:Ea; [|lia..]. split; [done|].
  destruct (worker sh) as [|d|d cmd|d|] eqn:Ew; try lia.
  - case_decide as Hd; [|lia]. destruct Hd as [-> Hwait]. rewrite app_nil_r in Hpo.
    destruct (ri_fifo _ _ Hr) as [z Hz]. unfold waiting in Hwait. rewrite Hz, length_app in Hwait.
    rewrite (nil_length_inv z), app_nil_r in Hz by lia. rewrite Hs, Hpr, Hz, Hpo. by split.
  - unfold pop_work in H. destruct (pop_pc (queue sh)); simpl in H; lia.
  - destruct (Hex eq_refl) as (k & -> & _). done.
Qed.

Definition total_work (st : Sharded) : nat := sum_list_with shard_work (shards_ st).

Lemma total_work_insert shs i sh sh' :
  shs !! i = Some sh → shard_work sh' < shard_work sh →
  sum_list_with shard_work (<[i := sh']> shs) < sum_list_with shard_work shs.
Proof.
  intros Hi Hlt. rewrite insert_take_drop by (by apply lookup_lt_Some in Hi).
  rewrite <- (take_drop_middle _ _ _ Hi) at 3.
  rewrite !sum_list_with_app. simpl. lia.
Qed.

Lemma total_work_zero shs i sh : sum_list_with shard_work shs = 0 → shs !! i = Some sh → shard_work sh = 0.
Proof.
  intros Hz Hi. rewrite <- (take_drop_middle _ _ _ Hi), sum_list_with_app in Hz. simpl in Hz. lia.
Qed.

Lemma total_work_pos shs : 0 < sum_list_with shard_work shs → ∃ i sh, shs !! i = Some sh ∧ 0 < shard_work sh.
Proof.
  induction shs as [|sh shs IH]; simpl; [lia|]. intros H. destruct (decide (0 < shard_work sh)).
  - by exists 0, sh.
  - destruct IH as (i & sh' & ? & ?); [lia|]. by exists (S i), sh'.
Qed.

(** Some shard gets on. *)
Lemma sharded_gets_on n st U gs :
  sharded_ok n st U gs → 0 < total_work st →
  ∃ i sh sh' back ran s', shards_ st !! i = Some sh ∧ gets_on sh (sh_sys st) back ran sh' s'.
Proof.
  intros [Hn He Hs Ho Hh Hrd] Hpos. destruct (total_work_pos _ Hpos) as (i & sh & Hi & Hw).
  destruct (Hs i sh Hi) as [Hag Hsh].
  destruct (producer sh) eqn:Ea.
  2,3: destruct (producer_gets_on n i sh _ (sh_sys st) Hsh) as (back & sh' & H); [by rewrite Ea|];
       by exists i, sh, sh', back, [], (sh_sys st).
  destruct (worker_gets_on n i sh _ (sh_sys st) Hsh Ea Hw) as (ran & sh' & s' & H); [|by exists i, sh, sh', [], ran, s'].
  intros d cmd Ew. assert (cmd ∈ flight sh) as Hcmd by (unfold flight; rewrite Ew; left).
  pose proof (in_hand_class clock n i sh _ d cmd Hsh Ew) as Hcl.
  destruct (process_spec clock U _ gs cmd He (Hrd i sh cmd Hi Hcmd)) as (U' & s' & gs' & HU & _).
  by destruct (process_agree clock n i _ U _ gs cmd U' s' Hag Hcl (Hrd i sh cmd Hi Hcmd) HU) as (e' & -> & _).
Qed.

(** What a run of [works] keeps: the flags, and what has been pushed. *)
Definition same_shards (st st' : Sharded) : Prop :=
  ∀ i sh', shards_ st' !! i = Some sh' → ∃ sh, shards_ st !! i = Some sh ∧ stop sh' = stop sh ∧
    pushed (queue sh) `prefix_of` pushed (queue sh').

Lemma same_shards_trans st1 st2 st3 : same_shards st1 st2 → same_shards st2 st3 → same_shards st1 st3.
Proof.
  intros H1 H2 i sh3 Hi. destruct (H2 i sh3 Hi) as (sh2 & Hi2 & E2 & P2). destruct (H1 i sh2 Hi2) as (sh1 & Hi1 & E1 & P1).
  exists sh1. split_and!; [done|congruence|by etrans].
Qed.

Lemma drain_run n U0 s0 st U gs :
  sharded_ok n st U gs → rtc (seq_step clock) (U0, s0, []) (U, sh_sys st, log st) →
  ∃ st' U' gs', rtc works st st' ∧ total_work st' = 0 ∧ same_shards st st' ∧ sharded_ok n st' U' gs'.
Proof.
  remember (total_work st) as m eqn:Hm. revert st U gs Hm. induction m as [m IH] using lt_wf_ind.
  intros st U gs -> Hok Hseq. destruct (decide (total_work st = 0)) as [Hz|Hz].
  { exists st, U, gs. split_and!; [apply rtc_refl|done| |done]. intros i sh Hi. by exists sh. }
  destruct (sharded_gets_on n st U gs Hok) as (i & sh & sh' & back & ran & s' & Hi & Hst & Estop & Hlt & Hpre); [lia|].
  set (st1 := mkSharded (<[i := sh']> (shards_ st)) s' (back ++ held st) (log st ++ ran)).
  assert (works st st1) as Hw by (by exists i, sh, sh', back, ran, s').
  destruct (step_simulation clock n U0 s0 st st1 U gs Hok Hseq (works_step _ _ Hw)) as (U1 & gs1 & Hok1 & Hseq1).
  destruct (IH (total_work st1) (total_work_insert _ _ _ _ Hi Hlt) st1 U1 gs1 eq_refl Hok1 Hseq1)
    as (st' & U' & gs' & Hr & Hz' & Hsame & Hok').
  exists st', U', gs'. split_and!; [by eapply rtc_l|done| |done]. eapply same_shards_trans; [|done].
  intros j shj [(<- & <- & _)|[_ Hj]]%list_lookup_insert_Some; [by exists sh|by exists shj].
Qed.

(** The sharded engine is never at a dead end.  From every reachable state
    there is a run of the threads alone, without a new call of a client, after
    which every call of [submit] and [cancel] has returned, every worker whose
    stop flag is not set has run all the commands ever pushed to its shard, so
    that [wait_idle] returns if none is set, and every worker whose flag is set
    has exited; nothing that was pushed is lost. *)
Theorem sharded_can_drain r n cap st0 st :
  (Z.of_nat cap ≤ 4294967294)%Z → Sharded_new r n cap = inl st0 → rtc (step clock) st0 st →
  ∃ st', rtc works st st' ∧
    (∀ i sh', shards_ st' !! i = Some sh' →
      producer sh' = A_idle ∧
      (∃ sh, shards_ st !! i = Some sh ∧ stop sh' = stop sh ∧ pushed (queue sh) `prefix_of` pushed (queue sh')) ∧
      match stop sh' with
      | None => of_shard n i (log st') = pushed (queue sh')
      | Some _ => worker sh' = W_exit
      end) ∧
    (Forall (λ sh, stop sh = None) (shards_ st) → all_done st' = true).
Proof.
  intros Hcap Hnew Hr. destruct (Sharded_new_ok r n cap st0 Hcap Hnew) as (U0 & gs0 & HU0 & Hok0 & Hlog).
  destruct (sharded_reachable clock n U0 gs0 st0 st Hok0 Hlog Hr) as (U & gs & Hok & Hseq).
  destruct (drain_run n U0 (sh_sys st0) st U gs Hok Hseq) as (st' & U' & gs' & Hw & Hz & Hsame & Hok').
  assert (∀ i sh', shards_ st' !! i = Some sh' → shard_work sh' = 0 ∧ shard_ok n i sh' (of_shard n i (log st'))) as Hsh.
  { intros i sh' Hi. split; [by eapply total_work_zero|by apply (sg_shards _ _ _ _ Hok')]. }
  exists st'. split_and!; [done| |].
  - intros i sh' Hi. destruct (Hsh i sh' Hi) as [Hz' Hs]. destruct (no_work n i sh' _ Hs Hz') as [? H].
    split_and!; [done|by apply Hsame|]. by destruct (stop sh'); [|destruct H].
  - intros Hall. unfold all_done. apply forallb_forall. intros sh' Hin%list_elem_of_In.
    apply list_elem_of_lookup in Hin as [i Hi]. destruct (Hsh i sh' Hi) as [Hz' Hs].
    destruct (Hsame i sh' Hi) as (sh & Hi0 & E & _). rewrite Forall_forall in Hall.
    assert (stop sh' = None) as En by (rewrite E; apply Hall; by eapply list_elem_of_lookup_2).
    destruct (no_work n i sh' _ Hs Hz') as [_ H]. rewrite En in H. apply Z.eqb_eq, H.
Qed.
End drain.

(** *** Witness *)

Lemma sharded_can_drain_witness :
  ∃ st st', log st = [demo_command] ∧ rtc (works demo_clock) st st' ∧
    ∀ i sh', shards_ st' !! i = Some sh' → producer sh' = A_idle.
Proof.
  destruct demo_sharded_run as (st & Hr & Hl & _).
  destruct (sharded_can_drain demo_clock ex_registry 2 4 demo_start st) as (st' & Hw & H & _);
    [lia|exact demo_start_ok|exact Hr|].
  exists st, st'. split; [exact Hl|]. split; [exact Hw|]. intros i sh' Hi. apply (H i sh' Hi).
Defined.
