(* ===== verification/WaitIdle.v ===== *)
(** * [ShardedMatcher::wait_idle] (src/matching/sharded_engine.cpp)

    The thread that waits loads two counters of one shard after the other, not
    all at once, while the workers go on.  A load of [processed] may return any
    value the counter has held; [submitted] is loaded by a thread that has seen
    the calls of the clients return, so its newest value is read.  As its
    comment demands, no client calls [submit] or [cancel] meanwhile. *)

From S2P Require Import Prelude StdMap Types Heap Pool PriceLevel OrderBook Latency Matcher.
From S2P Require Import MatchSpec SubmitSpec CancelSpec Contract Chain Registry Engine Spsc Sharded.

(** Where the waiting thread is: before the load of [submitted] of shard [i],
    before the load of [processed], returned. *)
Inductive WaitPc := I_sub (i : nat) | I_proc (i : nat) (sub : Z) | I_done.

(** The commands [processed] has counted. *)
Definition counted (sh : Shard) : nat :=
  length (popped (queue sh)) - match worker sh with W_run _ _ | W_done _ => 1 | _ => 0 end.

Section wait.
Variable clock : nat → Z.

(** A step that begins no call of a client. *)
Definition quiet (st st' : Sharded) : Prop :=
  step clock st st' ∧
  ∀ i sh sh', shards_ st !! i = Some sh → shards_ st' !! i = Some sh' → producer sh = A_idle → producer sh' = A_idle.

(** [wait_idle] among the other threads. *)
Inductive wait_step : Sharded * WaitPc → Sharded * WaitPc → Prop :=
| wait_other st st' pc : quiet st st' → wait_step (st, pc) (st', pc)
| wait_sub st i sh :
    shards_ st !! i = Some sh → wait_step (st, I_sub i) (st, I_proc i (submitted sh))
| wait_again st i sub sh k :
    shards_ st !! i = Some sh → k ≤ counted sh → sub ≠ u64 (Z.of_nat k) →
    wait_step (st, I_proc i sub) (st, I_sub 0)
| wait_next st i sub sh k :
    shards_ st !! i = Some sh → k ≤ counted sh → sub = u64 (Z.of_nat k) →
    wait_step (st, I_proc i sub) (st, I_sub (S i))
| wait_return st i : shards_ st !! i = None → wait_step (st, I_sub i) (st, I_done).

(** ** What quiet steps keep *)

(** No client is sending. *)
Definition unsent (st : Sharded) : Prop := Forall (λ sh, producer sh = A_idle) (shards_ st).

Lemma unsent_at st i sh : unsent st → shards_ st !! i = Some sh → producer sh = A_idle.
Proof. unfold unsent. rewrite Forall_forall. intros H Hi. by eapply H, list_elem_of_lookup_2. Qed.

(** What one shard keeps: what was pushed and how often; and what it has run. *)
Record shard_kept (sh sh' : Shard) : Prop := {
  sk_producer : producer sh' = A_idle;
  sk_pushed : pushed (queue sh') = pushed (queue sh);
  sk_submitted : submitted sh' = submitted sh;
  sk_popped : popped (queue sh) `prefix_of` popped (queue sh');
  sk_counted : counted sh ≤ counted sh' }.

Lemma shard_kept_refl sh : producer sh = A_idle → shard_kept sh sh.
Proof. by constructor. Qed.
Lemma shard_kept_trans sh1 sh2 sh3 : shard_kept sh1 sh2 → shard_kept sh2 sh3 → shard_kept sh1 sh3.
Proof. intros [????] [????]. constructor; try congruence; [by etrans|lia]. Qed.

Lemma pop_step_popped (q q' : Ring (T:=Command)) :
  pop_step kQueueLog q q' → popped q `prefix_of` popped q' ∧ length (popped q') ≤ S (length (popped q)).
Proof. intros []; simpl; split; try done; try lia; [by apply prefix_app_r|rewrite length_app; simpl; lia]. Qed.

Lemma shard_step_kept sh s back ran sh' s' :
  shard_step clock sh s back ran sh' s' → producer sh = A_idle → shard_kept sh sh'.
Proof.
  intros St Ea. destruct St as [sh s cmd q' E|sh s cmd q' E|sh s cmd q' E|sh s E|sh s E Es|sh s Ew|sh s k Ew Es|
    sh s d q' Ew St Hn|sh s d q' Ew St Hn E|sh s d q' cmd Ew St Hn E|sh s d cmd e' s' Ew Hp|sh s d Ew]; try congruence.
  - by constructor.
  - constructor; try done. unfold counted. simpl. rewrite Ew. lia.
  - constructor; try done. unfold counted. simpl. rewrite Ew. lia.
  - destruct (pop_step_popped _ _ St) as [Hp _]. destruct (pop_step_frame clock _ _ St) as (E1 & _).
    constructor; try done. unfold counted. simpl. rewrite Ew. apply prefix_length in Hp. lia.
  - destruct (pop_step_frame clock _ _ St) as (E1 & _). constructor; try done; simpl; [by rewrite E|].
    unfold counted. simpl. rewrite Ew, E. destruct d; lia.
  - destruct (pop_step_frame clock _ _ St) as (E1 & _). constructor; try done; simpl; [rewrite E; by apply prefix_app_r|].
    unfold counted. simpl. rewrite Ew, E, length_app. simpl. lia.
  - constructor; try done. unfold counted. simpl. rewrite Ew. lia.
  - constructor; try done. unfold counted. simpl. rewrite Ew. destruct d; lia.
Qed.

(** The shards of two states, one by one. *)
Definition all_kept (st st' : Sharded) : Prop :=
  length (shards_ st') = length (shards_ st) ∧
  ∀ i sh sh', shards_ st !! i = Some sh → shards_ st' !! i = Some sh' → shard_kept sh sh'.

Lemma quiet_kept st st' : quiet st st' → unsent st → all_kept st st'.
Proof.
  intros [St Hq] Hu. destruct St as [shs s hs l x s' Ha|shs s hs l x o s' Hx Hqo Hw|shs s hs1 hs2 l x o sh q' Ho Hi Ea Stp Hc|
    shs s hs l inst id sh q' Hi Ea Stp Hc|shs s hs l i sh sh' back ran s' Hi Stp]; cbn [shards_] in *.
  - split; [done|]. intros i sh sh' Hi Hi'. simplify_eq/=. apply shard_kept_refl. by eapply unsent_at.
  - split; [done|]. intros i sh sh' Hi Hi'. simplify_eq/=. apply shard_kept_refl. by eapply unsent_at.
  - exfalso. specialize (Hq _ _ (with_producer (A_push (submit_command x o)) (with_queue q' sh)) Hi). simpl in Hq.
    rewrite list_lookup_insert_eq in Hq by (by apply lookup_lt_Some in Hi). by specialize (Hq eq_refl Ea).
  - exfalso. specialize (Hq _ _ (with_producer (A_push (cancel_command inst id)) (with_queue q' sh)) Hi). simpl in Hq.
    rewrite list_lookup_insert_eq in Hq by (by apply lookup_lt_Some in Hi). by specialize (Hq eq_refl Ea).
  - split; [simpl; by rewrite length_insert|]. cbn [shards_]. intros j shj shj' Hj [(<- & <- & _)|[Hne Hj']]%list_lookup_insert_Some.
    + simpl in *. simplify_eq. eapply shard_step_kept; [done|]. by apply (unsent_at _ _ _ Hu Hi).
    + simpl in *. simplify_eq. apply shard_kept_refl. by apply (unsent_at _ _ _ Hu Hj).
Qed.

Lemma all_kept_unsent st st' : all_kept st st' → unsent st'.
Proof.
  intros [Hl Hk]. apply Forall_forall. intros sh' (i & Hi')%list_elem_of_lookup.
  destruct (lookup_lt_is_Some_2 (shards_ st) i) as [sh Hi]; [rewrite <- Hl; by apply lookup_lt_Some in Hi'|].
  by apply (Hk i sh sh').
Qed.

Lemma all_kept_refl st : unsent st → all_kept st st.
Proof. intros Hu. split; [done|]. intros i sh sh' Hi Hi'. simplify_eq. apply shard_kept_refl. by eapply unsent_at. Qed.

Lemma all_kept_trans st1 st2 st3 : all_kept st1 st2 → all_kept st2 st3 → all_kept st1 st3.
Proof.
  intros [L1 K1] [L2 K2]. split; [congruence|]. intros i sh1 sh3 H1 H3.
  destruct (lookup_lt_is_Some_2 (shards_ st2) i) as [sh2 H2]; [rewrite L1; by apply lookup_lt_Some in H1|].
  eapply shard_kept_trans; eauto.
Qed.

(** ** The counter of the commands run *)

(** A command in the worker's hands was popped. *)
Definition fed (sh : Shard) : Prop :=
  match worker sh with W_run _ _ | W_done _ => 0 < length (popped (queue sh)) | _ => True end.

Lemma push_step_popped (q q' : Ring (T:=Command)) : push_step kQueueLog q q' → popped q' = popped q.
Proof. by intros []. Qed.

Lemma shard_step_fed sh s back ran sh' s' : shard_step clock sh s back ran sh' s' → fed sh → fed sh'.
Proof.
  unfold fed. intros St. destruct St as [sh s cmd q' E Sp|sh s cmd q' E Sp|sh s cmd q' E Sp|sh s E|sh s E Es|sh s Ew|
    sh s k Ew Es|sh s d q' Ew St Hn|sh s d q' Ew St Hn E|sh s d q' cmd Ew St Hn E|sh s d cmd e' s' Ew Hp|sh s d Ew];
    simpl; try done; try by rewrite (push_step_popped _ _ Sp).
  - by rewrite Ew.
  - by destruct d.
  - rewrite E, length_app. simpl. lia.
  - by rewrite Ew.
  - by destruct d.
Qed.

Definition all_fed (st : Sharded) : Prop := ∀ i sh, shards_ st !! i = Some sh → fed sh.

Lemma step_fed st st' : step clock st st' → all_fed st → all_fed st'.
Proof.
  intros St Hf. destruct St as [shs s hs l x s' Ha|shs s hs l x o s' Hx Hqo Hw|shs s hs1 hs2 l x o sh q' Ho Hi Ea Stp Hc|
    shs s hs l inst id sh q' Hi Ea Stp Hc|shs s hs l i sh sh' back ran s' Hi Stp]; try exact Hf;
    intros j shj [(<- & <- & _)|[_ Hj]]%list_lookup_insert_Some; try (by apply (Hf j)).
  - specialize (Hf _ _ Hi). unfold fed in *. simpl. by rewrite (push_step_popped _ _ Stp).
  - specialize (Hf _ _ Hi). unfold fed in *. simpl. by rewrite (push_step_popped _ _ Stp).
  - eapply shard_step_fed; [done|by apply (Hf _ _ Hi)].
Qed.

Lemma new_fed r n cap st : Sharded_new r n cap = inl st → all_fed st.
Proof.
  unfold Sharded_new. destruct (decide (n = 0)); [done|]. destruct (negb (frozen_ r)); [done|].
  destruct (Shards_new r n (seq 0 n)) as [shs|] eqn:E; [|done]. intros [= <-] k sh Hk.
  destruct (proj2 (Shards_new_lookup _ _ _ _ E) k sh Hk) as (i & _ & Hs). unfold Shard_new in Hs.
  destruct (Engine_new r _); [|done]. by injection Hs as <-.
Qed.

Lemma processed_counted n i sh done :
  shard_ok n i sh done → fed sh → processed sh = u64 (Z.of_nat (counted sh)).
Proof.
  intros Hok Hf. rewrite (so_proc _ _ _ _ Hok). unfold counted, fed in *. rewrite (so_popped _ _ _ _ Hok) in *.
  rewrite length_app in *. destruct (worker sh); simpl in *; f_equal; lia.
Qed.

(** Everything pushed to the shard has been run and counted. *)
Definition settled (sh : Shard) : Prop := counted sh = length (pushed (queue sh)).

Lemma settled_facts n i sh done :
  shard_ok n i sh done → fed sh → settled sh →
  done = pushed (queue sh) ∧ popped (queue sh) = pushed (queue sh) ∧ in_hand (worker sh) = [] ∧ ∀ d, worker sh ≠ W_done d.
Proof.
  intros Hok Hf Hs. unfold settled, counted, fed in *. pose proof (so_popped _ _ _ _ Hok) as Hp.
  destruct (ri_fifo _ _ (so_ring _ _ _ _ Hok)) as [z Hz]. rewrite Hz, length_app in Hs.
  assert (z = []) as -> by (apply nil_length_inv; destruct (worker sh); lia). rewrite app_nil_r in Hz. simpl in Hs.
  rewrite Hz. destruct (worker sh); simpl in *; rewrite ?app_nil_r in Hp; split_and!; try done; try lia.
Qed.

Lemma counted_le n i sh done : shard_ok n i sh done → counted sh ≤ length (pushed (queue sh)).
Proof. intros Hok. unfold counted. pose proof (prefix_length _ _ (ri_fifo _ _ (so_ring _ _ _ _ Hok))). lia. Qed.

Lemma kept_settled n i sh sh' done :
  shard_kept sh sh' → shard_ok n i sh' done → settled sh → settled sh'.
Proof.
  intros Hk Hok. unfold settled. pose proof (counted_le _ _ _ _ Hok). rewrite (sk_pushed _ _ Hk) in *.
  pose proof (sk_counted _ _ Hk). lia.
Qed.

(** A load of [processed] that returns what [submitted] was. *)
Lemma equal_load n i sh done k :
  shard_ok n i sh done → producer sh = A_idle → (Z.of_nat (length (pushed (queue sh))) < 2 ^ 64)%Z →
  k ≤ counted sh → submitted sh = u64 (Z.of_nat k) → settled sh.
Proof.
  intros Hok Ea Hb Hk E. rewrite (so_sub _ _ _ _ Hok), Ea, Z.sub_0_r in E. pose proof (counted_le _ _ _ _ Hok).
  symmetry in E. apply wrap_close in E; unfold settled; lia.
Qed.

(** ** The waiting thread *)

(** What it knows: the shards before the one it looks at have run everything. *)
Definition passed (i : nat) (st : Sharded) : Prop :=
  ∀ j sh, j < i → shards_ st !! j = Some sh → settled sh.

Definition wait_inv (st : Sharded) (pc : WaitPc) : Prop :=
  match pc with
  | I_sub i => passed i st
  | I_proc i sub => passed i st ∧ ∀ sh, shards_ st !! i = Some sh → sub = submitted sh
  | I_done => passed (length (shards_ st)) st
  end.

(** The invariant of the other threads. *)
Definition quiet_ok (n : nat) (st : Sharded) : Prop :=
  unsent st ∧ all_fed st ∧
  (∀ i sh, shards_ st !! i = Some sh → (Z.of_nat (length (pushed (queue sh))) < 2 ^ 64)%Z) ∧
  ∃ U0 s0 U gs, sharded_ok n st U gs ∧ rtc (seq_step clock) (U0, s0, []) (U, sh_sys st, log st).

Lemma quiet_ok_shard n st i sh : quiet_ok n st → shards_ st !! i = Some sh → shard_ok n i sh (of_shard n i (log st)).
Proof. intros (_ & _ & _ & U0 & s0 & U & gs & Hok & _) Hi. by apply (sg_shards _ _ _ _ Hok). Qed.

Lemma kept_at st st' i sh' :
  all_kept st st' → shards_ st' !! i = Some sh' → ∃ sh, shards_ st !! i = Some sh ∧ shard_kept sh sh'.
Proof.
  intros [Hl Hk] Hi. destruct (lookup_lt_is_Some_2 (shards_ st) i) as [sh Hsh]; [|by exists sh; eauto].
  rewrite <- Hl. by apply lookup_lt_Some in Hi.
Qed.

Lemma quiet_step_ok n st st' : quiet st st' → quiet_ok n st → quiet_ok n st'.
Proof.
  intros Hq (Hu & Hf & Hb & U0 & s0 & U & gs & Hok & Hseq). pose proof (quiet_kept _ _ Hq Hu) as Hk. destruct Hq as [St _].
  split_and!.
  - by eapply all_kept_unsent.
  - by eapply step_fed.
  - intros i sh' Hi. destruct (kept_at _ _ _ _ Hk Hi) as (sh & Hsh & K). rewrite (sk_pushed _ _ K). by eapply Hb.
  - exists U0, s0. by eapply step_simulation.
Qed.

Lemma passed_kept n i st st' : all_kept st st' → quiet_ok n st' → passed i st → passed i st'.
Proof.
  intros Hk Hok Hp j sh' Hj Hi. destruct (kept_at _ _ _ _ Hk Hi) as (sh & Hsh & K).
  eapply kept_settled; [done|by eapply quiet_ok_shard|by eapply Hp].
Qed.

Lemma wait_step_inv n st pc st' pc' :
  wait_step (st, pc) (st', pc') → quiet_ok n st → wait_inv st pc →
  quiet_ok n st' ∧ all_kept st st' ∧ wait_inv st' pc'.
Proof.
  intros St Hok Hi. inversion St as [? ? ? Hq|? i sh Hsh|? i sub sh k Hsh Hk E|? i sub sh k Hsh Hk E|? i Hn]; subst.
  - pose proof (quiet_kept _ _ Hq (proj1 Hok)) as Hk. pose proof (quiet_step_ok n _ _ Hq Hok) as Hok'.
    split_and!; [done|done|]. destruct pc' as [i|i sub|]; simpl in *.
    + by eapply passed_kept.
    + destruct Hi as [Hp Hs]. split; [by eapply passed_kept|]. intros sh' Hsh'.
      destruct (kept_at _ _ _ _ Hk Hsh') as (sh & Hsh & K). rewrite (sk_submitted _ _ K). by apply Hs.
    + rewrite (proj1 Hk). by eapply passed_kept.
  - split_and!; [done|by apply all_kept_refl, Hok|]. split; [done|]. intros sh' Hsh'. congruence.
  - split_and!; [done|by apply all_kept_refl, Hok|]. intros j ? Hj. lia.
  - split_and!; [done|by apply all_kept_refl, Hok|]. destruct Hi as [Hp Hs]. intros j shj Hj Hshj.
    destruct (decide (j = i)) as [->|]; [|eapply Hp; [|done]; lia]. assert (shj = sh) as -> by congruence.
    pose proof (quiet_ok_shard _ _ _ _ Hok Hsh) as Hshard. destruct Hok as (Hu & _ & Hb & _).
    eapply (equal_load n i sh _ k); [done|by eapply unsent_at|by eapply Hb|done|].
    by rewrite <- (Hs sh Hsh).
  - split_and!; [done|by apply all_kept_refl, Hok|]. simpl in *. intros j sh Hj Hsh. eapply Hi; [|done].
    apply lookup_ge_None in Hn. lia.
Qed.

Lemma wait_run_inv n w w' :
  rtc wait_step w w' → quiet_ok n w.1 → wait_inv w.1 w.2 →
  quiet_ok n w'.1 ∧ all_kept w.1 w'.1 ∧ wait_inv w'.1 w'.2.
Proof.
  induction 1 as [[st pc]|[st pc] [st1 pc1] w' St Hr IH]; intros Hok Hi; simpl in *.
  - split_and!; [done|by apply all_kept_refl, Hok|done].
  - destruct (wait_step_inv n _ _ _ _ St Hok Hi) as (Hok1 & Hk1 & Hi1). destruct (IH Hok1 Hi1) as (Hok2 & Hk2 & Hi2).
    split_and!; [done|by eapply all_kept_trans|done].
Qed.

(** ** After it has returned *)

Definition all_settled (st : Sharded) : Prop := ∀ i sh, shards_ st !! i = Some sh → settled sh.

Lemma settled_quiet n st st' :
  quiet st st' → quiet_ok n st → all_settled st →
  log st' = log st ∧ sengine <$> shards_ st' = sengine <$> shards_ st.
Proof.
  intros [St Hq] Hok Hs. destruct St as [shs s hs l x s' Ha|shs s hs l x o s' Hx Hqo Hw|shs s hs1 hs2 l x o sh q' Ho Hi Ea Stp Hc|
    shs s hs l inst id sh q' Hi Ea Stp Hc|shs s hs l i sh sh' back ran s' Hi Stp]; cbn [shards_ log] in *; try done.
  - split; [done|]. rewrite list_fmap_insert. apply list_insert_id. by rewrite list_lookup_fmap, Hi.
  - split; [done|]. rewrite list_fmap_insert. apply list_insert_id. by rewrite list_lookup_fmap, Hi.
  - pose proof (quiet_ok_shard _ _ _ _ Hok Hi) as Hsh.
    destruct (settled_facts _ _ _ _ Hsh) as (_ & _ & Hh & _); [by apply (proj1 (proj2 Hok) i)|by apply (Hs i)|].
    destruct (shard_step_quiet clock _ _ _ _ _ _ Stp) as [(-> & -> & Eng)|(d & cmd & e' & -> & -> & Ew & _)];
      [|by rewrite Ew in Hh].
    rewrite app_nil_r. split; [done|]. rewrite list_fmap_insert, Eng. apply list_insert_id. by rewrite list_lookup_fmap, Hi.
Qed.

Lemma sharded_book_engines id st st' :
  sengine <$> shards_ st' = sengine <$> shards_ st → sharded_book id st' = sharded_book id st.
Proof.
  intros E. assert (length (shards_ st') = length (shards_ st)) as El.
  { apply (f_equal length) in E. by rewrite !length_fmap in E. }
  unfold sharded_book. rewrite El. set (k := shard_for _ _).
  assert (sengine <$> shards_ st' !! k = sengine <$> shards_ st !! k) as Ek by (by rewrite <- !list_lookup_fmap, E).
  destruct (shards_ st' !! k), (shards_ st !! k); simpl in *; congruence.
Qed.

Lemma settled_stays n st st' :
  rtc quiet st st' → quiet_ok n st → all_settled st →
  log st' = log st ∧ ∀ id, sharded_book id st' = sharded_book id st.
Proof.
  induction 1 as [|st st1 st' Hq Hr IH]; intros Hok Hs; [done|].
  destruct (settled_quiet n _ _ Hq Hok Hs) as [El Ee]. pose proof (quiet_step_ok n _ _ Hq Hok) as Hok1.
  destruct IH as [El' Ee']; [done| |].
  - intros i sh' Hi. eapply (passed_kept n (S i) st st1); [by apply quiet_kept, Hok|done| |apply Nat.lt_succ_diag_r|done].
    intros j sh _ Hj. by eapply Hs.
  - split; [congruence|]. intros id. by rewrite Ee', (sharded_book_engines id _ _ Ee).
Qed.

(** C38: [wait_idle] may be trusted.  It loads the counters shard by shard while
    the workers run on, and a load of [processed] may be stale; still, when it
    returns, and no client was sending and fewer than 2^64 commands were pushed
    to any shard, every command that was ever pushed has
    been run, in the order of the pushes, no worker has a command in its hands,
    the counters agree, and from then on no step of any thread changes a book
    until a client calls again. *)
Theorem wait_idle_sound r n cap st0 st st' :
  (Z.of_nat cap ≤ 4294967294)%Z → Sharded_new r n cap = inl st0 → rtc (step clock) st0 st →
  unsent st → (∀ i sh, shards_ st !! i = Some sh → (Z.of_nat (length (pushed (queue sh))) < 2 ^ 64)%Z) →
  rtc wait_step (st, I_sub 0) (st', I_done) →
  (∀ i sh, shards_ st !! i = Some sh → ∃ sh', shards_ st' !! i = Some sh' ∧
     pushed (queue sh') = pushed (queue sh) ∧ of_shard n i (log st') = pushed (queue sh) ∧
     in_hand (worker sh') = []) ∧
  all_done st' = true ∧
  ∀ st'', rtc quiet st' st'' → log st'' = log st' ∧ ∀ id, sharded_book id st'' = sharded_book id st'.
Proof.
  intros Hcap Hnew Hr Hu Hb Hw. destruct (Sharded_new_ok r n cap st0 Hcap Hnew) as (U0 & gs0 & HU0 & Hok0 & Hlog).
  destruct (sharded_reachable clock n U0 gs0 st0 st Hok0 Hlog Hr) as (U & gs & Hok & Hseq).
  assert (all_fed st) as Hf.
  { revert Hr. apply (rtc_invariant (step clock) all_fed); [intros a b ? ?; by eapply step_fed|].
    by eapply new_fed. }
  destruct (wait_run_inv n _ _ Hw) as (Hok' & Hk & Hi); [split_and!; try done; by exists U0, (sh_sys st0), U, gs|intros j ? Hj; lia|]. simpl in Hok', Hk, Hi.
  assert (all_settled st') as Hs.
  { intros i sh' Hsh'. eapply Hi; [|done]. by apply lookup_lt_Some in Hsh'. }
  assert (∀ i sh', shards_ st' !! i = Some sh' → shard_ok n i sh' (of_shard n i (log st')) ∧ fed sh' ∧ settled sh') as Hfacts.
  { intros i sh' Hi'. split_and!; [by apply quiet_ok_shard|by apply (proj1 (proj2 Hok') i)|by apply (Hs i)]. }
  split_and!; [| |intros st'' Hq; by apply (settled_stays n st' st'')].
  - intros i sh Hsh. destruct (lookup_lt_is_Some_2 (shards_ st') i) as [sh' Hsh'].
    { rewrite (proj1 Hk). by apply lookup_lt_Some in Hsh. }
    destruct (Hfacts i sh' Hsh') as (H1 & H2 & H3). destruct (settled_facts _ _ _ _ H1 H2 H3) as (E & _ & Eh & _).
    exists sh'. pose proof (sk_pushed _ _ (proj2 Hk i sh sh' Hsh Hsh')) as Ep. split_and!; congruence.
  - unfold all_done. apply forallb_forall. intros sh' Hin%list_elem_of_In. apply list_elem_of_lookup in Hin as [i Hsh'].
    destruct (Hfacts i sh' Hsh') as (H1 & H2 & H3). apply Z.eqb_eq.
    rewrite (processed_counted _ _ _ _ H1 H2), (so_sub _ _ _ _ H1), H3.
    rewrite (unsent_at _ _ _ (proj1 Hok') Hsh'), Z.sub_0_r. done.
Qed.
End wait.

(** *** Witness: [wait_idle] after one order, with one stale load *)

Lemma demo_waits :
  ∃ st, rtc (step demo_clock) demo_start st ∧ log st = [demo_command] ∧ unsent st ∧
    (∀ i sh, shards_ st !! i = Some sh → (Z.of_nat (length (pushed (queue sh))) < 2 ^ 64)%Z) ∧
    rtc (wait_step demo_clock) (st, I_sub 0) (st, I_done).
Proof.
  destruct demo_sharded_run as (st & Hr & Hl & E). exists st. split; [exact Hr|]. split; [exact Hl|].
  destruct st as [[|sh0 [|sh1 [|]]] s hs l]; try discriminate E.
  destruct sh0 as [q0 e0 sub0 pr0 stop0 a0 w0], sh1 as [q1 e1 sub1 pr1 stop1 a1 w1]. simpl in E.
  injection E as -> -> -> Ep0 Eq0 -> -> -> Ep1 Eq1. split_and!.
  - by repeat constructor.
  - intros [|[|i]] sh [= <-]; simpl; rewrite ?Ep0, ?Ep1; simpl; lia.
  - eapply rtc_l; [by eapply wait_sub|]. eapply rtc_l; [by eapply (wait_next _ _ _ _ _ 0); [done|lia|done]|].
    eapply rtc_l; [by eapply wait_sub|]. eapply rtc_l; [eapply (wait_again _ _ _ _ _ 0); [done|lia|done]|].
    eapply rtc_l; [by eapply wait_sub|]. eapply rtc_l; [by eapply (wait_next _ _ _ _ _ 0); [done|lia|done]|].
    eapply rtc_l; [by eapply wait_sub|].
    eapply rtc_l; [eapply (wait_next _ _ _ _ _ 1); [done|unfold counted; simpl; rewrite Eq1; simpl; lia|done]|].
    apply rtc_once. by apply wait_return.
Qed.

Lemma wait_idle_sound_witness :
  ∃ st, log st = [demo_command] ∧ rtc (wait_step demo_clock) (st, I_sub 0) (st, I_done) ∧ all_done st = true ∧
    ∀ st'', rtc (quiet demo_clock) st st'' → log st'' = log st ∧ ∀ id, sharded_book id st'' = sharded_book id st.
Proof.
  destruct demo_waits as (st & Hr & Hl & Hu & Hb & Hw). exists st. split; [exact Hl|]. split; [exact Hw|].
  destruct (wait_idle_sound demo_clock ex_registry 2 4 demo_start st st) as (_ & Hd & Hs);
    [lia|exact demo_start_ok|exact Hr|exact Hu|exact Hb|exact Hw|]. split; [exact Hd|exact Hs].
Defined.
