(* ===== verification/Fair.v ===== *)
(** * Every command is run: the sharded engine under a fair schedule
    (src/matching/sharded_engine.cpp, [run_shard])

    A run is an infinite sequence of states, each reached from the one before
    by a step of some thread or by none.  It is fair when every worker that has
    not exited goes on for ever, and when a store to [tail_] or to the stop flag
    becomes visible to the worker in a finite time, as C++ asks of
    implementations: before that, its loads may be stale.  Clients and the thread that sets the stop flags are
    free to do anything. *)

From S2P Require Import Prelude StdMap Types Heap Pool PriceLevel OrderBook Latency Matcher.
From S2P Require Import MatchSpec SubmitSpec CancelSpec Contract Chain Registry Engine Spsc Sharded WaitIdle.

(** Where the worker is, inside [pop] too.  Each of its steps changes this, and
    no step of another thread does. *)
Definition worker_at (sh : Shard) : WorkerPc * PopPc := (worker sh, pop_pc (queue sh)).

(** The number of commands the shard has run. *)
Definition ran_count (sh : Shard) : nat := length (popped (queue sh)) - length (in_hand (worker sh)).

(** The steps of its own the worker needs until it has run the next command,
    if [pop] finds one. *)
Definition next_in (sh : Shard) : nat :=
  match worker sh with
  | W_done _ => 8
  | W_head => 7
  | W_pop _ =>
      match pop_pc (queue sh) with C_idle => 6 | C_called => 5 | C_head _ => 4 | C_read _ => 3 | C_store _ _ => 2 end
  | W_run _ _ => 1
  | W_exit => 0
  end.

(** Steps until [P] commands have been run. *)
Definition steps_left (P : nat) (sh : Shard) : nat := 9 * (P - ran_count sh) + next_in sh.

Lemma prefix_shorter {A} (l1 l2 l : list A) :
  l1 `prefix_of` l → l2 `prefix_of` l → length l1 ≤ length l2 → l1 `prefix_of` l2.
Proof.
  intros H1 H2 Hle. destruct (prefix_weak_total _ _ _ H1 H2) as [|H]; [done|].
  by rewrite (prefix_length_eq _ _ H Hle).
Qed.

Section fair.
Variable clock : nat → Z.

Record fair_run (ρ : nat → Sharded) : Prop := {
  fr_step : ∀ t, step clock (ρ t) (ρ (S t)) ∨ ρ (S t) = ρ t;
  fr_goes_on : ∀ t i, i < length (shards_ (ρ 0)) → ∃ u sh sh', t ≤ u ∧
    shards_ (ρ u) !! i = Some sh ∧ shards_ (ρ (S u)) !! i = Some sh' ∧
    (worker sh = W_exit ∨ worker_at sh' ≠ worker_at sh);
  fr_visible : ∀ t i sh, shards_ (ρ t) !! i = Some sh → ∃ t', ∀ u shu shu' hd, t' ≤ u →
    shards_ (ρ u) !! i = Some shu → shards_ (ρ (S u)) !! i = Some shu' →
    pop_pc (queue shu) = C_head hd → pop_pc (queue shu') ≠ C_head hd →
    length (pushed (queue sh)) ≤ c_view (queue shu');
  fr_flag : ∀ t i sh k, shards_ (ρ t) !! i = Some sh → stop sh = Some k → ∃ t', ∀ u shu shu', t' ≤ u →
    shards_ (ρ u) !! i = Some shu → shards_ (ρ (S u)) !! i = Some shu' →
    worker shu = W_head → worker shu' ≠ W_head → worker shu' = W_pop true }.

(** ** One step, seen from one shard *)

Definition same_worker (sh sh' : Shard) : Prop :=
  worker_at sh' = worker_at sh ∧ popped (queue sh') = popped (queue sh).

Lemma push_step_worker (q q' : Ring (T:=Command)) :
  push_step kQueueLog q q' →
  pop_pc q' = pop_pc q ∧ popped q' = popped q ∧ pushed q `prefix_of` pushed q'.
Proof. intros []; simpl; split_and!; try done. by apply prefix_app_r. Qed.

Lemma step_at st st' i sh sh' :
  step clock st st' → shards_ st !! i = Some sh → shards_ st' !! i = Some sh' →
  (sh' = sh ∨ ∃ a q', push_step kQueueLog (queue sh) q' ∧ sh' = with_producer a (with_queue q' sh)) ∨
  ∃ s back ran s', shard_step clock sh s back ran sh' s'.
Proof.
  intros St Hi Hi'. destruct St as [shs s hs l x s' Ha|shs s hs l x o s' Hx Hqo Hw|shs s hs1 hs2 l x o shj q' Ho Hj Ea Stp Hc|
    shs s hs l inst id shj q' Hj Ea Stp Hc|shs s hs l j shj shj' back ran s' Hj Stp]; cbn [shards_] in *.
  - left. left. congruence.
  - left. left. congruence.
  - apply list_lookup_insert_Some in Hi' as [(<- & <- & _)|[_ Hi']]; [|left; left; congruence].
    assert (shj = sh) as -> by congruence. left. right. eauto.
  - apply list_lookup_insert_Some in Hi' as [(<- & <- & _)|[_ Hi']]; [|left; left; congruence].
    assert (shj = sh) as -> by congruence. left. right. eauto.
  - apply list_lookup_insert_Some in Hi' as [(<- & <- & _)|[_ Hi']]; [|left; left; congruence].
    assert (shj = sh) as -> by congruence. right. eauto.
Qed.

(** The stop flag and the pushes. *)
Definition stop_from (P : nat) (sh : Shard) : Prop := ∀ k, stop sh = Some k → P ≤ k.

(** What was pushed before the flag was set. *)
Definition pushed_first (l : list Command) (sh : Shard) : Prop :=
  l `prefix_of` pushed (queue sh) ∧ stop_from (length l) sh.

Lemma shard_step_stop l sh s back ran sh' s' :
  shard_step clock sh s back ran sh' s' → pushed_first l sh → pushed_first l sh'.
Proof.
  intros St [HP Hs]. unfold pushed_first. destruct St as [sh s cmd q' E Sp|sh s cmd q' E Sp|sh s cmd q' E Sp|sh s E|sh s E Es|sh s Ew|
    sh s k Ew Es|sh s d q' Ew St Hn|sh s d q' Ew St Hn E|sh s d q' cmd Ew St Hn E|sh s d cmd e' s' Ew Hp|sh s d Ew];
    simpl; try done;
    try (destruct (push_step_worker _ _ Sp) as (_ & _ & Hpre); split; [by etrans|done]);
    try (destruct (pop_step_frame clock _ _ St) as (-> & _); done).
  split; [done|]. intros k [= <-]. by apply prefix_length.
Qed.

Lemma step_stop l st st' i sh sh' :
  step clock st st' → shards_ st !! i = Some sh → shards_ st' !! i = Some sh' →
  pushed_first l sh → pushed_first l sh'.
Proof.
  intros St Hi Hi' Hl. destruct (step_at _ _ _ _ _ St Hi Hi') as [[->|(a & q' & Sp & ->)]|(s & back & ran & s' & Ss)].
  - done.
  - destruct (push_step_worker _ _ Sp) as (_ & _ & Hpre). destruct Hl. split; simpl; [by etrans|done].
  - by eapply shard_step_stop.
Qed.

(** ** The worker gets nearer *)

(** The worker sees the pushes up to [P] when it loads [tail_]. *)
Definition sees (P : nat) (sh sh' : Shard) : Prop :=
  ∀ hd, pop_pc (queue sh) = C_head hd → pop_pc (queue sh') ≠ C_head hd → P ≤ c_view (queue sh').

Definition nearer (P : nat) (sh sh' : Shard) : Prop :=
  same_worker sh sh' ∨ steps_left P sh' < steps_left P sh.

Lemma same_worker_left P sh sh' : same_worker sh sh' → steps_left P sh' = steps_left P sh.
Proof. intros [[= Ew Ep] Eq]. unfold steps_left, ran_count, next_in. by rewrite Ew, Ep, Eq. Qed.

Lemma pop_step_got (q q' : Ring (T:=Command)) cmd :
  pop_step kQueueLog q q' → popped q' = popped q ++ [cmd] → ∃ hd, pop_pc q = C_store hd cmd.
Proof.
  intros [] E; simpl in *; try (apply (f_equal length) in E; rewrite length_app in E; simpl in E; lia).
  apply app_inj_tail in E as [_ ->]. eauto.
Qed.

Lemma pop_step_lost (q q' : Ring (T:=Command)) :
  pop_step kQueueLog q q' → pop_pc q' = C_idle → popped q' = popped q → ∃ hd, pop_pc q = C_head hd.
Proof.
  intros [] E Ep; simpl in *; try done; eauto.
  apply (f_equal length) in Ep. rewrite length_app in Ep. simpl in Ep. lia.
Qed.

Lemma pop_inside_nearer (q q' : Ring (T:=Command)) sh d P :
  pop_step kQueueLog q q' → pop_pc q' ≠ C_idle → worker sh = W_pop d → queue sh = q →
  steps_left P (with_queue q' sh) < steps_left P sh.
Proof.
  intros St Hn Ew Eq. unfold steps_left, ran_count, next_in. simpl. rewrite Ew, Eq.
  destruct St; simpl in *; try done; lia.
Qed.

Lemma shard_step_nearer n i P sh s back ran sh' s' done :
  shard_ok n i sh done → shard_step clock sh s back ran sh' s' → ran_count sh < P → sees P sh sh' →
  nearer P sh sh'.
Proof.
  intros Hok St HP Hv. unfold nearer, same_worker, worker_at.
  pose proof (so_work _ _ _ _ Hok) as Hidle. pose proof (so_ring _ _ _ _ Hok) as Hr. pose proof (so_popped _ _ _ _ Hok) as Hpo.
  destruct St as [sh s cmd q' E Sp|sh s cmd q' E Sp|sh s cmd q' E Sp|sh s E|sh s E Es|sh s Ew|
    sh s k Ew Es|sh s d q' Ew St Hn|sh s d q' Ew St Hn E|sh s d q' cmd Ew St Hn E|sh s d cmd e' s' Ew Hp|sh s d Ew];
    try (left; destruct (push_step_worker _ _ Sp) as (E1 & E2 & _); simpl; by rewrite E1, E2);
    try (left; done); right.
  - rewrite Ew in Hidle. unfold steps_left, ran_count, next_in. simpl. rewrite Ew, Hidle by done. simpl. lia.
  - rewrite Ew in Hidle. unfold steps_left, ran_count, next_in. simpl. rewrite Ew, Hidle by done. simpl. lia.
  - by eapply pop_inside_nearer.
  - exfalso. destruct (pop_step_lost _ _ St Hn E) as [hd Eh]. specialize (Hv hd Eh). simpl in Hv. rewrite Hn in Hv.
    specialize (Hv ltac:(done)). rewrite (pop_empty_view _ _ Hr St Hn E), E in Hv.
    unfold ran_count in HP. rewrite Ew in HP. simpl in HP. lia.
  - destruct (pop_step_got _ _ _ St E) as [hd Eh]. unfold steps_left, ran_count, next_in. simpl.
    rewrite Ew, E, Eh, length_app. simpl. lia.
  - rewrite Ew in Hpo. unfold steps_left, ran_count, next_in in *. simpl. rewrite Ew, Hpo, length_app in *.
    simpl in *. lia.
  - rewrite Ew in Hidle. unfold steps_left, ran_count, next_in. simpl. rewrite Ew, Hidle by done. destruct d; simpl; lia.
Qed.

(** ** Towards the end of the worker's loop *)

(** The steps of its own to the head of the main loop. *)
Definition to_head (sh : Shard) : nat :=
  match worker sh with
  | W_pop _ =>
      match pop_pc (queue sh) with C_idle => 7 | C_called => 6 | C_head _ => 5 | C_read _ => 4 | C_store _ _ => 3 end
  | W_run _ _ => 2
  | W_done _ => 1
  | _ => 0
  end.

(** Steps until the worker exits, when it sees the flag and [P] commands are all
    there are. *)
Definition exit_left (P : nat) (sh : Shard) : nat :=
  match worker sh with
  | W_exit => 0
  | w => if draining w then steps_left P sh else 9 * P + 20 + to_head sh
  end.

Lemma same_worker_exit P sh sh' : same_worker sh sh' → exit_left P sh' = exit_left P sh.
Proof.
  intros Hs. pose proof (same_worker_left P _ _ Hs) as E. destruct Hs as [[= Ew Ep] Eq].
  unfold exit_left, to_head. by rewrite Ew, Ep, E.
Qed.

Lemma pop_inside_head (q q' : Ring (T:=Command)) sh :
  pop_step kQueueLog q q' → pop_pc q' ≠ C_idle → worker sh = W_pop false → queue sh = q →
  to_head (with_queue q' sh) < to_head sh.
Proof.
  intros St Hn Ew Eq. unfold to_head. simpl. rewrite Ew, Eq. destruct St; simpl in *; try done; lia.
Qed.

Lemma shard_step_exits n i sh s back ran sh' s' done :
  shard_ok n i sh done → producer sh = A_idle → shard_step clock sh s back ran sh' s' →
  (worker sh = W_head → worker sh' ≠ W_head → worker sh' = W_pop true) →
  same_worker sh sh' ∨ exit_left (length (pushed (queue sh))) sh' < exit_left (length (pushed (queue sh))) sh.
Proof.
  intros Hok Ea St Hflag. set (P := length (pushed (queue sh))). unfold same_worker, worker_at.
  pose proof (so_work _ _ _ _ Hok) as Hidle. pose proof (so_popped _ _ _ _ Hok) as Hpo.
  pose proof (prefix_length _ _ (ri_fifo _ _ (so_ring _ _ _ _ Hok))) as Hlen. fold P in Hlen.
  destruct St as [sh s cmd q' E Sp|sh s cmd q' E Sp|sh s cmd q' E Sp|sh s E|sh s E Es|sh s Ew|
    sh s k Ew Es|sh s d q' Ew St Hn|sh s d q' Ew St Hn E|sh s d q' cmd Ew St Hn E|sh s d cmd e' s' Ew Hp|sh s d Ew];
    try congruence; try (left; done); right; unfold exit_left; simpl; rewrite Ew.
  - simpl in Hflag. by specialize (Hflag Ew ltac:(done)).
  - rewrite Ew in Hidle. unfold steps_left, next_in, to_head. simpl. rewrite Ew, Hidle by done. simpl. lia.
  - destruct d; simpl; [by eapply pop_inside_nearer|]. pose proof (pop_inside_head _ _ sh St Hn Ew eq_refl). lia.
  - destruct (pop_step_lost _ _ St Hn E) as [hd Eh]. destruct d; simpl.
    + unfold steps_left, next_in. rewrite Ew, Eh. lia.
    + unfold to_head. simpl. rewrite Ew, Eh. lia.
  - destruct (pop_step_got _ _ _ St E) as [hd Eh]. destruct d; simpl.
    + unfold steps_left, ran_count, next_in. simpl. rewrite Ew, E, Eh, length_app. simpl. lia.
    + unfold to_head. simpl. rewrite Ew, Eh. lia.
  - destruct d; simpl.
    + rewrite Ew in Hpo. unfold steps_left, ran_count, next_in. simpl. rewrite Ew, Hpo, length_app in *. simpl in *. lia.
    + unfold to_head. simpl. rewrite Ew. lia.
  - rewrite Ew in Hidle. destruct d; simpl.
    + unfold steps_left, ran_count, next_in. simpl. rewrite Ew, Hidle by done. simpl. lia.
    + unfold to_head. simpl. rewrite Ew. lia.
Qed.

(** ** The run *)

Section run.
Context (ρ : nat → Sharded) (Hfair : fair_run ρ).
Context (r : InstrumentRegistry) (n cap : nat).
Context (Hcap : (Z.of_nat cap ≤ 4294967294)%Z) (Hnew : Sharded_new r n cap = inl (ρ 0)).

Lemma run_ok t : ∃ U gs, sharded_ok n (ρ t) U gs.
Proof.
  destruct (Sharded_new_ok r n cap (ρ 0) Hcap Hnew) as (U0 & gs0 & HU0 & Hok0 & Hlog).
  assert (rtc (step clock) (ρ 0) (ρ t)) as Hr.
  { induction t as [|t IH]; [apply rtc_refl|]. destruct (fr_step _ Hfair t) as [St| ->]; [by eapply rtc_r|done]. }
  destruct (sharded_reachable clock n U0 gs0 _ _ Hok0 Hlog Hr) as (U & gs & Hok & _). eauto.
Qed.

Lemma run_shards t : length (shards_ (ρ t)) = n.
Proof. destruct (run_ok t) as (U & gs & Hok). apply (sg_len _ _ _ _ Hok). Qed.

Lemma run_shard t i : i < n → ∃ sh, shards_ (ρ t) !! i = Some sh ∧ shard_ok n i sh (of_shard n i (log (ρ t))).
Proof.
  intros Hi. rewrite <- (run_shards t) in Hi. apply lookup_lt_is_Some_2 in Hi as [sh Hsh]. exists sh. split; [done|].
  destruct (run_ok t) as (U & gs & Hok). by apply (sg_shards _ _ _ _ Hok).
Qed.

Lemma run_stop l t u i sh sh' :
  t ≤ u → shards_ (ρ t) !! i = Some sh → shards_ (ρ u) !! i = Some sh' →
  pushed_first l sh → pushed_first l sh'.
Proof.
  intros Htu Hi Hi' H. revert sh' Hi'. induction Htu as [|u Htu IH]; intros sh' Hi'; [congruence|].
  destruct (run_shard u i) as (shu & Hu & _); [rewrite <- (run_shards t); by apply lookup_lt_Some in Hi|].
  destruct (fr_step _ Hfair u) as [St|E]; [|apply IH; congruence]. by eapply step_stop; eauto.
Qed.

(** What the worker's own steps lead to: [G] holds at last if, until it does, each
    of them makes [mu] smaller and nobody else's step changes it. *)
Section leads_to.
Context (T i : nat) (mu : Shard → nat) (G : Shard → Prop) `{!∀ sh, Decision (G sh)}.
Context (Hi : i < n) (Hsame : ∀ sh sh', same_worker sh sh' → mu sh' = mu sh).
Context (Hexit : ∀ u sh, T ≤ u → shards_ (ρ u) !! i = Some sh → worker sh = W_exit → G sh).
Context (Hless : ∀ u sh sh', T ≤ u → shards_ (ρ u) !! i = Some sh → shards_ (ρ (S u)) !! i = Some sh' →
  ¬ G sh → same_worker sh sh' ∨ mu sh' < mu sh).

(** For [d] steps, or until [G] holds. *)
Lemma run_wait u d sh :
  T ≤ u → shards_ (ρ u) !! i = Some sh → ¬ G sh →
  ∃ v sh', u ≤ v ≤ u + d ∧ shards_ (ρ v) !! i = Some sh' ∧
    (G sh' ∨ v = u + d ∧ (mu sh' < mu sh ∨ same_worker sh sh')).
Proof.
  intros HT Hsh HG. induction d as [|d IH].
  - exists u, sh. rewrite Nat.add_0_r. split_and!; try done; try lia. right. split; [done|]. by right.
  - destruct IH as (v & sh' & Hv & Hsh' & [Hdone|[-> Hleft]]).
    { exists v, sh'. split_and!; [lia|lia|done|]. by left. }
    destruct (decide (G sh')) as [|HG'].
    { exists (u + d), sh'. split_and!; [lia|lia|done|]. by left. }
    destruct (run_shard (S (u + d)) i Hi) as (sh2 & Hsh2 & _).
    exists (S (u + d)), sh2. rewrite Nat.add_succ_r. split_and!; [lia|lia|done|]. right. split; [done|].
    destruct (Hless (u + d) sh' sh2) as [Hs|Hl]; [lia|done|done|done| |].
    + pose proof (Hsame _ _ Hs) as E. destruct Hleft as [?|[E1 E2]]; [left; lia|]. right.
      destruct Hs as [F1 F2]. split; congruence.
    + left. destruct Hleft as [?|Hs']; [lia|]. pose proof (Hsame _ _ Hs'). lia.
Qed.

Lemma leads_to u sh :
  T ≤ u → shards_ (ρ u) !! i = Some sh → ∃ v sh', u ≤ v ∧ shards_ (ρ v) !! i = Some sh' ∧ G sh'.
Proof.
  remember (mu sh) as m eqn:Hm. revert u sh Hm. induction m as [m IH] using lt_wf_ind. intros u sh -> HT Hsh.
  destruct (decide (G sh)) as [|HG]; [by exists u, sh|].
  assert (∀ v sh', u ≤ v → shards_ (ρ v) !! i = Some sh' → mu sh' < mu sh →
            ∃ v' sh'', u ≤ v' ∧ shards_ (ρ v') !! i = Some sh'' ∧ G sh'') as Hnext.
  { intros v sh' Hv Hsh' Hlt. destruct (IH _ Hlt v sh' eq_refl) as (v' & sh'' & Hv' & ? & ?); [lia|done|].
    exists v', sh''. split_and!; [lia|done|done]. }
  destruct (fr_goes_on _ Hfair u i) as (w & shw & shw' & Huw & Hshw & Hshw' & Hmove); [by rewrite run_shards|].
  destruct (run_wait u (w - u) sh) as (v & sh' & Hv & Hsh' & [Hdone|[-> Hleft]]); try done.
  { exists v, sh'. split_and!; [lia|done|done]. }
  replace (u + (w - u)) with w in * by lia. assert (sh' = shw) as -> by congruence.
  destruct Hleft as [Hlt|Hs]; [by apply (Hnext w shw)|].
  destruct (decide (G shw)) as [|HGw]; [by exists w, shw|].
  destruct Hmove as [Hex|Hmove]; [exfalso; apply HGw; by apply (Hexit w); [lia|..]|].
  destruct (Hless w shw shw') as [[Hs' _]|Hlt]; [lia|done|done|done|done|].
  apply (Hnext (S w) shw'); [lia|done|]. pose proof (Hsame _ _ Hs). lia.
Qed.
End leads_to.

(** From [T] on, the worker sees the pushes up to [P] whenever it looks. *)
Definition seen_from (T P i : nat) : Prop := ∀ u sh sh', T ≤ u →
  shards_ (ρ u) !! i = Some sh → shards_ (ρ (S u)) !! i = Some sh' → sees P sh sh'.

(** A step of the run: of another thread, or of this shard. *)
Lemma run_step u i sh sh' :
  shards_ (ρ u) !! i = Some sh → shards_ (ρ (S u)) !! i = Some sh' →
  same_worker sh sh' ∨ ∃ s back ran s', shard_step clock sh s back ran sh' s'.
Proof.
  intros Hsh Hsh'. destruct (fr_step _ Hfair u) as [St|Eq]; [|left; rewrite Eq in Hsh'; by assert (sh' = sh) as -> by congruence].
  destruct (step_at _ _ _ _ _ St Hsh Hsh') as [[->|(a & q' & Sp & ->)]|?]; [by left| |by right].
  left. destruct (push_step_worker _ _ Sp) as (E1 & E2 & _). unfold same_worker, worker_at. simpl. by rewrite E1, E2.
Qed.

Lemma run_nearer T P i u sh sh' :
  seen_from T P i → T ≤ u → i < n → shards_ (ρ u) !! i = Some sh → shards_ (ρ (S u)) !! i = Some sh' →
  ran_count sh < P → nearer P sh sh'.
Proof.
  intros Hs HT Hi Hsh Hsh' HP. destruct (run_shard u i Hi) as (sh0 & E & Hok). assert (sh0 = sh) as -> by congruence.
  destruct (run_step u i sh sh' Hsh Hsh') as [?|(s & back & ran & s' & Ss)]; [by left|].
  eapply shard_step_nearer; [done|done|done|]. by eapply Hs.
Qed.

Lemma run_reaches T P i u sh : i < n → seen_from T P i →
  (∀ u sh, T ≤ u → shards_ (ρ u) !! i = Some sh → worker sh = W_exit → P ≤ ran_count sh) →
  T ≤ u → shards_ (ρ u) !! i = Some sh →
  ∃ v sh', u ≤ v ∧ shards_ (ρ v) !! i = Some sh' ∧ P ≤ ran_count sh'.
Proof.
  intros Hi Hs Hex. apply (leads_to T i (steps_left P) (λ sh, P ≤ ran_count sh)); [done|apply same_worker_left|done|].
  intros v a b HT Ha Hb Hn. eapply run_nearer; [done|done|done|done|done|lia].
Qed.
(** Everything pushed before the flag was set is run. *)
Lemma run_commands t i sh :
  shards_ (ρ t) !! i = Some sh → stop sh = None →
  ∃ u, t ≤ u ∧ pushed (queue sh) `prefix_of` of_shard n i (log (ρ u)).
Proof.
  intros Hsh Hstop. set (P := length (pushed (queue sh))).
  assert (i < n) as Hi by (rewrite <- (run_shards t); by apply lookup_lt_Some in Hsh).
  destruct (fr_visible _ Hfair t i sh Hsh) as [t' Hv]. set (T := t `max` t').
  assert (seen_from T P i) as Hs by (intros u a b Hu Ha Hb hd E1 E2; eapply (Hv u a b hd); [lia|done..]).
  assert (∀ u shu, t ≤ u → shards_ (ρ u) !! i = Some shu → shard_ok n i shu (of_shard n i (log (ρ u))) ∧
            ran_count shu = length (of_shard n i (log (ρ u))) ∧ pushed_first (pushed (queue sh)) shu) as Hat.
  { intros u shu Hu Hshu. destruct (run_shard u i Hi) as (sh0 & E & Hok).
    assert (sh0 = shu) as -> by congruence. split_and!; [done|unfold ran_count; rewrite (so_popped _ _ _ _ Hok), length_app; lia|].
    eapply (run_stop _ t u i sh); [done..|]. split; [done|]. intros k Hk. congruence. }
  destruct (run_shard T i Hi) as (shT & HshT & _).
  destruct (run_reaches T P i T shT Hi Hs) as (v & sh' & Hv' & Hsh' & Hdone); [|done..|].
  { intros u shu Hu Hshu Hexit. destruct (Hat u shu) as (Hok & Hran & [_ Hst]); [lia|done|].
    destruct (so_exit _ _ _ _ Hok Hexit) as (k & Hk & Hle). specialize (Hst k Hk).
    unfold ran_count. rewrite Hexit. simpl. lia. }
  exists v. split; [lia|]. destruct (Hat v sh') as (Hok & Hran & [Hpre _]); [lia|done|].
  apply (prefix_shorter _ _ (pushed (queue sh'))); [done| |by rewrite <- Hran].
  etrans; [|apply (ri_fifo _ _ (so_ring _ _ _ _ Hok))]. rewrite (so_popped _ _ _ _ Hok). by apply prefix_app_r.
Qed.

(** *** When no client sends any more *)

Lemma run_fed t : all_fed (ρ t).
Proof.
  induction t as [|t IH]; [by eapply new_fed|]. destruct (fr_step _ Hfair t) as [St| ->]; [by eapply step_fed|done].
Qed.

Lemma step_log st st' : step clock st st' → log st `prefix_of` log st'.
Proof. intros []; simpl; try done. by apply prefix_app_r. Qed.

Lemma run_log t u i : t ≤ u → of_shard n i (log (ρ t)) `prefix_of` of_shard n i (log (ρ u)).
Proof.
  induction 1 as [|u _ IH]; [done|]. destruct (fr_step _ Hfair u) as [St| ->]; [|done]. etrans; [done|].
  destruct (step_log _ _ St) as [l ->]. unfold of_shard. rewrite filter_app. by apply prefix_app_r.
Qed.

Section quiescent.
Context (t : nat) (Hquiet : ∀ u, t ≤ u → unsent (ρ u)).

Lemma run_kept u v : t ≤ u → u ≤ v → all_kept (ρ u) (ρ v).
Proof.
  intros Htu. induction 1 as [|v Huv IH]; [by apply all_kept_refl, Hquiet|]. eapply all_kept_trans; [done|].
  destruct (fr_step _ Hfair v) as [St| ->]; [|apply all_kept_refl, Hquiet; lia].
  apply (quiet_kept clock); [|apply Hquiet; lia]. split; [done|]. intros i sh sh' _ Hsh' _.
  by apply (unsent_at (ρ (S v)) i); [apply Hquiet; lia|].
Qed.

Lemma run_pushed u v i sh sh' :
  t ≤ u → u ≤ v → shards_ (ρ u) !! i = Some sh → shards_ (ρ v) !! i = Some sh' →
  pushed (queue sh') = pushed (queue sh).
Proof. intros Htu Huv Hsh Hsh'. apply (sk_pushed _ _ (proj2 (run_kept u v Htu Huv) i sh sh' Hsh Hsh')). Qed.

#[local] Instance exited_dec sh : Decision (worker sh = W_exit).
Proof. destruct (worker sh); by (left; done) || (right; done). Defined.

(** A worker that has been told to stop exits. *)
Lemma run_exits i sh k :
  shards_ (ρ t) !! i = Some sh → stop sh = Some k →
  ∃ u shu, t ≤ u ∧ shards_ (ρ u) !! i = Some shu ∧ worker shu = W_exit.
Proof.
  intros Hsh Hstop. assert (i < n) as Hi by (rewrite <- (run_shards t); by apply lookup_lt_Some in Hsh).
  destruct (fr_flag _ Hfair t i sh k Hsh Hstop) as [t' Hflag]. set (T := t `max` t').
  destruct (run_shard T i Hi) as (shT & HshT & _).
  destruct (leads_to T i (exit_left (length (pushed (queue sh)))) (λ sh, worker sh = W_exit)) with (u := T) (sh := shT)
    as (v & sh' & Hv & Hsh' & HG); try done; [apply same_worker_exit| |exists v, sh'; split_and!; [lia|done|done]].
  intros u a b HT Ha Hb _. destruct (run_step u i a b Ha Hb) as [?|(s & back & ran & s' & St)]; [by left|].
  destruct (run_shard u i Hi) as (a' & Ha' & Hok). assert (a' = a) as -> by congruence.
  rewrite <- (run_pushed t u i sh a) by (done || lia).
  eapply shard_step_exits; [done|by apply (unsent_at (ρ u) i); [apply Hquiet; lia|]|done|].
  by apply (Hflag u a b); [lia|..].
Qed.

(** What is left when everything pushed has been run. *)
Definition uncounted (sh : Shard) : nat := match worker sh with W_done _ => 1 | _ => 0 end.

Lemma done_step sh s back ran sh' s' d :
  shard_step clock sh s back ran sh' s' → worker sh = W_done d → same_worker sh sh' ∨ uncounted sh' < uncounted sh.
Proof.
  intros St Ew. unfold same_worker, worker_at, uncounted. destruct St as [sh s cmd q' E Sp|sh s cmd q' E Sp|sh s cmd q' E Sp|
    sh s E|sh s E Es|sh s Ew'|sh s k Ew' Es|sh s d' q' Ew' St Hn|sh s d' q' Ew' St Hn E|sh s d' q' cmd Ew' St Hn E|
    sh s d' cmd e' s' Ew' Hp|sh s d' Ew']; try congruence; try (left; done);
    try (left; destruct (push_step_worker _ _ Sp) as (E1 & E2 & _); simpl; by rewrite E1, E2).
  right. rewrite Ew'. simpl. destruct d'; lia.
Qed.

Lemma ran_settled i sh done :
  shard_ok n i sh done → pushed (queue sh) `prefix_of` done →
  in_hand (worker sh) = [] ∧ (uncounted sh = 0 → settled sh).
Proof.
  intros Hok Hpre%prefix_length. pose proof (prefix_length _ _ (ri_fifo _ _ (so_ring _ _ _ _ Hok))) as Hlen.
  unfold settled, counted, uncounted. rewrite (so_popped _ _ _ _ Hok), length_app in *.
  destruct (worker sh); simpl in *; split; (done || lia).
Qed.

Lemma run_settles i sh :
  shards_ (ρ t) !! i = Some sh → (∀ u shu, t ≤ u → shards_ (ρ u) !! i = Some shu → stop shu = None) →
  ∃ u, t ≤ u ∧ ∀ v shv, u ≤ v → shards_ (ρ v) !! i = Some shv →
    submitted shv = processed shv ∧ of_shard n i (log (ρ v)) = pushed (queue sh).
Proof.
  intros Hsh Hstop. assert (i < n) as Hi by (rewrite <- (run_shards t); by apply lookup_lt_Some in Hsh).
  destruct (run_commands t i sh Hsh) as (u & Htu & Hpre); [by apply (Hstop t)|].
  assert (∀ v shv, u ≤ v → shards_ (ρ v) !! i = Some shv → shard_ok n i shv (of_shard n i (log (ρ v))) ∧
            pushed (queue shv) `prefix_of` of_shard n i (log (ρ v))) as Hat.
  { intros v shv Huv Hv. destruct (run_shard v i Hi) as (sh' & Hv' & Hok). assert (sh' = shv) as -> by congruence.
    split; [done|]. rewrite (run_pushed t v i sh shv) by (done || lia). etrans; [done|by apply run_log]. }
  destruct (run_shard u i Hi) as (shu & Hshu & _).
  destruct (leads_to u i uncounted settled) with (u := u) (sh := shu) as (w & shw & Huw & Hshw & HG); try done.
  - intros a b [[= Ew _] _]. unfold uncounted. by rewrite Ew.
  - intros v a Huv Ha Ew. destruct (Hat v a Huv Ha) as [Hok _]. destruct (so_exit _ _ _ _ Hok Ew) as (k & Hk & _).
    rewrite (Hstop v a) in Hk; [done|lia|done].
  - intros v a b Huv Ha Hb Hn. destruct (run_step v i a b Ha Hb) as [?|(s & back & ran & s' & St)]; [by left|].
    destruct (Hat v a Huv Ha) as [Hok Hp]. destruct (ran_settled _ _ _ Hok Hp) as [Hh Hu].
    destruct (worker a) as [|d|d cmd|d|] eqn:Ew; try (exfalso; apply Hn, Hu; unfold uncounted; by rewrite Ew).
    by eapply done_step.
  - exists w. split; [lia|]. intros v shv Hwv Hv. destruct (Hat v shv) as [Hok Hp]; [lia|done|].
    assert (settled shv) as Hs.
    { eapply kept_settled; [|done|exact HG]. by eapply (proj2 (run_kept w v ltac:(lia) Hwv) i). }
    destruct (settled_facts _ _ _ _ Hok (run_fed v i shv Hv) Hs) as (E & _).
    rewrite E, (run_pushed t v i sh shv) by (done || lia). split; [|done].
    rewrite (processed_counted _ _ _ _ Hok (run_fed v i shv Hv)), (so_sub _ _ _ _ Hok), Hs.
    rewrite (unsent_at (ρ v) i shv) by (done || apply Hquiet; lia). by rewrite Z.sub_0_r.
Qed.
End quiescent.
End run.

(** C39: every command is run.  Under a fair schedule, whatever was pushed to a
    shard before its stop flag was set is, sooner or later, run by the shard's
    engine, in the order of the pushes, even if the flag is set meanwhile and
    however many commands the clients go on pushing. *)
Theorem fair_run_commands ρ r n cap t i sh :
  (Z.of_nat cap ≤ 4294967294)%Z → Sharded_new r n cap = inl (ρ 0) → fair_run ρ →
  shards_ (ρ t) !! i = Some sh → stop sh = None →
  ∃ u, t ≤ u ∧ pushed (queue sh) `prefix_of` of_shard n i (log (ρ u)).
Proof. intros Hcap Hnew Hfair. by eapply run_commands. Qed.

(** C40: the sharded engine comes to rest.  Under a fair schedule, when no client
    sends any more, every worker whose stop flag is set exits, so that the
    destructor's joins return; and if the flag of a shard is never set, its
    counters are equal from some time on and everything that was pushed has been
    run, so that [wait_idle] can return. *)
Theorem fair_run_rests ρ r n cap t i sh :
  (Z.of_nat cap ≤ 4294967294)%Z → Sharded_new r n cap = inl (ρ 0) → fair_run ρ →
  (∀ u, t ≤ u → unsent (ρ u)) → shards_ (ρ t) !! i = Some sh →
  (is_Some (stop sh) → ∃ u shu, t ≤ u ∧ shards_ (ρ u) !! i = Some shu ∧ worker shu = W_exit) ∧
  ((∀ u shu, t ≤ u → shards_ (ρ u) !! i = Some shu → stop shu = None) →
   ∃ u, t ≤ u ∧ ∀ v shv, u ≤ v → shards_ (ρ v) !! i = Some shv →
     submitted shv = processed shv ∧ of_shard n i (log (ρ v)) = pushed (queue sh)).
Proof.
  intros Hcap Hnew Hfair Hq Hsh. split.
  - intros [k Hk]. by eapply run_exits.
  - by eapply run_settles.
Qed.
End fair.

(** *** Witness: one shard, one cancel, and a worker that polls for ever *)

Definition poll_start : Sharded :=
  match Sharded_new ex_registry 1 4 with inl st => st | inr _ => mkSharded [] (mkSys (Pool_new 0) 0) [] [] end.

Definition poll_engine : Engine :=
  match shards_ poll_start with sh :: _ => sengine sh | [] => mkEngine ex_registry ∅ ∅ end.

Definition poll_cancel : Command := cancel_command 7 1.

Definition poll_buffer (b : bool) : list (option Command) :=
  let b0 := replicate (Z.to_nat (Capacity kQueueLog)) None in if b then <[0 := Some poll_cancel]> b0 else b0.

(** The states of the run: where the producer and the worker are, how much has
    been pushed, popped, run and counted. *)
Definition poll_state (a : ProducerPc) (p : PushPc) (written stored : bool) (sub : Z)
    (w : WorkerPc) (c : PopPc) (cv : nat) (got ran : bool) (proc : Z) : Sharded :=
  mkSharded
    [mkShard (mkRing (if got then [0; 1] else [0])%Z (if stored then [0; 1] else [0])%Z (poll_buffer written) 0 cv p c
                (if stored then [poll_cancel] else []) (if got then [poll_cancel] else []))
       poll_engine sub proc None a w]
    (sh_sys poll_start) [] (if ran then [poll_cancel] else []).

Definition poll_at (k : nat) : Sharded :=
  match k with
  | 0 => poll_state A_idle P_idle false false 0 W_head C_idle 0 false false 0
  | 1 => poll_state (A_push poll_cancel) (P_called poll_cancel) false false 0 W_head C_idle 0 false false 0
  | 2 => poll_state (A_push poll_cancel) (P_tail poll_cancel 0) false false 0 W_head C_idle 0 false false 0
  | 3 => poll_state (A_push poll_cancel) (P_write poll_cancel 0 1) false false 0 W_head C_idle 0 false false 0
  | 4 => poll_state (A_push poll_cancel) (P_store poll_cancel 1) true false 0 W_head C_idle 0 false false 0
  | 5 => poll_state A_count P_idle true true 0 W_head C_idle 0 false false 0
  | 6 => poll_state A_idle P_idle true true 1 W_head C_idle 0 false false 0
  | 7 => poll_state A_idle P_idle true true 1 (W_pop false) C_idle 0 false false 0
  | 8 => poll_state A_idle P_idle true true 1 (W_pop false) C_called 0 false false 0
  | 9 => poll_state A_idle P_idle true true 1 (W_pop false) (C_head 0) 0 false false 0
  | 10 => poll_state A_idle P_idle true true 1 (W_pop false) (C_read 0) 1 false false 0
  | 11 => poll_state A_idle P_idle true true 1 (W_pop false) (C_store 0 poll_cancel) 1 false false 0
  | 12 => poll_state A_idle P_idle true true 1 (W_run false poll_cancel) C_idle 1 true false 0
  | 13 => poll_state A_idle P_idle true true 1 (W_done false) C_idle 1 true true 0
  | 14 => poll_state A_idle P_idle true true 1 W_head C_idle 1 true true 1
  | 15 => poll_state A_idle P_idle true true 1 (W_pop false) C_idle 1 true true 1
  | 16 => poll_state A_idle P_idle true true 1 (W_pop false) C_called 1 true true 1
  | _ => poll_state A_idle P_idle true true 1 (W_pop false) (C_head 1) 1 true true 1
  end.

Definition poll_next (k : nat) : nat := if decide (17 ≤ k) then 14 else S k.
Definition poll_index (t : nat) : nat := Nat.iter t poll_next 0.
Definition poll_run (t : nat) : Sharded := poll_at (poll_index t).

Lemma poll_index_bound t : poll_index t < 18.
Proof. induction t as [|t IH]; simpl; [lia|]. unfold poll_next at 1. case_decide; unfold poll_index in *; lia. Qed.

Lemma one_shard sh s l ran sh' s' :
  shard_step demo_clock sh s [] ran sh' s' → step demo_clock (mkSharded [sh] s [] l) (mkSharded [sh'] s' [] (l ++ ran)).
Proof. intros St. by apply (st_shard demo_clock [sh] s [] l 0 sh sh' [] ran s'). Qed.

Lemma one_cancel sh s l q' id :
  producer sh = A_idle → push_step kQueueLog (queue sh) q' → push_pc q' = P_called (cancel_command 7 id) →
  step demo_clock (mkSharded [sh] s [] l)
    (mkSharded [with_producer (A_push (cancel_command 7 id)) (with_queue q' sh)] s [] l).
Proof. intros Ea St Hc. by apply (st_cancel demo_clock [sh] s [] l 7 id sh q'). Qed.

Ltac poll_0 rule := refine (one_shard _ _ _ _ _ _ _); eapply rule; [reflexivity|..].

Lemma poll_step k : k < 18 → step demo_clock (poll_at k) (poll_at (poll_next k)).
Proof.
  intros Hk. destruct k as [|[|[|[|[|[|[|[|[|[|[|[|[|[|[|[|[|[|k]]]]]]]]]]]]]]]]]]; [..|lia];
    match goal with |- step _ _ (poll_at ?x) =>
    let y := eval vm_compute in x in change x with y end; cbn [poll_at]; unfold poll_state; cbv iota.
  - refine (one_cancel _ _ _ _ 1 _ _ _); [reflexivity|apply push_call|reflexivity].
  - poll_0 sp_push; [by apply push_load_tail|done].
  - poll_0 sp_push; [refine (push_room kQueueLog _ _ _ 0 _ _ _ _ poll_cancel 0 0 0 _ _ _); [lia|reflexivity|by vm_compute]|done].
  - poll_0 sp_push; [apply push_write|done].
  - poll_0 sp_pushed; [exact (push_store kQueueLog [0%Z] [0%Z] _ 0 0 C_idle [] [] poll_cancel 1)|done|done].
  - poll_0 sp_count.
  - poll_0 sw_loop.
  - poll_0 sw_pop; [apply pop_call|done].
  - poll_0 sw_pop; [by apply pop_load_head|done].
  - poll_0 sw_pop; [eapply (pop_some _ _ _ _ _ _ _ _ _ _ 1); [lia|reflexivity|done]|done].
  - poll_0 sw_pop; [by apply pop_read|done].
  - poll_0 sw_got; [exact (pop_store kQueueLog [0%Z] [0; 1]%Z _ 0 1 P_idle [poll_cancel] [] 0 poll_cancel)|done|done].
  - poll_0 sw_run. by vm_compute.
  - refine (one_shard _ _ _ [] _ _ _). by refine (sw_count demo_clock _ _ false _).
  - poll_0 sw_loop.
  - poll_0 sw_pop; [apply pop_call|done].
  - poll_0 sw_pop; [by apply pop_load_head|done].
  - refine (one_shard _ _ _ [] _ _ _). refine (sw_empty demo_clock _ _ false _ _ _ _ _); [reflexivity|eapply (pop_empty _ _ _ _ _ _ _ _ _ _ 1); [lia|reflexivity|done]|done|done].
Qed.

Lemma poll_index_add t d : poll_index (d + t) = Nat.iter d poll_next (poll_index t).
Proof. unfold poll_index. apply Nat.iter_add. Qed.

(** The worker's first step is the seventh of the run; from then on every step
    is its own. *)
Lemma poll_moves k : 6 ≤ k < 18 → ∃ sh sh', shards_ (poll_at k) = [sh] ∧ shards_ (poll_at (poll_next k)) = [sh'] ∧
  worker_at sh' ≠ worker_at sh.
Proof.
  intros Hk. do 6 (destruct k as [|k]; [lia|]).
  destruct k as [|[|[|[|[|[|[|[|[|[|[|[|k]]]]]]]]]]]]; [..|lia]; by eexists _, _.
Qed.

Lemma poll_loads k sh sh' hd : k < 18 →
  shards_ (poll_at k) !! 0 = Some sh → shards_ (poll_at (poll_next k)) !! 0 = Some sh' →
  pop_pc (queue sh) = C_head hd → c_view (queue sh') = 1.
Proof.
  intros Hk. destruct k as [|[|[|[|[|[|[|[|[|[|[|[|[|[|[|[|[|[|k]]]]]]]]]]]]]]]]]]; [..|lia];
    intros [= <-] [= <-]; simpl; done.
Qed.

Lemma poll_pushes k sh : shards_ (poll_at k) !! 0 = Some sh → length (pushed (queue sh)) ≤ 1.
Proof.
  destruct k as [|[|[|[|[|[|[|[|[|[|[|[|[|[|[|[|[|k]]]]]]]]]]]]]]]]]; intros [= <-]; simpl; lia.
Qed.

Lemma poll_stop k sh : shards_ (poll_at k) !! 0 = Some sh → stop sh = None.
Proof. by destruct k as [|[|[|[|[|[|[|[|[|[|[|[|[|[|[|[|[|k]]]]]]]]]]]]]]]]]; intros [= <-]. Qed.

Lemma poll_one_shard k i sh : shards_ (poll_at k) !! i = Some sh → i = 0.
Proof. destruct i; [done|]. by do 18 (destruct k as [|k]; [done|]). Qed.

Lemma poll_fair : fair_run demo_clock poll_run.
Proof.
  split.
  - intros t. left. apply (poll_step (poll_index t)), poll_index_bound.
  - intros t i Hi. assert (i = 0) as -> by (simpl in Hi; lia).
    set (d := 6 - poll_index t). assert (6 ≤ poll_index (d + t) < 18) as Hd.
    { rewrite poll_index_add. subst d. pose proof (poll_index_bound t) as Hb.
      destruct (poll_index t) as [|[|[|[|[|[|k]]]]]]; simpl; by (vm_compute; lia) || lia. }
    destruct (poll_moves _ Hd) as (sh & sh' & E & E' & Hm). exists (d + t), sh, sh'. unfold poll_run.
    change (poll_index (S (d + t))) with (poll_next (poll_index (d + t))). rewrite E, E'.
    split_and!; [lia|done|done|by right].
  - intros t i sh Hsh. pose proof (poll_one_shard _ _ _ Hsh) as ->. exists 0. intros u shu shu' hd _ Hu Hu' E _.
    change (shards_ (poll_at (poll_next (poll_index u))) !! 0 = Some shu') in Hu'.
    rewrite (poll_loads _ _ _ _ (poll_index_bound u) Hu Hu' E). by eapply poll_pushes.
  - intros t i sh k Hsh Hs. pose proof (poll_one_shard _ _ _ Hsh) as ->. by rewrite (poll_stop _ _ Hsh) in Hs.
Qed.

Lemma fair_run_commands_witness :
  ∃ u, 5 ≤ u ∧ [poll_cancel] `prefix_of` of_shard 1 0 (log (poll_run u)).
Proof.
  exact (fair_run_commands demo_clock poll_run ex_registry 1 4 5 0 _ ltac:(lia) eq_refl poll_fair eq_refl eq_refl).
Defined.

(** *** Witness: the same worker at rest, and one that is told to stop *)

Lemma poll_idle k sh : 6 ≤ k → shards_ (poll_at k) !! 0 = Some sh → producer sh = A_idle.
Proof.
  intros Hk. do 6 (destruct k as [|k]; [lia|]).
  by destruct k as [|[|[|[|[|[|[|[|[|[|[|k]]]]]]]]]]]; intros [= <-].
Qed.

Lemma poll_unsent u : 6 ≤ u → unsent (poll_run u).
Proof.
  intros Hu. apply Forall_forall. intros sh (i & Hi)%list_elem_of_lookup. pose proof (poll_one_shard _ _ _ Hi) as ->.
  eapply poll_idle; [|exact Hi]. clear Hi. induction Hu as [|u Hu IH]; [done|].
  change (6 ≤ poll_next (poll_index u)). unfold poll_next. case_decide; lia.
Qed.

(** The flag is set before the worker has done anything. *)
Definition stop_at (k : nat) : Sharded :=
  let state st w c :=
    mkSharded [mkShard (mkRing [0%Z] [0%Z] (poll_buffer false) 0 0 P_idle c [] []) poll_engine 0 0 st A_idle w]
      (sh_sys poll_start) [] [] in
  match k with
  | 0 => state None W_head C_idle
  | 1 => state (Some 0) W_head C_idle
  | 2 => state (Some 0) (W_pop true) C_idle
  | 3 => state (Some 0) (W_pop true) C_called
  | 4 => state (Some 0) (W_pop true) (C_head 0)
  | _ => state (Some 0) W_exit C_idle
  end.

Lemma stop_step k : step demo_clock (stop_at k) (stop_at (S k)) ∨ stop_at (S k) = stop_at k.
Proof.
  destruct k as [|[|[|[|[|k]]]]]; [left..|by right]; cbn [stop_at].
  - poll_0 sp_stop. reflexivity.
  - refine (one_shard _ _ _ [] _ _ _). by refine (sw_stopped demo_clock _ _ 0 _ _).
  - poll_0 sw_pop; [apply pop_call|done].
  - poll_0 sw_pop; [by apply pop_load_head|done].
  - refine (one_shard _ _ _ [] _ _ _). refine (sw_empty demo_clock _ _ true _ _ _ _ _);
      [reflexivity|eapply (pop_empty _ _ _ _ _ _ _ _ _ _ 0); [lia|reflexivity|done]|done|done].
Qed.

Lemma stop_shard k : ∃ st w c, shards_ (stop_at k) =
  [mkShard (mkRing [0%Z] [0%Z] (poll_buffer false) 0 0 P_idle c [] []) poll_engine 0 0 st A_idle w].
Proof. destruct k as [|[|[|[|[|k]]]]]; eexists _, _, _; reflexivity. Qed.

Lemma stop_lookup k i sh : shards_ (stop_at k) !! i = Some sh → i = 0 ∧ producer sh = A_idle ∧ pushed (queue sh) = [].
Proof. destruct (stop_shard k) as (st & w & c & ->). destruct i; [|done]. by intros [= <-]. Qed.

Lemma stop_fair : fair_run demo_clock stop_at.
Proof.
  split.
  - apply stop_step.
  - intros t i Hi. assert (i = 0) as -> by (simpl in Hi; lia). exists (1 + t).
    destruct t as [|[|[|[|t]]]]; eexists _, _; (split_and!; [lia|reflexivity|reflexivity|]); by (right; done) || (left; done).
  - intros t i sh (_ & _ & ->)%stop_lookup. exists 0. simpl. lia.
  - intros t i sh k (-> & _) %stop_lookup _. exists 1. intros u a b Hu Ha Hb Ew Hn. destruct u as [|[|[|[|[|u]]]]]; [lia|..];
      simpl in Ha, Hb; injection Ha as <-; injection Hb as <-; done.
Qed.

Lemma fair_run_rests_witness :
  (∃ u shu, 1 ≤ u ∧ shards_ (stop_at u) !! 0 = Some shu ∧ worker shu = W_exit) ∧
  (∃ u, 6 ≤ u ∧ ∀ v shv, u ≤ v → shards_ (poll_run v) !! 0 = Some shv →
     submitted shv = processed shv ∧ of_shard 1 0 (log (poll_run v)) = [poll_cancel]).
Proof.
  split.
  - refine (proj1 (fair_run_rests demo_clock stop_at ex_registry 1 4 1 0 _ _ eq_refl stop_fair _ eq_refl) _); [lia| |by eexists].
    intros u _. apply Forall_forall. intros sh (i & Hi)%list_elem_of_lookup. by apply (stop_lookup u i sh).
  - refine (proj2 (fair_run_rests demo_clock poll_run ex_registry 1 4 6 0 _ _ eq_refl poll_fair _ eq_refl) _); [lia| |].
    + intros u Hu. by apply poll_unsent.
    + intros u shu _ Hshu. by eapply poll_stop.
Defined.
