(* ===== verification/Tcp.v ===== *)
(** * The TCP shim (include/ordbk/gateway/tcp.hpp, src/gateway/tcp.cpp)

    The calls of the operating system are not part of the program.  They are
    the operations of two classes, one for a connected socket and one for
    opening and closing sockets; the classes of their laws say of them what
    POSIX documents and the shim relies on.  The client and the server are
    proved against these classes. *)

From stdpp Require Import strings.
From S2P Require Import Prelude.

Abbreviation socket_t := Z (only parsing).
Definition kInvalidSocket : socket_t := (-1)%Z.

(** ** A connected socket *)

(** [::send] and [::recv]: the returned count, for [recv] the bytes written to
    the front of the caller's buffer, and the state of the connection. *)
Class TcpSocket (Conn : Type) := {
  os_send : list Z → Conn → Z * Conn;
  os_recv : nat → Conn → Z * list Z * Conn }.

(** What has gone out and come in over a connection, and what the calls do to
    it: [send] accepts a prefix of the data or fails; [recv] delivers between 1
    and [size] bytes, or nothing when the peer has closed or on an error. *)
Class TcpLaws (Conn : Type) `{!TcpSocket Conn} := {
  sent : Conn → list Z;
  received : Conn → list Z;
  os_send_law data s n s' :
    os_send data s = (n, s') →
    (n ≤ Z.of_nat (length data))%Z ∧ sent s' = sent s ++ take (Z.to_nat n) data ∧ received s' = received s;
  os_recv_law size s n bytes s' :
    os_recv size s = (n, bytes, s') →
    (n ≤ Z.of_nat size)%Z ∧ length bytes = Z.to_nat n ∧ Forall (in_u 8) bytes ∧
    received s' = received s ++ bytes ∧ sent s' = sent s }.

Section socket.
Context {Conn : Type} `{!TcpSocket Conn}.

Definition recv_some (size : nat) (s : Conn) : Z * list Z * Conn := os_recv size s.

(** The loop of [send_all], one call of [::send] per unit of fuel. *)
Fixpoint send_loop (fuel : nat) (data : list Z) (n_sent : nat) (s : Conn) : res (bool * Conn) :=
  match fuel with
  | 0 => None
  | S fuel' =>
      if decide (n_sent < length data) then
        let (n, s') := os_send (drop n_sent data) s in
        if (n <=? 0)%Z then Some (false, s')
        else send_loop fuel' data (n_sent + Z.to_nat n) s'
      else Some (true, s)
  end.

Definition send_all (data : list Z) (s : Conn) : res (bool * Conn) :=
  send_loop (S (length data)) data 0 s.

Context `{!TcpLaws Conn}.

Lemma send_loop_spec fuel data n_sent s :
  n_sent ≤ length data → length data - n_sent < fuel →
  ∃ ok s' k, send_loop fuel data n_sent s = Some (ok, s') ∧ n_sent ≤ k ≤ length data ∧
    sent s' = sent s ++ take (k - n_sent) (drop n_sent data) ∧ received s' = received s ∧
    (ok = true ↔ k = length data).
Proof.
  revert n_sent s. induction fuel as [|fuel IH]; intros i s Hi Hf; [lia|]. cbn [send_loop].
  destruct (decide (i < length data)) as [Hlt|Hge].
  - destruct (os_send (drop i data) s) as [n s1] eqn:E.
    destruct (os_send_law _ _ _ _ E) as (Hn & Hs & Hr). rewrite length_drop in Hn.
    destruct (Z.leb_spec n 0) as [Hz|Hz].
    + exists false, s1, i. rewrite Hs, Nat.sub_diag, (Z2Nat.nonpos n), take_0 by done.
      split_and!; try done; lia.
    + destruct (IH (i + Z.to_nat n) s1) as (ok & s2 & k & -> & Hk & Hs2 & Hr2 & Hok); [lia..|].
      exists ok, s2, k. split_and!; [done|lia|lia| |congruence|done].
      rewrite Hs2, Hs, <- app_assoc, <- drop_drop. f_equal.
      rewrite take_take_drop. f_equal. lia.
  - exists true, s, i. rewrite Nat.sub_diag, take_0, app_nil_r. split_and!; try done; lia.
Qed.

(** [send_all] ends, whatever counts [::send] returns: it hands a prefix of
    the data to the connection, in order and without a gap or a repetition, and
    answers [true] exactly if that is all of it. *)
Theorem send_all_exact data s :
  ∃ ok s' k, send_all data s = Some (ok, s') ∧ k ≤ length data ∧
    sent s' = sent s ++ take k data ∧ received s' = received s ∧ (ok = true ↔ k = length data).
Proof.
  destruct (send_loop_spec (S (length data)) data 0 s) as (ok & s' & k & E & Hk & Hs & Hr & Hok); [lia..|].
  rewrite Nat.sub_0_r, drop_0 in Hs. exists ok, s', k. split_and!; try done. lia.
Qed.
End socket.

(** ** Opening and closing sockets (the POSIX branches) *)

Definition INADDR_LOOPBACK : Z := 0x7F000001.

Class SocketApi (OS : Type) := {
  os_socket : OS → Z * OS;
  os_setsockopt : socket_t → OS → Z * OS;
  os_bind : socket_t → Z → Z → OS → Z * OS;
  os_listen : socket_t → Z → OS → Z * OS;
  os_accept : socket_t → OS → Z * OS;
  os_inet_pton : string → Z * Z;
  os_connect : socket_t → Z → Z → OS → Z * OS;
  os_close : socket_t → OS → OS }.

(** The descriptors of the process: [socket] and [accept] open a new one or
    return -1, [close] closes one, the other calls open and close nothing. *)
Class SocketLaws (OS : Type) `{!SocketApi OS} := {
  fds : OS → gset Z;
  os_socket_law os n os' : os_socket os = (n, os') →
    (n = kInvalidSocket ∧ fds os' = fds os) ∨ (n ≠ kInvalidSocket ∧ (n ∉ fds os) ∧ fds os' = {[n]} ∪ fds os);
  os_accept_law l os n os' : os_accept l os = (n, os') →
    (n = kInvalidSocket ∧ fds os' = fds os) ∨ (n ≠ kInvalidSocket ∧ (n ∉ fds os) ∧ fds os' = {[n]} ∪ fds os);
  os_setsockopt_law s os : fds (os_setsockopt s os).2 = fds os;
  os_bind_law s a p os : fds (os_bind s a p os).2 = fds os;
  os_listen_law s b os : fds (os_listen s b os).2 = fds os;
  os_connect_law s a p os : fds (os_connect s a p os).2 = fds os;
  os_close_law s os : fds (os_close s os) = fds os ∖ {[s]} }.

(** [std::runtime_error] *)
Inductive SocketError := SocketFailed | BindFailed | ListenFailed | PtonFailed | ConnectFailed | StartupFailed.

(** [init_once] of the Windows branch: what [WSAStartup] returns, and the flag
    [g_wsa_initialised] before and after.  The POSIX one does nothing. *)
Definition init_once (wsa_startup : Z) (initialised : bool) : (unit + SocketError) * bool :=
  if initialised then (inl tt, initialised)
  else if negb (wsa_startup =? 0)%Z then (inr StartupFailed, true) else (inl tt, true).

(** The flag is set before the start-up is tried: after a failure no later call
    tries again or fails. *)
Example ex_startup_failed_once :
  init_once 1 false = (inr StartupFailed, true) ∧ init_once 1 true = (inl tt, true).
Proof. done. Qed.

Section open.
Context {OS : Type} `{!SocketApi OS}.

Definition close_socket (s : socket_t) (os : OS) : OS := os_close s os.

Definition listen_on (port backlog : Z) (os : OS) : (socket_t + SocketError) * OS :=
  let (s, os1) := os_socket os in
  if (s =? kInvalidSocket)%Z then (inr SocketFailed, os1)
  else
    let (_, os2) := os_setsockopt s os1 in
    let (b, os3) := os_bind s INADDR_LOOPBACK port os2 in
    if negb (b =? 0)%Z then (inr BindFailed, close_socket s os3)
    else
      let (l, os4) := os_listen s backlog os3 in
      if negb (l =? 0)%Z then (inr ListenFailed, close_socket s os4) else (inl s, os4).

Definition accept_one (listener : socket_t) (os : OS) : socket_t * OS := os_accept listener os.

Definition connect_to (host : string) (port : Z) (os : OS) : (socket_t + SocketError) * OS :=
  let (s, os1) := os_socket os in
  if (s =? kInvalidSocket)%Z then (inr SocketFailed, os1)
  else
    let (ok, addr) := os_inet_pton host in
    if negb (ok =? 1)%Z then (inr PtonFailed, close_socket s os1)
    else
      let (c, os2) := os_connect s addr port os1 in
      if negb (c =? 0)%Z then (inr ConnectFailed, close_socket s os2) else (inl s, os2).

Context `{!SocketLaws OS}.

(** What a call that opens a socket may do to the process's descriptors. *)
Definition opens (os : OS) (r : (socket_t + SocketError) * OS) : Prop :=
  match r.1 with
  | inl s => s ≠ kInvalidSocket ∧ (s ∉ fds os) ∧ fds r.2 = {[s]} ∪ fds os
  | inr _ => fds r.2 = fds os
  end.

(** Opening a socket does not leak one: if [listen_on] or [connect_to] throws,
    wherever it failed, the process has the descriptors it had; otherwise it
    has exactly one more, the one returned. *)
Theorem open_no_leak port backlog host os :
  opens os (listen_on port backlog os) ∧ opens os (connect_to host port os).
Proof.
  unfold opens, listen_on, connect_to, close_socket.
  destruct (os_socket os) as [s os1] eqn:Es.
  destruct (os_socket_law _ _ _ Es) as [[-> Hf]|(Hs & Hn & Hf)]; [done|].
  rewrite (proj2 (Z.eqb_neq _ _) Hs). split.
  - pose proof (os_setsockopt_law s os1) as H1. destruct (os_setsockopt s os1) as [? os2].
    pose proof (os_bind_law s INADDR_LOOPBACK port os2) as H2.
    destruct (os_bind s INADDR_LOOPBACK port os2) as [b os3].
    pose proof (os_listen_law s backlog os3) as H3. destruct (os_listen s backlog os3) as [l os4].
    simpl in *. destruct (negb _); simpl; [rewrite os_close_law; set_solver|].
    destruct (negb _); simpl; [rewrite os_close_law|split_and!; [done|done|]]; set_solver.
  - destruct (os_inet_pton host) as [ok addr].
    pose proof (os_connect_law s addr port os1) as H1. destruct (os_connect s addr port os1) as [c os2].
    simpl in *. destruct (negb _); simpl; [rewrite os_close_law; set_solver|].
    destruct (negb _); simpl; [rewrite os_close_law|split_and!; [done|done|]]; set_solver.
Qed.
End open.

(** ** A process that can always open a descriptor, for witnesses *)

Definition open_one (F : gset Z) : Z * gset Z :=
  let s := fresh (F ∪ {[kInvalidSocket]}) in (s, {[s]} ∪ F).

#[export] Instance gset_socket_api : SocketApi (gset Z) := {
  os_socket := open_one;
  os_setsockopt _ F := (0%Z, F);
  os_bind _ _ _ F := (0%Z, F);
  os_listen _ _ F := (0%Z, F);
  os_accept _ := open_one;
  os_inet_pton _ := (1%Z, INADDR_LOOPBACK);
  os_connect _ _ _ F := (0%Z, F);
  os_close s F := F ∖ {[s]} }.

Lemma open_one_new F n F' :
  open_one F = (n, F') →
  (n = kInvalidSocket ∧ F' = F) ∨ (n ≠ kInvalidSocket ∧ (n ∉ F) ∧ F' = {[n]} ∪ F).
Proof. intros [= <- <-]. right. pose proof (is_fresh (F ∪ {[kInvalidSocket]})). set_solver. Qed.

#[export] Instance gset_socket_laws : SocketLaws (gset Z).
Proof. refine {| fds := λ F, F |}; try done; intros; by apply open_one_new. Defined.

(** ** A scripted connection, for witnesses

    [recv] delivers the chunks of the script, cut to the caller's size, then
    end of file; [send] accepts at most [window] bytes at a time. *)

Record Script := mkScript {
  inbox : list (list Z);
  window : nat;
  sc_sent : list Z;
  sc_received : list Z }.

(** A byte, whatever the script holds. *)
Definition as_byte (z : Z) : Z := u8 z.

#[export] Instance Script_socket : TcpSocket Script := {
  os_send data s :=
    let n := Nat.min (window s) (length data) in
    (Z.of_nat n, mkScript (inbox s) (window s) (sc_sent s ++ take n data) (sc_received s));
  os_recv size s :=
    match inbox s with
    | [] => (0%Z, [], s)
    | c :: cs =>
        let got := as_byte <$> take size c in
        let rest := drop size c in
        (Z.of_nat (length got), got,
         mkScript (match rest with [] => cs | _ => rest :: cs end) (window s) (sc_sent s) (sc_received s ++ got))
    end }.

#[export] Instance Script_laws : TcpLaws Script.
Proof.
  refine {| sent := sc_sent; received := sc_received |}.
  - intros data s n s' [= <- <-]. simpl. rewrite Nat2Z.id. split_and!; [lia|done|done].
  - intros size s n bytes s'. simpl. destruct (inbox s) as [|c cs]; intros [= <- <- <-].
    + rewrite app_nil_r. split_and!; [lia|done|constructor|done|done].
    + rewrite Nat2Z.id, length_fmap, length_take. split_and!; [lia|done| |done|done].
      apply Forall_fmap, Forall_true. intros x. apply wrap_in_u. lia.
Defined.

(** Five bytes over a socket that accepts two at a time. *)
Lemma send_all_exact_witness :
  let s := mkScript [] 2 [] [] in
  (λ r, (r.1, sc_sent r.2)) <$> send_all [1; 2; 3; 4; 5]%Z s = Some (true, [1; 2; 3; 4; 5]%Z) ∧
  ∃ ok s' k, send_all [1; 2; 3; 4; 5]%Z s = Some (ok, s') ∧ k ≤ 5 ∧
    sent s' = sent s ++ take k [1; 2; 3; 4; 5]%Z ∧ received s' = received s ∧ (ok = true ↔ k = 5).
Proof. intros s. split; [by vm_compute|]. apply (send_all_exact [1; 2; 3; 4; 5]%Z s). Defined.
