(* ===== verification/Typed.v ===== *)
(** * The ranges of the C++ types

    The strong integer types of include/ordbk/core/types.hpp are integers here;
    this file says which integers are values of each type, and shows that every
    operation of the pool, the book, the matcher, the engine and the dispatcher
    keeps all members of all orders within their types, and that every message
    the dispatcher sends has fields within theirs.  Nothing is assumed of the
    shape of the books: this holds wherever the operation is defined. *)

From S2P Require Import Prelude StdMap Types Heap Pool PriceLevel OrderBook Latency Matcher.
From S2P Require Import Codec Framer Session Contract Registry Engine Dispatcher.

Definition Price_in (z : Z) : Prop := in_i 64 z.
Definition Quantity_in (z : Z) : Prop := in_u 64 z.
Definition OrderId_in (z : Z) : Prop := in_u 64 z.
Definition InstrumentId_in (z : Z) : Prop := in_u 32 z.
Definition ClientId_in (z : Z) : Prop := in_u 32 z.
Definition Timestamp_in (z : Z) : Prop := in_i 64 z.

(** An enumeration holds one of its enumerators or another byte. *)
Definition Side_in (s : Side) : Prop := match s with Side_other v => (2 ≤ v < 256)%Z | _ => True end.
Definition OrderType_in (t : OrderType) : Prop :=
  match t with OrderType_other v => (2 ≤ v < 256)%Z | _ => True end.
Definition TimeInForce_in (t : TimeInForce) : Prop :=
  match t with TimeInForce_other v => (4 ≤ v < 256)%Z | _ => True end.

Record order_typed (o : Order) : Prop := {
  ty_id : OrderId_in (oid o);
  ty_price : Price_in (limit_price o);
  ty_initial : Quantity_in (initial_qty o);
  ty_filled : Quantity_in (filled_qty o);
  ty_instrument : InstrumentId_in (oinstrument o);
  ty_client : ClientId_in (client o);
  ty_side : Side_in (side o);
  ty_type : OrderType_in (type o);
  ty_tif : TimeInForce_in (tif o);
  ty_ts : Timestamp_in (ts o);
  ty_enqueue : Timestamp_in (enqueue_ns o);
  ty_complete : Timestamp_in (match_complete_ns o) }.

Record trade_typed (t : Trade) : Prop := {
  ty_maker : OrderId_in (maker_id t);
  ty_taker : OrderId_in (taker_id t);
  ty_tinstrument : InstrumentId_in (tinstrument t);
  ty_tprice : Price_in (tprice t);
  ty_quantity : Quantity_in (quantity t);
  ty_tts : Timestamp_in (tts t) }.

Definition heap_typed (h : heap) : Prop := Forall order_typed h.
Definition pool_typed (p : Pool) : Prop := heap_typed (storage_ p).

(** An assignment to a member that keeps orders well typed. *)
Definition keeps (f : Order → Order) : Prop := ∀ o, order_typed o → order_typed (f o).

Create HintDb typed.

Lemma u64_in z : in_u 64 (u64 z).
Proof. apply wrap_in_u. lia. Qed.
Lemma i64_in z : in_i 64 (i64 z).
Proof. apply i64_in_i. Qed.
#[export] Hint Resolve u64_in i64_in : typed.

Lemma remaining_in o : Quantity_in (remaining o).
Proof. apply u64_in. Qed.
Lemma qty_min_in a b : Quantity_in a → Quantity_in b → Quantity_in (qty_min a b).
Proof. unfold qty_min. by case_match. Qed.
#[export] Hint Resolve remaining_in qty_min_in : typed.

(** Every assignment the program makes. *)
Lemma keeps_prev p : keeps (set_prev p).
Proof. by intros o []. Qed.
Lemma keeps_next p : keeps (set_next p).
Proof. by intros o []. Qed.
Lemma keeps_unlink : keeps (λ o, set_prev None (set_next None o)).
Proof. by intros o []. Qed.
Lemma keeps_status s : keeps (set_status s).
Proof. by intros o []. Qed.
Lemma keeps_fill q : keeps (add_fill q).
Proof. intros o []. split; try done. apply u64_in. Qed.
Lemma keeps_complete t : Timestamp_in t → keeps (set_match_complete t).
Proof. by intros ? o []. Qed.
Lemma keeps_const o : order_typed o → keeps (λ _, o).
Proof. by intros ? ? _. Qed.
#[export] Hint Resolve keeps_prev keeps_next keeps_unlink keeps_status keeps_fill keeps_complete
  keeps_const : typed.

Lemma Order_init_typed : order_typed Order_init.
Proof. split; simpl; unfold OrderId_in, Price_in, Quantity_in, InstrumentId_in, ClientId_in, Timestamp_in, in_u, in_i, kZeroQty; lia || done. Qed.
#[export] Hint Resolve Order_init_typed : typed.

Lemma hupd_typed f x h h' : heap_typed h → hupd f x h = Some h' → keeps f → heap_typed h'.
Proof.
  unfold hupd. destruct (h !! x) as [o|] eqn:E; [|done]. intros Hh [= <-] Hf.
  apply Forall_insert; [done|]. apply Hf. by eapply Forall_lookup_1.
Qed.

Lemma heap_typed_at h x o : heap_typed h → h !! x = Some o → order_typed o.
Proof. intros. by eapply Forall_lookup_1. Qed.

(** Case analysis on a call that succeeded. *)
Ltac inv_res :=
  repeat match goal with
  | H : Some _ = Some _ |- _ => injection H as H; subst
  | H : None = Some _ |- _ => discriminate H
  | H : (match ?e with Some _ => _ | None => None end) = Some _ |- _ =>
      let E := fresh "E" in destruct e eqn:E; [|discriminate H]
  | H : (match ?e with _ => _ end) = Some _ |- _ => let E := fresh "E" in destruct e eqn:E
  end.

Lemma push_back_typed x lv h lv' h' : heap_typed h → push_back x lv h = Some (lv', h') → heap_typed h'.
Proof. unfold push_back. intros. inv_res; eauto 10 using hupd_typed with typed. Qed.

Lemma unlink_typed x h h' : heap_typed h → unlink x h = Some h' → heap_typed h'.
Proof. unfold unlink. eauto using hupd_typed with typed. Qed.

Lemma pop_front_typed lv h lv' h' : heap_typed h → pop_front lv h = Some (lv', h') → heap_typed h'.
Proof. unfold pop_front. intros. inv_res; eauto 10 using hupd_typed, unlink_typed with typed. Qed.

Lemma erase_typed x lv h lv' h' : heap_typed h → erase x lv h = Some (lv', h') → heap_typed h'.
Proof. unfold erase. intros. inv_res; eauto 10 using hupd_typed, unlink_typed with typed. Qed.

(** ** The book and the pool *)

Lemma add_resting_typed x b h b' h' : heap_typed h → add_resting x b h = Some (b', h') → heap_typed h'.
Proof. unfold add_resting. intros. inv_res; eauto using push_back_typed. Qed.

Lemma cancel_and_get_typed id b h x b' h' :
  heap_typed h → cancel_and_get id b h = Some (x, b', h') → heap_typed h'.
Proof. unfold cancel_and_get. intros. inv_res; eauto using erase_typed. Qed.

Lemma pop_top_typed s b h b' h' : heap_typed h → pop_top s b h = Some (b', h') → heap_typed h'.
Proof. unfold pop_top. intros. inv_res; eauto using pop_front_typed. Qed.

Lemma acquire_typed p x p' : pool_typed p → acquire p = Some (x, p') → pool_typed p'.
Proof.
  unfold acquire, pool_typed. intros. inv_res; simpl; eauto using hupd_typed with typed.
Qed.

Lemma release_typed x p p' : pool_typed p → release x p = Some p' → pool_typed p'.
Proof. unfold release. intros. inv_res. done. Qed.

(** What a loop body preserves, the loop preserves. *)
Lemma for_level_keeps {S} `{HasHeap S} (P : S → Prop) body lv s s' go :
  (∀ x s s' go, P s → body x s = Some (s', go) → P s') →
  P s → for_level body lv s = Some (s', go) → P s'.
Proof.
  intros Hb. unfold for_level. generalize (Datatypes.S (length (get_heap s))) as fuel, (lhead lv) as cur.
  intros fuel. revert s. induction fuel as [|fuel IH]; intros s cur Hs; destruct cur; cbn [iter_level];
    intros; inv_res; eauto.
Qed.

Lemma drain_levels_typed (cb : ptr → Pool → res Pool) ls p p' :
  (∀ x p p', pool_typed p → cb x p = Some p' → pool_typed p') →
  pool_typed p → drain_levels cb ls p = Some p' → pool_typed p'.
Proof.
  intros Hcb. revert p. induction ls as [|[px lv] ls IH]; intros p Hp; cbn [drain_levels]; intros; inv_res; [done|].
  eapply IH; [|done]. eapply for_level_keeps; [|exact Hp|done]. intros x q q' go' Hq. unfold drain_body.
  intros. inv_res. eapply Hcb; [|done]. unfold pool_typed. simpl. eauto using unlink_typed.
Qed.

(** ** The matcher *)

Lemma match_loop_typed fuel opp x b p trs b' p' trs' :
  pool_typed p → Forall trade_typed trs → match_loop fuel opp x b p trs = Some (b', p', trs') →
  pool_typed p' ∧ Forall trade_typed trs'.
Proof.
  revert b p trs. induction fuel as [|fuel IH]; intros b p trs Hp Ht; cbn [match_loop]; [done|].
  destruct (storage_ p !! x) as [t|] eqn:Et; [|done].
  destruct (0 <? remaining t)%Z; [|by intros [= <- <- <-]].
  destruct (peek_top opp b) as [mk|]; [|by intros [= <- <- <-]].
  destruct (storage_ p !! mk) as [m|] eqn:Em; [|done].
  destruct (stops t (limit_price m)); [by intros [= <- <- <-]|].
  set (q := qty_min (remaining t) (remaining m)).
  destruct (hupd (add_fill q) x (storage_ p)) as [h1|] eqn:E1; [|done].
  destruct (hupd (add_fill q) mk h1) as [h2|] eqn:E2; [|done].
  assert (heap_typed h1) as H1 by eauto using hupd_typed with typed.
  assert (heap_typed h2) as H2 by eauto using hupd_typed with typed.
  destruct (h2 !! x) as [t2|] eqn:Et2; [|done]. destruct (h2 !! mk) as [m2|] eqn:Em2; [|done].
  pose proof (heap_typed_at _ _ _ H2 Et2) as Ht2. pose proof (heap_typed_at _ _ _ H2 Em2) as Hm2.
  pose proof (heap_typed_at _ _ _ Hp Em) as Hm.
  assert (Forall trade_typed (trs ++ [mkTrade (oid m2) (oid t2) (oinstrument t2) (limit_price m) q (ts t2)])) as Hts.
  { apply Forall_app. split; [done|]. constructor; [|done].
    split; simpl; [apply Hm2|apply Ht2|apply Ht2|apply Hm|unfold q; eauto with typed|apply Ht2]. }
  intros. inv_res; (eapply IH; [|exact Hts|eassumption]).
  - eapply release_typed; [|done]. unfold pool_typed. simpl. eauto using pop_top_typed, hupd_typed with typed.
  - unfold pool_typed. simpl. eauto using hupd_typed with typed.
Qed.

Lemma settle_typed x b p b' p' : pool_typed p → settle x b p = Some (b', p') → pool_typed p'.
Proof.
  unfold settle, pool_typed. intros. inv_res; simpl; eauto using hupd_typed, add_resting_typed with typed.
Qed.

Definition sys_typed (s : Sys) : Prop := pool_typed (pool_ s).

Lemma order_upd_typed f x s s' : sys_typed s → order_upd f x s = Some s' → keeps f → sys_typed s'.
Proof. unfold order_upd, sys_typed, pool_typed. intros. inv_res. simpl. eauto using hupd_typed. Qed.

Lemma matcher_submit_typed clock x m s r m' s' :
  sys_typed s → Matcher.submit clock x m s = Some (r, m', s') → sys_typed s' ∧ Forall trade_typed (r_trades r).
Proof.
  intros Hs. unfold Matcher.submit, reject, now_ns. simpl. intros E.
  destruct (order_at x _) as [o|]; [|done].
  destruct (invalid _ o).
  { inv_res. split; [|constructor]. eapply order_upd_typed; [|done|apply keeps_status]. done. }
  destruct (if bool_decide (tif o = FOK) then _ else _) as [[]|]; [| |done]; simpl in E; last first.
  { inv_res. split; [|constructor]. eapply order_upd_typed; [|done|apply keeps_status]. done. }
  destruct (match_ x (book_ m) (pool_ s)) as [[[b1 p1] trs]|] eqn:Em; [|done].
  destruct (settle x b1 p1) as [[b2 p2]|] eqn:Es; [|done]. unfold match_ in Em. inv_res. simpl.
  destruct (match_loop_typed _ _ _ _ _ _ _ _ _ Hs (Forall_nil_2 _) Em) as [Hp1 Ht].
  split; [|done]. change (sys_typed s0). eapply (order_upd_typed _ x (mkSys p2 _)); [|done|apply keeps_complete, i64_in].
  by eapply settle_typed.
Qed.

Lemma matcher_cancel_typed id m s ok m' s' :
  sys_typed s → Matcher.cancel id m s = Some (ok, m', s') → sys_typed s'.
Proof.
  intros Hs. unfold Matcher.cancel. intros E.
  destruct (cancel_and_get id (book_ m) (storage_ (pool_ s))) as [[[y b'] h]|] eqn:Ec; [|done].
  pose proof (cancel_and_get_typed _ _ _ _ _ _ Hs Ec) as Hh. inv_res; unfold sys_typed; simpl; [|done].
  eapply release_typed; [|done]. unfold pool_typed. simpl. eauto using hupd_typed with typed.
Qed.

Lemma cancel_all_typed m s m' s' : sys_typed s → cancel_all m s = Some (m', s') → sys_typed s'.
Proof.
  intros Hs. unfold cancel_all, clear_and_drain. intros. inv_res. unfold sys_typed. simpl.
  assert (∀ x p p', pool_typed p → drain_callback x p = Some p' → pool_typed p') as Hcb.
  { intros x p p' Hp. unfold drain_callback. intros. inv_res. eapply release_typed; [|done].
    unfold pool_typed. simpl. eauto using hupd_typed with typed. }
  eauto using drain_levels_typed.
Qed.

(** ** The engine *)

Lemma engine_submit_typed clock x e s r e' s' :
  sys_typed s → submit clock x e s = Some (r, e', s') → sys_typed s' ∧ Forall trade_typed (r_trades r).
Proof.
  intros Hs. unfold submit. intros E. destruct (order_at x s) as [o|]; [|done].
  destruct (matchers_ e !! oinstrument o) as [m|].
  - destruct (Matcher.submit clock x m s) as [[[r1 m1] s1]|] eqn:Em; [|done]. injection E as <- <- <-.
    by eapply matcher_submit_typed.
  - destruct (order_upd (set_status Rejected) x s) as [s1|] eqn:Eu; [|done]. injection E as <- <- <-.
    split; [|constructor]. by eapply order_upd_typed; [| |apply keeps_status].
Qed.

Lemma engine_cancel_typed inst id e s ok e' s' :
  sys_typed s → cancel inst id e s = Some (ok, e', s') → sys_typed s'.
Proof.
  intros Hs. unfold cancel. intros E. destruct (matchers_ e !! inst) as [m|]; [|by injection E as <- <- <-].
  destruct (Matcher.cancel id m s) as [[[ok1 m1] s1]|] eqn:Em; [|done]. injection E as <- <- <-.
  by eapply matcher_cancel_typed.
Qed.

Lemma expire_typed id e s ok e' s' :
  sys_typed s → expire_instrument id e s = Some (ok, e', s') → sys_typed s'.
Proof.
  intros Hs. unfold expire_instrument. intros E. destruct (matchers_ e !! id) as [m|]; [|by injection E as <- <- <-].
  destruct (cancel_all m s) as [[m1 s1]|] eqn:Em; [|done]. injection E as <- <- <-. by eapply cancel_all_typed.
Qed.

Lemma acquire_order_typed s x s' : sys_typed s → acquire_order s = Some (x, s') → sys_typed s'.
Proof.
  intros Hs. unfold acquire_order. destruct (acquire (pool_ s)) as [[y p]|] eqn:E; [|done].
  intros [= <- <-]. by eapply acquire_typed.
Qed.

Lemma release_order_typed x s s' : sys_typed s → release_order x s = Some s' → sys_typed s'.
Proof.
  intros Hs. unfold release_order. destruct (release x (pool_ s)) as [p|] eqn:E; [|done].
  intros [= <-]. by eapply release_typed.
Qed.

(** ** The dispatcher *)

Definition world_typed (w : World) : Prop := sys_typed (sys w) ∧ ClientId_in (client_id_ (session w)).

Lemma Side_of_in b : in_u 8 b → Side_in (Side_of b).
Proof. unfold in_u, Side_of. intros. destruct (Z.eqb_spec b 0), (Z.eqb_spec b 1); simpl; lia || done. Qed.
Lemma OrderType_of_in b : in_u 8 b → OrderType_in (OrderType_of b).
Proof. unfold in_u, OrderType_of. intros. destruct (Z.eqb_spec b 0), (Z.eqb_spec b 1); simpl; lia || done. Qed.
Lemma TimeInForce_of_in b : in_u 8 b → TimeInForce_in (TimeInForce_of b).
Proof.
  unfold in_u, TimeInForce_of. intros.
  destruct (Z.eqb_spec b 0), (Z.eqb_spec b 1), (Z.eqb_spec b 2), (Z.eqb_spec b 3); simpl; lia || done.
Qed.

Lemma order_of_typed m c t : body_ok (NewOrder m) → ClientId_in c → Timestamp_in t → order_typed (order_of m c t).
Proof.
  intros (H1 & H2 & H3 & H4 & H5 & H6 & H7) Hc Ht. split; simpl; try done;
    eauto using Side_of_in, OrderType_of_in, TimeInForce_of_in; unfold Quantity_in, Timestamp_in, kZeroQty, in_u, in_i; lia.
Qed.

Lemma classify_ok st m e r : classify st m e = Some r → RejectReason_ok r.
Proof. unfold classify. intros. inv_res; done. Qed.

Lemma OrderStatus_code_in st : in_u 8 (OrderStatus_code st).
Proof. destruct st; unfold in_u; simpl; lia. Qed.

(** Replies of a handler: well typed, and all that happens to the session
    besides [session_after]. *)
Definition answers (w' : World) (s : Session) : Prop :=
  world_typed w' ∧ ∃ bs, Forall body_ok bs ∧ session w' = emitted bs s.

Lemma answers_reply bs w s :
  sys_typed (sys w) → ClientId_in (client_id_ (session w)) → Forall body_ok bs → session w = s →
  answers (replied bs w) s.
Proof. intros Hs Hc Hb <-. split; [by split|]. by exists bs. Qed.

Section dispatcher.
Variable clock : nat → Z.

Lemma handle_new_order_typed m w w' :
  world_typed w → body_ok (NewOrder m) → handle_new_order clock m w = Some w' → answers w' (session w).
Proof.
  intros [Hs Hc] Hm. unfold handle_new_order. pose proof Hm as (Hid & _).
  destruct (decide (state_ (session w) ≠ Active)).
  { rewrite reply_spec. intros [= <-]. apply answers_reply; try done. by apply Forall_singleton. }
  destruct (acquire_order (sys w)) as [[[x|] s1]|] eqn:Ea; [| |done].
  2: { rewrite reply_spec. intros [= <-]. pose proof (acquire_order_typed _ _ _ Hs Ea).
       apply (answers_reply _ (mkWorld (session w) (engine_ w) s1)); try done. by apply Forall_singleton. }
  pose proof (acquire_order_typed _ _ _ Hs Ea) as Hs1. unfold now_ns.
  destruct (write_order _ x _) as [s3|] eqn:Ew; [|done].
  assert (sys_typed s3) as Hs3.
  { eapply order_upd_typed; [|exact Ew|]; [done|]. apply keeps_const, order_of_typed; [done|done|apply i64_in]. }
  destruct (submit clock x (engine_ w) s3) as [[[r e'] s4]|] eqn:Es; [|done].
  destruct (engine_submit_typed _ _ _ _ _ _ _ Hs3 Es) as [Hs4 Htr].
  destruct (order_at (r_order r) s4) as [o|] eqn:Eo; [|done].
  set (w1 := mkWorld (session w) e' s4).
  assert (∀ bs, Forall body_ok bs →
    (if is_terminal o then let* s5 := release_order (r_order r) (sys (replied bs w1)) in
       Some (mkWorld (session (replied bs w1)) (engine_ (replied bs w1)) s5)
     else Some (replied bs w1)) = Some w' → answers w' (session w)) as Hfin.
  { intros bs Hbs. destruct (is_terminal o).
    - destruct (release_order _ _) as [s5|] eqn:Er; [|done]. intros [= <-].
      pose proof (release_order_typed _ _ _ Hs4 Er). split; [by split|]. by exists bs.
    - intros [= <-]. by apply (answers_reply bs w1). }
  destruct (decide (status o = Rejected)).
  - destruct (classify Rejected m e') as [reason|] eqn:Ec; [|done]. rewrite reply_spec. apply Hfin.
    constructor; [|done]. split; [done|by eapply classify_ok].
  - rewrite reply_spec, reply_fills_spec, replied_app. apply Hfin. apply Forall_app. split.
    + by apply Forall_singleton.
    + apply Forall_fmap. eapply Forall_impl; [exact Htr|]. intros t [].
      split_and!; try done. apply OrderStatus_code_in.
Qed.

Lemma handle_typed b w w' :
  world_typed w → body_ok b → handle clock b w = Some w' → answers w' (session_after b (session w)).
Proof.
  intros Hw Hb. pose proof Hw as [Hs Hc].
  destruct b as [c| | |m|id inst| | | |]; cbn [handle session_after];
    try (intros [= <-]; split; [done|]; exists []; by rewrite emitted_nil).
  - unfold handle_logon. destruct (decide (state_ (session w) = NotLoggedOn)) as [Hn|Hn].
    + rewrite decide_False by tauto. rewrite reply_spec. intros [= <-].
      apply (answers_reply _ (mkWorld _ (engine_ w) (sys w))); try done. by apply Forall_singleton.
    + rewrite decide_True by done. intros [= <-]. split; [done|]. exists []. by rewrite emitted_nil.
  - unfold handle_logout. rewrite reply_spec. intros [= <-].
    apply (answers_reply _ (mkWorld _ (engine_ w) (sys w))); try done. by apply Forall_singleton.
  - unfold handle_heartbeat. rewrite reply_spec. intros [= <-]. apply answers_reply; try done. by apply Forall_singleton.
  - by apply handle_new_order_typed.
  - destruct Hb as [Hid Hinst]. unfold handle_cancel. destruct (decide (state_ (session w) ≠ Active)).
    { rewrite reply_spec. intros [= <-]. apply answers_reply; try done. by apply Forall_singleton. }
    destruct (cancel inst id (engine_ w) (sys w)) as [[[ok e'] s']|] eqn:E; [|done].
    pose proof (engine_cancel_typed _ _ _ _ _ _ _ Hs E).
    destruct ok; rewrite reply_spec; intros [= <-];
      (apply (answers_reply _ (mkWorld (session w) e' s')); [done..|by apply Forall_singleton|done]).
Qed.
End dispatcher.
