(* ===== verification/Pumping.v ===== *)
(** * The pump as a fold over messages

    [Dispatcher::pump] interleaves taking messages off the framer with handling
    them.  Handlers look at neither the framer nor the outbound buffer, so a
    pump is the same as draining the framer first and handling the messages
    then, and pumping twice is the same as pumping once on all the bytes.  The
    server's loop is verified on top of this. *)

From S2P Require Import Prelude StdMap Types Heap Pool PriceLevel OrderBook Latency Matcher.
From S2P Require Import MatchSpec SubmitSpec Codec Framer Session Contract Registry Engine Dispatcher Typed.

(** The world with another framer and with bytes in front of its outbound
    buffer. *)
Definition rebase (f : Framer) (out : list Z) (w : World) : World :=
  mkWorld (mkSession (session_id_ (session w)) (state_ (session w)) (client_id_ (session w))
             (out_seq_ (session w)) f (out ++ outbound_ (session w))) (engine_ w) (sys w).

Lemma rebase_rebase f g o o' w : rebase f o (rebase g o' w) = rebase f (o ++ o') w.
Proof. unfold rebase. simpl. by rewrite app_assoc. Qed.

Lemma rebase_id w : rebase (framer_ (session w)) [] w = w.
Proof. by destruct w as [[]]. Qed.

Lemma replied_rebase bs f o w : replied bs (rebase f o w) = rebase f o (replied bs w).
Proof. unfold replied, rebase, emitted. simpl. by rewrite app_assoc. Qed.

Section pumping.
Variable clock : nat → Z.

Lemma handle_rebase b f o w : handle clock b (rebase f o w) = rebase f o <$> handle clock b w.
Proof.
  destruct b as [c| | |m|id inst| | | |]; cbn [handle]; try done.
  - unfold handle_logon. simpl. case_decide; [done|]. rewrite !reply_spec. simpl. f_equal.
    apply (replied_rebase [LogonMsg c] f o (mkWorld (set_state Active (set_client c (session w))) (engine_ w) (sys w))).
  - unfold handle_logout. rewrite !reply_spec. simpl. f_equal.
    apply (replied_rebase [LogoutMsg] f o (mkWorld (set_state Closing (session w)) (engine_ w) (sys w))).
  - unfold handle_heartbeat. rewrite !reply_spec. simpl. f_equal. apply replied_rebase.
  - unfold handle_new_order, now_ns. cbn [rebase session sys engine_ state_ client_id_]. case_decide; [rewrite !reply_spec; cbn [fmap option_fmap option_map]; f_equal; apply replied_rebase|].
    destruct (acquire_order (sys w)) as [[[x|] s1]|]; [| |done].
    2: { rewrite !reply_spec. cbn [fmap option_fmap option_map]. f_equal. apply (replied_rebase _ f o (mkWorld (session w) (engine_ w) s1)). }
    destruct (write_order _ x _) as [s3|]; [|done].
    destruct (submit clock x (engine_ w) s3) as [[[r e'] s4]|]; [|done].
    destruct (order_at (r_order r) s4) as [ord|]; [|done].
    set (w1 := mkWorld (session w) e' s4).
    change (mkWorld (mkSession _ _ _ _ f _) e' s4) with (rebase f o w1).
    case_decide.
    + destruct (classify Rejected m e') as [reason|]; [|done]. rewrite !reply_spec, replied_rebase.
      cbn [rebase replied sys engine_ session].
      destruct (is_terminal ord); [|done]. by destruct (release_order (r_order r) (sys w1)).
    + rewrite !reply_spec, !reply_fills_spec, !replied_app, replied_rebase.
      cbn [rebase replied sys engine_ session].
      destruct (is_terminal ord); [|done]. by destruct (release_order (r_order r) (sys w1)).
  - unfold handle_cancel. cbn [rebase session sys engine_ state_]. case_decide; [rewrite !reply_spec; cbn [fmap option_fmap option_map]; f_equal; apply replied_rebase|].
    destruct (cancel inst id (engine_ w) (sys w)) as [[[[] e'] s']|]; [| |done];
      rewrite !reply_spec; simpl; f_equal; apply (replied_rebase _ f o (mkWorld (session w) e' s')).
Qed.

Fixpoint handle_all (ms : list DecodedMessage) (w : World) : res World :=
  match ms with
  | [] => Some w
  | m :: ms' => let* w' := handle clock (body m) w in handle_all ms' w'
  end.

Lemma handle_all_app ms ms' w :
  handle_all (ms ++ ms') w = let* w' := handle_all ms w in handle_all ms' w'.
Proof.
  revert w. induction ms as [|m ms IH]; intros w; cbn [handle_all app]; [done|].
  by destruct (handle clock (body m) w).
Qed.

Lemma handle_all_rebase ms f o w : handle_all ms (rebase f o w) = rebase f o <$> handle_all ms w.
Proof.
  revert w. induction ms as [|m ms IH]; intros w; cbn [handle_all]; [done|].
  rewrite handle_rebase. destruct (handle clock (body m) w); [apply IH|done].
Qed.

Lemma pump_loop_fold fuel w ms f :
  drain_loop fuel (framer_ (session w)) = Some (ms, f) →
  pump_loop clock fuel w = rebase f [] <$> handle_all ms w.
Proof.
  revert w ms. induction fuel as [|fuel IH]; intros w ms; cbn [drain_loop pump_loop]; [done|].
  unfold next_inbound. destruct (next (framer_ (session w))) as [[[m|] f1]|]; [| |done]; last by intros [= <- <-].
  destruct (drain_loop fuel f1) as [[ms' f2]|] eqn:Ed; [|done]. intros [= <- ->].
  change (mkWorld (mkSession _ _ _ _ f1 _) (engine_ w) (sys w)) with (rebase f1 [] w).
  rewrite handle_rebase. cbn [handle_all]. destruct (handle clock (body m) w) as [w1|]; [|done]. simpl.
  rewrite (IH (rebase f1 [] w1) ms' Ed), handle_all_rebase. destruct (handle_all ms' w1); [|done]. simpl.
  by rewrite rebase_rebase.
Qed.

Lemma pump_fold w ms f :
  drain (framer_ (session w)) = Some (ms, f) → pump clock w = rebase f [] <$> handle_all ms w.
Proof. apply pump_loop_fold. Qed.

Lemma sessions_after_same ms s :
  out_seq_ (sessions_after ms s) = out_seq_ s ∧ outbound_ (sessions_after ms s) = outbound_ s.
Proof.
  unfold sessions_after. revert s. induction ms as [|m ms IH]; intros s; [done|]. cbn [foldl].
  destruct (IH (session_after (body m) s)) as [-> ->]. by destruct (session_after_same (body m) s) as (_ & -> & ->).
Qed.

(** ** Typed replies *)

Lemma handle_all_typed ms w w' :
  world_typed w → Forall (λ m, body_ok (body m)) ms → handle_all ms w = Some w' →
  answers w' (sessions_after ms (session w)).
Proof.
  revert w. induction ms as [|m ms IH]; intros w Hw Hms; cbn [handle_all].
  { intros [= <-]. split; [done|]. exists []. by rewrite emitted_nil. }
  apply Forall_cons in Hms as [Hm Hms]. destruct (handle clock (body m) w) as [w1|] eqn:E; [|done]. intros E'.
  destruct (handle_typed clock _ _ _ Hw Hm E) as [Hw1 (bs1 & Hb1 & Hs1)].
  destruct (IH w1 Hw1 Hms E') as [Hw' (bs2 & Hb2 & Hs2)]. split; [done|].
  exists (bs1 ++ bs2). split; [by apply Forall_app|].
  rewrite Hs2, Hs1, sessions_after_emitted, emitted_app. done.
Qed.

(** Draining bytes gives messages within their types and leaves bytes. *)
Lemma drain_bytes f ms f' :
  Forall (in_u 8) (fbuf f) → drain f = Some (ms, f') →
  Forall (λ m, body_ok (body m)) ms ∧ Forall (in_u 8) (fbuf f').
Proof.
  unfold drain. generalize (S (length (fbuf f))) as fuel. intros fuel. revert f ms.
  induction fuel as [|fuel IH]; intros [buf e] ms Hb; cbn [drain_loop]; [done|].
  destruct (decide (e = NoError)) as [->|He]; last first.
  { unfold next. rewrite decide_True by done. by intros [= <- <-]. }
  destruct (next_total buf) as (m & f1 & -> & Hc). destruct m as [m|]; last first.
  { inversion Hc; subst; by intros [= <- <-]. }
  destruct (next_case_body _ _ _ Hb Hc) as (Hok & Hb1 & _ & _).
  destruct (drain_loop fuel f1) as [[ms1 f2]|] eqn:Ed; [|done]. intros [= <- <-].
  destruct (IH f1 ms1 Hb1 Ed). split; [by constructor|done].
Qed.

End pumping.

(** *** An example *)

Lemma ex_world_typed : world_typed ex_world.
Proof.
  assert (∀ o, o ∈ [Order_init; ex_o] → order_typed o) as H.
  { intros o [->|[->|[]%elem_of_nil]%elem_of_cons]%elem_of_cons; constructor; by compute. }
  split; [|by compute]. repeat (constructor; [apply H; set_solver|]). constructor.
Qed.
