(* ===== verification/Exchange.v ===== *)
(** * The exchange behind the gateway

    Any number of sessions, pumped in any order over one engine
    (src/gateway/dispatcher.cpp), implement an exchange described by the books
    as lists of orders, the state of each session and a count of free slots.
    The specification, [x_handle], says for each message which replies it gets
    and what becomes of the exchange; [x_order] of the file Dispatcher is its
    part for new orders. *)

From S2P Require Import Prelude StdMap Types Heap Pool PriceLevel OrderBook Latency Matcher.
From S2P Require Import MatchSpec SubmitSpec CancelSpec Priority Codec Framer Session Contract Chain Registry Engine.
From S2P Require Import Dispatcher Typed Pumping.

(** ** The specification *)

Definition orders_of (a : ABook) : list Order := a_bids a ++ a_asks a.

#[export] Instance has_id_dec id a : Decision (has_id id a).
Proof.
  refine (cast_if (decide (Exists (λ o, oid o = id) (orders_of a))));
    unfold has_id, orders_of in *; rewrite Exists_exists in *; set_solver.
Defined.

Definition x_cancel (id inst : Z) (X : Exchange) : list MessageBody * Exchange :=
  match x_books X !! inst with
  | Some a =>
      if decide (has_id id a)
      then ([CancelledMsg id], mkExchange (<[inst := a_cancel id a]> (x_books X)) (x_free X + 1) (x_lost X))
      else ([OrderRejectMsg id Unknown], X)
  | None => ([OrderRejectMsg id Unknown], X)
  end.

(** A message of a client in state [c.1] with id [c.2]. *)
Definition x_handle (t1 t2 : Z) (b : MessageBody) (c : State * Z) (X : Exchange)
    : list MessageBody * (State * Z) * Exchange :=
  match b with
  | LogonMsg client => if decide (c.1 = NotLoggedOn) then ([LogonMsg client], (Active, client), X) else ([], c, X)
  | LogoutMsg => ([LogoutMsg], (Closing, c.2), X)
  | HeartbeatMsg => ([HeartbeatMsg], c, X)
  | NewOrder m =>
      if decide (c.1 = Active) then let (bs, X') := x_order t1 t2 m c.2 X in (bs, c, X')
      else ([OrderRejectMsg (no_client_order_id m) NotLoggedOn_reason], c, X)
  | CancelOrderMsg id inst =>
      if decide (c.1 = Active) then let (bs, X') := x_cancel id inst X in (bs, c, X')
      else ([OrderRejectMsg id NotLoggedOn_reason], c, X)
  | _ => ([], c, X)
  end.

(** The messages of all sessions one after the other: [ms] with their replies
    [out], both labelled with the session. *)
Inductive x_run : list (State * Z) → Exchange → list (nat * MessageBody) → list (nat * MessageBody) →
    list (State * Z) → Exchange → Prop :=
| xr_nil cs X : x_run cs X [] [] cs X
| xr_msg cs X k b c t1 t2 bs c' X1 ms out cs' X' :
    cs !! k = Some c → x_handle t1 t2 b c X = (bs, c', X1) →
    x_run (<[k := c']> cs) X1 ms out cs' X' →
    x_run cs X ((k, b) :: ms) ((pair k <$> bs) ++ out) cs' X'.

Lemma x_run_app cs1 X1 ms1 out1 cs2 X2 ms2 out2 cs3 X3 :
  x_run cs1 X1 ms1 out1 cs2 X2 → x_run cs2 X2 ms2 out2 cs3 X3 → x_run cs1 X1 (ms1 ++ ms2) (out1 ++ out2) cs3 X3.
Proof.
  induction 1 as [|cs X k b c t1 t2 bs c' X1 ms out cs' X' Hk Hh Hr IH]; intros H2; [done|].
  rewrite <- app_assoc. simpl. by eapply xr_msg; eauto.
Qed.

(** ** Ids *)

(** The instrument and id of a new order. *)
Definition new_id (b : MessageBody) : option (Z * Z) :=
  match b with NewOrder m => Some (no_instrument_id m, no_client_order_id m) | _ => None end.

Definition new_ids (ms : list (nat * MessageBody)) : list (Z * Z) := omap (λ m, new_id m.2) ms.

Lemma fills_ids t ms trs t' rest : fills t ms = (trs, t', rest) → oid <$> rest `suffix_of` oid <$> ms.
Proof.
  revert t trs. induction ms as [|m ms IH]; intros t trs; simpl; [by intros [= <- <- <-]|].
  case_match; [by intros [= <- <- <-]|]. case_match; [|by intros [= <- <- <-]].
  destruct (fills _ ms) as [[trs1 t1] rest1] eqn:E. intros [= <- <- <-]. apply suffix_cons_r. by eapply IH.
Qed.

Lemma a_insert_perm buy o l : a_insert buy o l ≡ₚ o :: l.
Proof.
  induction l as [|m l IH]; simpl; [done|]. destruct (cmp buy _ _); [done|]. rewrite IH. apply Permutation_swap.
Qed.

Definition ids (l : list Order) : list Z := oid <$> l.

Lemma has_id_elem id a : has_id id a ↔ id ∈ ids (orders_of a).
Proof. unfold has_id, ids, orders_of. rewrite list_elem_of_fmap. set_solver. Qed.

Lemma orders_of_sides buy a : orders_of a ≡ₚ a_side buy a ++ a_side (negb buy) a.
Proof. destruct buy; unfold orders_of; simpl; [done|apply Permutation_app_comm]. Qed.

(** What a new order does to the two sides: makers leave from the front of the
    other side, and the order joins its own side if it rests. *)
Lemma a_submit_sides inst tm o a a' o' trs :
  a_submit inst tm o a = (a', o', trs) →
  let own := is_buy (side o) in
  ids (a_side (negb own) a') `suffix_of` ids (a_side (negb own) a) ∧
  (if is_terminal o' || immediate o' then a_side own a' = a_side own a
   else ids (a_side own a') ≡ₚ oid o :: ids (a_side own a)).
Proof.
  intros Ha own. unfold a_submit in Ha. fold own in Ha.
  destruct (invalid inst o); [by injection Ha as <- <- <-|]. destruct (_ && _); [by injection Ha as <- <- <-|].
  destruct (fills_taker o (a_side (negb own) a)) as [q Hft].
  destruct (fills o (a_side (negb own) a)) as [[trs1 o1] rest] eqn:Ef. simpl in Hft.
  pose proof (fills_ids _ _ _ _ _ Ef) as Hids. fold (ids rest) in Hids.
  destruct (a_settle tm o1 (set_a_side (negb own) rest a)) as [a2 o2] eqn:Es. injection Ha as <- <- <-.
  assert (oid o1 = oid o ∧ is_buy (side o1) = own ∧ immediate o1 = immediate o) as (Hid & Hs & Him) by (by rewrite Hft).
  assert (∀ buy, a_side buy (set_a_side (negb own) rest a) = if Bool.eqb buy (negb own) then rest else a_side buy a) as Hside
    by (intros; apply a_side_set).
  unfold a_settle in Es. fold (immediate o1) in Es. rewrite Hs in Es.
  destruct (is_fully_filled o1); [|destruct (immediate o1) eqn:Ei].
  - injection Es as <- <-. rewrite !Hside. by destruct own.
  - injection Es as <- <-. rewrite !Hside. change (immediate (set_match_complete _ _)) with (immediate o1). rewrite Ei, orb_true_r.
    by destruct own.
  - injection Es as <- <-. change (immediate (set_match_complete _ _)) with (immediate o1). rewrite Ei.
    replace (is_terminal _) with false by (by destruct (0 <? filled_qty o1)%Z). cbn [orb].
    rewrite !a_side_set. split; [by destruct own|]. rewrite Bool.eqb_reflx. unfold ids. rewrite a_insert_perm. simpl.
    rewrite Hid. by destruct own.
Qed.

Lemma a_submit_ids inst tm o a a' o' trs :
  a_submit inst tm o a = (a', o', trs) →
  (∀ id, has_id id a' → has_id id a ∨ id = oid o) ∧
  (NoDup (ids (orders_of a)) → ¬ has_id (oid o) a → NoDup (ids (orders_of a'))).
Proof.
  intros Ha. destruct (a_submit_sides _ _ _ _ _ _ _ Ha) as [[gone Hopp] Hown]. set (own := is_buy (side o)) in *.
  assert (∀ a, ids (orders_of a) ≡ₚ ids (a_side own a) ++ ids (a_side (negb own) a)) as Hp.
  { intros x. unfold ids. by rewrite (orders_of_sides own), fmap_app. }
  setoid_rewrite has_id_elem. setoid_rewrite Hp. rewrite Hopp.
  destruct (is_terminal o' || immediate o').
  - rewrite Hown. split; [set_solver|]. intros (? & ? & [? ?]%NoDup_app)%NoDup_app _. apply NoDup_app. set_solver.
  - split.
    + intros id. rewrite Hown. set_solver.
    + rewrite Hown. rewrite NoDup_app. intros (? & ? & (? & ? & ?)%NoDup_app) ?. simpl. apply NoDup_cons.
      split; [set_solver|]. apply NoDup_app. set_solver.
Qed.

(** ** Slots *)

(** The resting orders of all books. *)
Definition x_resting (bs : gmap Z ABook) : nat := map_fold (λ _ a n, length (orders_of a) + n) 0 bs.

Lemma x_resting_insert i a a' bs :
  bs !! i = Some a → x_resting (<[i := a']> bs) + length (orders_of a) = x_resting bs + length (orders_of a').
Proof.
  intros Hi. unfold x_resting. rewrite <- (insert_delete_id bs i a Hi) at 2. rewrite <- (insert_delete_eq bs i a').
  rewrite !map_fold_insert_L by (intros; try lia; by apply lookup_delete_eq). lia.
Qed.

Lemma orders_of_cancel id a : orders_of (a_cancel id a) = filter (λ o, oid o ≠ id) (orders_of a).
Proof. unfold orders_of, a_cancel. simpl. by rewrite filter_app. Qed.

(** An order that does not rest. *)
Definition immediate_msg (b : MessageBody) : bool :=
  match b with
  | NewOrder m => bool_decide (OrderType_of (no_order_type m) = Market) || bool_decide (TimeInForce_of (no_tif m) = IOC)
  | _ => false
  end.

Lemma a_submit_immediate inst tm o a a' o' trs : a_submit inst tm o a = (a', o', trs) → immediate o' = immediate o.
Proof.
  unfold a_submit. destruct (invalid inst o); [by intros [= _ <- _]|]. destruct (_ && _); [by intros [= _ <- _]|].
  destruct (fills_taker o (a_side (negb (is_buy (side o))) a)) as [q Hft].
  destruct (fills o _) as [[trs1 o1] rest]. simpl in Hft. assert (immediate o1 = immediate o) as Him by (by rewrite Hft).
  destruct (a_settle tm o1 _) as [a2 o2] eqn:Es. intros [= _ <- _]. rewrite <- Him. clear -Es.
  unfold a_settle in Es. repeat case_match; by injection Es as _ <-.
Qed.

(** Slots are free, in a book, or lost. *)
Definition x_slots (X : Exchange) : nat := x_free X + x_resting (x_books X) + x_lost X.

Definition x_distinct (X : Exchange) : Prop := ∀ i a, x_books X !! i = Some a → NoDup (ids (orders_of a)).

(** The resting orders were all new once. *)
Definition x_covered (past : list (Z * Z)) (X : Exchange) : Prop :=
  ∀ i a id, x_books X !! i = Some a → has_id id a → (i, id) ∈ past.

(** What every message keeps, ... *)
Record x_keeps (past : list (Z * Z)) (b : MessageBody) (X X' : Exchange) : Prop := {
  xk_covered : x_covered (past ++ option_list (new_id b)) X';
  xk_distinct : x_distinct X' }.

Lemma x_keeps_refl past b X : x_covered past X → x_distinct X → x_keeps past b X X.
Proof. intros Hc Hd. constructor; [|done]. intros i a id Hi Hid. apply elem_of_app. left. by eapply Hc. Qed.

(** ... and what it does to the slots, even if an id is used again. *)
Record x_counts (past : list (Z * Z)) (b : MessageBody) (X X' : Exchange) : Prop := {
  xc_covered : x_covered (past ++ option_list (new_id b)) X';
  xc_slots : x_slots X' = x_slots X;
  xc_lost : x_lost X' ≤ x_lost X + (if immediate_msg b then 1 else 0);
  xc_distinct : (∀ p, new_id b = Some p → p ∉ past) → x_distinct X → x_distinct X' }.

Lemma x_counts_refl past b X : x_covered past X → x_counts past b X X.
Proof. intros Hc. constructor; [|done|lia|done]. intros i a id Hi Hid. apply elem_of_app. left. by eapply Hc. Qed.

Lemma x_order_counts t1 t2 m client X bs X' past :
  x_order t1 t2 m client X = (bs, X') → x_covered past X → x_counts past (NewOrder m) X X'.
Proof.
  intros Hx Hc. unfold x_order in Hx. case_decide as Hfr; [injection Hx as _ <-; by apply x_counts_refl|].
  destruct (x_books X !! no_instrument_id m) as [a|] eqn:Ea; [|injection Hx as _ <-; by apply x_counts_refl].
  destruct (a_submit _ _ _ a) as [[a' o'] trs] eqn:Es. injection Hx as _ <-.
  destruct (a_submit_ids _ _ _ _ _ _ _ Es) as [Hids Hnd]. destruct (a_submit_sides _ _ _ _ _ _ _ Es) as [Hopp Hown].
  pose proof (a_submit_immediate _ _ _ _ _ _ _ Es) as Him.
  change (oid (order_of m client t1)) with (no_client_order_id m) in *.
  change (side (order_of m client t1)) with (Side_of (no_side m)) in *.
  change (immediate (order_of m client t1)) with (immediate_msg (NewOrder m)) in Him.
  set (own := is_buy (Side_of (no_side m))) in *. constructor; unfold x_covered, x_distinct; simpl.
  - intros i b id [[<- <-]|[_ Hi]]%lookup_insert_Some Hid; apply elem_of_app; [|left; by eapply Hc].
    apply Hids in Hid as [Hid| ->]; [left; by eapply Hc|right; by left].
  - unfold x_slots. simpl. pose proof (x_resting_insert _ _ a' _ Ea) as Hr.
    apply suffix_length in Hopp. unfold ids in Hopp. rewrite !length_fmap in Hopp.
    assert (length (a_side own a') = length (a_side own a) + (if is_terminal o' || immediate o' then 0 else 1)) as Hlen.
    { destruct (is_terminal o' || immediate o'); [rewrite Hown; lia|].
      apply Permutation_length in Hown. unfold ids in Hown. simpl in Hown. rewrite !length_fmap in Hown. lia. }
    rewrite (Permutation_length (orders_of_sides own a)), (Permutation_length (orders_of_sides own a')), !length_app in Hr.
    destruct (is_terminal o'), (immediate o'); simpl in *; lia.
  - rewrite Him. simpl. destruct (is_terminal o'); simpl; [|destruct (_ || _)]; lia.
  - intros Hnew Hd i b [[<- <-]|[_ Hi]]%lookup_insert_Some; [|by eapply Hd]. apply Hnd; [by eapply Hd|].
    intros Hid. by apply (Hnew _ eq_refl), (Hc _ _ _ Ea).
Qed.

(** An order leaves a book. *)
Lemma x_removes_counts id inst o a a' X past :
  x_books X !! inst = Some a → a_removes o a a' → x_covered past X →
  x_counts past (CancelOrderMsg id inst) X (mkExchange (<[inst := a']> (x_books X)) (x_free X + 1) (x_lost X)).
Proof.
  intros Ha (buy & l1 & l2 & Es & ->) Hc.
  assert (orders_of a ≡ₚ o :: orders_of (set_a_side buy (l1 ++ l2) a)) as Hp.
  { rewrite !(orders_of_sides buy), Es, !a_side_set, Bool.eqb_reflx.
    replace (Bool.eqb (negb buy) buy) with false by (by destruct buy). simpl. by rewrite <- Permutation_middle. }
  constructor; unfold x_covered, x_distinct; simpl; [| |lia|].
  - intros i b j [[<- <-]|[_ Hi]]%lookup_insert_Some Hj; apply elem_of_app; left; [|by eapply Hc].
    apply (Hc _ _ _ Ha). rewrite has_id_elem in Hj |- *. unfold ids in *. rewrite Hp. by right.
  - unfold x_slots. simpl. pose proof (x_resting_insert _ _ (set_a_side buy (l1 ++ l2) a) _ Ha) as Hr.
    rewrite Hp in Hr. simpl in Hr. lia.
  - intros _ Hd i b [[<- <-]|[_ Hi]]%lookup_insert_Some; [|by eapply Hd].
    pose proof (Hd _ _ Ha) as Hnd. unfold ids in *. rewrite Hp in Hnd. by apply NoDup_cons in Hnd as [_ ?].
Qed.

Lemma x_cancel_keeps id inst X bs X' past :
  x_cancel id inst X = (bs, X') → x_covered past X → x_distinct X → x_keeps past (CancelOrderMsg id inst) X X'.
Proof.
  intros Hx Hc Hd. unfold x_cancel in Hx.
  destruct (x_books X !! inst) as [a|] eqn:Ea; [|injection Hx as _ <-; by apply x_keeps_refl].
  case_decide as Hid; [|injection Hx as _ <-; by apply x_keeps_refl]. injection Hx as _ <-.
  assert (∀ o, o ∈ orders_of (a_cancel id a) → o ∈ orders_of a) as Hsub.
  { intros o. rewrite orders_of_cancel, list_elem_of_filter. tauto. }
  constructor; unfold x_covered, x_distinct; simpl.
  - intros i b j [[<- <-]|[_ Hi]]%lookup_insert_Some Hj; apply elem_of_app; left; [|by eapply Hc].
    apply (Hc _ _ _ Ea). destruct Hj as (o & <- & Ho). exists o. split; [done|].
    apply elem_of_app, Hsub, elem_of_app, Ho.
  - intros i b [[<- <-]|[_ Hi]]%lookup_insert_Some; [|by eapply Hd]. rewrite orders_of_cancel.
    eapply sublist_NoDup; [apply (Hd _ _ Ea)|]. apply fmap_sublist, sublist_filter.
Qed.

Lemma x_handle_keeps t1 t2 b c X bs c' X' past :
  x_handle t1 t2 b c X = (bs, c', X') → x_covered past X → x_distinct X →
  (∀ p, new_id b = Some p → p ∉ past) → x_keeps past b X X'.
Proof.
  intros Hx Hc Hd Hnew. destruct b as [client| | |m|id inst| | | |]; cbn [x_handle] in Hx;
    try (injection Hx as _ _ <-; by apply x_keeps_refl).
  - case_decide; injection Hx as _ _ <-; by apply x_keeps_refl.
  - case_decide; [|injection Hx as _ _ <-; by apply x_keeps_refl].
    destruct (x_order _ _ _ _ _) as [bs1 X1] eqn:Eo. injection Hx as _ _ <-.
    destruct (x_order_counts _ _ _ _ _ _ _ _ Eo Hc) as [Kc _ _ Kd]. constructor; [done|by apply Kd].
  - case_decide; [|injection Hx as _ _ <-; by apply x_keeps_refl].
    destruct (x_cancel _ _ _) as [bs1 X1] eqn:Eo. injection Hx as _ _ <-. by eapply x_cancel_keeps.
Qed.

(** A run from [past] on, all of whose new orders have new ids. *)
Definition new_run (past : list (Z * Z)) (ms : list (nat * MessageBody)) : Prop :=
  NoDup (new_ids ms) ∧ ∀ p, p ∈ new_ids ms → p ∉ past.

Lemma new_run_cons past k b ms :
  new_run past ((k, b) :: ms) →
  (∀ p, new_id b = Some p → p ∉ past) ∧ new_run (past ++ option_list (new_id b)) ms.
Proof.
  unfold new_run, new_ids. cbn [omap list_omap snd]. destruct (new_id b) as [p|]; simpl.
  - intros [[Hp Hnd]%NoDup_cons Hfr]. split; [intros q [= <-]; apply Hfr; by left|]. split; [done|]. set_solver.
  - intros [Hnd Hfr]. split; [done|]. by rewrite app_nil_r.
Qed.

Lemma new_run_app past ms1 ms2 : new_run past (ms1 ++ ms2) → new_run past ms1 ∧ new_run (past ++ new_ids ms1) ms2.
Proof.
  unfold new_run, new_ids. rewrite omap_app, NoDup_app. intros [(H1 & H2 & H3) Hfr]. split; split; try done; set_solver.
Qed.

Definition immediates (ms : list (nat * MessageBody)) : nat := length (filter (λ m, immediate_msg m.2) ms).

(** ** The dispatcher implements the specification *)

Section exchange.
Variable clock : nat → Z.

Definition x_uncrossed (X : Exchange) : Prop := ∀ i a, x_books X !! i = Some a → a_uncrossed a.

(** The engine, the pool and the exchange they implement after the new orders
    [past]. *)
Record x_impl (past : list (Z * Z)) (X : Exchange) (e : Engine) (s : Sys) (gs : gmap Z GBook) : Prop := {
  xi_ok : engine_ok e s gs;
  xi_indexed : engine_indexed e s gs;
  xi_shown : x_shown X s gs;
  xi_covered : x_covered past X;
  xi_distinct : x_distinct X;
  xi_uncrossed : x_uncrossed X }.

Lemma books_sides e s gs i a buy :
  engine_ok e s gs → books s gs !! i = Some a → makers_ok (a_side buy a) ∧ a_sorted buy (a_side buy a).
Proof.
  intros He Ha. unfold books in Ha. rewrite lookup_fmap in Ha. apply fmap_Some_1 in Ha as (g & Hg & ->).
  destruct (proj1 (en_dom _ _ _ He i) ltac:(eauto)) as [m Hm].
  destruct (en_slots _ _ _ He _ _ Hm) as (g' & Hg' & Hi & _). assert (g' = g) as -> by congruence.
  rewrite absr_side. split; [by eapply minv_makers|by eapply minv_sorted].
Qed.

Lemma a_cancel_uncrossed id a : a_uncrossed a → a_uncrossed (a_cancel id a).
Proof. intros Hu b k [_ Hb]%list_elem_of_filter [_ Hk]%list_elem_of_filter. by apply Hu. Qed.

Lemma x_handle_uncrossed t1 t2 b c X bs c' X' e s gs :
  x_handle t1 t2 b c X = (bs, c', X') → engine_ok e s gs → x_books X = books s gs → body_ok b →
  x_uncrossed X → x_uncrossed X'.
Proof.
  intros Hx He HX Hb Hu. destruct b as [client| | |m|id inst| | | |]; cbn [x_handle] in Hx;
    try (by injection Hx as _ _ <-).
  - case_decide; by injection Hx as _ _ <-.
  - case_decide; [|by injection Hx as _ _ <-]. unfold x_order in Hx. case_decide; [by injection Hx as _ _ <-|].
    destruct (x_books X !! no_instrument_id m) as [a|] eqn:Ea; [|by injection Hx as _ _ <-].
    destruct (a_submit _ _ _ a) as [[a' o'] trs] eqn:Es. injection Hx as _ _ <-.
    unfold x_uncrossed. simpl. intros i b [[<- <-]|[_ Hi]]%lookup_insert_Some; [|by eapply Hu].
    assert (a' = (a_submit (no_instrument_id m) t2 (order_of m c.2 t1) a).1.1) as -> by (by rewrite Es).
    apply a_submit_uncrossed; [by apply order_of_qty, Hb| |by eapply Hu].
    intros buy. eapply books_sides; [done|]. by rewrite <- HX.
  - case_decide; [|by injection Hx as _ _ <-]. unfold x_cancel in Hx.
    destruct (x_books X !! inst) as [a|] eqn:Ea; [|by injection Hx as _ _ <-].
    case_decide; injection Hx as _ _ <-; [|done].
    unfold x_uncrossed. simpl. intros i b [[<- <-]|[_ Hi]]%lookup_insert_Some; [|by eapply Hu]. by eapply a_cancel_uncrossed, Hu.
Qed.

Definition session_shown (ses : Session) : State * Z := (state_ ses, client_id_ ses).

(** One message. *)
Lemma handle_exchange b w gs X past :
  x_impl past X (engine_ w) (sys w) gs → body_ok b → (∀ p, new_id b = Some p → p ∉ past) →
  ∃ t1 t2 bs X' w' gs',
    x_handle t1 t2 b (session_shown (session w)) X = (bs, session_shown (session_after b (session w)), X') ∧
    handle clock b w = Some w' ∧ session w' = emitted bs (session_after b (session w)) ∧
    x_impl (past ++ option_list (new_id b)) X' (engine_ w') (sys w') gs'.
Proof.
  intros [He Hix Hsh Hcov Hdist Hunc] Hb Hnew.
  assert (∃ t1 t2 bs X' w' gs',
    x_handle t1 t2 b (session_shown (session w)) X = (bs, session_shown (session_after b (session w)), X') ∧
    handle clock b w = Some w' ∧ session w' = emitted bs (session_after b (session w)) ∧
    engine_ok (engine_ w') (sys w') gs' ∧ engine_indexed (engine_ w') (sys w') gs' ∧ x_shown X' (sys w') gs') as H; last first.
  { destruct H as (t1 & t2 & bs & X' & w' & gs' & Hx & Hh & Hs & He' & Hix' & Hsh').
    destruct (x_handle_keeps _ _ _ _ _ _ _ _ _ Hx Hcov Hdist Hnew) as [Kc Kd].
    exists t1, t2, bs, X', w', gs'. split_and!; try done. constructor; try done.
    exact (x_handle_uncrossed _ _ _ _ _ _ _ _ _ _ _ Hx He (proj1 Hsh) Hb Hunc). }
  destruct b as [client| | |m|id inst| | | |]; cbn [x_handle handle session_after];
    try (eexists 0%Z, 0%Z, [], X, w, gs; by rewrite emitted_nil).
  - unfold handle_logon, session_shown. cbn [fst snd]. destruct (decide (state_ (session w) = NotLoggedOn)) as [Hs|Hs].
    + rewrite (decide_False (P := state_ (session w) ≠ NotLoggedOn)) by tauto. rewrite reply_spec.
      by eexists 0%Z, 0%Z, _, X, _, gs.
    + rewrite decide_True by done. eexists 0%Z, 0%Z, [], X, w, gs. by rewrite emitted_nil.
  - unfold handle_logout. rewrite reply_spec. by eexists 0%Z, 0%Z, _, X, _, gs.
  - unfold handle_heartbeat. rewrite reply_spec. by eexists 0%Z, 0%Z, _, X, _, gs.
  - unfold session_shown. cbn [fst snd]. destruct (decide (state_ (session w) = Active)) as [Hs|Hs]; last first.
    { unfold handle_new_order. rewrite decide_True by done. rewrite reply_spec. by eexists 0%Z, 0%Z, _, X, _, gs. }
    pose proof (handle_new_order_exchange clock m w gs X He ltac:(apply Hb) Hs Hsh) as H.
    eexists _, _. destruct (x_order _ _ m _ X) as [bs X'] eqn:Ex. destruct H as (w' & gs' & Hh & Hse & He' & Hsh' & Hix').
    exists bs, X', w', gs'. rewrite Ex. split_and!; try done. apply Hix'; [done|].
    intros a Ha Hid. apply (Hnew _ eq_refl). by eapply Hcov.
  - unfold session_shown, handle_cancel. cbn [fst snd]. destruct (decide (state_ (session w) = Active)) as [Hs|Hs]; last first.
    { rewrite decide_True by done. rewrite reply_spec. by eexists 0%Z, 0%Z, _, X, _, gs. }
    rewrite (decide_False (P := state_ (session w) ≠ Active)) by tauto.
    destruct (cancel_spec (engine_ w) (sys w) gs inst id He) as (ok & e' & s' & gs' & -> & Hok & _ & _ & _ & Hf & _ & Hc).
    destruct (Hc Hix) as [Hix' Hbk]. unfold x_cancel. destruct Hsh as [HXb HXf]. rewrite HXb.
    eexists 0%Z, 0%Z. destruct (books (sys w) gs !! inst) as [a|] eqn:Ea.
    + destruct Hbk as [Hbk Hiff]. destruct (decide (has_id id a)) as [Hid|Hid].
      * rewrite (proj2 Hiff Hid) in *. rewrite reply_spec. eexists _, _, _, gs'. split_and!; try done.
        split; simpl; [by rewrite Hbk|lia].
      * destruct ok; [by destruct Hid; apply Hiff|]. rewrite reply_spec. eexists _, _, _, gs'. split_and!; try done.
        split; simpl; [|lia]. rewrite Hbk, a_cancel_absent by done. rewrite HXb. symmetry. by apply insert_id.
    + destruct Hbk as [Hbk ->]. rewrite reply_spec. eexists _, _, _, gs'. split_and!; try done.
      split; simpl; [by rewrite Hbk|lia].
Qed.

(** The messages of one pump, all of session [k]. *)
Lemma handle_all_exchange k ms w gs X past cs :
  x_impl past X (engine_ w) (sys w) gs → Forall (λ m, body_ok (body m)) ms →
  new_run past ((λ m, (k, body m)) <$> ms) → cs !! k = Some (session_shown (session w)) →
  ∃ bs X' w' gs',
    handle_all clock ms w = Some w' ∧ session w' = emitted bs (sessions_after ms (session w)) ∧
    x_run cs X ((λ m, (k, body m)) <$> ms) (pair k <$> bs) (<[k := session_shown (session w')]> cs) X' ∧
    x_impl (past ++ new_ids ((λ m, (k, body m)) <$> ms)) X' (engine_ w') (sys w') gs'.
Proof.
  revert w gs X past cs. induction ms as [|m ms IH]; intros w gs X past cs Hi Hms Hnew Hk; cbn [handle_all fmap list_fmap].
  { exists [], X, w, gs. rewrite emitted_nil, app_nil_r, list_insert_id by done. split_and!; try done. constructor. }
  apply Forall_cons in Hms as [Hm Hms]. apply new_run_cons in Hnew as [Hb Hnew].
  destruct (handle_exchange (body m) w gs X past Hi Hm Hb) as (t1 & t2 & bs1 & X1 & w1 & gs1 & Hx & -> & Hs1 & Hi1).
  pose proof (lookup_lt_Some _ _ _ Hk) as Hlt.
  assert (session_shown (session w1) = session_shown (session_after (body m) (session w))) as Hss by (by rewrite Hs1).
  destruct (IH w1 gs1 X1 _ (<[k := session_shown (session w1)]> cs) Hi1 Hms Hnew) as (bs2 & X2 & w2 & gs2 & -> & Hs2 & Hr & Hi2).
  { by apply list_lookup_insert_eq. }
  exists (bs1 ++ bs2), X2, w2, gs2. split_and!; [done| | |].
  - rewrite Hs2, Hs1, sessions_after_emitted, emitted_app. done.
  - rewrite list_insert_insert_eq in Hr. rewrite fmap_app. eapply xr_msg; [done|done|]. by rewrite <- Hss.
  - rewrite <- app_assoc in Hi2. unfold new_ids in *. cbn [omap list_omap snd]. by destruct (new_id (body m)).
Qed.

(** *** Many sessions *)

(** Session [k] receives bytes and is pumped, again and again. *)
Fixpoint serve (evs : list (nat * list Z)) (ss : list Session) (e : Engine) (s : Sys)
    : res (list Session * Engine * Sys) :=
  match evs with
  | [] => Some (ss, e, s)
  | (k, bytes) :: evs' =>
      match ss !! k with
      | None => serve evs' ss e s
      | Some ses =>
          let* w := pump clock (mkWorld (on_bytes bytes ses) e s) in
          serve evs' (<[k := session w]> ss) (engine_ w) (sys w)
      end
  end.

(** The messages in these bytes, in the order in which they are handled. *)
Fixpoint inbound (evs : list (nat * list Z)) (fs : list Framer) : res (list (nat * MessageBody)) :=
  match evs with
  | [] => Some []
  | (k, bytes) :: evs' =>
      match fs !! k with
      | None => inbound evs' fs
      | Some f =>
          let* (ms, f') := drain (feed bytes f) in
          let* rest := inbound evs' (<[k := f']> fs) in
          Some (((λ m, (k, body m)) <$> ms) ++ rest)
      end
  end.

(** The messages of session [k]. *)
Definition of_session (k : nat) (out : list (nat * MessageBody)) : list MessageBody :=
  (filter (λ m, m.1 = k) out).*2.

Lemma of_session_app k out1 out2 : of_session k (out1 ++ out2) = of_session k out1 ++ of_session k out2.
Proof. unfold of_session. by rewrite filter_app, fmap_app. Qed.

Lemma of_session_own k bs : of_session k (pair k <$> bs) = bs.
Proof.
  unfold of_session. induction bs as [|b bs IH]; [done|]. rewrite fmap_cons, filter_cons_True by done.
  rewrite fmap_cons. by f_equal.
Qed.

Lemma of_session_other j k bs : j ≠ k → of_session j (pair k <$> bs) = [].
Proof.
  intros Hjk. unfold of_session. induction bs as [|b bs IH]; [done|].
  by rewrite fmap_cons, filter_cons_False by done.
Qed.

(** What a session has sent: the bytes and the counter. *)
Definition sent_by (ses : Session) : list Z * Z := (outbound_ ses, out_seq_ ses).

Lemma sent_by_emitted bs ses ses' : sent_by ses' = sent_by ses → sent_by (emitted bs ses') = sent_by (emitted bs ses).
Proof. intros [= E1 E2]. unfold sent_by, emitted. simpl. by rewrite E1, E2. Qed.

Lemma feed_in_bytes bytes f : Forall (in_u 8) bytes → Forall (in_u 8) (fbuf f) → Forall (in_u 8) (fbuf (feed bytes f)).
Proof. intros. unfold feed. case_decide; [|done]. simpl. by apply Forall_app. Qed.

(** One pump of one session. *)
Lemma pump_exchange k bytes ses e s gs X past cs ms f :
  x_impl past X e s gs → drain (feed bytes (framer_ ses)) = Some (ms, f) →
  Forall (in_u 8) (fbuf (feed bytes (framer_ ses))) → new_run past ((λ m, (k, body m)) <$> ms) →
  cs !! k = Some (session_shown ses) →
  ∃ bs X' w' gs', pump clock (mkWorld (on_bytes bytes ses) e s) = Some w' ∧
    framer_ (session w') = f ∧ Forall (in_u 8) (fbuf f) ∧ sent_by (session w') = sent_by (emitted bs ses) ∧
    x_run cs X ((λ m, (k, body m)) <$> ms) (pair k <$> bs) (<[k := session_shown (session w')]> cs) X' ∧
    x_impl (past ++ new_ids ((λ m, (k, body m)) <$> ms)) X' (engine_ w') (sys w') gs'.
Proof.
  intros Hi Hd Hb Hnew Hk. destruct (drain_bytes _ _ _ Hb Hd) as [Hms Hf].
  set (w := mkWorld (on_bytes bytes ses) e s).
  destruct (handle_all_exchange k ms w gs X past cs Hi Hms Hnew Hk) as (bs & X' & w' & gs' & Ha & Hs & Hr & Hi').
  rewrite (pump_fold clock w ms f Hd), Ha. exists bs, X', (rebase f [] w'), gs'. split_and!; try done.
  rewrite <- (sent_by_emitted bs ses (sessions_after ms (session w))); [by rewrite <- Hs|].
  unfold sent_by. by destruct (sessions_after_same ms (session w)) as [-> ->].
Qed.

Lemma serve_exchange evs ss e s gs X past msgs :
  x_impl past X e s gs → Forall (λ ev, Forall (in_u 8) ev.2) evs →
  Forall (λ ses, Forall (in_u 8) (fbuf (framer_ ses))) ss →
  inbound evs (framer_ <$> ss) = Some msgs → new_run past msgs →
  ∃ ss' e' s' gs' X' out, serve evs ss e s = Some (ss', e', s') ∧
    x_run (session_shown <$> ss) X msgs out (session_shown <$> ss') X' ∧
    x_impl (past ++ new_ids msgs) X' e' s' gs' ∧ length ss' = length ss ∧
    ∀ k ses ses', ss !! k = Some ses → ss' !! k = Some ses' →
      sent_by ses' = sent_by (emitted (of_session k out) ses).
Proof.
  revert ss e s gs X past msgs. induction evs as [|[k bytes] evs IH]; intros ss e s gs X past msgs Hi Hev Hss Hin Hnew;
    cbn [serve inbound] in *.
  { injection Hin as <-. exists ss, e, s, gs, X, []. rewrite app_nil_r. split_and!; try done; [constructor|].
    intros k ses ses' Hk Hk'. assert (ses' = ses) as -> by congruence. unfold of_session. simpl. by rewrite emitted_nil. }
  apply Forall_cons in Hev as [Hb Hev]. rewrite list_lookup_fmap in Hin.
  destruct (ss !! k) as [ses|] eqn:Hk; cbn [fmap option_fmap option_map] in Hin; [|by apply (IH ss e s gs X)].
  destruct (drain (feed bytes (framer_ ses))) as [[ms f]|] eqn:Hd; [|done].
  destruct (inbound evs _) as [rest|] eqn:Hrest; [|done]. injection Hin as <-.
  destruct (new_run_app _ _ _ Hnew) as [Hn1 Hn2].
  pose proof (feed_in_bytes bytes _ Hb (Forall_lookup_1 _ _ _ _ Hss Hk)) as Hfb.
  destruct (pump_exchange k bytes ses e s gs X past (session_shown <$> ss) ms f Hi Hd Hfb Hn1)
    as (bs & X1 & w & gs1 & -> & Hf & Hfb' & Hsent & Hr & Hi1); [by rewrite list_lookup_fmap, Hk|].
  destruct (IH (<[k := session w]> ss) (engine_ w) (sys w) gs1 X1 _ rest Hi1 Hev) as (ss' & e' & s' & gs' & X' & out & Hserve & Hr' & Hi' & Hl & Hout).
  { by apply Forall_insert; [|rewrite Hf]. }
  { by rewrite list_fmap_insert, Hf. }
  { done. }
  exists ss', e', s', gs', X', ((pair k <$> bs) ++ out). rewrite Hserve. rewrite list_fmap_insert in Hr'.
  rewrite length_insert in Hl. split_and!; [done|by eapply x_run_app| |done|].
  - unfold new_ids in *. by rewrite omap_app, app_assoc.
  - intros j sesj ses' Hj Hj'. rewrite of_session_app, <- emitted_app. destruct (decide (j = k)) as [->|Hne].
    + assert (sesj = ses) as -> by congruence. rewrite of_session_own.
      rewrite (Hout k (session w) ses') by (done || by eapply list_lookup_insert_eq, lookup_lt_Some). by apply sent_by_emitted.
    + rewrite of_session_other, emitted_nil by done. apply Hout; [by rewrite list_lookup_insert_ne|done].
Qed.

(** *** Slots, whatever the ids *)

(** The books and the free slots with a number of lost ones. *)
Definition shown_as (lost : nat) (s : Sys) (gs : gmap Z GBook) : Exchange :=
  mkExchange (books s gs) (length (free (pool_ s))) lost.

Lemma x_shown_as X s gs : x_shown X s gs → X = shown_as (x_lost X) s gs.
Proof. unfold shown_as. destruct X. by intros [<- <-]. Qed.

Lemma handle_counts b w gs lost past :
  engine_ok (engine_ w) (sys w) gs → body_ok b → x_covered past (shown_as lost (sys w) gs) →
  ∃ w' gs' lost', handle clock b w = Some w' ∧ engine_ok (engine_ w') (sys w') gs' ∧
    x_counts past b (shown_as lost (sys w) gs) (shown_as lost' (sys w') gs').
Proof.
  intros He Hb Hc. destruct b as [client| | |m|id inst| | | |]; cbn [handle];
    try (exists w, gs, lost; split_and!; [done|done|by apply x_counts_refl]).
  - unfold handle_logon. case_decide; [exists w, gs, lost; split_and!; [done|done|by apply x_counts_refl]|].
    rewrite reply_spec. eexists _, gs, lost. split_and!; [done|done|by apply x_counts_refl].
  - unfold handle_logout. rewrite reply_spec. eexists _, gs, lost. split_and!; [done|done|by apply x_counts_refl].
  - unfold handle_heartbeat. rewrite reply_spec. eexists _, gs, lost. split_and!; [done|done|by apply x_counts_refl].
  - destruct (decide (state_ (session w) = Active)) as [Hs|Hs]; last first.
    { unfold handle_new_order. rewrite decide_True, reply_spec by done. eexists _, gs, lost.
      split_and!; [done|done|by apply x_counts_refl]. }
    pose proof (handle_new_order_exchange clock m w gs (shown_as lost (sys w) gs) He ltac:(apply Hb) Hs ltac:(done)) as H.
    destruct (x_order _ _ m _ _) as [bs X'] eqn:Ex. destruct H as (w' & gs' & Hh & _ & He' & Hsh & _).
    exists w', gs', (x_lost X'). split_and!; [done|done|]. rewrite <- (x_shown_as _ _ _ Hsh). by eapply x_order_counts.
  - unfold handle_cancel. destruct (decide (state_ (session w) = Active)) as [Hs|Hs]; last first.
    { rewrite decide_True, reply_spec by done. eexists _, gs, lost. split_and!; [done|done|by apply x_counts_refl]. }
    rewrite decide_False by tauto.
    destruct (cancel_spec (engine_ w) (sys w) gs inst id He) as (ok & e' & s' & gs' & -> & Hok & _ & _ & _ & Hf & Hbk & _).
    destruct ok; rewrite reply_spec; eexists _, gs', lost; (split_and!; [done|done|]); unfold shown_as; cbn [sys replied].
    + destruct Hbk as (o & a & a' & _ & Ha & Hrm & ->). rewrite Hf.
      exact (x_removes_counts id inst o a a' (shown_as lost (sys w) gs) past Ha Hrm Hc).
    + rewrite Hbk, Hf, Nat.add_0_r. by apply x_counts_refl.
Qed.

(** The messages of a whole run. *)
Record x_tallied (past : list (Z * Z)) (ms : list (nat * MessageBody)) (X X' : Exchange) : Prop := {
  xt_covered : x_covered (past ++ new_ids ms) X';
  xt_slots : x_slots X' = x_slots X;
  xt_lost : x_lost X' ≤ x_lost X + immediates ms;
  xt_distinct : new_run past ms → x_distinct X → x_distinct X' }.

Lemma x_tallied_nil past X : x_covered past X → x_tallied past [] X X.
Proof. intros Hc. constructor; [by rewrite app_nil_r|done|lia|done]. Qed.

Lemma x_tallied_cons past k b ms X X1 X' :
  x_counts past b X X1 → x_tallied (past ++ option_list (new_id b)) ms X1 X' → x_tallied past ((k, b) :: ms) X X'.
Proof.
  intros [Kc Ks Kl Kd] [Rc Rs Rl Rd]. constructor.
  - unfold new_ids in *. cbn [omap list_omap snd]. rewrite <- app_assoc in Rc. by destruct (new_id b).
  - congruence.
  - unfold immediates in *. rewrite filter_cons. cbn [snd]. destruct (immediate_msg b); simpl in *; lia.
  - intros [Hb Hms]%new_run_cons Hd. auto.
Qed.

Lemma x_tallied_app past ms1 ms2 X X1 X' :
  x_tallied past ms1 X X1 → x_tallied (past ++ new_ids ms1) ms2 X1 X' → x_tallied past (ms1 ++ ms2) X X'.
Proof.
  intros [Kc Ks Kl Kd] [Rc Rs Rl Rd]. constructor.
  - unfold new_ids in *. by rewrite omap_app, app_assoc.
  - congruence.
  - unfold immediates in *. rewrite filter_app, length_app. lia.
  - intros [H1 H2]%new_run_app Hd. auto.
Qed.

Lemma handle_all_counts k ms w gs lost past :
  engine_ok (engine_ w) (sys w) gs → Forall (λ m, body_ok (body m)) ms → x_covered past (shown_as lost (sys w) gs) →
  ∃ w' gs' lost', handle_all clock ms w = Some w' ∧ engine_ok (engine_ w') (sys w') gs' ∧
    x_tallied past ((λ m, (k, body m)) <$> ms) (shown_as lost (sys w) gs) (shown_as lost' (sys w') gs').
Proof.
  revert w gs lost past. induction ms as [|m ms IH]; intros w gs lost past He Hms Hc; cbn [handle_all fmap list_fmap].
  { exists w, gs, lost. split_and!; [done|done|by apply x_tallied_nil]. }
  apply Forall_cons in Hms as [Hm Hms].
  destruct (handle_counts (body m) w gs lost past He Hm Hc) as (w1 & gs1 & lost1 & -> & He1 & K).
  destruct (IH w1 gs1 lost1 _ He1 Hms (xc_covered _ _ _ _ K)) as (w2 & gs2 & lost2 & -> & He2 & T).
  exists w2, gs2, lost2. split_and!; [done|done|by eapply x_tallied_cons].
Qed.

Lemma serve_counts evs ss e s gs lost past msgs :
  engine_ok e s gs → x_covered past (shown_as lost s gs) → Forall (λ ev, Forall (in_u 8) ev.2) evs →
  Forall (λ ses, Forall (in_u 8) (fbuf (framer_ ses))) ss → inbound evs (framer_ <$> ss) = Some msgs →
  ∃ ss' e' s' gs' lost', serve evs ss e s = Some (ss', e', s') ∧ engine_ok e' s' gs' ∧
    x_tallied past msgs (shown_as lost s gs) (shown_as lost' s' gs').
Proof.
  revert ss e s gs lost past msgs. induction evs as [|[k bytes] evs IH]; intros ss e s gs lost past msgs He Hc Hev Hss Hin;
    cbn [serve inbound] in *.
  { injection Hin as <-. exists ss, e, s, gs, lost. split_and!; [done|done|by apply x_tallied_nil]. }
  apply Forall_cons in Hev as [Hb Hev]. rewrite list_lookup_fmap in Hin.
  destruct (ss !! k) as [ses|] eqn:Hk; cbn [fmap option_fmap option_map] in Hin; [|by apply IH].
  destruct (drain (feed bytes (framer_ ses))) as [[ms f]|] eqn:Hd; [|done].
  destruct (inbound evs _) as [rest|] eqn:Hrest; [|done]. injection Hin as <-.
  destruct (drain_bytes _ _ _ (feed_in_bytes bytes _ Hb (Forall_lookup_1 _ _ _ _ Hss Hk)) Hd) as [Hms Hf].
  destruct (handle_all_counts k ms (mkWorld (on_bytes bytes ses) e s) gs lost past He Hms Hc)
    as (w & gs1 & lost1 & Ha & He1 & T).
  rewrite (pump_fold clock (mkWorld (on_bytes bytes ses) e s) ms f Hd), Ha. cbn [fmap option_fmap option_map].
  destruct (IH (<[k := session (rebase f [] w)]> ss) (engine_ w) (sys w) gs1 lost1 _ rest He1 (xt_covered _ _ _ _ T) Hev)
    as (ss' & e' & s' & gs' & lost' & E & He' & T').
  { by apply Forall_insert. }
  { by rewrite list_fmap_insert. }
  exists ss', e', s', gs', lost'. split_and!; [exact E|done|by eapply x_tallied_app].
Qed.

(** *** From the start *)

(** The exchange when the gateway opens: an empty book per instrument. *)
Definition x_open (r : InstrumentRegistry) (cap : nat) : Exchange :=
  mkExchange (list_to_map ((λ spec, (sid spec, mkABook [] [])) <$> instruments_ r)) cap 0.

Lemma lookup_const_map {A} (f : A → Z) (a : ABook) (l : list A) i :
  (list_to_map ((λ x, (f x, a)) <$> l) : gmap Z ABook) !! i = if decide (i ∈ f <$> l) then Some a else None.
Proof.
  induction l as [|x l IH]; [done|]. rewrite !fmap_cons, list_to_map_cons. destruct (decide (f x = i)) as [<-|Hne].
  - rewrite lookup_insert_eq, decide_True; [done|]. by left.
  - rewrite lookup_insert_ne, IH by done. apply decide_ext. set_solver.
Qed.

Lemma x_open_lookup r cap i a : x_books (x_open r cap) !! i = Some a → a = mkABook [] [].
Proof. unfold x_open. simpl. rewrite lookup_const_map. case_decide; congruence. Qed.

Lemma x_open_resting r cap : x_resting (x_books (x_open r cap)) = 0.
Proof.
  unfold x_resting. pose proof (x_open_lookup r cap) as H. revert H. generalize (x_books (x_open r cap)) as bs.
  intros bs. induction bs as [|i a bs Hi IH] using map_ind; intros H; [done|].
  rewrite map_fold_insert_L by (done || (intros; lia)). rewrite (H i a) by apply lookup_insert_eq. simpl. apply IH.
  intros j b Hj. apply (H j). rewrite lookup_insert_ne; [done|]. congruence.
Qed.

Lemma x_open_keeps r cap : x_covered [] (x_open r cap) ∧ x_distinct (x_open r cap) ∧ x_uncrossed (x_open r cap).
Proof.
  split_and!.
  - intros i a id ->%x_open_lookup (o & _ & Ho). set_solver.
  - intros i a ->%x_open_lookup. apply NoDup_nil_2.
  - intros i a ->%x_open_lookup b k Hb. set_solver.
Qed.

Lemma x_open_impl r cap e :
  (Z.of_nat cap ≤ 4294967294)%Z → Engine_new r None = inl e →
  ∃ gs, x_impl [] (x_open r cap) e (mkSys (Pool_new cap) 0) gs.
Proof.
  intros Hcap He. destruct (engine_new_ok r None e (Pool_new cap) 0 He (Pool_new_ok cap Hcap)) as (Hok & Hm & Hi).
  exists ((λ _, empty_ghost) <$> matchers_ e). destruct (x_open_keeps r cap) as (Hc & Hd & Hu). constructor; try done.
  - intros i m g _ Hg y o Hy. rewrite lookup_fmap in Hg. apply fmap_Some_1 in Hg as (m' & _ & ->).
    by apply not_elem_of_nil in Hy.
  - split; [|unfold free; simpl; by rewrite to_u32_small, length_take, length_seq, Nat.min_id by lia]. apply map_eq. intros i. unfold x_open, books. simpl.
    rewrite lookup_const_map, !lookup_fmap. specialize (Hi i). case_decide as Hin.
    + apply list_elem_of_fmap in Hin as (spec & -> & Hs). destruct (proj2 Hi) as [m ->]; [by exists spec|done].
    + destruct (matchers_ e !! i) as [m|]; [|done]. destruct (proj1 Hi ltac:(eauto)) as (spec & Hs & <- & _).
      destruct Hin. by apply list_elem_of_fmap_2.
Qed.

Lemma impl_uncrossed past X e s gs i b : x_impl past X e s gs → book i e = Some (Some b) → uncrossed b.
Proof.
  intros [He _ [Hb _] _ _ Hu] Hbook. unfold book in Hbook. destruct (book_ptrs_ e !! i) as [j|] eqn:Ej; [|done].
  apply (en_ptrs _ _ _ He) in Ej as [-> [m Hm]]. rewrite Hm in Hbook. injection Hbook as <-.
  destruct (en_slots _ _ _ He _ _ Hm) as (g & Hg & Hi & _). apply (uncrossed_absr _ _ _ Hi). apply (Hu i). rewrite Hb.
  unfold books. by rewrite lookup_fmap, Hg.
Qed.

Lemma new_sessions {A} (f : Session → A) x sids :
  (∀ id, f (Session_new id) = x) → f <$> (Session_new <$> sids) = replicate (length sids) x.
Proof. intros Hf. induction sids as [|id l IH]; [done|]. rewrite !fmap_cons, Hf, IH. done. Qed.

Section from_start.
Context (r : InstrumentRegistry) (cap : nat) (e0 : Engine) (sids : list Z).
Context (evs : list (nat * list Z)) (msgs : list (nat * MessageBody)).
Context (Hcap : (Z.of_nat cap ≤ 4294967294)%Z) (Hnew : Engine_new r None = inl e0).
Context (Hbytes : Forall (λ ev, Forall (in_u 8) ev.2) evs).
Context (Hin : inbound evs (replicate (length sids) Framer_new) = Some msgs) (Hids : NoDup (new_ids msgs)).

Lemma serve_from_start :
  ∃ ss e s gs X out,
    serve evs (Session_new <$> sids) e0 (mkSys (Pool_new cap) 0) = Some (ss, e, s) ∧
    x_impl (new_ids msgs) X e s gs ∧
    x_run (replicate (length sids) (NotLoggedOn, 0%Z)) (x_open r cap) msgs out (session_shown <$> ss) X ∧
    ∀ k ses, ss !! k = Some ses → outbound_ ses = wires (numbered 0 (of_session k out)).
Proof.
  destruct (x_open_impl r cap e0 Hcap Hnew) as [gs0 Hi0].
  destruct (serve_exchange evs (Session_new <$> sids) e0 (mkSys (Pool_new cap) 0) gs0 (x_open r cap) [] msgs Hi0 Hbytes)
    as (ss & e & s & gs & X & out & Hs & Hr & Hi & Hl & Hout).
  { apply Forall_fmap, Forall_forall. intros id _. constructor. }
  { by rewrite (new_sessions framer_ Framer_new). }
  { split; [done|]. intros p _. apply not_elem_of_nil. }
  exists ss, e, s, gs, X, out. rewrite (new_sessions session_shown (NotLoggedOn, 0%Z)) in Hr by done.
  split_and!; [done|done|done|]. intros k ses Hk.
  destruct (lookup_lt_is_Some_2 (Session_new <$> sids) k) as [ses0 Hk0]; [rewrite <- Hl; by apply lookup_lt_Some in Hk|].
  pose proof (Hout k ses0 ses Hk0 Hk) as E. rewrite list_lookup_fmap in Hk0. apply fmap_Some_1 in Hk0 as (id & _ & ->).
  by injection E as ->.
Qed.

(** C26: the gateway implements an exchange.  Any number of sessions, fed any
    bytes in any pieces and pumped in any order over one fresh engine, never run
    into undefined behaviour, and behave as [x_handle] says for the messages in
    these bytes, provided new orders use new ids: every reply of every session,
    the state of every session, every book and the number of free slots are
    those of a run of that specification (with the times of the clock), each
    session is sent exactly its own replies, in order and numbered, and no book
    is ever left crossed. *)
Theorem gateway_refines_exchange :
  ∃ ss e s gs X out,
    serve evs (Session_new <$> sids) e0 (mkSys (Pool_new cap) 0) = Some (ss, e, s) ∧
    engine_ok e s gs ∧ x_books X = books s gs ∧ x_free X = length (free (pool_ s)) ∧
    x_run (replicate (length sids) (NotLoggedOn, 0%Z)) (x_open r cap) msgs out
      ((λ ses, (state_ ses, client_id_ ses)) <$> ss) X ∧
    (∀ k ses, ss !! k = Some ses → outbound_ ses = wires (numbered 0 (of_session k out))) ∧
    (∀ i b, book i e = Some (Some b) → uncrossed b).
Proof.
  destruct serve_from_start as (ss & e & s & gs & X & out & Hs & Hi & Hr & Hout).
  exists ss, e, s, gs, X, out. pose proof Hi as [He _ [Hb Hf] _ _ _]. split_and!; try done.
  intros i b. by eapply impl_uncrossed.
Qed.

(** C27: no slot is unaccounted for.  After any traffic, order ids used again
    included, the free slots, the resting orders and the slots lost for ever
    make up the pool; the only orders that can lose a slot are immediate ones
    (market orders and immediate-or-cancel), at most one each, so without them
    every slot is free or has a resting order.  Every resting order was sent by
    a client; and if no new order uses an id that one for the same instrument
    had before, no two resting orders of a book have the same id. *)
Theorem gateway_slots :
  ∃ ss e s gs lost,
    serve evs (Session_new <$> sids) e0 (mkSys (Pool_new cap) 0) = Some (ss, e, s) ∧ engine_ok e s gs ∧
    length (free (pool_ s)) + x_resting (books s gs) + lost = cap ∧ lost ≤ immediates msgs ∧
    (∀ i a o, books s gs !! i = Some a → o ∈ orders_of a → (i, oid o) ∈ new_ids msgs) ∧
    (NoDup (new_ids msgs) → ∀ i a, books s gs !! i = Some a → NoDup (ids (orders_of a))).
Proof.
  destruct (x_open_impl r cap e0 Hcap Hnew) as [gs0 [He0 _ Hsh0 Hc0 Hd0 _]].
  pose proof (x_shown_as _ _ _ Hsh0) as E0. rewrite E0 in Hc0, Hd0.
  destruct (serve_counts evs (Session_new <$> sids) e0 (mkSys (Pool_new cap) 0) gs0 _ [] msgs He0 Hc0 Hbytes)
    as (ss & e & s & gs & lost & E & He & [Tc Ts Tl Td]).
  { apply Forall_fmap, Forall_forall. intros id _. constructor. }
  { by rewrite (new_sessions framer_ Framer_new). }
  rewrite <- E0 in Ts, Tl. exists ss, e, s, gs, lost. split_and!; [done|done| |done| |].
  - unfold x_slots in Ts. rewrite x_open_resting in Ts. simpl in Ts. lia.
  - intros i a o Ha Ho. apply (Tc i a); [done|]. exists o. split; [done|]. by apply elem_of_app.
  - intros Hnd. apply Td; [|exact Hd0]. split; [done|]. intros p _. apply not_elem_of_nil.
Qed.
End from_start.
End exchange.

(** *** Witness: a maker and an immediate taker on two sessions *)

Definition ex_traffic : list (nat * list Z) :=
  [(0, wire 1 (LogonMsg 9)); (1, wire 1 (LogonMsg 8));
   (0, take 20 (wire 2 (NewOrder (ex_new 1 1 0 100 1)))); (0, drop 20 (wire 2 (NewOrder (ex_new 1 1 0 100 1))));
   (1, wire 2 (NewOrder (ex_new 2 0 1 100 2)))].

Definition ex_traffic_msgs : list (nat * MessageBody) :=
  [(0, LogonMsg 9); (1, LogonMsg 8); (0, NewOrder (ex_new 1 1 0 100 1)); (1, NewOrder (ex_new 2 0 1 100 2))].

Lemma forallb_bytes l : forallb (λ z, (0 <=? z)%Z && (z <? 256)%Z) l = true → Forall (in_u 8) l.
Proof.
  rewrite forallb_forall. intros Hl. apply Forall_forall. intros z Hz%list_elem_of_In%Hl.
  unfold in_u. zbool. lia.
Qed.

Lemma ex_traffic_bytes : Forall (λ ev, Forall (in_u 8) ev.2) ex_traffic.
Proof.
  unfold ex_traffic. repeat (apply Forall_cons; split; [apply forallb_bytes; by vm_compute|]). constructor.
Qed.

Lemma ex_traffic_inbound : inbound ex_traffic (replicate (length [1; 2]%Z) Framer_new) = Some ex_traffic_msgs.
Proof. by vm_compute. Qed.

Lemma ex_traffic_ids : NoDup (new_ids ex_traffic_msgs).
Proof. apply (bool_decide_unpack _). by vm_compute. Qed.

Lemma gateway_refines_exchange_witness :
  ∃ ss e s gs X out,
    serve ex_clock0 ex_traffic (Session_new <$> [1; 2]%Z) ex_engine (mkSys (Pool_new 2) 0) = Some (ss, e, s) ∧
    engine_ok e s gs ∧ x_books X = books s gs ∧ x_free X = length (free (pool_ s)) ∧
    x_run (replicate 2 (NotLoggedOn, 0%Z)) (x_open ex_registry 2) ex_traffic_msgs out
      ((λ ses, (state_ ses, client_id_ ses)) <$> ss) X ∧
    (∀ k ses, ss !! k = Some ses → outbound_ ses = wires (numbered 0 (of_session k out))) ∧
    (∀ i b, book i e = Some (Some b) → uncrossed b).
Proof.
  apply (gateway_refines_exchange ex_clock0 ex_registry 2 ex_engine [1; 2]%Z ex_traffic ex_traffic_msgs);
    [lia|reflexivity|exact ex_traffic_bytes|exact ex_traffic_inbound|exact ex_traffic_ids].
Defined.

(** Two orders under one id; one cancellation finds the first, and the other
    one rests for good. *)
Definition ex_twice : list (nat * list Z) :=
  [(0, wire 1 (LogonMsg 9)); (0, wire 2 (NewOrder (ex_new 1 1 0 100 1))); (0, wire 3 (NewOrder (ex_new 1 1 0 100 1)));
   (0, wire 4 (CancelOrderMsg 1 7)); (0, wire 5 (CancelOrderMsg 1 7))].

Definition ex_twice_msgs : list (nat * MessageBody) :=
  [(0, LogonMsg 9); (0, NewOrder (ex_new 1 1 0 100 1)); (0, NewOrder (ex_new 1 1 0 100 1));
   (0, CancelOrderMsg 1 7); (0, CancelOrderMsg 1 7)].

Lemma gateway_slots_witness :
  ∃ ss e s gs lost,
    serve ex_clock0 ex_twice (Session_new <$> [1]%Z) ex_engine (mkSys (Pool_new 2) 0) = Some (ss, e, s) ∧
    engine_ok e s gs ∧ length (free (pool_ s)) + x_resting (books s gs) + lost = 2 ∧ lost ≤ 0 ∧
    (∀ i a o, books s gs !! i = Some a → o ∈ orders_of a → (i, oid o) ∈ [(7, 1); (7, 1)]%Z) ∧
    (NoDup [(7, 1); (7, 1)]%Z → ∀ i a, books s gs !! i = Some a → NoDup (ids (orders_of a))).
Proof.
  apply (gateway_slots ex_clock0 ex_registry 2 ex_engine [1]%Z ex_twice ex_twice_msgs);
    [lia|reflexivity| |by vm_compute].
  unfold ex_twice. repeat (apply Forall_cons; split; [apply forallb_bytes; by vm_compute|]). constructor.
Defined.

(** The maker of this traffic is not told of its fill: its session only gets the
    logon and the acknowledgement. *)
Example ex_maker_not_told :
  match serve ex_clock0 ex_traffic (Session_new <$> [1; 2]%Z) ex_engine (mkSys (Pool_new 2) 0) with
  | Some (ss, _, _) =>
      outbound_ <$> ss =
        [wires (numbered 0 [LogonMsg 9; OrderAckMsg 1 1]);
         wires (numbered 0 [LogonMsg 8; OrderAckMsg 2 2; FillMsg 2 2 100 1 (OrderStatus_code PartiallyFilled)])]
  | None => False
  end.
Proof. by vm_compute. Qed.

(** A client cancels the order of another: [handle_cancel] looks at the id only. *)
Example ex_cancel_of_another :
  match serve ex_clock0
          [(0, wire 1 (LogonMsg 9)); (1, wire 1 (LogonMsg 8)); (0, wire 2 (NewOrder (ex_new 1 1 0 100 1)));
           (1, wire 2 (CancelOrderMsg 1 7))]
          (Session_new <$> [1; 2]%Z) ex_engine (mkSys (Pool_new 2) 0) with
  | Some (ss, _, _) =>
      outbound_ <$> ss =
        [wires (numbered 0 [LogonMsg 9; OrderAckMsg 1 1]); wires (numbered 0 [LogonMsg 8; CancelledMsg 1])]
  | None => False
  end.
Proof. by vm_compute. Qed.
