(* ===== verification/Server.v ===== *)
(** * The TCP server's session loop (src/gateway/server.cpp, [session_loop])

    A thread per connection: receive up to 1024 bytes, feed them to the
    session, pump, send what the session has queued.  The flag [running_] is
    set by another thread: the value its [n]-th test sees is a parameter. *)

From S2P Require Import Prelude StdMap Types Heap Pool PriceLevel OrderBook Latency Matcher.
From S2P Require Import MatchSpec SubmitSpec Codec Framer Session Contract Registry Engine Dispatcher Typed.
From S2P Require Import Pumping Tcp.

(** Where the loop was left; [StillRunning] if it was not. *)
Inductive LoopEnd := StillRunning | NotRunning | RecvEnd | BadFrame | SendFailed.

Definition kRecvBuffer : nat := 1024.

Section server.
Context {Conn : Type} `{!TcpSocket Conn}.
Variable clock : nat → Z.
Variable running : nat → bool.

Definition with_session (s : Session) (w : World) : World := mkWorld s (engine_ w) (sys w).

(** The loop, for [turns] turns from its [k]-th test on. *)
Fixpoint session_loop (turns k : nat) (w : World) (sock : Conn) : res (LoopEnd * World * Conn) :=
  match turns with
  | 0 => Some (StillRunning, w, sock)
  | S turns' =>
      if running k && bool_decide (state_ (session w) ≠ Closing) then
        let '(n, bytes, sock1) := recv_some kRecvBuffer sock in
        if (n <=? 0)%Z then Some (RecvEnd, w, sock1)
        else
          let w1 := with_session (on_bytes bytes (session w)) w in
          if has_error (framer_ (session w1)) then Some (BadFrame, w1, sock1)
          else
            let* w2 := pump clock w1 in
            let (outbound, s3) := take_outbound (session w2) in
            let w3 := with_session s3 w2 in
            match outbound with
            | [] => session_loop turns' (S k) w3 sock1
            | _ :: _ =>
                let* (ok, sock2) := send_all outbound sock1 in
                if ok : bool then session_loop turns' (S k) w3 sock2
                else Some (SendFailed, w3, sock2)
            end
      else Some (NotRunning, w, sock)
  end.

(** ** The framer between turns *)

(** A framer with an error is left alone. *)
Lemma feed_error bytes f : error_ f ≠ NoError → feed bytes f = f.
Proof. intros. unfold feed. by rewrite decide_False. Qed.
Lemma no_error_feed bytes s w : error_ (framer_ s) = NoError → has_error (framer_ (session (with_session (on_bytes bytes s) w))) = false.
Proof. intros E. unfold has_error. simpl. unfold feed. rewrite decide_True by done. simpl. by rewrite E. Qed.
Lemma drain_error f : error_ f ≠ NoError → drain f = Some ([], f).
Proof. intros. unfold drain. cbn [drain_loop]. unfold next. by rewrite decide_True. Qed.

(** A framer that waits for more holds less than the longest message. *)
Lemma next_waits_short f :
  error_ f = NoError → next f = Some (None, f) → buffered_bytes f < kHeaderSize + kMaxBodySize.
Proof.
  destruct f as [buf err]. cbn [error_]. intros ->. unfold next, buffered_bytes.
  rewrite decide_False by (simpl; tauto). cbn [fbuf].
  destruct (decide (length buf < kHeaderSize)) as [Hs|Hs]; [lia|].
  rewrite decode_buf_header by done. destruct (negb _); [done|].
  destruct (Z.ltb_spec (Z.of_nat kMaxBodySize) (body_length (buf_header buf))) as [|Hm]; [done|].
  destruct (decide (length buf < _)) as [Ht|Ht]; [lia|].
  destruct (decode_body_total (buf_header buf)
    (take (Z.to_nat (body_length (buf_header buf))) (drop kHeaderSize buf))) as [[b|] ->]; done.
Qed.

Lemma drain_shrinks f ms f' : drain f = Some (ms, f') → buffered_bytes f' ≤ buffered_bytes f.
Proof.
  destruct f as [buf e]. destruct (decide (e = NoError)) as [->|He].
  - destruct (drain_loop_fuel (S (length buf)) buf) as (ms1 & f1 & E & _ & Hl & _); [lia|].
    change (drain (mkFramer buf NoError) = Some (ms1, f1)) in E. rewrite E. by intros [= <- <-].
  - rewrite drain_error by done. by intros [= <- <-].
Qed.

Lemma feed_length bytes f : buffered_bytes (feed bytes f) ≤ buffered_bytes f + length bytes.
Proof. unfold feed, buffered_bytes. case_decide; simpl; [rewrite length_app|]; lia. Qed.

Lemma feed_bytes bytes f :
  Forall (in_u 8) bytes → Forall (in_u 8) (fbuf f) → Forall (in_u 8) (fbuf (feed bytes f)).
Proof. intros. unfold feed. case_decide; simpl; [by apply Forall_app|done]. Qed.

(** What the loop keeps of its framer: between turns it waits for more unless
    it has failed, and it never holds more than one message and one buffer. *)
Record framer_idle (f : Framer) : Prop := {
  fi_next : error_ f = NoError → next f = Some (None, f);
  fi_bytes : Forall (in_u 8) (fbuf f);
  fi_bound : buffered_bytes f < kHeaderSize + kMaxBodySize + kRecvBuffer }.

Lemma framer_idle_new : framer_idle Framer_new.
Proof. constructor; [done|constructor|compute; lia]. Qed.

Lemma framer_idle_short f :
  framer_idle f → error_ f = NoError → buffered_bytes f < kHeaderSize + kMaxBodySize.
Proof. intros [Hn _ _] He. by apply next_waits_short, Hn. Qed.

Lemma framer_idle_feed f bytes :
  framer_idle f → length bytes ≤ kRecvBuffer →
  buffered_bytes (feed bytes f) < kHeaderSize + kMaxBodySize + kRecvBuffer.
Proof.
  intros Hf Hl. destruct (decide (error_ f = NoError)) as [He|He].
  - pose proof (framer_idle_short f Hf He). pose proof (feed_length bytes f). lia.
  - rewrite feed_error by done. apply Hf.
Qed.

Lemma framer_idle_drain f bytes ms f' :
  framer_idle f → length bytes ≤ kRecvBuffer → Forall (in_u 8) bytes →
  drain (feed bytes f) = Some (ms, f') → framer_idle f'.
Proof.
  intros Hf Hl Hb Hd. constructor.
  - destruct (drain_total (feed bytes f)) as (? & ? & E & Hn). rewrite Hd in E. by injection E as <- <-.
  - by apply (drain_bytes _ _ _ (feed_bytes _ _ Hb (fi_bytes _ Hf)) Hd).
  - pose proof (drain_shrinks _ _ _ Hd). pose proof (framer_idle_feed f bytes Hf Hl). lia.
Qed.

(** ** The loop against one pump of the whole stream *)

Context `{!TcpLaws Conn}.

(** After the bytes [B] were received from a connection in state [c0] by a
    session in world [w0]: handling the messages in [B] gives [wr]; the loop's
    world [w] is [wr] with the framer of the loop and the replies taken. *)
Record loop_inv (w0 : World) (c0 : Conn) (w : World) (c : Conn) (B : list Z) (wr : World) : Prop := {
  li_bytes : received c = received c0 ++ B;
  li_ref : ∃ ms f, drain (mkFramer B NoError) = Some (ms, f) ∧ handle_all clock ms w0 = Some wr ∧
    error_ f = error_ (framer_ (session w)) ∧
    (error_ f = NoError → f = framer_ (session w)) ;
  li_framer : framer_idle (framer_ (session w));
  li_engine : ∃ gs, engine_ok (engine_ w) (sys w) gs;
  li_world : rebase (framer_ (session wr)) (outbound_ (session wr)) w = wr;
  li_taken : outbound_ (session w) = [] }.

(** Bytes after a framing error change nothing. *)
Lemma loop_inv_error w0 c0 w c B wr bytes c' :
  loop_inv w0 c0 w c B wr → error_ (framer_ (session w)) ≠ NoError → received c' = received c ++ bytes →
  loop_inv w0 c0 (with_session (on_bytes bytes (session w)) w) c' (B ++ bytes) wr.
Proof.
  intros [Hb (ms & f & Hd & Ha & He & Hs) Hn Hg Hw Ht] Herr Hr.
  assert (with_session (on_bytes bytes (session w)) w = w) as ->.
  { unfold with_session, on_bytes. rewrite feed_error by done. by destruct w as [[]]. }
  rewrite <- He in Herr. destruct (drain_app B bytes ms f Hd) as (ms1 & f1 & E1 & f2 & E2 & He2 & _).
  rewrite feed_error, drain_error in E1 by done. injection E1 as <- <-. rewrite app_nil_r in E2.
  constructor; [by rewrite Hr, Hb, app_assoc| |done|done|done|done].
  exists ms, f2. split_and!; [done|done|congruence|]. intros E. congruence.
Qed.

(** A turn that pumps. *)
Lemma loop_inv_pump w0 c0 w c B wr bytes c' :
  loop_inv w0 c0 w c B wr → error_ (framer_ (session w)) = NoError →
  length bytes ≤ kRecvBuffer → Forall (in_u 8) bytes → received c' = received c ++ bytes →
  ∃ w2 wr', pump clock (with_session (on_bytes bytes (session w)) w) = Some w2 ∧
    loop_inv w0 c0 (with_session (take_outbound (session w2)).2 w2) c' (B ++ bytes) wr' ∧
    outbound_ (session wr') = outbound_ (session wr) ++ outbound_ (session w2).
Proof.
  intros [Hb (ms & f & Hd & Ha & He & Hs) Hf [gs Hg] Hw Ht] Hok Hl Hby Hr.
  assert (f = framer_ (session w)) as -> by (apply Hs; congruence). clear He Hs.
  destruct (drain_app B bytes ms _ Hd) as (ms1 & f1 & E1 & f2 & E2 & He2 & Hs2).
  pose proof (framer_idle_drain _ _ _ _ Hf Hl Hby E1) as Hf1.
  set (w1 := with_session (on_bytes bytes (session w)) w).
  destruct (pump_loop_spec clock (S (length (fbuf (framer_ (session w1))))) w1 gs Hg)
    as (_ & _ & _ & w2 & gs' & _ & Hp & Hg' & _); [by apply feed_bytes, Hf|lia|].
  change (pump clock w1 = Some w2) in Hp. exists w2. rewrite Hp.
  change (feed bytes (framer_ (session w))) with (framer_ (session w1)) in E1.
  rewrite (pump_fold clock w1 ms1 f1 E1) in Hp.
  change w1 with (rebase (framer_ (session w1)) [] w) in Hp. rewrite handle_all_rebase in Hp.
  destruct (handle_all clock ms1 w) as [wa|] eqn:Ea; [|done]. simpl in Hp.
  rewrite rebase_rebase in Hp. apply (inj Some) in Hp. subst w2.
  exists (rebase (framer_ (session wr)) (outbound_ (session wr)) wa). split; [done|]. split; [|done].
  constructor; [by rewrite Hr, Hb, app_assoc| |done|by exists gs'| |done].
  - exists (ms ++ ms1), f2. split_and!; [done| |exact He2|intros E; apply Hs2; congruence].
    rewrite handle_all_app, Ha. rewrite <- Hw at 1. by rewrite handle_all_rebase, Ea.
  - unfold rebase, with_session. simpl. by rewrite app_nil_r.
Qed.

Lemma loop_inv_new id e s gs c :
  engine_ok e s gs →
  loop_inv (mkWorld (Session_new id) e s) c (mkWorld (Session_new id) e s) c [] (mkWorld (Session_new id) e s).
Proof.
  intros He. constructor; [by rewrite app_nil_r| |apply framer_idle_new|by exists gs|done|done].
  by exists [], Framer_new.
Qed.

(** Everything sent so far, or, after a failed [send_all], a part of it. *)
Definition loop_sent (c0 c : Conn) (en : LoopEnd) (wr : World) : Prop :=
  ∃ k, sent c = sent c0 ++ take k (outbound_ (session wr)) ∧
    (en ≠ SendFailed → length (outbound_ (session wr)) ≤ k).

Lemma loop_sent_all c0 c en wr : sent c = sent c0 ++ outbound_ (session wr) → loop_sent c0 c en wr.
Proof. intros E. exists (length (outbound_ (session wr))). by rewrite E, firstn_all. Qed.

Lemma session_loop_inv turns k w0 c0 w c B wr :
  loop_inv w0 c0 w c B wr → sent c = sent c0 ++ outbound_ (session wr) →
  ∃ en w' c' B' wr', session_loop turns k w c = Some (en, w', c') ∧
    loop_inv w0 c0 w' c' B' wr' ∧ loop_sent c0 c' en wr'.
Proof.
  revert k w c B wr. induction turns as [|turns IH]; intros k w c B wr Hi Hs; cbn [session_loop].
  { eexists _, _, _, B, wr. split_and!; [done|done|by apply loop_sent_all]. }
  destruct (running k && _); last first.
  { eexists _, _, _, B, wr. split_and!; [done|done|by apply loop_sent_all]. }
  unfold recv_some. destruct (os_recv kRecvBuffer c) as [[n bytes] c1] eqn:E.
  destruct (os_recv_law _ _ _ _ _ E) as (Hn & Hlen & Hby & Hr & Hs1). rewrite <- Hs1 in Hs.
  destruct (Z.leb_spec n 0) as [Hz|Hz].
  { assert (bytes = []) as -> by (apply length_zero_iff_nil; lia). rewrite app_nil_r in Hr.
    eexists _, _, _, B, wr. split_and!; [done| |by apply loop_sent_all].
    destruct Hi; constructor; congruence || done. }
  destruct (decide (error_ (framer_ (session w)) = NoError)) as [He|He]; last first.
  { pose proof (loop_inv_error _ _ _ _ _ _ _ c1 Hi He Hr) as Hi'.
    unfold has_error. cbn [session with_session on_bytes framer_]. rewrite feed_error by done.
    rewrite bool_decide_eq_true_2 by done.
    eexists _, _, _, _, wr. split_and!; [done| |by apply loop_sent_all].
    revert Hi'. unfold on_bytes, with_session. simpl. by rewrite feed_error. }
  destruct (loop_inv_pump _ _ _ _ _ _ bytes c1 Hi He) as (w2 & wr' & Hp & Hi' & Ho); [lia|done|done|].
  rewrite no_error_feed by done. rewrite Hp. cbn [take_outbound]. cbv beta iota zeta.
  destruct (outbound_ (session w2)) as [|b out] eqn:Eo.
  { rewrite app_nil_r in Ho. apply (IH (S k) _ _ _ _ Hi'). congruence. }
  destruct (send_all_exact (b :: out) c1) as (ok & c2 & j & -> & Hj & Hs2 & Hr2 & Hok).
  assert (loop_inv w0 c0 (with_session (take_outbound (session w2)).2 w2) c2 (B ++ bytes) wr') as Hi2.
  { destruct Hi'; constructor; congruence || done. }
  destruct ok.
  - apply (IH (S k) _ _ _ _ Hi2). rewrite Hs2, Hs, Ho, firstn_all2, app_assoc; [done|].
    by rewrite (proj1 Hok eq_refl).
  - eexists _, _, _, _, wr'. split_and!; [done|exact Hi2|].
    exists (length (outbound_ (session wr)) + j). split; [|done].
    by rewrite Hs2, Hs, Ho, take_app_add, app_assoc.
Qed.

(** *** Properties *)

(** C28: the server's loop implements one pump of the byte stream.  However the
    bytes [B] of a connection are cut into receives, and wherever the loop
    stops, the engine, the pool and the session are as if [B] had arrived at
    once and had been pumped once; the replies sent are those of that pump, in
    order, or a prefix of them if [send_all] failed; the loop never gets stuck
    and the engine stays well formed.  (For a server that no other session is
    using.) *)
Theorem session_loop_stream turns id e s gs sock :
  engine_ok e s gs →
  ∃ en w' sock' B wr gs',
    session_loop turns 0 (mkWorld (Session_new id) e s) sock = Some (en, w', sock') ∧
    received sock' = received sock ++ B ∧
    pump clock (mkWorld (on_bytes B (Session_new id)) e s) = Some wr ∧
    engine_ w' = engine_ wr ∧ sys w' = sys wr ∧ engine_ok (engine_ w') (sys w') gs' ∧
    state_ (session w') = state_ (session wr) ∧ client_id_ (session w') = client_id_ (session wr) ∧
    out_seq_ (session w') = out_seq_ (session wr) ∧ outbound_ (session w') = [] ∧
    loop_sent sock sock' en wr.
Proof.
  intros He. destruct (session_loop_inv turns 0 _ sock _ _ [] _ (loop_inv_new id e s gs sock He))
    as (en & w' & c' & B & wr & Hl & [Hb (ms & f & Hd & Ha & _ & _) Hf [gs' Hg] Hw Ht] & Hs);
    [by rewrite app_nil_r|].
  exists en, w', c', B, (rebase f [] wr), gs'. rewrite Hl.
  rewrite (pump_fold clock (mkWorld (on_bytes B (Session_new id)) e s) ms f) by done.
  change (mkWorld (on_bytes B (Session_new id)) e s)
    with (rebase (mkFramer B NoError) [] (mkWorld (Session_new id) e s)).
  rewrite handle_all_rebase, Ha. split_and!; try done; try (by rewrite <- Hw).
Qed.

(** C29: the memory of a session is bounded.  Whatever the client sends, between
    two receives the session's framer holds less than one message of the
    largest size (header and body) if it has no error, and at no time more than
    that and one receive buffer: not when the loop ends, and not when a receive
    has just been fed to it.  Nothing is left in the outbound buffer. *)
Theorem session_buffer_bounded turns id e s gs sock :
  engine_ok e s gs →
  ∃ en w' sock', session_loop turns 0 (mkWorld (Session_new id) e s) sock = Some (en, w', sock') ∧
    let f := framer_ (session w') in
    (has_error f = false → buffered_bytes f < kHeaderSize + kMaxBodySize) ∧
    (∀ bytes, length bytes ≤ kRecvBuffer →
      buffered_bytes (feed bytes f) < kHeaderSize + kMaxBodySize + kRecvBuffer) ∧
    outbound_ (session w') = [].
Proof.
  intros He. destruct (session_loop_inv turns 0 _ sock _ _ [] _ (loop_inv_new id e s gs sock He))
    as (en & w' & c' & B & wr & Hl & [_ _ Hf _ _ Ht] & _); [by rewrite app_nil_r|].
  exists en, w', c'. rewrite Hl. split; [done|]. split; [|split; [|done]]; last by intros bytes; apply framer_idle_feed.
  intros Hn. apply framer_idle_short; [done|]. unfold has_error in Hn.
  by apply bool_decide_eq_false, dec_stable in Hn.
Qed.
End server.

(** *** Witnesses *)

(** A logon and an order, cut in the middle of the order; the socket accepts
    three bytes at a time. *)
Definition ex_stream : list Z := wire 1 (LogonMsg 9) ++ wire 2 (NewOrder (ex_new 5 0 0 100 10)).
Definition ex_sock : Script := mkScript [take 20 ex_stream; drop 20 ex_stream] 3 [] [].
Definition ex_start : World := mkWorld (Session_new 1) ex_engine ex_s.

Example ex_session_sends :
  (λ r, (r.1.1, sc_sent r.2)) <$> session_loop ex_clock0 (λ _, true) 10 0 ex_start ex_sock =
    Some (RecvEnd, wires (numbered 0 [LogonMsg 9; OrderAckMsg 5 5])).
Proof. by vm_compute. Qed.

(** [has_error] is tested between [on_bytes] and [pump], but only [next], in
    the pump, finds errors: a peer whose header is malformed is not
    disconnected until it sends again. *)
Example ex_bad_frame_waits :
  (λ r, (r.1.1, has_error (framer_ (session r.1.2)))) <$>
    session_loop ex_clock0 (λ _, true) 1 0 ex_start (mkScript [replicate 8 0%Z; [0%Z]] 3 [] []) =
    Some (StillRunning, true) ∧
  (λ r, (r.1.1, has_error (framer_ (session r.1.2)))) <$>
    session_loop ex_clock0 (λ _, true) 2 0 ex_start (mkScript [replicate 8 0%Z; [0%Z]] 3 [] []) =
    Some (BadFrame, true).
Proof. by vm_compute. Qed.

Lemma session_loop_stream_witness :
  ∃ en w' sock' B wr gs',
    session_loop ex_clock0 (λ _, true) 10 0 ex_start ex_sock = Some (en, w', sock') ∧
    received sock' = received ex_sock ++ B ∧
    pump ex_clock0 (mkWorld (on_bytes B (Session_new 1)) ex_engine ex_s) = Some wr ∧
    engine_ w' = engine_ wr ∧ sys w' = sys wr ∧ engine_ok (engine_ w') (sys w') gs' ∧
    state_ (session w') = state_ (session wr) ∧ client_id_ (session w') = client_id_ (session wr) ∧
    out_seq_ (session w') = out_seq_ (session wr) ∧ outbound_ (session w') = [] ∧
    loop_sent ex_sock sock' en wr.
Proof. apply (session_loop_stream ex_clock0 (λ _, true) 10 1 ex_engine ex_s ex_gs ex_sock), ex_engine_ok. Defined.

Lemma session_buffer_bounded_witness :
  ∃ en w' sock', session_loop ex_clock0 (λ _, true) 10 0 ex_start ex_sock = Some (en, w', sock') ∧
    let f := framer_ (session w') in
    (has_error f = false → buffered_bytes f < kHeaderSize + kMaxBodySize) ∧
    (∀ bytes, length bytes ≤ kRecvBuffer →
      buffered_bytes (feed bytes f) < kHeaderSize + kMaxBodySize + kRecvBuffer) ∧
    outbound_ (session w') = [].
Proof. apply (session_buffer_bounded ex_clock0 (λ _, true) 10 1 ex_engine ex_s ex_gs ex_sock), ex_engine_ok. Defined.
