(* ===== verification/Client.v ===== *)
(** * The TCP client (include/ordbk/gateway/client.hpp, src/gateway/client.cpp)

    [send] numbers, encodes and sends a message; [recv] takes a message off the
    framer, receiving more bytes until there is one.  The file ends with the
    client and the server's session loop at the two ends of a connection. *)

From S2P Require Import Prelude StdMap Types Heap Pool PriceLevel OrderBook Latency Matcher.
From S2P Require Import MatchSpec SubmitSpec Codec Framer Session Contract Registry Engine Dispatcher Typed.
From S2P Require Import Pumping Tcp Server.

Record Client (Conn : Type) := mkClient {
  sock_ : Conn;
  cframer_ : Framer;
  cout_seq_ : Z }.
Arguments mkClient {Conn} _ _ _.
Arguments sock_ {Conn} _.
Arguments cframer_ {Conn} _.
Arguments cout_seq_ {Conn} _.

(** ** The framer under the client *)

Lemma drain_next buf m f :
  next (mkFramer buf NoError) = Some (Some m, f) →
  drain (mkFramer buf NoError) = let* (ms, f') := drain f in Some (m :: ms, f').
Proof.
  intros E. destruct (next_total buf) as (m0 & f0 & E0 & Hc). rewrite E in E0. injection E0 as <- <-.
  inversion Hc as [| |b Hb Hd]; subst. unfold drain at 1. cbn [drain_loop fbuf]. rewrite E. unfold drain. cbn [fbuf].
  assert (length (drop (buf_total buf) buf) < length buf) as Hlt.
  { rewrite length_drop. unfold buf_total, kHeaderSize in *. lia. }
  destruct (drain_loop_fuel _ _ Hlt) as (ms & f & -> & E2 & _).
  by rewrite E2 by lia.
Qed.

Lemma next_defined f :
  ∃ m f', next f = Some (m, f') ∧ (m = None → error_ f' = NoError → f' = f).
Proof.
  destruct f as [buf e]. destruct (decide (e = NoError)) as [->|Hne].
  - destruct (next_total buf) as (m & f & E & Hc). exists m, f. split; [done|]. by inversion Hc; subst.
  - exists None, (mkFramer buf e). unfold next. by rewrite decide_True.
Qed.

Lemma drain_none f f' : next f = Some (None, f') → drain f = Some ([], f').
Proof. intros E. unfold drain. cbn [drain_loop]. by rewrite E. Qed.

(** Draining a prefix of encoded messages gives a prefix of them. *)
Lemma drain_wires n qs :
  Forall body_ok qs →
  ∃ ms, drain (mkFramer (wires (numbered n qs)) NoError) = Some (ms, Framer_new) ∧ body <$> ms = qs.
Proof.
  intros Hok. exists ((λ m, mkDecoded (header_of m.1 m.2) m.2) <$> numbered n qs). split.
  - pose proof (receive_wires [wires (numbered n qs)] _ (numbered_ok n qs Hok) (app_nil_r _)) as H.
    cbn [receive] in H. change (feed _ Framer_new) with (mkFramer (wires (numbered n qs)) NoError) in H.
    destruct (drain _) as [[ms f]|]; [|done]. by rewrite app_nil_r in H.
  - rewrite <- list_fmap_compose. rewrite <- (numbered_bodies n qs) at 2. by apply list_fmap_ext.
Qed.

Lemma drain_wires_prefix n qs B ms f :
  Forall body_ok qs → B `prefix_of` wires (numbered n qs) → drain (mkFramer B NoError) = Some (ms, f) →
  body <$> ms `prefix_of` qs ∧ error_ f = NoError ∧ (B = wires (numbered n qs) → body <$> ms = qs ∧ f = Framer_new).
Proof.
  intros Hok [more Hm] Hd. destruct (drain_wires n qs Hok) as (all & Ha & Hb).
  destruct (drain_app B more ms f Hd) as (ms' & f1 & E1 & f2 & E2 & He & Hs).
  rewrite <- Hm, Ha in E2. injection E2 as -> <-. split_and!.
  - rewrite <- Hb, fmap_app. by apply prefix_app_r.
  - destruct (decide (error_ f = NoError)) as [|Hne]; [done|].
    rewrite feed_error, drain_error in E1 by done. injection E1 as <- <-. by rewrite <- He in Hne.
  - intros ->. rewrite Hd in Ha. by injection Ha as -> ->.
Qed.

Lemma wires_cons m ms : wires (m :: ms) = wire m.1 m.2 ++ wires ms.
Proof. done. Qed.

Section client.
Context {Conn : Type} `{!TcpSocket Conn}.
Abbreviation Cl := (Client Conn).

Definition Client_new (s : Conn) : Cl := mkClient s Framer_new 0.

Definition send (b : MessageBody) (c : Cl) : res (bool * Cl) :=
  let n := u32 (cout_seq_ c + 1) in
  let* bytes := encode n b in
  let* (ok, s) := send_all bytes (sock_ c) in
  Some (ok, mkClient s (cframer_ c) n).

(** The loop of [recv], one turn per unit of fuel. *)
Fixpoint recv_loop (fuel : nat) (c : Cl) : res (option DecodedMessage * Cl) :=
  match fuel with
  | 0 => None
  | S fuel' =>
      let* (m, f) := next (cframer_ c) in
      match m with
      | Some m => Some (Some m, mkClient (sock_ c) f (cout_seq_ c))
      | None =>
          if has_error f then Some (None, mkClient (sock_ c) f (cout_seq_ c))
          else
            let '(n, bytes, s) := recv_some kRecvBuffer (sock_ c) in
            if (n <=? 0)%Z then Some (None, mkClient s f (cout_seq_ c))
            else recv_loop fuel' (mkClient s (feed bytes f) (cout_seq_ c))
      end
  end.

(** A turn that does not end the loop receives a byte, and a framer that waits
    holds less than a message of the largest size. *)
Definition recv (c : Cl) : res (option DecodedMessage * Cl) :=
  recv_loop (S (kHeaderSize + kMaxBodySize)) c.

(** A client that sends ([Some b]) and receives ([None]) until a call fails. *)
Fixpoint client_run (ops : list (option MessageBody)) (c : Cl) : res (bool * list DecodedMessage * Cl) :=
  match ops with
  | [] => Some (true, [], c)
  | Some b :: ops' =>
      let* (ok, c1) := send b c in
      if ok : bool then client_run ops' c1 else Some (false, [], c1)
  | None :: ops' =>
      let* (m, c1) := recv c in
      match m with
      | None => Some (false, [], c1)
      | Some m =>
          let* (okms, c2) := client_run ops' c1 in
          Some (okms.1, m :: okms.2, c2)
      end
  end.

Context `{!TcpLaws Conn}.

(** [ms] are the messages returned since the connection was in state [c0]; with
    those complete in the framer they are the messages in the bytes received. *)
Definition client_inv (c0 : Conn) (c : Cl) (ms : list DecodedMessage) : Prop :=
  ∃ B rest f f', received (sock_ c) = received c0 ++ B ∧
    drain (cframer_ c) = Some (rest, f) ∧ drain (mkFramer B NoError) = Some (ms ++ rest, f') ∧
    error_ f' = error_ f ∧ (error_ f = NoError → f' = f).

Lemma client_inv_new s : client_inv s (Client_new s) [].
Proof. exists [], [], Framer_new, Framer_new. by rewrite app_nil_r. Qed.

Lemma client_inv_next c0 s f n ms m f1 :
  client_inv c0 (mkClient s f n) ms → next f = Some (Some m, f1) → client_inv c0 (mkClient s f1 n) (ms ++ [m]).
Proof.
  intros (B & rest & f2 & f3 & Hr & Hd & Hb & He & Hs) E. destruct f as [buf e].
  destruct (decide (e = NoError)) as [->|Hne]; last first.
  { unfold next in E. by rewrite decide_True in E. }
  cbn [cframer_ sock_] in *. rewrite (drain_next _ _ _ E) in Hd.
  destruct (drain f1) as [[rest1 f4]|] eqn:E1; [|done]. injection Hd as <- <-.
  exists B, rest1, f4, f3. rewrite <- app_assoc. by split_and!.
Qed.

Lemma client_inv_feed c0 s f n ms bytes s' :
  client_inv c0 (mkClient s f n) ms → next f = Some (None, f) → error_ f = NoError →
  received s' = received s ++ bytes → client_inv c0 (mkClient s' (feed bytes f) n) ms.
Proof.
  intros (B & rest & f2 & f3 & Hr & Hd & Hb & He & Hs) Hn Hok Hr'. cbn [cframer_ sock_] in *.
  rewrite (drain_none _ _ Hn) in Hd. injection Hd as <- <-. rewrite app_nil_r in Hb.
  rewrite (Hs Hok) in Hb. destruct (drain_app B bytes ms f Hb) as (ms1 & f1 & E1 & f4 & E2 & He2 & Hs2).
  exists (B ++ bytes), ms1, f1, f4. simpl. by rewrite Hr', Hr, app_assoc.
Qed.

(** A wait that ends without a message. *)
Lemma client_inv_end c0 s f n ms f1 s' :
  client_inv c0 (mkClient s f n) ms → next f = Some (None, f1) → received s' = received s →
  client_inv c0 (mkClient s' f1 n) ms.
Proof.
  intros (B & rest & f2 & f3 & Hr & Hd & Hb & He & Hs) Hn Hr'. cbn [cframer_ sock_] in *.
  rewrite (drain_none _ _ Hn) in Hd. injection Hd as <- <-.
  exists B, [], f1, f3. simpl. rewrite Hr'. split_and!; try done.
  destruct (decide (error_ f1 = NoError)) as [Hok|Hne]; [|by apply drain_error].
  destruct (next_defined f) as (? & ? & E & Hm). rewrite Hn in E. injection E as <- <-.
  rewrite (Hm eq_refl Hok) in Hn |- *. by apply drain_none.
Qed.

Lemma recv_loop_spec fuel c0 c ms :
  client_inv c0 c ms → 0 < fuel → kHeaderSize + kMaxBodySize < fuel + buffered_bytes (cframer_ c) →
  ∃ m c', recv_loop fuel c = Some (m, c') ∧ client_inv c0 c' (ms ++ option_list m) ∧
    sent (sock_ c') = sent (sock_ c) ∧ cout_seq_ c' = cout_seq_ c.
Proof.
  revert c. induction fuel as [|fuel IH]; intros [s f n] Hi Hf Hb; [lia|]. cbn [recv_loop cframer_ sock_ cout_seq_] in *.
  destruct (next_defined f) as (m & f1 & E & Hm). rewrite E. destruct m as [m|].
  { eexists _, _. split; [done|]. split_and!; [by apply (client_inv_next _ _ _ _ _ _ _ Hi)|done|done]. }
  unfold has_error. case_bool_decide as He.
  { eexists _, _. split; [done|]. rewrite app_nil_r. split_and!; [by eapply client_inv_end|done|done]. }
  pose proof (Hm eq_refl He) as ->. unfold recv_some.
  destruct (os_recv kRecvBuffer s) as [[k bytes] s1] eqn:Er.
  destruct (os_recv_law _ _ _ _ _ Er) as (Hk & Hlen & _ & Hr & Hs1). destruct (Z.leb_spec k 0) as [Hz|Hz].
  { eexists _, _. split; [done|]. simpl. rewrite app_nil_r. split_and!; [|done|done].
    eapply client_inv_end; [done|done|]. rewrite Hr. rewrite (nil_length_inv bytes) by lia. apply app_nil_r. }
  pose proof (next_waits_short f He E) as Hshort.
  destruct (IH (mkClient s1 (feed bytes f) n)) as (m & c' & -> & Hi' & Hs' & Hn'); [by eapply client_inv_feed|lia| |].
  { cbn [cframer_]. unfold feed, buffered_bytes in *. rewrite decide_True by done. cbn [fbuf]. rewrite length_app. lia. }
  exists m, c'. simpl in Hs', Hn'. split_and!; [done|done|congruence|done].
Qed.

Lemma recv_spec c0 c ms :
  client_inv c0 c ms →
  ∃ m c', recv c = Some (m, c') ∧ client_inv c0 c' (ms ++ option_list m) ∧
    sent (sock_ c') = sent (sock_ c) ∧ cout_seq_ c' = cout_seq_ c.
Proof. intros Hi. apply recv_loop_spec; [done|lia|lia]. Qed.

Lemma send_spec b c :
  ∃ ok c' k, send b c = Some (ok, c') ∧ cframer_ c' = cframer_ c ∧ cout_seq_ c' = u32 (cout_seq_ c + 1) ∧
    received (sock_ c') = received (sock_ c) ∧
    sent (sock_ c') = sent (sock_ c) ++ take k (wire (u32 (cout_seq_ c + 1)) b) ∧
    k ≤ length (wire (u32 (cout_seq_ c + 1)) b) ∧ (ok = true → k = length (wire (u32 (cout_seq_ c + 1)) b)).
Proof.
  unfold send. rewrite encode_spec. simpl.
  destruct (send_all_exact (wire (u32 (cout_seq_ c + 1)) b) (sock_ c)) as (ok & s & k & -> & Hk & Hs & Hr & Hok).
  eexists ok, _, k. split; [done|]. split_and!; try done. by intros ->%Hok.
Qed.

Lemma client_run_spec ops c0 c ms :
  client_inv c0 c ms →
  ∃ ok ms' c', client_run ops c = Some (ok, ms', c') ∧ client_inv c0 c' (ms ++ ms') ∧
    ∃ k, sent (sock_ c') = sent (sock_ c) ++ take k (wires (numbered (cout_seq_ c) (omap id ops))) ∧
      (ok = true → length (wires (numbered (cout_seq_ c) (omap id ops))) ≤ k).
Proof.
  revert c ms. induction ops as [|[b|] ops IH]; intros c ms Hi; cbn [client_run].
  - exists true, [], c. rewrite app_nil_r. split_and!; [done|done|]. exists 0. by rewrite app_nil_r.
  - destruct (send_spec b c) as (ok & c1 & k & -> & Hf & Hn & Hr & Hs & Hk & Hok).
    assert (client_inv c0 c1 ms) as Hi1.
    { destruct Hi as (B & rest & f & f' & Hb & Hi). exists B, rest, f, f'. by rewrite Hr, Hf. }
    change (omap id (Some b :: ops)) with (b :: omap id ops). cbn [numbered]. rewrite wires_cons. cbn [fst snd].
    destruct ok.
    + destruct (IH c1 ms Hi1) as (ok & ms' & c' & -> & Hi' & j & Hs' & Hj).
      exists ok, ms', c'. split_and!; [done|done|].
      exists (length (wire (u32 (cout_seq_ c + 1)) b) + j). rewrite Hn in Hs', Hj. rewrite Hs', Hs.
      rewrite Hok, firstn_all, take_app_add, app_assoc, length_app by done. split; [done|]. intros ?%Hj.
      cbn [fst snd]. lia.
    + exists false, [], c1. rewrite app_nil_r. split_and!; [done|done|].
      exists k. split; [|done]. by rewrite Hs, take_app_le by lia.
  - destruct (recv_spec c0 c ms Hi) as (m & c1 & -> & Hi1 & Hs & Hn). destruct m as [m|].
    + destruct (IH c1 _ Hi1) as (ok & ms' & c' & -> & Hi' & j & Hs' & Hj). rewrite <- app_assoc in Hi'.
      exists ok, (m :: ms'), c'. split_and!; [done|done|]. exists j. rewrite Hn in Hs', Hj. by rewrite Hs', Hs.
    + exists false, [], c1. split_and!; [done|done|]. exists 0. by rewrite Hs, take_0, app_nil_r.
Qed.

(** A client whose peer sends [replies]. *)
Lemma client_got c0 c got replies :
  client_inv c0 c got → received c0 = [] → Forall body_ok replies →
  received (sock_ c) `prefix_of` wires (numbered 0 replies) →
  body <$> got `prefix_of` replies ∧ error_ (cframer_ c) = NoError ∧
  (received (sock_ c) = wires (numbered 0 replies) →
   ∃ rest, drain (cframer_ c) = Some (rest, Framer_new) ∧ body <$> got ++ rest = replies).
Proof.
  intros (B & rest & f & f' & HB & Hd & Hdb & Hef & Hff) Hc Hok. rewrite Hc in HB. simpl in HB. rewrite HB.
  intros Hp. destruct (drain_wires_prefix 0 replies B _ f' Hok Hp Hdb) as (Hpre & Herr & Hall).
  rewrite Hef in Herr. split_and!.
  - etrans; [|exact Hpre]. rewrite fmap_app. by apply prefix_app_r.
  - destruct (decide (error_ (cframer_ c) = NoError)) as [|Hne]; [done|].
    rewrite drain_error in Hd by done. by injection Hd as <- <-.
  - intros [Ha Hnew]%Hall. exists rest. by rewrite Hd, <- (Hff Herr), Hnew.
Qed.
End client.

(** What a fresh session sends for the messages [asked]. *)
Lemma handle_all_replies clock asked id e s wr :
  sys_typed s → Forall body_ok (body <$> asked) →
  handle_all clock asked (mkWorld (Session_new id) e s) = Some wr →
  ∃ replies, Forall body_ok replies ∧ outbound_ (session wr) = wires (numbered 0 replies).
Proof.
  intros Hs Hb Ha. rewrite Forall_fmap in Hb.
  destruct (handle_all_typed clock asked (mkWorld (Session_new id) e s) wr) as [_ (bs & Hbs & Hw)];
    [by split; [|compute]|exact Hb|done|].
  exists bs. split; [done|]. rewrite Hw. simpl.
  by destruct (sessions_after_same asked (Session_new id)) as [-> ->].
Qed.

(** ** Its socket: the constructor and the destructor *)

Section socket.
Context {OS : Type} `{!SocketApi OS} `{!SocketLaws OS}.

Definition Client_connect (host : String.string) (port : Z) (os : OS) : (Z + SocketError) * OS :=
  connect_to host port os.
Definition Client_destroy (sock : Z) (os : OS) : OS :=
  if negb (sock =? kInvalidSocket)%Z then close_socket sock os else os.

(** A client leaves no descriptor behind, whether or not it connects. *)
Lemma client_closes host port os :
  match Client_connect host port os with
  | (inl sock, os') => fds (Client_destroy sock os') = fds os
  | (inr _, os') => fds os' = fds os
  end.
Proof.
  destruct (open_no_leak port 0 host os) as [_ H]. unfold Client_connect, Client_destroy.
  destruct (connect_to host port os) as [[sock|] os']; [|done]. destruct H as (Hs & Hn & Hf). simpl in Hf.
  rewrite (proj2 (Z.eqb_neq _ _) Hs). simpl. unfold close_socket. rewrite os_close_law. set_solver.
Qed.
End socket.

(** ** A client and a server's session at the two ends of a connection *)

Section end_to_end.
Context {CConn SConn : Type} `{!TcpSocket CConn} `{!TcpLaws CConn} `{!TcpSocket SConn} `{!TcpLaws SConn}.
Variable clock : nat → Z.
Variable running : nat → bool.

(** C30: end to end.  A client makes calls [ops] of [send] and [recv] in any
    order, the server serves it; the sockets deliver to each end a prefix of
    what the other has sent, in pieces of any size, and may fail at any time.
    Neither end gets stuck, and every [recv] ends.  The server has handled a
    prefix of the client's requests, in order and each once, all of them if
    the bytes arrived; and [recv] has returned a prefix of the replies to
    them, in order and each once, without a framing error; if all the bytes
    arrived, the replies not returned yet are complete in the framer. *)
Theorem client_server_end_to_end ops turns id e s gs (cs : CConn) (ss : SConn) :
  engine_ok e s gs → sys_typed s → Forall body_ok (omap Datatypes.id ops) →
  sent cs = [] → received cs = [] → sent ss = [] → received ss = [] →
  let w0 := mkWorld (Session_new id) e s in
  ∃ ok got c en w ss', client_run ops (Client_new cs) = Some (ok, got, c) ∧
    session_loop clock running turns 0 w0 ss = Some (en, w, ss') ∧
    (received ss' `prefix_of` sent (sock_ c) → received (sock_ c) `prefix_of` sent ss' →
     ∃ asked wr replies, handle_all clock asked w0 = Some wr ∧
       engine_ w = engine_ wr ∧ sys w = sys wr ∧
       body <$> asked `prefix_of` omap Datatypes.id ops ∧
       (ok = true → received ss' = sent (sock_ c) → body <$> asked = omap Datatypes.id ops) ∧
       outbound_ (session wr) = wires (numbered 0 replies) ∧
       body <$> got `prefix_of` replies ∧ error_ (cframer_ c) = NoError ∧
       (en ≠ SendFailed → received (sock_ c) = sent ss' →
        ∃ rest, drain (cframer_ c) = Some (rest, Framer_new) ∧ body <$> got ++ rest = replies)).
Proof.
  intros He Hty Hops Hcs Hcr Hss Hsr w0.
  destruct (client_run_spec ops cs (Client_new cs) [] (client_inv_new cs))
    as (ok & got & c & Hrun & Hi & k & Hsent & Hk).
  destruct (session_loop_inv clock running turns 0 w0 ss w0 ss [] w0 (loop_inv_new clock id e s gs ss He))
    as (en & w & ss' & SB & wr & Hl & [HSB (asked & fs & Hds & Ha & _ & _) _ _ Hw _] & k' & Hsent' & Hk');
    [by rewrite app_nil_r|].
  exists ok, got, c, en, w, ss'. split_and!; [done|done|]. cbn [Client_new sock_ cout_seq_] in Hsent, Hk.
  rewrite Hcs, app_nil_l in Hsent. rewrite Hss, app_nil_l in Hsent'. rewrite Hsr, app_nil_l in HSB.
  rewrite HSB, Hsent, Hsent'. intros Hp1 Hp2.
  destruct (drain_wires_prefix 0 _ SB asked fs Hops) as (Hask & _ & Hall); [|done|].
  { etrans; [exact Hp1|apply prefix_take]. }
  destruct (handle_all_replies clock asked id e s wr Hty) as (replies & Hrep & Hout); [|done|].
  { destruct Hask as [? E]. rewrite E in Hops. by apply Forall_app in Hops as [? _]. }
  rewrite Hout in Hp2, Hk' |- *.
  destruct (client_got cs c got replies Hi Hcr Hrep) as (Hg1 & Hg2 & Hg3).
  { etrans; [exact Hp2|apply prefix_take]. }
  exists asked, wr, replies. split_and!; try done; try (by rewrite <- Hw).
  - intros Hok HB. apply Hall. by rewrite HB, firstn_all2 by auto.
  - intros Hen HB. apply Hg3. by rewrite HB, firstn_all2 by auto.
Qed.
End end_to_end.

(** *** Witnesses *)

(** Log on, wait, send an order, wait; each side gets what the other sends, in
    pieces. *)
Definition ex_ops : list (option MessageBody) :=
  [Some (LogonMsg 9); None; Some (NewOrder (ex_new 5 0 0 100 10)); None].
Definition ex_replies : list Z := wires (numbered 0 [LogonMsg 9; OrderAckMsg 5 5]).
Definition ex_client_sock : Script := mkScript [take 10 ex_replies; drop 10 ex_replies] 7 [] [].

(** Both directions deliver everything, and the client gets both replies. *)
Example ex_exchange :
  ∃ ok got c en w ss', client_run ex_ops (Client_new ex_client_sock) = Some (ok, got, c) ∧
    session_loop ex_clock0 (λ _, true) 10 0 ex_start ex_sock = Some (en, w, ss') ∧
    received ss' = sent (sock_ c) ∧ received (sock_ c) = sent ss' ∧
    ok = true ∧ body <$> got = [LogonMsg 9; OrderAckMsg 5 5].
Proof. eexists _, _, _, _, _, _. by split_and!; vm_compute. Qed.

Lemma client_server_end_to_end_witness :
  let w0 := mkWorld (Session_new 1) ex_engine ex_s in
  ∃ ok got c en w ss', client_run ex_ops (Client_new ex_client_sock) = Some (ok, got, c) ∧
    session_loop ex_clock0 (λ _, true) 10 0 w0 ex_sock = Some (en, w, ss') ∧
    (received ss' `prefix_of` sent (sock_ c) → received (sock_ c) `prefix_of` sent ss' →
     ∃ asked wr replies, handle_all ex_clock0 asked w0 = Some wr ∧
       engine_ w = engine_ wr ∧ sys w = sys wr ∧
       body <$> asked `prefix_of` omap id ex_ops ∧
       (ok = true → received ss' = sent (sock_ c) → body <$> asked = omap id ex_ops) ∧
       outbound_ (session wr) = wires (numbered 0 replies) ∧
       body <$> got `prefix_of` replies ∧ error_ (cframer_ c) = NoError ∧
       (en ≠ SendFailed → received (sock_ c) = sent ss' →
        ∃ rest, drain (cframer_ c) = Some (rest, Framer_new) ∧ body <$> got ++ rest = replies)).
Proof.
  apply (client_server_end_to_end ex_clock0 (λ _, true) ex_ops 10 1 ex_engine ex_s ex_gs ex_client_sock ex_sock);
    [apply ex_engine_ok|apply ex_world_typed| |reflexivity..].
  change (Forall body_ok [LogonMsg 9; NewOrder (ex_new 5 0 0 100 10)]).
  repeat first [apply Forall_cons; split | apply Forall_nil]; vm_compute; intuition congruence.
Defined.
