(* ===== verification/Lifecycle.v ===== *)
(** * The threads of the TCP server (include/ordbk/gateway/server.hpp, src/gateway/server.cpp)

    [start], [stop], [accept_loop] and the bookkeeping of [session_loop] as a
    transition system: the thread that owns the server, the acceptor and one
    thread per connection, each with its program counter, over the server's
    members and the descriptors that are open.  A descriptor that was closed
    may be handed out again.  What [recv], [accept], the pump and [send_all] do
    inside is in the files Tcp and Server; here they return an arbitrary
    allowed value.  A critical section is one step, except the one of [stop],
    whose calls of [close] other threads can see. *)

From S2P Require Import Prelude Tcp.

(** [session_loop]: the test of the loop, [recv_some], the work on what was
    received, [close_socket], the erasure, the end. *)
Inductive SessionPc := TTest | TRecv | TWork | TClose | TErase | TDone.
Record SessionThread := mkThread { tsock : Z; tsid : Z; tpc : SessionPc }.

(** [accept_loop]: no joinable thread, the test of the loop, reading
    [listener_], in [accept], back from it with a socket, [push_back],
    [emplace_back], the end. *)
Inductive AcceptPc :=
| ANone | ATest | ACall | AAccept (l : Z) | AGot (s : Z) | APush (s sid : Z) | ASpawn (s sid : Z) | AExit.

(** The owner: in no call; in [start] before [listen_on] and before the
    acceptor is created; in [stop] before each of its statements. *)
Inductive OwnerPc :=
| CIdle | CListen | CSpawn | CCloseListener | CResetListener | CLock | CClosing (todo : list Z)
| CJoinAcc | CJoin (i : nat).

#[export] Instance SessionPc_eq_dec : EqDecision SessionPc.
Proof. solve_decision. Defined.
#[export] Instance OwnerPc_eq_dec : EqDecision OwnerPc.
Proof. solve_decision. Defined.

Record Server := mkServer {
  running_ : bool;
  listener_ : Z;
  session_sockets_ : list Z;
  next_session_id_ : Z;
  session_threads_ : list SessionThread;
  accept_thread_ : AcceptPc;
  owner : OwnerPc;
  open_fds : gset Z }.

Definition Server_new : Server := mkServer false kInvalidSocket [] 1 [] ANone CIdle ∅.

(** What happens next: a call by the owner, a step of a thread, or the return
    of a call of the operating system with its value. *)
Inductive Event :=
| EStart | EStop | EListen (r : Z) | EOwner | EAccept (r : Z) | EAcceptor
| ESession (i : nat) (closing : bool) | ERecv (i : nat) (n : Z) | EWork (i : nat) (failed : bool).

Definition set_owner (c : OwnerPc) (v : Server) : Server :=
  mkServer (running_ v) (listener_ v) (session_sockets_ v) (next_session_id_ v) (session_threads_ v)
    (accept_thread_ v) c (open_fds v).
Definition set_acceptor (a : AcceptPc) (v : Server) : Server :=
  mkServer (running_ v) (listener_ v) (session_sockets_ v) (next_session_id_ v) (session_threads_ v)
    a (owner v) (open_fds v).
Definition set_running (b : bool) (v : Server) : Server :=
  mkServer b (listener_ v) (session_sockets_ v) (next_session_id_ v) (session_threads_ v)
    (accept_thread_ v) (owner v) (open_fds v).
Definition set_listener (l : Z) (v : Server) : Server :=
  mkServer (running_ v) l (session_sockets_ v) (next_session_id_ v) (session_threads_ v)
    (accept_thread_ v) (owner v) (open_fds v).
Definition set_sockets (l : list Z) (v : Server) : Server :=
  mkServer (running_ v) (listener_ v) l (next_session_id_ v) (session_threads_ v)
    (accept_thread_ v) (owner v) (open_fds v).
Definition set_next_id (n : Z) (v : Server) : Server :=
  mkServer (running_ v) (listener_ v) (session_sockets_ v) n (session_threads_ v)
    (accept_thread_ v) (owner v) (open_fds v).
Definition set_threads (l : list SessionThread) (v : Server) : Server :=
  mkServer (running_ v) (listener_ v) (session_sockets_ v) (next_session_id_ v) l
    (accept_thread_ v) (owner v) (open_fds v).
Definition set_fds (s : gset Z) (v : Server) : Server :=
  mkServer (running_ v) (listener_ v) (session_sockets_ v) (next_session_id_ v) (session_threads_ v)
    (accept_thread_ v) (owner v) s.

Definition close_fd (s : Z) (v : Server) : Server := set_fds (open_fds v ∖ {[s]}) v.

(** [session_mu_] is held by [stop] while it closes the sockets. *)
Definition locked (v : Server) : bool := match owner v with CClosing _ => true | _ => false end.

(** [find] and [erase]. *)
Fixpoint erase_first (s : Z) (l : list Z) : list Z :=
  match l with
  | [] => []
  | x :: l' => if (x =? s)%Z then l' else x :: erase_first s l'
  end.

Definition start_call (v : Server) : option Server :=
  match owner v with
  | CIdle => if running_ v then Some v else Some (set_owner CListen (set_running true v))
  | _ => None
  end.

(** [listen_on] gives a new descriptor, or throws and [start] is left. *)
Definition start_listen (r : Z) (v : Server) : option Server :=
  match owner v with
  | CListen =>
      if (r =? kInvalidSocket)%Z then Some (set_owner CIdle v)
      else if decide (r ∈ open_fds v) then None
      else Some (set_owner CSpawn (set_listener r (set_fds ({[r]} ∪ open_fds v) v)))
  | _ => None
  end.

Definition stop_call (v : Server) : option Server :=
  match owner v with
  | CIdle => if running_ v then Some (set_owner CCloseListener (set_running false v)) else Some v
  | _ => None
  end.

Definition owner_step (v : Server) : option Server :=
  match owner v with
  | CIdle | CListen => None
  | CSpawn => Some (set_owner CIdle (set_acceptor ATest v))
  | CCloseListener =>
      if (listener_ v =? kInvalidSocket)%Z then Some (set_owner CLock v)
      else Some (set_owner CResetListener (close_fd (listener_ v) v))
  | CResetListener => Some (set_owner CLock (set_listener kInvalidSocket v))
  | CLock => Some (set_owner (CClosing (session_sockets_ v)) v)
  | CClosing (s :: todo) => Some (set_owner (CClosing todo) (close_fd s v))
  | CClosing [] => Some (set_owner CJoinAcc (set_sockets [] v))
  | CJoinAcc =>
      match accept_thread_ v with
      | ANone => Some (set_owner (CJoin 0) v)
      | AExit => Some (set_owner (CJoin 0) (set_acceptor ANone v))
      | _ => None
      end
  | CJoin i =>
      match session_threads_ v !! i with
      | None => Some (set_owner CIdle (set_threads [] v))
      | Some t => if decide (tpc t = TDone) then Some (set_owner (CJoin (S i)) v) else None
      end
  end.

Definition accept_step (v : Server) : option Server :=
  match accept_thread_ v with
  | ATest => Some (set_acceptor (if running_ v then ACall else AExit) v)
  | ACall => Some (set_acceptor (AAccept (listener_ v)) v)
  | AGot s =>
      if (s =? kInvalidSocket)%Z then Some (set_acceptor AExit v)
      else Some (set_acceptor (APush s (next_session_id_ v)) (set_next_id (u64 (next_session_id_ v + 1)) v))
  | APush s sid =>
      if locked v then None
      else Some (set_acceptor (ASpawn s sid) (set_sockets (session_sockets_ v ++ [s]) v))
  | ASpawn s sid =>
      Some (set_acceptor ATest (set_threads (session_threads_ v ++ [mkThread s sid TTest]) v))
  | ANone | AAccept _ | AExit => None
  end.

(** [accept] gives a new descriptor or fails.  A call that is under way when the
    listener is closed may still do either. *)
Definition accept_return (r : Z) (v : Server) : option Server :=
  match accept_thread_ v with
  | AAccept l =>
      if (r =? kInvalidSocket)%Z then Some (set_acceptor (AGot r) v)
      else if decide (r ∉ open_fds v) then
        Some (set_acceptor (AGot r) (set_fds ({[r]} ∪ open_fds v) v))
      else None
  | _ => None
  end.

Definition set_pc (i : nat) (t : SessionThread) (pc : SessionPc) (v : Server) : Server :=
  set_threads (<[i := mkThread (tsock t) (tsid t) pc]> (session_threads_ v)) v.

(** A step of session thread [i]; [closing] if its session is [Closing]. *)
Definition session_step (i : nat) (closing : bool) (v : Server) : option Server :=
  t ← session_threads_ v !! i;
  match tpc t with
  | TTest => Some (set_pc i t (if running_ v && negb closing then TRecv else TClose) v)
  | TClose => Some (set_pc i t TErase (close_fd (tsock t) v))
  | TErase =>
      if locked v then None
      else Some (set_pc i t TDone (set_sockets (erase_first (tsock t) (session_sockets_ v)) v))
  | TRecv | TWork | TDone => None
  end.

(** [recv_some] returns bytes, or 0 or less at the end or on an error; bytes may
    still come from a descriptor that is closed during the call. *)
Definition recv_return (i : nat) (n : Z) (v : Server) : option Server :=
  t ← session_threads_ v !! i;
  match tpc t with
  | TRecv =>
      if (n <=? 0)%Z then Some (set_pc i t TClose v) else Some (set_pc i t TWork v)
  | _ => None
  end.

(** [on_bytes], [pump], [send_all]: the loop goes on or is left. *)
Definition work_return (i : nat) (failed : bool) (v : Server) : option Server :=
  t ← session_threads_ v !! i;
  match tpc t with
  | TWork => Some (set_pc i t (if failed then TClose else TTest) v)
  | _ => None
  end.

Definition sstep (e : Event) : Server → option Server :=
  match e with
  | EStart => start_call
  | EStop => stop_call
  | EListen r => start_listen r
  | EOwner => owner_step
  | EAccept r => accept_return r
  | EAcceptor => accept_step
  | ESession i closing => session_step i closing
  | ERecv i n => recv_return i n
  | EWork i failed => work_return i failed
  end.

Definition server_step (v v' : Server) : Prop := ∃ e, sstep e v = Some v'.
Definition reachable (v : Server) : Prop := rtc server_step Server_new v.

(** A run of given events. *)
Fixpoint server_run (es : list Event) (v : Server) : option Server :=
  match es with
  | [] => Some v
  | e :: es' => v' ← sstep e v; server_run es' v'
  end.

(** ** The invariant *)

(** Threads that will still close their socket; those of them that may be
    blocked on it. *)
Definition holding (pc : SessionPc) : Prop := pc ≠ TErase ∧ pc ≠ TDone.
Definition blocking (pc : SessionPc) : Prop := pc = TRecv ∨ pc = TWork.

Definition acc_holds (a : AcceptPc) (s : Z) : Prop :=
  match a with AGot s' | APush s' _ | ASpawn s' _ => s' = s | _ => False end.

(** Somebody will close [s] without waiting for it. *)
Definition pending (v : Server) (s : Z) : Prop :=
  acc_holds (accept_thread_ v) s ∨
  ∃ t, t ∈ session_threads_ v ∧ tsock t = s ∧ (tpc t = TTest ∨ tpc t = TClose).

(** The entries of [session_sockets_] that will still be erased. *)
Definition acc_owes (a : AcceptPc) : list Z := match a with ASpawn s _ => [s] | _ => [] end.
Definition owed (ts : list SessionThread) : list Z := tsock <$> filter (λ t, tpc t ≠ TDone) ts.
Definition owing (v : Server) : list Z := owed (session_threads_ v) ++ acc_owes (accept_thread_ v).

Definition cleared (c : OwnerPc) : Prop := match c with CJoinAcc | CJoin _ => True | _ => False end.

(** No thread is in [accept] on an open descriptor. *)
Definition listener_dead (v : Server) : Prop := ∀ l, accept_thread_ v = AAccept l → l ∉ open_fds v.

Definition at_rest (v : Server) : Prop :=
  listener_ v = kInvalidSocket ∧ accept_thread_ v = ANone ∧ session_threads_ v = [].

(** What holds at each point of the owner. *)
Definition owner_ok (v : Server) : Prop :=
  match owner v with
  | CIdle => if running_ v then ∀ l, accept_thread_ v = AAccept l → l = listener_ v else at_rest v
  | CListen => running_ v = true ∧ at_rest v
  | CSpawn => running_ v = true ∧ accept_thread_ v = ANone ∧ session_threads_ v = []
  | CCloseListener => running_ v = false ∧ ∀ l, accept_thread_ v = AAccept l → l = listener_ v
  | CResetListener =>
      running_ v = false ∧ (accept_thread_ v = ACall → listener_ v ∉ open_fds v) ∧ listener_dead v
  | CLock | CClosing _ | CJoinAcc => running_ v = false ∧ listener_ v = kInvalidSocket ∧ listener_dead v
  | CJoin i =>
      running_ v = false ∧ listener_ v = kInvalidSocket ∧ accept_thread_ v = ANone ∧
      ∀ j t, j < i → session_threads_ v !! j = Some t → tpc t = TDone
  end.

Definition blocked_ok (v : Server) : Prop :=
  ∀ t, t ∈ session_threads_ v → blocking (tpc t) →
  match owner v with
  | CClosing todo => tsock t ∈ todo ∨ tsock t ∉ open_fds v ∨ pending v (tsock t)
  | CJoinAcc | CJoin _ => tsock t ∉ open_fds v ∨ pending v (tsock t)
  | _ => True
  end.

Record server_ok (v : Server) : Prop := {
  so_neg : kInvalidSocket ∉ open_fds v;
  so_owned s : s ∈ open_fds v →
    (s = listener_ v ∧ owner v ≠ CResetListener) ∨ acc_holds (accept_thread_ v) s ∨
    ∃ t, t ∈ session_threads_ v ∧ tsock t = s ∧ holding (tpc t);
  so_sub : session_sockets_ v ⊆+ owing v;
  so_all : ¬ cleared (owner v) → session_sockets_ v ≡ₚ owing v;
  so_owner : owner_ok v;
  so_blocked : blocked_ok v }.

Lemma server_ok_new : server_ok Server_new.
Proof. constructor; simpl; try done; set_solver. Qed.

(** *** Lemmas on the thread list *)

Lemma thread_split (ts : list SessionThread) i t t' :
  ts !! i = Some t → ∃ l1 l2, ts = l1 ++ t :: l2 ∧ <[i := t']> ts = l1 ++ t' :: l2.
Proof.
  intros H. exists (take i ts), (drop (S i) ts). rewrite take_drop_middle by done. split; [done|].
  rewrite insert_take_drop; [done|]. by apply lookup_lt_Some in H.
Qed.

Lemma elem_split (u t t' : SessionThread) l1 l2 : u ∈ l1 ++ t :: l2 → u = t ∨ u ∈ l1 ++ t' :: l2.
Proof. rewrite !elem_of_app, !elem_of_cons. tauto. Qed.
Lemma elem_middle (t : SessionThread) l1 l2 : t ∈ l1 ++ t :: l2.
Proof. rewrite elem_of_app, elem_of_cons. tauto. Qed.

Lemma owed_split l1 t l2 :
  owed (l1 ++ t :: l2) ≡ₚ (if decide (tpc t = TDone) then [] else [tsock t]) ++ owed (l1 ++ l2).
Proof.
  unfold owed. rewrite !filter_app, !fmap_app, filter_cons. case_decide as H1; case_decide as H2; try done.
  rewrite fmap_cons. simpl. by rewrite <- Permutation_middle.
Qed.

Lemma erase_first_perm s l : s ∈ l → l ≡ₚ s :: erase_first s l.
Proof.
  induction l as [|x l IH]; [by intros ?%elem_of_nil|]. cbn [erase_first]. intros H.
  destruct (Z.eqb_spec x s) as [->|Hne]; [done|]. apply elem_of_cons in H as [->|H]; [done|].
  rewrite (IH H) at 1. apply Permutation_swap.
Qed.
Lemma erase_first_not_in s l : s ∉ l → erase_first s l = l.
Proof.
  induction l as [|x l IH]; [done|]. cbn [erase_first]. intros [Hx Hl]%not_elem_of_cons.
  destruct (Z.eqb_spec x s) as [->|]; [done|]. by rewrite IH.
Qed.

(** Erasing an entry from what is owed. *)
Lemma erase_first_sub s l k : l ⊆+ s :: k → erase_first s l ⊆+ k.
Proof.
  intros H. destruct (decide (s ∈ l)) as [Hin|Hin].
  - rewrite (erase_first_perm s l Hin) in H. by apply (submseteq_app_inv_l _ _ [s]) in H.
  - rewrite erase_first_not_in by done. by apply submseteq_cons_r in H as [|(l' & Hl & _)];
      [|rewrite Hl in Hin; set_solver].
Qed.
Lemma erase_first_all s l k : l ≡ₚ s :: k → erase_first s l ≡ₚ k.
Proof.
  intros H. apply (Permutation_cons_inv (a:=s)). rewrite <- erase_first_perm; [done|]. rewrite H. set_solver.
Qed.

(** *** Preservation *)

(** The owner is where [blocked_ok] says nothing. *)
Definition early (c : OwnerPc) : Prop :=
  match c with CClosing _ | CJoinAcc | CJoin _ => False | _ => True end.

Lemma blocked_ok_early v : early (owner v) → blocked_ok v.
Proof. intros H t _ _. by destruct (owner v). Qed.

(** [blocked_ok] when no descriptor was opened, nothing pending was lost and no
    thread has become blocked. *)
Lemma blocked_ok_mono v v' :
  blocked_ok v → owner v' = owner v →
  (∀ s, s ∈ open_fds v' → s ∈ open_fds v ∧ (pending v s → pending v' s) ∨ pending v' s) →
  (∀ t, t ∈ session_threads_ v' → blocking (tpc t) →
    ∃ t0, t0 ∈ session_threads_ v ∧ blocking (tpc t0) ∧ tsock t0 = tsock t) →
  blocked_ok v'.
Proof.
  intros H Ho Hs Ht t Hin Hb. destruct (Ht t Hin Hb) as (t0 & Hin0 & Hb0 & Et).
  specialize (H t0 Hin0 Hb0). rewrite Ho. rewrite Et in H. specialize (Hs (tsock t)).
  destruct (decide (tsock t ∈ open_fds v')); destruct (owner v); naive_solver.
Qed.

(** What a change of one thread does to the owner's assertion. *)
Lemma owner_ok_thread v i t t' :
  owner_ok v → session_threads_ v !! i = Some t → tpc t ≠ TDone →
  owner_ok (set_threads (<[i := t']> (session_threads_ v)) v).
Proof.
  destruct v as [r l ss n ts a c F]. unfold owner_ok, at_rest. simpl. intros H Hi Hn.
  destruct c; simpl in *; try done.
  - destruct r; [done|]. by destruct H as (? & ? & ->).
  - by destruct H as (? & ? & ? & ->).
  - by destruct H as (? & ? & ->).
  - destruct H as (? & ? & ? & H). split_and!; try done. intros j u Hj Hu.
    apply list_lookup_insert_Some in Hu as [(-> & <- & _)|(_ & Hu)]; [|by eapply H].
    exfalso. by apply Hn, (H j).
Qed.

(** What closing a descriptor does to it. *)
Lemma owner_ok_close v s : owner_ok v → owner_ok (close_fd s v).
Proof.
  destruct v as [r l ss n ts a c F]. unfold owner_ok, at_rest, listener_dead. simpl.
  destruct c; simpl; try done; intros H; repeat split_and!; naive_solver set_solver.
Qed.

Lemma pc_cases pc : holding pc → (pc = TTest ∨ pc = TClose) ∨ blocking pc.
Proof. unfold holding, blocking. destruct pc; tauto. Qed.
Lemma blocking_waits pc : blocking pc → ¬ (pc = TTest ∨ pc = TClose).
Proof. intros [-> | ->]; by intros [? | ?]. Qed.

Lemma set_pc_ok v i t pc :
  server_ok v → session_threads_ v !! i = Some t → holding (tpc t) → holding pc →
  early (owner v) ∨ (blocking pc → blocking (tpc t)) →
  server_ok (set_pc i t pc v).
Proof.
  intros [Hneg Hown Hsub Hall How Hbl] Hi Ht Hpc He.
  destruct (thread_split _ i t (mkThread (tsock t) (tsid t) pc) Hi) as (l1 & l2 & E1 & E2).
  assert (owing (set_pc i t pc v) ≡ₚ owing v) as Hw.
  { unfold owing, set_pc. simpl. rewrite E2, E1, !owed_split. simpl.
    rewrite !decide_False by (apply Hpc || apply Ht). done. }
  constructor; try done.
  - intros s Hs. destruct (Hown s Hs) as [?|[?|(u & Hu & Hus & Hh)]]; [by left|by right; left|].
    right; right. simpl. rewrite E2. rewrite E1 in Hu.
    apply (elem_split _ _ (mkThread (tsock t) (tsid t) pc)) in Hu as [->|Hu]; [|by exists u].
    by eexists; split; [apply elem_middle|].
  - by rewrite Hw.
  - intros Hc. rewrite Hw. by apply Hall.
  - eapply owner_ok_thread; [done|done|apply Ht].
  - destruct He as [He|He]; [by apply blocked_ok_early|].
    apply (blocked_ok_mono v); [done|done| |]; simpl; rewrite ?E2.
    + intros s Hs. left. split; [done|]. intros [Ha|(u & Hu & Hus & Hup)]; [by left|].
      right. simpl. rewrite E2. rewrite E1 in Hu.
      apply (elem_split _ _ (mkThread (tsock t) (tsid t) pc)) in Hu as [->|Hu]; [|by exists u].
      eexists; split_and!; [apply elem_middle|done|]. simpl.
      destruct (pc_cases pc Hpc) as [?|Hb]; [done|]. by destruct (blocking_waits _ (He Hb)).
    + intros u Hu Hub. rewrite E1. apply (elem_split _ _ t) in Hu as [->|Hu]; [|by exists u].
      exists t. split_and!; [apply elem_middle|by apply He|done].
Qed.

Lemma running_early v : owner_ok v → running_ v = true → early (owner v).
Proof. unfold owner_ok. destruct (owner v); simpl; try done; intros [? _]; congruence. Qed.

Lemma close_step_ok v i t :
  server_ok v → session_threads_ v !! i = Some t → tpc t = TClose →
  server_ok (set_pc i t TErase (close_fd (tsock t) v)).
Proof.
  intros [Hneg Hown Hsub Hall How Hbl] Hi Ht. set (t' := mkThread (tsock t) (tsid t) TErase).
  destruct (thread_split _ i t t' Hi) as (l1 & l2 & E1 & E2).
  assert (owing (set_pc i t TErase (close_fd (tsock t) v)) ≡ₚ owing v) as Hw.
  { unfold owing, set_pc. simpl. fold t'. rewrite E2, E1, !owed_split. simpl.
    rewrite !decide_False by (by rewrite ?Ht). done. }
  constructor; simpl; fold t'; rewrite ?E2.
  - set_solver.
  - intros s [Hs Hne]%elem_of_difference. rewrite elem_of_singleton in Hne.
    destruct (Hown s Hs) as [?|[?|(u & Hu & Hus & Hh)]]; [by left|by right; left|]. right; right.
    rewrite E1 in Hu. apply (elem_split _ _ t') in Hu as [->|Hu]; [done|by exists u].
  - by rewrite Hw.
  - intros Hc. rewrite Hw. by apply Hall.
  - apply (owner_ok_thread (close_fd (tsock t) v) i t); [by apply owner_ok_close|done|by rewrite Ht].
  - apply (blocked_ok_mono v); [done|done| |]; simpl; fold t'; rewrite ?E2.
    + intros s [Hs Hne]%elem_of_difference. rewrite elem_of_singleton in Hne. left. split; [done|].
      intros [Ha|(u & Hu & Hus & Hup)]; [by left|]. right. simpl. fold t'. rewrite E2. rewrite E1 in Hu.
      apply (elem_split _ _ t') in Hu as [->|Hu]; [done|by exists u].
    + intros u Hu Hub. rewrite E1. apply (elem_split _ _ t) in Hu as [->|Hu]; [|by exists u].
      by destruct Hub.
Qed.

Lemma erase_step_ok v i t :
  server_ok v → session_threads_ v !! i = Some t → tpc t = TErase →
  server_ok (set_pc i t TDone (set_sockets (erase_first (tsock t) (session_sockets_ v)) v)).
Proof.
  intros [Hneg Hown Hsub Hall How Hbl] Hi Ht. set (t' := mkThread (tsock t) (tsid t) TDone).
  destruct (thread_split _ i t t' Hi) as (l1 & l2 & E1 & E2).
  set (v' := set_pc _ _ _ _).
  assert (owing v ≡ₚ tsock t :: owing v') as Hw.
  { unfold owing, v', set_pc. simpl. fold t'. rewrite E2, E1, !owed_split. simpl.
    by rewrite decide_False by (by rewrite Ht). }
  constructor; simpl; fold t'; rewrite ?E2.
  - done.
  - intros s Hs. destruct (Hown s Hs) as [?|[?|(u & Hu & Hus & Hh)]]; [by left|by right; left|]. right; right.
    rewrite E1 in Hu. apply (elem_split _ _ t') in Hu as [->|Hu]; [by destruct Hh|by exists u].
  - apply erase_first_sub. by rewrite <- Hw.
  - intros Hc. apply erase_first_all. rewrite <- Hw. by apply Hall.
  - apply (owner_ok_thread (set_sockets _ v) i t); [done|done|by rewrite Ht].
  - apply (blocked_ok_mono v); [done|done| |]; simpl; fold t'; rewrite ?E2.
    + intros s Hs. left. split; [done|].
      intros [Ha|(u & Hu & Hus & Hup)]; [by left|]. right. simpl. fold t'. rewrite E2. rewrite E1 in Hu.
      apply (elem_split _ _ t') in Hu as [->|Hu]; [|by exists u]. rewrite Ht in Hup. by destruct Hup.
    + intros u Hu Hub. rewrite E1. apply (elem_split _ _ t) in Hu as [->|Hu]; [|by exists u].
      by destruct Hub.
Qed.

Lemma session_step_ok i closing v v' : server_ok v → session_step i closing v = Some v' → server_ok v'.
Proof.
  unfold session_step. intros Hv. destruct (session_threads_ v !! i) as [t|] eqn:Hi; [|done]. simpl.
  destruct (tpc t) eqn:Ht; try done.
  - destruct (running_ v) eqn:Hr, closing; simpl; intros [= <-]; apply set_pc_ok; try done;
      rewrite ?Ht; try done; (by left; apply running_early; [apply Hv|]) || (right; by intros [?|?]).
  - intros [= <-]. by apply close_step_ok.
  - destruct (locked v); [done|]. intros [= <-]. by apply erase_step_ok.
Qed.

Lemma recv_return_ok i n v v' : server_ok v → recv_return i n v = Some v' → server_ok v'.
Proof.
  unfold recv_return. intros Hv. destruct (session_threads_ v !! i) as [t|] eqn:Hi; [|done]. simpl.
  destruct (tpc t) eqn:Ht; try done. destruct (n <=? 0)%Z; intros [= <-];
    apply set_pc_ok; rewrite ?Ht; try done; right; intros _; by left.
Qed.

Lemma work_return_ok i failed v v' : server_ok v → work_return i failed v = Some v' → server_ok v'.
Proof.
  unfold work_return. intros Hv. destruct (session_threads_ v !! i) as [t|] eqn:Hi; [|done]. simpl.
  destruct (tpc t) eqn:Ht; try done. destruct failed; intros [= <-];
    apply set_pc_ok; rewrite ?Ht; try done; right; intros _; by right.
Qed.

(** A step of the acceptor that keeps the socket it holds. *)
Lemma set_acceptor_ok a v :
  server_ok v → owner_ok (set_acceptor a v) → acc_owes a = acc_owes (accept_thread_ v) →
  (∀ s, s ∈ open_fds v → acc_holds (accept_thread_ v) s → acc_holds a s) →
  server_ok (set_acceptor a v).
Proof.
  intros [Hneg Hown Hsub Hall How Hbl] Ho Ha Hh. constructor; unfold owing; simpl; rewrite ?Ha; try done.
  - intros s Hs. destruct (Hown s Hs) as [?|[?|?]]; auto.
  - apply (blocked_ok_mono v); try done.
    + intros s Hs. left. split; [done|]. intros [?|?]; [left|right]; auto.
    + intros t Ht Hb. by exists t.
Qed.

Lemma set_next_id_ok n v : server_ok v → server_ok (set_next_id n v).
Proof. by intros []. Qed.

(** Where the owner can be while the acceptor is alive. *)
Lemma acceptor_alive v :
  owner_ok v → accept_thread_ v ≠ ANone →
  match owner v with
  | CIdle => running_ v = true
  | CListen | CSpawn | CJoin _ => False
  | _ => running_ v = false
  end.
Proof.
  unfold owner_ok, at_rest. intros H Ha.
  destruct (owner v); [destruct (running_ v)|..]; tauto.
Qed.

(** The assertion of the owner when the acceptor goes to a point that is in no
    call. *)
Lemma owner_ok_acceptor v a :
  owner_ok v → accept_thread_ v ≠ ANone → a ≠ ACall → (∀ l, a ≠ AAccept l) → owner_ok (set_acceptor a v).
Proof.
  intros H Ha H1 H2. pose proof (acceptor_alive v H Ha) as Hal.
  unfold owner_ok, listener_dead in *. simpl. destruct (owner v); try done; [|naive_solver..].
  rewrite Hal. intros l ->. by destruct (H2 l).
Qed.

Lemma test_step_ok v :
  server_ok v → accept_thread_ v = ATest →
  server_ok (set_acceptor (if running_ v then ACall else AExit) v).
Proof.
  intros Hv Ea. pose proof (so_owner v Hv) as Ho. destruct (running_ v) eqn:Hr; apply set_acceptor_ok; rewrite ?Ea; try done.
  - pose proof (running_early v Ho Hr). pose proof (acceptor_alive v Ho) as Hal. rewrite Ea in Hal.
    specialize (Hal ltac:(done)). unfold owner_ok. simpl. destruct (owner v); try done; [|congruence..].
    by rewrite Hr.
  - apply owner_ok_acceptor; [done|by rewrite Ea|done|done].
Qed.

Lemma call_step_ok v :
  server_ok v → accept_thread_ v = ACall → server_ok (set_acceptor (AAccept (listener_ v)) v).
Proof.
  intros Hv Ea. apply set_acceptor_ok; rewrite ?Ea; try done.
  pose proof (so_owner v Hv) as Ho. pose proof (so_neg v Hv) as Hn. pose proof (acceptor_alive v Ho) as Hal.
  rewrite Ea in Hal. specialize (Hal ltac:(done)). unfold owner_ok, listener_dead in *. simpl.
  destruct (owner v); try done.
  - rewrite Hal. by intros l [= <-].
  - split; [done|]. by intros l [= <-].
  - destruct Ho as (? & Hc & _). split_and!; [done|done|]. intros l [= <-]. by apply Hc.
  - destruct Ho as (? & Hc & _). split_and!; [done|done|]. intros l [= <-]. by rewrite Hc.
  - destruct Ho as (? & Hc & _). split_and!; [done|done|]. intros l [= <-]. by rewrite Hc.
  - destruct Ho as (? & Hc & _). split_and!; [done|done|]. intros l [= <-]. by rewrite Hc.
Qed.

Lemma push_step_ok v s sid :
  server_ok v → accept_thread_ v = APush s sid →
  server_ok (set_acceptor (ASpawn s sid) (set_sockets (session_sockets_ v ++ [s]) v)).
Proof.
  intros [Hneg Hown Hsub Hall How Hbl] Ea. unfold owing in *. rewrite Ea in *. simpl in Hsub, Hall. rewrite app_nil_r in *.
  constructor; unfold owing; simpl; try done.
  - by apply submseteq_skips_r.
  - intros Hc. by rewrite (Hall Hc).
  - apply (owner_ok_acceptor (set_sockets _ v)); [done|simpl; by rewrite Ea|done|done].
  - apply (blocked_ok_mono v); try done.
    + intros s' Hs. left. split; [done|]. unfold pending. simpl. by rewrite Ea.
    + intros t Ht Hb. by exists t.
Qed.

Lemma spawn_step_ok v s sid :
  server_ok v → accept_thread_ v = ASpawn s sid →
  server_ok (set_acceptor ATest (set_threads (session_threads_ v ++ [mkThread s sid TTest]) v)).
Proof.
  intros [Hneg Hown Hsub Hall How Hbl] Ea. pose proof (acceptor_alive v How) as Hal. rewrite Ea in Hal.
  specialize (Hal ltac:(done)).
  set (v' := set_acceptor _ _). assert (owing v' = owing v) as Hw.
  { unfold owing, v', owed. simpl. rewrite Ea, filter_app, fmap_app. simpl. by rewrite app_nil_r. }
  assert (∀ s', acc_holds (accept_thread_ v) s' → mkThread s sid TTest ∈ session_threads_ v' ∧ s = s') as Hnew.
  { rewrite Ea. intros s' <-. split; [|done]. simpl. rewrite elem_of_app, list_elem_of_singleton. by right. }
  assert (∀ t, t ∈ session_threads_ v → t ∈ session_threads_ v') as Hold.
  { intros t Ht. simpl. rewrite elem_of_app. by left. }
  constructor; rewrite ?Hw; try done.
  - intros s' Hs. destruct (Hown s' Hs) as [?|[[Hin ->]%Hnew|(u & Hu & ? & ?)]]; [by left|right; right..].
    + by eexists; split.
    + exists u. split; [by apply Hold|done].
  - unfold owner_ok, listener_dead in *. simpl. destruct (owner v); try done; [|naive_solver..]. by rewrite Hal.
  - apply (blocked_ok_mono v); try done.
    + intros s' Hs. left. split; [done|]. intros [[Hin ->]%Hnew|(u & Hu & ? & ?)]; right.
      * eexists; split_and!; [exact Hin|done|by left].
      * exists u. split; [by apply Hold|done].
    + intros t. simpl. rewrite elem_of_app, list_elem_of_singleton. intros [Ht| ->] Hb; [by exists t|]. by destruct Hb.
Qed.

Lemma accept_step_ok v v' : server_ok v → accept_step v = Some v' → server_ok v'.
Proof.
  unfold accept_step. intros Hv. pose proof (so_owner v Hv) as Ho.
  destruct (accept_thread_ v) as [| | |l|s|s sid|s sid|] eqn:Ea; try done.
  - intros [= <-]. by apply test_step_ok.
  - intros [= <-]. by apply call_step_ok.
  - destruct (Z.eqb_spec s kInvalidSocket) as [->|Hs]; intros [= <-].
    + apply set_acceptor_ok; [done|by apply owner_ok_acceptor; rewrite ?Ea|by rewrite Ea|].
      rewrite Ea. intros s Hs <-. by destruct (so_neg v Hv).
    + apply (set_acceptor_ok _ (set_next_id _ v)); simpl; rewrite ?Ea; try done; [by apply set_next_id_ok|].
      apply (owner_ok_acceptor (set_next_id _ v)); simpl; by rewrite ?Ea.
  - destruct (locked v); [done|]. intros [= <-]. by apply push_step_ok.
  - intros [= <-]. by apply spawn_step_ok.
Qed.

Lemma accept_return_ok r v v' : server_ok v → accept_return r v = Some v' → server_ok v'.
Proof.
  unfold accept_return. intros Hv. destruct (accept_thread_ v) as [| | |l| | | |] eqn:Ea; try done.
  pose proof (so_owner v Hv) as Ho. pose proof (acceptor_alive v Ho) as Hal. rewrite Ea in Hal. specialize (Hal ltac:(done)).
  destruct (Z.eqb_spec r kInvalidSocket) as [->|Hr]; [|case_decide as Hd; [|done]]; intros [= <-].
  { apply set_acceptor_ok; rewrite ?Ea; try done. apply owner_ok_acceptor; by rewrite ?Ea. }
  destruct Hv as [Hneg Hown Hsub Hall _ Hbl].
  unfold owing in *. rewrite Ea in *. constructor; unfold owing; simpl; try done.
  - set_solver.
  - intros s [->%elem_of_singleton|Hs]%elem_of_union; [by right; left|].
    destruct (Hown s Hs) as [?|[?|?]]; [by left|done|by right; right].
  - unfold owner_ok, listener_dead, at_rest in *. simpl. destruct (owner v); rewrite ?Ea in *; try done; try naive_solver.
    by rewrite Hal.
  - apply (blocked_ok_mono v); [done|done| |intros t Ht Hb; by exists t]. simpl.
    intros s [->%elem_of_singleton|Hs]%elem_of_union; [right; by left|]. left. split; [done|].
    intros [Ha|?]; [by rewrite Ea in Ha|by right].
Qed.

(** A step of the owner that opens and closes nothing. *)
Lemma set_owner_ok c v :
  server_ok v → owner_ok (set_owner c v) → blocked_ok (set_owner c v) →
  (cleared (owner v) → cleared c) → owner v ≠ CResetListener → c ≠ CResetListener →
  server_ok (set_owner c v).
Proof.
  intros [Hneg Hown Hsub Hall How Hbl] Ho Hb Hc Hn Hn'. constructor; simpl; try done.
  - intros s Hs. destruct (Hown s Hs) as [[? _]|?]; [by left|by right].
  - intros Hnc. apply Hall. tauto.
Qed.

(** Before [stop] clears them, the sockets of all threads that have not erased
    theirs are listed. *)
Lemma sockets_listed v t :
  server_ok v → ¬ cleared (owner v) → t ∈ session_threads_ v → tpc t ≠ TDone → tsock t ∈ session_sockets_ v.
Proof.
  intros Hv Hc Ht Hd. rewrite (so_all v Hv Hc). unfold owing, owed. rewrite elem_of_app. left.
  apply list_elem_of_fmap. exists t. split; [done|]. by apply list_elem_of_filter.
Qed.

Lemma blocking_not_done pc : blocking pc → pc ≠ TDone.
Proof. by intros [-> | ->]. Qed.

Lemma close_listener_ok v :
  server_ok v → owner v = CCloseListener → listener_ v ≠ kInvalidSocket →
  server_ok (set_owner CResetListener (close_fd (listener_ v) v)).
Proof.
  intros [Hneg Hown Hsub Hall How Hbl] Eo Hl. unfold owner_ok in How. rewrite Eo in *.
  destruct How as [Hr Ha]. constructor; simpl; try done.
  - set_solver.
  - intros s [Hs Hne]%elem_of_difference. rewrite elem_of_singleton in Hne.
    destruct (Hown s Hs) as [[? _]|?]; [done|by right].
  - unfold owner_ok, listener_dead. simpl. split_and!; [done|set_solver|]. intros l E. rewrite (Ha l E). set_solver.
Qed.

Lemma closing_ok v s todo :
  server_ok v → owner v = CClosing (s :: todo) → server_ok (set_owner (CClosing todo) (close_fd s v)).
Proof.
  intros [Hneg Hown Hsub Hall How Hbl] Eo. constructor; simpl; try done.
  - set_solver.
  - intros s' [Hs _]%elem_of_difference. destruct (Hown s' Hs) as [[? _]|?]; [by left|by right].
  - intros _. apply Hall. rewrite Eo. by intros [].
  - apply (owner_ok_close _ s) in How. unfold owner_ok in *. simpl in *. by rewrite Eo in How.
  - intros t Ht Hb. specialize (Hbl t Ht Hb). rewrite Eo in Hbl. simpl.
    rewrite elem_of_difference, elem_of_singleton. destruct Hbl as [Hin|[Hn|Hp]]; [|tauto|tauto].
    apply elem_of_cons in Hin as [->|Hin]; tauto.
Qed.

Lemma clear_ok v :
  server_ok v → owner v = CClosing [] → server_ok (set_owner CJoinAcc (set_sockets [] v)).
Proof.
  intros [Hneg Hown Hsub Hall How Hbl] Eo. constructor; simpl; try done.
  - intros s Hs. destruct (Hown s Hs) as [[? _]|?]; [by left|by right].
  - apply submseteq_nil_l.
  - unfold owner_ok in *. by rewrite Eo in How.
  - intros t Ht Hb. specialize (Hbl t Ht Hb). rewrite Eo in Hbl. simpl.
    destruct Hbl as [Hin%elem_of_nil|?]; done.
Qed.

Lemma owed_nil ts : (∀ t, t ∈ ts → tpc t = TDone) → owed ts = [].
Proof.
  intros Hd. unfold owed. induction ts as [|t ts IH]; [done|]. rewrite filter_cons_False.
  - apply IH. intros u Hu. apply Hd. by right.
  - intros Hn. apply Hn, Hd. by left.
Qed.

(** When every thread is done, nothing is open and nothing is listed. *)
Lemma all_done_empty v :
  server_ok v → listener_ v = kInvalidSocket → accept_thread_ v = ANone →
  (∀ t, t ∈ session_threads_ v → tpc t = TDone) → open_fds v = ∅ ∧ session_sockets_ v = [].
Proof.
  intros [Hneg Hown Hsub _ _ _] Hl Ha Hd. split.
  - apply set_eq. intros s. split; [|set_solver]. intros Hs.
    destruct (Hown s Hs) as [[-> _]|[H|(t & Ht & _ & _ & Hh)]]; [by rewrite Hl in Hs|by rewrite Ha in H|].
    by destruct Hh; apply Hd.
  - apply submseteq_nil_r. unfold owing in Hsub. rewrite Ha, app_nil_r in Hsub. by rewrite (owed_nil _ Hd) in Hsub.
Qed.

Lemma join_end_ok v i :
  server_ok v → owner v = CJoin i → session_threads_ v !! i = None →
  server_ok (set_owner CIdle (set_threads [] v)) ∧ open_fds v = ∅ ∧ session_sockets_ v = [].
Proof.
  intros Hv Eo Hi. pose proof (so_owner v Hv) as Ho. unfold owner_ok in Ho. rewrite Eo in Ho.
  destruct Ho as (Hr & Hl & Ha & Hd). destruct (all_done_empty v Hv Hl Ha) as [Hf Hs].
  { intros t (j & Hj)%list_elem_of_lookup. apply (Hd j); [|done]. apply lookup_lt_Some in Hj.
    apply lookup_ge_None in Hi. lia. }
  split_and!; try done. constructor; unfold owing; simpl; rewrite ?Hf, ?Hs, ?Ha; try done.
  unfold owner_ok. simpl. by rewrite Hr.
Qed.

Lemma spawn_acceptor_ok v :
  server_ok v → owner v = CSpawn → server_ok (set_owner CIdle (set_acceptor ATest v)).
Proof.
  intros [Hneg Hown Hsub Hall How Hbl] Eo. unfold owner_ok in How. rewrite Eo in *. destruct How as (Hr & Ha & Ht).
  unfold owing in *. rewrite Ha in *. constructor; unfold owing; simpl; try done.
  - intros s Hs. destruct (Hown s Hs) as [[? _]|?]; [by left|by right].
  - unfold owner_ok. simpl. by rewrite Hr.
Qed.

Lemma reset_listener_ok v :
  server_ok v → owner v = CResetListener → server_ok (set_owner CLock (set_listener kInvalidSocket v)).
Proof.
  intros [Hneg Hown Hsub Hall How Hbl] Eo. unfold owner_ok in How. rewrite Eo in *. destruct How as (Hr & Ha & Ht).
  constructor; simpl; try done. intros s Hs. destruct (Hown s Hs) as [[_ ?]|?]; [done|by right].
Qed.

Lemma join_acceptor_ok v :
  server_ok v → owner v = CJoinAcc → accept_thread_ v = ANone ∨ accept_thread_ v = AExit →
  server_ok (set_owner (CJoin 0) (set_acceptor ANone v)).
Proof.
  intros [Hneg Hown Hsub Hall How Hbl] Eo Ha. unfold owner_ok in How. rewrite Eo in *. destruct How as (Hr & Hl & Hd).
  assert (∀ s, ¬ acc_holds (accept_thread_ v) s) as Hh by (destruct Ha as [-> | ->]; by intros s []).
  assert (acc_owes (accept_thread_ v) = []) as Hw by (by destruct Ha as [-> | ->]).
  unfold owing in *. rewrite Hw in *. constructor; unfold owing; simpl; try done.
  - intros s Hs. destruct (Hown s Hs) as [[? _]|[?|?]]; [by left|by destruct (Hh s)|by right; right].
  - split_and!; try done. intros j t Hj. lia.
  - intros t Ht Hb. specialize (Hbl t Ht Hb). rewrite Eo in Hbl. simpl.
    destruct Hbl as [?|[?|?]]; [by left|by destruct (Hh (tsock t))|by right; right].
Qed.

Lemma owner_step_ok v v' : server_ok v → owner_step v = Some v' → server_ok v'.
Proof.
  unfold owner_step. intros Hv. pose proof (so_owner v Hv) as Ho.
  destruct (owner v) as [| | | | | |[|s todo]| |i] eqn:Eo; try done.
  - intros [= <-]. by apply spawn_acceptor_ok.
  - destruct (Z.eqb_spec (listener_ v) kInvalidSocket) as [El|El]; intros [= <-]; [|by apply close_listener_ok].
    apply set_owner_ok; rewrite ?Eo; try done.
    unfold owner_ok, listener_dead in *. simpl. rewrite Eo in Ho. destruct Ho as [? Ha].
    split_and!; [done|done|]. intros l E. rewrite (Ha l E), El. apply Hv.
  - intros [= <-]. by apply reset_listener_ok.
  - intros [= <-]. apply set_owner_ok; rewrite ?Eo; try done.
    + unfold owner_ok in *. by rewrite Eo in Ho.
    + intros t Ht Hb. simpl. left. apply sockets_listed; [done|rewrite Eo; by intros []|done|by apply blocking_not_done].
  - intros [= <-]. by apply clear_ok.
  - intros [= <-]. by apply closing_ok.
  - intros E. assert (v' = set_owner (CJoin 0) (set_acceptor ANone v) ∧
      (accept_thread_ v = ANone ∨ accept_thread_ v = AExit)) as [-> Ha].
    { destruct (accept_thread_ v) eqn:Ea; try done; injection E as <-; (split; [|auto]); [|done].
      unfold set_owner, set_acceptor. simpl. by rewrite Ea. }
    by apply join_acceptor_ok.
  - destruct (session_threads_ v !! i) as [t|] eqn:Hi; [case_decide as Ht; [|done]|]; intros [= <-].
    + apply set_owner_ok; rewrite ?Eo; try done.
      * unfold owner_ok in *. rewrite Eo in Ho. simpl. destruct Ho as (? & ? & ? & Hd). split_and!; try done.
        intros j u Hj Hu. destruct (decide (j = i)) as [->|]; [congruence|]. apply (Hd j); [lia|done].
      * intros u Hu Hb. pose proof (so_blocked v Hv u Hu Hb) as H. by rewrite Eo in H.
    + by apply (join_end_ok v i).
Qed.

Lemma set_running_start_ok v :
  server_ok v → owner v = CIdle → running_ v = false → server_ok (set_owner CListen (set_running true v)).
Proof.
  intros [Hneg Hown Hsub Hall How Hbl] Eo Hr. unfold owner_ok in How. rewrite Eo, Hr in *.
  constructor; simpl; try done. intros s Hs. destruct (Hown s Hs) as [[? _]|?]; [by left|by right].
Qed.

Lemma set_running_stop_ok v :
  server_ok v → owner v = CIdle → running_ v = true → server_ok (set_owner CCloseListener (set_running false v)).
Proof.
  intros [Hneg Hown Hsub Hall How Hbl] Eo Hr. unfold owner_ok in How. rewrite Eo, Hr in *.
  constructor; simpl; try done. intros s Hs. destruct (Hown s Hs) as [[? _]|?]; [by left|by right].
Qed.

Lemma start_listen_ok r v v' : server_ok v → start_listen r v = Some v' → server_ok v'.
Proof.
  unfold start_listen. intros Hv. destruct (owner v) eqn:Eo; try done.
  pose proof (so_owner v Hv) as Ho. unfold owner_ok in Ho. rewrite Eo in Ho. destruct Ho as (Hr & Hl & Ha & Ht).
  destruct (Z.eqb_spec r kInvalidSocket) as [->|Hne]; [|case_decide; [done|]]; intros [= <-].
  - apply set_owner_ok; rewrite ?Eo; try done. unfold owner_ok. simpl. by rewrite Hr, Ha.
  - destruct (all_done_empty v Hv Hl Ha) as [Hf Hs]; [rewrite Ht; by intros t ?%elem_of_nil|].
    destruct Hv as [Hneg Hown Hsub Hall _ _]. rewrite Eo in *. constructor; simpl; rewrite ?Hf; try done.
    + set_solver.
    + intros s Hin. left. split; [set_solver|done].
Qed.

Lemma sstep_ok e v v' : server_ok v → sstep e v = Some v' → server_ok v'.
Proof.
  intros Hv. destruct e; simpl.
  - unfold start_call. destruct (owner v) eqn:Eo; try done. destruct (running_ v) eqn:Hr; intros [= <-]; [done|].
    by apply set_running_start_ok.
  - unfold stop_call. destruct (owner v) eqn:Eo; try done. destruct (running_ v) eqn:Hr; intros [= <-]; [|done].
    by apply set_running_stop_ok.
  - by apply start_listen_ok.
  - by apply owner_step_ok.
  - by apply accept_return_ok.
  - by apply accept_step_ok.
  - by apply session_step_ok.
  - by apply recv_return_ok.
  - by apply work_return_ok.
Qed.

Lemma reachable_ok v : reachable v → server_ok v.
Proof.
  apply (rtc_invariant server_step server_ok).
  - intros v1 v2 H1 [e He]. by eapply sstep_ok.
  - apply server_ok_new.
Qed.

(** Nothing is left of a server that is not running. *)
Definition shut_down (v : Server) : Prop :=
  owner v = CIdle ∧ running_ v = false ∧ open_fds v = ∅ ∧ session_sockets_ v = [] ∧
  session_threads_ v = [] ∧ accept_thread_ v = ANone ∧ listener_ v = kInvalidSocket.

Lemma idle_shut_down v : server_ok v → owner v = CIdle → running_ v = false → shut_down v.
Proof.
  intros Hv Eo Hr. pose proof (so_owner v Hv) as Ho. unfold owner_ok in Ho. rewrite Eo, Hr in Ho.
  destruct Ho as (Hl & Ha & Ht). destruct (all_done_empty v Hv Hl Ha) as [Hf Hs].
  - rewrite Ht. by intros t ?%elem_of_nil.
  - by split_and!.
Qed.

(** ** [stop] returns *)

(** In [stop], after the exchange. *)
Definition stopping (v : Server) : Prop :=
  match owner v with CIdle | CListen | CSpawn => False | _ => True end.

(** The calls of the operating system that threads of the server may be in, and
    the events that end them. *)
Inductive Call := Call_accept | Call_recv (i : nat) | Call_work (i : nat).

Definition in_call (v : Server) (c : Call) : Prop :=
  match c with
  | Call_accept => ∃ l, accept_thread_ v = AAccept l
  | Call_recv i => ∃ t, session_threads_ v !! i = Some t ∧ tpc t = TRecv
  | Call_work i => ∃ t, session_threads_ v !! i = Some t ∧ tpc t = TWork
  end.

(** The descriptor of the call has been closed. *)
Definition call_closed (v : Server) (c : Call) : Prop :=
  match c with
  | Call_accept => ∀ l, accept_thread_ v = AAccept l → l ∉ open_fds v
  | Call_recv i | Call_work i => ∀ t, session_threads_ v !! i = Some t → tsock t ∉ open_fds v
  end.

Definition returns (c : Call) (e : Event) : Prop :=
  match c, e with
  | Call_accept, EAccept _ => True
  | Call_recv i, ERecv j _ | Call_work i, EWork j _ => i = j
  | _, _ => False
  end.

(** A step a thread takes by itself. *)
Definition own_step (e : Event) : Prop :=
  match e with EOwner | EAcceptor | ESession _ _ => True | _ => False end.

(** What [stop] may have to wait for: nothing, since some thread can go on by
    itself, or the return of a call on a descriptor that has been closed. *)
Definition goes_on (v : Server) : Prop :=
  (∃ e v', own_step e ∧ sstep e v = Some v') ∨
  ∃ c e v', in_call v c ∧ call_closed v c ∧ returns c e ∧ sstep e v = Some v'.

(** Whatever is scheduled, [P] comes to hold once the calls return: until it
    does, [stop] waits for no more than that, and after every possible event [P]
    is inevitable. *)
Inductive inevitable (P : Server → Prop) : Server → Prop :=
| inev_now v : P v → inevitable P v
| inev_later v :
    goes_on v → (∀ e1 v1, sstep e1 v = Some v1 → inevitable P v1) → inevitable P v.

(** What is left to do. *)
Definition session_rank (t : SessionThread) : nat :=
  match tpc t with TRecv => 5 | TWork => 4 | TTest => 3 | TClose => 2 | TErase => 1 | TDone => 0 end.
Definition accept_rank (a : AcceptPc) : nat :=
  match a with
  | ACall => 11 | AAccept _ => 10 | AGot _ => 9 | APush _ _ => 8 | ASpawn _ _ => 6 | ATest => 1
  | AExit | ANone => 0
  end.
Definition owner_rank (v : Server) : nat :=
  match owner v with
  | CCloseListener => 6 + length (session_sockets_ v) + length (session_threads_ v)
  | CResetListener => 5 + length (session_sockets_ v) + length (session_threads_ v)
  | CLock => 4 + length (session_sockets_ v) + length (session_threads_ v)
  | CClosing todo => 3 + length todo + length (session_threads_ v)
  | CJoinAcc => 2 + length (session_threads_ v)
  | CJoin i => 1 + (length (session_threads_ v) - i)
  | CIdle | CListen | CSpawn => 0
  end.
Definition server_rank (v : Server) : nat :=
  owner_rank v + accept_rank (accept_thread_ v) + sum_list (session_rank <$> session_threads_ v).

Lemma erase_first_length s l : length (erase_first s l) ≤ length l.
Proof. induction l as [|x l IH]; cbn [erase_first length]; [lia|]. destruct (x =? s)%Z; cbn [length]; lia. Qed.

Lemma set_pc_rank v i t pc :
  session_threads_ v !! i = Some t → session_rank (mkThread (tsock t) (tsid t) pc) < session_rank t →
  sum_list (session_rank <$> session_threads_ (set_pc i t pc v)) < sum_list (session_rank <$> session_threads_ v) ∧
  length (session_threads_ (set_pc i t pc v)) = length (session_threads_ v).
Proof.
  intros Hi Hr. destruct (thread_split _ i t (mkThread (tsock t) (tsid t) pc) Hi) as (l1 & l2 & E1 & E2).
  split; [|apply length_insert]. unfold set_pc. simpl. rewrite E2, E1, !fmap_app, !fmap_cons, !sum_list_with_app. simpl. lia.
Qed.

(** A step of a session thread. *)
Lemma session_event_rank v v' i t pc :
  session_threads_ v !! i = Some t → session_rank (mkThread (tsock t) (tsid t) pc) < session_rank t →
  owner v' = owner v → accept_thread_ v' = accept_thread_ v → session_threads_ v' = session_threads_ v →
  length (session_sockets_ v') ≤ length (session_sockets_ v) →
  server_rank (set_pc i t pc v') < server_rank v.
Proof.
  intros Hi Hr Ho Ha Ht Hl. rewrite <- Ht in Hi. destruct (set_pc_rank v' i t pc Hi Hr) as [Hs Hn].
  unfold server_rank. rewrite Ht in Hs, Hn. simpl in *. rewrite Ha.
  assert (owner_rank (set_pc i t pc v') ≤ owner_rank v) as Hor; [|lia].
  unfold owner_rank. simpl. rewrite Ho, Hn. destruct (owner v); lia.
Qed.

Lemma session_events_rank e i v v' :
  (∃ b, e = ESession i b) ∨ (∃ n, e = ERecv i n) ∨ (∃ b, e = EWork i b) →
  running_ v = false → sstep e v = Some v' → server_rank v' < server_rank v ∧ owner v' = owner v.
Proof.
  intros He Hr. destruct He as [(b & ->)|[(n & ->)|(b & ->)]]; simpl; unfold session_step, recv_return, work_return;
    (destruct (session_threads_ v !! i) as [t|] eqn:Hi; [|done]); simpl; destruct (tpc t) eqn:Ht; try done.
  - rewrite Hr. intros [= <-]. split; [|done]. apply session_event_rank; try done. unfold session_rank. rewrite Ht. simpl. lia.
  - intros [= <-]. split; [|done]. apply session_event_rank; try done. unfold session_rank. rewrite Ht. simpl. lia.
  - destruct (locked v); [done|]. intros [= <-]. split; [|done].
    apply session_event_rank; try done; [|apply erase_first_length]. unfold session_rank. rewrite Ht. simpl. lia.
  - destruct (n <=? 0)%Z; intros [= <-]; (split; [|done]);
      apply session_event_rank; try done; unfold session_rank; rewrite Ht; simpl; lia.
  - intros [= <-]. split; [|done]. apply session_event_rank; try done. unfold session_rank. rewrite Ht. simpl. destruct b; lia.
Qed.

Lemma acceptor_events_rank e v v' :
  e = EAcceptor ∨ (∃ r, e = EAccept r) → running_ v = false → sstep e v = Some v' →
  server_rank v' < server_rank v ∧ owner v' = owner v.
Proof.
  intros He Hr. destruct He as [-> |(r & ->)]; simpl; unfold accept_step, accept_return;
    destruct (accept_thread_ v) as [| | |l|s|s sid|s sid|] eqn:Ea; try done.
  - rewrite Hr. intros [= <-]. unfold server_rank. simpl. rewrite Ea. simpl. split; [|done]. unfold owner_rank. simpl. lia.
  - intros [= <-]. unfold server_rank, owner_rank. simpl. rewrite Ea. simpl. split; [|done]. lia.
  - destruct (s =? kInvalidSocket)%Z; intros [= <-]; unfold server_rank, owner_rank; simpl; rewrite Ea; simpl; (split; [lia|done]).
  - destruct (locked v); [done|]. intros [= <-]. unfold server_rank, owner_rank. simpl. rewrite Ea, length_app. simpl.
    split; [|done]. destruct (owner v); lia.
  - intros [= <-]. unfold server_rank, owner_rank. simpl. rewrite Ea, length_app, fmap_app, sum_list_with_app. simpl.
    split; [|done]. destruct (owner v); lia.
  - destruct (r =? kInvalidSocket)%Z; [|case_decide; [|done]]; intros [= <-];
      unfold server_rank, owner_rank; simpl; rewrite Ea; simpl; (split; [lia|done]).
Qed.

Lemma owner_event_rank v v' :
  stopping v → owner_step v = Some v' →
  server_rank v' < server_rank v ∧ running_ v' = running_ v ∧ (stopping v' ∨ owner v' = CIdle).
Proof.
  unfold stopping, owner_step. destruct (owner v) as [| | | | | |[|s todo]| |i] eqn:Eo; try done; intros _.
  - destruct (_ =? _)%Z; intros [= <-]; unfold server_rank, owner_rank; simpl; rewrite Eo; (split_and!; [lia|done|by left]).
  - intros [= <-]; unfold server_rank, owner_rank; simpl; rewrite Eo; (split_and!; [lia|done|by left]).
  - intros [= <-]; unfold server_rank, owner_rank; simpl; rewrite Eo; (split_and!; [lia|done|by left]).
  - intros [= <-]; unfold server_rank, owner_rank; simpl; rewrite Eo; (split_and!; [lia|done|by left]).
  - intros [= <-]; unfold server_rank, owner_rank; simpl; rewrite Eo; (split_and!; [simpl; lia|done|by left]).
  - destruct (accept_thread_ v) eqn:Ea; try done; intros [= <-]; unfold server_rank, owner_rank; simpl; rewrite Eo, Ea;
      simpl; (split_and!; [lia|done|by left]).
  - destruct (session_threads_ v !! i) as [t|] eqn:Hi; [case_decide; [|done]|]; intros [= <-];
      unfold server_rank, owner_rank; simpl; rewrite Eo.
    + apply lookup_lt_Some in Hi. split_and!; [lia|done|by left].
    + split_and!; [simpl; lia|done|by right].
Qed.

(** Every event brings [stop] nearer to its end. *)
Lemma stopping_rank e v v' :
  server_ok v → stopping v → sstep e v = Some v' →
  server_rank v' < server_rank v ∧ (stopping v' ∨ owner v' = CIdle ∧ running_ v' = false).
Proof.
  intros Hv Hs E. assert (running_ v = false) as Hr.
  { pose proof (so_owner v Hv) as Ho. unfold owner_ok, stopping in *. destruct (owner v); tauto. }
  assert (server_rank v' < server_rank v ∧ owner v' = owner v → server_rank v' < server_rank v ∧
    (stopping v' ∨ owner v' = CIdle ∧ running_ v' = false)) as Hsame.
  { unfold stopping. intros [? ->]. split; [done|by left]. }
  destruct e as [| |r| |r| |i b|i n|i b].
  - simpl in E. unfold start_call, stopping in *. by destruct (owner v).
  - simpl in E. unfold stop_call, stopping in *. by destruct (owner v).
  - simpl in E. unfold start_listen, stopping in *. by destruct (owner v).
  - destruct (owner_event_rank v v' Hs E) as (? & -> & [?|?]); auto.
  - apply Hsame, (acceptor_events_rank (EAccept r)); eauto.
  - apply Hsame, (acceptor_events_rank EAcceptor); eauto.
  - apply Hsame, (session_events_rank (ESession i b) i); eauto.
  - apply Hsame, (session_events_rank (ERecv i n) i); eauto.
  - apply Hsame, (session_events_rank (EWork i b) i); eauto 6.
Qed.

(** A call can return. *)
Lemma call_returns v c : in_call v c → ∃ e v', returns c e ∧ sstep e v = Some v'.
Proof.
  destruct c as [|i|i]; simpl.
  - intros [l Ha]. exists (EAccept kInvalidSocket). simpl. unfold accept_return. rewrite Ha. eauto.
  - intros (t & Hi & Ht). exists (ERecv i 0). simpl. unfold recv_return. rewrite Hi. simpl. rewrite Ht. eauto.
  - intros (t & Hi & Ht). exists (EWork i true). simpl. unfold work_return. rewrite Hi. simpl. rewrite Ht. eauto.
Qed.

Lemma closed_call_goes_on v c : in_call v c → call_closed v c → goes_on v.
Proof. intros Hc Hcl. right. destruct (call_returns v c Hc) as (e & v' & Hr & E). by exists c, e, v'. Qed.

(** A thread that is not done can go on or is in a call on a closed descriptor,
    unless another thread can go on. *)
Lemma session_goes_on v i t :
  server_ok v → owner v = CJoin i → session_threads_ v !! i = Some t → tpc t ≠ TDone → goes_on v.
Proof.
  intros Hv Eo Hi Hd. pose proof (so_owner v Hv) as Ho. unfold owner_ok in Ho. rewrite Eo in Ho.
  destruct Ho as (Hr & _ & Ha & _). assert (locked v = false) as Hl by (unfold locked; by rewrite Eo).
  assert (∀ j u, session_threads_ v !! j = Some u → tpc u = TTest ∨ tpc u = TClose ∨ tpc u = TErase → goes_on v) as Hgo.
  { intros j u Hj Hu. left. exists (ESession j false). simpl. unfold session_step. rewrite Hj. simpl. rewrite Hl.
    destruct Hu as [-> |[-> | ->]]; eauto. }
  destruct (decide (tpc t = TErase)) as [He|He]; [apply (Hgo i t); auto|].
  destruct (pc_cases (tpc t)) as [[?|?]|Hb]; [done|apply (Hgo i t); auto|apply (Hgo i t); auto|].
  assert (t ∈ session_threads_ v) as Hin by (apply list_elem_of_lookup; eauto).
  pose proof (so_blocked v Hv t Hin Hb) as H. rewrite Eo in H. destruct H as [Hf|[Hp|(u & (j & Hj)%list_elem_of_lookup & _ & Hu)]].
  - destruct Hb as [Hb|Hb]; [apply (closed_call_goes_on v (Call_recv i))|apply (closed_call_goes_on v (Call_work i))];
      simpl; [eauto|congruence..|eauto|congruence].
  - by rewrite Ha in Hp.
  - apply (Hgo j u); [done|tauto].
Qed.

Lemma acceptor_goes_on v : server_ok v → owner v = CJoinAcc → goes_on v.
Proof.
  intros Hv Eo. pose proof (so_owner v Hv) as Ho. unfold owner_ok, listener_dead in Ho. rewrite Eo in Ho.
  destruct Ho as (Hr & _ & Hd). assert (locked v = false) as Hl by (unfold locked; by rewrite Eo).
  destruct (accept_thread_ v) as [| | |l|s|s sid|s sid|] eqn:Ea.
  4: { apply (closed_call_goes_on v Call_accept); simpl; [eauto|]. rewrite Ea. intros l' [= <-]. by apply Hd. }
  1,7: left; exists EOwner; simpl; unfold owner_step; rewrite Eo, Ea; eauto.
  all: left; exists EAcceptor; simpl; unfold accept_step; rewrite Ea, ?Hl; eauto.
  destruct (_ =? _)%Z; eauto.
Qed.

Lemma stopping_goes_on v : server_ok v → stopping v → goes_on v.
Proof.
  intros Hv Hs. unfold stopping in Hs.
  destruct (owner v) as [| | | | | |todo| |i] eqn:Eo; try done; [..|by apply acceptor_goes_on|].
  1,2,3,4: left; exists EOwner; simpl; unfold owner_step; rewrite Eo; eauto.
  - destruct (_ =? _)%Z; eauto.
  - destruct todo; eauto.
  - destruct (session_threads_ v !! i) as [t|] eqn:Hi; [destruct (decide (tpc t = TDone)) as [Hd|Hd]|].
    + left. exists EOwner. simpl. unfold owner_step. rewrite Eo, Hi, decide_True by done. eauto.
    + by apply (session_goes_on v i t).
    + left. exists EOwner. simpl. unfold owner_step. rewrite Eo, Hi. eauto.
Qed.

Lemma stop_inevitable v : server_ok v → stopping v → inevitable shut_down v.
Proof.
  remember (server_rank v) as n eqn:Hn. revert v Hn. induction n as [n IH] using lt_wf_ind. intros v -> Hv Hs.
  apply inev_later; [by apply stopping_goes_on|].
  intros e1 v1 E1. pose proof (sstep_ok _ _ _ Hv E1) as Hv1.
  destruct (stopping_rank _ _ _ Hv Hs E1) as [Hlt [Hs1|[Ho Hr]]]; [by apply (IH (server_rank v1) Hlt)|].
  by apply inev_now, idle_shut_down.
Qed.

(** A thread of the list that another event does not touch. *)
Lemma thread_stays e v v' i t :
  server_ok v → stopping v → session_threads_ v !! i = Some t → tpc t = TRecv ∨ tpc t = TWork →
  ¬ returns (Call_recv i) e ∨ tpc t = TWork → ¬ returns (Call_work i) e ∨ tpc t = TRecv →
  sstep e v = Some v' → session_threads_ v' !! i = Some t ∧ owner v' ≠ CIdle.
Proof.
  intros Hv Hs Hi Ht Hr1 Hr2 E. pose proof (so_owner v Hv) as Ho.
  assert (∀ j u pc w, session_threads_ v !! j = Some u → session_threads_ w = session_threads_ v → owner w = owner v →
    j ≠ i → session_threads_ (set_pc j u pc w) !! i = Some t ∧ owner (set_pc j u pc w) ≠ CIdle) as Hset.
  { intros j u pc w _ Hw Hwo Hji. unfold set_pc. simpl. rewrite Hw, Hwo, list_lookup_insert_ne by done. split; [done|].
    unfold stopping in Hs. by destruct (owner v). }
  assert (owner v ≠ CIdle) as Hni by (unfold stopping in Hs; by destruct (owner v)).
  destruct e as [| |r| |r| |j b|j n|j b]; simpl in E.
  - unfold start_call in E. by destruct (owner v).
  - unfold stop_call in E. by destruct (owner v).
  - unfold start_listen, stopping in *. by destruct (owner v).
  - unfold owner_step in E. unfold stopping in Hs. unfold owner_ok in Ho.
    destruct (owner v) as [| | | | | |[|s0 todo]| |k] eqn:Eo; try done; try (injection E as <-; by split).
    + destruct (_ =? _)%Z; injection E as <-; by split.
    + destruct (accept_thread_ v); try done; injection E as <-; by split.
    + destruct (session_threads_ v !! k) as [u|] eqn:Hk; [case_decide; [|done]; injection E as <-; by split|].
      destruct Ho as (_ & _ & _ & Hdone). apply lookup_ge_None in Hk. apply lookup_lt_Some in Hi as Hlt.
      rewrite (Hdone i t ltac:(lia) Hi) in Ht. by destruct Ht.
  - unfold accept_return in E. repeat case_match; try done; injection E as <-; by split.
  - unfold accept_step in E. repeat case_match; try done; injection E as <-; (split; [simpl|done]); try done.
    by apply lookup_app_l_Some.
  - unfold session_step in E. destruct (session_threads_ v !! j) as [u|] eqn:Hj; [|done]. simpl in E.
    assert (j ≠ i) as Hji by (intros ->; rewrite Hi in Hj; injection Hj as <-; destruct Ht as [Ht|Ht]; by rewrite Ht in E).
    repeat case_match; try done; injection E as <-; by eapply Hset.
  - unfold recv_return in E. destruct (session_threads_ v !! j) as [u|] eqn:Hj; [|done]. simpl in E.
    destruct (tpc u) eqn:Hu; try done.
    assert (j ≠ i) as Hji. { intros ->. rewrite Hi in Hj. injection Hj as <-. simpl in Hr1. destruct Hr1; [done|congruence]. }
    case_match; injection E as <-; by eapply Hset.
  - unfold work_return in E. destruct (session_threads_ v !! j) as [u|] eqn:Hj; [|done]. simpl in E.
    destruct (tpc u) eqn:Hu; try done.
    assert (j ≠ i) as Hji. { intros ->. rewrite Hi in Hj. injection Hj as <-. simpl in Hr2. destruct Hr2; [done|congruence]. }
    case_match; injection E as <-; by eapply Hset.
Qed.

Lemma accept_stays e v v' l :
  server_ok v → stopping v → accept_thread_ v = AAccept l → ¬ returns Call_accept e → sstep e v = Some v' →
  accept_thread_ v' = AAccept l ∧ owner v' ≠ CIdle.
Proof.
  intros Hv Hs Ha Hr E. pose proof (so_owner v Hv) as Ho.
  assert (owner v ≠ CIdle) as Hni by (unfold stopping in Hs; by destruct (owner v)).
  destruct e as [| |r| |r| |j b|j n|j b]; simpl in E; try done.
  - unfold start_call in E. by destruct (owner v).
  - unfold stop_call in E. by destruct (owner v).
  - unfold start_listen, stopping in *. by destruct (owner v).
  - unfold owner_step in E. unfold stopping in Hs. unfold owner_ok in Ho. rewrite Ha in E.
    destruct (owner v) as [| | | | | |[|s0 todo]| |k] eqn:Eo; try done; try (injection E as <-; by split).
    + destruct (_ =? _)%Z; injection E as <-; by split.
    + destruct Ho as (_ & _ & Hn & _). congruence.
  - unfold accept_step in E. by rewrite Ha in E.
  - unfold session_step in E. destruct (session_threads_ v !! j) as [u|]; [|done]. simpl in E.
    repeat case_match; try done; injection E as <-; by split.
  - unfold recv_return in E. destruct (session_threads_ v !! j) as [u|]; [|done]. simpl in E.
    repeat case_match; try done; injection E as <-; by split.
  - unfold work_return in E. destruct (session_threads_ v !! j) as [u|]; [|done]. simpl in E.
    repeat case_match; try done; injection E as <-; by split.
Qed.

(** A call that does not return keeps [stop] from returning. *)
Lemma call_stays e v v' c :
  server_ok v → stopping v → in_call v c → ¬ returns c e → sstep e v = Some v' → stopping v' ∧ in_call v' c.
Proof.
  intros Hv Hs Hc Hr E. destruct (stopping_rank e v v' Hv Hs E) as [_ Hs'].
  assert (in_call v' c ∧ owner v' ≠ CIdle) as [Hc' Hni]; [|split; [|done]; destruct Hs' as [?|[? _]]; done].
  destruct c as [|i|i]; simpl in Hc |- *.
  - destruct Hc as [l Ha]. destruct (accept_stays e v v' l Hv Hs Ha Hr E). eauto.
  - destruct Hc as (t & Hi & Ht). destruct (thread_stays e v v' i t) as [? ?]; auto. eauto.
  - destruct Hc as (t & Hi & Ht). destruct (thread_stays e v v' i t) as [? ?]; auto. eauto.
Qed.

Lemma call_blocks_stop c es v v' :
  server_ok v → stopping v → in_call v c → server_run es v = Some v' → (∀ e, e ∈ es → ¬ returns c e) → stopping v'.
Proof.
  revert v. induction es as [|e es IH]; intros v Hv Hs Hc; cbn [server_run]; [by intros [= <-]|].
  destruct (sstep e v) as [v1|] eqn:E; [|done]. simpl. intros Hrun Hes.
  destruct (call_stays e v v1 c Hv Hs Hc) as [Hs1 Hc1]; [apply Hes; by left|done|].
  apply (IH v1); [by eapply sstep_ok|done|done|done|]. intros e' He'. apply Hes. by right.
Qed.

Lemma run_reachable es v v' : reachable v → server_run es v = Some v' → reachable v'.
Proof.
  revert v. induction es as [|e es IH]; intros v Hv; cbn [server_run]; [by intros [= <-]|].
  destruct (sstep e v) as [v1|] eqn:E; [|done]. simpl. apply IH. eapply rtc_r; [done|]. by exists e.
Qed.

(** *** Properties *)

(** C31: shutting down is complete.  Whatever the threads, the peers and the
    operating system did before, while descriptors were reused and connections
    came in during the shutdown: whenever the server is in no call and not
    running, in particular when [stop] has returned, no descriptor it opened
    is open, no socket is listed, and no thread is left to join. *)
Theorem server_stopped_clean v :
  reachable v → owner v = CIdle → running_ v = false → shut_down v.
Proof. intros Hv. by apply idle_shut_down, reachable_ok. Qed.

(** C32: [stop] returns when the calls its threads are in return, and not before.
    From any state in which it has begun, however many connections are open and
    even if one is just being accepted, under every schedule: until the server
    is shut down some thread can go on by itself, or [stop] waits for a call of
    [accept], [recv] or [send] on a descriptor that has been closed; every event
    brings the end nearer, so that there are finitely many of them, and the last
    leaves the server shut down.  Conversely, while some thread is in a call that
    does not return, [stop] does not return either.  Nothing is assumed of
    [close]; that it ends the calls of other threads is not part of this. *)
Theorem server_stop_exact v :
  reachable v → stopping v →
  inevitable shut_down v ∧
  ∀ c es v', in_call v c → server_run es v = Some v' → (∀ e, e ∈ es → ¬ returns c e) → stopping v'.
Proof.
  intros Hv Hs. pose proof (reachable_ok v Hv) as Hok. split; [by apply stop_inevitable|].
  intros c es v' Hc Hr Hes. by eapply call_blocks_stop.
Qed.

(** *** Witnesses *)

(** A server with a connection on which its session waits, and a second one
    accepted just before [stop] begins. *)
Definition ex_events : list Event :=
  [EStart; EListen 3; EOwner; EAcceptor; EAcceptor; EAccept 4; EAcceptor; EAcceptor; EAcceptor;
   ESession 0 false; EAcceptor; EAcceptor; EAccept 5; EStop].
Definition ex_stopping : Server := default Server_new (server_run ex_events Server_new).

Lemma ex_stopping_reachable : reachable ex_stopping.
Proof. apply (run_reachable ex_events Server_new); [apply rtc_refl|by vm_compute]. Qed.

Lemma server_stop_exact_witness :
  stopping ex_stopping ∧ in_call ex_stopping (Call_recv 0) ∧ inevitable shut_down ex_stopping ∧
  ∀ c es v', in_call ex_stopping c → server_run es ex_stopping = Some v' → (∀ e, e ∈ es → ¬ returns c e) → stopping v'.
Proof.
  split; [by vm_compute|]. split; [eexists; split; by vm_compute|].
  apply server_stop_exact; [apply ex_stopping_reachable|by vm_compute].
Defined.

(** [stop] has closed everything and waits to join the first session, which is
    still in [recv]. *)
Example ex_stop_waits :
  ∃ v, server_run (ex_events ++ [EOwner; EOwner; EOwner; EOwner; EOwner; EAcceptor; EAcceptor; EAcceptor; EAcceptor; EOwner])
         Server_new = Some v ∧
    owner v = CJoin 0 ∧ in_call v (Call_recv 0) ∧ call_closed v (Call_recv 0) ∧ sstep EOwner v = None.
Proof.
  eexists. split; [by vm_compute|]. split; [by vm_compute|]. split; [eexists; split; by vm_compute|].
  split; [|by vm_compute]. intros t Ht. vm_compute in Ht. injection Ht as <-. by vm_compute.
Qed.

(** The rest of the shutdown: the late connection is registered after [stop]
    has cleared the list, and is closed by its own thread. *)
Definition ex_shutdown : list Event :=
  [EOwner; EOwner; EOwner; EOwner; EOwner; EAcceptor; EAcceptor; EAcceptor; EAcceptor;
   ERecv 0 0; ESession 0 false; ESession 0 false; EOwner;
   ESession 1 false; ESession 1 false; ESession 1 false; EOwner; EOwner; EOwner].
Definition ex_stopped : Server := default Server_new (server_run ex_shutdown ex_stopping).

Lemma ex_stopped_reachable : reachable ex_stopped.
Proof. apply (run_reachable ex_shutdown ex_stopping); [apply ex_stopping_reachable|by vm_compute]. Qed.

Lemma server_stopped_clean_witness : next_session_id_ ex_stopped = 3%Z ∧ shut_down ex_stopped.
Proof.
  split; [by vm_compute|]. apply server_stopped_clean; [apply ex_stopped_reachable|by vm_compute..].
Defined.

(** *** Two behaviours *)

(** [stop] and the session's own thread both close its socket: here the thread
    is about to close a descriptor that [stop] has closed, and which by then
    the process may have opened for something else. *)
Example ex_double_close :
  ∃ v t, server_run (ex_events ++ [EOwner; EOwner; EOwner; EOwner; ERecv 0 0]) Server_new = Some v ∧
    session_threads_ v !! 0 = Some t ∧ tpc t = TClose ∧ tsock t ∉ open_fds v.
Proof. eexists _, _. split; [by vm_compute|]. split_and!; [done|done|]. by vm_compute. Qed.

(** If [listen_on] throws, [running_] stays set: [start] called again returns
    without listening. *)
Example ex_start_failed :
  ∃ v, server_run [EStart; EListen kInvalidSocket] Server_new = Some v ∧
    running_ v = true ∧ sstep EStart v = Some v ∧ open_fds v = ∅.
Proof. eexists. by split_and!; vm_compute. Qed.
